(* ===== verification/_CoqProject ===== *)
-Q . S2P
Prelude.v
Conc.v
Once.v
Termination.v
External.v
ExternalRef.v
TokioExecutor.v
ExecutorExamples.v
LifecycleBits.v
ServiceSpec.v
TaskCounts.v
RejectedTask.v
Registration.v
BlockingState.v
BlockingService.v
BlockingInv.v
BlockingSequential.v
BlockingHandle.v
BlockingActions.v
BlockingObjects.v
BlockingChannels.v
BlockingSlots.v
BlockingSpecs.v
BlockingCalls.v
BlockingCorrect.v
BlockingTermination.v
BlockingResults.v
BlockingExamples.v
IoState.v
IoService.v
IoInv.v
IoActions.v
IoObjects.v
IoChannels.v
IoJoins.v
IoSpecs.v
IoCorrect.v
IoSequential.v
IoTermination.v
IoResults.v
IoExamples.v
