(* ===== verification/Prelude.v ===== *)
(** * qubit-tokio-executor, verified

    The crate offers two executor services on top of a Tokio runtime:
    [TokioExecutorService] runs blocking closures on Tokio's blocking pool,
    [TokioIoExecutorService] runs futures on its workers.  Both accept a bounded
    number of tasks, can be shut down or stopped, and let callers wait until they
    have terminated; the stateless [TokioExecutor] hands single callables to the
    blocking pool.  This library models all three, with every method that touches
    shared state, and proves their contracts for every interleaving.
    All paths below are relative to [src/src/], except that the retry protocol of
    a producer comes from [src/examples/].

    ** How the code is modelled

    A Rust function that touches shared state is a program ([Conc.Prog]): a tree
    whose nodes are the atomic accesses it makes - an atomic load or
    compare-exchange, taking or releasing a lock, a section of the count monitor, a
    channel operation, a call into Tokio or into user code - in the order of the
    source.  [ioexec] and [bexec] give each access its effect on an explicit
    world; it may block (a held lock, a parked waiter) or panic (a failed
    [debug_assert!], a counter overflow).  A destructor of user code that panics is
    not such a failure: the function that runs it drops what it still holds and ends
    ([Unwind], [Unwound]), as does its caller; nothing else ends a call so
    ([Conc.finished]).  Pools of programs are interleaved
    access by access ([Conc.step]); the closures and futures handed to Tokio join
    the pool as new threads; and between any two accesses the runtime moves as it
    likes.  The same programs are run without interference by [Conc.run] for the
    functional theorems.  [usize] is [Z] with its width written out, in both build
    profiles.

    Code outside the repository is a parameter: Tokio's runtime, clock and one-shot
    channels, the watch channel of capacity changes, the waiter sets of [Notify] and
    of the count monitor, the allocator, [AtomicCount], the task endpoints of
    [qubit_executor], users' callables and users' futures are type classes
    ([External], [IoState.UserFuture]) with the documented laws the crate relies on.
    Two pieces of such code are programs over the model's accesses: the wait loops of
    [qubit_lock]'s monitor ([BlockingState.Monitor]) and the [TaskRunner] the executor
    hands a slot to ([TokioExecutor.TaskRunner]); each is any program that keeps to
    the documented protocol ([waits], [waits_bounded], [runs]).  [ExternalRef] and the
    files of examples instantiate the classes for the witnesses.  What a callable does when it
    is called - return a value, return an error, panic - and whether its destructor
    panics are the parameter [UserCode]; a call is logged with its thread and its
    result ([calls]).

    ** The files

    - [Prelude]: machine integers, weighted counts ([tally]), shares of lists,
      tactics.  [Conc]: programs, interleaving, and an Owicki-Gries style logic
      [wp]: threads own ghost tokens, a global invariant relates them to the
      state, every access restores it and stays within a two-state guarantee.
      [Termination]: pools whose started closures start nothing themselves act only
      finitely often; [ends_in] says where all runs end.  [Once]: how often a thread
      performs an action.
    - [External], [ExternalRef]: interfaces of code outside the repository and
      their concrete instances.
    - [TokioExecutor], [ExecutorExamples]: [tokio_executor.rs], callers and runners
      interleaved over any number of runtimes, and its contract [outcome_of].
    - [LifecycleBits]: [executor_service_lifecycle_bits.rs].  [TaskCounts]:
      [tokio_executor_service_state/internal/tokio_executor_task_counts.rs].
      [RejectedTask]: [rejected_task.rs].  [Registration]: the keys of
      [tokio_task_registration.rs] (its flags live in the services' worlds).
    - [ServiceSpec]: the abstract contract - lifecycle, accepted, started,
      capacity - as a transition system, what follows from it by rule induction,
      and the interface [Refines] through which a service inherits it.
    - [BlockingState]: [tokio_executor_service_state.rs] and the shared world.
      [BlockingService]: [tokio_service_task_guard.rs] and its tracker,
      [tokio_task_slot_cancellation.rs], [tokio_blocking_task_handle.rs]
      and [tokio_executor_service.rs].  A tracker is an index into
      [trackers]; a guard is the tracker it owns; a marker is an index into
      [registrations]; [worker] is the closure given to [spawn_blocking];
      [retry] and [submit_when_admissible] are the producer of
      [capacity_retry_callable.rs], over any of the [try_*] methods.  The
      [Arc<TaskSlotCell>] of a callable is a location with its number of owners -
      the closure and the hook of the registered entry - and the places where Rust
      drops an owner implicitly are written out ([DropSlot]: a replaced, removed or
      unused hook, an uncalled closure, the end of a call); the last drop runs the
      destructor of the cell, which publishes [Dropped] if the slot is still in it.
    - [BlockingSequential], [BlockingHandle]: the functional behaviour of each
      operation, query and observer.
    - [BlockingInv]: tokens, invariant, guarantee, discipline.  [BlockingActions],
      [BlockingObjects], [BlockingChannels], [BlockingSlots]: one rule per access.
      [BlockingSpecs]: one specification per method, the public operations
      ([Api]), arbitrary clients ([Client]) and adequacy.  [BlockingCalls]: which
      threads run user code.
    - [BlockingCorrect], [BlockingTermination], [BlockingResults]: the theorems
      about every interleaving.  [BlockingExamples]: concrete schedules and the witnesses.
    - [IoState], [IoService], [IoInv], [IoActions], [IoObjects], [IoChannels],
      [IoJoins], [IoSpecs], [IoCorrect], [IoSequential], [IoTermination],
      [IoResults], [IoExamples]: the same layers for
      [tokio_io_executor_service_state.rs], [tokio_io_service_task_guard.rs],
      [internal/tokio_guarded_io_future.rs], [internal/tokio_io_spawn_handoff.rs],
      [tokio_task_handle.rs] and [tokio_io_executor_service.rs]; [async_block] is
      the future given to [spawn], and the owner of a guard goes through the
      phases of its destruction token by token; a join handle is the block it
      belongs to, what it resolves to is recorded in [joined], every poll of a user's
      future and every panic of its destructor that the task sees in [polled], and a thread that awaits a handle ([handle_await]) blocks
      while its poll is pending; [spawn_when_admissible] is the producer of
      [capacity_retry_future.rs].

    ** What is proved

    For every interleaving of arbitrary clients, workers and the runtime, of each
    service: every run is finite and ends in a quiescent configuration, so there is
    no deadlock, no missed wake-up and no leaked slot, marker or map entry
    ([runs_terminate], [io_runs_terminate]), and after a shutdown or a stop it ends
    with every call returned ([shutdown_completes], [io_shutdown_completes]);
    every handle of an accepted callable resolves, whether the callable runs, is
    cancelled, is discarded by the runtime or cannot be delivered, and nobody is left
    waiting in [get] ([handles_resolve]); the result is what the one call of the
    task gave - a value, an error, a panic - or, without a call, [Cancelled] or
    [Dropped] ([results_explained]); waits answer truthfully and an unbounded wait never gives up
    ([wait_answers], [io_wait_answers]); producers that wait for capacity are never
    stranded, because a saturated attempt is followed by a change its subscriber
    sees ([producers_served], [io_producers_served]); every handle of a spawned future
    resolves and nobody is left awaiting one ([io_handles_resolve]), no future is
    polled after it has ended, and the result is what its last poll gave,
    [Cancelled] if none ended it, or [Panicked] if its destructor panicked
    ([io_results_explained]); every step is at most one transition
    of the contract ([service_keeps_contract], [io_keeps_contract]); user code runs in
    spawned closures only, at most one task each ([user_code_accounted]); closed
    admission stays closed and termination is final; accepted, running and live
    tasks stay within the capacity; no access panics; user code, destructors of
    user code, wake-ups, published results and aborts run outside the locks, with one
    exception that the code has: [remove_abort_handle] drops the removed hook under
    the abort-handle lock, and if the hook is the last owner of a full cell the result
    is published there ([discard_publishes_under_lock]); a panicking destructor never
    leaves a lock taken, a slot counted or an entry in the map, whoever runs it and
    wherever the panic goes; stop reports are consistent; the
    heap is well typed and task states only move forward; the abort-handle map is
    bounded by the active tasks.  For the executor: every handle resolves, to the
    result its task's history amounts to, and a task runs at most once
    ([executor_resolves], [executor_results_explained], [executor_results_final]).
    The liveness theorems of the IO service hold for futures that end, or are dropped
    by the runtime, after finitely many polls, however many ([polls]).

    Without interference: every branch of submission and rejection, the life of a
    task from acceptance to the release of everything it held and to its result
    ([submit_then_get]), a call of the executor with the fate of its closure - run,
    discarded, or cancelled before - ([executor_call_effect]), cancellation in every
    state of the task's tracker ([handle_cancel_effect]; a cancellation that wins after
    the worker has counted the task as running leaves the slot to the worker's guard,
    [late_cancel_keeps_slot]), shutdown, stop ([stop_effect], [io_stop_effect]), the queries, the observers of a handle,
    the retry protocol ([retry_effect]), a stop between the registration of a future
    and its delivery ([io_stop_before_delivery]), a worker that is discarded before its
    closure arrives ([discard_before_delivery]) and the three forms of waiting.  For
    futures, [io_task_completes] and [io_spawn_then_await] equate the spawned block, as seen by who awaits its handle,
    with a reference driver of the future ([driven]).  Bytes and
    counters round-trip ([from_u8_total], [lifecycle_transitions],
    [counts_roundtrip]).

    ** Bounds and fuel

    The synchronous waits take the number of wake-ups they may consume ([fuel],
    [wakeups]) and bounded waits ([rounds]); using them up ends the wait with
    [false].  The termination theorems hold for every value.  Two units are enough
    for an unbounded wait of the blocking service, because its waiters are woken by
    termination only ([wait_answers]).  The [fuel] of [await_termination] is no bound
    of the code but the moment at which the caller drops the pending future, after
    so many notifications: a dropped future answers [false].  One notification is
    enough in the blocking service; waiters of the IO service are woken by every
    finished task, and [io_wait_answers] says that such a wait ends without
    termination only after [fuel] notifications.  [attempts] bounds the attempts of a producer ([None] when they are
    used up), [polls] the polls of one future; when those are used up the runtime
    drops the task, which it may do at any time.  The capacity is any
    positive [usize] ([NonZeroUsize] in the source).

    ** What is not modelled

    - The result state behind the handles, its futures, the cell of a task slot and
      [TaskRunner] are code of [qubit_executor]: of the last, the executor's model uses
      the protocol [runs], the blocking service's the start of a slot and its
      completion with what the call gave ([TaskSpi]).  The waits of the count monitor
      are code of [qubit_lock].  What else a dropped hook or handle
      owns - trackers, markers, abort handles - is memory only and is not counted.
    - User code runs as one access of its thread: calls it makes back into the
      service are other threads of the pool.  A panic of a callable or of a runnable is
      caught by [TaskRunner]; it becomes the result of the one, and the result of the
      other is thrown away.
    - A destructor that panics in a closure or task of Tokio's is caught by Tokio; one
      that panics in the hands of a submitter ends the submitter.  What a client that
      catches the panic does next is another client.  A destructor that panics while
      its future already unwinds aborts the process; the model goes on as if it had
      not panicked twice.
    - Tokio's join handles belong to the runtime: [is_finished], which the runtime
      answers as it likes, and the moment at which a waker runs.  A join handle gives
      its result to one await; the model leaves it there, so that a second await,
      which in Tokio is an error of the caller, sees it again.
    - The iteration order of the map that [stop] drains is the model's; nothing
      proved depends on it.
    - The examples' main programs beyond the retry protocol: their blockers, their
      runtime and their assertions.  Their blockers wait inside user code for a
      message of the main program, which an atomic call cannot.  [lib.rs] only
      re-exports. *)

From stdpp Require Import prelude list gmap.
#[global] Set Default Goal Selector "!".

Declare Scope exec_scope.
Delimit Scope exec_scope with exec.
Create HintDb exec.
#[local] Open Scope Z_scope.

(** ** Machine integers

    [usize] and [u64] values are kept in [Z] with their width written out; the
    target is a 64-bit platform. *)

Definition usize_MAX : Z := 2 ^ 64 - 1.
Definition u64_modulus : Z := 2 ^ 64.

(** [usize::saturating_sub] and [usize::saturating_add]. *)
Definition saturating_sub (a b : Z) : Z := Z.max 0 (a - b).
Definition saturating_add (a b : Z) : Z := Z.min usize_MAX (a + b).

(** [u64::wrapping_add]. *)
Definition wrapping_add (a b : Z) : Z := (a + b) mod u64_modulus.

(** The two build profiles of the crate: with debug assertions (and overflow
    checks), or without. *)
Class BuildProfile := debug_assertions : bool.

(** The built-in [+] on [usize]: it panics ([None]) on overflow in a debug
    build and wraps in a release build. *)
Definition usize_add `{BuildProfile} (a b : Z) : option Z :=
  if a + b <=? usize_MAX then Some (a + b)
  else if debug_assertions then None
  else Some ((a + b) mod (usize_MAX + 1)).

(** [debug_assert!(b)]: panics in a debug build when [b] is false. *)
Definition debug_assert `{BuildProfile} (b : bool) : option () :=
  if debug_assertions && negb b then None else Some ().

Lemma usize_add_fits `{BuildProfile} a b :
  a + b <= usize_MAX -> usize_add a b = Some (a + b).
Proof. unfold usize_add. intros H1. by rewrite (proj2 (Z.leb_le _ _) H1). Qed.

Lemma debug_assert_true `{BuildProfile} : debug_assert true = Some ().
Proof. unfold debug_assert. by rewrite andb_false_r. Qed.

(** ** Tallies: weighted counts over a list

    [tally f l] is the sum of [f] over [l]; the counters of the services are
    related to the live objects of the model through it. *)

Definition tally {A} (f : A -> Z) (l : list A) : Z := foldr (fun x n => f x + n) 0 l.

Section tally.
Context {A : Type}.
Implicit Types (f : A -> Z) (l : list A).

Lemma tally_app f l1 l2 : tally f (l1 ++ l2) = tally f l1 + tally f l2.
Proof. unfold tally. induction l1 as [|x l1 IH]; cbn; lia. Qed.

Lemma tally_nil f : tally f [] = 0.
Proof. done. Qed.

Lemma tally_cons f x l : tally f (x :: l) = f x + tally f l.
Proof. done. Qed.

Lemma tally_nonneg f l : (forall x, 0 <= f x) -> 0 <= tally f l.
Proof.
  intros Hf. induction l as [|x l IH]; [done|].
  change (0 <= f x + tally f l). specialize (Hf x). lia.
Qed.

#[global] Instance tally_perm f : Proper ((≡ₚ) ==> (=)) (tally f).
Proof.
  intros l1 l2 Hl.
  unfold tally. induction Hl as [| |x y l|l1 l2 l3 H1 IH1 H2 IH2]; cbn in *; lia.
Qed.

(** Updating one cell changes the tally by the difference of the weights. *)
Lemma tally_insert f l i x y :
  l !! i = Some x -> tally f (<[i := y]> l) = tally f l - f x + f y.
Proof.
  revert i. induction l as [|z l IH]; intros [|i] Hi; [done|done|..].
  - injection Hi as ->. change (f y + tally f l = f x + tally f l - f x + f y). lia.
  - change (f z + tally f (<[i := y]> l) = f z + tally f l - f x + f y).
    rewrite (IH i Hi). lia.
Qed.

Lemma tally_lookup_le f l i x :
  (forall x, 0 <= f x) -> l !! i = Some x -> f x <= tally f l.
Proof.
  intros Hf. revert i. induction l as [|z l IH]; intros [|i] Hi; [done|done|..];
    rewrite tally_cons.
  - injection Hi as ->. pose proof (tally_nonneg f l Hf) as Hl. lia.
  - specialize (IH i Hi). specialize (Hf z). lia.
Qed.

Lemma tally_elem_le f l x : (forall x, 0 <= f x) -> x ∈ l -> f x <= tally f l.
Proof.
  intros Hf [i Hi]%list_elem_of_lookup. by eapply tally_lookup_le.
Qed.

(** A tally of non-negative weights is zero only if every weight is. *)
Lemma tally_zero_Forall f l :
  (forall x, 0 <= f x) -> tally f l <= 0 -> Forall (fun x => f x = 0) l.
Proof.
  intros Hf Hl. apply Forall_forall. intros x Hx.
  pose proof (tally_elem_le f l x Hf Hx). specialize (Hf x). lia.
Qed.

Lemma tally_all_zero f l : Forall (fun x => f x = 0) l -> tally f l = 0.
Proof. induction 1 as [|x l Hx _ IH]; [done|]. rewrite tally_cons. lia. Qed.

Lemma tally_pos_elem f l :
  0 < tally f l -> (forall x, 0 <= f x) -> exists x, x ∈ l /\ 0 < f x.
Proof.
  intros Hl Hf. induction l as [|z l IH]; [cbn in Hl; lia|].
  rewrite tally_cons in Hl. destruct (decide (0 < f z)) as [Hz|Hz].
  - exists z. split; [left|done].
  - destruct IH as (x & Hx & Hfx); [lia|]. exists x. split; [by right|done].
Qed.

Lemma tally_ext f g l : (forall x, x ∈ l -> f x = g x) -> tally f l = tally g l.
Proof.
  induction l as [|z l IH]; intros Hfg; [done|].
  rewrite !tally_cons, IH by (intros; apply Hfg; by right).
  rewrite (Hfg z); [done|left].
Qed.

Lemma tally_le f g l : (forall x, x ∈ l -> f x <= g x) -> tally f l <= tally g l.
Proof.
  induction l as [|z l IH]; intros Hfg; [done|].
  assert (f z <= g z) by (apply Hfg; left).
  rewrite !tally_cons. enough (tally f l <= tally g l) by lia.
  apply IH. intros x Hx. apply Hfg. by right.
Qed.
End tally.

Definition b2z (b : bool) : Z := if b then 1 else 0.

Lemma bool_lock {A} (l : option A) : 0 = b2z (bool_decide (is_Some l)) -> l = None.
Proof. destruct l; [|done]. rewrite bool_decide_eq_true_2 by by eexists. done. Qed.

(** At most one token of a mutually exclusive kind exists. *)
Lemma alone {A} (w : A -> Z) tok R b :
  (forall x, 0 <= w x) -> tally w (tok :: R) = b2z b -> w tok = 1 ->
  Forall (fun x => w x = 0) R.
Proof.
  intros Hw Ht Htok. rewrite tally_cons in Ht. apply tally_zero_Forall; [done|].
  destruct b; cbn in Ht; lia.
Qed.

Lemma tally_concat {A} (f : A -> Z) (ls : list (list A)) : tally f (concat ls) = tally (tally f) ls.
Proof. induction ls as [|l ls IH]; [done|]. cbn [concat]. rewrite tally_app, tally_cons. lia. Qed.

(** Comparing two lists position by position. *)
Lemma tally_pointwise_le {A B} (f : A -> Z) (g : B -> Z) (l : list A) (l' : list B) :
  length l = length l' ->
  (forall i x y, l !! i = Some x -> l' !! i = Some y -> f x <= g y) -> tally f l <= tally g l'.
Proof.
  revert l'. induction l as [|x l IH]; intros [|y l'] Hlen Hle; try done.
  rewrite !tally_cons. injection Hlen as Hlen.
  pose proof (Hle 0%nat x y eq_refl eq_refl).
  enough (tally f l <= tally g l') by lia. apply IH; [done|]. intros i. apply (Hle (S i)).
Qed.

(** Exchanging two tallies. *)
Lemma tally_plus {A} (f g : A -> Z) (l : list A) :
  tally (fun x => f x + g x) l = tally f l + tally g l.
Proof. induction l as [|x l IH]; [done|]. rewrite !tally_cons. lia. Qed.

Lemma tally_swap {A B} (f : A -> B -> Z) (l : list A) (l' : list B) :
  tally (fun x => tally (f x) l') l = tally (fun y => tally (fun x => f x y) l) l'.
Proof.
  induction l as [|x l IH].
  - symmetry. apply tally_all_zero. by induction l'; constructor.
  - rewrite tally_cons, IH, <- tally_plus. by apply tally_ext.
Qed.

(** A duplicate-free list contains an element at most once. *)
Lemma tally_indicator `{EqDecision A} (i : A) (l : list A) :
  NoDup l -> tally (fun x => b2z (bool_decide (i = x))) l <= 1.
Proof.
  induction 1 as [|x l Hx _ IH]; [cbn; lia|]. rewrite tally_cons. unfold b2z at 1.
  case_bool_decide; [|lia]. subst. rewrite tally_all_zero; [lia|].
  apply Forall_forall. intros y Hy. unfold b2z. by case_bool_decide; subst.
Qed.

Lemma tally_const {A} (n : Z) (l : list A) : tally (fun _ => n) l = n * Z.of_nat (length l).
Proof. induction l as [|x l IH]; [cbn; lia|]. rewrite tally_cons, IH. cbn [length]. lia. Qed.

#[global] Arguments tally {A} f l : simpl never.
Create Rewrite HintDb exec.
#[export] Hint Rewrite @tally_app @tally_cons : exec.

(** ** Threads hold lists of tokens: splitting one thread's share out *)

Lemma concat_split {A} (ls : list (list A)) i l :
  ls !! i = Some l -> concat ls ≡ₚ l ++ concat (delete i ls).
Proof.
  revert i. induction ls as [|l' ls IH]; intros [|i] Hi; [done|done|by injection Hi as ->|]. cbn.
  rewrite (IH i Hi). rewrite !app_assoc. by rewrite (Permutation_app_comm l' l).
Qed.

Lemma concat_insert {A} (ls : list (list A)) i l l' :
  ls !! i = Some l -> concat (<[i := l']> ls) ≡ₚ l' ++ concat (delete i ls).
Proof.
  revert i. induction ls as [|l1 ls IH]; intros [|i] Hi; [done|done|done|]. cbn.
  rewrite (IH i Hi). rewrite !app_assoc. by rewrite (Permutation_app_comm l1 l').
Qed.

(** One share of a family of non-negative weights is part of the whole. *)
Lemma share_le {A} (w : A -> Z) (rs : list (list A)) t r :
  (forall x, 0 <= w x) -> rs !! t = Some r -> tally w r <= tally w (concat rs).
Proof.
  intros Hw Hr. rewrite (concat_split rs t r Hr), tally_app.
  pose proof (tally_nonneg w (concat (delete t rs)) Hw). lia.
Qed.

Lemma elem_tally {A} (w : A -> Z) tok r :
  (forall x, 0 <= w x) -> tok ∈ r -> 0 < w tok -> tally w r <> 0.
Proof. intros Hw Hin Ht. pose proof (tally_elem_le w r tok Hw Hin). lia. Qed.

Lemma perm_nil_eq {A} (r : list A) : r ≡ₚ [] -> r = [].
Proof. by intros ->%Permutation_nil_r. Qed.

(** [solve_perm] proves that two token lists built from the same elements by
    [::] and [++] are permutations of each other; it first rewrites with the
    hypotheses of the same kind. *)
Ltac list_without x l :=
  lazymatch l with
  | x :: ?l' => constr:(l')
  | ?y :: ?l' => let l'' := list_without x l' in constr:(y :: l'')
  end.
Ltac list_before x l :=
  lazymatch l with
  | x :: ?l' => let T := type of l in constr:(@nil _ : T)
  | ?y :: ?l' => let l'' := list_before x l' in constr:(y :: l'')
  end.
Ltac list_after x l :=
  lazymatch l with
  | x :: ?l' => constr:(l')
  | _ :: ?l' => list_after x l'
  end.
Ltac solve_perm_cons :=
  lazymatch goal with
  | |- ?l ≡ₚ ?l => reflexivity
  | |- ?x :: ?l1 ≡ₚ ?l2 =>
      let b := list_before x l2 in
      let a := list_after x l2 in
      etrans; [|exact (Permutation_middle b a x)]; apply perm_skip; cbn [app]; solve_perm_cons
  end.
Ltac solve_perm :=
  cbn [app] in *;
  repeat match goal with
  | H : ?r ≡ₚ _ |- context [?r] => is_var r; rewrite H
  end;
  cbn [app]; first [solve_perm_cons | solve_Permutation].

Example solve_perm_test (a b c : nat) (r r' : list nat) :
  r' ≡ₚ b :: r -> a :: c :: r' ≡ₚ b :: c :: a :: r.
Proof. intros H. solve_perm. Qed.

(** ** Tactics shared by the invariant proofs *)

(** Case analysis on a decided proposition of the goal. *)
Ltac bd H :=
  match goal with |- context [bool_decide ?P] => destruct (bool_decide_reflect P) as [H|H] end.

Ltac dec := match goal with |- context [decide ?P] => destruct (decide P) end.

(** One hypothesis per token of a list. *)
Ltac split_toks :=
  repeat match goal with
  | H : Forall _ (_ :: _) |- _ =>
      let H1 := fresh "Htok" in apply Forall_cons in H as [H1 H]
  end.

