(* ===== verification/Conc.v ===== *)
(** * Programs of atomic actions, their interleavings, and a program logic

    A Rust function that touches shared state is a [Prog]: a tree whose nodes
    are the atomic accesses it performs, in order.  One definition of each
    function serves twice: [run] executes it without interference, and a pool
    of programs is interleaved action by action by [step].  [wp] is a small
    Owicki-Gries style logic for such pools: every thread owns a list of ghost
    tokens, a global invariant relates the shared state to all the tokens, and
    every action must restore it and stay within a two-state guarantee. *)

From S2P Require Import Prelude.
From stdpp Require Import prelude list relations.
#[local] Open Scope Z_scope.

(** ** Programs *)

(** [Unwind] is a panic that leaves the function: nothing that follows is run.  What a
    function does on its way out - the destructors of its locals - comes before; who
    catches a panic of user code (Tokio, [TaskRunner]) gets it as a value. *)
Inductive Prog (act : Type -> Type) (A : Type) : Type :=
  | Ret (a : A)
  | Unwind
  | Act {B : Type} (c : act B) (k : B -> Prog act A).
Arguments Ret {act A} a.
Arguments Unwind {act A}.
Arguments Act {act A B} c k.

Section Prog.
Context {act : Type -> Type}.

Fixpoint bind {A B} (p : Prog act A) (q : A -> Prog act B) : Prog act B :=
  match p with
  | Ret a => q a
  | Unwind => Unwind
  | Act c k => Act c (fun b => bind (k b) q)
  end.

(** A panic that leaves the function, after what has been dropped. *)
Definition resume_unwind (panicked : bool) : Prog act () := if panicked then Unwind else Ret ().
End Prog.

Notation "'let!' x ':=' p 'in' q" := (bind p%exec (fun x => q%exec))
  (at level 10, x pattern, p at level 100, q at level 200, only parsing) : exec_scope.
Notation "p ;; q" := (bind p%exec (fun _ => q%exec))
  (at level 100, right associativity, only parsing) : exec_scope.

(** ** Outcomes

    Of one action, and of a program that is run: [Panicked] is a failed assertion or
    check of the code itself, [Unwound] the end of a program that unwinds. *)
Inductive outcome (S F B : Type) : Type :=
  | Blocked
  | Panicked
  | Next (b : B) (s : S) (fs : list F)
  | Unwound (s : S) (fs : list F).
Arguments Blocked {S F B}.
Arguments Panicked {S F B}.
Arguments Next {S F B} b s fs.
Arguments Unwound {S F B} s fs.

(** A machine gives meaning to the actions: [exec t c s] is action [c]
    performed by thread [t]; [F] names the closures that a thread may start,
    [body] is the program such a closure runs, [env] is what the outside
    world may do to the state between two actions, and [unwinds] says that panics of
    outside code may end a program at all. *)
Class Machine (act : Type -> Type) (S F : Type) := {
  exec : forall {B}, nat -> act B -> S -> outcome S F B;
  body : F -> Prog act ();
  env : S -> S -> Prop;
  unwinds : Prop;
}.
#[global] Hint Mode Machine ! - - : typeclass_instances.

Section Semantics.
Context {act : Type -> Type} {S F : Type} `{M : !Machine act S F}.

(** A thread that has nothing left to do: it returned, or - when there are such
    panics - one of them ended it. *)
Definition finished (p : Prog act ()) : Prop :=
  match p with Ret _ => True | Unwind => @unwinds _ _ _ M | Act _ _ => False end.

Lemma finished_returned p : finished p -> ~ @unwinds _ _ _ M -> p = Ret ().
Proof. by destruct p as [[]| |]. Qed.

(** Uninterrupted execution by thread [t], collecting the started closures. *)
Fixpoint run {A} (t : nat) (p : Prog act A) (s : S) : outcome S F A :=
  match p with
  | Ret a => Next a s []
  | Unwind => Unwound s []
  | Act c k =>
      match exec t c s with
      | Blocked => Blocked
      | Panicked => Panicked
      | Next b s' fs =>
          match run t (k b) s' with
          | Next a s'' fs' => Next a s'' (fs ++ fs')
          | Unwound s'' fs' => Unwound s'' (fs ++ fs')
          | o => o
          end
      | Unwound s' fs => Unwound s' fs
      end
  end.

Definition config : Type := S * list (Prog act ()).

Inductive step : config -> config -> Prop :=
  | step_thread t s ps B (c : act B) k b s' fs :
      ps !! t = Some (Act c k) ->
      exec t c s = Next b s' fs ->
      step (s, ps) (s', <[t := k b]> ps ++ (body <$> fs))
  | step_env s s' ps :
      @env _ _ _ M s s' ->
      step (s, ps) (s', ps).

Definition reachable : config -> config -> Prop := rtc step.

(** An executable scheduler: run the given threads, one action each, skipping
    those that cannot move. *)
Definition step_at (t : nat) (c : config) : option config :=
  match snd c !! t with
  | Some (Act a k) =>
      match exec t a (fst c) with
      | Next b s' fs => Some (s', <[t := k b]> (snd c) ++ (body <$> fs))
      | _ => None
      end
  | _ => None
  end.

Fixpoint drive (ts : list nat) (c : config) : config :=
  match ts with
  | [] => c
  | t :: ts => drive ts (default c (step_at t c))
  end.

(** No thread can take a step. *)
Definition stuck (c : config) : Prop := forall t, step_at t c = None.

Lemma step_at_step t c c' : step_at t c = Some c' -> step c c'.
Proof.
  destruct c as [s ps]. unfold step_at; cbn.
  destruct (ps !! t) as [[| |B a k]|] eqn:Ht; try done.
  destruct (exec t a s) as [| |b s' fs|] eqn:He; try done.
  intros [= <-]. by econstructor.
Qed.

Lemma drive_reachable ts c : reachable c (drive ts c).
Proof.
  revert c. induction ts as [|t ts IH]; intros c; cbn; [apply rtc_refl|].
  destruct (step_at t c) as [c1|] eqn:Ht; cbn; [|apply IH].
  eapply rtc_l; [by eapply step_at_step|apply IH].
Qed.

Lemma drive_app ts1 ts2 c : drive (ts1 ++ ts2) c = drive ts2 (drive ts1 c).
Proof. revert c. induction ts1 as [|t ts1 IH]; intros c; cbn; [done|apply IH]. Qed.

(** Stuckness is decidable for a finite pool. *)
Definition stuckb (c : config) : bool :=
  forallb (fun t => if step_at t c is Some _ then false else true) (seq 0 (length (snd c))).

Lemma stuckb_stuck c : stuckb c = true -> stuck c.
Proof.
  unfold stuckb. rewrite forallb_forall. intros Hall t.
  destruct (decide (t < length (snd c))%nat) as [Hlt|Hge].
  - specialize (Hall t). rewrite in_seq in Hall. specialize (Hall ltac:(lia)).
    by destruct (step_at t c).
  - unfold step_at. by rewrite lookup_ge_None_2 by lia.
Qed.

Lemma run_bind {A B} t (p : Prog act A) (q : A -> Prog act B) s :
  run t (bind p q) s =
    match run t p s with
    | Next a s' fs =>
        match run t (q a) s' with
        | Next b s'' fs' => Next b s'' (fs ++ fs')
        | Unwound s'' fs' => Unwound s'' (fs ++ fs')
        | o => o
        end
    | Blocked => Blocked
    | Panicked => Panicked
    | Unwound s' fs => Unwound s' fs
    end.
Proof.
  revert s. induction p as [a| |C c k IH]; intros s; cbn; [by destruct (run t (q a) s)|done|].
  destruct (exec t c s) as [| |b s' fs|]; try done. rewrite IH.
  destruct (run t (k b) s') as [| |a s'' fs'|]; try done.
  destruct (run t (q a) s''); try done; by rewrite app_assoc.
Qed.
End Semantics.

(** ** The program logic *)

Section Logic.
Context {act : Type -> Type} {S F : Type} `{M : !Machine act S F}.
(** Ghost tokens, the invariant, the two-state guarantee, the per-action
    discipline, which tokens a thread may own, the legitimate reasons to
    block, and the tokens handed to a started closure. *)
Context {tok : Type}
  (Inv : S -> list tok -> Prop) (Guar : S -> S -> Prop)
  (ok : forall B, nat -> act B -> list tok -> Prop)
  (own : nat -> tok -> Prop)
  (blk : forall B, nat -> act B -> S -> Prop)
  (pre : F -> list tok).
Context `{!forall s, Proper ((≡ₚ) ==> iff) (Inv s)}.

Fixpoint wp {A} (t : nat) (p : Prog act A) (r : list tok)
    (Q : A -> list tok -> Prop) : Prop :=
  match p with
  | Ret a => Q a r
  | Unwind => r = [] /\ @unwinds _ _ _ M
  | Act c k =>
      ok _ t c r /\
      forall s rf, Inv s (r ++ rf) ->
        match exec t c s with
        | Blocked => blk _ t c s
        | Panicked => False
        | Next b s' fs =>
            Guar s s' /\
            exists r', (Forall (own t) r -> Forall (own t) r') /\
              Inv s' (r' ++ concat (pre <$> fs) ++ rf) /\ wp t (k b) r' Q
        | Unwound _ _ => False
        end
  end.

Lemma wp_mono {A} t (p : Prog act A) r (Q1 Q2 : A -> list tok -> Prop) :
  wp t p r Q1 -> (forall a r', Q1 a r' -> Q2 a r') -> wp t p r Q2.
Proof.
  intros Hp HQ. revert r Hp. induction p as [a| |B c k IH]; cbn; intros r Hp.
  - by apply HQ.
  - done.
  - destruct Hp as [Hok Hp]. split; [done|]. intros s rf HI.
    specialize (Hp s rf HI). destruct (exec t c s) as [| |b s' fs|]; try done.
    destruct Hp as (HG & r' & Hown & HI' & Hk). split; [done|].
    exists r'. eauto.
Qed.

Lemma wp_bind {A B} t (p : Prog act A) (q : A -> Prog act B) r Q :
  wp t p r (fun a r' => wp t (q a) r' Q) -> wp t (bind p q) r Q.
Proof.
  revert r. induction p as [a| |C c k IH]; cbn; intros r Hp; [done..|].
  destruct Hp as [Hok Hp]. split; [done|]. intros s rf HI.
  specialize (Hp s rf HI). destruct (exec t c s) as [| |b s' fs|]; try done.
  destruct Hp as (HG & r' & Hown & HI' & Hk). split; [done|].
  exists r'. eauto.
Qed.

(** The usual shape: specify [p] by [Q1], continue with [q]. *)
Lemma wp_seq {A B} t (p : Prog act A) (q : A -> Prog act B) r Q1 Q2 :
  wp t p r Q1 -> (forall a r', Q1 a r' -> wp t (q a) r' Q2) ->
  wp t (bind p q) r Q2.
Proof. intros Hp Hq. eapply wp_bind, wp_mono; [exact Hp|exact Hq]. Qed.

(** One action, up to the order of the tokens: [h] are the tokens the action
    works on, [r0] the ones it leaves alone. *)
Lemma wp_action {A B} t (c : act B) (k : B -> Prog act A) r h r0 Q :
  r ≡ₚ h ++ r0 -> ok _ t c r ->
  (forall s R, Inv s (h ++ R) ->
    match exec t c s with
    | Blocked => blk _ t c s
    | Panicked => False
    | Next b s' fs =>
        Guar s s' /\
        exists h', Forall (own t) h' /\ Inv s' (h' ++ concat (pre <$> fs) ++ R) /\
          forall r', r' ≡ₚ h' ++ r0 -> wp t (k b) r' Q
    | Unwound _ _ => False
    end) ->
  wp t (Act c k) r Q.
Proof.
  intros Hr Hok Hc. split; [done|]. intros s rf HI.
  assert (Inv s (h ++ r0 ++ rf)) as HI' by (by rewrite app_assoc, <- Hr).
  specialize (Hc s _ HI'). destruct (exec t c s) as [| |b s' fs|]; try done.
  destruct Hc as (HG & h' & Hown & HI1 & Hk). split; [done|].
  exists (h' ++ r0). split_and!.
  - intros Hown0. rewrite Hr in Hown0. apply Forall_app in Hown0 as [_ Hown0].
    by apply Forall_app.
  - eapply (H s'); [|exact HI1]. rewrite <- !app_assoc. f_equiv.
    rewrite !app_assoc. by rewrite (Permutation_app_comm r0).
  - by apply Hk.
Qed.

(** Tokens that carry only knowledge are forgotten before an action. *)
Lemma wp_forget {A B} t (c : act B) (k : B -> Prog act A) d r0 r Q :
  (forall s R, Inv s (d ++ R) -> Inv s R) -> r ≡ₚ d ++ r0 -> ok _ t c r ->
  wp t (Act c k) r0 Q -> wp t (Act c k) r Q.
Proof.
  intros Hd Hr Hok [_ Hwp]. split; [done|]. intros s rf HI.
  assert (Inv s (r0 ++ rf)) as HI0 by (apply Hd; by rewrite app_assoc, <- Hr).
  specialize (Hwp s rf HI0). destruct (exec t c s) as [| |b s' fs|]; try done.
  destruct Hwp as (HG & r1 & Hown & HI1 & Hk). split; [done|]. exists r1.
  split_and!; [|done..]. intros Ho. apply Hown. rewrite Hr in Ho. by apply Forall_app in Ho as [_ Ho].
Qed.

(** A finished thread holds no token; a thread that unwinds must have given all of
    them back. *)
Definition fin_post (a : ()) (r : list tok) : Prop := r = [].

Definition thread_ok (rs : list (list tok)) (t : nat) (p : Prog act ()) : Prop :=
  exists r, rs !! t = Some r /\ Forall (own t) r /\ wp t p r fin_post.

Definition good (c : config) : Prop :=
  exists rs, length rs = length (snd c) /\
    (forall t p, snd c !! t = Some p -> thread_ok rs t p) /\
    Inv (fst c) (concat rs).

Context (body_ok : forall f t, Forall (own t) (pre f) /\ wp t (body f) (pre f) fin_post).
Context (env_ok : forall s s' r, Inv s r -> @env _ _ _ M s s' -> Guar s s' /\ Inv s' r).

Lemma good_focus s ps t p :
  good (s, ps) -> ps !! t = Some p ->
  exists r rf, Forall (own t) r /\ wp t p r fin_post /\ Inv s (r ++ rf).
Proof.
  intros (rs & Hlen & Hts & HI) Hp. cbn in *.
  destruct (Hts t p Hp) as (r & Hr & Hown & Hwp).
  exists r, (concat (delete t rs)). split_and!; [done..|].
  by rewrite <- (concat_split rs t r).
Qed.

Lemma good_step c c' : good c -> step c c' -> good c' /\ Guar (fst c) (fst c').
Proof.
  intros (rs & Hlen & Hts & HI) Hstep.
  destruct Hstep as [t s ps B a k b s' fs Ht He|s s' ps Henv]; cbn in *.
  2:{ destruct (env_ok _ _ _ HI Henv). split; [|done]. exists rs. done. }
  destruct (Hts t _ Ht) as (r & Hr & Hown & [Hok Hwp]).
  rewrite (concat_split rs t r Hr) in HI.
  specialize (Hwp s _ HI). rewrite He in Hwp.
  destruct Hwp as (HG & r' & Hown' & HI' & Hk). split; [|done].
  specialize (Hown' Hown).
  pose proof (lookup_lt_Some _ _ _ Ht) as Htlt.
  exists (<[t := r']> rs ++ (pre <$> fs)). split_and!.
  - cbn. rewrite !length_app, !length_insert, !length_fmap. lia.
  - cbn. intros t' p' Hp'.
    apply lookup_app_Some in Hp' as [Hp'|[Hge Hp']].
    + unfold thread_ok. destruct (decide (t = t')) as [<-|Hne].
      * rewrite list_lookup_insert_eq in Hp' by done. simplify_eq.
        exists r'. rewrite lookup_app_l by (rewrite length_insert; lia).
        by rewrite list_lookup_insert_eq by lia.
      * rewrite list_lookup_insert_ne in Hp' by done.
        destruct (Hts t' p' Hp') as (r1 & Hr1 & ? & ?). exists r1.
        pose proof (lookup_lt_Some _ _ _ Hr1).
        rewrite lookup_app_l by (rewrite length_insert; lia).
        by rewrite list_lookup_insert_ne.
    + rewrite length_insert in Hge, Hp'.
      apply list_lookup_fmap_Some in Hp' as (f & -> & Hf).
      exists (pre f). destruct (body_ok f t') as [Hpo Hpw].
      split; [|done]. rewrite lookup_app_r by (rewrite length_insert; lia).
      rewrite length_insert, Hlen, list_lookup_fmap, Hf. done.
  - cbn. rewrite concat_app, (concat_insert rs t r r' Hr), <- app_assoc.
    eapply (H s'); [|exact HI']. f_equiv. apply Permutation_app_comm.
Qed.

Lemma good_reachable c c' : good c -> reachable c c' -> good c'.
Proof.
  intros Hg Hr. induction Hr as [|c1 c2 c3 Hs Hr IH]; [done|].
  apply IH. by eapply good_step.
Qed.

(** The guarantee holds of every step of a reachable configuration. *)
Lemma guar_step c c1 c2 : good c -> reachable c c1 -> step c1 c2 -> Guar (fst c1) (fst c2).
Proof. intros Hg Hr Hs. eapply good_step; [|done]. by eapply good_reachable. Qed.

(** Along a run, any preorder that contains the guarantee. *)
Lemma guar_reachable (G : relation S) `{!PreOrder G} c c' :
  (forall s s', Guar s s' -> G s s') -> good c -> reachable c c' -> G (fst c) (fst c').
Proof.
  intros HG Hg Hr. induction Hr as [|c1 c2 c3 Hs Hr IH]; [done|].
  destruct (good_step _ _ Hg Hs) as [Hg2 Hstep]. etrans; [by apply HG|by apply IH].
Qed.

(** Initially every thread starts without tokens. *)
Lemma good_initial s ps :
  Inv s [] -> (forall t p, ps !! t = Some p -> wp t p [] fin_post) -> good (s, ps).
Proof.
  intros HI Hps. exists (replicate (length ps) []). cbn. split_and!.
  - by rewrite length_replicate.
  - intros t p Hp. exists []. split_and!; [|done|by apply Hps].
    apply lookup_replicate_2. by eapply lookup_lt_Some.
  - induction (length ps); cbn; [done|]. done.
Qed.

(** A thread without an action left has finished, and owns nothing. *)
Lemma ended_finished t (p : Prog act ()) r :
  wp t p r fin_post -> match p with Act _ _ => True | _ => r = [] /\ finished p end.
Proof. by destruct p. Qed.

(** Every token is owned by a thread that has not finished. *)
Lemma token_owner rs ps tk :
  length rs = length ps -> (forall t p, ps !! t = Some p -> thread_ok rs t p) -> tk ∈ concat rs ->
  exists t B (c : act B) k r,
    ps !! t = Some (Act c k) /\ rs !! t = Some r /\ tk ∈ r /\ Forall (own t) r /\ ok _ t c r.
Proof.
  intros Hlen Hts Hin. rewrite list_elem_of_In, in_concat in Hin.
  destruct Hin as (r & Hr & Htk). rewrite <- list_elem_of_In in Hr; rewrite <- list_elem_of_In in Htk.
  apply list_elem_of_lookup in Hr as [t Hr].
  destruct (lookup_lt_is_Some_2 ps t) as [p Hp]; [rewrite <- Hlen; by eapply lookup_lt_Some|].
  destruct (Hts t p Hp) as (r' & Hr' & Hown & Hwp). simplify_eq.
  destruct p as [a| |B c k].
  1-2: destruct (ended_finished _ _ _ Hwp) as [-> _]; by apply not_elem_of_nil in Htk.
  destruct Hwp as [Hok _]. by exists t, B, c, k, r.
Qed.

Lemma good_finished s ps t (p : Prog act ()) :
  good (s, ps) -> ps !! t = Some p -> match p with Act _ _ => True | _ => finished p end.
Proof.
  intros Hg Ht. destruct (good_focus _ _ _ _ Hg Ht) as (r & rf & _ & Hwp & _).
  apply ended_finished in Hwp. by destruct p; [apply Hwp..|].
Qed.

(** No thread of a good configuration can panic, and one that is blocked has
    a legitimate reason. *)
Lemma good_action s ps t B (c : act B) k :
  good (s, ps) -> ps !! t = Some (Act c k) ->
  match exec t c s with
  | Blocked => blk _ t c s
  | Panicked => False
  | Next _ s' _ => Guar s s'
  | Unwound _ _ => False
  end.
Proof.
  intros Hg Ht. destruct (good_focus _ _ _ _ Hg Ht) as (r & rf & _ & [_ Hwp] & HI).
  specialize (Hwp s rf HI). destruct (exec t c s); [done|done| |done]. by destruct Hwp.
Qed.

(** A thread of a stuck good configuration is finished or blocked for a
    legitimate reason. *)
Lemma stuck_blocked s ps t B (c : act B) k :
  good (s, ps) -> stuck (s, ps) -> ps !! t = Some (Act c k) -> blk _ t c s.
Proof.
  intros Hg Hst Ht. pose proof (good_action s ps t B c k Hg Ht) as Ha.
  specialize (Hst t). unfold step_at in Hst. cbn in Hst. rewrite Ht in Hst.
  by destruct (exec t c s).
Qed.
End Logic.
