(* ===== verification/Once.v ===== *)
(** * How often a thread performs an action

    A program that performs a selected action at most [n] times on every path; a
    machine whose states log the threads that performed it; and pools in which the
    initial threads never do and a started closure does at most once: no thread
    occurs twice in the log. *)

From S2P Require Import Prelude Conc.
From stdpp Require Import prelude list relations.

Section AtMost.
Context {act : Type -> Type} (selected : forall B, act B -> bool).

Fixpoint at_most {A} (n : nat) (p : Prog act A) : Prop :=
  match p with
  | Ret _ | Unwind => True
  | Act c k =>
      if selected _ c then match n with O => False | S n => forall b, at_most n (k b) end
      else forall b, at_most n (k b)
  end.

Lemma at_most_le {A} n m (p : Prog act A) : n <= m -> at_most n p -> at_most m p.
Proof.
  revert n m. induction p as [a| |B c k IH]; intros n m Hle; cbn; [done..|]. destruct (selected _ c).
  - destruct n as [|n]; [done|]. destruct m as [|m]; [lia|]. intros Hk b. apply (IH b n m); [lia|apply Hk].
  - intros Hk b. by apply (IH b n m).
Qed.

Lemma at_most_bind {A B} n m (p : Prog act A) (q : A -> Prog act B) :
  at_most n p -> (forall a, at_most m (q a)) -> at_most (n + m) (bind p q).
Proof.
  revert n. induction p as [a| |C c k IH]; intros n; cbn.
  - intros _ Hq. apply (at_most_le m); [lia|apply Hq].
  - done.
  - destruct (selected _ c); [destruct n as [|n]; [done|]|]; cbn; intros Hk Hq b; by apply IH.
Qed.

(** A part that never performs the action. *)
Lemma at_most_before {A B} n (p : Prog act A) (q : A -> Prog act B) :
  at_most 0 p -> (forall a, at_most n (q a)) -> at_most n (bind p q).
Proof. apply (at_most_bind 0 n). Qed.

Lemma at_most_after {A B} n (p : Prog act A) (q : A -> Prog act B) :
  at_most n p -> (forall a, at_most 0 (q a)) -> at_most n (bind p q).
Proof. intros Hp Hq. rewrite <- (Nat.add_0_r n). by apply at_most_bind. Qed.
End AtMost.

Section Once.
Context {act : Type -> Type} {S F : Type} `{M : !Machine act S F}.
Context (selected : forall B, act B -> bool) (log : S -> list nat).
Context (log_exec : forall t B (c : act B) s b s' fs,
  exec t c s = Next b s' fs -> log s' = if selected _ c then t :: log s else log s).
Context (log_env : forall s s', @env _ _ _ M s s' -> log s' = log s).
Context (body_once : forall f, at_most selected 1 (body f)).

(** The first [n] threads are the initial ones. *)
Definition allowance (n : nat) (s : S) (t : nat) : nat :=
  if decide (t < n \/ t ∈ log s) then 0 else 1.

Record once (n : nat) (c : config (act := act) (S := S)) : Prop := {
  once_threads : forall t p, snd c !! t = Some p -> at_most selected (allowance n (fst c) t) p;
  once_log : forall t, t ∈ log (fst c) -> n <= t < length (snd c);
  once_distinct : NoDup (log (fst c));
  once_length : n <= length (snd c);
}.

Lemma once_initial s ps : log s = [] -> Forall (at_most selected 0) ps -> once (length ps) (s, ps).
Proof.
  intros Hl Hps. split; cbn; rewrite ?Hl.
  - intros t p Hp. apply (at_most_le _ 0); [lia|]. by eapply Forall_lookup_1 in Hps.
  - by intros t ?%not_elem_of_nil.
  - constructor.
  - done.
Qed.

Lemma once_step n c c' : once n c -> step c c' -> once n c'.
Proof.
  intros [Hts Hlog Hnd Hlen] Hs. destruct Hs as [t s ps B a k b s' fs Ht He|s s' ps Henv]; cbn in *.
  2:{ apply log_env in Henv. unfold allowance in *. split; cbn; unfold allowance; rewrite ?Henv; done. }
  pose proof (log_exec _ _ _ _ _ _ _ He) as Hl. pose proof (Hts t _ Ht) as Hp. cbn in Hp.
  pose proof (lookup_lt_Some _ _ _ Ht) as Htlt.
  assert (selected _ a = true -> n <= t /\ t ∉ log s) as Hfirst.
  { intros Hsel. rewrite Hsel in Hp. unfold allowance in Hp.
    destruct (decide (t < n \/ t ∈ log s)) as [|Hno]; [done|]. split; [lia|tauto]. }
  assert (forall u, u ∈ log s' -> u ∈ log s \/ u = t /\ selected _ a = true) as Hnew.
  { rewrite Hl. destruct (selected _ a); [|auto]. intros u [->|]%elem_of_cons; auto. }
  split; cbn.
  - intros u q [Hq|[Hge Hq]]%lookup_app_Some; rewrite ?length_insert in *.
    + destruct (decide (t = u)) as [<-|Hne].
      * rewrite list_lookup_insert_eq in Hq by done. injection Hq as <-.
        destruct (selected _ a) eqn:Hsel.
        -- destruct (Hfirst eq_refl). unfold allowance in *.
           rewrite decide_False in Hp by (intros [|]; [lia|done]).
           rewrite decide_True by (right; rewrite Hl; left). apply Hp.
        -- unfold allowance in *. rewrite Hl. apply Hp.
      * rewrite list_lookup_insert_ne in Hq by done. specialize (Hts u q Hq).
        unfold allowance in *. destruct (decide (u < n \/ u ∈ log s')) as [Hu|Hu].
        -- rewrite decide_True in Hts; [done|]. destruct Hu as [|Hu]; [by left|].
           destruct (Hnew u Hu) as [|[-> _]]; [by right|done].
        -- rewrite decide_False in Hts; [done|]. intros [|Hu']; apply Hu; [by left|right].
           rewrite Hl. destruct (selected _ a); [by right|done].
    + apply list_lookup_fmap_Some in Hq as (f & -> & _). unfold allowance.
      rewrite decide_False; [apply body_once|]. intros [|Hu]; [lia|].
      destruct (Hnew u Hu) as [Hu'|[-> _]]; [apply Hlog in Hu'|]; lia.
  - intros u Hu. rewrite length_app, length_insert. destruct (Hnew u Hu) as [Hu'|[-> Hsel]].
    + apply Hlog in Hu'. lia.
    + destruct (Hfirst Hsel). lia.
  - rewrite Hl. destruct (selected _ a); [|done]. apply NoDup_cons. split; [by apply Hfirst|done].
  - rewrite length_app, length_insert. lia.
Qed.

Lemma once_reachable n c c' : once n c -> reachable c c' -> once n c'.
Proof. intros Hc Hr. induction Hr as [|c1 c2 c3 Hs _ IH]; [done|]. by apply IH, (once_step n c1). Qed.
End Once.
