(* ===== verification/Termination.v ===== *)
(** * Every run of a pool of programs is finite

    A program is a well-founded tree, but starting a closure adds a new tree to
    the pool.  When the started closures start nothing themselves, the threads
    of any pool can act only finitely often, whatever the scheduler chooses and
    whatever the environment does in between; a property of all configurations
    without a runnable thread is then one that every run ends in. *)

From S2P Require Import Prelude Conc.
From stdpp Require Import prelude list relations.

Section Termination.
Context {act : Type -> Type} {S F : Type} `{M : !Machine act S F}.
Implicit Types (p q : Prog act ()) (ps qs : list (Prog act ())) (c : config (act := act) (S := S)).

(** ** Moves of the threads *)

(** An action that never starts a closure; a program made of such actions. *)
Definition starts_nothing {B} (a : act B) : Prop :=
  forall t s b s' fs, exec t a s = Next b s' fs -> fs = [].

Fixpoint no_starts {A} (p : Prog act A) : Prop :=
  match p with
  | Ret _ | Unwind => True
  | Act a k => starts_nothing a /\ forall b, no_starts (k b)
  end.

Lemma no_starts_bind {A B} (p : Prog act A) (q : A -> Prog act B) :
  no_starts p -> (forall a, no_starts (q a)) -> no_starts (bind p q).
Proof.
  intros Hp Hq. induction p as [a| |C a k IH]; cbn in *; [done..|]. destruct Hp as [Ha Hk].
  split; [done|]. intros b. by apply IH.
Qed.

(** One thread acts, in some state. *)
Inductive pool_step ps ps' : Prop :=
  | pool_act B (a : act B) k t s b s' fs rest :
      ps ≡ₚ Act a k :: rest -> exec t a s = Next b s' fs ->
      ps' ≡ₚ k b :: (body <$> fs) ++ rest -> pool_step ps ps'.

(** Pools whose threads can act only finitely often. *)
Definition pool_finite ps : Prop := Acc (flip pool_step) ps.

#[export] Instance pool_step_perm : Proper ((≡ₚ) ==> (≡ₚ) ==> iff) pool_step.
Proof.
  assert (forall ps qs ps' qs', ps ≡ₚ qs -> ps' ≡ₚ qs' -> pool_step ps ps' -> pool_step qs qs') as Himp.
  { intros ps qs ps' qs' E E' [B a k t s b s' fs rest H1 H2 H3].
    apply (pool_act _ _ B a k t s b s' fs rest); [by etrans; [symmetry|]|done|by etrans; [symmetry|]]. }
  intros ps qs E ps' qs' E'. split; apply Himp; by first [done|symmetry].
Qed.

Lemma pool_finite_perm ps qs : ps ≡ₚ qs -> pool_finite ps -> pool_finite qs.
Proof. intros E [Hps]. constructor. intros qs' Hs. apply Hps. unfold flip. by rewrite E. Qed.

(** What thread [p] may leave behind when it acts next to the pool [ps]. *)
Definition acts (p : Prog act ()) ps qs : Prop :=
  match p with
  | Ret _ | Unwind => False
  | Act a k => exists t s b s' fs, exec t a s = Next b s' fs /\ qs ≡ₚ k b :: (body <$> fs) ++ ps
  end.

(** A step of an extended pool is a step of the new thread or of the others. *)
Lemma pool_step_cons p ps qs :
  pool_step (p :: ps) qs -> acts p ps qs \/ (exists ps', pool_step ps ps' /\ qs ≡ₚ p :: ps').
Proof.
  intros [B a k t s b s' fs rest Hp He Hq].
  assert (Act a k ∈ p :: ps) as [<-|Hin]%elem_of_cons by (rewrite Hp; left).
  - left. apply Permutation_cons_inv in Hp. exists t, s, b, s', fs.
    split; [done|]. by rewrite Hq, Hp.
  - right. apply list_elem_of_split in Hin as (l1 & l2 & ->).
    rewrite <- Permutation_middle, perm_swap in Hp. apply Permutation_cons_inv in Hp.
    exists (k b :: (body <$> fs) ++ l1 ++ l2). split.
    + apply (pool_act _ _ B a k t s b s' fs (l1 ++ l2)); [by rewrite <- Permutation_middle|done|done].
    + rewrite Hq, <- Hp. clear. rewrite perm_swap. apply perm_skip. by rewrite <- Permutation_middle.
Qed.

(** Adding a thread: by induction on its program and, within that, on the
    accessibility of the pool it joins. *)
Lemma pool_finite_cons_with p :
  (forall ps qs, pool_finite ps -> acts p ps qs -> pool_finite qs) ->
  forall ps, pool_finite ps -> pool_finite (p :: ps).
Proof.
  intros Hp ps Hps. induction Hps as [ps Hacc IH]. constructor. intros qs Hs.
  apply pool_step_cons in Hs as [Hs|(ps' & Hs & Hq)].
  - apply (Hp ps); [by constructor|done].
  - symmetry in Hq. apply (pool_finite_perm _ _ Hq). by apply IH.
Qed.

Lemma pool_finite_no_starts p ps : no_starts p -> pool_finite ps -> pool_finite (p :: ps).
Proof.
  revert ps. induction p as [u| |C a k IH]; intros ps Hq; apply pool_finite_cons_with; [done..|].
  clear ps. intros ps qs Hps (t & s & b & s' & fs & He & Hqs). destruct Hq as [Hno Hk].
  rewrite (Hno _ _ _ _ _ He) in Hqs. symmetry in Hqs. apply (pool_finite_perm _ _ Hqs). by apply IH.
Qed.

Lemma pool_finite_app qs ps : Forall no_starts qs -> pool_finite ps -> pool_finite (qs ++ ps).
Proof. induction 1 as [|q qs Hq _ IH]; intros Hps; [done|]. by apply pool_finite_no_starts, IH. Qed.

Context (bodies_start_nothing : forall f, no_starts (body f)).

Lemma pool_finite_cons p ps : pool_finite ps -> pool_finite (p :: ps).
Proof.
  revert ps. induction p as [u| |C a k IH]; intros ps; apply pool_finite_cons_with; [done..|].
  clear ps. intros ps qs Hps (t & s & b & s' & fs & He & Hqs). symmetry in Hqs.
  apply (pool_finite_perm _ _ Hqs). apply IH, pool_finite_app; [|done].
  apply Forall_fmap, Forall_true. intros f. apply bodies_start_nothing.
Qed.

Lemma pools_finite ps : pool_finite ps.
Proof.
  induction ps as [|p ps IH]; [|by apply pool_finite_cons].
  constructor. intros qs [B a k t s b s' fs rest H1 H2 H3]. by apply Permutation_nil_cons in H1.
Qed.

(** ** Runs *)

(** What the environment does between two actions; one action of a thread after it. *)
Definition env_moves c c' : Prop := snd c' = snd c /\ rtc (@env _ _ _ M) (fst c) (fst c').
Definition tick c c' : Prop := exists m t, env_moves c m /\ step_at t m = Some c'.

Lemma step_at_pool t c c' : step_at t c = Some c' -> pool_step (snd c) (snd c').
Proof.
  destruct c as [s ps]. unfold step_at. cbn. destruct (ps !! t) as [[| |B a k]|] eqn:Ht; try done.
  destruct (exec t a s) as [| |b s' fs|] eqn:He; try done. intros [= <-]. cbn.
  pose proof (delete_Permutation ps t _ Ht) as Hp.
  econstructor; [exact Hp|exact He|].
  assert (<[t := k b]> ps !! t = Some (k b)) as Ht'
    by (apply list_lookup_insert_eq; by eapply lookup_lt_Some).
  rewrite (delete_Permutation _ _ _ Ht'). cbn. apply perm_skip.
  rewrite Permutation_app_comm. f_equiv. clear. revert t.
  induction ps as [|p ps IH]; intros [|t]; cbn; [done..|]. by rewrite IH.
Qed.

Lemma tick_pool c c' : tick c c' -> pool_step (snd c) (snd c').
Proof. intros (m & t & [Hm _] & Hs%step_at_pool). by rewrite <- Hm. Qed.

Lemma ticks_finite c : Acc (flip tick) c.
Proof.
  destruct c as [s ps]. revert s. pose proof (pools_finite ps) as Hps.
  induction Hps as [ps Hacc IH]. intros s. constructor. intros [s' ps'] Hs.
  apply IH. by apply (tick_pool _ _ Hs).
Qed.

(** Every run from [c] is finite, and when its threads can no longer act the
    configuration satisfies [Q]. *)
Inductive ends_in (Q : config -> Prop) c : Prop :=
  | ends_intro :
      (forall c', env_moves c c' -> stuck c' -> Q c') ->
      (forall c', tick c c' -> ends_in Q c') -> ends_in Q c.

Lemma env_moves_reachable c c' : env_moves c c' -> reachable c c'.
Proof.
  destruct c as [s ps], c' as [s' ps']. intros [Hps He]. cbn in *. subst ps'.
  induction He as [s|s1 s2 s3 H1 _ IH]; [apply rtc_refl|]. eapply rtc_l; [by apply step_env|done].
Qed.

Lemma tick_reachable c c' : tick c c' -> reachable c c'.
Proof.
  intros (m & t & Hm & Hs). eapply rtc_r; [by apply env_moves_reachable|by eapply step_at_step].
Qed.

(** What holds of every reachable configuration without a runnable thread is
    where every run ends. *)
Lemma runs_end (Q : config -> Prop) c :
  (forall c', reachable c c' -> stuck c' -> Q c') -> ends_in Q c.
Proof.
  pose proof (ticks_finite c) as Hc. induction Hc as [c Hacc IH]. intros HQ. constructor.
  - intros c' Hm. by apply HQ, env_moves_reachable.
  - intros c' Hs. apply IH; [done|]. intros c2 Hr. apply HQ.
    eapply rtc_trans; [by apply tick_reachable|done].
Qed.

(** In particular no schedule keeps the threads busy for ever. *)
Lemma no_infinite_run (f : nat -> config) : ~ forall i, tick (f i) (f (Datatypes.S i)).
Proof.
  intros Hf. assert (forall c, Acc (flip tick) c -> forall i, f i <> c) as Hno.
  { intros c Hc. induction Hc as [c _ IH]. intros i <-. exact (IH _ (Hf i) _ eq_refl). }
  by apply (Hno _ (ticks_finite (f 0)) 0).
Qed.
End Termination.
