(* ===== verification/External.v ===== *)
(** * Interfaces of the code the crate calls but does not contain

    Tokio, [parking_lot], [qubit-lock], [qubit-atomic] and [qubit-executor] are
    not part of the repository.  Their enumerations appear here with the
    variants the crate names; everything that computes is a class: a carrier,
    the operations the crate calls, and the documented behaviour it relies on.
    All component theorems are proved against these classes; [ExternalRef]
    gives concrete instances. *)

From S2P Require Import Prelude.
From stdpp Require Import prelude.
#[local] Open Scope Z_scope.

(** ** Enumerations of [qubit_executor] *)

(** [qubit_executor::service::ExecutorServiceLifecycle]. *)
Inductive ExecutorServiceLifecycle :=
  Running | ShuttingDown | Stopping | Terminated.
#[export] Instance lifecycle_eq_dec : EqDecision ExecutorServiceLifecycle.
Proof. solve_decision. Defined.

(** The byte a lifecycle is cast to with [as u8]; the crate's decoding table
    lists the variants in discriminant order starting at zero. *)
Class LifecycleRepr := {
  as_u8 : ExecutorServiceLifecycle -> Z;
  as_u8_Running : as_u8 Running = 0;
  as_u8_ShuttingDown : as_u8 ShuttingDown = 1;
  as_u8_Stopping : as_u8 Stopping = 2;
  as_u8_Terminated : as_u8 Terminated = 3;
}.

(** [qubit_executor::service::SubmissionError], the variants the crate builds. *)
Inductive SubmissionError := Shutdown | Saturated.
#[export] Instance submission_error_eq_dec : EqDecision SubmissionError.
Proof. solve_decision. Defined.

(** [qubit_executor::service::StopReport::new(queued, running, cancelled)]. *)
Record StopReport := {
  report_queued : Z;
  report_running : Z;
  report_cancelled : Z;
}.

(** [qubit_executor::CancelResult]. *)
Module CancelResult.
Inductive t := Cancelled | AlreadyRunning | AlreadyFinished.
#[global] Instance eq_dec : EqDecision t.
Proof. solve_decision. Defined.
End CancelResult.

(** [qubit_executor::TaskExecutionError<E>] and [TaskResult<R, E>]. *)
Module TaskExecutionError.
Inductive t (E : Type) := Failed (e : E) | Panicked | Cancelled | Dropped.
Arguments Failed {E} e.
Arguments Panicked {E}.
Arguments Cancelled {E}.
Arguments Dropped {E}.
End TaskExecutionError.

Definition TaskResult (R E : Type) : Type := R + TaskExecutionError.t E.

(** A call into user code ends with a value, with an error, or ([None]) with a panic;
    [TaskRunner] makes a result of each. *)
Definition completed {R E : Type} (r : option (R + E)) : TaskResult R E :=
  match r with
  | Some (inl value) => inl value
  | Some (inr error) => inr (TaskExecutionError.Failed error)
  | None => inr TaskExecutionError.Panicked
  end.

(** ** Memory *)

(** [Arc::as_ptr(..) as usize]: distinct allocations have distinct addresses. *)
Class Allocator := {
  as_ptr : nat -> Z;
  as_ptr_inj :: Inj (=) (=) as_ptr;
}.

(** ** Tokio's runtime

    The runtime is opaque: [dispatch] says whether a spawned closure is run or
    discarded when the runtime gets to it, [is_finished] what an abort handle
    reports.  The clock belongs to it, too: [now] is the current instant in
    nanoseconds, and [timed_out] whether the bounded wait of a waiter has expired.
    No law constrains the answers, and between any two actions the runtime may
    move to any other state. *)
Class Tokio := {
  runtime : Type;
  AbortHandle : Type;
  spawn : runtime -> AbortHandle * runtime;
  is_finished : runtime -> AbortHandle -> bool;
  abort : runtime -> AbortHandle -> runtime;
  dispatch : runtime -> AbortHandle -> bool * runtime;
  now : runtime -> Z;
  timed_out : runtime -> nat -> bool;
}.

(** ** [tokio::sync::oneshot]

    [content] is the value currently stored in the channel, [pending] whether a
    receive would have to wait, [closed] whether the receiver is gone.  [send]
    consumes the sender and hands the value back ([Some]) when the receiver is
    gone; dropping the receiver drops (here: hands back) a stored value. *)
Class Oneshot := {
  oneshot : Type -> Type;
  channel : forall {P}, oneshot P;
  content : forall {P}, oneshot P -> option P;
  pending : forall {P}, oneshot P -> bool;
  closed : forall {P}, oneshot P -> bool;
  send : forall {P}, oneshot P -> P -> option P * oneshot P;
  recv : forall {P}, oneshot P -> option P * oneshot P;
  drop_receiver : forall {P}, oneshot P -> option P * oneshot P;
  content_channel : forall P, content (@channel P) = None;
  closed_channel : forall P, closed (@channel P) = false;
  send_open : forall P (ch : oneshot P) p,
    closed ch = false -> content ch = None ->
    exists ch', send ch p = (None, ch') /\
      content ch' = Some p /\ pending ch' = false /\ closed ch' = false;
  send_closed : forall P (ch : oneshot P) p,
    closed ch = true -> content ch = None ->
    exists ch', send ch p = (Some p, ch') /\
      content ch' = None /\ pending ch' = false /\ closed ch' = true;
  recv_spec : forall P (ch : oneshot P),
    exists ch', recv ch = (content ch, ch') /\
      content ch' = None /\ closed ch' = true;
  drop_receiver_spec : forall P (ch : oneshot P),
    exists ch', drop_receiver ch = (content ch, ch') /\
      content ch' = None /\ closed ch' = true;
}.

(** ** Waiter sets

    The part of a condition variable ([qubit_lock]'s monitor) and of
    [tokio::sync::Notify] that termination waiting relies on: a registered
    waiter waits until a later wake-all, which leaves nobody waiting.
    [bounded_wait] says for which durations a bounded wait can be set up. *)
Class WaiterSet := {
  waiters : Type;
  no_waiters : waiters;
  waiting : waiters -> nat -> bool;
  enlist : waiters -> nat -> waiters;
  delist : waiters -> nat -> waiters;
  wake_all : waiters -> waiters;
  bounded_wait : Z -> bool;
  waiting_none : forall w, waiting no_waiters w = false;
  waiting_enlist : forall ws w w',
    waiting (enlist ws w) w' = bool_decide (w = w') || waiting ws w';
  waiting_delist : forall ws w w',
    waiting (delist ws w) w' = negb (bool_decide (w = w')) && waiting ws w';
  waiting_wake_all : forall ws w, waiting (wake_all ws) w = false;
}.

(** ** [tokio::sync::watch]

    A watch channel of [u64]: [borrow] is the current value.  A receiver knows
    which value it has seen last: a new one has seen the current value,
    [has_changed] says whether a value was sent since, and [changed] waits for
    that and marks the newest value as seen.  Every [send_modify] counts as a
    change, whatever the values are. *)
Class Watch := {
  watch : Type;
  receiver : Type;
  watch_channel : Z -> watch;
  borrow : watch -> Z;
  send_modify : (Z -> Z) -> watch -> watch;
  subscribe : watch -> receiver;
  has_changed : watch -> receiver -> bool;
  borrow_channel : forall v, borrow (watch_channel v) = v;
  borrow_send : forall f w, borrow (send_modify f w) = f (borrow w);
  has_changed_send : forall f w, has_changed (send_modify f w) (subscribe w) = true;
  has_changed_stays : forall f w rx, has_changed w rx = true -> has_changed (send_modify f w) rx = true;
}.

(** What both services send: the next generation, wrapping around. *)
Definition published `{!Watch} (w : watch) : watch :=
  send_modify (fun generation => wrapping_add generation 1) w.

Lemma published_generation `{!Watch} w : borrow (published w) = wrapping_add (borrow w) 1.
Proof. unfold published. by rewrite borrow_send. Qed.

(** ** [qubit_executor::task::spi]

    The endpoint pair of one task: its result state together with the cell
    ([TaskSlotCell]) that holds the runner-side slot.  [TaskRunner::run] starts the
    slot, calls the user code if the task was not cancelled before, and completes
    the slot with what the call gave.  [endpoint_output] is the result the observing
    handle can retrieve, [endpoint_is_done] asks whether it is there, [started] says
    whether the slot was started, and [cell_full] whether the cell still holds the
    slot.  A handle cancels a task that was not started; the cell cancels a slot it
    still holds ([cell_cancel_unstarted]), and its destructor ([cell_drop]) drops it;
    neither has an effect once the slot was taken, and none changes a result that is
    there.  The types of values and errors are those of all tasks taken together. *)
Class TaskSpi := {
  endpoint : Type;
  Value : Type;
  Error : Type;
  TaskStatus : Type;
  endpoint_new : endpoint;
  slot_accept : endpoint -> endpoint;
  cell_take : endpoint -> bool * endpoint;
  cell_cancel_unstarted : endpoint -> bool * endpoint;
  cell_full : endpoint -> bool;
  cell_drop : endpoint -> endpoint;
  handle_cancel : endpoint -> CancelResult.t * endpoint;
  runner_start : endpoint -> bool * endpoint;
  runner_finish : endpoint -> option (Value + Error) -> endpoint;
  started : endpoint -> bool;
  endpoint_status : endpoint -> TaskStatus;
  endpoint_output : endpoint -> option (TaskResult Value Error);
  endpoint_is_done : endpoint -> bool;
  endpoint_is_done_spec : forall e,
    endpoint_is_done e = bool_decide (is_Some (endpoint_output e));
  new_spec : cell_full endpoint_new = true /\ started endpoint_new = false /\
    endpoint_output endpoint_new = None;
  accept_spec : forall e, cell_full (slot_accept e) = cell_full e /\
    started (slot_accept e) = started e /\ endpoint_output (slot_accept e) = endpoint_output e;
  take_spec : forall e, exists e', cell_take e = (cell_full e, e') /\
    cell_full e' = false /\ started e' = started e /\ endpoint_output e' = endpoint_output e;
  cell_cancel_spec : forall e, exists b e', cell_cancel_unstarted e = (b, e') /\
    cell_full e' = false /\ started e' = started e /\
    endpoint_output e' = (if cell_full e
      then Some (default (inr TaskExecutionError.Cancelled) (endpoint_output e)) else endpoint_output e);
  cell_drop_spec : forall e, cell_full (cell_drop e) = false /\ started (cell_drop e) = started e /\
    endpoint_output (cell_drop e) = (if cell_full e
      then Some (default (inr TaskExecutionError.Dropped) (endpoint_output e)) else endpoint_output e);
  cancel_spec : forall e, exists r e', handle_cancel e = (r, e') /\
    cell_full e' = cell_full e /\ started e' = started e /\
    if decide (r = CancelResult.Cancelled)
    then started e = false /\ endpoint_output e = None /\
    endpoint_output e' = Some (inr TaskExecutionError.Cancelled)
    else endpoint_output e' = endpoint_output e;
  start_spec : forall e, started e = false -> exists b e', runner_start e = (b, e') /\
    cell_full e' = cell_full e /\ started e' = b /\ endpoint_output e' = endpoint_output e /\
    (b = true <-> endpoint_output e = None);
  finish_spec : forall e r, started e = true -> endpoint_output e = None ->
    cell_full (runner_finish e r) = cell_full e /\ started (runner_finish e r) = true /\
    endpoint_output (runner_finish e r) = Some (completed r);
}.

Abbreviation CallResult := (option (Value + Error)).
Abbreviation TaskOutput := (TaskResult Value Error).

(** A result that is there stays. *)
Section Final.
Context `{!TaskSpi}.
Implicit Types (e : endpoint) (output : TaskOutput).

Lemma drop_final e output :
  endpoint_output e = Some output -> endpoint_output (cell_drop e) = Some output.
Proof. intros Ho. destruct (cell_drop_spec e) as (_ & _ & ->). rewrite Ho. by destruct (cell_full e). Qed.

Lemma cell_cancel_final e output :
  endpoint_output e = Some output -> endpoint_output (snd (cell_cancel_unstarted e)) = Some output.
Proof.
  intros Ho. destruct (cell_cancel_spec e) as (b & e' & -> & _ & _ & He). cbn. rewrite He, Ho.
  by destruct (cell_full e).
Qed.

Lemma cancel_final e output :
  endpoint_output e = Some output -> endpoint_output (snd (handle_cancel e)) = Some output.
Proof.
  intros Ho. destruct (cancel_spec e) as (r & e' & -> & _ & _ & He). cbn.
  destruct (decide _); [by destruct He as (_ & ? & _); congruence|by rewrite He].
Qed.

Lemma cancel_output e : fst (handle_cancel e) = CancelResult.Cancelled ->
  endpoint_output (snd (handle_cancel e)) = Some (inr TaskExecutionError.Cancelled).
Proof.
  destruct (cancel_spec e) as (r & e' & -> & _ & _ & He). cbn. intros ->.
  rewrite decide_True in He by done. apply He.
Qed.
End Final.

(** A user's runnable or callable.  What a call gives, and whether its destructor
    panics when it is dropped without having been called, may depend on anything
    outside the crate. *)
Class UserCode `{!Tokio, !TaskSpi} (Task : Type) := {
  call_user : Task -> runtime -> CallResult;
  drop_panics : Task -> runtime -> bool;
}.

(** ** The result state of a tracked task ([qubit_executor::task])

    [TaskEndpointPair::new().into_tracked_parts()] creates one [tracked] state
    shared by the handle and by the runner's slot.  [unstarted] says whether the
    runner can still start it, [result_of] what the handle observes.
    Cancellation succeeds exactly before the start, completion and the drop of an
    unfinished slot publish a result, and a published result is final. *)
Class TaskEndpoints := {
  tracked : Type -> Type -> Type;
  tracked_new : forall {R E}, tracked R E;
  unstarted : forall {R E}, tracked R E -> bool;
  result_of : forall {R E}, tracked R E -> option (TaskResult R E);
  slot_start : forall {R E}, tracked R E -> bool * tracked R E;
  slot_complete : forall {R E}, tracked R E -> TaskResult R E -> tracked R E;
  slot_drop : forall {R E}, tracked R E -> tracked R E;
  tracked_cancel : forall {R E}, tracked R E -> CancelResult.t * tracked R E;
  unstarted_new : forall R E, unstarted (@tracked_new R E) = true;
  unstarted_result : forall R E (e : tracked R E), unstarted e = true -> result_of e = None;
  start_unstarted : forall R E (e : tracked R E), unstarted e = true ->
    exists e', slot_start e = (true, e') /\ unstarted e' = false /\ result_of e' = None;
  start_finished : forall R E (e : tracked R E) res, result_of e = Some res ->
    slot_start e = (false, e);
  complete_started : forall R E (e : tracked R E) res,
    unstarted e = false -> result_of e = None -> result_of (slot_complete e res) = Some res;
  drop_unfinished : forall R E (e : tracked R E), result_of e = None ->
    result_of (slot_drop e) = Some (inr TaskExecutionError.Dropped);
  drop_finished : forall R E (e : tracked R E) res, result_of e = Some res ->
    result_of (slot_drop e) = Some res;
  cancel_unstarted : forall R E (e : tracked R E), unstarted e = true ->
    exists e', tracked_cancel e = (CancelResult.Cancelled, e') /\
      result_of e' = Some (inr TaskExecutionError.Cancelled);
  cancel_running : forall R E (e : tracked R E), unstarted e = false -> result_of e = None ->
    tracked_cancel e = (CancelResult.AlreadyRunning, e);
  cancel_finished : forall R E (e : tracked R E) res, result_of e = Some res ->
    tracked_cancel e = (CancelResult.AlreadyFinished, e);
}.

(** ** [qubit_atomic::AtomicCount]

    An atomic counter of [usize]; [None] is a panic on overflow or underflow. *)
Class AtomicCount := {
  count : Type;
  count_default : count;
  count_get : count -> Z;
  count_inc : count -> option count;
  count_dec : count -> option count;
  count_get_default : count_get count_default = 0;
  count_inc_spec : forall c, count_get c < usize_MAX ->
    exists c', count_inc c = Some c' /\ count_get c' = count_get c + 1;
  count_dec_spec : forall c, 0 < count_get c ->
    exists c', count_dec c = Some c' /\ count_get c' = count_get c - 1;
}.
