(* ===== verification/ExternalRef.v ===== *)
(** * Concrete instances of the external interfaces

    Used by the witnesses: small executable models that satisfy the laws of
    [External]. *)

From S2P Require Import Prelude External.
From stdpp Require Import prelude list gmap.
#[local] Open Scope Z_scope.

#[export] Instance lifecycle_ref : LifecycleRepr := {|
  as_u8 l := match l with Running => 0 | ShuttingDown => 1 | Stopping => 2 | Terminated => 3 end;
  as_u8_Running := eq_refl;
  as_u8_ShuttingDown := eq_refl;
  as_u8_Stopping := eq_refl;
  as_u8_Terminated := eq_refl;
|}.

(** Allocations are 64 bytes apart. *)
#[export] Instance allocator_ref : Allocator.
Proof. refine {| as_ptr n := 4096 + 64 * Z.of_nat n |}. intros n m. lia. Defined.

(** A runtime that numbers the tasks and remembers the finished and the
    aborted ones; an aborted closure is discarded, any other is run.  Bounded
    waits expire at the first microsecond. *)
Record runtime_ref := { rt_next : nat; rt_done : list nat; rt_aborted : list nat; rt_clock : Z }.
#[export] Instance tokio_ref : Tokio := {|
  runtime := runtime_ref;
  AbortHandle := nat;
  spawn rt := (rt_next rt, {| rt_next := S (rt_next rt); rt_done := rt_done rt;
                              rt_aborted := rt_aborted rt; rt_clock := rt_clock rt |});
  is_finished rt h := bool_decide (h ∈ rt_done rt);
  abort rt h := {| rt_next := rt_next rt; rt_done := rt_done rt;
                   rt_aborted := h :: rt_aborted rt; rt_clock := rt_clock rt |};
  dispatch rt h := (negb (bool_decide (h ∈ rt_aborted rt)), rt);
  now rt := rt_clock rt;
  timed_out rt _ := 1000 <=? rt_clock rt;
|}.

(** A one-shot channel: the stored value, whether the sender was used, and
    whether the receiver is gone. *)
Record oneshot_ref (P : Type) := { os_value : option P; os_sent : bool; os_closed : bool }.
Arguments os_value {P} _.
Arguments os_sent {P} _.
Arguments os_closed {P} _.

#[export] Instance oneshot_instance : Oneshot.
Proof.
  refine {|
    oneshot := oneshot_ref;
    channel P := {| os_value := None; os_sent := false; os_closed := false |};
    content P ch := os_value ch;
    pending P ch := negb (os_sent ch);
    closed P ch := os_closed ch;
    send P ch p :=
      if os_closed ch
      then (Some p, {| os_value := os_value ch; os_sent := true; os_closed := true |})
      else (None, {| os_value := Some p; os_sent := true; os_closed := false |});
    recv P ch := (os_value ch, {| os_value := None; os_sent := os_sent ch; os_closed := true |});
    drop_receiver P ch :=
      (os_value ch, {| os_value := None; os_sent := os_sent ch; os_closed := true |});
  |}; intros P; try done.
  - intros ch p Hc _. rewrite Hc. by eexists.
  - intros ch p Hc Hv. rewrite Hc. by eexists.
  - intros ch. by eexists.
  - intros ch. by eexists.
Defined.

#[export] Instance waiter_set_ref : WaiterSet.
Proof.
  refine {|
    waiters := list nat;
    no_waiters := [];
    waiting ws w := bool_decide (w ∈ ws);
    enlist ws w := w :: ws;
    delist ws w := filter (fun w' => w <> w') ws;
    wake_all _ := [];
    bounded_wait _ := true;
  |}.
  - done.
  - intros ws w w'. apply eq_bool_prop_intro.
    rewrite orb_True, !bool_decide_spec, elem_of_cons. naive_solver.
  - intros ws w w'. apply eq_bool_prop_intro.
    rewrite andb_True, negb_True, !bool_decide_spec, list_elem_of_filter. done.
  - done.
Defined.

(** A watch channel: its value and how many values were sent; a receiver is the
    number of values sent when it last looked. *)
#[export] Instance watch_ref : Watch.
Proof.
  refine {|
    watch := Z * nat;
    receiver := nat;
    watch_channel v := (v, O);
    borrow w := fst w;
    send_modify f w := (f (fst w), S (snd w));
    subscribe w := snd w;
    has_changed w rx := (rx <? snd w)%nat;
  |}; try done.
  - intros f [v n]. apply Nat.ltb_lt. cbn. lia.
  - intros f [v n] rx Hlt%Nat.ltb_lt. apply Nat.ltb_lt. cbn in *. lia.
Defined.

(** The result state of one task and whether its cell still holds the slot. *)
Inductive status_ref := SPending | SRunning | SDone (result : TaskResult nat nat).
Record endpoint_ref := { ep_status : status_ref; ep_started : bool; ep_in_cell : bool }.
Definition finish_ref (result : TaskResult nat nat) (e : endpoint_ref) : endpoint_ref :=
  {| ep_status := match ep_status e with SDone r => SDone r | _ => SDone result end;
     ep_started := ep_started e; ep_in_cell := false |}.
#[export] Instance task_spi_ref : TaskSpi.
Proof.
  refine {|
    endpoint := endpoint_ref;
    Value := nat;
    Error := nat;
    TaskStatus := status_ref;
    endpoint_new := {| ep_status := SPending; ep_started := false; ep_in_cell := true |};
    slot_accept e := e;
    cell_take e := (ep_in_cell e,
      {| ep_status := ep_status e; ep_started := ep_started e; ep_in_cell := false |});
    cell_cancel_unstarted e :=
      if ep_in_cell e then
        (if ep_status e is SDone _ then false else true, finish_ref (inr TaskExecutionError.Cancelled) e)
      else (false, e);
    cell_full e := ep_in_cell e;
    cell_drop e := if ep_in_cell e then finish_ref (inr TaskExecutionError.Dropped) e else e;
    handle_cancel e :=
      match ep_status e, ep_started e with
      | SPending, false => (CancelResult.Cancelled,
          {| ep_status := SDone (inr TaskExecutionError.Cancelled); ep_started := false;
             ep_in_cell := ep_in_cell e |})
      | SDone _, _ => (CancelResult.AlreadyFinished, e)
      | _, _ => (CancelResult.AlreadyRunning, e)
      end;
    runner_start e :=
      match ep_status e with
      | SDone _ => (false, e)
      | _ => (true, {| ep_status := SRunning; ep_started := true; ep_in_cell := ep_in_cell e |})
      end;
    runner_finish e r :=
      {| ep_status := SDone (completed r); ep_started := ep_started e; ep_in_cell := ep_in_cell e |};
    started e := ep_started e;
    endpoint_status e := ep_status e;
    endpoint_output e := if ep_status e is SDone result then Some result else None;
    endpoint_is_done e := if ep_status e is SDone _ then true else false;
  |}.
  1: intros [[] ? ?]; by cbn.
  1: done.
  1: done.
  all: intros [[| |result] [] []]; cbn; intros; try done;
    try (do 2 eexists); try (eexists; split; [reflexivity|]); repeat split; done.
Defined.

(** Tasks are numbers; a task returns its number, unless it is a multiple of ten,
    and then it fails, or a multiple of a hundred, and then it panics.  A task that is
    a multiple of thirteen panics when it is dropped. *)
#[export] Instance user_code_ref : UserCode nat := {|
  call_user task _ :=
    if (task mod 100 =? 0)%nat then None
    else if (task mod 10 =? 0)%nat then Some (inr task) else Some (inl task);
  drop_panics task _ := (task mod 13 =? 0)%nat;
|}.

(** The result state of a tracked task: whether it was started, and its result. *)
Record tracked_ref (R E : Type) := { tk_started : bool; tk_result : option (TaskResult R E) }.
Arguments tk_started {R E} _.
Arguments tk_result {R E} _.

#[export] Instance task_endpoints_ref : TaskEndpoints.
Proof.
  refine {|
    tracked := tracked_ref;
    tracked_new R E := {| tk_started := false; tk_result := None |};
    unstarted R E e := negb (tk_started e) && (if tk_result e is Some _ then false else true);
    result_of R E e := tk_result e;
    slot_start R E e :=
      if tk_started e then (false, e)
      else if tk_result e is Some _ then (false, e)
      else (true, {| tk_started := true; tk_result := None |});
    slot_complete R E e res := {| tk_started := tk_started e; tk_result := Some res |};
    slot_drop R E e :=
      if tk_result e is Some _ then e
      else {| tk_started := tk_started e; tk_result := Some (inr TaskExecutionError.Dropped) |};
    tracked_cancel R E e :=
      match tk_result e with
      | Some _ => (CancelResult.AlreadyFinished, e)
      | None =>
          if tk_started e then (CancelResult.AlreadyRunning, e)
          else (CancelResult.Cancelled,
                {| tk_started := false; tk_result := Some (inr TaskExecutionError.Cancelled) |})
      end;
  |}; intros R E; [done|..]; intros [started result]; cbn; intros;
    destruct started, result; cbn in *; naive_solver.
Defined.

#[export] Instance atomic_count_ref : AtomicCount.
Proof.
  refine {|
    count := Z;
    count_default := 0;
    count_get c := c;
    count_inc c := if c <? usize_MAX then Some (c + 1) else None;
    count_dec c := if 0 <? c then Some (c - 1) else None;
  |}; [done|..].
  - intros c Hc. rewrite (proj2 (Z.ltb_lt _ _) Hc). by eexists.
  - intros c Hc. rewrite (proj2 (Z.ltb_lt _ _) Hc). by eexists.
Defined.
