(* ===== verification/TokioExecutor.v ===== *)
(** * [tokio_executor.rs]: the executor

    [TokioExecutor] keeps a runtime handle and no other state: every call
    creates a task endpoint pair, hands the runner side to the blocking pool of
    that runtime and returns the observing side.  The world holds the pairs, the
    runtimes, and a log of what happened to each task; any number of callers,
    cancellers and runners are interleaved.  [TaskRunner::run], which the spawned
    closure calls, is [qubit_executor]'s: it is any program that keeps to the
    protocol [runs] (class [TaskRunner]).

    The contract is [outcome_of]: the result an endpoint shows is a function of
    the log of its task, and [explained] lists the only logs that occur. *)

From S2P Require Import Prelude Conc Termination External.
From stdpp Require Import prelude list functions.

Section TokioExecutor.
Context `{!Tokio, !TaskEndpoints}.
Context {R E Task : Type}.
(** What calling a user's callable gives, which may depend on anything outside
    the executor: its value, its error, or ([None]) a panic. *)
Context (callable : Task -> runtime -> option (R + E)).
#[local] Abbreviation Pair := (tracked R E).
#[local] Abbreviation Result := (TaskResult R E).

(** ** Data *)

(** Runtime handles are numbered. *)
Record TokioExecutor := mkExecutor { ex_handle : nat }.

Definition executor_new (handle : nat) : TokioExecutor := mkExecutor handle.

Inductive event := Called (res : Result) | Discarded | CancelWon.

Record EWorld := mkEWorld {
  ex_pairs : list Pair;
  ex_runtimes : nat -> runtime;
  ex_log : list (nat * event);
}.

Definition executor_world (rts : nat -> runtime) : EWorld := mkEWorld [] rts [].

(** What happened to one task, most recent first. *)
Definition history (w : EWorld) (slot : nat) : list event :=
  (filter (fun entry => fst entry = slot) (ex_log w)).*2.

(** The closure moved into [spawn_blocking]: the callable and its slot. *)
Record RunnerClosure := mkRunner {
  rc_handle : nat; rc_abort : AbortHandle; rc_slot : nat; rc_task : Task }.

(** ** Actions *)

Inductive eact : Type -> Type :=
  | NewPair : eact nat
  | SpawnRunner (handle slot : nat) (task : Task) : eact ()
  | DispatchRunner (handle : nat) (h : AbortHandle) : eact bool
  | StartSlot (slot : nat) : eact bool
  | CallCallable (handle slot : nat) (task : Task) : eact Result
  | CompleteSlot (slot : nat) (res : Result) : eact ()
  | RunnerWork : eact ()
  | DropSlot (slot : nat) : eact ()
  | CancelPair (slot : nat) : eact CancelResult.t.

Definition set_pair (slot : nat) (e : Pair) (evs : list event) (w : EWorld) : EWorld :=
  mkEWorld (<[slot := e]> (ex_pairs w)) (ex_runtimes w) (map (pair slot) evs ++ ex_log w).

Definition set_runtime (handle : nat) (rt : runtime) (w : EWorld) : EWorld :=
  mkEWorld (ex_pairs w) (<[handle := rt]> (ex_runtimes w)) (ex_log w).

Definition pair_at (w : EWorld) (slot : nat) : Pair := default tracked_new (ex_pairs w !! slot).

Definition eexec {B} (t : nat) (c : eact B) (w : EWorld) : outcome EWorld RunnerClosure B :=
  match c in eact B return outcome EWorld RunnerClosure B with
  | NewPair =>
      Next (length (ex_pairs w))
           (mkEWorld (ex_pairs w ++ [tracked_new]) (ex_runtimes w) (ex_log w)) []
  | SpawnRunner handle slot task =>
      let '(h, rt) := spawn (ex_runtimes w handle) in
      Next () (set_runtime handle rt w) [mkRunner handle h slot task]
  | DispatchRunner handle h =>
      let '(go, rt) := dispatch (ex_runtimes w handle) h in
      Next go (set_runtime handle rt w) []
  | StartSlot slot =>
      let '(started, e) := slot_start (pair_at w slot) in
      Next started (set_pair slot e [] w) []
  | CallCallable handle slot task =>
      let res := completed (callable task (ex_runtimes w handle)) in
      Next res (set_pair slot (pair_at w slot) [Called res] w) []
  | CompleteSlot slot res => Next () (set_pair slot (slot_complete (pair_at w slot) res) [] w) []
  | RunnerWork => Next () w []
  | DropSlot slot => Next () (set_pair slot (slot_drop (pair_at w slot)) [Discarded] w) []
  | CancelPair slot =>
      match ex_pairs w !! slot with
      | None => Next CancelResult.AlreadyFinished w []
      | Some e =>
          let '(res, e') := tracked_cancel e in
          Next res (set_pair slot e'
            (if bool_decide (res = CancelResult.Cancelled) then [CancelWon] else []) w) []
      end
  end.

(** ** [TaskRunner]

    Not part of the crate.  What it documents is a protocol on the slot: [run] starts
    the slot; when the task was cancelled before, the start fails and the runner
    calls nothing; otherwise it calls the callable, once, and completes the slot with
    what the call gave, a panic included.  Whatever else it does ([RunnerWork]) is
    its own business. *)
Inductive run_phase := RunFresh | RunStarted | RunCalled (res : Result) | RunOver.

Inductive runs (handle slot : nat) (task : Task) : run_phase -> Prog eact () -> Prop :=
  | runs_start k :
      runs handle slot task RunStarted (k true) -> runs handle slot task RunOver (k false) ->
      runs handle slot task RunFresh (Act (StartSlot slot) k)
  | runs_call k :
      (forall res, runs handle slot task (RunCalled res) (k res)) ->
      runs handle slot task RunStarted (Act (CallCallable handle slot task) k)
  | runs_complete res k :
      runs handle slot task RunOver (k ()) ->
      runs handle slot task (RunCalled res) (Act (CompleteSlot slot res) k)
  | runs_work ph k :
      runs handle slot task ph (k ()) -> runs handle slot task ph (Act RunnerWork k)
  | runs_over : runs handle slot task RunOver (Ret ()).

(** [TaskRunner::new(task).run(slot)], on a thread of the runtime [handle]. *)
Class TaskRunner := {
  runner_run : nat -> nat -> Task -> Prog eact ();
  runner_runs : forall handle slot task, runs handle slot task RunFresh (runner_run handle slot task);
}.
Context `{!TaskRunner}.

(** ** The code *)

Definition perform {B} (c : eact B) : Prog eact B := Act c Ret.

(** [TokioExecutor::call].  The handle returned is the observing side of the
    pair; the join handle of the spawned closure is dropped, which detaches it. *)
Definition executor_call (self : TokioExecutor) (task : Task) : Prog eact (nat + SubmissionError) :=
  (let! slot := perform NewPair in
   perform (SpawnRunner (ex_handle self) slot task) ;;
   Ret (inl slot))%exec.

(** The spawned closure: run, or discarded with its captures. *)
Definition runner_closure (f : RunnerClosure) : Prog eact () :=
  (let! go := perform (DispatchRunner (rc_handle f) (rc_abort f)) in
   if go then runner_run (rc_handle f) (rc_slot f) (rc_task f)
   else perform (DropSlot (rc_slot f)))%exec.

#[export] Instance executor_machine : Machine eact EWorld RunnerClosure := {|
  exec B t c w := eexec t c w;
  body := runner_closure;
  env w w' := exists rts, w' = mkEWorld (ex_pairs w) rts (ex_log w);
  unwinds := False;
|}.

(** Callers: they call executors bound to any runtime and cancel tasks. *)
Inductive Caller : Prog eact () -> Prop :=
  | Caller_done : Caller (Ret ())
  | Caller_call self task k :
      (forall r, Caller (k r)) -> Caller (bind (executor_call self task) k)
  | Caller_cancel slot k :
      (forall r, Caller (k r)) -> Caller (bind (perform (CancelPair slot)) k).

(** ** The contract *)

(** The result a log amounts to; [None] while the task is unfinished. *)
Definition outcome_of (evs : list event) : option Result :=
  match evs with
  | [Called res] => Some res
  | [Discarded] => Some (inr TaskExecutionError.Dropped)
  | [CancelWon] | [Discarded; CancelWon] => Some (inr TaskExecutionError.Cancelled)
  | _ => None
  end.

(** ** The invariant *)

(** The owner of a slot: its closure has not started it, has started it, has
    called the callable. *)
Inductive etok := TSlot (slot : nat) | TStarted (slot : nat) | TCalled (slot : nat) (res : Result).
Definition tok_slot (tk : etok) : nat :=
  match tk with TSlot sl | TStarted sl | TCalled sl _ => sl end.
Implicit Types (w : EWorld) (r : list etok) (evs : list event) (e : Pair).

Definition describes e evs (l : list etok) : Prop :=
  match l with
  | [] => is_Some (result_of e) /\ result_of e = outcome_of evs
  | [TSlot _] =>
      evs = [] /\ unstarted e = true \/
      evs = [CancelWon] /\ result_of e = Some (inr TaskExecutionError.Cancelled)
  | [TStarted _] => evs = [] /\ unstarted e = false /\ result_of e = None
  | [TCalled _ res] => evs = [Called res] /\ unstarted e = false /\ result_of e = None
  | _ => False
  end.

Definition owners r (slot : nat) : list etok := filter (fun tk => tok_slot tk = slot) r.

Definition slot_inv w r (slot : nat) : Prop :=
  match ex_pairs w !! slot with
  | Some e => describes e (history w slot) (owners r slot)
  | None => history w slot = [] /\ owners r slot = []
  end.

Definition EInv w r : Prop := forall slot, slot_inv w r slot.

(** A published result is final. *)
Definition EGuar w w' : Prop :=
  forall slot e res, ex_pairs w !! slot = Some e -> result_of e = Some res ->
    exists e', ex_pairs w' !! slot = Some e' /\ result_of e' = Some res.

#[export] Instance EGuar_preorder : PreOrder EGuar.
Proof.
  split; [intros w slot e res He Hr; by exists e|].
  intros w1 w2 w3 H12 H23 slot e res He Hr.
  destruct (H12 slot e res He Hr) as (e2 & He2 & Hr2). by apply (H23 slot e2).
Qed.

Lemma pair_describes_perm e evs l l' : l ≡ₚ l' -> describes e evs l -> describes e evs l'.
Proof.
  intros Hl Hd. destruct l as [|x [|y l]].
  - symmetry in Hl. apply Permutation_nil_r in Hl. by subst l'.
  - apply Permutation_singleton_l in Hl. by subst l'.
  - by destruct x.
Qed.

#[export] Instance EInv_perm w : Proper ((≡ₚ) ==> iff) (EInv w).
Proof.
  assert (forall r r', r ≡ₚ r' -> EInv w r -> EInv w r') as Himp.
  { intros r r' Hr HI slot. specialize (HI slot). unfold slot_inv in *.
    assert (owners r slot ≡ₚ owners r' slot) as Ho by (unfold owners; by rewrite Hr).
    destruct (ex_pairs w !! slot); [by apply (pair_describes_perm _ _ _ _ Ho)|].
    destruct HI as [Hh Hn]. split; [done|]. rewrite Hn in Ho. symmetry in Ho.
    by apply Permutation_nil_r in Ho. }
  intros r r' Hr. split; apply Himp; by rewrite Hr.
Qed.

(** ** Slots and their owners *)

Lemma owners_app r1 r2 slot : owners (r1 ++ r2) slot = owners r1 slot ++ owners r2 slot.
Proof. apply list.filter_app. Qed.

Lemma owners_all l slot : Forall (fun tk => tok_slot tk = slot) l -> owners l slot = l.
Proof. unfold owners. induction 1 as [|tk l Htk _ IH]; [done|]. by rewrite filter_cons_True, IH. Qed.

Lemma owners_none l slot slot' :
  Forall (fun tk => tok_slot tk = slot) l -> slot <> slot' -> owners l slot' = [].
Proof.
  unfold owners. intros Hl Hne. induction Hl as [|tk l Htk _ IH]; [done|].
  rewrite filter_cons_False; [done|congruence].
Qed.

Lemma history_app w pairs rts slot slot' evs :
  history (mkEWorld pairs rts (map (pair slot) evs ++ ex_log w)) slot' =
    (if decide (slot = slot') then evs else []) ++ history w slot'.
Proof.
  unfold history. cbn [ex_log]. induction evs as [|ev evs IH].
  - by case_decide.
  - cbn [map]. rewrite <- app_comm_cons, filter_cons. cbn [fst]. case_decide; [|exact IH].
    rewrite fmap_cons, IH. done.
Qed.

(** The slot of an owned token is in range and has no other owner. *)
Lemma owner_focus w tk r :
  EInv w (tk :: r) ->
  exists e, ex_pairs w !! tok_slot tk = Some e /\
    describes e (history w (tok_slot tk)) [tk] /\ owners r (tok_slot tk) = [].
Proof.
  intros HI. specialize (HI (tok_slot tk)). unfold slot_inv, owners in HI.
  rewrite filter_cons_True in HI by done.
  destruct (ex_pairs w !! tok_slot tk) as [e|]; [|by destruct HI]. exists e.
  fold (owners r (tok_slot tk)) in HI. destruct (owners r (tok_slot tk)); [done|]. by destruct tk.
Qed.

(** Rewriting one slot leaves the others alone. *)
Lemma EInv_set w old l r slot e evs :
  EInv w (old ++ r) -> Forall (fun tk => tok_slot tk = slot) old ->
  Forall (fun tk => tok_slot tk = slot) l -> is_Some (ex_pairs w !! slot) ->
  describes e (evs ++ history w slot) (l ++ owners r slot) ->
  EInv (set_pair slot e evs w) (l ++ r).
Proof.
  intros HI Hold Hl Hp Hd slot'. specialize (HI slot'). unfold slot_inv, set_pair in *.
  rewrite owners_app in *. rewrite history_app. cbn. case_decide as Hs.
  - subst slot'. rewrite list_lookup_insert_eq by (by apply lookup_lt_is_Some).
    by rewrite (owners_all l).
  - rewrite list_lookup_insert_ne by done.
    by rewrite (owners_none l slot), (owners_none old slot) in * by done.
Qed.

Lemma EGuar_set w slot e e' evs :
  ex_pairs w !! slot = Some e -> (forall res, result_of e = Some res -> result_of e' = Some res) ->
  EGuar w (set_pair slot e' evs w).
Proof.
  intros He Hf slot' e1 res He1 Hr. cbn. destruct (decide (slot = slot')) as [<-|Hne].
  - exists e'. simplify_eq. rewrite list_lookup_insert_eq by (by eapply lookup_lt_Some). auto.
  - exists e1. by rewrite list_lookup_insert_ne.
Qed.

Lemma EGuar_same w w' : ex_pairs w' = ex_pairs w -> EGuar w w'.
Proof. intros Hp slot e res He Hr. exists e. by rewrite Hp. Qed.

Lemma EInv_same w w' r :
  ex_pairs w' = ex_pairs w -> ex_log w' = ex_log w -> EInv w r -> EInv w' r.
Proof. intros Hp Hl HI slot. specialize (HI slot). unfold slot_inv, history in *. by rewrite Hp, Hl. Qed.

(** ** One rule per action *)

#[local] Abbreviation ewp := (wp EInv EGuar (fun _ _ (_ : eact _) _ => True) (fun _ (_ : etok) => True)
  (fun _ _ (_ : eact _) _ => False) (fun f : RunnerClosure => [TSlot (rc_slot f)])).

(** An action of the owner of a slot. *)
Lemma ewp_owner {A B} t (c : eact B) (k : B -> Prog eact A) r tk r0 Q :
  r ≡ₚ tk :: r0 ->
  (forall w e, ex_pairs w !! tok_slot tk = Some e -> describes e (history w (tok_slot tk)) [tk] ->
    exists b e' evs l, eexec t c w = Next b (set_pair (tok_slot tk) e' evs w) [] /\
      (forall res, result_of e = Some res -> result_of e' = Some res) /\
      Forall (fun tk' => tok_slot tk' = tok_slot tk) l /\
      describes e' (evs ++ history w (tok_slot tk)) l /\
      forall r', r' ≡ₚ l ++ r0 -> ewp t (k b) r' Q) ->
  ewp t (Act c k) r Q.
Proof.
  intros Hr Hc. apply (wp_action _ _ _ _ _ _ t c k r [tk] r0 Q); [exact Hr|done|].
  intros w rf HI. destruct (owner_focus w tk rf HI) as (e & He & Hd & Hno).
  destruct (Hc w e He Hd) as (b & e' & evs & l & Hx & Hf & Hl & Hd' & Hk).
  cbn [exec executor_machine]. rewrite Hx. split; [by apply (EGuar_set w _ e)|].
  exists l. split_and!; [by apply Forall_true| |exact Hk]. cbn.
  apply (EInv_set w [tk] l rf); [exact HI|by repeat constructor|exact Hl|by exists e|].
  by rewrite Hno, app_nil_r.
Qed.

(** Runtime actions. *)
Lemma ewp_runtime {A B} t (c : eact B) (k : B -> Prog eact A) r Q :
  (forall w, exists b w', eexec t c w = Next b w' [] /\ ex_pairs w' = ex_pairs w /\ ex_log w' = ex_log w) ->
  (forall b, ewp t (k b) r Q) -> ewp t (Act c k) r Q.
Proof.
  intros Hc Hk. split; [done|]. intros w rf HI. destruct (Hc w) as (b & w' & Hx & Hp & Hl).
  cbn [exec executor_machine]. rewrite Hx. split; [by apply EGuar_same|].
  exists r. split_and!; [done|by apply (EInv_same w)|apply Hk].
Qed.

Lemma new_pair_spec {A} t (k : nat -> Prog eact A) Q :
  (forall slot, ewp t (k slot) [TSlot slot] Q) -> ewp t (Act NewPair k) [] Q.
Proof.
  intros Hk. split; [done|]. intros w rf HI. cbn. split.
  - intros slot e res He Hr. exists e. cbn. by rewrite lookup_app_l by (by eapply lookup_lt_Some).
  - exists [TSlot (length (ex_pairs w))]. split_and!; [by repeat constructor| |apply Hk].
    intros slot. specialize (HI slot). unfold slot_inv, history in *. rewrite app_nil_l in HI. cbn [ex_pairs ex_log fmap list_fmap concat app].
    unfold owners in *. rewrite filter_cons. cbn [tok_slot]. case_decide as Hs.
    + subst slot. rewrite lookup_ge_None_2 in HI by done. destruct HI as [Hh Ho].
      rewrite lookup_app_r, Nat.sub_diag, Ho, Hh by done. cbn. left. split; [done|apply unstarted_new].
    + destruct (ex_pairs w !! slot) as [e|] eqn:He.
      * rewrite lookup_app_l by (by eapply lookup_lt_Some). by rewrite He.
      * rewrite lookup_ge_None_2; [done|]. rewrite length_app. cbn.
        apply lookup_ge_None_1 in He. lia.
Qed.

Lemma spawn_runner_spec {A} t handle slot task (k : () -> Prog eact A) Q :
  ewp t (k ()) [] Q -> ewp t (Act (SpawnRunner handle slot task) k) [TSlot slot] Q.
Proof.
  intros Hk. split; [done|]. intros w rf HI. cbn.
  destruct (spawn (ex_runtimes w handle)) as [h rt]. split; [by apply EGuar_same|].
  exists []. split_and!; [done|by apply (EInv_same w)|exact Hk].
Qed.

Lemma executor_call_spec t self task Q :
  (forall slot, Q (inl slot) []) -> ewp t (executor_call self task) [] Q.
Proof. intros HQ. apply new_pair_spec. intros slot. apply spawn_runner_spec, HQ. Qed.

(** Cancelling a task: it wins before the start and changes nothing later. *)
Lemma cancel_describes e evs l :
  describes e evs l ->
  exists res e', tracked_cancel e = (res, e') /\
    (forall res', result_of e = Some res' -> result_of e' = Some res') /\
    describes e' ((if bool_decide (res = CancelResult.Cancelled) then [CancelWon] else []) ++ evs) l.
Proof.
  assert (forall res, result_of e = Some res -> describes e evs l ->
    exists res e', tracked_cancel e = (res, e') /\
    (forall res', result_of e = Some res' -> result_of e' = Some res') /\
    describes e' ((if bool_decide (res = CancelResult.Cancelled) then [CancelWon] else []) ++ evs) l) as Hfin.
  { intros res Hr Hd. exists CancelResult.AlreadyFinished, e. split_and!; [by apply (cancel_finished _ _ _ res)|done..]. }
  assert (unstarted e = false -> result_of e = None -> describes e evs l ->
    exists res e', tracked_cancel e = (res, e') /\
    (forall res', result_of e = Some res' -> result_of e' = Some res') /\
    describes e' ((if bool_decide (res = CancelResult.Cancelled) then [CancelWon] else []) ++ evs) l) as Hrun.
  { intros Hu Hr Hd. exists CancelResult.AlreadyRunning, e. split_and!; [by apply cancel_running|done..]. }
  intros Hd. destruct l as [|[sl|sl|sl res] [|]]; cbn in Hd; try done.
  - destruct Hd as [[res Hr] Ho]. by apply (Hfin res).
  - destruct Hd as [[-> Hu]|[-> Hr]]; [|apply (Hfin _ Hr); by right].
    destruct (cancel_unstarted _ _ e Hu) as (e' & Hc & Hr). exists CancelResult.Cancelled, e'.
    split_and!; [done| |by right]. intros res' Hr'. by rewrite (unstarted_result _ _ e Hu) in Hr'.
  - destruct Hd as (-> & Hu & Hr). by apply Hrun.
  - destruct Hd as (-> & Hu & Hr). by apply Hrun.
Qed.

Lemma cancel_pair_spec t slot Q :
  (forall res, Q res []) -> ewp t (perform (CancelPair slot)) [] Q.
Proof.
  intros HQ. split; [done|]. intros w rf HI. cbn. destruct (ex_pairs w !! slot) as [e|] eqn:He.
  2:{ split; [done|]. exists []. split_and!; [done|done|apply HQ]. }
  specialize (HI slot) as Hd. unfold slot_inv in Hd. rewrite He in Hd.
  destruct (cancel_describes _ _ _ Hd) as (res & e' & Hc & Hf & Hd'). rewrite Hc.
  split; [by apply (EGuar_set w slot e)|]. exists [].
  split_and!; [done| |apply HQ]. by apply (EInv_set w [] [] rf slot); [..|exists e|].
Qed.

(** ** Closures and callers *)

Lemma complete_slot_spec t slot res (k : () -> Prog eact ()) Q :
  ewp t (k ()) [] Q -> ewp t (Act (CompleteSlot slot res) k) [TCalled slot res] Q.
Proof.
  intros Hk. apply (ewp_owner t _ _ _ (TCalled slot res) []); [done|]. cbn [tok_slot].
  intros w e He (Hh & Hu & Hr). cbn. unfold pair_at. rewrite He. cbn. rewrite Hh.
  exists (), (slot_complete e res), [], []. pose proof (complete_started _ _ e res Hu Hr) as Hc.
  split_and!; [done|by rewrite Hr|done|split; [by eexists|exact Hc]|by intros r ->%Permutation_nil_r].
Qed.

Lemma call_callable_spec t handle slot task (k : Result -> Prog eact ()) Q :
  (forall res, ewp t (k res) [TCalled slot res] Q) ->
  ewp t (Act (CallCallable handle slot task) k) [TStarted slot] Q.
Proof.
  intros Hk. apply (ewp_owner t _ _ _ (TStarted slot) []); [done|]. cbn [tok_slot].
  intros w e He (Hh & Hu & Hr). cbn. unfold pair_at. rewrite He. cbn. rewrite Hh.
  eexists _, e, [Called _], [TCalled slot _].
  split_and!; [done|done|by repeat constructor|done|by intros r ->%Permutation_singleton_r].
Qed.

Lemma start_slot_spec t slot (k : bool -> Prog eact ()) Q :
  ewp t (k true) [TStarted slot] Q -> ewp t (k false) [] Q ->
  ewp t (Act (StartSlot slot) k) [TSlot slot] Q.
Proof.
  intros Ht Hf. apply (ewp_owner t _ _ _ (TSlot slot) []); [done|]. cbn [tok_slot].
  intros w e He [[Hh Hu]|[Hh Hr]]; cbn; unfold pair_at; rewrite He; cbn; rewrite Hh.
  - destruct (start_unstarted _ _ e Hu) as (e1 & Hs & Hu1 & Hr1). rewrite Hs.
    exists true, e1, [], [TStarted slot].
    split_and!; [done|by rewrite (unstarted_result _ _ e Hu)|by repeat constructor|done|].
    by intros r ->%Permutation_singleton_r.
  - rewrite (start_finished _ _ e _ Hr). exists false, e, [], [].
    split_and!; [done|done|done|split; [by eexists|exact Hr]|by intros r ->%Permutation_nil_r].
Qed.

(** What the runner owns in each phase of its protocol. *)
Definition phase_token (slot : nat) (ph : run_phase) : list etok :=
  match ph with
  | RunFresh => [TSlot slot]
  | RunStarted => [TStarted slot]
  | RunCalled res => [TCalled slot res]
  | RunOver => []
  end.

Lemma runs_spec t handle slot task ph p :
  runs handle slot task ph p -> ewp t p (phase_token slot ph) fin_post.
Proof.
  induction 1 as [k _ IHt _ IHf|k _ IH|res k _ IH|ph k _ IH|]; cbn [phase_token] in *.
  - by apply start_slot_spec.
  - by apply call_callable_spec.
  - by apply complete_slot_spec.
  - apply ewp_runtime; [|by intros []]. intros w. by exists (), w.
  - done.
Qed.

Lemma drop_slot_spec t slot : ewp t (perform (DropSlot slot)) [TSlot slot] fin_post.
Proof.
  apply (ewp_owner t _ _ _ (TSlot slot) []); [done|]. cbn [tok_slot].
  intros w e He Hd; cbn; unfold pair_at; rewrite He; cbn.
  exists (), (slot_drop e), [Discarded], []. split_and!; [done| |done| |by intros r ->%Permutation_nil_r].
  - intros res. apply drop_finished.
  - destruct Hd as [[-> Hu]|[-> Hr]]; cbn.
    + rewrite (drop_unfinished _ _ e) by (by apply unstarted_result). by split; [eexists|].
    + rewrite (drop_finished _ _ e _ Hr). by split; [eexists|].
Qed.

Lemma runner_closure_spec (f : RunnerClosure) t :
  Forall (fun _ : etok => True) [TSlot (rc_slot f)] /\
  ewp t (body (Machine := executor_machine) f) [TSlot (rc_slot f)] fin_post.
Proof.
  split; [by repeat constructor|]. apply ewp_runtime.
  - intros w. cbn. destruct (dispatch (ex_runtimes w (rc_handle f)) (rc_abort f)) as [go rt].
    by exists go, (set_runtime (rc_handle f) rt w).
  - intros []; [|apply drop_slot_spec]. exact (runs_spec t _ _ _ _ _ (runner_runs _ _ (rc_task f))).
Qed.

Lemma caller_spec t p : Caller p -> ewp t p [] fin_post.
Proof.
  induction 1 as [|self task k _ IH|slot k _ IH]; [done|..]; apply wp_bind.
  - apply executor_call_spec. intros slot. apply IH.
  - apply cancel_pair_spec. exact IH.
Qed.

(** ** The theorems *)

Section Reachable.
Context (rts0 : nat -> runtime) (ps0 : list (Prog eact ())).
Context (Hps : Forall Caller ps0).

Definition executor_reachable : EWorld * list (Prog eact ()) -> Prop :=
  reachable (executor_world rts0, ps0).

#[local] Abbreviation egood := (good EInv EGuar (fun _ _ (_ : eact _) _ => True)
  (fun _ (_ : etok) => True) (fun _ _ (_ : eact _) _ => False)
  (fun f : RunnerClosure => [TSlot (rc_slot f)])).

Lemma executor_env w w' r : EInv w r -> env (Machine := executor_machine) w w' -> EGuar w w' /\ EInv w' r.
Proof. intros HI [rts ->]. split; [by apply EGuar_same|by apply (EInv_same w)]. Qed.

Lemma executor_good c : executor_reachable c -> egood c.
Proof.
  intros Hr. eapply (good_reachable _ _ _ _ _ _ runner_closure_spec executor_env); [|exact Hr].
  apply good_initial; [intros slot; by split|].
  intros t p Hp. apply caller_spec. rewrite Forall_lookup in Hps. by eapply Hps.
Qed.

Lemma executor_inv s ps : executor_reachable (s, ps) -> exists r, EInv s r.
Proof. intros Hr. destruct (executor_good _ Hr) as (rs & _ & _ & HI). by eexists. Qed.

Lemma spawns_nothing B (a : eact B) :
  (forall w t, match eexec t a w with Next _ _ (_ :: _) => False | _ => True end) -> starts_nothing a.
Proof. intros Ha t w b w' fs He. specialize (Ha w t). cbn in He. rewrite He in Ha. by destruct fs. Qed.

Lemma runs_no_starts handle slot task ph p : runs handle slot task ph p -> no_starts p.
Proof.
  induction 1 as [k _ IHt _ IHf|k _ IH|res k _ IH|ph k _ IH|]; cbn; [..|done];
    (split; [apply spawns_nothing|]); [|by intros []|done..|by intros []|done|by intros []].
  intros w t. cbn. by destruct (slot_start _).
Qed.

Lemma runners_start_nothing (f : RunnerClosure) : no_starts (body (Machine := executor_machine) f).
Proof.
  cbn. split; [|intros []; cbn].
  - apply spawns_nothing. intros w t. cbn. by destruct (dispatch _ _).
  - eapply runs_no_starts, runner_runs.
  - split; [by apply spawns_nothing|done].
Qed.

(** C27. Every call is answered: whatever the schedule and the runtimes do, a
    pool of callers acts only finitely often, and when nothing can move any
    more every caller and every runner has finished and every task handle has
    a result, the one its history amounts to. *)
Theorem executor_resolves c (Hr : executor_reachable c) :
  ends_in (fun c' => Forall (fun p => p = Ret ()) (snd c') /\
    forall slot e, ex_pairs (fst c') !! slot = Some e ->
      is_Some (result_of e) /\ result_of e = outcome_of (history (fst c') slot)) c.
Proof.
  apply (runs_end runners_start_nothing). intros [w ps] Hr' Hst.
  assert (executor_reachable (w, ps)) as Hr2 by by eapply rtc_trans. pose proof (executor_good _ Hr2) as Hg.
  assert (Forall (fun p => p = Ret ()) ps) as Hret.
  { apply Forall_lookup. intros t p Hp. pose proof (good_finished _ _ _ _ _ _ w ps t p Hg Hp) as Hf.
    destruct p as [a| |B a k]; [apply (finished_returned _ Hf); intros []..|].
    by destruct (stuck_blocked _ _ _ _ _ _ _ _ _ _ _ _ Hg Hst Hp). }
  split; [exact Hret|]. intros slot e He. cbn in *. destruct Hg as (rs & Hlen & Hts & HI). cbn in *.
  assert (concat rs = []) as Hnil.
  { destruct (concat rs) as [|tk r] eqn:Hrs; [done|].
    destruct (token_owner _ _ _ _ _ _ _ _ tk Hlen Hts) as (t & B & a & k & r' & Ht & _);
      [rewrite Hrs; left|]. rewrite Forall_lookup in Hret. by specialize (Hret t _ Ht). }
  specialize (HI slot). rewrite Hnil in HI. unfold slot_inv in HI. by rewrite He in HI.
Qed.

(** A task runs at most once, and its result is explained: in every reachable
    configuration the log of a task is empty or one of the logs [outcome_of]
    accepts - called once, discarded by the runtime, or cancelled before it
    started and then never called - and a published result is the one
    [outcome_of] gives: the callable's own value, error or panic, [Dropped] or
    [Cancelled]. *)
Theorem executor_results_explained w ps slot e
    (Hr : executor_reachable (w, ps)) (He : ex_pairs w !! slot = Some e) :
  (history w slot = [] \/ is_Some (outcome_of (history w slot))) /\
  (forall res, result_of e = Some res -> outcome_of (history w slot) = Some res).
Proof.
  destruct (executor_inv _ _ Hr) as [r HI]. specialize (HI slot). unfold slot_inv in HI.
  rewrite He in HI. destruct (owners r slot) as [|[sl|sl|sl res0] [|]]; cbn in HI; try done.
  - destruct HI as [Hs Ho]. rewrite <- Ho. auto.
  - destruct HI as [[-> Hu]|[-> Hres]].
    + rewrite (unstarted_result _ _ e Hu). by split; [left|].
    + rewrite Hres. cbn. eauto.
  - destruct HI as (-> & _ & ->). by split; [left|].
  - destruct HI as (-> & _ & ->). by split; [right; eexists|].
Qed.

(** Results are final: once the handle of a task shows a result, it shows the
    same result in every later configuration. *)
Theorem executor_results_final c c' slot e res
    (Hr : executor_reachable c) (Hr' : reachable c c')
    (He : ex_pairs (fst c) !! slot = Some e) (Hres : result_of e = Some res) :
  exists e', ex_pairs (fst c') !! slot = Some e' /\ result_of e' = Some res.
Proof.
  apply (guar_reachable _ _ _ _ _ _ runner_closure_spec executor_env EGuar c c'
    (fun _ _ HG => HG) (executor_good _ Hr) Hr' slot e res He Hres).
Qed.
End Reachable.

(** ** Without interference *)

Lemma pair_at_lookup w slot e : ex_pairs w !! slot = Some e -> pair_at w slot = e.
Proof. intros He. unfold pair_at. by rewrite He. Qed.

Lemma set_pair_lookup w slot e evs :
  is_Some (ex_pairs w !! slot) -> ex_pairs (set_pair slot e evs w) !! slot = Some e.
Proof. intros Hs%lookup_lt_is_Some. cbn. by rewrite list_lookup_insert_eq. Qed.

Lemma set_pair_same w slot e : ex_pairs w !! slot = Some e -> set_pair slot e [] w = w.
Proof. intros He. destruct w as [pairs rts log]. unfold set_pair. cbn in *. by rewrite list_insert_id. Qed.

Lemma set_pair_set w slot e1 e2 evs1 evs2 :
  set_pair slot e2 evs2 (set_pair slot e1 evs1 w) = set_pair slot e2 (evs2 ++ evs1) w.
Proof. unfold set_pair. cbn. by rewrite list_insert_insert_eq, map_app, app_assoc. Qed.

(** What the runner makes of the pair from each phase on, and what it logs; [res] is
    what the callable gives when it is called. *)
Definition phase_effect (res : Result) (ph : run_phase) e e' evs : Prop :=
  match ph with
  | RunFresh => unstarted e = true -> result_of e' = Some res /\ evs = [Called res]
  | RunStarted => result_of e' = Some res /\ evs = [Called res]
  | RunCalled res' => result_of e' = Some res' /\ evs = []
  | RunOver => e' = e /\ evs = []
  end.

Definition phase_ready (ph : run_phase) e : Prop :=
  match ph with
  | RunFresh => unstarted e = true
  | RunStarted | RunCalled _ => unstarted e = false /\ result_of e = None
  | RunOver => True
  end.

Lemma runs_effect t handle slot task ph p :
  runs handle slot task ph p -> forall w e, ex_pairs w !! slot = Some e -> phase_ready ph e ->
  exists e' evs, run t p w = Next () (set_pair slot e' evs w) [] /\
    phase_effect (completed (callable task (ex_runtimes w handle))) ph e e' evs.
Proof.
  induction 1 as [k _ IHt _ _|k _ IH|res k _ IH|ph k _ IH|]; intros w e He Hph; cbn in Hph |- *.
  - rewrite (pair_at_lookup w slot e He).
    destruct (start_unstarted _ _ e Hph) as (e1 & -> & Hu1 & Hr1).
    destruct (IHt (set_pair slot e1 [] w) e1) as (e' & evs & -> & Hr & ->);
      [by apply set_pair_lookup; eexists|done|].
    eexists e', _. rewrite set_pair_set, app_nil_r. by split.
  - rewrite (pair_at_lookup w slot e He). set (res := completed _).
    destruct (IH res (set_pair slot e [Called res] w) e) as (e' & evs & -> & Hr & ->);
      [by apply set_pair_lookup; eexists|done|].
    exists e', [Called res]. by rewrite set_pair_set.
  - rewrite (pair_at_lookup w slot e He). destruct Hph as [Hu Hr].
    destruct (IH (set_pair slot (slot_complete e res) [] w) (slot_complete e res))
      as (e' & evs & -> & -> & ->); [by apply set_pair_lookup; eexists|done|].
    exists (slot_complete e res), []. rewrite set_pair_set. by rewrite complete_started.
  - destruct (IH w e He Hph) as (e' & evs & -> & Hp). by exists e', evs.
  - exists e, []. by rewrite set_pair_same.
Qed.

(** A runner that finds a result calls nothing and changes nothing. *)
Lemma runs_finished t handle slot task ph p :
  runs handle slot task ph p -> forall w e res, ex_pairs w !! slot = Some e -> result_of e = Some res ->
  match ph with RunFresh | RunOver => True | _ => False end -> run t p w = Next () w [].
Proof.
  induction 1 as [k _ _ _ IHf| | |ph k _ IH|]; intros w e res' He Hr Hph; cbn; try done.
  - rewrite (pair_at_lookup w slot e He), (start_finished _ _ e res' Hr), set_pair_same by done.
    by rewrite (IHf w e res' He Hr I).
  - by rewrite (IH w e res' He Hr Hph).
Qed.

(** Running the spawned closure: the runtime runs it or discards it. *)
Lemma closure_unstarted t (f : RunnerClosure) w e :
  ex_pairs w !! rc_slot f = Some e -> unstarted e = true ->
  let '(go, rt) := dispatch (ex_runtimes w (rc_handle f)) (rc_abort f) in
  let ev := if go then Called (completed (callable (rc_task f) rt)) else Discarded in
  exists e', run t (body (Machine := executor_machine) f) w =
      Next () (set_pair (rc_slot f) e' [ev] (set_runtime (rc_handle f) rt w)) [] /\
    result_of e' = outcome_of [ev].
Proof.
  intros He Hu. cbn. destruct (dispatch _ _) as [go rt]. cbn.
  set (w1 := set_runtime (rc_handle f) rt w). assert (ex_pairs w1 !! rc_slot f = Some e) as He1 by done.
  destruct go; cbn -[w1].
  - destruct (runs_effect t _ _ _ _ _ (runner_runs (rc_handle f) (rc_slot f) (rc_task f)) w1 e He1 Hu)
      as (e' & evs & -> & Hp). destruct (Hp Hu) as [Hr ->]. exists e'.
    cbn in Hr |- *. by rewrite fn_lookup_insert in *.
  - rewrite (pair_at_lookup w1 _ e He1). exists (slot_drop e). split; [done|].
    by apply drop_unfinished, unstarted_result.
Qed.

Lemma closure_finished t (f : RunnerClosure) w e res :
  ex_pairs w !! rc_slot f = Some e -> result_of e = Some res ->
  let '(go, rt) := dispatch (ex_runtimes w (rc_handle f)) (rc_abort f) in
  exists e', run t (body (Machine := executor_machine) f) w =
      Next () (set_pair (rc_slot f) e' (if go then [] else [Discarded]) (set_runtime (rc_handle f) rt w)) [] /\
    result_of e' = Some res.
Proof.
  intros He Hr. cbn. destruct (dispatch _ _) as [go rt]. cbn.
  set (w1 := set_runtime (rc_handle f) rt w). assert (ex_pairs w1 !! rc_slot f = Some e) as He1 by done.
  destruct go; cbn -[w1].
  - rewrite (runs_finished t _ _ _ _ _ (runner_runs (rc_handle f) (rc_slot f) (rc_task f)) w1 e res He1 Hr I).
    exists e. by rewrite set_pair_same.
  - rewrite (pair_at_lookup w1 _ e He1). exists (slot_drop e). split; [done|by apply drop_finished].
Qed.

(** What [call] leaves behind: one fresh pair, and the runtime after the spawn. *)
Definition called_world (self : TokioExecutor) w : EWorld :=
  mkEWorld (ex_pairs w ++ [tracked_new])
    (<[ex_handle self := snd (spawn (ex_runtimes w (ex_handle self)))]> (ex_runtimes w)) (ex_log w).

Lemma called_world_lookup self w :
  ex_pairs (called_world self w) !! length (ex_pairs w) = Some tracked_new.
Proof. by apply list_lookup_middle. Qed.

Lemma called_runtime self w :
  ex_runtimes (called_world self w) (ex_handle self) = snd (spawn (ex_runtimes w (ex_handle self))).
Proof. apply fn_lookup_insert. Qed.

Lemma executor_call_runs t self task w :
  exists f, run t (executor_call self task) w = Next (inl (length (ex_pairs w))) (called_world self w) [f] /\
    rc_handle f = ex_handle self /\ rc_slot f = length (ex_pairs w) /\ rc_task f = task.
Proof.
  cbn. unfold called_world. destruct (spawn _) as [h rt]. cbn. by eexists (mkRunner _ h _ _).
Qed.

(** A pair and a runtime set after the call. *)
Lemma called_world_set self w rt e evs :
  set_pair (length (ex_pairs w)) e evs (set_runtime (ex_handle self) rt (called_world self w)) =
    mkEWorld (ex_pairs w ++ [e]) (<[ex_handle self := rt]> (ex_runtimes (called_world self w)))
      (map (pair (length (ex_pairs w))) evs ++ ex_log w).
Proof. unfold set_pair. cbn. by rewrite insert_app_r_alt, Nat.sub_diag by done. Qed.

(** C28. [call] never refuses a task: it creates one fresh, unfinished pair, spawns
    one closure, on the runtime the executor is bound to and on no other, and
    returns the observing side.  When that runtime gets to the closure, running it
    calls the callable once, on that runtime, and the handle shows what it gave;
    discarding it makes the handle show [Dropped]; and when the task was cancelled in
    between - which then wins - the callable is not called and the handle goes on
    showing [Cancelled].  Nothing else in the world changes. *)
Theorem executor_call_effect t t' (self : TokioExecutor) (task : Task) (w : EWorld) :
  exists f, run t (executor_call self task) w = Next (inl (length (ex_pairs w))) (called_world self w) [f] /\
    let slot := length (ex_pairs w) in
    let '(go, rt) := dispatch (snd (spawn (ex_runtimes w (ex_handle self)))) (rc_abort f) in
    let ran e evs := mkEWorld (ex_pairs w ++ [e])
      (<[ex_handle self := rt]> (ex_runtimes (called_world self w))) (map (pair slot) evs ++ ex_log w) in
    (exists e, let res := if go then completed (callable task rt) else inr TaskExecutionError.Dropped in
       run t' (body (Machine := executor_machine) f) (called_world self w) =
         Next () (ran e [if go then Called res else Discarded]) [] /\ result_of e = Some res) /\
    (exists w1 e, run t (perform (CancelPair slot)) (called_world self w) = Next CancelResult.Cancelled w1 [] /\
       run t' (body (Machine := executor_machine) f) w1 =
         Next () (ran e ((if go then [] else [Discarded]) ++ [CancelWon])) [] /\
       result_of e = Some (inr TaskExecutionError.Cancelled)).
Proof.
  destruct (executor_call_runs t self task w) as (f & Hrun & Hh & Hsl & Ht). exists f.
  split; [exact Hrun|]. cbn zeta.
  pose proof (called_world_lookup self w) as He. rewrite <- Hsl in He.
  pose proof (closure_unstarted t' f (called_world self w) _ He (unstarted_new _ _)) as Hopen.
  destruct (cancel_unstarted _ _ tracked_new (unstarted_new R E)) as (e1 & Hc & Hr1).
  set (w1 := set_pair (rc_slot f) e1 [CancelWon] (called_world self w)).
  assert (run t (perform (CancelPair (rc_slot f))) (called_world self w) = Next CancelResult.Cancelled w1 [])
    as Hcancel.
  { cbn -[called_world]. by rewrite He, Hc. }
  pose proof (closure_finished t' f w1 e1 _ (set_pair_lookup _ _ e1 _ (mk_is_Some _ _ He)) Hr1) as Hdone.
  rewrite Hh, called_runtime in Hopen. change (ex_runtimes w1) with (ex_runtimes (called_world self w)) in Hdone.
  rewrite Hh, called_runtime in Hdone. rewrite <- Hsl, Ht in *.
  destruct (dispatch _ _) as [go rt]. split.
  - destruct Hopen as (e & Hf & Hr). exists e. rewrite Hf, Hr, Hsl, called_world_set. by destruct go.
  - destruct Hdone as (e & Hf & Hr). exists w1, e. split_and!; [exact Hcancel| |exact Hr].
    rewrite Hf. unfold w1.
    change (set_runtime (ex_handle self) rt (set_pair (rc_slot f) e1 [CancelWon] (called_world self w)))
      with (set_pair (rc_slot f) e1 [CancelWon] (set_runtime (ex_handle self) rt (called_world self w))).
    by rewrite set_pair_set, Hsl, called_world_set.
Qed.
End TokioExecutor.
