(* ===== verification/ExecutorExamples.v ===== *)
(** * The executor on concrete schedules

    Two runtimes; one caller uses an executor bound to each, a second caller
    cancels a task.  The task runner is the plainest one its protocol allows. *)

From S2P Require Import Prelude Conc Termination External ExternalRef TokioExecutor.
From stdpp Require Import prelude list.

(** Even tasks return their number, odd ones fail, and the task 13 panics. *)
Definition arithmetic (task : nat) (_ : runtime) : option (nat + nat) :=
  if decide (task = 13) then None else if Nat.even task then Some (inl task) else Some (inr task).

#[local] Abbreviation action := (eact (R := nat) (E := nat) (Task := nat)).
(** Start, take the callable, call it, complete. *)
#[local] Instance task_runner_ref : TaskRunner (R := nat) (E := nat) (Task := nat).
Proof.
  refine {| runner_run handle slot task :=
    (let! started := perform (StartSlot slot) in
     if started then
       perform RunnerWork ;;
       let! res := perform (CallCallable handle slot task) in
       perform (CompleteSlot slot res)
     else Ret ())%exec |}.
  intros handle slot task. repeat constructor.
Defined.

#[local] Instance example_machine : Machine action (EWorld (R := nat) (E := nat)) (RunnerClosure (Task := nat)) :=
  executor_machine arithmetic.

Definition clocks (n : nat) : runtime := {| rt_next := n; rt_done := []; rt_aborted := []; rt_clock := 0 |}.

Definition calling : Prog action () :=
  (let! _ := executor_call (executor_new 0) 4 in
   let! _ := executor_call (executor_new 1) 13 in
   let! _ := executor_call (executor_new 1) 7 in
   Ret ())%exec.
Definition cancelling : Prog action () :=
  (let! _ := perform (CancelPair 2) in Ret ())%exec.
Definition callers : list (Prog action ()) := [calling; cancelling].

Lemma callers_ok : Forall Caller callers.
Proof.
  repeat apply Forall_cons_2; [..|apply Forall_nil_2].
  - repeat (apply Caller_call; intros _). constructor.
  - apply Caller_cancel. intros _. constructor.
Qed.

Definition origin := (executor_world (R := nat) (E := nat) clocks, callers).
(** All three tasks spawned, the third one cancelled, the first one finished. *)
Definition called := drive (replicate 6 0 ++ [1] ++ replicate 5 2) origin.
(** Everything has run. *)
Definition settled := drive (replicate 5 3 ++ replicate 5 4) called.

Lemma drive_origin ts : executor_reachable arithmetic clocks callers (drive ts origin).
Proof. apply drive_reachable. Qed.

Lemma called_reached : executor_reachable arithmetic clocks callers called.
Proof. apply drive_origin. Qed.

Example settled_results :
  (result_of <$> ex_pairs (fst settled)) =
    [Some (inl 4); Some (inr TaskExecutionError.Panicked); Some (inr TaskExecutionError.Cancelled)].
Proof. vm_compute. reflexivity. Qed.

Lemma executor_resolves_witness :
  ends_in (fun c' => Forall (fun p => p = Ret ()) (snd c') /\
    forall slot e, ex_pairs (fst c') !! slot = Some e ->
      is_Some (result_of e) /\ result_of e = outcome_of (history (fst c') slot)) called.
Proof. exact (executor_resolves arithmetic clocks callers callers_ok called called_reached). Defined.

Lemma executor_results_explained_witness :
  exists e, ex_pairs (fst called) !! 0 = Some e /\ result_of e = Some (inl 4) /\
    outcome_of (history (fst called) 0) = Some (inl 4).
Proof.
  destruct (ex_pairs (fst called) !! 0) as [e|] eqn:He; [|by vm_compute in He].
  assert (result_of e = Some (inl 4)) as Hres by (vm_compute in He; by inversion He).
  exists e. split_and!; [done|exact Hres|].
  apply (executor_results_explained arithmetic clocks callers callers_ok (fst called) (snd called) 0 e);
    [rewrite <- surjective_pairing; exact called_reached|exact He|exact Hres].
Defined.

Lemma executor_results_final_witness :
  exists e, ex_pairs (fst settled) !! 0 = Some e /\ result_of e = Some (inl 4).
Proof.
  destruct (ex_pairs (fst called) !! 0) as [e|] eqn:He; [|by vm_compute in He].
  assert (result_of e = Some (inl 4)) as Hres by (vm_compute in He; by inversion He).
  apply (executor_results_final arithmetic clocks callers callers_ok called settled 0 e (inl 4) called_reached);
    [apply drive_reachable|exact He|exact Hres].
Defined.

(** The executor bound to runtime 1 is given the task 13, which panics, and that task
    is what its handle shows; the other runtime has spawned nothing. *)
Lemma executor_call_effect_witness :
  exists f e w2, run 0 (executor_call (executor_new 1) 13) (fst origin) =
      Next (inl 0) (called_world (executor_new 1) (fst origin)) [f] /\
    run 1 (body (Machine := example_machine) f) (called_world (executor_new 1) (fst origin)) = Next () w2 [] /\
    ex_pairs w2 = [e] /\ result_of e = Some (inr TaskExecutionError.Panicked) /\
    rt_next (ex_runtimes w2 0) = 0 /\ rt_next (ex_runtimes w2 1) = 2.
Proof.
  destruct (executor_call_effect arithmetic 0 1 (executor_new 1) 13 (fst origin))
    as (f & Hcall & (e & Hrun & Hres) & _).
  do 3 eexists. split; [exact Hcall|]. split; [exact Hrun|]. split_and!; [done|exact Hres|done|done].
Defined.
