(* ===== verification/LifecycleBits.v ===== *)
(** * [executor_service_lifecycle_bits.rs]

    The lifecycle of a service is one atomic byte, decoded by [from_u8] and
    moved by [shutdown] and [stop].  [Terminated] is never stored: it is
    derived by the services from an empty task count. *)

From S2P Require Import Prelude External.
From stdpp Require Import prelude list.
#[local] Open Scope Z_scope.

Section LifecycleBits.
Context `{!LifecycleRepr}.

Definition STATES : list ExecutorServiceLifecycle :=
  [Running; ShuttingDown; Stopping; Terminated].

(** [STATES[usize::from(value.min(Terminated as u8))]]; the index is always
    in range ([from_u8_lookup]), so the default is never used. *)
Definition from_u8 (value : Z) : ExecutorServiceLifecycle :=
  nth (Z.to_nat (Z.min value (as_u8 Terminated))) STATES Terminated.

(** [load]: decode the current byte. *)
Definition load (byte : Z) : ExecutorServiceLifecycle := from_u8 byte.

(** The closure [shutdown] passes to [fetch_update]: [None] leaves the byte. *)
Definition shutdown_update (current : Z) : option Z :=
  if bool_decide (from_u8 current = Running) then Some (as_u8 ShuttingDown) else None.

(** [AtomicU8::fetch_update]. *)
Definition fetch_update (f : Z -> option Z) (byte : Z) : Z := default byte (f byte).

Definition shutdown (byte : Z) : Z := fetch_update shutdown_update byte.

(** [stop] overwrites the byte. *)
Definition stop (byte : Z) : Z := as_u8 Stopping.

(** ** Facts *)

(** A [u8] in range. *)
Definition is_u8 (byte : Z) : Prop := 0 <= byte < 256.

Definition rank (l : ExecutorServiceLifecycle) : Z :=
  match l with Running => 0 | ShuttingDown => 1 | Stopping => 2 | Terminated => 3 end.

Lemma as_u8_rank l : as_u8 l = rank l.
Proof.
  destruct l; cbn; auto using as_u8_Running, as_u8_ShuttingDown, as_u8_Stopping,
    as_u8_Terminated.
Qed.

Lemma from_u8_lookup byte :
  is_u8 byte ->
  STATES !! Z.to_nat (Z.min byte (as_u8 Terminated)) = Some (from_u8 byte).
Proof.
  intros Hb. unfold is_u8 in Hb. unfold from_u8. rewrite as_u8_rank; cbn [rank].
  assert (Z.min byte 3 = 0 \/ Z.min byte 3 = 1 \/ Z.min byte 3 = 2 \/ Z.min byte 3 = 3)
    as [-> | [-> | [-> | ->]]] by lia; done.
Qed.

Lemma from_u8_as_u8 l : from_u8 (as_u8 l) = l.
Proof. unfold from_u8. rewrite !as_u8_rank. by destruct l. Qed.

Lemma from_u8_clamped byte : as_u8 Terminated <= byte -> from_u8 byte = Terminated.
Proof. intros Hb. unfold from_u8. rewrite Z.min_r by done. by rewrite as_u8_rank. Qed.

Lemma shutdown_spec byte :
  shutdown byte = if bool_decide (load byte = Running) then as_u8 ShuttingDown else byte.
Proof.
  unfold shutdown, fetch_update, shutdown_update, load. by case_bool_decide.
Qed.

(** The decoded lifecycle only moves forward under both transitions. *)
Lemma shutdown_rank byte : rank (load byte) <= rank (load (shutdown byte)).
Proof.
  rewrite shutdown_spec. case_bool_decide as Hr; [|lia].
  rewrite Hr. unfold load. rewrite from_u8_as_u8. cbn. lia.
Qed.

Lemma load_shutdown byte : load (shutdown byte) <> Running.
Proof.
  rewrite shutdown_spec. case_bool_decide as Hr; [|done].
  unfold load. by rewrite from_u8_as_u8.
Qed.

Lemma load_stop byte : load (stop byte) = Stopping.
Proof. apply from_u8_as_u8. Qed.

(** The bytes a service can hold: [Running], [ShuttingDown] or [Stopping]. *)
Definition stored (byte : Z) : Prop := 0 <= byte <= 2.

Lemma stored_rank byte : stored byte -> rank (load byte) = byte.
Proof.
  unfold stored, load, from_u8. intros Hb. rewrite as_u8_rank; cbn [rank].
  assert (byte = 0 \/ byte = 1 \/ byte = 2) as [-> | [-> | ->]] by lia; done.
Qed.

Lemma stored_initial : stored 0 /\ load 0 = Running.
Proof. split; [unfold stored; lia|]. unfold load, from_u8. by rewrite as_u8_rank. Qed.

Lemma stored_shutdown byte : stored byte -> stored (shutdown byte).
Proof.
  intros Hb. rewrite shutdown_spec. case_bool_decide; [|done].
  rewrite as_u8_rank. unfold stored; cbn. lia.
Qed.

Lemma stored_stop byte : stored (stop byte).
Proof. unfold stop. rewrite as_u8_rank. unfold stored; cbn. lia. Qed.

Lemma stop_rank byte : stored byte -> rank (load byte) <= rank (load (stop byte)).
Proof. intros Hb. rewrite load_stop, stored_rank by done. unfold stored in Hb; cbn. lia. Qed.

Lemma stored_cases byte : stored byte ->
  (byte = 0 /\ load byte = Running) \/ (byte = 1 /\ load byte = ShuttingDown) \/
  (byte = 2 /\ load byte = Stopping).
Proof.
  intros Hb. pose proof (stored_rank byte Hb) as Hr. unfold stored in Hb.
  destruct (load byte); cbn in Hr; subst; auto; lia.
Qed.

Lemma stored_Running byte : stored byte -> load byte = Running <-> byte = 0.
Proof.
  intros Hb. split.
  - intros Hr. by rewrite <- (stored_rank byte Hb), Hr.
  - intros ->. apply stored_initial.
Qed.

(** Closing admission stores a later, non-running byte. *)
Definition closes (byte byte' : Z) : Prop := stored byte' /\ 0 < byte' /\ byte <= byte'.

Lemma closing_shutdown byte : stored byte -> closes byte (fetch_update shutdown_update byte).
Proof.
  intros Hb. change (fetch_update _ _) with (shutdown byte).
  pose proof (stored_shutdown byte Hb) as Hs. pose proof (shutdown_rank byte) as Hr.
  rewrite !stored_rank in Hr by done. split_and!; [done| |done].
  pose proof (load_shutdown byte) as Hn. rewrite stored_Running in Hn by done.
  unfold stored in Hs. lia.
Qed.

Lemma closing_stop byte : stored byte -> closes byte (as_u8 Stopping).
Proof. intros Hb. unfold closes, stored in *. rewrite as_u8_rank. cbn. lia. Qed.

(** ** Correctness of the encoding and of the transitions *)

(** Decoding is total, clamped and inverse to the encoding: every byte
    selects a state inside the table, bytes from [Terminated] upwards decode
    to [Terminated], and decoding the byte of a state gives that state. *)
Theorem from_u8_total byte (Hb : is_u8 byte) :
  STATES !! Z.to_nat (Z.min byte (as_u8 Terminated)) = Some (from_u8 byte) /\
  (as_u8 Terminated <= byte -> from_u8 byte = Terminated) /\
  (byte < as_u8 Terminated -> as_u8 (from_u8 byte) = byte) /\
  (forall l, is_u8 (as_u8 l) /\ from_u8 (as_u8 l) = l).
Proof.
  split_and!; [by apply from_u8_lookup|apply from_u8_clamped|..].
  - intros Hlt. rewrite as_u8_rank in Hlt. cbn in Hlt. unfold is_u8 in Hb.
    change (from_u8 byte) with (load byte). rewrite as_u8_rank.
    apply stored_rank. unfold stored. lia.
  - intros l. split; [|apply from_u8_as_u8]. rewrite as_u8_rank. unfold is_u8. destruct l; cbn; lia.
Qed.

(** The two transitions on a stored lifecycle byte: [shutdown] moves
    only [Running], to [ShuttingDown], and is idempotent; [stop] always gives
    [Stopping], which [shutdown] leaves alone; neither moves backwards or
    stores [Terminated]. *)
Theorem lifecycle_transitions byte (Hb : stored byte) :
  load (shutdown byte) = (if bool_decide (load byte = Running) then ShuttingDown else load byte) /\
  shutdown (shutdown byte) = shutdown byte /\
  load (stop byte) = Stopping /\ shutdown (stop byte) = stop byte /\
  byte <= shutdown byte /\ byte <= stop byte /\
  load (shutdown byte) <> Terminated /\ load (stop byte) <> Terminated.
Proof.
  assert (load 0 = Running /\ load 1 = ShuttingDown /\ load 2 = Stopping) as (L0 & L1 & L2).
  { pose proof (from_u8_as_u8 Running) as E0. pose proof (from_u8_as_u8 ShuttingDown) as E1.
    pose proof (from_u8_as_u8 Stopping) as E2. rewrite as_u8_rank in E0, E1, E2. by split_and!. }
  assert (shutdown 0 = 1 /\ shutdown 1 = 1 /\ shutdown 2 = 2 /\ stop byte = 2) as (S0 & S1 & S2 & S3).
  { rewrite !shutdown_spec, L0, L1, L2. unfold stop. by rewrite !as_u8_rank. }
  destruct (stored_cases byte Hb) as [[-> _]|[[-> _]|[-> _]]].
  all: rewrite S3, ?S0, ?S1, ?S2, ?L0, ?L1, ?L2, ?S1, ?S2; split_and!; try done; lia.
Qed.
End LifecycleBits.
