(* ===== verification/ServiceSpec.v ===== *)
(** * The abstract contract of an executor service

    What both services promise about admission, as a transition system on four
    numbers: a lifecycle, the accepted tasks that have not started, the started
    ones, and the capacity.  The blocking service is its queueing variant; the IO
    service, which never queues, its direct one.  The consequences are proved here
    once, by rule induction, and hold of a service because it refines the
    contract. *)

From S2P Require Import Prelude External LifecycleBits.
From stdpp Require Import prelude relations.
#[local] Open Scope Z_scope.

Record contract := mkContract {
  c_lifecycle : ExecutorServiceLifecycle;
  c_queued : Z;
  c_running : Z;
  c_capacity : Z;
}.

Definition c_total (a : contract) : Z := c_queued a + c_running a.
Definition c_set (l : ExecutorServiceLifecycle) (q n : Z) (a : contract) : contract :=
  mkContract l q n (c_capacity a).

(** One abstract transition of a service that queues, or does not. *)
Inductive contract_step (queueing : bool) (a : contract) : contract -> Prop :=
  | contract_accept :
      c_lifecycle a = Running -> c_total a < c_capacity a ->
      contract_step queueing a
        (if queueing then c_set Running (c_queued a + 1) (c_running a) a
         else c_set Running (c_queued a) (c_running a + 1) a)
  | contract_start :
      0 < c_queued a ->
      contract_step queueing a (c_set (c_lifecycle a) (c_queued a - 1) (c_running a + 1) a)
  | contract_cancel :
      0 < c_queued a ->
      contract_step queueing a (c_set (c_lifecycle a) (c_queued a - 1) (c_running a) a)
  | contract_finish :
      0 < c_running a ->
      contract_step queueing a (c_set (c_lifecycle a) (c_queued a) (c_running a - 1) a)
  | contract_shutdown :
      c_lifecycle a = Running ->
      contract_step queueing a (c_set ShuttingDown (c_queued a) (c_running a) a)
  | contract_stop :
      contract_step queueing a (c_set Stopping (c_queued a) (c_running a) a).

Definition contract_reaches (queueing : bool) : relation contract := rtc (contract_step queueing).

#[export] Instance contract_reaches_preorder queueing : PreOrder (contract_reaches queueing).
Proof. unfold contract_reaches. apply _. Qed.

(** At most one transition: what one step of a service may do. *)
Definition contract_moves (queueing : bool) (a a' : contract) : Prop :=
  a' = a \/ contract_step queueing a a'.

Lemma contract_moves_reaches queueing a a' : contract_moves queueing a a' -> contract_reaches queueing a a'.
Proof. intros [-> |Hs]; [done|by apply rtc_once]. Qed.

(** The lifecycle stored in a service: [Terminated] is never stored. *)
Definition well_formed (a : contract) : Prop :=
  c_lifecycle a <> Terminated /\ 0 <= c_queued a /\ 0 <= c_running a /\ c_total a <= c_capacity a.

Ltac contract_cases Hs :=
  inversion Hs; subst; unfold c_total, c_set in *; cbn in *;
  repeat match goal with |- context [if ?b then _ else _] => destruct b; cbn end.

Lemma contract_step_wf queueing a a' :
  contract_step queueing a a' -> well_formed a -> well_formed a'.
Proof. intros Hs (Hl & ? & ? & ?). unfold well_formed. contract_cases Hs; split_and!; try done; lia. Qed.

Lemma contract_step_capacity queueing a a' :
  contract_step queueing a a' -> c_capacity a' = c_capacity a.
Proof. intros Hs. by contract_cases Hs. Qed.

Lemma contract_step_closed queueing a a' :
  contract_step queueing a a' -> c_lifecycle a <> Running ->
  c_lifecycle a' <> Running /\ c_total a' <= c_total a.
Proof. intros Hs Hr. contract_cases Hs; split; try done; lia. Qed.

(** ** Consequences along a run *)

Lemma contract_reaches_wf queueing a a' :
  contract_reaches queueing a a' -> well_formed a -> well_formed a'.
Proof. induction 1 as [a|a1 a2 a3 Hs _ IH]; [done|]. intros Hwf. by eapply IH, contract_step_wf. Qed.

Lemma contract_reaches_capacity queueing a a' :
  contract_reaches queueing a a' -> c_capacity a' = c_capacity a.
Proof.
  induction 1 as [a|a1 a2 a3 Hs _ IH]; [done|]. by rewrite IH, (contract_step_capacity _ _ _ Hs).
Qed.

Lemma contract_reaches_closed queueing a a' :
  contract_reaches queueing a a' -> c_lifecycle a <> Running ->
  c_lifecycle a' <> Running /\ c_total a' <= c_total a.
Proof.
  induction 1 as [a|a1 a2 a3 Hs _ IH]; intros Hr; [split; [done|lia]|].
  destruct (contract_step_closed _ _ _ Hs Hr) as [Hr2 Hle]. destruct (IH Hr2). split; [done|lia].
Qed.

(** Terminated: admission closed and nothing left. *)
Definition c_terminated (a : contract) : Prop := c_lifecycle a <> Running /\ c_total a = 0.

Lemma contract_reaches_terminated queueing a a' :
  contract_reaches queueing a a' -> well_formed a -> c_terminated a -> c_terminated a'.
Proof.
  intros Hr Hwf [Hl Ht]. destruct (contract_reaches_closed _ _ _ Hr Hl) as [Hl' Hle].
  destruct (contract_reaches_wf _ _ _ Hr Hwf) as (_ & ? & ? & _).
  split; [done|]. unfold c_total in *. lia.
Qed.

(** ** Services that keep the contract

    A service is given by its configurations and steps; it refines the contract
    when its view of every step is a transition of the contract or nothing. *)

Class Refines (C : Type) (queueing : bool) (reached : C -> Prop) (trans : relation C)
    (view : C -> contract) := {
  refines_wf : forall c, reached c -> well_formed (view c);
  refines_next : forall c c', reached c -> trans c c' -> reached c';
  refines_step : forall c c', reached c -> trans c c' -> contract_moves queueing (view c) (view c');
}.

Section Refines.
Context {C : Type} {queueing : bool} {reached : C -> Prop} {trans : relation C} {view : C -> contract}.
Context `{HR : !Refines C queueing reached trans view}.

Lemma refines_run c c' :
  reached c -> rtc trans c c' -> reached c' /\ contract_reaches queueing (view c) (view c').
Proof.
  intros Hc Hr. induction Hr as [|c1 c2 c3 Hs Hr IH]; [done|].
  destruct (IH (refines_next _ _ Hc Hs)) as [Hc3 Hcon]. split; [done|].
  etrans; [by apply contract_moves_reaches, refines_step|done].
Qed.

(** What clients of any refining service may rely on. *)
Lemma refines_closed c c' :
  reached c -> rtc trans c c' -> c_lifecycle (view c) <> Running ->
  c_lifecycle (view c') <> Running /\ c_total (view c') <= c_total (view c).
Proof. intros Hc Hr. eapply contract_reaches_closed. by apply refines_run. Qed.

Lemma refines_terminated c c' :
  reached c -> rtc trans c c' -> c_terminated (view c) -> c_terminated (view c').
Proof.
  intros Hc Hr. eapply contract_reaches_terminated; [by apply refines_run|by apply refines_wf].
Qed.
End Refines.

(** ** The lifecycle byte keeps the contract *)

Section Bytes.
Context `{!LifecycleRepr}.

Definition view_of (byte queued running capacity : Z) : contract :=
  mkContract (load byte) queued running capacity.

Lemma view_shutdown queueing byte q n k :
  contract_moves queueing (view_of byte q n k) (view_of (fetch_update shutdown_update byte) q n k).
Proof.
  unfold fetch_update, shutdown_update, view_of, load.
  case_bool_decide as Hr; [|by left].
  change (default byte (Some (as_u8 ShuttingDown))) with (as_u8 ShuttingDown). rewrite from_u8_as_u8. right. by apply (contract_shutdown queueing (mkContract _ q n k)).
Qed.

Lemma view_stop queueing byte q n k :
  contract_moves queueing (view_of byte q n k) (view_of (as_u8 Stopping) q n k).
Proof.
  unfold view_of, load. rewrite from_u8_as_u8. right.
  apply (contract_stop queueing (mkContract _ q n k)).
Qed.
End Bytes.
