(* ===== verification/TaskCounts.v ===== *)
(** * [tokio_executor_task_counts.rs]

    The queued and running counters of the blocking service, with their
    [debug_assert!]s and the overflow check of [+=]: [None] is a panic. *)

From S2P Require Import Prelude.
From stdpp Require Import prelude.
#[local] Open Scope Z_scope.

Record TokioExecutorTaskCounts := mkCounts { queued : Z; running : Z }.

#[export] Instance task_counts_eq_dec : EqDecision TokioExecutorTaskCounts.
Proof. solve_decision. Defined.

(** [TokioExecutorTaskCounts::default()]. *)
Definition counts_default : TokioExecutorTaskCounts := mkCounts 0 0.

Section TaskCounts.
Context `{!BuildProfile}.
Implicit Types c : TokioExecutorTaskCounts.

Definition accept_task c : option TokioExecutorTaskCounts :=
  q ← usize_add (queued c) 1; Some (mkCounts q (running c)).

Definition mark_started c : option TokioExecutorTaskCounts :=
  _ ← debug_assert (0 <? queued c);
  r ← usize_add (running c) 1;
  Some (mkCounts (saturating_sub (queued c) 1) r).

Definition finish_task (started : bool) c : option TokioExecutorTaskCounts :=
  if started then
    _ ← debug_assert (0 <? running c);
    Some (mkCounts (queued c) (saturating_sub (running c) 1))
  else
    _ ← debug_assert (0 <? queued c);
    Some (mkCounts (saturating_sub (queued c) 1) (running c)).

Definition is_empty c : bool := (queued c =? 0) && (running c =? 0).

(** Both counters are [usize] values whose sum does not overflow. *)
Definition counts_ok c : Prop :=
  0 <= queued c /\ 0 <= running c /\ queued c + running c <= usize_MAX.

Lemma is_empty_spec c : is_empty c = true <-> queued c = 0 /\ running c = 0.
Proof. unfold is_empty. rewrite andb_true_iff, !Z.eqb_eq. done. Qed.

(** No operation panics, and each moves the counters exactly, wherever the
    caller respects the accounting protocol; in both build profiles. *)
Lemma accept_task_spec c :
  counts_ok c -> queued c + running c < usize_MAX ->
  accept_task c = Some (mkCounts (queued c + 1) (running c)).
Proof.
  intros (? & ? & ?) ?. unfold accept_task. by rewrite usize_add_fits by lia.
Qed.

Lemma mark_started_spec c :
  counts_ok c -> 0 < queued c ->
  mark_started c = Some (mkCounts (queued c - 1) (running c + 1)).
Proof.
  intros (? & ? & ?) Hq. unfold mark_started.
  rewrite (proj2 (Z.ltb_lt _ _) Hq), debug_assert_true, usize_add_fits by lia.
  cbn. unfold saturating_sub. by rewrite Z.max_r by lia.
Qed.

Lemma finish_task_true_spec c :
  0 < running c -> finish_task true c = Some (mkCounts (queued c) (running c - 1)).
Proof.
  intros Hr. unfold finish_task.
  rewrite (proj2 (Z.ltb_lt _ _) Hr), debug_assert_true. cbn.
  unfold saturating_sub. by rewrite Z.max_r by lia.
Qed.

Lemma finish_task_false_spec c :
  0 < queued c -> finish_task false c = Some (mkCounts (queued c - 1) (running c)).
Proof.
  intros Hq. unfold finish_task.
  rewrite (proj2 (Z.ltb_lt _ _) Hq), debug_assert_true. cbn.
  unfold saturating_sub. by rewrite Z.max_r by lia.
Qed.

(** A debug build reports a violated protocol. *)
Lemma finish_task_underflow started c :
  debug_assertions = true -> is_empty c = true -> finish_task started c = None.
Proof.
  intros Hd [Hq Hr]%is_empty_spec. unfold finish_task, debug_assert.
  rewrite Hd, Hq, Hr. by destruct started.
Qed.

(** The counters round-trip and report misuse: accepting, starting and
    finishing a task, or accepting it and finishing it while queued, restores
    the counters without overflow; in a debug build finishing a task that is
    not there panics, and in a release build it leaves the counter at zero. *)
Theorem counts_roundtrip c (Hok : counts_ok c) (Hroom : queued c + running c < usize_MAX) :
  (accept_task c ≫= mark_started) ≫= finish_task true = Some c /\
  accept_task c ≫= finish_task false = Some c /\
  (forall started : bool, (if started then running c else queued c) = 0 ->
    finish_task started c = if debug_assertions then None else Some c).
Proof.
  pose proof Hok as (Hq & Hr & Hm). rewrite accept_task_spec by done. cbn [mbind option_bind]. split_and!.
  - rewrite mark_started_spec by (unfold counts_ok; cbn; lia). cbn [mbind option_bind].
    rewrite finish_task_true_spec by (cbn; lia). cbn. destruct c; cbn. do 2 f_equal; lia.
  - rewrite finish_task_false_spec by (cbn; lia). cbn. destruct c; cbn. do 2 f_equal. lia.
  - intros started Hz. unfold finish_task, debug_assert, saturating_sub.
    destruct started, debug_assertions; cbn; destruct c as [q r]; cbn in *; subst; done.
Qed.
End TaskCounts.

#[global] Arguments accept_task : simpl never.
#[global] Arguments mark_started : simpl never.
#[global] Arguments finish_task : simpl never.
#[global] Arguments is_empty : simpl never.
