(* ===== verification/RejectedTask.v ===== *)
(** * [rejected_task.rs]

    A task handed back by a service that refused it. *)

From S2P Require Import Prelude External.
From stdpp Require Import prelude strings.

Record RejectedTask (T : Type) := mkRejected { rt_reason : SubmissionError; rt_task : T }.
Arguments mkRejected {T} _ _.
Arguments rt_reason {T} _.
Arguments rt_task {T} _.

Section RejectedTask.
Context {T : Type}.

Definition new (reason : SubmissionError) (task : T) : RejectedTask T := mkRejected reason task.
Definition reason (r : RejectedTask T) : SubmissionError := rt_reason r.
Definition into_parts (r : RejectedTask T) : SubmissionError * T := (rt_reason r, rt_task r).

(** [Debug] and [Display]; [fmt_reason] and [fmt_reason_debug] are the
    formatters of [SubmissionError], and a struct printed with
    [finish_non_exhaustive] ends in [..]. *)
Definition fmt_debug (fmt_reason_debug : SubmissionError -> string) (r : RejectedTask T) : string :=
  ("RejectedTask { reason: " ++ fmt_reason_debug (reason r) ++ ", .. }")%string.
Definition fmt_display (fmt_reason : SubmissionError -> string) (r : RejectedTask T) : string :=
  fmt_reason (reason r).
End RejectedTask.
