(* ===== verification/Registration.v ===== *)
(** * [tokio_task_registration.rs]: keys of registration markers

    A marker is an allocation shared by the abort-handle map, the guard and the
    submitter; it holds one flag.  The services keep the flags of all markers in
    a list and a marker is a position in it; the map of abort handles is keyed
    by the marker's address. *)

From S2P Require Import Prelude External.
From stdpp Require Import prelude list.
#[local] Open Scope Z_scope.

Section Registration.
Context `{!Allocator}.

(** [key]: the address of the allocation. *)
Definition key (marker : nat) : Z := as_ptr marker.

#[export] Instance key_inj : Inj (=) (=) key.
Proof. intros m m' Hm. by apply (inj as_ptr) in Hm. Qed.
End Registration.

(** Finishing a marker never un-finishes another one. *)
Lemma finish_false (regs : list bool) m i :
  <[m := true]> regs !! i = Some false -> regs !! i = Some false.
Proof.
  destruct (decide (m = i)) as [<-|Hne]; [|by rewrite list_lookup_insert_ne].
  rewrite list_lookup_insert. by repeat case_decide.
Qed.

Lemma finish_true (regs : list bool) m i :
  <[m := true]> regs !! i = Some true -> m = i \/ regs !! i = Some true.
Proof.
  destruct (decide (m = i)) as [<-|Hne]; [auto|]. rewrite list_lookup_insert_ne by done. auto.
Qed.

Lemma finish_keeps (regs : list bool) m i :
  regs !! i = Some true -> <[m := true]> regs !! i = Some true.
Proof.
  destruct (decide (m = i)) as [<-|Hne]; [|by rewrite list_lookup_insert_ne].
  intros Hi. apply list_lookup_insert_eq. by apply lookup_lt_Some in Hi.
Qed.
