(* ===== verification/BlockingState.v ===== *)
(** * [tokio_executor_service_state.rs]: the shared state of the blocking service

    The state of one [TokioExecutorService] together with the heap objects its
    methods share: registration markers, task trackers, one-shot channels, task
    slots and the runtime; [reports], [calls] and [answers] record, most recent
    first, the stop reports handed out, the calls of user code, and the answers of
    waits, each with whether the wait was bounded.  [bact]
    lists the atomic accesses the code performs on it, [bexec] gives each its effect,
    and the methods of [TokioExecutorServiceState] follow as programs of such
    accesses.  The wait loops of the monitor are [qubit_lock]'s: they are any programs
    with the documented behaviour (class [Monitor]).

    A section run under the task-count monitor ([with_write], [with_read]) is
    one action: nothing else can observe the counts while the monitor is held,
    and the only other shared access inside is one load of the lifecycle byte. *)

From S2P Require Import Prelude Conc External LifecycleBits TaskCounts Registration.
From stdpp Require Import prelude list gmap.
#[local] Open Scope Z_scope.

Section BlockingState.
Context `{!BuildProfile, !LifecycleRepr, !Allocator, !Tokio, !Oneshot, !WaiterSet, !Watch, !TaskSpi}.
(** The runnables and callables users submit. *)
Context {Task : Type} `{!UserCode Task}.

(** ** Data *)

(** The boxed [FnOnce() -> bool] stored with an abort handle: either
    [finish_queued_once_callback] alone, or wrapped by
    [cancel_unstarted_task_slot_if_queued]. *)
Inductive CancelHook :=
  | FinishQueuedOnce (tracker : nat)
  | CancelUnstartedSlot (slot tracker : nat).

Record TrackedAbortHandle := mkTracked {
  ta_marker : nat;
  ta_handle : AbortHandle;
  ta_cancel : CancelHook;
}.

(** The closure delivered to a blocking worker, by submission method. *)
Inductive BlockingTask :=
  | RunnableClosure (task : Task)
  | CallableClosure (slot : nat) (task : Task).

Definition closure_task (closure : BlockingTask) : Task :=
  match closure with RunnableClosure task | CallableClosure _ task => task end.

(** What is sent to the worker: the closure and its lifecycle guard, which is
    a reference to the tracker. *)
#[local] Abbreviation Payload := (BlockingTask * nat)%type.

(** [TokioServiceTaskTracker] (its [state] field is the service itself). *)
Record TokioServiceTaskTracker := mkTracker { tr_marker : nat; task_state : Z }.

Record TokioExecutorServiceState := mkState {
  lifecycle_byte : Z;
  task_counts : TokioExecutorTaskCounts;
  count_waiters : waiters;
  task_capacity : Z;
  submission_lock : option nat;
  abort_lock : option nat;
  abort_handles : gmap Z TrackedAbortHandle;
  terminated_notify : waiters;
  capacity_tx : watch;
}.

(** [SharedTaskSlot]: a cell of a task slot in an [Arc], with the number of its
    owners; [slot_endpoint] is the endpoint the cell belongs to. *)
Record SharedTaskSlot := mkSlot { slot_owners : nat; slot_endpoint : endpoint }.

(** A call of user code: the thread that made it, the closure it was made for, and
    what it gave. *)
Record UserCall := mkCall {
  uc_thread : nat;
  uc_closure : BlockingTask;
  uc_result : CallResult;
}.

Record World := mkWorld {
  svc : TokioExecutorServiceState;
  registrations : list bool;
  trackers : list TokioServiceTaskTracker;
  channels : list (oneshot Payload);
  endpoints : list SharedTaskSlot;
  rt : runtime;
  next_waiter : nat;
  reports : list StopReport;
  calls : list UserCall;
  answers : list (bool * bool);
}.

(** [with_task_capacity]: the state of a new service. *)
Definition with_task_capacity (capacity : Z) : TokioExecutorServiceState := {|
  lifecycle_byte := 0;
  task_counts := counts_default;
  count_waiters := no_waiters;
  task_capacity := capacity;
  submission_lock := None;
  abort_lock := None;
  abort_handles := ∅;
  terminated_notify := no_waiters;
  capacity_tx := watch_channel 0;
|}.

Definition DEFAULT_TASK_CAPACITY : Z := 1024.
Definition state_default : TokioExecutorServiceState := with_task_capacity DEFAULT_TASK_CAPACITY.

(** A service just created on runtime state [rt0]. *)
Definition initial_world (capacity : Z) (rt0 : runtime) : World := {|
  svc := with_task_capacity capacity;
  registrations := []; trackers := []; channels := []; endpoints := [];
  rt := rt0; next_waiter := 0; reports := []; calls := []; answers := [];
|}.

(** ** Field updates *)

Definition set_lifecycle v s := mkState v (task_counts s) (count_waiters s) (task_capacity s)
  (submission_lock s) (abort_lock s) (abort_handles s) (terminated_notify s) (capacity_tx s).
Definition set_counts v s := mkState (lifecycle_byte s) v (count_waiters s) (task_capacity s)
  (submission_lock s) (abort_lock s) (abort_handles s) (terminated_notify s) (capacity_tx s).
Definition set_count_waiters v s := mkState (lifecycle_byte s) (task_counts s) v (task_capacity s)
  (submission_lock s) (abort_lock s) (abort_handles s) (terminated_notify s) (capacity_tx s).
Definition set_submission_lock v s := mkState (lifecycle_byte s) (task_counts s) (count_waiters s)
  (task_capacity s) v (abort_lock s) (abort_handles s) (terminated_notify s) (capacity_tx s).
Definition set_abort_lock v s := mkState (lifecycle_byte s) (task_counts s) (count_waiters s)
  (task_capacity s) (submission_lock s) v (abort_handles s) (terminated_notify s) (capacity_tx s).
Definition set_abort_handles v s := mkState (lifecycle_byte s) (task_counts s) (count_waiters s)
  (task_capacity s) (submission_lock s) (abort_lock s) v (terminated_notify s) (capacity_tx s).
Definition set_terminated_notify v s := mkState (lifecycle_byte s) (task_counts s)
  (count_waiters s) (task_capacity s) (submission_lock s) (abort_lock s) (abort_handles s) v
  (capacity_tx s).
Definition set_capacity_tx v s := mkState (lifecycle_byte s) (task_counts s) (count_waiters s)
  (task_capacity s) (submission_lock s) (abort_lock s) (abort_handles s) (terminated_notify s) v.

Definition set_svc f w := mkWorld (f (svc w)) (registrations w) (trackers w) (channels w)
  (endpoints w) (rt w) (next_waiter w) (reports w) (calls w) (answers w).
Definition set_registrations v w := mkWorld (svc w) v (trackers w) (channels w)
  (endpoints w) (rt w) (next_waiter w) (reports w) (calls w) (answers w).
Definition set_trackers v w := mkWorld (svc w) (registrations w) v (channels w)
  (endpoints w) (rt w) (next_waiter w) (reports w) (calls w) (answers w).
Definition set_channels v w := mkWorld (svc w) (registrations w) (trackers w) v
  (endpoints w) (rt w) (next_waiter w) (reports w) (calls w) (answers w).
Definition set_endpoints v w := mkWorld (svc w) (registrations w) (trackers w) (channels w)
  v (rt w) (next_waiter w) (reports w) (calls w) (answers w).
Definition set_rt v w := mkWorld (svc w) (registrations w) (trackers w) (channels w)
  (endpoints w) v (next_waiter w) (reports w) (calls w) (answers w).
Definition set_next_waiter v w := mkWorld (svc w) (registrations w) (trackers w) (channels w)
  (endpoints w) (rt w) v (reports w) (calls w) (answers w).
Definition set_reports v w := mkWorld (svc w) (registrations w) (trackers w) (channels w)
  (endpoints w) (rt w) (next_waiter w) v (calls w) (answers w).
Definition set_calls v w := mkWorld (svc w) (registrations w) (trackers w) (channels w)
  (endpoints w) (rt w) (next_waiter w) (reports w) v (answers w).
Definition set_answers v w := mkWorld (svc w) (registrations w) (trackers w) (channels w)
  (endpoints w) (rt w) (next_waiter w) (reports w) (calls w) v.

(** ** Atomic actions *)

(** [TASK_STATE_QUEUED], [TASK_STATE_RUNNING], [TASK_STATE_FINISHED]. *)
Definition TASK_STATE_QUEUED : Z := 0.
Definition TASK_STATE_RUNNING : Z := 1.
Definition TASK_STATE_FINISHED : Z := 2.

Inductive bact : Type -> Type :=
  (* parking_lot::Mutex<()> submission_lock *)
  | LockSubmission : bact ()
  | UnlockSubmission : bact ()
  (* AtomicU8 lifecycle *)
  | LoadLifecycle : bact Z
  | FetchUpdateLifecycle (f : Z -> option Z) : bact ()
  | StoreLifecycle (byte : Z) : bact ()
  (* ParkingLotMonitor task_counts *)
  | WithCounts {B} (f : TokioExecutorServiceState -> TokioExecutorTaskCounts ->
                        option (B * TokioExecutorTaskCounts)) : bact B
  | NotifyAll : bact ()
  | NewWaiter : bact nat
  | Park (w : nat) (ready : TokioExecutorServiceState -> TokioExecutorTaskCounts -> bool) : bact bool
  | Unpark (w : nat) : bact ()
  | TimedUnpark (w : nat) : bact bool
  (* Mutex<HashMap<usize, TrackedAbortHandle>> abort_handles *)
  | LockAborts : bact ()
  | UnlockAborts : bact ()
  | InsertAbort (key : Z) (entry : TrackedAbortHandle) : bact (option TrackedAbortHandle)
  | RemoveAbort (key : Z) : bact (option TrackedAbortHandle)
  | TakeAborts : bact (list (Z * TrackedAbortHandle))
  (* tokio::sync::Notify terminated_notify *)
  | NotifyWaiters : bact ()
  | Enable (w : nat) : bact ()
  | AwaitNotified (w : nat) : bact ()
  | DropNotified (w : nat) : bact ()
  (* watch::Sender<u64> capacity_tx *)
  | SendModify (f : Z -> Z) : bact ()
  | Subscribe : bact receiver
  | AwaitChanged (rx : receiver) : bact receiver
  | DropChanges (rx : receiver) : bact ()
  (* Arc<TokioTaskRegistration> *)
  | NewRegistration : bact nat
  | StoreFinished (marker : nat) : bact ()
  | LoadFinished (marker : nat) : bact bool
  (* Arc<TokioServiceTaskTracker> *)
  | NewTracker (marker : nat) : bact nat
  | ReadMarker (tracker : nat) : bact nat
  | CompareExchange (tracker : nat) (current new : Z) : bact (Z + Z)
  | Swap (tracker : nat) (new : Z) : bact Z
  (* tokio::sync::oneshot *)
  | NewChannel : bact nat
  | Send (ch : nat) (payload : Payload) : bact (option Payload)
  | BlockingRecv (ch : nat) : bact (option Payload)
  | DropReceiver (ch : nat) : bact (option Payload)
  (* tokio runtime *)
  | SpawnBlocking (ch : nat) : bact AbortHandle
  | HandleIsFinished (h : AbortHandle) : bact bool
  | HandleAbort (h : AbortHandle) : bact ()
  | Dispatch (h : AbortHandle) : bact bool
  | Now : bact Z
  (* qubit_executor::task::spi; a result that is published wakes whoever waits for
     it.  Arc<TaskSlotCell>: the destructor runs with the last owner *)
  | NewEndpoint : bact nat
  | OnEndpoint {B} (slot : nat) (f : endpoint -> B * endpoint) : bact B
  | PublishEndpoint {B} (slot : nat) (f : endpoint -> B * endpoint) : bact B
  | CloneSlot (slot : nat) : bact ()
  | DropSlot (slot : nat) : bact ()
  | AwaitEndpoint (slot : nat) : bact TaskOutput
  (* user code, and the destructor of an unused task: whether it panicked *)
  | CallUser (closure : BlockingTask) : bact CallResult
  | DropTask (task : Task) : bact bool
  (* immutable field, debug_assert!, and handing a stop report or the answer of a
     wait, bounded or not, to the caller *)
  | ReadCapacity : bact Z
  | DebugAssert (b : bool) : bact ()
  | Report (report : StopReport) : bact ()
  | Answer (bounded answer : bool) : bact ().

(** The closure given to [spawn_blocking]: it owns the receiver. *)
Record BlockingClosure := mkClosure { bc_channel : nat; bc_handle : AbortHandle }.

(** Objects are accessed through references obtained from their allocation;
    on a location that was never allocated an access has no effect. *)
Definition tracker_at (w : World) (tr : nat) : TokioServiceTaskTracker :=
  default (mkTracker 0 TASK_STATE_FINISHED) (trackers w !! tr).
Definition channel_at (w : World) (ch : nat) : oneshot Payload :=
  default channel (channels w !! ch).
Definition slot_at (w : World) (sl : nat) : SharedTaskSlot :=
  default (mkSlot 0 (cell_drop endpoint_new)) (endpoints w !! sl).
Definition endpoint_at (w : World) (sl : nat) : endpoint := slot_endpoint (slot_at w sl).
Definition set_slot (sl : nat) (x : SharedTaskSlot) (w : World) : World :=
  set_endpoints (<[sl := x]> (endpoints w)) w.
Definition set_endpoint (e : endpoint) (x : SharedTaskSlot) : SharedTaskSlot := mkSlot (slot_owners x) e.
(** [Arc::clone] and [Drop for Arc]. *)
Definition arc_clone (x : SharedTaskSlot) : SharedTaskSlot :=
  mkSlot (S (slot_owners x)) (slot_endpoint x).
Definition arc_drop (x : SharedTaskSlot) : SharedTaskSlot :=
  mkSlot (pred (slot_owners x))
    (if (slot_owners x =? 1)%nat then cell_drop (slot_endpoint x) else slot_endpoint x).
Definition set_task_state (tr : nat) (v : Z) (w : World) : World :=
  set_trackers (<[tr := mkTracker (tr_marker (tracker_at w tr)) v]> (trackers w)) w.

Definition bexec {B} (t : nat) (c : bact B) (w : World) : outcome World BlockingClosure B :=
  match c in bact B return outcome World BlockingClosure B with
  | LockSubmission =>
      match submission_lock (svc w) with
      | None => Next () (set_svc (set_submission_lock (Some t)) w) []
      | Some _ => Blocked
      end
  | UnlockSubmission => Next () (set_svc (set_submission_lock None) w) []
  | LoadLifecycle => Next (lifecycle_byte (svc w)) w []
  | FetchUpdateLifecycle f =>
      Next () (set_svc (set_lifecycle (fetch_update f (lifecycle_byte (svc w)))) w) []
  | StoreLifecycle byte => Next () (set_svc (set_lifecycle byte) w) []
  | WithCounts f =>
      match f (svc w) (task_counts (svc w)) with
      | Some (b, counts) => Next b (set_svc (set_counts counts) w) []
      | None => Panicked
      end
  | NotifyAll => Next () (set_svc (set_count_waiters (wake_all (count_waiters (svc w)))) w) []
  | NewWaiter => Next (next_waiter w) (set_next_waiter (S (next_waiter w)) w) []
  | Park x ready =>
      if ready (svc w) (task_counts (svc w)) then Next true w []
      else Next false (set_svc (set_count_waiters (enlist (count_waiters (svc w)) x)) w) []
  | Unpark x => if waiting (count_waiters (svc w)) x then Blocked else Next () w []
  | TimedUnpark x =>
      if waiting (count_waiters (svc w)) x then
        if timed_out (rt w) x
        then Next false (set_svc (set_count_waiters (delist (count_waiters (svc w)) x)) w) []
        else Blocked
      else Next true w []
  | Now => Next (now (rt w)) w []
  | LockAborts =>
      match abort_lock (svc w) with
      | None => Next () (set_svc (set_abort_lock (Some t)) w) []
      | Some _ => Blocked
      end
  | UnlockAborts => Next () (set_svc (set_abort_lock None) w) []
  | InsertAbort k e =>
      Next (abort_handles (svc w) !! k)
           (set_svc (set_abort_handles (<[k := e]> (abort_handles (svc w)))) w) []
  | RemoveAbort k =>
      Next (abort_handles (svc w) !! k)
           (set_svc (set_abort_handles (delete k (abort_handles (svc w)))) w) []
  | TakeAborts =>
      Next (map_to_list (abort_handles (svc w))) (set_svc (set_abort_handles ∅) w) []
  | NotifyWaiters =>
      Next () (set_svc (set_terminated_notify (wake_all (terminated_notify (svc w)))) w) []
  | Enable x =>
      Next () (set_svc (set_terminated_notify (enlist (terminated_notify (svc w)) x)) w) []
  | AwaitNotified x => if waiting (terminated_notify (svc w)) x then Blocked else Next () w []
  | DropNotified x =>
      Next () (set_svc (set_terminated_notify (delist (terminated_notify (svc w)) x)) w) []
  | SendModify f => Next () (set_svc (set_capacity_tx (send_modify f (capacity_tx (svc w)))) w) []
  | Subscribe => Next (subscribe (capacity_tx (svc w))) w []
  | AwaitChanged rx =>
      if has_changed (capacity_tx (svc w)) rx then Next (subscribe (capacity_tx (svc w))) w []
      else Blocked
  | DropChanges rx => Next () w []
  | NewRegistration =>
      Next (length (registrations w)) (set_registrations (registrations w ++ [false]) w) []
  | StoreFinished m => Next () (set_registrations (<[m := true]> (registrations w)) w) []
  | LoadFinished m => Next (default true (registrations w !! m)) w []
  | NewTracker m =>
      Next (length (trackers w))
           (set_trackers (trackers w ++ [mkTracker m TASK_STATE_QUEUED]) w) []
  | ReadMarker tr => Next (tr_marker (tracker_at w tr)) w []
  | CompareExchange tr current new =>
      let actual := task_state (tracker_at w tr) in
      if actual =? current then Next (inl actual) (set_task_state tr new w) []
      else Next (inr actual) w []
  | Swap tr new => Next (task_state (tracker_at w tr)) (set_task_state tr new w) []
  | NewChannel => Next (length (channels w)) (set_channels (channels w ++ [channel]) w) []
  | Send ch p =>
      let '(back, ch') := send (channel_at w ch) p in
      Next back (set_channels (<[ch := ch']> (channels w)) w) []
  | BlockingRecv ch =>
      if pending (channel_at w ch) then Blocked
      else let '(got, ch') := recv (channel_at w ch) in
           Next got (set_channels (<[ch := ch']> (channels w)) w) []
  | DropReceiver ch =>
      let '(stored, ch') := drop_receiver (channel_at w ch) in
      Next stored (set_channels (<[ch := ch']> (channels w)) w) []
  | SpawnBlocking ch =>
      let '(h, rt') := spawn (rt w) in
      Next h (set_rt rt' w) [mkClosure ch h]
  | HandleIsFinished h => Next (is_finished (rt w) h) w []
  | HandleAbort h => Next () (set_rt (abort (rt w) h) w) []
  | Dispatch h => let '(go, rt') := dispatch (rt w) h in Next go (set_rt rt' w) []
  | NewEndpoint =>
      Next (length (endpoints w)) (set_endpoints (endpoints w ++ [mkSlot 1 endpoint_new]) w) []
  | OnEndpoint sl f | PublishEndpoint sl f =>
      let '(b, e) := f (endpoint_at w sl) in Next b (set_slot sl (set_endpoint e (slot_at w sl)) w) []
  | CloneSlot sl => Next () (set_slot sl (arc_clone (slot_at w sl)) w) []
  | DropSlot sl => Next () (set_slot sl (arc_drop (slot_at w sl)) w) []
  | AwaitEndpoint sl =>
      match endpoint_output (endpoint_at w sl) with
      | Some output => Next output w []
      | None => Blocked
      end
  | CallUser closure =>
      let result := call_user (closure_task closure) (rt w) in
      Next result (set_calls (mkCall t closure result :: calls w) w) []
  | DropTask task => Next (drop_panics task (rt w)) w []
  | ReadCapacity => Next (task_capacity (svc w)) w []
  | DebugAssert b =>
      match debug_assert b with Some _ => Next () w [] | None => Panicked end
  | Report report => Next () (set_reports (report :: reports w) w) []
  | Answer bounded answer => Next () (set_answers ((bounded, answer) :: answers w) w) []
  end.

(** One atomic action as a program. *)
Definition do {B} (c : bact B) : Prog bact B := Act c Ret.

(** ** [ParkingLotMonitor]

    The waits of [qubit_lock]'s monitor are not part of the crate.  A wait evaluates
    the condition under the monitor and, while it is false, sleeps: parking and
    giving up the monitor are one action.  Whoever is woken evaluates the condition
    again; whoever is not woken before the bound of a bounded wait evaluates it a
    last time and reports what it found; a bound that cannot be set up is an error
    ([None]).  [wakeups] is how many evaluations a wait makes before the model ends
    it with [false]. *)
Definition Condition : Type := TokioExecutorServiceState -> TokioExecutorTaskCounts -> bool.

Fixpoint waits (ready : Condition) (x wakeups : nat) (p : Prog bact bool) : Prop :=
  match wakeups with
  | O => p = Ret false
  | S wakeups => exists k k', p = Act (Park x ready) k /\ k true = Ret true /\
      k false = Act (Unpark x) k' /\ waits ready x wakeups (k' ())
  end.

Fixpoint waits_bounded (ready : Condition) (x wakeups : nat) (p : Prog bact (option bool)) : Prop :=
  match wakeups with
  | O => p = Ret (Some false)
  | S wakeups => exists k k' k'', p = Act (Park x ready) k /\ k true = Ret (Some true) /\
      k false = Act (TimedUnpark x) k' /\ waits_bounded ready x wakeups (k' true) /\
      k' false = Act (WithCounts (fun self counts => Some (ready self counts, counts))) k'' /\
      forall answer, k'' answer = Ret (Some answer)
  end.

Class Monitor := {
  wait_until_ready : nat -> Condition -> Prog bact bool;
  wait_until_ready_with_total_timeout : nat -> Z -> Condition -> Prog bact (option bool);
  wait_until_ready_waits : forall wakeups ready, exists k,
    wait_until_ready wakeups ready = Act NewWaiter k /\ forall x, waits ready x wakeups (k x);
  wait_until_ready_timed : forall wakeups bound ready, bounded_wait bound = true -> exists k,
    wait_until_ready_with_total_timeout wakeups bound ready = Act NewWaiter k /\
    forall x, waits_bounded ready x wakeups (k x);
  wait_until_ready_error : forall wakeups bound ready, bounded_wait bound = false ->
    wait_until_ready_with_total_timeout wakeups bound ready = Ret None;
}.
Context `{!Monitor}.

(** ** Methods of [TokioExecutorServiceState] *)

Definition lock_submission : Prog bact () := do LockSubmission.

Definition capacity_changes : Prog bact receiver := do Subscribe.

Definition lock_abort_handles : Prog bact () := do LockAborts.

(** *** [tokio_task_registration.rs] *)

Definition registration_new : Prog bact nat := do NewRegistration.
Definition registration_finish (marker : nat) : Prog bact () := do (StoreFinished marker).
Definition registration_is_finished (marker : nat) : Prog bact bool := do (LoadFinished marker).

(** *** Admission, accounting and abort tracking *)

Definition notify_capacity_changed : Prog bact () :=
  do (SendModify (fun generation => wrapping_add generation 1)).

Definition try_accept_task : Prog bact bool :=
  do (WithCounts (fun self counts =>
    if task_capacity self <=? saturating_add (queued counts) (running counts)
    then Some (false, counts)
    else counts' ← accept_task counts; Some (true, counts'))).

Definition mark_task_started : Prog bact () :=
  do (WithCounts (fun _ counts => counts' ← mark_started counts; Some ((), counts'))).

(** [is_not_running] as evaluated inside a monitor section. *)
Definition not_running (self : TokioExecutorServiceState) : bool :=
  negb (bool_decide (load (lifecycle_byte self) = Running)).

Definition notify_termination_waiters : Prog bact () := (do NotifyAll ;; do NotifyWaiters)%exec.

Definition finish_task_section (started : bool) (self : TokioExecutorServiceState)
    (counts : TokioExecutorTaskCounts) : option (bool * TokioExecutorTaskCounts) :=
  counts' ← TaskCounts.finish_task started counts;
  Some (not_running self && is_empty counts', counts').

Definition finish_task (started : bool) : Prog bact () :=
  (let! terminated := do (WithCounts (finish_task_section started)) in
   notify_capacity_changed ;;
   if terminated then notify_termination_waiters else Ret ())%exec.

Definition task_count_snapshot : Prog bact (Z * Z) :=
  do (WithCounts (fun _ counts => Some ((queued counts, running counts), counts))).

(** Dropping a hook that was not called drops what it captured; the tracker it
    holds is memory only. *)
Definition drop_hook (hook : CancelHook) : Prog bact () :=
  match hook with
  | FinishQueuedOnce _ => Ret ()
  | CancelUnstartedSlot slot _ => do (DropSlot slot)
  end.
Definition drop_entry (entry : option TrackedAbortHandle) : Prog bact () :=
  match entry with Some tracked => drop_hook (ta_cancel tracked) | None => Ret () end.

(** The lock is released before the arguments are dropped: an unused [hook] is
    dropped outside it. *)
Definition register_abort_handle (marker : nat) (h : AbortHandle) (hook : CancelHook) : Prog bact () :=
  (lock_abort_handles ;;
   let! finished := registration_is_finished marker in
   if negb finished then
     let! done := do (HandleIsFinished h) in
     if negb done then
       let! previous := do (InsertAbort (key marker) (mkTracked marker h hook)) in
       do (DebugAssert (if previous is Some _ then false else true)) ;;
       drop_entry previous ;;
       do UnlockAborts
     else do UnlockAborts ;; drop_hook hook
   else do UnlockAborts ;; drop_hook hook)%exec.

(** [self.lock_abort_handles().remove(..);] drops the removed entry, and then the
    guard of the lock: temporaries are dropped in reverse order. *)
Definition remove_abort_handle (marker : nat) : Prog bact () :=
  (registration_finish marker ;;
   lock_abort_handles ;;
   let! removed := do (RemoveAbort (key marker)) in
   drop_entry removed ;;
   do UnlockAborts)%exec.

(** The loop body of [abort_tracked_tasks]; [call] runs a stored hook, which
    consumes it. *)
Fixpoint abort_all (call : CancelHook -> Prog bact bool) (cancellation_count : Z)
    (handles : list (Z * TrackedAbortHandle)) : Prog bact Z :=
  match handles with
  | [] => Ret cancellation_count
  | (_, tracked) :: rest =>
      (let! finished := do (HandleIsFinished (ta_handle tracked)) in
       if negb finished then
         do (HandleAbort (ta_handle tracked)) ;;
         let! cancelled := call (ta_cancel tracked) in
         abort_all call (if cancelled then cancellation_count + 1 else cancellation_count) rest
       else drop_hook (ta_cancel tracked) ;; abort_all call cancellation_count rest)%exec
  end.

Definition abort_tracked_tasks (call : CancelHook -> Prog bact bool) : Prog bact Z :=
  (lock_abort_handles ;;
   let! handles := do TakeAborts in
   do UnlockAborts ;;
   abort_all call 0 handles)%exec.

Definition notify_if_terminated : Prog bact () :=
  (let! terminated :=
     do (WithCounts (fun self counts => Some (not_running self && is_empty counts, counts))) in
   if terminated then notify_termination_waiters else Ret ())%exec.

Definition is_not_running : Prog bact bool :=
  (let! byte := do LoadLifecycle in
   Ret (negb (bool_decide (load byte = Running))))%exec.

Definition lifecycle : Prog bact ExecutorServiceLifecycle :=
  (let! byte := do LoadLifecycle in
   let! has_no_tasks := do (WithCounts (fun _ counts => Some (is_empty counts, counts))) in
   Ret (if negb (bool_decide (load byte = Running)) && has_no_tasks
        then Terminated else load byte))%exec.

Definition shutdown : Prog bact () := do (FetchUpdateLifecycle shutdown_update).

Definition stop : Prog bact () := do (StoreLifecycle (as_u8 Stopping)).

(** [TokioExecutorServiceStats]. *)
Record TokioExecutorServiceStats := mkStats {
  stats_lifecycle : ExecutorServiceLifecycle;
  stats_task_capacity : Z;
  stats_queued : Z;
  stats_running : Z;
}.

Definition stats : Prog bact TokioExecutorServiceStats :=
  (let! (q, r) := task_count_snapshot in
   let! l := lifecycle in
   let! capacity := do ReadCapacity in
   Ret (mkStats l capacity q r))%exec.

(** The condition both waits pass to the monitor. *)
Definition terminated_predicate (self : TokioExecutorServiceState)
    (counts : TokioExecutorTaskCounts) : bool := not_running self && is_empty counts.

Definition wait_termination (fuel : nat) : Prog bact bool := wait_until_ready fuel terminated_predicate.

(** [wait_termination_timeout].  [wakeups] bounds the wake-ups of one bounded wait and
    [rounds] the bounded waits; durations are in nanoseconds. *)

(** [self.is_not_running() && self.task_counts.with_read(is_empty)]. *)
Definition observed_termination : Prog bact bool :=
  (let! closed := is_not_running in
   if closed then do (WithCounts (fun _ counts => Some (is_empty counts, counts))) else Ret false)%exec.

Definition HOUR : Z := 3600 * 1000000000.

Fixpoint wait_termination_timeout_loop (rounds wakeups : nat) (timeout started : Z) : Prog bact bool :=
  match rounds with
  | O => Ret false
  | S rounds =>
      (let! done := observed_termination in
       if done then Ret true
       else
         let! instant := do Now in
         let remaining := saturating_sub timeout (saturating_sub instant started) in
         if remaining =? 0 then Ret false
         else
           let! result := wait_until_ready_with_total_timeout wakeups (Z.min remaining HOUR) terminated_predicate in
           match result with
           | Some true => Ret true
           | Some false => wait_termination_timeout_loop rounds wakeups timeout started
           | None => observed_termination
           end)%exec
  end.

Definition wait_termination_timeout (rounds wakeups : nat) (timeout : Z) : Prog bact bool :=
  (let! started := do Now in
   wait_termination_timeout_loop rounds wakeups timeout started)%exec.
End BlockingState.
