(* ===== verification/BlockingService.v ===== *)
(** * The blocking service: tracker, guard, slot cancellation, handle, service

    [tokio_service_task_tracker.rs], [tokio_service_task_guard.rs],
    [tokio_task_slot_cancellation.rs], [tokio_blocking_task_handle.rs] and
    [tokio_executor_service.rs], on top of [BlockingState]. *)

From S2P Require Import Prelude Conc External LifecycleBits TaskCounts RejectedTask Registration BlockingState.
From stdpp Require Import prelude list gmap.
#[local] Open Scope Z_scope.

Section BlockingService.
Context `{!BuildProfile, !LifecycleRepr, !Allocator, !Tokio, !Oneshot, !WaiterSet, !Watch, !TaskSpi}.
Context {Task : Type} `{!UserCode Task, !Monitor (Task := Task)}.
#[local] Abbreviation bact := (bact (Task := Task)).
#[local] Abbreviation BlockingTask := (BlockingTask (Task := Task)).

(** ** [TokioServiceTaskTracker] *)

(** [new]: a queued tracker. *)
Definition tracker_new (marker : nat) : Prog bact nat := do (NewTracker marker).

(** [marker]. *)
Definition tracker_marker (tr : nat) : Prog bact nat := do (ReadMarker tr).

Definition tracker_mark_started (tr : nat) : Prog bact bool :=
  (let! r := do (CompareExchange tr TASK_STATE_QUEUED TASK_STATE_RUNNING) in
   match r with
   | inl _ => mark_task_started ;; Ret true
   | inr actual => Ret (actual =? TASK_STATE_RUNNING)
   end)%exec.

Definition tracker_finish_queued (tr : nat) : Prog bact bool :=
  (let! r := do (CompareExchange tr TASK_STATE_QUEUED TASK_STATE_FINISHED) in
   match r with
   | inl _ => finish_task false ;; Ret true
   | inr _ => Ret false
   end)%exec.

Definition tracker_cancel_queued (tr : nat) : Prog bact bool :=
  (let! marker := do (ReadMarker tr) in
   remove_abort_handle marker ;;
   tracker_finish_queued tr)%exec.

Definition tracker_finish (tr : nat) : Prog bact () :=
  (let! previous := do (Swap tr TASK_STATE_FINISHED) in
   if previous =? TASK_STATE_QUEUED then finish_task false
   else if previous =? TASK_STATE_RUNNING then finish_task true
   else Ret ())%exec.

(** ** [TokioServiceTaskGuard] *)

Definition guard_new (marker : nat) : Prog bact nat := tracker_new marker.
Definition guard_mark_started (guard : nat) : Prog bact bool := tracker_mark_started guard.
Definition finish_queued_once_callback (guard : nat) : CancelHook := FinishQueuedOnce guard.
Definition cancel_queued_callback (guard : nat) : Prog bact () :=
  (let! _ := tracker_cancel_queued guard in Ret ())%exec.

(** [Drop::drop]. *)
Definition guard_drop (guard : nat) : Prog bact () :=
  (let! marker := tracker_marker guard in
   remove_abort_handle marker ;;
   tracker_finish guard)%exec.

(** ** [tokio_task_slot_cancellation.rs] *)

(** [share_task_slot] wraps the slot in an [Arc] with one owner: its location. *)
Definition take_task_slot (slot : nat) : Prog bact bool := do (OnEndpoint slot cell_take).

Definition cancel_unstarted_task_slot_if_queued (slot : nat) (finish_queued : Prog bact bool) :
    Prog bact bool :=
  (let! finished := finish_queued in
   if finished then
     let! _ := do (PublishEndpoint slot cell_cancel_unstarted) in
     Ret true
   else Ret false)%exec.

(** Calling the boxed hook stored with an abort handle consumes it. *)
Definition call_hook (hook : CancelHook) : Prog bact bool :=
  match hook with
  | FinishQueuedOnce tr => tracker_finish_queued tr
  | CancelUnstartedSlot slot tr =>
      (let! cancelled := cancel_unstarted_task_slot_if_queued slot (tracker_finish_queued tr) in
       do (DropSlot slot) ;;
       Ret cancelled)%exec
  end.

(** ** The submitted closures *)

(** Calling the delivered closure: a runnable runs at once; a callable first
    takes its slot and is then driven by [TaskRunner::run].  The call consumes the
    closure: what it captured and did not move is dropped at its end. *)
Definition call_closure (closure : BlockingTask) : Prog bact () :=
  match closure with
  | RunnableClosure _ => (let! _ := do (CallUser closure) in Ret ())%exec
  | CallableClosure slot task =>
      (let! taken := take_task_slot slot in
       if taken then
         let! started := do (OnEndpoint slot runner_start) in
         (if started then
            let! result := do (CallUser closure) in
            do (PublishEndpoint slot (fun e => ((), runner_finish e result)))
          else let! _ := do (DropTask task) in Ret ()) ;;
         do (DropSlot slot)
       else do (DropSlot slot) ;; let! _ := do (DropTask task) in Ret ())%exec
  end.

(** Dropping a closure that was not called drops its captures in order.  When the
    task's destructor panics, the panic goes on after everything else is dropped. *)
Definition drop_closure (closure : BlockingTask) : Prog bact bool :=
  match closure with
  | RunnableClosure task => do (DropTask task)
  | CallableClosure slot task => (do (DropSlot slot) ;; do (DropTask task))%exec
  end.

(** Dropping a payload: the tuple's fields in order, the closure and then
    the guard, which is dropped also when the task's destructor panics. *)
Definition payload_drop (payload : BlockingTask * nat) : Prog bact bool :=
  (let! panicked := drop_closure (fst payload) in
   guard_drop (snd payload) ;;
   Ret panicked)%exec.

(** Dropping a task that was never accepted. *)
Definition drop_task (task : Task) : Prog bact () :=
  (let! panicked := do (DropTask task) in resume_unwind panicked)%exec.

(** The closure passed to [spawn_blocking].  The guard is dropped when the
    [if let] ends, whether or not the task ran; a task that does not run is
    dropped after the guard (reverse order of the bindings).  Tokio catches a panic
    of the closure. *)
Definition worker (ch : nat) : Prog bact () :=
  (let! received := do (BlockingRecv ch) in
   match received with
   | Some (task, guard) =>
       let! may_run := guard_mark_started guard in
       if may_run then call_closure task ;; guard_drop guard
       else guard_drop guard ;; let! _ := drop_closure task in Ret ()
   | None => Ret ()
   end)%exec.

(** A spawned closure that the runtime discards drops its receiver. *)
Definition discard (ch : nat) : Prog bact () :=
  (let! stored := do (DropReceiver ch) in
   match stored with
   | Some payload => let! _ := payload_drop payload in Ret ()
   | None => Ret ()
   end)%exec.

Definition closure_body (f : BlockingClosure) : Prog bact () :=
  (let! go := do (Dispatch (bc_handle f)) in
   if go then worker (bc_channel f) else discard (bc_channel f))%exec.

(** Between two actions the runtime is free to move; programs are ended by the
    destructors of tasks, if some of them panic. *)
#[export] Instance blocking_machine : Machine bact World BlockingClosure := {|
  exec B t c w := bexec t c w;
  body := closure_body;
  env w w' := exists rt', w' = set_rt rt' w;
  unwinds := exists task rt, drop_panics task rt = true;
|}.

(** ** [TokioBlockingTaskHandle] *)

Record TokioBlockingTaskHandle := mkHandle {
  bh_endpoint : nat;
  bh_abort_handle : AbortHandle;
  bh_cancel_queued_task : nat;
}.

Definition handle_new (handle : nat) (abort_handle : AbortHandle) (cancel_queued_task : nat) :
    TokioBlockingTaskHandle := mkHandle handle abort_handle cancel_queued_task.

(** [get] and a thread that blocks on the future of
    [into_future] wait for the endpoint; the other observers do not.  The methods of
    the handle itself and those of its traits ([TaskResultHandle],
    [TrackedTaskHandle], [CancellableTaskHandle]) call each other. *)
Definition result_is_done (h : TokioBlockingTaskHandle) : Prog bact bool :=
  do (OnEndpoint (bh_endpoint h) (fun e => (endpoint_is_done e, e))).
Definition result_get (h : TokioBlockingTaskHandle) : Prog bact TaskOutput :=
  do (AwaitEndpoint (bh_endpoint h)).

(** [try_get]: the result, or the handle put together again from its parts
    ([TryGet::Pending]). *)
Definition result_try_get (h : TokioBlockingTaskHandle) :
    Prog bact (TaskOutput + TokioBlockingTaskHandle) :=
  (let '(mkHandle handle abort_handle cancel_queued_task) := h in
   let! output := do (OnEndpoint handle (fun e => (endpoint_output e, e))) in
   match output with
   | Some result => Ret (inl result)
   | None => Ret (inr (mkHandle handle abort_handle cancel_queued_task))
   end)%exec.

Definition handle_get (h : TokioBlockingTaskHandle) : Prog bact TaskOutput := result_get h.
Definition handle_try_get (h : TokioBlockingTaskHandle) :
    Prog bact (TaskOutput + TokioBlockingTaskHandle) := result_try_get h.
Definition blocking_handle_is_done (h : TokioBlockingTaskHandle) : Prog bact bool := result_is_done h.
Definition handle_status (h : TokioBlockingTaskHandle) : Prog bact TaskStatus :=
  do (OnEndpoint (bh_endpoint h) (fun e => (endpoint_status e, e))).
Definition handle_into_future (h : TokioBlockingTaskHandle) : Prog bact TaskOutput :=
  do (AwaitEndpoint (bh_endpoint h)).

Definition cancel_blocking_task (cancel : Prog bact CancelResult.t)
    (cancel_queued_task : Prog bact ()) (abort_handle : AbortHandle) : Prog bact CancelResult.t :=
  (let! result := cancel in
   if bool_decide (result = CancelResult.Cancelled) then
     cancel_queued_task ;;
     do (HandleAbort abort_handle) ;;
     Ret result
   else Ret result)%exec.

(** [cancel]; the closure behind [cancellation_handle] is the same program. *)
Definition handle_cancel_task (h : TokioBlockingTaskHandle) : Prog bact CancelResult.t :=
  cancel_blocking_task (do (PublishEndpoint (bh_endpoint h) handle_cancel))
    (cancel_queued_callback (bh_cancel_queued_task h)) (bh_abort_handle h).

Definition cancellation_handle (h : TokioBlockingTaskHandle) : Prog bact CancelResult.t :=
  cancel_blocking_task (do (PublishEndpoint (bh_endpoint h) handle_cancel))
    (cancel_queued_callback (bh_cancel_queued_task h)) (bh_abort_handle h).

Definition tracked_handle_status (h : TokioBlockingTaskHandle) : Prog bact TaskStatus :=
  do (OnEndpoint (bh_endpoint h) (fun e => (endpoint_status e, e))).
Definition tracked_handle_cancel (h : TokioBlockingTaskHandle) : Prog bact CancelResult.t :=
  handle_cancel_task h.
Definition cancellable_cancellation_handle (h : TokioBlockingTaskHandle) : Prog bact CancelResult.t :=
  cancellation_handle h.

(** ** [TokioExecutorService]

    A service is its shared state; its clones are other references to it. *)

(** The default of the service; the state has one of its own. *)
Definition DEFAULT_TASK_CAPACITY : Z := 1024.

Definition service_new (rt0 : runtime) : World (Task := Task) := initial_world DEFAULT_TASK_CAPACITY rt0.
Definition service_stats : Prog bact TokioExecutorServiceStats := stats.
Definition service_capacity_changes : Prog bact receiver := capacity_changes.

(** On success the submission lock stays held: the returned guard. *)
Definition prepare_blocking_submission : Prog bact (nat * nat + SubmissionError) :=
  (lock_submission ;;
   let! closed := is_not_running in
   if closed then do UnlockSubmission ;; Ret (inr Shutdown)
   else
     let! accepted := try_accept_task in
     if negb accepted then do UnlockSubmission ;; Ret (inr Saturated)
     else
       let! marker := registration_new in
       let! guard := guard_new marker in
       Ret (inl (marker, guard)))%exec.

(** [_admission] is dropped at the end. *)
Definition spawn_accepted_blocking_task (marker : nat) (cancel : CancelHook) :
    Prog bact (AbortHandle * nat) :=
  (let! ch := do NewChannel in
   let! abort_handle := do (SpawnBlocking ch) in
   register_abort_handle marker abort_handle cancel ;;
   do UnlockSubmission ;;
   Ret (abort_handle, ch))%exec.

(** [if let Err(payload) = sender.send(..) { drop(payload) }]. *)
Definition hand_over (ch : nat) (payload : BlockingTask * nat) : Prog bact () :=
  (let! back := do (Send ch payload) in
   match back with
   | Some payload => let! panicked := payload_drop payload in resume_unwind panicked
   | None => Ret ()
   end)%exec.

Definition try_submit (task : Task) : Prog bact (() + RejectedTask Task) :=
  (let! prepared := prepare_blocking_submission in
   match prepared with
   | inr reason => Ret (inr (RejectedTask.new reason task))
   | inl (marker, guard) =>
       let abort_queued_task := finish_queued_once_callback guard in
       let! (_, ch) := spawn_accepted_blocking_task marker abort_queued_task in
       hand_over ch (RunnableClosure task, guard) ;;
       Ret (inl ())
   end)%exec.

(** [TaskEndpointPair::new()], [completion.accept()], [share_task_slot] and the
    clone that the hook captures. *)
Definition new_accepted_endpoint : Prog bact nat :=
  (let! slot := do NewEndpoint in
   do (OnEndpoint slot (fun e => ((), slot_accept e))) ;;
   do (CloneSlot slot) ;;
   Ret slot)%exec.

Definition try_submit_callable (task : Task) : Prog bact (nat + RejectedTask Task) :=
  (let! prepared := prepare_blocking_submission in
   match prepared with
   | inr reason => Ret (inr (RejectedTask.new reason task))
   | inl (marker, guard) =>
       let! slot := new_accepted_endpoint in
       let! (_, ch) := spawn_accepted_blocking_task marker (CancelUnstartedSlot slot guard) in
       hand_over ch (CallableClosure slot task, guard) ;;
       Ret (inl slot)
   end)%exec.

Definition try_submit_tracked_callable (task : Task) :
    Prog bact (TokioBlockingTaskHandle + RejectedTask Task) :=
  (let! prepared := prepare_blocking_submission in
   match prepared with
   | inr reason => Ret (inr (RejectedTask.new reason task))
   | inl (marker, guard) =>
       let! slot := new_accepted_endpoint in
       let! (abort_handle, ch) :=
         spawn_accepted_blocking_task marker (CancelUnstartedSlot slot guard) in
       hand_over ch (CallableClosure slot task, guard) ;;
       Ret (inl (handle_new slot abort_handle guard))
   end)%exec.

(** [result.map_err(|rejected| rejected.into_parts().0)]: the task is dropped. *)
Definition rejection_reason {A} (r : A + RejectedTask Task) : Prog bact (A + SubmissionError) :=
  match r with
  | inl a => Ret (inl a)
  | inr rejected => (let (reason, task) := into_parts rejected in drop_task task ;; Ret (inr reason))%exec
  end.

Definition submit (task : Task) : Prog bact (() + SubmissionError) :=
  (let! r := try_submit task in rejection_reason r)%exec.
Definition submit_callable (task : Task) : Prog bact (nat + SubmissionError) :=
  (let! r := try_submit_callable task in rejection_reason r)%exec.
Definition submit_tracked_callable (task : Task) :
    Prog bact (TokioBlockingTaskHandle + SubmissionError) :=
  (let! r := try_submit_tracked_callable task in rejection_reason r)%exec.

(** The methods that hand a rejected task back. *)
Inductive Attempt : forall {A}, (Task -> Prog bact (A + RejectedTask Task)) -> Prop :=
  | Attempt_submit : Attempt try_submit
  | Attempt_submit_callable : Attempt try_submit_callable
  | Attempt_submit_tracked_callable : Attempt try_submit_tracked_callable.

(** The retry protocol of the documentation of [capacity_changes] and of
    [examples/capacity_retry_callable.rs], for each of the [try_*] methods:
    subscribe before the first attempt; a saturated attempt hands the task back,
    and the caller waits for the next change before it tries again.  [attempts]
    bounds the number of attempts; [None] when they are used up.  A caller that gives
    up drops the receiver and then the task, in the order of the locals.  The handle is
    returned where the example awaits it; what the example does besides - releasing
    its own blocker, counting its attempts - is not part of the protocol. *)
Fixpoint retry {A} (attempt : Task -> Prog bact (A + RejectedTask Task)) (attempts : nat)
    (changes : receiver) (task : Task) : Prog bact (option (A + SubmissionError)) :=
  match attempts with
  | O => do (DropChanges changes) ;; drop_task task ;; Ret None
  | S attempts =>
      let! result := attempt task in
      match result with
      | inl handle => do (DropChanges changes) ;; Ret (Some (inl handle))
      | inr rejected =>
          let (reason, task) := into_parts rejected in
          match reason with
          | Saturated =>
              let! changes := do (AwaitChanged changes) in
              retry attempt attempts changes task
          | Shutdown => do (DropChanges changes) ;; drop_task task ;; Ret (Some (inr Shutdown))
          end
      end
  end%exec.

Definition submit_when_admissible {A} (attempt : Task -> Prog bact (A + RejectedTask Task))
    (attempts : nat) (task : Task) : Prog bact (option (A + SubmissionError)) :=
  (let! changes := service_capacity_changes in retry attempt attempts changes task)%exec.

Definition service_shutdown : Prog bact () :=
  (lock_submission ;;
   shutdown ;;
   do UnlockSubmission ;;
   notify_capacity_changed ;;
   notify_if_terminated)%exec.

Definition service_stop : Prog bact StopReport :=
  (lock_submission ;;
   stop ;;
   let! (queued_count, running_count) := task_count_snapshot in
   do UnlockSubmission ;;
   let! cancellation_count := abort_tracked_tasks call_hook in
   notify_capacity_changed ;;
   notify_if_terminated ;;
   Ret (Build_StopReport queued_count running_count cancellation_count))%exec.

Definition service_lifecycle : Prog bact ExecutorServiceLifecycle := lifecycle.
Definition service_is_not_running : Prog bact bool := is_not_running.
Definition is_terminated : Prog bact bool :=
  (let! l := service_lifecycle in Ret (bool_decide (l = Terminated)))%exec.
Definition service_wait_termination (fuel : nat) : Prog bact bool := wait_termination fuel.
Definition service_wait_termination_timeout (rounds wakeups : nat) (timeout : Z) : Prog bact bool :=
  wait_termination_timeout rounds wakeups timeout.

(** [await_termination]: one [Notified] future is pinned and enabled before
    every check.  The caller may drop a pending future: [fuel] is the number of
    notifications it waits for before it does.  Returning and dropping unregister
    the waiter. *)
Fixpoint await_termination_loop (fuel : nat) (notified : nat) : Prog bact bool :=
  (do (Enable notified) ;;
   let! terminated := is_terminated in
   if terminated then do (DropNotified notified) ;; Ret true
   else
     match fuel with
     | O => do (DropNotified notified) ;; Ret false
     | S fuel => do (AwaitNotified notified) ;; await_termination_loop fuel notified
     end)%exec.

Definition await_termination (fuel : nat) : Prog bact bool :=
  (let! notified := do NewWaiter in await_termination_loop fuel notified)%exec.
End BlockingService.
