(* ===== verification/BlockingInv.v ===== *)
(** * The invariant of the blocking service under interleaving

    Ghost tokens record what each thread is in the middle of: which lock it
    holds, which accounting step it still owes, which guard it owns.  [Inv]
    relates the shared state to the multiset of all tokens; [Guar] is what one
    step may do to the state; [ok] is the locking discipline. *)

From S2P Require Import Prelude Conc External LifecycleBits ServiceSpec TaskCounts Registration BlockingState BlockingService.
From stdpp Require Import prelude list gmap.
#[local] Open Scope Z_scope.

(** ** Tokens *)

Section Tokens.
Context `{!Watch, !TaskSpi}.

(** How far the runner of a task slot is: it has taken the slot out of the cell, has
    started it, has called the callable. *)
Inductive phase := Taken | Begun | Called (result : CallResult).

Inductive btok :=
  (* submission lock: held; held and the service was seen running *)
  | TSub (t : nat) | TAdmit (t : nat)
  (* abort-handle lock: held; held and marker [m] was seen unfinished *)
  | TAborts (t : nat) | TRegistering (t m : nat)
  (* a slot is reserved in the counts, its tracker not yet created *)
  | TReserved
  (* marker [m] is not yet registered; tracker [tr] has marker [m]; marker [m]
     is finished; a removal of [m] from the map is under way *)
  | TUnreg (m : nat) | TKnown (tr m : nat) | TFin (m : nat) | TRemoving (m : nat)
  (* the guard of [tr] is owned: not started; started but not yet counted as
     running; running *)
  | TGuard (tr : nat) | TStarting (tr : nat) | TRunning (tr : nat)
  (* a [finish_task(false)] or [finish_task(true)] is owed *)
  | TDebtQ | TDebtR
  (* a stop saw [q] queued tasks and has cancelled [c] since *)
  | TSnap (q c : Z)
  (* owed: wake synchronous and asynchronous waiters; wake asynchronous
     waiters; check for termination *)
  | TNotifyS | TNotifyA | TShutting
  (* waiter [w] is owned: idle; parked in the monitor; enabled and not yet
     checked; asleep on the notification *)
  | TWaiter (w : nat) | TParked (w : nat) | TChecking (w : nat) | TAsleep (w : nat)
  (* known: admission is closed; the service has terminated *)
  | TClosed | TDone
  (* receiver [rx] subscribed to capacity changes; the same, and since then the
     service was seen saturated; a change is still to be published *)
  | TWatch (rx : receiver) | TFull (rx : receiver) | TCapacity
  (* the unused sender and the unused receiver of channel [ch] *)
  | TSender (ch : nat) | TReceiver (ch : nat)
  (* one owner of the cell of slot [sl]; the runner of the slot, which has not
     finished *)
  | TOwner (sl : nat) | TRunner (sl : nat) (ph : phase).

Definition w_sub (tok : btok) : Z := match tok with TSub _ | TAdmit _ => 1 | _ => 0 end.
Definition w_abl (tok : btok) : Z := match tok with TAborts _ | TRegistering _ _ => 1 | _ => 0 end.
Definition w_queued (tok : btok) : Z :=
  match tok with TReserved | TStarting _ | TDebtQ => 1 | _ => 0 end.
Definition w_running (tok : btok) : Z := match tok with TRunning _ | TDebtR => 1 | _ => 0 end.
Definition w_guard (tr : nat) (tok : btok) : Z :=
  match tok with TGuard i | TStarting i | TRunning i => b2z (bool_decide (i = tr)) | _ => 0 end.
Definition w_unreg (m : nat) (tok : btok) : Z :=
  match tok with TUnreg i | TRegistering _ i => b2z (bool_decide (i = m)) | _ => 0 end.
Definition w_registering (m : nat) (tok : btok) : Z :=
  match tok with TRegistering _ i => b2z (bool_decide (i = m)) | _ => 0 end.
Definition w_removing (m : nat) (tok : btok) : Z :=
  match tok with TRemoving i => b2z (bool_decide (i = m)) | _ => 0 end.
Definition w_notify_s (tok : btok) : Z := match tok with TNotifyS | TShutting => 1 | _ => 0 end.
Definition w_notify_a (w : nat) (tok : btok) : Z :=
  match tok with
  | TNotifyS | TNotifyA | TShutting => 1
  | TChecking i => b2z (bool_decide (i = w))
  | _ => 0
  end.
Definition w_waiter (w : nat) (tok : btok) : Z :=
  match tok with TWaiter i | TParked i | TChecking i | TAsleep i => b2z (bool_decide (i = w)) | _ => 0 end.
Definition w_owed (tok : btok) : Z := match tok with TCapacity => 1 | _ => 0 end.
Definition w_sender (ch : nat) (tok : btok) : Z :=
  match tok with TSender i => b2z (bool_decide (i = ch)) | _ => 0 end.
Definition w_receiver (ch : nat) (tok : btok) : Z :=
  match tok with TReceiver i => b2z (bool_decide (i = ch)) | _ => 0 end.
Definition w_owner (sl : nat) (tok : btok) : Z :=
  match tok with TOwner i => b2z (bool_decide (i = sl)) | _ => 0 end.

(** The runners at work on slot [sl]. *)
Fixpoint phases (sl : nat) (r : list btok) : list phase :=
  match r with
  | [] => []
  | TRunner i ph :: r => (if decide (i = sl) then [ph] else []) ++ phases sl r
  | _ :: r => phases sl r
  end.

Lemma phases_app sl r1 r2 : phases sl (r1 ++ r2) = phases sl r1 ++ phases sl r2.
Proof. induction r1 as [|[] r1 IH]; cbn; try exact IH; [done|]. by rewrite IH, app_assoc. Qed.

#[export] Instance phases_perm sl : Proper ((≡ₚ) ==> (≡ₚ)) (phases sl).
Proof.
  intros r r' Hr. induction Hr as [|x r r' _ IH|x y r|r1 r2 r3 _ IH1 _ IH2]; [done|..|by etrans].
  - destruct x; cbn; by rewrite IH.
  - destruct x, y; cbn; try done. apply Permutation_app_swap_app.
Qed.

Ltac weights := intros; repeat match goal with x : btok |- _ => destruct x end; cbn;
  unfold b2z; repeat case_bool_decide; lia.

Lemma w_sub_nonneg tok : 0 <= w_sub tok. Proof. weights. Qed.
Lemma w_abl_nonneg tok : 0 <= w_abl tok. Proof. weights. Qed.
Lemma w_queued_nonneg tok : 0 <= w_queued tok. Proof. weights. Qed.
Lemma w_running_nonneg tok : 0 <= w_running tok. Proof. weights. Qed.
Lemma w_guard_nonneg tr tok : 0 <= w_guard tr tok. Proof. weights. Qed.
Lemma w_unreg_nonneg m tok : 0 <= w_unreg m tok. Proof. weights. Qed.
Lemma w_registering_nonneg m tok : 0 <= w_registering m tok. Proof. weights. Qed.
Lemma w_removing_nonneg m tok : 0 <= w_removing m tok. Proof. weights. Qed.
Lemma w_notify_s_nonneg tok : 0 <= w_notify_s tok. Proof. weights. Qed.
Lemma w_notify_a_nonneg w tok : 0 <= w_notify_a w tok. Proof. weights. Qed.
Lemma w_waiter_nonneg w tok : 0 <= w_waiter w tok. Proof. weights. Qed.
Lemma w_owed_nonneg tok : 0 <= w_owed tok. Proof. weights. Qed.
Lemma w_sender_nonneg ch tok : 0 <= w_sender ch tok. Proof. weights. Qed.
Lemma w_receiver_nonneg ch tok : 0 <= w_receiver ch tok. Proof. weights. Qed.
Lemma w_owner_nonneg sl tok : 0 <= w_owner sl tok. Proof. weights. Qed.
End Tokens.
#[export] Hint Resolve w_sub_nonneg w_abl_nonneg w_queued_nonneg w_running_nonneg
  w_guard_nonneg w_unreg_nonneg w_registering_nonneg w_removing_nonneg w_notify_s_nonneg
  w_notify_a_nonneg w_waiter_nonneg w_owed_nonneg
  w_sender_nonneg w_receiver_nonneg w_owner_nonneg : exec.

Section BlockingInv.
Context `{!BuildProfile, !LifecycleRepr, !Allocator, !Tokio, !Oneshot, !WaiterSet, !Watch, !TaskSpi}.
Context {Task : Type} `{!UserCode Task}.
#[local] Abbreviation World := (World (Task := Task)).
#[local] Abbreviation bact := (bact (Task := Task)).
Implicit Types (s : World) (r : list btok).

(** ** The invariant *)

Definition terminated s : Prop := terminated_predicate (svc s) (task_counts (svc s)) = true.

(** What a single token says about the state. *)
Definition tok_ok s (tok : btok) : Prop :=
  match tok with
  | TSub t => submission_lock (svc s) = Some t
  | TAdmit t => submission_lock (svc s) = Some t /\ lifecycle_byte (svc s) = 0
  | TAborts t => abort_lock (svc s) = Some t
  | TRegistering t m =>
      abort_lock (svc s) = Some t /\ abort_handles (svc s) !! key m = None /\
      (m < length (registrations s))%nat
  | TUnreg m =>
      abort_handles (svc s) !! key m = None /\ (m < length (registrations s))%nat
  | TKnown tr m => exists st, trackers s !! tr = Some (mkTracker m st)
  | TFin m => registrations s !! m = Some true
  | TGuard tr => exists x, trackers s !! tr = Some x /\ task_state x <> TASK_STATE_RUNNING
  | TStarting tr | TRunning tr =>
      exists x, trackers s !! tr = Some x /\ task_state x = TASK_STATE_RUNNING
  | TSnap q c =>
      0 < lifecycle_byte (svc s) /\ 0 <= c /\ c + queued (task_counts (svc s)) <= q
  | TShutting | TClosed => 0 < lifecycle_byte (svc s)
  | TNotifyS | TNotifyA | TDone => terminated s
  | TParked w => waiting (count_waiters (svc s)) w = true \/ terminated s
  | TChecking w | TAsleep w => waiting (terminated_notify (svc s)) w = true \/ terminated s
  | TWatch rx | TFull rx =>
      has_changed (capacity_tx (svc s)) rx = true \/ subscribe (capacity_tx (svc s)) = rx
  | TSender ch => exists c, channels s !! ch = Some c /\ content c = None
  | TReceiver ch => exists c, channels s !! ch = Some c /\ closed c = false
  | TReserved | TRemoving _ | TDebtQ | TDebtR | TWaiter _ | TCapacity | TOwner _ | TRunner _ _ => True
  end.

Definition w_tracker_queued (x : TokioServiceTaskTracker) : Z :=
  b2z (bool_decide (task_state x = TASK_STATE_QUEUED)).
Definition w_channel (tr : nat) (c : oneshot (BlockingTask (Task := Task) * nat)) : Z :=
  match content c with Some (_, i) => b2z (bool_decide (i = tr)) | None => 0 end.
(** The live guards of tracker [tr]: owned by threads or stored in channels. *)
Definition guards s r (tr : nat) : Z :=
  tally (w_guard tr) r + tally (w_channel tr) (channels s).

Definition tracker_inv s r (tr : nat) : Prop :=
  match trackers s !! tr with
  | None => guards s r tr = 0
  | Some x =>
      guards s r tr <= 1 /\
      (task_state x <> TASK_STATE_FINISHED -> guards s r tr = 1) /\
      (registrations s !! tr_marker x = Some false -> guards s r tr = 1) /\
      (tr_marker x < length (registrations s))%nat /\
      0 <= task_state x <= 2
  end.

Definition channel_inv s r (ch : nat) : Prop :=
  match channels s !! ch with
  | None => tally (w_sender ch) r = 0 /\ tally (w_receiver ch) r = 0
  | Some c =>
      tally (w_sender ch) r <= 1 /\
      tally (w_receiver ch) r = b2z (negb (closed c)) /\
      (pending c = true -> closed c = false -> tally (w_sender ch) r = 1) /\
      (forall task tr, content c = Some (task, tr) ->
        closed c = false /\
        exists x, trackers s !! tr = Some x /\ task_state x <> TASK_STATE_RUNNING)
  end.

Definition entry_inv s r (k : Z) : Prop :=
  match abort_handles (svc s) !! k with
  | None => True
  | Some e =>
      k = key (ta_marker e) /\
      (registrations s !! ta_marker e = Some true -> 1 <= tally (w_removing (ta_marker e)) r) /\
      (exists tr x, trackers s !! tr = Some x /\ tr_marker x = ta_marker e)
  end.

(** The owners of the cell of slot [sl]: threads, closures stored in channels, and
    the hooks of registered entries. *)
Definition w_closure (sl : nat) (closure : BlockingTask (Task := Task)) : Z :=
  match closure with CallableClosure i _ => b2z (bool_decide (i = sl)) | RunnableClosure _ => 0 end.
Definition w_stored (sl : nat) (c : oneshot (BlockingTask (Task := Task) * nat)) : Z :=
  match content c with Some (closure, _) => w_closure sl closure | None => 0 end.
Definition w_hook (sl : nat) (hook : CancelHook) : Z :=
  match hook with CancelUnstartedSlot i _ => b2z (bool_decide (i = sl)) | FinishQueuedOnce _ => 0 end.
Definition hooks (sl : nat) (handles : gmap Z TrackedAbortHandle) : Z :=
  tally (fun entry : Z * TrackedAbortHandle => w_hook sl (ta_cancel (snd entry))) (map_to_list handles).
Definition owners s r (sl : nat) : Z :=
  tally (w_owner sl) r + tally (w_stored sl) (channels s) + hooks sl (abort_handles (svc s)).

(** What the calls of user code made for slot [sl] gave, most recent first. *)
Definition slot_result (sl : nat) (c : UserCall (Task := Task)) : option CallResult :=
  match uc_closure c with
  | CallableClosure i _ => if decide (i = sl) then Some (uc_result c) else None
  | RunnableClosure _ => None
  end.
Definition results_of s (sl : nat) : list CallResult := omap (slot_result sl) (calls s).

(** The results that the calls made for a slot can lead to: what the only call
    gave; or, without a call, that the task was cancelled or dropped. *)
Definition explained (output : TaskOutput) (results : list CallResult) : Prop :=
  match results with
  | [] => output = inr TaskExecutionError.Cancelled \/ output = inr TaskExecutionError.Dropped
  | [result] => output = completed result
  | _ => False
  end.

(** The endpoint of a slot, given how many own its cell, what was called for it, and
    which runners are at work on it: a runner is alone and has the slot; without a
    runner a result is there, or the slot is still in its cell and owned. *)
Definition settled (e : endpoint) (results : list CallResult) : Prop :=
  exists output, endpoint_output e = Some output /\ explained output results.
Definition idle (e : endpoint) (results : list CallResult) : Prop :=
  started e = false /\ results = [].
Definition running_slot (e : endpoint) : Prop :=
  cell_full e = false /\ started e = true /\ endpoint_output e = None.
Definition describes (e : endpoint) (owned : Z) (results : list CallResult) (l : list phase) : Prop :=
  match l with
  | [] => (cell_full e = true -> idle e results) /\
      (settled e results \/ endpoint_output e = None /\ cell_full e = true /\ 1 <= owned)
  | [Taken] => cell_full e = false /\ idle e results /\ (settled e results \/ endpoint_output e = None)
  | [Begun] => running_slot e /\ results = []
  | [Called result] => running_slot e /\ results = [result]
  | _ => False
  end.

Lemma describes_perm e owned results l l' :
  l ≡ₚ l' -> describes e owned results l -> describes e owned results l'.
Proof.
  intros Hl Hd. destruct l as [|x [|y l]].
  - symmetry in Hl. apply Permutation_nil_r in Hl. by subst l'.
  - apply Permutation_singleton_l in Hl. by subst l'.
  - by destruct x.
Qed.

(** The owners are counted; and the endpoint is as its calls and runners say. *)
Definition slot_inv s r (sl : nat) : Prop :=
  match endpoints s !! sl with
  | None => owners s r sl = 0 /\ results_of s sl = [] /\ phases sl r = []
  | Some x =>
      Z.of_nat (slot_owners x) = owners s r sl /\
      describes (slot_endpoint x) (owners s r sl) (results_of s sl) (phases sl r)
  end.

Definition report_ok (rep : StopReport) : Prop :=
  0 <= report_cancelled rep <= report_queued rep.

(** A thread that waits for a change of capacity which was not published yet. *)
Definition w_unchanged (w : watch) (tok : btok) : Z :=
  match tok with TFull rx => b2z (negb (has_changed w rx)) | _ => 0 end.
Lemma w_unchanged_nonneg w tok : 0 <= w_unchanged w tok.
Proof. destruct tok; cbn; try lia. by destruct (has_changed _ _). Qed.

(** An unbounded wait never gives up; a positive answer means termination. *)
Definition answer_ok (a : bool * bool) : Prop := fst a = false -> snd a = true.
Definition says_terminated (a : bool * bool) : Prop := snd a = true.

(** Everything but the ownership of task slots. *)
Record Base s r : Prop := {
  inv_toks : Forall (tok_ok s) r;
  inv_sub : tally w_sub r = b2z (bool_decide (is_Some (submission_lock (svc s))));
  inv_abl : tally w_abl r = b2z (bool_decide (is_Some (abort_lock (svc s))));
  inv_byte : stored (lifecycle_byte (svc s));
  inv_capacity : 1 <= task_capacity (svc s) <= usize_MAX;
  inv_queued : queued (task_counts (svc s)) =
    tally w_tracker_queued (trackers s) + tally w_queued r;
  inv_running : running (task_counts (svc s)) = tally w_running r;
  inv_bound : queued (task_counts (svc s)) + running (task_counts (svc s))
    <= task_capacity (svc s);
  inv_tracker : forall tr, tracker_inv s r tr;
  inv_channel : forall ch, channel_inv s r ch;
  inv_entry : forall k, entry_inv s r k;
  inv_unreg : forall m, tally (w_unreg m) r <= 1;
  inv_registering : forall m, 1 <= tally (w_registering m) r ->
    registrations s !! m = Some true -> 1 <= tally (w_removing m) r;
  inv_wait_s : forall w, waiting (count_waiters (svc s)) w = true -> terminated s ->
    1 <= tally w_notify_s r;
  inv_wait_a : forall w, waiting (terminated_notify (svc s)) w = true -> terminated s ->
    1 <= tally (w_notify_a w) r;
  inv_reports : Forall report_ok (reports s);
  inv_waiter : forall w, tally (w_waiter w) r <= 1 /\
    ((next_waiter s <= w)%nat -> tally (w_waiter w) r = 0);
  inv_answers : Forall answer_ok (answers s);
  inv_promise : Exists says_terminated (answers s) -> terminated s;
  inv_full : 1 <= tally (w_unchanged (capacity_tx (svc s))) r ->
    queued (task_counts (svc s)) + running (task_counts (svc s)) = task_capacity (svc s) \/
    1 <= tally w_owed r;
}.

Record Inv s r : Prop := {
  inv_base :> Base s r;
  inv_slot : forall sl, slot_inv s r sl;
}.

(** ** The guarantee of a step *)

(** What the contract sees of a service. *)
Definition view s : contract :=
  view_of (lifecycle_byte (svc s)) (queued (task_counts (svc s))) (running (task_counts (svc s)))
    (task_capacity (svc s)).

Definition task_total s : Z := queued (task_counts (svc s)) + running (task_counts (svc s)).

(** Trackers are never removed, keep their marker, and only move forward. *)
Definition trackers_advance s s' : Prop :=
  forall tr x, trackers s !! tr = Some x ->
    exists x', trackers s' !! tr = Some x' /\ tr_marker x' = tr_marker x /\ task_state x <= task_state x'.

#[export] Instance trackers_advance_preorder : PreOrder trackers_advance.
Proof.
  split.
  - intros s tr x Hx. exists x. split_and!; [done..|lia].
  - intros s1 s2 s3 X1 X2 tr x Hx. destruct (X1 tr x Hx) as (x2 & Hx2 & Hm2 & ?).
    destruct (X2 tr x2 Hx2) as (x3 & Hx3 & Hm3 & ?).
    exists x3. split_and!; [done|congruence|lia].
Qed.

Lemma trackers_advance_same s s' : trackers s' = trackers s -> trackers_advance s s'.
Proof. intros Hx tr x Htr. exists x. rewrite Hx. split_and!; [done..|lia]. Qed.

(** Published results are final. *)
Definition results_final s s' : Prop :=
  forall sl output, (sl < length (endpoints s))%nat -> endpoint_output (endpoint_at s sl) = Some output ->
    (sl < length (endpoints s'))%nat /\ endpoint_output (endpoint_at s' sl) = Some output.

#[export] Instance results_final_preorder : PreOrder results_final.
Proof.
  split; [by intros s sl output|].
  intros s1 s2 s3 F1 F2 sl output Hsl Ho. destruct (F1 sl output Hsl Ho). by apply F2.
Qed.

Lemma results_final_same s s' : endpoints s' = endpoints s -> results_final s s'.
Proof. intros He sl output. unfold endpoint_at, slot_at. by rewrite He. Qed.

(** A step makes at most one move of the contract, never decreases the lifecycle
    byte, creates no tracker once the service is closed, only advances the others,
    and changes no published result. *)
Record Guar s s' : Prop := {
  guar_view : contract_moves true (view s) (view s');
  guar_rank : lifecycle_byte (svc s) <= lifecycle_byte (svc s');
  guar_closed : 0 < lifecycle_byte (svc s) -> length (trackers s') = length (trackers s);
  guar_trackers : trackers_advance s s';
  guar_results : results_final s s';
}.

(** What remains of it along a run. *)
Record Progress s s' : Prop := {
  prog_view : contract_reaches true (view s) (view s');
  prog_rank : lifecycle_byte (svc s) <= lifecycle_byte (svc s');
  prog_closed : 0 < lifecycle_byte (svc s) -> length (trackers s') = length (trackers s);
  prog_trackers : trackers_advance s s';
  prog_results : results_final s s';
}.

#[export] Instance Guar_refl : Reflexive Guar.
Proof. intros s. split; [by left|done..]. Qed.

#[export] Instance Progress_preorder : PreOrder Progress.
Proof.
  split.
  - intros s. by split.
  - intros s1 s2 s3 [V1 R1 T1 X1 F1] [V2 R2 T2 X2 F2]. split; [by etrans|lia| |by etrans|by etrans].
    intros Hb. rewrite T2, T1; [done|done|lia].
Qed.

Lemma Guar_Progress s s' : Guar s s' -> Progress s s'.
Proof. intros []. split; [by apply contract_moves_reaches|done..]. Qed.

(** ** The discipline *)

Definition locks r : Z := tally w_sub r + tally w_abl r.

(** Tokens a thread may hold while it waits for the submission lock, or for a
    result. *)
Definition passive (tok : btok) : Prop := match tok with TWatch _ => True | _ => False end.

Definition ok B (t : nat) (c : bact B) r : Prop :=
  match c with
  | LockSubmission => Forall passive r
  | LockAborts => tally w_abl r = 0
  | NotifyAll | NotifyWaiters | SendModify _ | HandleAbort _ | DropTask _ | PublishEndpoint _ _ => locks r = 0
  | CallUser _ => locks r = 0 /\ exists tr, TRunning tr ∈ r
  | BlockingRecv ch => r = [TReceiver ch]
  | Unpark w | TimedUnpark w => r = [TParked w]
  | AwaitNotified w => r = [TAsleep w]
  | AwaitChanged rx => r = [TFull rx]
  | AwaitEndpoint _ => Forall passive r
  | _ => True
  end.

Definition own (t : nat) (tok : btok) : Prop :=
  match tok with
  | TSub i | TAdmit i | TAborts i | TRegistering i _ => i = t
  | _ => True
  end.

Definition blk B (t : nat) (c : bact B) s : Prop :=
  match c with
  | LockSubmission => is_Some (submission_lock (svc s))
  | LockAborts => is_Some (abort_lock (svc s))
  | BlockingRecv ch => pending (channel_at s ch) = true
  | Unpark w | TimedUnpark w => waiting (count_waiters (svc s)) w = true
  | AwaitNotified w => waiting (terminated_notify (svc s)) w = true
  | AwaitChanged rx => has_changed (capacity_tx (svc s)) rx = false
  | AwaitEndpoint sl => endpoint_output (endpoint_at s sl) = None
  | _ => False
  end.

Definition pre (f : BlockingClosure) : list btok := [TReceiver (bc_channel f)].

(** ** Permutation invariance *)

#[export] Instance tok_ok_Forall_perm s : Proper ((≡ₚ) ==> iff) (Forall (tok_ok s)).
Proof. apply _. Qed.

#[export] Instance Base_perm s : Proper ((≡ₚ) ==> iff) (Base s).
Proof.
  assert (forall r r', r ≡ₚ r' -> Base s r -> Base s r') as Himp.
  { intros r r' Hr []. assert (forall f, tally f r' = tally f r) as E.
    { intros f. by rewrite Hr. }
    split; rewrite ?E; try done.
    - by rewrite <- Hr.
    - intros x. specialize (inv_tracker0 x). unfold tracker_inv, guards in *.
      destruct (trackers s !! x); by rewrite !E.
    - intros x. specialize (inv_channel0 x). unfold channel_inv in *.
      destruct (channels s !! x); by rewrite !E.
    - intros x. specialize (inv_entry0 x). unfold entry_inv in *.
      destruct (abort_handles (svc s) !! x); by rewrite ?E.
    - intros x. by rewrite E.
    - intros x. rewrite !E. apply inv_registering0.
    - intros x. rewrite !E. apply inv_wait_a0.
    - intros x. by rewrite E. }
  intros r r' Hr. split; apply Himp; by rewrite Hr.
Qed.

#[export] Instance Inv_perm s : Proper ((≡ₚ) ==> iff) (Inv s).
Proof.
  assert (forall r r', r ≡ₚ r' -> Inv s r -> Inv s r') as Himp.
  { intros r r' Hr [Hb Hs]. split; [by rewrite <- Hr|]. intros x. specialize (Hs x).
    assert (owners s r' x = owners s r x) as Eo by (unfold owners; by rewrite Hr).
    assert (phases x r ≡ₚ phases x r') as Ep by by rewrite Hr.
    unfold slot_inv in *. rewrite Eo. destruct (endpoints s !! x).
    - destruct Hs as [Ho Hd]. split; [done|]. exact (describes_perm _ _ _ _ _ Ep Hd).
    - destruct Hs as (Ho & Hc & Hp). split_and!; [done..|]. apply Permutation_nil_r. by rewrite <- Ep, Hp. }
  intros r r' Hr. split; apply Himp; by rewrite Hr.
Qed.
End BlockingInv.
