(* ===== verification/BlockingSequential.v ===== *)
(** * Functional behaviour of the blocking service's methods

    What each operation computes when nothing interferes: the branches of
    submission, the effect of hooks, handles, shutdown and stop, stated with
    [run]. *)

From S2P Require Import Prelude Conc External LifecycleBits TaskCounts RejectedTask Registration BlockingState BlockingService BlockingInv.
From stdpp Require Import prelude list gmap.
#[local] Open Scope Z_scope.

Section BlockingSequential.
Context `{!BuildProfile, !LifecycleRepr, !Allocator, !Tokio, !Oneshot, !WaiterSet, !Watch, !TaskSpi}.
Context {Task : Type} `{!UserCode Task, !Monitor (Task := Task)}.
#[local] Abbreviation World := (World (Task := Task)).
#[local] Abbreviation bact := (bact (Task := Task)).
Implicit Types (w : World) (t : nat).

Definition is_running w : Prop := load (lifecycle_byte (svc w)) = Running.
Definition unlocked w : Prop := submission_lock (svc w) = None /\ abort_lock (svc w) = None.
Definition has_room w : Prop :=
  queued (task_counts (svc w)) + running (task_counts (svc w)) < task_capacity (svc w) <= usize_MAX.

Lemma relock_same w t :
  submission_lock (svc w) = None ->
  set_svc (set_submission_lock None) (set_svc (set_submission_lock (Some t)) w) = w.
Proof. destruct w as [[]]; cbn. by intros ->. Qed.

(** ** Admission *)

Lemma run_prepare_closed t w :
  submission_lock (svc w) = None -> ~ is_running w ->
  run t prepare_blocking_submission w = Next (inr Shutdown) w [].
Proof.
  intros Hl Hr. unfold prepare_blocking_submission. cbn. rewrite Hl. cbn.
  rewrite bool_decide_eq_false_2 by done. cbn. f_equal. by apply relock_same.
Qed.

Lemma run_prepare_full t w :
  submission_lock (svc w) = None -> is_running w ->
  counts_ok (task_counts (svc w)) -> task_capacity (svc w) <= usize_MAX -> ~ has_room w ->
  run t prepare_blocking_submission w = Next (inr Saturated) w [].
Proof.
  intros Hl Hr (? & ? & ?) Hcap Hroom. unfold prepare_blocking_submission. cbn. rewrite Hl. cbn.
  rewrite bool_decide_eq_true_2 by done. cbn. unfold saturating_add.
  rewrite (proj2 (Z.leb_le _ _)) by (unfold has_room in Hroom; lia). cbn. f_equal.
  destruct w as [[]]; cbn in *. by subst.
Qed.

Definition after_admission t w : World :=
  let s := svc w in
  let m := length (registrations w) in
  mkWorld (set_submission_lock (Some t)
            (set_counts (mkCounts (queued (task_counts s) + 1) (running (task_counts s))) s))
    (registrations w ++ [false]) (trackers w ++ [mkTracker m TASK_STATE_QUEUED])
    (channels w) (endpoints w) (rt w) (next_waiter w) (reports w) (calls w) (answers w).

Lemma run_prepare_admitted t w :
  submission_lock (svc w) = None -> is_running w -> counts_ok (task_counts (svc w)) -> has_room w ->
  run t prepare_blocking_submission w =
    Next (inl (length (registrations w), length (trackers w))) (after_admission t w) [].
Proof.
  intros Hl Hr (? & ? & ?) [Hlt Hcap]. unfold prepare_blocking_submission. cbn. rewrite Hl. cbn.
  rewrite bool_decide_eq_true_2 by done. cbn. unfold saturating_add.
  rewrite (proj2 (Z.leb_gt _ _)) by lia.
  rewrite accept_task_spec by (unfold counts_ok; lia). done.
Qed.

(** Dropping a task that was not accepted: [outcome] is what follows unless its
    destructor panics. *)
Definition after_drop {A} (task : Task) (a : A) w : outcome World BlockingClosure A :=
  if drop_panics task (rt w) then Unwound w [] else Next a w [].

Lemma run_drop_task {A} t task (a : A) w : run t (drop_task task ;; Ret a)%exec w = after_drop task a w.
Proof. unfold after_drop. cbn. by destruct (drop_panics _ _). Qed.

(** All six submission methods reject [task] with [reason] and change nothing; the
    [try_*] ones hand it back, the others drop it. *)
Definition rejects t w (task : Task) (reason : SubmissionError) : Prop :=
  run t (try_submit task) w = Next (inr (RejectedTask.new reason task)) w [] /\
  run t (try_submit_callable task) w = Next (inr (RejectedTask.new reason task)) w [] /\
  run t (try_submit_tracked_callable task) w = Next (inr (RejectedTask.new reason task)) w [] /\
  run t (submit task) w = after_drop task (inr reason) w /\
  run t (submit_callable task) w = after_drop task (inr reason) w /\
  run t (submit_tracked_callable task) w = after_drop task (inr reason) w.

Lemma prepare_rejects t w task reason :
  run t prepare_blocking_submission w = Next (inr reason) w [] -> rejects t w task reason.
Proof.
  intros Hp. unfold rejects, submit, submit_callable, submit_tracked_callable.
  unfold try_submit, try_submit_callable, try_submit_tracked_callable.
  split_and!; rewrite !run_bind, Hp; cbn; [done..| | |]; unfold after_drop; by destruct (drop_panics _ _).
Qed.

Lemma closed_service_rejects t w task
    (Hl : submission_lock (svc w) = None) (Hr : load (lifecycle_byte (svc w)) <> Running) :
  rejects t w task Shutdown.
Proof. by apply prepare_rejects, run_prepare_closed. Qed.

Lemma full_service_rejects t w task
    (Hl : submission_lock (svc w) = None) (Hr : load (lifecycle_byte (svc w)) = Running)
    (Hok : counts_ok (task_counts (svc w))) (Hcap : task_capacity (svc w) <= usize_MAX)
    (Hfull : task_capacity (svc w) <= queued (task_counts (svc w)) + running (task_counts (svc w))) :
  rejects t w task Saturated.
Proof. apply prepare_rejects, run_prepare_full; try done. unfold has_room. lia. Qed.

(** C30. Every submission is rejected without effect in two cases: with [Shutdown]
    by a service that is shutting down, stopping or terminated, whatever its
    load, and with [Saturated] by a running service at capacity; the untouched task is
    handed back by the [try_*] methods and dropped by the others - if its destructor
    panics the panic reaches the caller -, and no slot, tracker, channel or lock is
    left behind. *)
Theorem service_rejects t w task (Hl : submission_lock (svc w) = None) :
  (load (lifecycle_byte (svc w)) <> Running -> rejects t w task Shutdown) /\
  (load (lifecycle_byte (svc w)) = Running -> counts_ok (task_counts (svc w)) ->
    task_capacity (svc w) <= usize_MAX ->
    task_capacity (svc w) <= queued (task_counts (svc w)) + running (task_counts (svc w)) ->
    rejects t w task Saturated).
Proof. split; intros; [by apply closed_service_rejects|by apply full_service_rejects]. Qed.

(** ** Acceptance *)

(** Dropping a hook or an entry changes the slots only. *)
Definition hook_dropped (hook : CancelHook) (slots : list SharedTaskSlot) : list SharedTaskSlot :=
  match hook with
  | FinishQueuedOnce _ => slots
  | CancelUnstartedSlot slot _ =>
      <[slot := arc_drop (default (mkSlot 0 (cell_drop endpoint_new)) (slots !! slot))]> slots
  end.
Definition entry_dropped (entry : option TrackedAbortHandle) (slots : list SharedTaskSlot) : list SharedTaskSlot :=
  match entry with Some tracked => hook_dropped (ta_cancel tracked) slots | None => slots end.

Lemma set_endpoints_same w : set_endpoints (endpoints w) w = w.
Proof. by destruct w. Qed.

Lemma run_drop_hook t hook w :
  run t (drop_hook hook) w = Next () (set_endpoints (hook_dropped hook (endpoints w)) w) [].
Proof. destruct hook; [by destruct w|done]. Qed.

Lemma run_drop_entry t entry w :
  run t (drop_entry entry) w = Next () (set_endpoints (entry_dropped entry (endpoints w)) w) [].
Proof. destruct entry; [apply run_drop_hook|by destruct w]. Qed.

(** No drop takes a result back. *)
Lemma hook_dropped_final hook slots sl x output :
  slots !! sl = Some x -> endpoint_output (slot_endpoint x) = Some output ->
  exists x', hook_dropped hook slots !! sl = Some x' /\ endpoint_output (slot_endpoint x') = Some output.
Proof.
  intros Hx Ho. destruct hook as [tr|slot tr]; cbn; [by exists x|]. destruct (decide (slot = sl)) as [->|Hne].
  - rewrite list_lookup_insert_eq by exact (lookup_lt_Some _ _ _ Hx). rewrite Hx. eexists. split; [done|]. cbn.
    destruct (_ =? 1)%nat; [by apply drop_final|done].
  - rewrite list_lookup_insert_ne by done. by exists x.
Qed.

Lemma entry_dropped_final entry slots sl x output :
  slots !! sl = Some x -> endpoint_output (slot_endpoint x) = Some output ->
  exists x', entry_dropped entry slots !! sl = Some x' /\ endpoint_output (slot_endpoint x') = Some output.
Proof. destruct entry; [apply hook_dropped_final|]. intros Hx Ho. by exists x. Qed.

(** The state after spawning: a fresh channel, the runtime's new closure, the
    registered abort handle unless the closure finished already, and the
    submission lock released; a hook that is not registered is dropped. *)
Definition register m h hook (handles : gmap Z TrackedAbortHandle) (finished : bool) :
    gmap Z TrackedAbortHandle :=
  if finished then handles else <[key m := mkTracked m h hook]> handles.
Definition spawned m hook w : World :=
  let '(h, rt') := spawn (rt w) in
  set_channels (channels w ++ [channel]) (set_rt rt'
    (set_endpoints (if is_finished rt' h then hook_dropped hook (endpoints w) else endpoints w)
      (set_svc (fun s => set_submission_lock None
        (set_abort_handles (register m h hook (abort_handles s) (is_finished rt' h)) s)) w))).

Lemma run_spawn t m hook w :
  abort_lock (svc w) = None -> registrations w !! m = Some false ->
  abort_handles (svc w) !! key m = None ->
  run t (spawn_accepted_blocking_task m hook) w =
    let h := fst (spawn (rt w)) in
    Next (h, length (channels w)) (spawned m hook w) [mkClosure (length (channels w)) h].
Proof.
  intros Hal Hm Hk. unfold spawn_accepted_blocking_task, spawned. cbn.
  destruct (spawn (rt w)) as [h rt'] eqn:Hs. cbn. rewrite Hal. cbn. rewrite Hm. cbn.
  destruct (is_finished rt' h) eqn:Hf; cbn.
  - rewrite run_bind, run_drop_hook. by destruct w as [[]]; cbn in *; subst.
  - rewrite Hk. cbn. rewrite debug_assert_true. by destruct w as [[]]; cbn in *; subst.
Qed.

(** What an accepting submission leaves behind. *)
Definition accepted_state w w' ch hook closure h : Prop :=
  submission_lock (svc w') = None /\ abort_lock (svc w') = None /\
  lifecycle_byte (svc w') = lifecycle_byte (svc w) /\
  task_counts (svc w') = mkCounts (queued (task_counts (svc w)) + 1) (running (task_counts (svc w))) /\
  trackers w' = trackers w ++ [mkTracker (length (registrations w)) TASK_STATE_QUEUED] /\
  registrations w' = registrations w ++ [false] /\
  ch = length (channels w) /\
  (exists c, channels w' !! ch = Some c /\ content c = Some (closure, length (trackers w)) /\
    pending c = false /\ closed c = false) /\
  abort_handles (svc w') =
    register (length (registrations w)) h hook (abort_handles (svc w)) (is_finished (rt w') h) /\
  calls w' = calls w.

Lemma run_accept_spawn_send t w hook closure :
  unlocked w -> is_running w -> counts_ok (task_counts (svc w)) -> has_room w ->
  abort_handles (svc w) !! key (length (registrations w)) = None ->
  exists w1 h ch w', run t prepare_blocking_submission w =
      Next (inl (length (registrations w), length (trackers w))) w1 [] /\
    forall E, let w2 := set_endpoints E w1 in
    exists E' w3, let w2' := set_endpoints E' w' in
    (E' = E \/ E' = hook_dropped hook E) /\
    run t (spawn_accepted_blocking_task (length (registrations w)) hook) w2 =
      Next (h, ch) w3 [mkClosure ch h] /\
    run t (hand_over ch (closure, length (trackers w))) w3 = Next () w2' [] /\
    accepted_state w w2' ch hook closure h.
Proof.
  intros [Hl Hal] Hr Hok Hroom Hk.
  exists (after_admission t w), (fst (spawn (rt w))), (length (channels w)).
  destruct (spawn (rt w)) as [h rt'] eqn:Hs.
  destruct (send_open _ channel (closure, length (trackers w)) (closed_channel _) (content_channel _))
    as (d & Hd & ? & ? & ?).
  exists (set_channels (channels w ++ [d]) (spawned (length (registrations w)) hook (after_admission t w))).
  split; [by apply run_prepare_admitted|]. intros E. cbv zeta.
  exists (if is_finished rt' h then hook_dropped hook E else E).
  exists (spawned (length (registrations w)) hook (set_endpoints E (after_admission t w))). split_and!.
  - destruct (is_finished rt' h); [by right|by left].
  - rewrite run_spawn; [by cbn; rewrite Hs|done| |done]. cbn.
    by rewrite lookup_app_r, Nat.sub_diag by done.
  - unfold hand_over, spawned, channel_at. cbn. rewrite Hs. cbn.
    unfold channel_at. cbn. rewrite lookup_app_r, Nat.sub_diag by done. cbn. rewrite Hd. cbn.
    do 2 f_equal. by rewrite insert_app_r_alt, Nat.sub_diag by done.
  - unfold accepted_state, spawned. cbn. rewrite Hs. cbn. split_and!; try done.
    exists d. by rewrite lookup_app_r, Nat.sub_diag by done.
Qed.

(** A slot that is still in its cell, and that nobody has started or finished. *)
Definition fresh_slot (x : SharedTaskSlot) : Prop :=
  cell_full (slot_endpoint x) = true /\ started (slot_endpoint x) = false /\
  endpoint_output (slot_endpoint x) = None.

(** The new slot, owned by the closure and by the hook. *)
Definition accepted_slot : SharedTaskSlot := mkSlot 2 (slot_accept endpoint_new).

Lemma fresh_accepted n : fresh_slot (mkSlot n (slot_accept endpoint_new)).
Proof. unfold fresh_slot. cbn. destruct (accept_spec endpoint_new) as (-> & -> & ->). apply new_spec. Qed.

Lemma run_new_accepted_endpoint t w :
  run t new_accepted_endpoint w =
    Next (length (endpoints w)) (set_endpoints (endpoints w ++ [accepted_slot]) w) [].
Proof.
  assert ((endpoints w ++ [mkSlot 1 endpoint_new]) !! length (endpoints w) = Some (mkSlot 1 endpoint_new)) as Hx
    by by rewrite lookup_app_r, Nat.sub_diag.
  cbn. unfold set_slot, endpoint_at, slot_at. cbn. rewrite Hx. cbn.
  rewrite list_lookup_insert_eq by exact (lookup_lt_Some _ _ _ Hx). cbn.
  rewrite list_insert_insert_eq, insert_app_r_alt, Nat.sub_diag by done. done.
Qed.

(** The slot of an accepted callable. *)
Definition has_fresh_slot w slot : Prop := exists x, endpoints w !! slot = Some x /\ fresh_slot x.

Lemma run_accept_slot t w task :
  unlocked w -> is_running w -> counts_ok (task_counts (svc w)) -> has_room w ->
  abort_handles (svc w) !! key (length (registrations w)) = None ->
  let m := length (registrations w) in
  let g := length (trackers w) in
  let slot := length (endpoints w) in
  let E := endpoints w ++ [accepted_slot] in
  exists h ch w3 w',
    run t new_accepted_endpoint (after_admission t w) = Next slot (set_endpoints E (after_admission t w)) [] /\
    run t (spawn_accepted_blocking_task m (CancelUnstartedSlot slot g)) (set_endpoints E (after_admission t w)) =
      Next (h, ch) w3 [mkClosure ch h] /\
    run t (hand_over ch (CallableClosure slot task, g)) w3 = Next () w' [] /\
    accepted_state w w' ch (CancelUnstartedSlot slot g) (CallableClosure slot task) h /\
    has_fresh_slot w' slot.
Proof.
  intros Hun Hr Hok Hroom Hfresh m g slot E.
  destruct (run_accept_spawn_send t w (CancelUnstartedSlot slot g) (CallableClosure slot task))
    as (w1 & h & ch & w' & Hprep & Hrest); [done..|].
  destruct Hun as [Hl ?]. rewrite run_prepare_admitted in Hprep by done. injection Hprep as <-.
  pose proof (run_new_accepted_endpoint t (after_admission t w)) as HE.
  destruct (Hrest E) as (E' & w3 & HE' & Hspawn & Hsend & Hacc).
  exists h, ch, w3, (set_endpoints E' w'). split_and!; [done..|].
  assert (E !! slot = Some accepted_slot) as Hx by (unfold E, slot; by rewrite lookup_app_r, Nat.sub_diag).
  destruct HE' as [-> | ->]; [by exists accepted_slot; split; [|apply fresh_accepted]|].
  exists (arc_drop accepted_slot). split; [|apply fresh_accepted]. cbn. rewrite Hx. cbn.
  apply list_lookup_insert_eq. exact (lookup_lt_Some _ _ _ Hx).
Qed.

(** The submissions, one by one. *)
Section Accepts.
Context t w (task : Task) (Hun : unlocked w) (Hr : is_running w) (Hok : counts_ok (task_counts (svc w)))
  (Hroom : has_room w) (Hfresh : abort_handles (svc w) !! key (length (registrations w)) = None).
#[local] Abbreviation g := (length (trackers w)).
#[local] Abbreviation slot := (length (endpoints w)).

Lemma runnable_accepted :
  exists h ch w', run t (try_submit task) w = Next (inl ()) w' [mkClosure ch h] /\
    accepted_state w w' ch (FinishQueuedOnce g) (RunnableClosure task) h.
Proof.
  pose proof Hun as [Hl _]. pose proof (run_prepare_admitted t w Hl Hr Hok Hroom) as Hprep.
  destruct (run_accept_spawn_send t w (FinishQueuedOnce g) (RunnableClosure task))
    as (w1 & h & ch & w' & Hprep1 & Hrest); [done..|]. rewrite Hprep in Hprep1. injection Hprep1 as <-.
  destruct (Hrest (endpoints w)) as (E & w4 & _ & Hspawn & Hsend & Hacc).
  exists h, ch, (set_endpoints E w'). split; [|done].
  unfold try_submit, finish_queued_once_callback. rewrite run_bind, Hprep. cbv iota beta.
  change (set_endpoints (endpoints w) (after_admission t w)) with (after_admission t w) in Hspawn.
  rewrite run_bind, Hspawn. cbv iota beta. by rewrite run_bind, Hsend.
Qed.

Lemma callables_accepted :
  exists h ch w', run t (try_submit_callable task) w = Next (inl slot) w' [mkClosure ch h] /\
    run t (try_submit_tracked_callable task) w = Next (inl (mkHandle slot h g)) w' [mkClosure ch h] /\
    accepted_state w w' ch (CancelUnstartedSlot slot g) (CallableClosure slot task) h /\
    has_fresh_slot w' slot.
Proof.
  pose proof Hun as [Hl _]. pose proof (run_prepare_admitted t w Hl Hr Hok Hroom) as Hprep.
  destruct (run_accept_slot t w task Hun Hr Hok Hroom Hfresh)
    as (h & ch & w3 & w' & HE & Hspawn & Hsend & Hacc & Hx). exists h, ch, w'. split_and!; [| |done..].
  - unfold try_submit_callable. rewrite run_bind, Hprep. cbv iota beta. rewrite run_bind, HE.
    cbv iota beta. by rewrite run_bind, Hspawn, run_bind, Hsend.
  - unfold try_submit_tracked_callable. rewrite run_bind, Hprep. cbv iota beta. rewrite run_bind, HE.
    cbv iota beta. by rewrite run_bind, Hspawn, run_bind, Hsend.
Qed.
End Accepts.

(** C29. A running service with room accepts: each kind of submission counts one more
    queued task, creates one queued tracker, spawns one closure and delivers it the
    task together with its guard, registers the abort handle with the right hook
    unless the closure has already finished, and releases both locks. *)
Theorem open_service_accepts t w task
    (Hun : unlocked w) (Hr : load (lifecycle_byte (svc w)) = Running)
    (Hok : counts_ok (task_counts (svc w))) (Hroom : has_room w)
    (Hfresh : abort_handles (svc w) !! key (length (registrations w)) = None) :
  let g := length (trackers w) in
  let slot := length (endpoints w) in
  (exists h ch w', run t (try_submit task) w = Next (inl ()) w' [mkClosure ch h] /\
    accepted_state w w' ch (FinishQueuedOnce g) (RunnableClosure task) h) /\
  (exists h ch w', run t (try_submit_callable task) w = Next (inl slot) w' [mkClosure ch h] /\
    accepted_state w w' ch (CancelUnstartedSlot slot g) (CallableClosure slot task) h) /\
  (exists h ch w', run t (try_submit_tracked_callable task) w =
      Next (inl (mkHandle slot h g)) w' [mkClosure ch h] /\
    accepted_state w w' ch (CancelUnstartedSlot slot g) (CallableClosure slot task) h).
Proof.
  intros g slot. destruct (callables_accepted t w task) as (h & ch & w' & Hc & Ht & Hacc & _); [done..|].
  split_and!; [by apply runnable_accepted|by exists h, ch, w'..].
Qed.

(** ** Completion *)

Lemma run_step {A B} t (c : bact B) (q : B -> Prog bact A) w b w' :
  bexec t c w = Next b w' [] -> run t (bind (do c) q) w = run t (q b) w'.
Proof.
  intros Hc. cbn. change (exec t c w) with (bexec t c w). rewrite Hc. by destruct (run t (q b) w').
Qed.

Lemma run_act {A B} t (c : bact B) (k : B -> Prog bact A) w b w' :
  bexec t c w = Next b w' [] -> run t (Act c k) w = run t (k b) w'.
Proof. exact (run_step t c k w b w'). Qed.

Lemma run_do {B} t (c : bact B) w b w' :
  bexec t c w = Next b w' [] -> run t (do c) w = Next b w' [].
Proof. intros Hc. cbn. change (exec t c w) with (bexec t c w). by rewrite Hc. Qed.

Lemma run_seq {A B} t (p : Prog bact A) (q : A -> Prog bact B) w a w' :
  run t p w = Next a w' [] -> run t (bind p q) w = run t (q a) w'.
Proof. intros Hp. rewrite run_bind, Hp. by destruct (run t (q a) w'). Qed.

(** The effect of [finish_task] that leaves the counts at [counts]. *)
Definition wake (b : bool) (s : TokioExecutorServiceState) : TokioExecutorServiceState :=
  if b then set_terminated_notify (wake_all (terminated_notify s))
              (set_count_waiters (wake_all (count_waiters s)) s)
  else s.
Definition released counts w : World :=
  set_svc (fun s => wake (not_running s && is_empty counts)
    (set_capacity_tx (published (capacity_tx s)) (set_counts counts s))) w.

Definition finished_counts (started : bool) (c : TokioExecutorTaskCounts) : TokioExecutorTaskCounts :=
  if started then mkCounts (queued c) (running c - 1) else mkCounts (queued c - 1) (running c).

Lemma run_finish_task t (started : bool) w :
  0 < (if started then running (task_counts (svc w)) else queued (task_counts (svc w))) ->
  run t (finish_task started) w = Next () (released (finished_counts started (task_counts (svc w))) w) [].
Proof.
  intros Hpos. unfold finish_task, released. cbn. unfold finish_task_section.
  assert (TaskCounts.finish_task started (task_counts (svc w)) =
    Some (finished_counts started (task_counts (svc w)))) as ->.
  { destruct started; [by apply finish_task_true_spec|by apply finish_task_false_spec]. }
  change (not_running (set_counts _ (svc w))) with (not_running (svc w)). unfold set_svc at 3. cbn.
  by destruct (not_running (svc w) && is_empty (finished_counts started (task_counts (svc w)))).
Qed.

Lemma run_mark_started t g w m :
  trackers w !! g = Some (mkTracker m TASK_STATE_QUEUED) ->
  counts_ok (task_counts (svc w)) -> 0 < queued (task_counts (svc w)) ->
  run t (guard_mark_started g) w =
    Next true (set_svc (set_counts (mkCounts (queued (task_counts (svc w)) - 1)
                                      (running (task_counts (svc w)) + 1)))
                 (set_trackers (<[g := mkTracker m TASK_STATE_RUNNING]> (trackers w)) w)) [].
Proof.
  intros Hg Hok Hq. unfold guard_mark_started, tracker_mark_started. cbn.
  unfold set_task_state, tracker_at. rewrite Hg. cbn. by rewrite mark_started_spec.
Qed.

Lemma run_mark_cancelled t g w m :
  trackers w !! g = Some (mkTracker m TASK_STATE_FINISHED) ->
  run t (guard_mark_started g) w = Next false w [].
Proof.
  intros Hg. unfold guard_mark_started, tracker_mark_started. cbn. unfold tracker_at. by rewrite Hg.
Qed.

Definition unregistered m w : World :=
  set_endpoints (entry_dropped (abort_handles (svc w) !! key m) (endpoints w))
    (set_registrations (<[m := true]> (registrations w))
      (set_svc (fun s => set_abort_handles (delete (key m) (abort_handles s)) s) w)).

Lemma run_remove_abort_handle t m w :
  abort_lock (svc w) = None ->
  run t (remove_abort_handle m) w = Next () (unregistered m w) [].
Proof.
  intros Hl. unfold remove_abort_handle, unregistered. cbn. rewrite Hl. cbn.
  rewrite run_bind, run_drop_entry. destruct w as [[]]; cbn in *. by subst.
Qed.

(** Dropping a guard, by the state its tracker is in. *)
Definition dropped g m st w : World :=
  let w' := set_trackers (<[g := mkTracker m TASK_STATE_FINISHED]> (trackers w)) (unregistered m w) in
  let c := task_counts (svc w) in
  if st =? TASK_STATE_QUEUED then released (finished_counts false c) w'
  else if st =? TASK_STATE_RUNNING then released (finished_counts true c) w'
  else w'.

Lemma run_guard_drop t g m st w :
  trackers w !! g = Some (mkTracker m st) -> abort_lock (svc w) = None ->
  (st = TASK_STATE_QUEUED -> 0 < queued (task_counts (svc w))) ->
  (st = TASK_STATE_RUNNING -> 0 < running (task_counts (svc w))) ->
  run t (guard_drop g) w = Next () (dropped g m st w) [].
Proof.
  intros Hg Hl Hq Hr. unfold guard_drop, tracker_marker.
  assert (tracker_at w g = mkTracker m st) as Hat by (unfold tracker_at; by rewrite Hg).
  rewrite (run_step t (ReadMarker g) _ w (tr_marker (tracker_at w g)) w) by done.
  rewrite Hat. cbn [tr_marker].
  rewrite run_bind, run_remove_abort_handle by done. cbv iota beta.
  assert (run t (tracker_finish g) (unregistered m w) = Next () (dropped g m st w) []) as ->; [|done].
  unfold tracker_finish, dropped.
  set (w1 := set_trackers (<[g := mkTracker m TASK_STATE_FINISHED]> (trackers w)) (unregistered m w)).
  rewrite (run_step t (Swap g TASK_STATE_FINISHED) _ (unregistered m w) st w1).
  - destruct (Z.eqb_spec st TASK_STATE_QUEUED) as [Hst|]; 
      [exact (run_finish_task t false w1 (Hq Hst))|].
    destruct (Z.eqb_spec st TASK_STATE_RUNNING) as [Hst|]; 
      [exact (run_finish_task t true w1 (Hr Hst))|done].
  - cbn. unfold set_task_state. change (tracker_at (unregistered m w) g) with (tracker_at w g).
    by rewrite Hat.
Qed.

(** ** Workers *)

Definition delivered w ch closure g : Prop :=
  exists c, channels w !! ch = Some c /\ content c = Some (closure, g) /\ pending c = false.

Definition closure_dropped (closure : BlockingTask (Task := Task)) (slots : list SharedTaskSlot) : list SharedTaskSlot :=
  match closure with
  | RunnableClosure _ => slots
  | CallableClosure slot _ => hook_dropped (CancelUnstartedSlot slot 0) slots
  end.

Lemma run_drop_closure t closure w :
  run t (drop_closure closure) w =
    Next (drop_panics (closure_task closure) (rt w))
      (set_endpoints (closure_dropped closure (endpoints w)) w) [].
Proof. destruct closure; [by destruct w|done]. Qed.

(** What a worker leaves behind: its task's accounting and entry are gone. *)
Definition worked w w' g m counts : Prop :=
  task_counts (svc w') = counts /\
  abort_handles (svc w') = delete (key m) (abort_handles (svc w)) /\
  trackers w' !! g = Some (mkTracker m TASK_STATE_FINISHED) /\
  submission_lock (svc w') = submission_lock (svc w) /\ abort_lock (svc w') = None.

Lemma dropped_worked g m st w x :
  trackers w !! g = Some x -> abort_lock (svc w) = None ->
  worked w (dropped g m st w) g m
    (if st =? TASK_STATE_QUEUED then finished_counts false (task_counts (svc w))
     else if st =? TASK_STATE_RUNNING then finished_counts true (task_counts (svc w))
     else task_counts (svc w)).
Proof.
  intros Hg Hl. assert (<[g := mkTracker m TASK_STATE_FINISHED]> (trackers w) !! g =
    Some (mkTracker m TASK_STATE_FINISHED)) as Hlook
    by (apply list_lookup_insert_eq; by eapply lookup_lt_Some).
  unfold worked, dropped, released, wake. destruct (_ =? _); [|destruct (_ =? _)]; cbn.
  - by destruct (_ && _).
  - by destruct (_ && _).
  - done.
Qed.

Lemma run_recv t ch closure g w :
  delivered w ch closure g ->
  exists d, bexec t (BlockingRecv ch) w =
    Next (Some (closure, g)) (set_channels (<[ch := d]> (channels w)) w) [].
Proof.
  intros (c & Hc & Hcon & Hp). destruct (recv_spec _ c) as (d & Hd & _). exists d. cbn.
  unfold channel_at. rewrite Hc. cbn. by rewrite Hp, Hd, Hcon.
Qed.

(** A closure that runs its task calls the user's code once; [E] are the slots it
    leaves behind. *)
Definition called t (closure : BlockingTask) (E : list SharedTaskSlot) w : World :=
  set_calls (mkCall t closure (call_user (closure_task closure) (rt w)) :: calls w) (set_endpoints E w).
Definition runs_task t closure E w : Prop := forall w', endpoints w' = endpoints w -> rt w' = rt w ->
  run t (call_closure closure) w' = Next () (called t closure E w') [].

Lemma runnable_runs t task w : runs_task t (RunnableClosure task) (endpoints w) w.
Proof. intros w' <- _. unfold called. by rewrite set_endpoints_same. Qed.

(** Accesses to one slot. *)
Lemma bexec_slot {B} t slot (f : endpoint -> B * endpoint) w x b e :
  endpoints w !! slot = Some x -> f (slot_endpoint x) = (b, e) ->
  bexec t (OnEndpoint slot f) w = Next b (set_slot slot (set_endpoint e x) w) [] /\
  bexec t (PublishEndpoint slot f) w = Next b (set_slot slot (set_endpoint e x) w) [].
Proof. intros Hx Hf. cbn. unfold endpoint_at, slot_at. rewrite Hx. cbn. by rewrite Hf. Qed.

Lemma lookup_set_slot slot x y w :
  endpoints w !! slot = Some x -> endpoints (set_slot slot y w) !! slot = Some y.
Proof. intros Hx. apply list_lookup_insert_eq. exact (lookup_lt_Some _ _ _ Hx). Qed.

Lemma set_slot_twice slot y z w : set_slot slot z (set_slot slot y w) = set_slot slot z w.
Proof. unfold set_slot. cbn. by rewrite list_insert_insert_eq. Qed.

Lemma callable_runs t slot task x w :
  endpoints w !! slot = Some x -> fresh_slot x ->
  exists x', runs_task t (CallableClosure slot task) (<[slot := x']> (endpoints w)) w /\
    endpoint_output (slot_endpoint x') = Some (completed (call_user task (rt w))).
Proof.
  intros Hx (Hf & Hs & Ho). pose proof (lookup_lt_Some _ _ _ Hx) as Hlt.
  destruct (take_spec (slot_endpoint x)) as (e1 & Ht & Hf1 & Hs1 & Ho1). rewrite Hf in Ht.
  destruct (start_spec e1) as (b & e2 & Hst & Hf2 & Hs2 & Ho2 & Hb); [congruence|].
  rewrite Ho1 in *. assert (b = true) as -> by by apply Hb.
  set (result := call_user task (rt w)).
  destruct (finish_spec e2 result) as (Hf3 & Hs3 & Ho3); [done|congruence|].
  set (x3 := set_endpoint (runner_finish e2 result) x). exists (arc_drop x3). split.
  - intros w' He Hrt. rewrite <- He in Hx |- *. cbn [call_closure].
    destruct (bexec_slot t slot cell_take w' x true e1 Hx Ht) as [Htake _].
    unfold take_task_slot. rewrite (run_step t _ _ w' _ _ Htake).
    set (w1 := set_slot slot _ w'). pose proof (lookup_set_slot slot x (set_endpoint e1 x) w' Hx) as Hx1. fold w1 in Hx1.
    destruct (bexec_slot t slot runner_start w1 (set_endpoint e1 x) true e2 Hx1 Hst) as [Hstart _].
    rewrite (run_step t _ _ w1 _ _ Hstart). set (w2 := set_slot slot _ w1).
    set (w3 := set_calls (mkCall t (CallableClosure slot task) result :: calls w2) w2).
    assert (bexec t (CallUser (CallableClosure slot task)) w2 = Next result w3 []) as Hcall
      by (unfold w3, result; by rewrite <- Hrt).
    assert (endpoints w3 !! slot = Some (set_endpoint e2 x)) as Hx3
      by exact (lookup_set_slot slot _ (set_endpoint e2 x) w1 Hx1).
    destruct (bexec_slot t slot (fun e => ((), runner_finish e result)) w3 (set_endpoint e2 x) () _ Hx3 eq_refl)
      as [_ Hfinish].
    change (set_endpoint (runner_finish _ result) (set_endpoint e2 x)) with x3 in Hfinish.
    set (w4 := set_slot slot x3 w3) in *.
    rewrite run_bind, (run_step t _ _ w2 _ _ Hcall), (run_do t _ w3 _ _ Hfinish). cbn. unfold slot_at.
    pose proof (lookup_set_slot slot _ x3 w3 Hx3) as Hx4. fold w4 in Hx4. rewrite Hx4. cbn. do 2 f_equal.
    unfold w4. rewrite set_slot_twice. unfold called, set_slot, w3, w2, w1. cbn.
    by rewrite !list_insert_insert_eq, Hrt.
  - unfold arc_drop. cbn. destruct (_ =? 1)%nat; [by apply drop_final|done].
Qed.

Lemma run_worker_runs t ch closure E g m w :
  delivered w ch closure g -> trackers w !! g = Some (mkTracker m TASK_STATE_QUEUED) ->
  abort_lock (svc w) = None -> counts_ok (task_counts (svc w)) -> 0 < queued (task_counts (svc w)) ->
  runs_task t closure E w ->
  exists w', run t (worker ch) w = Next () w' [] /\
    calls w' = mkCall t closure (call_user (closure_task closure) (rt w)) :: calls w /\
    endpoints w' = entry_dropped (abort_handles (svc w) !! key m) E /\
    worked w w' g m (finished_counts false (task_counts (svc w))).
Proof.
  intros Hd Hg Hl Hok Hq Hruns. destruct (run_recv t ch _ g w Hd) as [d Hrecv].
  unfold worker. rewrite (run_step t (BlockingRecv ch) _ w _ _ Hrecv). cbv iota beta.
  set (w1 := set_channels (<[ch := d]> (channels w)) w).
  rewrite run_bind, (run_mark_started t g w1 m Hg Hok Hq). cbv iota beta.
  set (w2 := set_svc _ (set_trackers _ w1)).
  rewrite run_bind, (Hruns w2) by done. cbv iota beta.
  set (w3 := called t closure E w2).
  assert (trackers w3 !! g = Some (mkTracker m TASK_STATE_RUNNING)) as Hg3
    by (apply list_lookup_insert_eq; by eapply lookup_lt_Some).
  rewrite (run_guard_drop t g m TASK_STATE_RUNNING w3 Hg3 Hl); [|done|intros _; cbn; destruct Hok; lia].
  exists (dropped g m TASK_STATE_RUNNING w3). split_and!; [done|done|done|].
    assert (finished_counts true (task_counts (svc w3)) = finished_counts false (task_counts (svc w)))
      as <- by (unfold finished_counts; cbn; f_equal; lia).
    exact (dropped_worked g m TASK_STATE_RUNNING w3 _ Hg3 Hl).
Qed.

Lemma run_worker_skips t ch closure g m w :
  delivered w ch closure g -> trackers w !! g = Some (mkTracker m TASK_STATE_FINISHED) ->
  abort_lock (svc w) = None ->
  exists w', run t (worker ch) w = Next () w' [] /\ calls w' = calls w /\
    worked w w' g m (task_counts (svc w)).
Proof.
  intros Hd Hg Hl. destruct (run_recv t ch _ g w Hd) as [d Hrecv].
  unfold worker. rewrite (run_step t (BlockingRecv ch) _ w _ _ Hrecv). cbv iota beta.
  set (w1 := set_channels (<[ch := d]> (channels w)) w).
  rewrite run_bind, (run_mark_cancelled t g w1 m Hg). cbv iota beta.
  rewrite run_bind, (run_guard_drop t g m TASK_STATE_FINISHED w1 Hg Hl) by done. cbv iota beta.
  rewrite run_bind, run_drop_closure. set (w2 := dropped g m TASK_STATE_FINISHED w1).
  exists (set_endpoints (closure_dropped closure (endpoints w2)) w2). split_and!; [done|done|].
  exact (dropped_worked g m TASK_STATE_FINISHED w1 _ Hg Hl).
Qed.

(** ** Round trips *)

Lemma accepted_delivered w w' ch hook closure h :
  accepted_state w w' ch hook closure h -> delivered w' ch closure (length (trackers w)).
Proof. intros (_ & _ & _ & _ & _ & _ & _ & (c & Hc & Hcon & Hp & _) & _). by exists c. Qed.

Lemma accepted_tracker w w' ch hook closure h :
  accepted_state w w' ch hook closure h ->
  trackers w' !! length (trackers w) = Some (mkTracker (length (registrations w)) TASK_STATE_QUEUED).
Proof.
  intros (_ & _ & _ & _ & -> & _). by rewrite lookup_app_r, Nat.sub_diag by done.
Qed.

Lemma delete_register m h hook handles b :
  handles !! key m = None -> delete (key m) (register m h hook handles b) = handles.
Proof. intros Hm. unfold register. destruct b; [by apply delete_id|by apply delete_insert_id]. Qed.

Lemma accepted_counts w w' ch hook closure h :
  accepted_state w w' ch hook closure h -> counts_ok (task_counts (svc w)) -> has_room w ->
  counts_ok (task_counts (svc w')) /\ 0 < queued (task_counts (svc w')) /\
  finished_counts false (task_counts (svc w')) = task_counts (svc w).
Proof.
  intros (_ & _ & _ & -> & _) (? & ? & ?) [? ?]. unfold counts_ok, finished_counts. cbn.
  split_and!; [lia..|]. destruct (task_counts (svc w)); cbn. f_equal. lia.
Qed.

(** Submitting a task and letting its worker run executes the task exactly once
    and restores the counts, the abort-handle map and the locks. *)
Theorem submit_then_run t t' w task
    (Hun : unlocked w) (Hr : load (lifecycle_byte (svc w)) = Running)
    (Hok : counts_ok (task_counts (svc w))) (Hroom : has_room w)
    (Hfresh : abort_handles (svc w) !! key (length (registrations w)) = None) :
  exists h ch w1 w2, run t (try_submit task) w = Next (inl ()) w1 [mkClosure ch h] /\
    run t' (worker ch) w1 = Next () w2 [] /\
    calls w2 = mkCall t' (RunnableClosure task) (call_user task (rt w1)) :: calls w /\
    task_counts (svc w2) = task_counts (svc w) /\
    abort_handles (svc w2) = abort_handles (svc w) /\ unlocked w2.
Proof.
  destruct (runnable_accepted t w task Hun Hr Hok Hroom Hfresh) as (h & ch & w1 & Hrun & Hacc).
  destruct (accepted_counts _ _ _ _ _ _ Hacc Hok Hroom) as (Hok1 & Hq1 & Hback).
  pose proof Hacc as (Hsl & Hal & _ & _ & _ & _ & _ & _ & Hh & Hcalls).
  destruct (run_worker_runs t' ch _ _ _ _ w1 (accepted_delivered _ _ _ _ _ _ Hacc)
    (accepted_tracker _ _ _ _ _ _ Hacc) Hal Hok1 Hq1 (runnable_runs t' task w1)) as (w2 & Hrun2 & Hc2 & _ & Hw2).
  destruct Hw2 as (Hcounts & Hh2 & _ & Hsl2 & Hal2).
  exists h, ch, w1, w2. rewrite Hh in Hh2. rewrite delete_register in Hh2 by done.
  split_and!; [done|done|by rewrite Hc2, Hcalls|by rewrite Hcounts|done|by split; [rewrite Hsl2|]].
Qed.

Lemma run_finish_queued t tr m w :
  trackers w !! tr = Some (mkTracker m TASK_STATE_QUEUED) -> 0 < queued (task_counts (svc w)) ->
  run t (tracker_finish_queued tr) w =
    Next true (released (finished_counts false (task_counts (svc w)))
      (set_trackers (<[tr := mkTracker m TASK_STATE_FINISHED]> (trackers w)) w)) [].
Proof.
  intros Htr Hq. unfold tracker_finish_queued.
  set (w1 := set_trackers (<[tr := mkTracker m TASK_STATE_FINISHED]> (trackers w)) w).
  rewrite (run_step t (CompareExchange tr TASK_STATE_QUEUED TASK_STATE_FINISHED) _ w (inl TASK_STATE_QUEUED) w1).
  - rewrite run_bind, (run_finish_task t false w1 Hq). done.
  - cbn. unfold set_task_state, tracker_at. by rewrite Htr.
Qed.

Lemma run_finish_queued_again t tr m w :
  trackers w !! tr = Some (mkTracker m TASK_STATE_FINISHED) ->
  run t (tracker_finish_queued tr) w = Next false w [].
Proof. intros Htr. unfold tracker_finish_queued. cbn. unfold tracker_at. by rewrite Htr. Qed.

(** Cancelling a queued task releases its slot exactly once (the second call of
    the hook reports failure and changes nothing), and the worker that receives it
    later neither runs it nor releases the slot again. *)
Theorem cancel_then_skip t t' w task
    (Hun : unlocked w) (Hr : load (lifecycle_byte (svc w)) = Running)
    (Hok : counts_ok (task_counts (svc w))) (Hroom : has_room w)
    (Hfresh : abort_handles (svc w) !! key (length (registrations w)) = None) :
  let hook := FinishQueuedOnce (length (trackers w)) in
  exists h ch w1 w2 w3, run t (try_submit task) w = Next (inl ()) w1 [mkClosure ch h] /\
    run t (call_hook hook) w1 = Next true w2 [] /\
    task_counts (svc w2) = task_counts (svc w) /\
    run t (call_hook hook) w2 = Next false w2 [] /\
    run t' (worker ch) w2 = Next () w3 [] /\
    calls w3 = calls w /\ task_counts (svc w3) = task_counts (svc w) /\
    abort_handles (svc w3) = abort_handles (svc w).
Proof.
  intros hook.
  destruct (runnable_accepted t w task Hun Hr Hok Hroom Hfresh) as (h & ch & w1 & Hrun & Hacc).
  destruct (accepted_counts _ _ _ _ _ _ Hacc Hok Hroom) as (Hok1 & Hq1 & Hback).
  pose proof Hacc as (Hsl & Hal & _ & _ & _ & _ & _ & _ & Hh & Hcalls).
  pose proof (accepted_tracker _ _ _ _ _ _ Hacc) as Htr.
  pose proof (run_finish_queued t _ _ w1 Htr Hq1) as Hhook. rewrite Hback in Hhook.
  set (w2 := released _ _) in Hhook.
  assert (trackers w2 !! length (trackers w) =
    Some (mkTracker (length (registrations w)) TASK_STATE_FINISHED)) as Htr2
    by (apply list_lookup_insert_eq; by eapply lookup_lt_Some).
  assert (svc w2 = wake (not_running (svc w1) && is_empty (task_counts (svc w)))
    (set_capacity_tx (published (capacity_tx (svc w1))) (set_counts (task_counts (svc w)) (svc w1)))) as Hs2
    by done.
  assert (abort_lock (svc w2) = None /\ task_counts (svc w2) = task_counts (svc w) /\
    abort_handles (svc w2) = abort_handles (svc w1)) as (Hal2 & Hc2 & Hh2)
    by (rewrite Hs2; unfold wake; by destruct (_ && _)).
  destruct (run_worker_skips t' ch (RunnableClosure task) _ _ w2 (accepted_delivered _ _ _ _ _ _ Hacc) Htr2 Hal2)
    as (w3 & Hrun3 & Hcalls3 & Hcounts3 & Hh3 & _).
  exists h, ch, w1, w2, w3. split_and!; [done|done|done| |done|by rewrite Hcalls3|by rewrite Hcounts3|].
  - by apply (run_finish_queued_again t _ (length (registrations w)) w2).
  - rewrite Hh3, Hh2, Hh. by apply delete_register.
Qed.

(** ** Cancelling through a handle *)

Lemma run_cancel_queued t g m w :
  trackers w !! g = Some (mkTracker m TASK_STATE_QUEUED) -> abort_lock (svc w) = None ->
  0 < queued (task_counts (svc w)) ->
  exists w', run t (tracker_cancel_queued g) w = Next true w' [] /\
    worked w w' g m (finished_counts false (task_counts (svc w))) /\ rt w' = rt w /\
    endpoints w' = entry_dropped (abort_handles (svc w) !! key m) (endpoints w).
Proof.
  intros Hg Hl Hq. unfold tracker_cancel_queued.
  rewrite (run_step t (ReadMarker g) _ w m w) by (cbn; unfold tracker_at; by rewrite Hg).
  rewrite run_bind, run_remove_abort_handle by done. cbv iota beta.
  rewrite (run_finish_queued t g m (unregistered m w)) by done.
  eexists. split_and!; [done| |done..].
  exact (dropped_worked g m TASK_STATE_QUEUED w _ Hg Hl).
Qed.

(** A tracker that is no longer queued: the entry goes, the slot stays counted. *)
Lemma run_cancel_unqueued t g m st w :
  trackers w !! g = Some (mkTracker m st) -> abort_lock (svc w) = None -> st <> TASK_STATE_QUEUED ->
  run t (tracker_cancel_queued g) w = Next false (unregistered m w) [].
Proof.
  intros Hg Hl Hst. unfold tracker_cancel_queued.
  rewrite (run_step t (ReadMarker g) _ w m w) by (cbn; unfold tracker_at; by rewrite Hg).
  rewrite run_bind, run_remove_abort_handle by done. cbv iota beta. unfold tracker_finish_queued.
  rewrite (run_step t _ _ (unregistered m w) (inr st) (unregistered m w)); [done|].
  cbn -[unregistered TASK_STATE_QUEUED]. change (tracker_at (unregistered m w) g) with (tracker_at w g).
  unfold tracker_at. rewrite Hg. cbn -[unregistered TASK_STATE_QUEUED].
  by rewrite (proj2 (Z.eqb_neq st TASK_STATE_QUEUED) Hst).
Qed.

(** The counts after a tracker in state [st] has given its slot back. *)
Definition slot_released (st : Z) (c : TokioExecutorTaskCounts) : TokioExecutorTaskCounts :=
  if st =? TASK_STATE_QUEUED then finished_counts false c
  else if st =? TASK_STATE_RUNNING then finished_counts true c else c.

Lemma worked_twice w w1 w2 g m counts :
  worked w w1 g m counts -> worked w1 w2 g m counts -> worked w w2 g m counts.
Proof.
  intros (_ & Hh1 & _ & Hs1 & _) (Hc2 & Hh2 & Ht2 & Hs2 & Ha2).
  split_and!; [done| |done|by rewrite Hs2|done]. by rewrite Hh2, Hh1, delete_delete_eq.
Qed.

(** C32. Cancelling through a handle or through its detached cancellation handle, in
    every state of the task's tracker.  Unless the endpoint reports [Cancelled],
    neither the service nor the runtime is touched.  If it does, the entry is removed,
    the runtime's task is aborted, and what happens to the slot depends on the
    tracker: a queued slot is released on the spot; a slot that a worker has already
    moved to running - the cancellation won between [mark_started] and the start of
    the runner - or that was released before is left alone, nobody is notified, and
    the counts are as before.  Either way the guard of the payload, dropped later,
    completes the release exactly once. *)
Theorem handle_cancel_effect t t' w h m st
    (Hg : trackers w !! bh_cancel_queued_task h = Some (mkTracker m st))
    (Hl : abort_lock (svc w) = None)
    (Hq : st = TASK_STATE_QUEUED -> 0 < queued (task_counts (svc w)))
    (Hrn : st = TASK_STATE_RUNNING -> 0 < running (task_counts (svc w))) :
  let '(result, e) := handle_cancel (endpoint_at w (bh_endpoint h)) in
  let g := bh_cancel_queued_task h in
  let w1 := set_slot (bh_endpoint h) (set_endpoint e (slot_at w (bh_endpoint h))) w in
  run t (cancellation_handle h) w = run t (handle_cancel_task h) w /\
  (result <> CancelResult.Cancelled -> run t (handle_cancel_task h) w = Next result w1 []) /\
  (result = CancelResult.Cancelled -> exists w' w'',
    run t (handle_cancel_task h) w = Next result w' [] /\
    rt w' = abort (rt w) (bh_abort_handle h) /\
    (st = TASK_STATE_QUEUED -> worked w w' g m (finished_counts false (task_counts (svc w)))) /\
    (st <> TASK_STATE_QUEUED -> trackers w' = trackers w /\
      svc w' = set_abort_handles (delete (key m) (abort_handles (svc w))) (svc w)) /\
    run t' (guard_drop g) w' = Next () w'' [] /\
    worked w w'' g m (slot_released st (task_counts (svc w)))).
Proof.
  destruct (handle_cancel (endpoint_at w (bh_endpoint h))) as [result e] eqn:He. intros g w1.
  assert (bexec t (PublishEndpoint (bh_endpoint h) handle_cancel) w = Next result w1 []) as Hstep
    by (cbn; by rewrite He).
  split_and!; [done| |]; unfold handle_cancel_task, cancel_blocking_task.
  { intros Hne. rewrite (run_step t _ _ w result w1 Hstep). by rewrite bool_decide_eq_false_2. }
  intros ->. rewrite (run_step t _ _ w CancelResult.Cancelled w1 Hstep), bool_decide_eq_true_2 by done.
  unfold cancel_queued_callback. fold g. rewrite run_bind, run_bind. destruct (decide (st = TASK_STATE_QUEUED)) as [->|Hst].
  - destruct (run_cancel_queued t g m w1) as (w2 & Hrun & Hw & Hrt & _); [done|done|by apply Hq|].
    rewrite Hrun. cbv iota beta. set (w3 := set_rt (abort (rt w) (bh_abort_handle h)) w2).
    assert (worked w w3 g m (finished_counts false (task_counts (svc w)))) as Hw3 by exact Hw.
    destruct Hw3 as (Hc3 & _ & Ht3 & _ & Hl3).
    exists w3, (dropped g m TASK_STATE_FINISHED w3). split_and!; [cbn; by rewrite Hrt|done|by intros _|done| |].
    + by apply run_guard_drop.
    + apply (worked_twice w w3); [exact Hw|]. cbn [slot_released]. rewrite <- Hc3 at 1.
      exact (dropped_worked g m TASK_STATE_FINISHED w3 _ Ht3 Hl3).
  - rewrite (run_cancel_unqueued t g m st w1) by done. cbv iota beta.
    set (w3 := set_rt (abort (rt w) (bh_abort_handle h)) (unregistered m w1)).
    exists w3, (dropped g m st w3). split_and!; [done|done|done|by destruct w as [[]]|by apply run_guard_drop|].
    destruct (dropped_worked g m st w3 _ Hg Hl) as (Hc & Hh & Htr & Hs & Ha).
    split_and!; [exact Hc| |exact Htr|exact Hs|exact Ha].
    rewrite Hh. apply delete_delete_eq.
Qed.

(** ** Shutdown and stop *)

Lemma run_notify_if_terminated t w :
  run t notify_if_terminated w =
    Next () (set_svc (wake (not_running (svc w) && is_empty (task_counts (svc w)))) w) [].
Proof.
  destruct w as [s a b c d e f g h]. unfold notify_if_terminated, wake, set_svc. cbn.
  unfold set_svc. cbn. replace (set_counts (task_counts s) s) with s by (by destruct s).
  by destruct (not_running s && is_empty (task_counts s)).
Qed.

(** Nobody waits for termination. *)
Definition nobody_waits w : Prop :=
  forall x, waiting (count_waiters (svc w)) x = false /\ waiting (terminated_notify (svc w)) x = false.

Lemma wake_nobody w : nobody_waits (set_svc (wake true) w).
Proof. intros x. cbn. by rewrite !waiting_wake_all. Qed.

(** [shutdown] closes admission without touching tasks: [Running] becomes
    [ShuttingDown], any later state stays; counts, trackers and entries are
    unchanged, capacity waiters are notified, and if nothing is left every
    termination waiter is woken. *)
Theorem shutdown_effect t w (Hl : submission_lock (svc w) = None) :
  exists w', run t service_shutdown w = Next () w' [] /\
    load (lifecycle_byte (svc w')) =
      (if bool_decide (load (lifecycle_byte (svc w)) = Running) then ShuttingDown
       else load (lifecycle_byte (svc w))) /\
    submission_lock (svc w') = None /\ task_counts (svc w') = task_counts (svc w) /\
    abort_handles (svc w') = abort_handles (svc w) /\ trackers w' = trackers w /\
    capacity_tx (svc w') = published (capacity_tx (svc w)) /\
    (is_empty (task_counts (svc w)) = true -> nobody_waits w').
Proof.
  set (w1 := set_svc (set_lifecycle (LifecycleBits.shutdown (lifecycle_byte (svc w)))) w).
  set (w2 := set_svc (set_capacity_tx (published (capacity_tx (svc w)))) w1).
  assert (run t service_shutdown w = run t notify_if_terminated w2) as ->.
  { unfold service_shutdown, w2, w1, LifecycleBits.shutdown. cbn. rewrite Hl. cbn.
    destruct w as [[]]; cbn in *. subst. by destruct (run _ _ _). }
  assert (load (LifecycleBits.shutdown (lifecycle_byte (svc w))) =
    if bool_decide (load (lifecycle_byte (svc w)) = Running) then ShuttingDown
    else load (lifecycle_byte (svc w))) as Hload.
  { rewrite shutdown_spec. case_bool_decide; [|done]. apply from_u8_as_u8. }
  assert (not_running (svc w2) = true) as Hn.
  { unfold not_running. rewrite bool_decide_eq_false_2; [done|]. apply load_shutdown. }
  rewrite run_notify_if_terminated, Hn. cbn [andb].
  change (task_counts (svc w2)) with (task_counts (svc w)).
  destruct (is_empty (task_counts (svc w))); (eexists; split_and!; [done|exact Hload|done..|]).
  - intros _. apply wake_nobody.
  - done.
Qed.

(** The accounting a stop relies on: every queued tracker is counted. *)
Definition accounted w : Prop :=
  counts_ok (task_counts (svc w)) /\ tally w_tracker_queued (trackers w) <= queued (task_counts (svc w)).

(** The parts of the state hooks leave alone. *)
Definition same_frame w w' : Prop :=
  lifecycle_byte (svc w') = lifecycle_byte (svc w) /\
  abort_handles (svc w') = abort_handles (svc w) /\
  submission_lock (svc w') = submission_lock (svc w) /\ abort_lock (svc w') = abort_lock (svc w) /\
  running (task_counts (svc w')) = running (task_counts (svc w)) /\ calls w' = calls w.

Lemma same_frame_trans w1 w2 w3 : same_frame w1 w2 -> same_frame w2 w3 -> same_frame w1 w3.
Proof. unfold same_frame. intuition congruence. Qed.

Lemma w_tracker_queued_nonneg x : 0 <= w_tracker_queued x.
Proof. unfold w_tracker_queued, b2z. by destruct (bool_decide _). Qed.

Lemma same_frame_refl w : same_frame w w.
Proof. done. Qed.

(** One hook: it reports a cancellation exactly when it takes a queued task
    out of the counts. *)
Lemma run_finish_queued_accounted t tr w :
  accounted w ->
  exists (b : bool) w', run t (tracker_finish_queued tr) w = Next b w' [] /\ accounted w' /\
    same_frame w w' /\ queued (task_counts (svc w')) = queued (task_counts (svc w)) - b2z b.
Proof.
  intros [Hok Hle].
  destruct (trackers w !! tr) as [[m st]|] eqn:Htr; [destruct (decide (st = TASK_STATE_QUEUED)) as [->|Hne]|].
  - pose proof (tally_lookup_le _ _ _ _ w_tracker_queued_nonneg Htr) as Hone.
    change (w_tracker_queued (mkTracker m TASK_STATE_QUEUED)) with 1 in Hone.
    exists true, (released (finished_counts false (task_counts (svc w)))
      (set_trackers (<[tr := mkTracker m TASK_STATE_FINISHED]> (trackers w)) w)).
    split_and!; [apply run_finish_queued; [done|lia]|..].
    + unfold accounted, released, wake. cbn.
      rewrite (tally_insert _ _ _ _ _ Htr).
      change (w_tracker_queued (mkTracker m TASK_STATE_QUEUED)) with 1.
      change (w_tracker_queued (mkTracker m TASK_STATE_FINISHED)) with 0.
      unfold counts_ok in *. destruct (_ && _); cbn; lia.
    + unfold same_frame, released, wake. cbn. by destruct (_ && _).
    + unfold released, wake. cbn. by destruct (_ && _).
  - exists false, w. split_and!; [|done|apply same_frame_refl|cbn; lia].
    unfold tracker_finish_queued. cbn. unfold tracker_at. rewrite Htr. cbn.
    by apply Z.eqb_neq in Hne as ->.
  - exists false, w. split_and!; [|done|apply same_frame_refl|cbn; lia].
    unfold tracker_finish_queued. cbn. unfold tracker_at. by rewrite Htr.
Qed.

Lemma run_hook_accounted t hook w :
  accounted w ->
  exists (b : bool) w', run t (call_hook hook) w = Next b w' [] /\ accounted w' /\
    same_frame w w' /\ queued (task_counts (svc w')) = queued (task_counts (svc w)) - b2z b.
Proof.
  intros Hacc. destruct hook as [tr|slot tr]; [by apply run_finish_queued_accounted|].
  destruct (run_finish_queued_accounted t tr w Hacc) as (b & w1 & Hrun & Hacc1 & Hf & Hq).
  cbn [call_hook]. unfold cancel_unstarted_task_slot_if_queued. destruct b.
  - destruct (cell_cancel_unstarted (endpoint_at w1 slot)) as [u e] eqn:He.
    set (w2 := set_slot slot (set_endpoint e (slot_at w1 slot)) w1).
    exists true, (set_slot slot (arc_drop (slot_at w2 slot)) w2). split_and!; [|done..].
    rewrite !run_bind, Hrun. cbn. by rewrite He.
  - exists false, (set_slot slot (arc_drop (slot_at w1 slot)) w1). split_and!; [|done..].
    by rewrite !run_bind, Hrun.
Qed.

Lemma run_abort_all t handles : forall n w,
  accounted w ->
  exists w' n', run t (abort_all call_hook n handles) w = Next n' w' [] /\ accounted w' /\
    same_frame w w' /\ n' - n = queued (task_counts (svc w)) - queued (task_counts (svc w')) /\ n <= n'.
Proof.
  induction handles as [|[k tracked] rest IH]; intros n w Hacc; cbn [abort_all].
  { exists w, n. split_and!; [done|done|apply same_frame_refl|lia..]. }
  rewrite (run_step t (HandleIsFinished (ta_handle tracked)) _ w (is_finished (rt w) (ta_handle tracked)) w) by done.
  destruct (is_finished (rt w) (ta_handle tracked)); cbn [negb].
  { rewrite (run_seq t _ _ w () _ (run_drop_hook t (ta_cancel tracked) w)). exact (IH n (set_endpoints _ w) Hacc). }
  set (w1 := set_rt (abort (rt w) (ta_handle tracked)) w).
  rewrite (run_step t (HandleAbort (ta_handle tracked)) _ w () w1) by done.
  destruct (run_hook_accounted t (ta_cancel tracked) w1) as (b & w2 & Hrun & Hacc2 & Hf & Hq); [done|].
  destruct (IH (if b then n + 1 else n) w2 Hacc2) as (w3 & n3 & Hrun3 & Hacc3 & Hf3 & Hq3 & Hle).
  exists w3, n3. rewrite run_bind, Hrun. cbv iota beta. split_and!; [by rewrite Hrun3|done|..].
  - by eapply same_frame_trans.
  - destruct b; cbn in *; lia.
  - destruct b; lia.
Qed.

Lemma run_abort_tracked t w :
  abort_lock (svc w) = None ->
  run t (abort_tracked_tasks call_hook) w =
    run t (abort_all call_hook 0 (map_to_list (abort_handles (svc w)))) (set_svc (set_abort_handles ∅) w).
Proof.
  intros Hl. unfold abort_tracked_tasks.
  rewrite (run_step t LockAborts _ w () (set_svc (set_abort_lock (Some t)) w)) by (cbn; by rewrite Hl).
  erewrite run_step by done. erewrite run_step by done. cbn [abort_handles svc set_svc set_abort_lock].
  f_equal. destruct w as [[]]; cbn in *. by subst.
Qed.

(** C35. [stop] reports the queued and running counts it found and exactly as many
    cancelled tasks as it took out of the queue; it ends in [Stopping] with an empty
    abort-handle map and free locks, leaves running tasks counted, and wakes every
    termination waiter when nothing is left. *)
Theorem stop_effect t w (Hun : unlocked w) (Hacc : accounted w) :
  exists rep w', run t service_stop w = Next rep w' [] /\
    load (lifecycle_byte (svc w')) = Stopping /\ abort_handles (svc w') = ∅ /\ unlocked w' /\
    report_queued rep = queued (task_counts (svc w)) /\
    report_running rep = running (task_counts (svc w)) /\
    report_cancelled rep = queued (task_counts (svc w)) - queued (task_counts (svc w')) /\
    running (task_counts (svc w')) = running (task_counts (svc w)) /\
    (is_empty (task_counts (svc w')) = true -> nobody_waits w').
Proof.
  destruct Hun as [Hl Hal].
  set (w1 := set_svc (fun s => set_abort_handles ∅ (set_lifecycle (as_u8 Stopping) s)) w).
  destruct (run_abort_all t (map_to_list (abort_handles (svc w))) 0 w1) as (w2 & n & Hrun & Hacc2 & Hf & Hq & Hle);
    [done|]. destruct Hf as (Hb & Hh & Hsl & Hal2 & Hrn & _).
  set (w3 := set_svc (set_capacity_tx (published (capacity_tx (svc w2)))) w2).
  assert (run t service_stop w = Next (Build_StopReport (queued (task_counts (svc w)))
    (running (task_counts (svc w))) n)
    (set_svc (wake (not_running (svc w3) && is_empty (task_counts (svc w3)))) w3) []) as Hstop.
  { unfold service_stop, lock_submission, BlockingState.stop, task_count_snapshot.
    rewrite (run_step t LockSubmission _ w () (set_svc (set_submission_lock (Some t)) w)) by (cbn; by rewrite Hl).
    erewrite run_step by done. erewrite run_step by done. cbv iota beta. erewrite run_step by done.
    rewrite run_bind. set (w0 := set_svc (set_submission_lock None) _).
    assert (run t (abort_tracked_tasks call_hook) w0 = Next n w2 []) as ->.
    { rewrite run_abort_tracked by done. unfold w0, w1 in *. clear Hacc. destruct w as [[]]; cbn in *.
      subst. exact Hrun. }
    cbv iota beta. unfold notify_capacity_changed. erewrite run_step by done.
    rewrite run_bind, run_notify_if_terminated. done. }
  exists (Build_StopReport (queued (task_counts (svc w))) (running (task_counts (svc w))) n),
    (set_svc (wake (not_running (svc w3) && is_empty (task_counts (svc w3)))) w3).
  assert (not_running (svc w3) = true) as Hn.
  { unfold not_running. change (lifecycle_byte (svc w3)) with (lifecycle_byte (svc w2)). rewrite Hb.
    change (load _) with (from_u8 (as_u8 Stopping)). by rewrite from_u8_as_u8. }
  rewrite Hn in Hstop |- *. cbn [andb] in *. split; [exact Hstop|].
  assert (load (lifecycle_byte (svc w2)) = Stopping) as Hload by (rewrite Hb; apply from_u8_as_u8).
  cbn in Hq, Hrn, Hh, Hsl, Hal2. change (task_counts (svc w3)) with (task_counts (svc w2)).
  destruct (is_empty (task_counts (svc w2))) eqn:He; cbn; split_and!; try done; try congruence; try lia.
  all: try (split; cbn; congruence).
  intros _. apply wake_nobody.
Qed.
(** ** Waiting with a time-out *)

Definition termination_observed w : bool := terminated_predicate (svc w) (task_counts (svc w)).

Lemma run_observed_termination t w : run t observed_termination w = Next (termination_observed w) w [].
Proof.
  unfold observed_termination, termination_observed, terminated_predicate, not_running.
  rewrite (run_seq t is_not_running _ w (negb (bool_decide (load (lifecycle_byte (svc w)) = Running))) w)
    by done.
  destruct (negb _); [|done]. destruct w as [[]]. done.
Qed.

(** The first check of a waiter, which finds the service terminated or parks. *)
Definition parked (x : nat) w : World := set_svc (set_count_waiters (enlist (count_waiters (svc w)) x)) w.

Lemma run_park {A} t x (k : bool -> Prog bact A) w :
  run t (Act (Park x terminated_predicate) k) w =
    if termination_observed w then run t (k true) w else run t (k false) (parked x w).
Proof.
  destruct (termination_observed w) eqn:Ht; unfold termination_observed in Ht; apply run_act; cbn;
    by rewrite Ht.
Qed.

Lemma run_timed_unpark {A} t x (k : bool -> Prog bact A) w :
  run t (Act (TimedUnpark x) k) (parked x w) =
    if timed_out (rt w) x
    then run t (k false) (set_svc (set_count_waiters (delist (count_waiters (svc (parked x w))) x)) (parked x w))
    else Blocked.
Proof.
  assert (waiting (count_waiters (svc (parked x w))) x = true) as Hx
    by (cbn; by rewrite waiting_enlist, bool_decide_eq_true_2).
  destruct (timed_out (rt w) x) eqn:Hto; [apply run_act|cbn -[parked]; change (exec t ?c ?s) with (bexec t c s)];
    cbn -[parked]; rewrite Hx; change (rt (parked x w)) with (rt w); by rewrite Hto.
Qed.

Lemma run_waits_bounded t n x p w o w' fs :
  waits_bounded terminated_predicate x n p -> run t p w = Next o w' fs ->
  exists b, o = Some b /\ fs = [] /\ termination_observed w' = termination_observed w /\
    (b = true -> termination_observed w = true).
Proof.
  intros Hp. destruct n as [|n]; [cbn in Hp; subst p; intros [= <- <- <-]; by exists false|].
  destruct Hp as (k & k' & k'' & -> & Hkt & Hkf & _ & Hx & Hk''). rewrite run_park.
  destruct (termination_observed w) eqn:Ht.
  { rewrite Hkt. intros [= <- <- <-]. by exists true. }
  rewrite Hkf, run_timed_unpark. destruct (timed_out _ _); [|done]. rewrite Hx.
  erewrite run_act by done. rewrite Hk''. intros [= <- <- <-]. eexists. split_and!; [done..|]. by rewrite <- Ht.
Qed.

Lemma run_waits_bounded_blocks t n x p w :
  waits_bounded terminated_predicate x (S n) p ->
  termination_observed w = false -> timed_out (rt w) x = false -> run t p w = Blocked.
Proof.
  intros (k & k' & k'' & -> & _ & Hkf & _) Ht Hto. by rewrite run_park, Ht, Hkf, run_timed_unpark, Hto.
Qed.

(** The monitor's bounded wait gets a fresh waiter. *)
Lemma run_wait_timed t n bound w o w' fs :
  run t (wait_until_ready_with_total_timeout n bound terminated_predicate) w = Next o w' fs ->
  fs = [] /\ termination_observed w' = termination_observed w /\
  (o = Some true -> termination_observed w = true).
Proof.
  destruct (bounded_wait bound) eqn:Hb.
  2:{ rewrite wait_until_ready_error by done. by intros [= <- <- <-]. }
  destruct (wait_until_ready_timed n bound terminated_predicate Hb) as (k & -> & Hk).
  rewrite (run_act t NewWaiter k w (next_waiter w) (set_next_waiter (S (next_waiter w)) w)) by done.
  intros Hr. destruct (run_waits_bounded _ _ _ _ _ _ _ _ (Hk _) Hr) as (b & -> & -> & Hobs & Hb2).
  split_and!; [done|done|]. intros [= ->]. by apply Hb2.
Qed.

Lemma run_wait_timed_blocks t n bound w :
  bounded_wait bound = true -> termination_observed w = false -> timed_out (rt w) (next_waiter w) = false ->
  run t (wait_until_ready_with_total_timeout (S n) bound terminated_predicate) w = Blocked.
Proof.
  intros Hb Ht Hto. destruct (wait_until_ready_timed (S n) bound terminated_predicate Hb) as (k & -> & Hk).
  erewrite run_act by done. by rewrite (run_waits_bounded_blocks t n (next_waiter w)).
Qed.

Lemma run_timeout_loop t wakeups timeout started rounds : forall w b w' fs,
  run t (wait_termination_timeout_loop rounds wakeups timeout started) w = Next b w' fs ->
  fs = [] /\ (b = true -> termination_observed w = true).
Proof.
  induction rounds as [|rounds IH]; intros w b w' fs; cbn [wait_termination_timeout_loop].
  { by intros [= <- <- <-]. }
  rewrite (run_seq t _ _ w _ w (run_observed_termination t w)).
  destruct (termination_observed w) eqn:Ht; [by intros [= <- <- <-]|].
  rewrite (run_step t Now _ w (now (rt w)) w) by done.
  destruct (_ =? 0); [by intros [= <- <- <-]|].
  rewrite run_bind. destruct (run t (wait_until_ready_with_total_timeout _ _ _) w) as [| |o w2 fs2|] eqn:Hw; try done.
  destruct (run_wait_timed _ _ _ _ _ _ _ Hw) as (-> & Hobs & Hready). rewrite Ht in *.
  destruct o as [[]|]; [by specialize (Hready eq_refl)| |].
  - destruct (run t _ w2) as [| |b3 w3 fs3|] eqn:Hrest; [done|done| |done]. intros [= <- <- <-].
    destruct (IH _ _ _ _ Hrest) as [-> Hb]. by rewrite Hobs in Hb.
  - rewrite run_observed_termination, Hobs. by intros [= <- <- <-].
Qed.

(** C36. [wait_termination_timeout] answers truthfully: in a terminated service it
    returns [true] at once, it never returns [true] in any other state, a zero
    time-out makes it return [false] without waiting, and otherwise it waits as
    long as neither the service terminates nor the bound expires. *)
Theorem timed_wait_effect t w rounds wakeups timeout :
  let wait := service_wait_termination_timeout (S rounds) (S wakeups) timeout in
  (termination_observed w = true -> run t wait w = Next true w []) /\
  (forall b w' fs, run t wait w = Next b w' fs -> fs = [] /\ (b = true -> termination_observed w = true)) /\
  (termination_observed w = false -> timeout <= 0 -> run t wait w = Next false w []) /\
  (termination_observed w = false -> 0 < timeout -> bounded_wait (Z.min timeout HOUR) = true ->
    timed_out (rt w) (next_waiter w) = false -> run t wait w = Blocked).
Proof.
  intros wait. assert (run t wait w =
    run t (wait_termination_timeout_loop (S rounds) (S wakeups) timeout (now (rt w))) w) as Hw.
  { unfold wait, service_wait_termination_timeout, wait_termination_timeout.
    by rewrite (run_step t Now _ w (now (rt w)) w). }
  assert (saturating_sub (now (rt w)) (now (rt w)) = 0) as Helapsed by (unfold saturating_sub; lia).
  split_and!; rewrite Hw; [|intros b w' fs; apply run_timeout_loop|..]; cbn [wait_termination_timeout_loop];
    rewrite (run_seq t _ _ w _ w (run_observed_termination t w)); [by intros ->|intros Ht; rewrite Ht..];
    rewrite (run_step t Now _ w (now (rt w)) w) by done; rewrite Helapsed; unfold saturating_sub.
  - intros Hz. by rewrite Z.sub_0_r, Z.max_l by lia.
  - intros Hz. rewrite Z.sub_0_r, Z.max_r by lia. intros Hb Hto.
    rewrite (proj2 (Z.eqb_neq _ _)) by lia. by rewrite run_bind, run_wait_timed_blocks.
Qed.
End BlockingSequential.
