(* ===== verification/BlockingHandle.v ===== *)
(** * What callers can observe: queries of the service, results of its handles

    The queries of [TokioExecutorService] read its state and agree with each
    other; the observers of [TokioBlockingTaskHandle] read the endpoint of their
    task and leave everything else alone. *)

From S2P Require Import Prelude Conc External LifecycleBits TaskCounts RejectedTask Registration BlockingState BlockingService BlockingInv BlockingSequential.
From stdpp Require Import prelude list gmap.
#[local] Open Scope Z_scope.

Section BlockingHandle.
Context `{!BuildProfile, !LifecycleRepr, !Allocator, !Tokio, !Oneshot, !WaiterSet, !Watch, !TaskSpi}.
Context {Task : Type} `{!UserCode Task, !Monitor (Task := Task)}.
#[local] Abbreviation World := (World (Task := Task)).
Implicit Types (w : World) (t : nat) (h : TokioBlockingTaskHandle).

(** ** Queries *)

Definition reported_lifecycle w : ExecutorServiceLifecycle :=
  if termination_observed w then Terminated else load (lifecycle_byte (svc w)).

Lemma run_lifecycle t w : run t service_lifecycle w = Next (reported_lifecycle w) w [].
Proof. destruct w as [[]]. cbn. unfold set_svc. cbn. do 2 f_equal. Qed.

(** The queries of the blocking service change nothing and agree: [lifecycle]
    reports the stored phase, or [Terminated] once admission is closed and no
    task is left; [is_terminated], [is_not_running] and [stats] are consistent
    with it; a new subscription to capacity changes starts at the current
    generation. *)
Theorem queries_agree t w (Hb : stored (lifecycle_byte (svc w))) :
  run t service_lifecycle w = Next (reported_lifecycle w) w [] /\
  run t is_terminated w = Next (bool_decide (reported_lifecycle w = Terminated)) w [] /\
  run t service_is_not_running w = Next (negb (bool_decide (reported_lifecycle w = Running))) w [] /\
  run t service_stats w = Next (mkStats (reported_lifecycle w) (task_capacity (svc w))
    (queued (task_counts (svc w))) (running (task_counts (svc w)))) w [] /\
  run t service_capacity_changes w = Next (subscribe (capacity_tx (svc w))) w [] /\
  (reported_lifecycle w = Terminated <->
    load (lifecycle_byte (svc w)) <> Running /\ is_empty (task_counts (svc w)) = true).
Proof.
  assert (termination_observed w = negb (bool_decide (load (lifecycle_byte (svc w)) = Running)) &&
    is_empty (task_counts (svc w))) as Ho by done.
  split_and!.
  - apply run_lifecycle.
  - unfold is_terminated. by rewrite (run_seq t _ _ w _ w (run_lifecycle t w)).
  - cbn. do 3 f_equal. apply bool_decide_ext. unfold reported_lifecycle. rewrite Ho.
    case_bool_decide as Hr; cbn [negb andb]; [by rewrite Hr|]. by destruct (is_empty _).
  - unfold service_stats, stats.
    rewrite (run_seq t task_count_snapshot _ w
      (queued (task_counts (svc w)), running (task_counts (svc w))) w) by (by destruct w as [[]]).
    by rewrite (run_seq t _ _ w _ w (run_lifecycle t w)).
  - done.
  - unfold reported_lifecycle. rewrite Ho.
    case_bool_decide as Hr; cbn [negb andb]; [rewrite Hr; by intuition|].
    destruct (is_empty (task_counts (svc w))); [done|].
    destruct (stored_cases _ Hb) as [[_ Hl]|[[_ Hl]|[_ Hl]]]; rewrite Hl; intuition congruence.
Qed.

(** ** The retry protocol *)

Section Retry.
Context {A : Type} (attempt : Task -> Prog (bact (Task := Task)) (A + RejectedTask Task)).

(** What one attempt decides. *)
Lemma run_retry t attempts changes task w result w' fs :
  run t (attempt task) w = Next result w' fs ->
  run t (retry attempt (S attempts) changes task) w =
    match result with
    | inl handle => Next (Some (inl handle)) w' fs
    | inr (mkRejected Shutdown task) =>
        match after_drop task (Some (inr Shutdown)) w' with
        | Next a w2 fs2 => Next a w2 (fs ++ fs2)
        | Unwound w2 fs2 => Unwound w2 (fs ++ fs2)
        | o => o
        end
    | inr (mkRejected Saturated task) =>
        match run t (let! changes := do (AwaitChanged changes) in
                     retry attempt attempts changes task)%exec w' with
        | Next a w2 fs2 => Next a w2 (fs ++ fs2)
        | Unwound w2 fs2 => Unwound w2 (fs ++ fs2)
        | o => o
        end
    end.
Proof.
  intros Hrun. cbn [retry]. rewrite run_bind, Hrun.
  destruct result as [handle|[[] task']]; cbn; [by rewrite app_nil_r| |done].
  unfold after_drop. by destruct (drop_panics _ _).
Qed.

Lemma attempt_rejected t task reason w :
  Attempt attempt -> rejects t w task reason ->
  run t (attempt task) w = Next (inr (RejectedTask.new reason task)) w [].
Proof. intros Ha (Hs & Hc & Ht & _). by destruct Ha. Qed.

(** C31. The retry protocol: an accepted attempt ends it with the handle and a closed
    service with [Shutdown], after the task is dropped (a panic of its destructor goes
    to the caller); only a saturated service makes the caller wait, with
    the task still in its hands, and exactly until a change that was published
    after its subscription or its last look; then it takes note of the newest
    change and attempts again. *)
Theorem retry_effect t w attempts changes task
    (Ha : Attempt attempt) (Hl : submission_lock (svc w) = None) :
  (forall handle w' fs, run t (attempt task) w = Next (inl handle) w' fs ->
    run t (retry attempt (S attempts) changes task) w = Next (Some (inl handle)) w' fs) /\
  (load (lifecycle_byte (svc w)) <> Running ->
    run t (retry attempt (S attempts) changes task) w = after_drop task (Some (inr Shutdown)) w) /\
  (load (lifecycle_byte (svc w)) = Running -> counts_ok (task_counts (svc w)) ->
    task_capacity (svc w) <= usize_MAX ->
    task_capacity (svc w) <= queued (task_counts (svc w)) + running (task_counts (svc w)) ->
    run t (retry attempt (S attempts) changes task) w =
      if has_changed (capacity_tx (svc w)) changes
      then run t (retry attempt attempts (subscribe (capacity_tx (svc w))) task) w else Blocked).
Proof.
  split_and!.
  - intros handle w' fs Hrun. by rewrite (run_retry t attempts changes task w _ _ _ Hrun).
  - intros Hr. rewrite (run_retry t attempts changes task w _ _ _
      (attempt_rejected t task Shutdown w Ha (closed_service_rejects t w task Hl Hr))).
    cbn. unfold after_drop. by destruct (drop_panics _ _).
  - intros Hr Hok Hcap Hfull. rewrite (run_retry t attempts changes task w _ _ _
      (attempt_rejected t task Saturated w Ha (full_service_rejects t w task Hl Hr Hok Hcap Hfull))).
    cbn. destruct (has_changed _ _); [|done]. by destruct (run _ _ _).
Qed.
End Retry.

(** ** Observers of a handle *)

Lemma observe_same w slot : set_slot slot (set_endpoint (endpoint_at w slot) (slot_at w slot)) w = w.
Proof.
  replace (set_endpoint (endpoint_at w slot) (slot_at w slot)) with (slot_at w slot)
    by (unfold endpoint_at; by destruct (slot_at w slot)).
  unfold set_slot, slot_at. destruct (endpoints w !! slot) as [x|] eqn:Hx; cbn.
  - rewrite list_insert_id by done. by destruct w.
  - rewrite list_insert_ge by (by apply lookup_ge_None_1). by destruct w.
Qed.

(** What the endpoint behind a handle holds for its observers. *)
Definition handle_output w h : option TaskOutput := endpoint_output (endpoint_at w (bh_endpoint h)).

Lemma run_observers t w h :
  run t (handle_status h) w = Next (endpoint_status (endpoint_at w (bh_endpoint h))) w [] /\
  run t (blocking_handle_is_done h) w = Next (bool_decide (is_Some (handle_output w h))) w [] /\
  run t (handle_try_get h) w =
    Next (match handle_output w h with Some output => inl output | None => inr h end) w [] /\
  run t (handle_get h) w =
    match handle_output w h with Some output => Next output w [] | None => Blocked end /\
  run t (handle_into_future h) w = run t (handle_get h) w.
Proof.
  destruct h as [slot abort_handle cancel]. unfold handle_output. cbn.
  rewrite observe_same, endpoint_is_done_spec. split_and!; [done|done| |by destruct (endpoint_output _)|done].
  by destruct (endpoint_output (endpoint_at w slot)).
Qed.

(** The observers of a blocking handle change nothing and agree: [get] and the
    future block exactly as long as [is_done] is false, [try_get] then gives
    the handle back unchanged and otherwise the result [get] returns. *)
Theorem handle_observers_agree t w h :
  exists done tried,
    run t (blocking_handle_is_done h) w = Next done w [] /\
    run t (handle_try_get h) w = Next tried w [] /\
    (if done then exists output, tried = inl output /\
       run t (handle_get h) w = Next output w [] /\ run t (handle_into_future h) w = Next output w []
     else tried = inr h /\
       run t (handle_get h) w = Blocked /\ run t (handle_into_future h) w = Blocked).
Proof.
  destruct (run_observers t w h) as (_ & Hd & Ht & Hg & Hf). rewrite Hf, Hg, Hd, Ht.
  do 2 eexists. split_and!; [done..|].
  destruct (handle_output w h) as [output|]; cbn; [by exists output|done].
Qed.

End BlockingHandle.
