(* ===== verification/BlockingActions.v ===== *)
(** * Proof rules for the atomic actions of the blocking service

    One rule per action: which tokens it consumes and produces, and that it
    preserves [Inv] and stays within [Guar].  Rules are stated up to the order
    of the tokens. *)

From S2P Require Import Prelude Conc External LifecycleBits ServiceSpec TaskCounts Registration BlockingState BlockingService BlockingInv.
From stdpp Require Import prelude list gmap.
#[local] Open Scope Z_scope.

Ltac destruct_base HI :=
  cbn [app concat fmap list_fmap pre] in *;
  destruct HI as [Htoks Hsub Habl Hbyte Hcap Hque Hrun Hbnd Htr Hch Hent Hun Hreg Hws Hwa Hrep Hwt Hans Hpro Hful].
Ltac destruct_inv HI :=
  let Hb := fresh in destruct HI as [Hb Hslot]; destruct_base Hb.

(** Normalise tallies over explicit token lists. *)
Ltac tallies :=
  unfold guards, locks in *; cbn [app tally foldr] in *; rewrite ?tally_cons in *;
  cbn [w_sub w_abl w_queued w_running w_guard w_unreg w_registering w_removing w_notify_s
       w_notify_a w_waiter w_owed w_unchanged w_sender w_receiver w_owner phases b2z] in *.

(** Transfer the facts of the remaining tokens to the new state. *)
Ltac toks :=
  repeat (apply Forall_cons; split); try done;
  try (match goal with
       | H : Forall (tok_ok _) ?R |- Forall _ ?R =>
           eapply Forall_impl; [exact H|];
           let tok := fresh "tok" in intros tok; destruct tok
       end; try done).

(** The same, with a further fact [Hz] about every remaining token. *)
Ltac toks_excl Hz :=
  repeat (apply Forall_cons; split); try done;
  try (match goal with
       | H : Forall (tok_ok _) ?R |- Forall _ ?R =>
           let Hb := fresh in
           pose proof (conj H Hz) as Hb; rewrite <- Forall_and in Hb;
           eapply Forall_impl; [exact Hb|];
           let tok := fresh "tok" in intros tok; destruct tok; cbn; intros [? ?]
       end; try done).

(** Prove the invariant field by field from the corresponding old field; what
    really changed is left to the caller. *)
Ltac norm_in H :=
  rewrite ?tally_cons in H; rewrite ?tally_cons;
  cbn [w_sub w_abl w_queued w_running w_guard w_unreg w_registering w_removing w_notify_s
       w_notify_a w_waiter w_owed w_unchanged w_sender w_receiver w_owner phases b2z] in H |- *.
Ltac field_of H := first [exact H | norm_in H; first [exact H | lia]].
Ltac field_all H :=
  let x := fresh in
  let H' := fresh in
  intros x; pose proof (H x) as H';
  first [ exact H'
        | unfold tracker_inv, channel_inv, entry_inv, slot_inv, owners, results_of, guards in H' |- *; norm_in H';
          first [exact H' | intros; lia | intros; first [lia | specialize (H' ltac:(assumption)); lia
            | specialize (H' ltac:(assumption) ltac:(assumption)); lia ] ] ].
Ltac base_fields :=
  match goal with
  | Htoks : Forall (tok_ok _) _, Hsub : tally w_sub _ = _, Habl : tally w_abl _ = _,
    Hbyte : stored _, Hcap : 1 <= _ <= usize_MAX,
    Hque : queued _ = _, Hrun : running _ = _, Hbnd : _ + _ <= task_capacity _,
    Htr : forall tr, tracker_inv _ _ tr, Hch : forall ch, channel_inv _ _ ch,
    Hent : forall k, entry_inv _ _ k, Hun : forall m, tally (w_unreg m) _ <= 1,
    Hreg : forall m, _ -> _ -> 1 <= tally (w_removing m) _,
    Hws : forall w, _ -> _ -> 1 <= tally w_notify_s _,
    Hwa : forall w, _ -> _ -> 1 <= tally (w_notify_a w) _,
    Hrep : Forall report_ok _, Hwt : forall w, tally (w_waiter w) _ <= 1 /\ _,
    Hans : Forall answer_ok _, Hpro : Exists says_terminated _ -> terminated _,
    Hful : 1 <= tally (w_unchanged _) _ -> _ |- _ =>
      constructor; cbn;
      [ try exact Htoks | try field_of Hsub | try field_of Habl | try field_of Hbyte
      | try field_of Hcap | try field_of Hque | try field_of Hrun | try field_of Hbnd
      | try field_all Htr | try field_all Hch | try field_all Hent | try field_all Hun
      | try field_all Hreg | try field_all Hws | try field_all Hwa | try field_of Hrep
      | try field_all Hwt | try field_of Hans | try field_of Hpro
      | try field_of Hful ]
  end.
Ltac inv_fields :=
  match goal with
  | Hslot : forall sl, slot_inv _ _ sl |- _ => constructor; [base_fields|try field_all Hslot]
  end.

(** The waiter fields: a token that owes the wake-up is present, or the new
    state is not terminated. *)
Ltac wait_owed :=
  let w := fresh "w" in intros w _ _; rewrite !tally_cons; cbn;
  match goal with
  | |- context [tally w_notify_s ?R] => pose proof (tally_nonneg w_notify_s R w_notify_s_nonneg)
  | |- context [tally (w_notify_a ?w) ?R] =>
      pose proof (tally_nonneg (w_notify_a w) R (w_notify_a_nonneg w))
  end; lia.
(** A change of capacity that a token owes its publication. *)
Ltac change_owed :=
  intros _; right; rewrite !tally_cons; cbn;
  match goal with |- context [tally w_owed ?R] => pose proof (tally_nonneg w_owed R w_owed_nonneg) end; lia.
(** A section of the monitor that changes the counts of a service that has not
    terminated ([Hnt]). *)
Ltac toks_counts Hnt := toks; cbn in *; first [lia | tauto].
Ltac wait_not Hnot :=
  let w := fresh "w" in let Ht := fresh in
  intros w _ Ht; exfalso; revert Ht; exact Hnot.

Section BlockingActions.
Context `{!BuildProfile, !LifecycleRepr, !Allocator, !Tokio, !Oneshot, !WaiterSet, !Watch, !TaskSpi}.
Context {Task : Type} `{!UserCode Task}.
#[local] Abbreviation World := (World (Task := Task)).
#[local] Abbreviation bact := (bact (Task := Task)).
#[local] Abbreviation bwp := (wp (act := bact) Inv Guar ok own blk pre).
Implicit Types (s : World) (r R : list btok).

(** A rule for [do c] from the effect of [c] on the invariant. *)
Lemma wp_do {B} t (c : bact B) r h r0 Q :
  r ≡ₚ h ++ r0 -> ok _ t c r ->
  (forall s R, Inv s (h ++ R) ->
    match bexec t c s with
    | Blocked => blk _ t c s
    | Panicked => False
    | Next b s' fs =>
        Guar s s' /\
        exists h', Forall (own t) h' /\ Inv s' (h' ++ concat (pre <$> fs) ++ R) /\
          forall r', r' ≡ₚ h' ++ r0 -> Q b r'
    | Unwound _ _ => False
    end) ->
  bwp t (do c) r Q.
Proof. intros Hr Hok Hc. eapply wp_action; [exact _|exact Hr|exact Hok|exact Hc]. Qed.

(** ** Actions that leave the invariant's view of the state alone *)

Definition same_core s s' : Prop :=
  svc s' = svc s /\
  registrations s' = registrations s /\ trackers s' = trackers s /\
  channels s' = channels s /\ endpoints s' = endpoints s /\ reports s' = reports s /\
  next_waiter s' = next_waiter s /\ calls s' = calls s /\ answers s' = answers s.

(** Steps that only touch locks, waiters or the map satisfy the guarantee. *)
Lemma guar_locks s s' :
  view s' = view s -> lifecycle_byte (svc s') = lifecycle_byte (svc s) -> trackers s' = trackers s ->
  endpoints s' = endpoints s -> Guar s s'.
Proof.
  intros Hv Hb Hx He.
  split; [by left|lia|by rewrite Hx|by apply trackers_advance_same|by apply results_final_same].
Qed.

Lemma inv_same_core s s' r : same_core s s' -> Inv s r -> Guar s s' /\ Inv s' r.
Proof.
  destruct s as [v1 a1 b1 c1 d1 e1 f1 g1 h1 i1], s' as [v2 a2 b2 c2 d2 e2 f2 g2 h2 i2].
  intros (Hv & Ha & Hb & Hc & He & Hr & Hn & Hcs & Hs); cbn in *. subst.
  intros HI. destruct_inv HI. split; [by apply guar_locks|]. split; [by constructor|exact Hslot].
Qed.

Lemma wp_neutral {B} t (c : bact B) r Q :
  ok _ t c r ->
  (forall s, match bexec t c s with
             | Blocked | Panicked | Unwound _ _ => False
             | Next b s' fs => same_core s s' /\ fs = []
             end) ->
  (forall b r', r' ≡ₚ r -> Q b r') ->
  bwp t (do c) r Q.
Proof.
  intros Hok Hc HQ. apply wp_do with (h := []) (r0 := r); [done|done|].
  intros s R HI. specialize (Hc s). destruct (bexec t c s) as [| |b s' fs|]; [done|done| |done].
  destruct Hc as [Hcore ->]. destruct (inv_same_core _ _ _ Hcore HI). split; [done|].
  exists []. split_and!; [constructor|done|]. intros r' Hr'. by apply HQ.
Qed.

Lemma guar_close s byte :
  contract_moves true (view s) (view (set_svc (set_lifecycle byte) s)) ->
  lifecycle_byte (svc s) <= byte -> Guar s (set_svc (set_lifecycle byte) s).
Proof. intros. split; [done|done|done|by apply trackers_advance_same|by apply results_final_same]. Qed.

(** ** The submission lock *)

Lemma inv_lock_submission s R t :
  submission_lock (svc s) = None -> Inv s R ->
  Inv (set_svc (set_submission_lock (Some t)) s) (TSub t :: R).
Proof.
  intros Hl HI. destruct_inv HI. rewrite Hl in Hsub. cbn in Hsub.
  inv_fields.
  - toks; cbn; intuition congruence.
Qed.

Lemma inv_unlock_submission s R t tok :
  tok = TSub t \/ tok = TAdmit t -> Inv s (tok :: R) ->
  Inv (set_svc (set_submission_lock None) s) R.
Proof.
  intros Htok HI. destruct_inv HI. split_toks.
  assert (Forall (fun x => w_sub x = 0) R) as Hno.
  { eapply alone; [apply w_sub_nonneg|exact Hsub|by destruct Htok as [-> | ->]]. }
  destruct Htok as [-> | ->]; inv_fields.
  all: try by apply tally_all_zero.
  all: toks_excl Hno.
Qed.

Lemma no_sub_nil r : locks r = 0 -> tally w_sub r = 0 /\ tally w_abl r = 0.
Proof.
  unfold locks. pose proof (tally_nonneg w_sub r w_sub_nonneg).
  pose proof (tally_nonneg w_abl r w_abl_nonneg). lia.
Qed.

Lemma wp_lock_submission t r Q :
  Forall passive r -> (forall r', r' ≡ₚ TSub t :: r -> Q () r') -> bwp t (do LockSubmission) r Q.
Proof.
  intros Hp HQ. apply wp_do with (h := []) (r0 := r); [done|exact Hp|].
  intros s R HI. cbn. destruct (submission_lock (svc s)) eqn:Hs; [by eexists|].
  split; [by apply guar_locks|]. exists [TSub t]. split_and!; [by repeat constructor| |].
  - by apply inv_lock_submission.
  - intros r' Hr'. by apply HQ.
Qed.

Lemma wp_unlock_submission t tok r0 r Q :
  tok = TSub t \/ tok = TAdmit t -> r ≡ₚ tok :: r0 -> (forall r', r' ≡ₚ r0 -> Q () r') ->
  bwp t (do UnlockSubmission) r Q.
Proof.
  intros Ht Hr HQ. apply wp_do with (h := [tok]) (r0 := r0); [done|done|].
  intros s R HI. cbn. split; [by apply guar_locks|]. exists []. split_and!; [constructor| |].
  - by apply inv_unlock_submission with t tok.
  - intros r' Hr'. by apply HQ.
Qed.

(** ** The lifecycle byte *)

Lemma not_running_byte s :
  stored (lifecycle_byte (svc s)) -> not_running (svc s) = negb (lifecycle_byte (svc s) =? 0).
Proof.
  intros Hb. unfold not_running. f_equal.
  destruct (Z.eqb_spec (lifecycle_byte (svc s)) 0) as [He|He].
  - apply bool_decide_eq_true. by apply stored_Running.
  - apply bool_decide_eq_false. by rewrite stored_Running.
Qed.

Lemma running_not_terminated s : lifecycle_byte (svc s) = 0 -> ~ terminated s.
Proof.
  intros Hb. unfold terminated, terminated_predicate. rewrite not_running_byte.
  - by rewrite Hb.
  - rewrite Hb. apply stored_initial.
Qed.

Lemma terminated_closed s : stored (lifecycle_byte (svc s)) -> terminated s -> 0 < lifecycle_byte (svc s).
Proof.
  intros Hb Ht. destruct (decide (lifecycle_byte (svc s) = 0)) as [Hz|]; [by apply running_not_terminated in Hz|].
  unfold stored in Hb. lia.
Qed.

(** Termination is final: closing again keeps it, and no section of the monitor
    that changes the counts can run once they are empty. *)
Lemma terminated_close s byte :
  stored byte -> 0 < byte -> terminated s -> terminated (set_svc (set_lifecycle byte) s).
Proof.
  intros Hb Hpos. unfold terminated, terminated_predicate. rewrite !andb_true_iff. intros [_ He].
  split; [|done]. rewrite not_running_byte by done. cbn. rewrite (proj2 (Z.eqb_neq byte 0)) by lia. done.
Qed.

Lemma busy_not_terminated s :
  queued (task_counts (svc s)) <> 0 \/ running (task_counts (svc s)) <> 0 -> ~ terminated s.
Proof. intros Hc [_ He%is_empty_spec]%andb_true_iff. lia. Qed.

(** Reading a running lifecycle under the submission lock admits. *)
Lemma wp_load_admission t r0 r Q :
  r ≡ₚ TSub t :: r0 ->
  (forall byte r', stored byte -> r' ≡ₚ (if byte =? 0 then TAdmit t else TSub t) :: r0 -> Q byte r') ->
  bwp t (do LoadLifecycle) r Q.
Proof.
  intros Hr HQ. apply wp_do with (h := [TSub t]) (r0 := r0); [done|done|].
  intros s R HI. cbn. split; [done|].
  exists [if lifecycle_byte (svc s) =? 0 then TAdmit t else TSub t].
  split_and!; [by destruct (_ =? _); repeat constructor| |].
  - destruct_inv HI. split_toks. destruct (Z.eqb_spec (lifecycle_byte (svc s)) 0);
      inv_fields; toks.
  - intros r' Hr'. apply HQ; [exact (inv_byte _ _ HI)|done].
Qed.

(** Closing admission, by [shutdown] or [stop]. *)
Lemma inv_close s R t byte :
  stored byte -> 0 < byte -> lifecycle_byte (svc s) <= byte -> Inv s (TSub t :: R) ->
  Inv (set_svc (set_lifecycle byte) s) (TShutting :: TSub t :: R).
Proof.
  intros Hb0 Hb1 Hb2 HI. destruct_inv HI. split_toks.
  assert (Forall (fun x => w_sub x = 0) R) as Hno.
  { eapply alone; [apply w_sub_nonneg|exact Hsub|done]. }
  assert (terminated s -> terminated (set_svc (set_lifecycle byte) s)) as Hterm by by apply terminated_close.
  inv_fields; [|done|wait_owed|wait_owed|by auto].
  toks_excl Hno; try done; split_and?; intuition (auto; lia).
Qed.

Lemma wp_close t (c : bact ()) byte' r0 r Q :
  (forall s, bexec t c s = Next () (set_svc (set_lifecycle (byte' (lifecycle_byte (svc s)))) s) []) ->
  (forall byte, stored byte -> closes byte (byte' byte)) ->
  (forall byte q n k, contract_moves true (view_of byte q n k) (view_of (byte' byte) q n k)) ->
  ok _ t c r ->
  r ≡ₚ TSub t :: r0 -> (forall r', r' ≡ₚ TShutting :: TSub t :: r0 -> Q () r') ->
  bwp t (do c) r Q.
Proof.
  intros He Hcl Hv Hok Hr HQ. apply wp_do with (h := [TSub t]) (r0 := r0); [done|done|].
  intros s R HI. rewrite He. destruct (Hcl _ (inv_byte _ _ HI)) as (? & ? & ?).
  split; [apply guar_close; [apply Hv|done]|]. exists [TShutting; TSub t].
  split_and!; [by repeat constructor|by apply inv_close|apply HQ].
Qed.

Lemma wp_shutdown t r0 r Q :
  r ≡ₚ TSub t :: r0 -> (forall r', r' ≡ₚ TShutting :: TSub t :: r0 -> Q () r') ->
  bwp t shutdown r Q.
Proof. by eapply wp_close with (byte' := fetch_update shutdown_update); [|apply closing_shutdown|intros; apply view_shutdown|]. Qed.

Lemma wp_stop t r0 r Q :
  r ≡ₚ TSub t :: r0 -> (forall r', r' ≡ₚ TShutting :: TSub t :: r0 -> Q () r') ->
  bwp t stop r Q.
Proof. by eapply wp_close with (byte' := fun _ => as_u8 Stopping); [|apply closing_stop|intros; apply view_stop|]. Qed.

(** ** The task counts *)

(** A cancelled-task snapshot that may accompany a queued completion. *)
Definition snap_toks (o : option (Z * Z)) : list btok :=
  match o with Some (q, c) => [TSnap q c] | None => [] end.
Definition bump (o : option (Z * Z)) : option (Z * Z) :=
  match o with Some (q, c) => Some (q, c + 1) | None => None end.

Lemma tracker_queued_nonneg s : 0 <= tally w_tracker_queued (trackers s).
Proof. apply tally_nonneg. intros x. unfold w_tracker_queued, b2z. by case_bool_decide. Qed.

Lemma counts_facts s r :
  Inv s r ->
  counts_ok (task_counts (svc s)) /\
  tally w_queued r <= queued (task_counts (svc s)) /\
  tally w_running r = running (task_counts (svc s)).
Proof.
  intros HI. destruct_inv HI. pose proof (tracker_queued_nonneg s).
  pose proof (tally_nonneg w_queued r w_queued_nonneg).
  pose proof (tally_nonneg w_running r w_running_nonneg).
  unfold counts_ok. lia.
Qed.

(** A section of the monitor that changes the counts is owed, so the service has
    not terminated. *)
Lemma owing_not_terminated s r :
  Inv s r -> 0 < tally w_queued r + tally w_running r -> ~ terminated s.
Proof.
  intros HI Hr. destruct (counts_facts _ _ HI) as ((? & ? & ?) & ? & ?). apply busy_not_terminated. lia.
Qed.

Lemma debt_not_terminated s r tok :
  Inv s (tok :: r) -> 0 < w_queued tok + w_running tok -> ~ terminated s.
Proof.
  intros HI Ht. apply (owing_not_terminated s (tok :: r) HI). rewrite !tally_cons.
  pose proof (tally_nonneg w_queued r w_queued_nonneg).
  pose proof (tally_nonneg w_running r w_running_nonneg). lia.
Qed.

(** Changing the counts is a move of the contract. *)
Definition counts_view s counts : contract :=
  c_set (c_lifecycle (view s)) (queued counts) (running counts) (view s).

Lemma guar_counts s counts :
  contract_moves true (view s) (counts_view s counts) -> Guar s (set_svc (set_counts counts) s).
Proof. intros Hm. split; [exact Hm|done|done|by apply trackers_advance_same|by apply results_final_same]. Qed.

Lemma set_same_counts s : set_svc (set_counts (task_counts (svc s))) s = s.
Proof. by destruct s as [[]]. Qed.

Lemma guar_same_counts s : Guar s (set_svc (set_counts (task_counts (svc s))) s).
Proof. apply guar_counts. by left. Qed.

Lemma guar_accept s :
  stored (lifecycle_byte (svc s)) -> lifecycle_byte (svc s) = 0 -> task_total s < task_capacity (svc s) ->
  Guar s (set_svc (set_counts (mkCounts (queued (task_counts (svc s)) + 1) (running (task_counts (svc s))))) s).
Proof.
  intros Hs Hb Hlt. apply guar_counts. right. apply stored_Running in Hb as Hl; [|done].
  unfold counts_view. change (c_lifecycle (view s)) with (load (lifecycle_byte (svc s))). rewrite Hl.
  by apply (contract_accept true).
Qed.

(** A submitter may be subscribed to capacity changes. *)
Definition watch_toks (o : option receiver) : list btok :=
  match o with Some rx => [TWatch rx] | None => [] end.
Definition full_toks (o : option receiver) : list btok :=
  match o with Some rx => [TFull rx] | None => [] end.

Lemma inv_saturated s o R :
  task_capacity (svc s) <= queued (task_counts (svc s)) + running (task_counts (svc s)) ->
  Inv s (watch_toks o ++ R) -> Inv s (full_toks o ++ R).
Proof.
  intros Hfull HI. destruct o as [rx|]; [|done]. cbn [watch_toks full_toks] in *. destruct_inv HI. split_toks.
  inv_fields. by toks.
Qed.

(** Reserving a slot under admission. *)
Lemma wp_try_accept_task t o r0 r Q :
  r ≡ₚ TAdmit t :: watch_toks o ++ r0 ->
  (forall r', r' ≡ₚ TAdmit t :: full_toks o ++ r0 -> Q false r') ->
  (forall r', r' ≡ₚ TReserved :: TAdmit t :: watch_toks o ++ r0 -> Q true r') ->
  bwp t try_accept_task r Q.
Proof.
  intros Hr HQf HQt. apply wp_do with (h := TAdmit t :: watch_toks o) (r0 := r0); [done|done|].
  intros s R HI. cbn. destruct (counts_facts _ _ HI) as ((Hc1 & Hc2 & Hc3) & _).
  unfold saturating_add. destruct (Z.leb_spec (task_capacity (svc s))
    (usize_MAX `min` (queued (task_counts (svc s)) + running (task_counts (svc s))))) as [Hle|Hlt].
  { split; [by apply guar_counts; left|]. exists (TAdmit t :: full_toks o).
    split_and!; [by destruct o; repeat constructor| |apply HQf]. rewrite set_same_counts. cbn [app] in HI |- *.
    rewrite Permutation_middle in HI |- *. apply inv_saturated; [lia|done]. }
  destruct_inv HI. split_toks. destruct Htok as [Hsl Hb0].
  rewrite accept_task_spec by (unfold counts_ok; lia). cbn.
  split; [apply guar_accept; [done|done|unfold task_total; lia]|]. exists (TReserved :: TAdmit t :: watch_toks o).
  split_and!; [by destruct o; repeat constructor| |apply HQt].
  pose proof (running_not_terminated s Hb0) as Hnt. cbn [app].
  inv_fields; [toks_counts Hnt|..|by intros Hp%Hpro].
  - intros w Hw Ht. by apply running_not_terminated in Ht.
  - intros w Hw Ht. by apply running_not_terminated in Ht.
Qed.

Lemma wp_mark_task_started t tr r0 r Q :
  r ≡ₚ TStarting tr :: r0 -> (forall r', r' ≡ₚ TRunning tr :: r0 -> Q () r') ->
  bwp t mark_task_started r Q.
Proof.
  intros Hr HQ. apply wp_do with (h := [TStarting tr]) (r0 := r0); [done|done|].
  intros s R HI. cbn. destruct (counts_facts _ _ HI) as (Hok & Hq & _).
  tallies. pose proof (tally_nonneg w_queued R w_queued_nonneg).
  rewrite mark_started_spec by (done || lia). cbn.
  split; [apply guar_counts; right; apply contract_start; cbn; lia|]. exists [TRunning tr].
  split_and!; [by repeat constructor| |apply HQ].
  pose proof (debt_not_terminated _ _ _ HI ltac:(done)) as Hnt.
  destruct_inv HI. split_toks. inv_fields; [toks_counts Hnt|..|by intros Hp%Hpro].
  - intros w Hw [_ Ht%is_empty_spec]%andb_true_iff. cbn in Ht. destruct Hok. lia.
  - intros w Hw [_ Ht%is_empty_spec]%andb_true_iff. cbn in Ht. destruct Hok. lia.
Qed.

Definition finish_result s counts : bool := not_running (svc s) && is_empty counts.

Lemma finish_yes s counts :
  finish_result s counts = true -> terminated (set_svc (set_counts counts) s).
Proof. done. Qed.

Lemma finish_wait s counts :
  finish_result s counts = false -> ~ terminated (set_svc (set_counts counts) s).
Proof.
  intros Hf. unfold terminated, terminated_predicate. cbn.
  change (not_running (set_counts counts (svc s))) with (not_running (svc s)).
  unfold finish_result in Hf. by rewrite Hf.
Qed.

(** Completing a queued task; a stop that caused it counts it. *)
Lemma inv_finish_queued s o R :
  let c := task_counts (svc s) in
  let c' := mkCounts (queued c - 1) (running c) in
  Inv s (TDebtQ :: snap_toks o ++ R) ->
  Inv (set_svc (set_counts c') s)
    (TCapacity :: (if finish_result s c' then [TNotifyS] else []) ++ snap_toks (bump o) ++ R).
Proof.
  intros c c' HI. pose proof (finish_wait s c') as Hnot. pose proof (finish_yes s c') as Hyes.
  pose proof (debt_not_terminated _ _ _ HI ltac:(done)) as Hnt.
  destruct_inv HI. split_toks. subst c c'.
  destruct (finish_result s _); (destruct o as [[q c]|]; cbn [snap_toks bump app] in *; split_toks).
  all: inv_fields; try change_owed; try wait_owed; try (wait_not (Hnot eq_refl)); try (by intros Hp%Hpro);
    try specialize (Hyes eq_refl); toks_counts Hnt.
Qed.

Lemma inv_finish_running s R :
  let c := task_counts (svc s) in
  let c' := mkCounts (queued c) (running c - 1) in
  Inv s (TDebtR :: R) ->
  Inv (set_svc (set_counts c') s) (TCapacity :: (if finish_result s c' then [TNotifyS] else []) ++ R).
Proof.
  intros c c' HI. pose proof (finish_wait s c') as Hnot. pose proof (finish_yes s c') as Hyes.
  pose proof (debt_not_terminated _ _ _ HI ltac:(done)) as Hnt.
  destruct_inv HI. split_toks. subst c c'. destruct (finish_result s _); cbn [app].
  all: inv_fields; try change_owed; try wait_owed; try (wait_not (Hnot eq_refl)); try (by intros Hp%Hpro);
    try specialize (Hyes eq_refl); toks_counts Hnt.
Qed.

Lemma wp_finish_queued_section t o r0 r Q :
  r ≡ₚ TDebtQ :: snap_toks o ++ r0 ->
  (forall (b : bool) r',
    r' ≡ₚ TCapacity :: (if b then [TNotifyS] else []) ++ snap_toks (bump o) ++ r0 -> Q b r') ->
  bwp t (do (WithCounts (finish_task_section false))) r Q.
Proof.
  intros Hr HQ. apply wp_do with (h := TDebtQ :: snap_toks o) (r0 := r0); [done|done|].
  intros s R HI. destruct (counts_facts _ _ HI) as (Hok & Hq & _). cbn [app] in *.
  rewrite tally_cons in Hq. cbn [w_queued] in Hq.
  pose proof (tally_nonneg w_queued (snap_toks o ++ R) w_queued_nonneg).
  pose proof (inv_finish_queued s o R HI) as HI'.
  cbn. unfold finish_task_section. rewrite finish_task_false_spec by lia.
  split; [apply guar_counts; right; apply contract_cancel; cbn; lia|]. cbv zeta in HI'.
  eexists (TCapacity :: (if finish_result s _ then _ else _) ++ snap_toks (bump o)).
  split_and!; [| cbn [app]; rewrite <- app_assoc; exact HI'|intros r'; cbn [app]; rewrite <- app_assoc; apply HQ].
  apply Forall_cons_2; [done|]. apply Forall_app. split; [by destruct (finish_result _ _); repeat constructor|].
  destruct o as [[]|]; by repeat constructor.
Qed.

Lemma wp_finish_running_section t r0 r Q :
  r ≡ₚ TDebtR :: r0 ->
  (forall (b : bool) r', r' ≡ₚ TCapacity :: (if b then [TNotifyS] else []) ++ r0 -> Q b r') ->
  bwp t (do (WithCounts (finish_task_section true))) r Q.
Proof.
  intros Hr HQ. apply wp_do with (h := [TDebtR]) (r0 := r0); [done|done|].
  intros s R HI. destruct (counts_facts _ _ HI) as (Hok & _ & Hq). cbn [app] in *.
  rewrite tally_cons in Hq. cbn [w_running] in Hq.
  pose proof (tally_nonneg w_running R w_running_nonneg).
  pose proof (inv_finish_running s R HI) as HI'.
  cbn. unfold finish_task_section. rewrite finish_task_true_spec by lia.
  split; [apply guar_counts; right; apply contract_finish; cbn; lia|]. cbv zeta in HI'.
  eexists (TCapacity :: if finish_result s _ then _ else _). split_and!; [|exact HI'|apply HQ].
  by destruct (finish_result _ _); repeat constructor.
Qed.

(** The snapshot a stop takes while it still holds the submission lock. *)
Lemma wp_task_count_snapshot t r0 r Q :
  r ≡ₚ TShutting :: r0 ->
  (forall q n r', 0 <= q -> r' ≡ₚ TSnap q 0 :: TShutting :: r0 -> Q (q, n) r') ->
  bwp t task_count_snapshot r Q.
Proof.
  intros Hr HQ. apply wp_do with (h := [TShutting]) (r0 := r0); [done|done|].
  intros s R HI. cbn. destruct (counts_facts _ _ HI) as (Hok & _ & _).
  split; [by apply guar_counts; left|].
  exists [TSnap (queued (task_counts (svc s))) 0; TShutting].
  split_and!; [by repeat constructor| |intros r'; apply HQ; apply Hok].
  destruct s as [[] ?]. cbn in *. destruct_inv HI. split_toks. inv_fields.
  toks; cbn in *; lia.
Qed.

(** Any other section that only reads the counts. *)
Lemma wp_read_counts {B} t (f : TokioExecutorServiceState -> TokioExecutorTaskCounts -> B) r Q :
  (forall b r', r' ≡ₚ r -> Q b r') ->
  bwp t (do (WithCounts (fun self counts => Some (f self counts, counts)))) r Q.
Proof.
  intros HQ. apply wp_neutral; [done| |done]. intros s. by destruct s as [[] ?].
Qed.

(** [notify_if_terminated] reads the state: the shutdown obligation becomes
    a wake-up obligation, or nothing. *)
Lemma wp_read_terminated t r0 r Q :
  r ≡ₚ TShutting :: r0 ->
  (forall (b : bool) r', r' ≡ₚ (if b then [TNotifyS] else []) ++ r0 -> Q b r') ->
  bwp t (do (WithCounts (fun self counts => Some (not_running self && is_empty counts, counts)))) r Q.
Proof.
  intros Hr HQ. apply wp_do with (h := [TShutting]) (r0 := r0); [done|done|].
  intros s R HI. cbn. split; [by apply guar_counts; left|].
  rewrite set_same_counts.
  exists (if not_running (svc s) && is_empty (task_counts (svc s)) then [TNotifyS] else []).
  split_and!; [by destruct (not_running _ && _); repeat constructor| |apply HQ].
  assert (not_running (svc s) && is_empty (task_counts (svc s)) = false -> ~ terminated s) as Hnot
    by (unfold terminated, terminated_predicate; by intros ->).
  destruct_inv HI. split_toks.
  destruct (not_running _ && _) eqn:Ht; cbn [app]; inv_fields; try wait_owed; try by toks.
  all: wait_not (Hnot eq_refl).
Qed.

(** ** Waking waiters *)

Lemma wp_notify_all t r0 r Q :
  locks r = 0 -> r ≡ₚ TNotifyS :: r0 -> (forall r', r' ≡ₚ TNotifyA :: r0 -> Q () r') ->
  bwp t (do NotifyAll) r Q.
Proof.
  intros Hl Hr HQ. apply wp_do with (h := [TNotifyS]) (r0 := r0); [done|done|].
  intros s R HI. cbn. split; [by apply guar_locks|]. exists [TNotifyA].
  split_and!; [by repeat constructor| |apply HQ].
  destruct_inv HI. split_toks. inv_fields; [toks; intros _; by right|].
  intros w Hw. by rewrite waiting_wake_all in Hw.
Qed.

Lemma wp_notify_waiters t r0 r Q :
  locks r = 0 -> r ≡ₚ TNotifyA :: r0 -> (forall r', r' ≡ₚ r0 -> Q () r') ->
  bwp t (do NotifyWaiters) r Q.
Proof.
  intros Hl Hr HQ. apply wp_do with (h := [TNotifyA]) (r0 := r0); [done|done|].
  intros s R HI. cbn. split; [by apply guar_locks|]. exists [].
  split_and!; [by repeat constructor| |apply HQ].
  destruct_inv HI. split_toks. inv_fields; [toks; intros _; by right|].
  intros w Hw. by rewrite waiting_wake_all in Hw.
Qed.

(** ** Waiting for termination

    A waiter's number belongs to one thread.  Whoever is woken knows that the
    service has terminated: wake-ups are only owed by threads that saw it. *)

(** The forms a waiter's token takes. *)
Definition waiter_tok (w : nat) (tok : btok) : Prop :=
  tok = TWaiter w \/ tok = TParked w \/ tok = TChecking w \/ tok = TAsleep w.

Lemma w_waiter_self w tok : waiter_tok w tok -> w_waiter w tok = 1.
Proof. intros [->|[->|[->| ->]]]; cbn; by rewrite bool_decide_eq_true_2. Qed.

(** Changing the form of a waiter's token keeps the ownership of waiters. *)
Lemma waiter_fields s w tok tok' R :
  waiter_tok w tok -> waiter_tok w tok' ->
  (forall x, tally (w_waiter x) (tok :: R) <= 1 /\
    ((next_waiter s <= x)%nat -> tally (w_waiter x) (tok :: R) = 0)) ->
  forall x, tally (w_waiter x) (tok' :: R) <= 1 /\
    ((next_waiter s <= x)%nat -> tally (w_waiter x) (tok' :: R) = 0).
Proof.
  intros Ht Ht' Hw x. specialize (Hw x). rewrite !tally_cons in *.
  by destruct Ht as [->|[->|[->| ->]]], Ht' as [->|[->|[->| ->]]].
Qed.

(** Nobody else owns the waiter. *)
Lemma waiter_alone s w tok R :
  waiter_tok w tok -> Inv s (tok :: R) -> Forall (fun x => w_waiter w x = 0) R.
Proof.
  intros Ht HI. apply tally_zero_Forall; [apply w_waiter_nonneg|].
  destruct (inv_waiter _ _ HI w) as [Hle _]. rewrite tally_cons, (w_waiter_self w tok Ht) in Hle. lia.
Qed.

Lemma wp_new_waiter t r Q :
  (forall w r', r' ≡ₚ TWaiter w :: r -> Q w r') -> bwp t (do NewWaiter) r Q.
Proof.
  intros HQ. apply wp_do with (h := []) (r0 := r); [done|done|].
  intros s R HI. cbn. split; [by apply guar_locks|]. exists [TWaiter (next_waiter s)].
  split_and!; [by repeat constructor| |apply HQ].
  destruct_inv HI. inv_fields; [by toks|].
  intros x. destruct (Hwt x) as [Hle Hz]. rewrite tally_cons. cbn. unfold b2z. bd Hx.
  - subst. split; [rewrite Hz by done; lia|lia].
  - split; [lia|]. intros Hlt. rewrite Hz by lia. lia.
Qed.

(** Parking checks the predicate first; [TDone] records a positive check. *)
Lemma wp_park t w r0 r Q :
  r ≡ₚ TWaiter w :: r0 ->
  (forall (b : bool) r', r' ≡ₚ (if b then [TDone; TWaiter w] else [TParked w]) ++ r0 -> Q b r') ->
  bwp t (do (Park w terminated_predicate)) r Q.
Proof.
  intros Hr HQ. apply wp_do with (h := [TWaiter w]) (r0 := r0); [done|done|].
  intros s R HI. cbn. destruct (terminated_predicate _ _) eqn:Ht.
  { split; [done|]. exists [TDone; TWaiter w]. split_and!; [by repeat constructor| |apply (HQ true)].
    destruct_inv HI. split_toks. inv_fields. by toks. }
  split; [by apply guar_locks|]. exists [TParked w]. split_and!; [by repeat constructor| |apply (HQ false)].
  pose proof HI as HI'. destruct_inv HI. split_toks. inv_fields.
  - toks; cbn; rewrite waiting_enlist; [left; by rewrite bool_decide_eq_true_2|].
    intros [Hw|?]; [left; rewrite Hw; apply orb_true_r|by right].
  - intros w' _ Ht'. unfold terminated in Ht'. cbn in Ht'.
    change (terminated_predicate _ _) with (terminated_predicate (svc s) (task_counts (svc s))) in Ht'.
    congruence.
Qed.

(** Once terminated, parking is over at once. *)
Lemma wp_park_done t w r0 r Q :
  r ≡ₚ TDone :: TWaiter w :: r0 -> (forall r', r' ≡ₚ TDone :: TWaiter w :: r0 -> Q true r') ->
  bwp t (do (Park w terminated_predicate)) r Q.
Proof.
  intros Hr HQ. apply wp_do with (h := [TDone; TWaiter w]) (r0 := r0); [done|done|].
  intros s R HI. cbn. pose proof (inv_toks _ _ HI) as Ht. apply Forall_cons in Ht as [Ht _].
  unfold tok_ok, terminated in Ht. rewrite Ht. split; [done|]. exists [TDone; TWaiter w].
  split_and!; [by repeat constructor|done|apply HQ].
Qed.

(** A woken thread knows that the service has terminated. *)
Lemma inv_woken s w tok R :
  tok = TParked w /\ waiting (count_waiters (svc s)) w = false \/
  tok = TAsleep w /\ waiting (terminated_notify (svc s)) w = false ->
  Inv s (tok :: R) -> Inv s (TDone :: TWaiter w :: R).
Proof.
  intros Htok HI. destruct_inv HI. split_toks.
  assert (terminated s) as Ht by (destruct Htok as [[-> Hw]|[-> Hw]]; destruct Htok0; congruence).
  destruct Htok as [[-> Hw]|[-> Hw]]; inv_fields; by toks.
Qed.

Lemma wp_unpark t w Q :
  (forall r', r' ≡ₚ [TDone; TWaiter w] -> Q () r') -> bwp t (do (Unpark w)) [TParked w] Q.
Proof.
  intros HQ. apply wp_do with (h := [TParked w]) (r0 := []); [done|done|].
  intros s R HI. cbn. destruct (waiting _ _) eqn:Hw; [done|].
  split; [done|]. exists [TDone; TWaiter w].
  split_and!; [by repeat constructor|by apply (inv_woken s w (TParked w)); [left|]|apply HQ].
Qed.

(** Leaving a waiter set disturbs no other waiter. *)
Lemma inv_unparked s w R :
  Inv s (TParked w :: R) ->
  Inv (set_svc (set_count_waiters (delist (count_waiters (svc s)) w)) s) (TWaiter w :: R).
Proof.
  intros HI. pose proof (waiter_alone s w (TParked w) R ltac:(by right; left) HI) as Hno.
  destruct_inv HI. split_toks. inv_fields.
  - toks_excl Hno.
    match goal with H : _ \/ _ |- _ => destruct H as [Hw|?]; [left|by right] end.
    rewrite waiting_delist, Hw. match goal with H : b2z _ = 0 |- _ => revert H end.
    unfold b2z. bd Hx; [done|]. by rewrite bool_decide_eq_false_2 by congruence.
  - intros w' Hw' Ht. rewrite waiting_delist in Hw'.
    apply andb_true_iff in Hw' as [_ Hw']. specialize (Hws w' Hw' Ht). by norm_in Hws.
Qed.

Lemma wp_timed_unpark t w Q :
  (forall (b : bool) r', r' ≡ₚ (if b then [TDone; TWaiter w] else [TWaiter w]) -> Q b r') ->
  bwp t (do (TimedUnpark w)) [TParked w] Q.
Proof.
  intros HQ. apply wp_do with (h := [TParked w]) (r0 := []); [done|done|].
  intros s R HI. cbn. destruct (waiting _ _) eqn:Hw; [destruct (timed_out _ _); [|done]|].
  - split; [by apply guar_locks|]. exists [TWaiter w].
    split_and!; [by repeat constructor|by apply inv_unparked|apply (HQ false)].
  - split; [done|]. exists [TDone; TWaiter w].
    split_and!; [by repeat constructor|by apply (inv_woken s w (TParked w)); [left|]|apply (HQ true)].
Qed.

Lemma wp_enable t w r0 r Q :
  r ≡ₚ TWaiter w :: r0 -> (forall r', r' ≡ₚ TChecking w :: r0 -> Q () r') ->
  bwp t (do (Enable w)) r Q.
Proof.
  intros Hr HQ. apply wp_do with (h := [TWaiter w]) (r0 := r0); [done|done|].
  intros s R HI. cbn. split; [by apply guar_locks|]. exists [TChecking w].
  split_and!; [by repeat constructor| |apply HQ].
  destruct_inv HI. split_toks. inv_fields.
  - toks; cbn; rewrite waiting_enlist; [left; by rewrite bool_decide_eq_true_2|..];
      (intros [Hw|?]; [left; rewrite Hw; apply orb_true_r|by right]).
  - intros w' Hw' Ht. rewrite tally_cons. cbn. rewrite waiting_enlist in Hw'.
    pose proof (tally_nonneg (w_notify_a w') R (w_notify_a_nonneg w')).
    case_bool_decide; cbn in *; [lia|]. specialize (Hwa w' Hw' Ht). norm_in Hwa. lia.
Qed.

Lemma wp_await_notified t w Q :
  (forall r', r' ≡ₚ [TDone; TWaiter w] -> Q () r') -> bwp t (do (AwaitNotified w)) [TAsleep w] Q.
Proof.
  intros HQ. apply wp_do with (h := [TAsleep w]) (r0 := []); [done|done|].
  intros s R HI. cbn. destruct (waiting _ _) eqn:Hw; [done|].
  split; [done|]. exists [TDone; TWaiter w].
  split_and!; [by repeat constructor|by apply (inv_woken s w (TAsleep w)); [right|]|apply HQ].
Qed.

Lemma inv_drop_notified s w tok R :
  tok = TChecking w \/ tok = TAsleep w -> Inv s (tok :: R) ->
  Inv (set_svc (set_terminated_notify (delist (terminated_notify (svc s)) w)) s) (TWaiter w :: R).
Proof.
  intros Htok HI.
  assert (Forall (fun x => w_waiter w x = 0) R) as Hno
    by (apply (waiter_alone s w tok); [destruct Htok as [-> | ->]; unfold waiter_tok; tauto|done]).
  destruct_inv HI; split_toks. destruct Htok as [-> | ->]; inv_fields.
  all: match goal with
  | |- Forall _ _ => toks_excl Hno;
      match goal with H : _ \/ _ |- _ => destruct H as [Hw|?]; [left|by right] end;
      rewrite waiting_delist, Hw; match goal with H : b2z _ = 0 |- _ => revert H end;
      unfold b2z; (bd Hx; [done|]); by rewrite bool_decide_eq_false_2 by congruence
  | |- _ => intros w' Hw' Ht; rewrite waiting_delist in Hw'; case_bool_decide; [done|];
      specialize (Hwa w' Hw' Ht); norm_in Hwa; rewrite ?bool_decide_eq_false_2 in Hwa by done; cbn in *; lia
  end.
Qed.

Lemma wp_drop_notified t w tok r0 r Q :
  tok = TChecking w \/ tok = TAsleep w -> r ≡ₚ tok :: r0 ->
  (forall r', r' ≡ₚ TWaiter w :: r0 -> Q () r') ->
  bwp t (do (DropNotified w)) r Q.
Proof.
  intros Hh Hr HQ. apply wp_do with (h := [tok]) (r0 := r0); [done|done|].
  intros s R HI. cbn. split; [by apply guar_locks|]. exists [TWaiter w].
  split_and!; [by repeat constructor|by apply inv_drop_notified with tok|apply HQ].
Qed.

(** A waiter that decides to sleep while the service has not terminated. *)
Lemma inv_asleep s w R : ~ terminated s -> Inv s (TChecking w :: R) -> Inv s (TAsleep w :: R).
Proof. intros Hnot HI. destruct_inv HI. split_toks. inv_fields; [by toks|by wait_not Hnot]. Qed.

Lemma inv_closed s R : lifecycle_byte (svc s) <> 0 -> Inv s R -> Inv s (TClosed :: R).
Proof.
  intros Hb HI. destruct_inv HI. assert (0 < lifecycle_byte (svc s)) by (unfold stored in Hbyte; lia).
  inv_fields; by toks.
Qed.

(** A waiter that reads a running lifecycle may go to sleep; one that reads
    another remembers it. *)
Lemma wp_load_checking t w r0 r Q :
  r ≡ₚ TChecking w :: r0 ->
  (forall byte r', stored byte ->
    r' ≡ₚ (if byte =? 0 then [TAsleep w] else [TChecking w; TClosed]) ++ r0 -> Q byte r') ->
  bwp t (do LoadLifecycle) r Q.
Proof.
  intros Hr HQ. apply wp_do with (h := [TChecking w]) (r0 := r0); [done|done|].
  intros s R HI. cbn. split; [done|].
  exists (if lifecycle_byte (svc s) =? 0 then [TAsleep w] else [TChecking w; TClosed]).
  split_and!; [by destruct (_ =? _); repeat constructor| |intros r'; apply HQ; exact (inv_byte _ _ HI)].
  destruct (Z.eqb_spec (lifecycle_byte (svc s)) 0) as [Hb|Hb]; cbn [app].
  - apply inv_asleep; [|done]. by apply running_not_terminated.
  - apply (inv_closed s _ Hb) in HI. by apply (Inv_perm s (TClosed :: TChecking w :: R)); [constructor|].
Qed.

(** ... and so may one that finds unfinished tasks; one that finds none in a
    closed service has seen it terminated. *)
Lemma wp_read_empty_checking t w r0 r Q :
  r ≡ₚ TChecking w :: TClosed :: r0 ->
  (forall (b : bool) r', r' ≡ₚ (if b then [TChecking w; TDone] else [TAsleep w]) ++ r0 -> Q b r') ->
  bwp t (do (WithCounts (fun _ counts => Some (is_empty counts, counts)))) r Q.
Proof.
  intros Hr HQ. apply wp_do with (h := [TChecking w; TClosed]) (r0 := r0); [done|done|].
  intros s R HI. cbn. split; [by apply guar_counts; left|]. rewrite set_same_counts.
  exists (if is_empty (task_counts (svc s)) then [TChecking w; TDone] else [TAsleep w]).
  split_and!; [by destruct (is_empty _); repeat constructor| |apply HQ].
  pose proof HI as HI'. destruct_inv HI. split_toks. destruct (is_empty _) eqn:He; cbn [app].
  - assert (terminated s) as Ht.
    { unfold terminated, terminated_predicate. rewrite not_running_byte, He by done.
      cbn in Htok0. by rewrite (proj2 (Z.eqb_neq _ 0)) by lia. }
    inv_fields. by toks.
  - apply inv_asleep; [unfold terminated, terminated_predicate; rewrite He; by rewrite andb_false_r|].
    inv_fields. by toks.
Qed.

(** Reading a closed lifecycle, and an empty count in a closed service. *)
Lemma wp_load_closed t r Q :
  (forall byte r', stored byte -> r' ≡ₚ (if byte =? 0 then [] else [TClosed]) ++ r -> Q byte r') ->
  bwp t (do LoadLifecycle) r Q.
Proof.
  intros HQ. apply wp_do with (h := []) (r0 := r); [done|done|].
  intros s R HI. cbn. split; [done|]. exists (if lifecycle_byte (svc s) =? 0 then [] else [TClosed]).
  split_and!; [by destruct (_ =? _); repeat constructor| |intros r'; apply HQ; exact (inv_byte _ _ HI)].
  destruct (Z.eqb_spec (lifecycle_byte (svc s)) 0) as [Hb|Hb]; cbn [app]; [done|].
  by apply inv_closed.
Qed.

Lemma wp_read_done t (f : TokioExecutorServiceState -> TokioExecutorTaskCounts -> bool) r Q :
  (forall self counts, f self counts = true -> terminated_predicate self counts = true) ->
  (forall (b : bool) r', r' ≡ₚ (if b then [TDone] else []) ++ r -> Q b r') ->
  bwp t (do (WithCounts (fun self counts => Some (f self counts, counts)))) r Q.
Proof.
  intros Hf HQ. apply wp_do with (h := []) (r0 := r); [done|done|].
  intros s R HI. cbn. split; [by apply guar_counts; left|]. rewrite set_same_counts.
  exists (if f (svc s) (task_counts (svc s)) then [TDone] else []).
  split_and!; [by destruct (f _ _); repeat constructor| |apply HQ].
  destruct (f _ _) eqn:He; cbn [app]; [|done]. apply Hf in He.
  destruct_inv HI. inv_fields. by toks.
Qed.

Lemma wp_read_empty_closed t r0 r Q :
  r ≡ₚ TClosed :: r0 ->
  (forall (b : bool) r', r' ≡ₚ (if b then [TDone] else []) ++ TClosed :: r0 -> Q b r') ->
  bwp t (do (WithCounts (fun _ counts => Some (is_empty counts, counts)))) r Q.
Proof.
  intros Hr HQ. apply wp_do with (h := [TClosed]) (r0 := r0); [done|done|].
  intros s R HI. cbn. split; [by apply guar_counts; left|]. rewrite set_same_counts.
  exists ((if is_empty (task_counts (svc s)) then [TDone] else []) ++ [TClosed]). rewrite <- app_assoc.
  split_and!; [by destruct (is_empty _); repeat constructor| |intros r'; rewrite <- app_assoc; apply HQ].
  destruct (is_empty _) eqn:He; cbn [app]; [|done]. destruct_inv HI. split_toks.
  assert (terminated s) as Ht.
  { unfold terminated, terminated_predicate. rewrite not_running_byte, He by done.
    cbn in Htok. by rewrite (proj2 (Z.eqb_neq _ 0)) by lia. }
  inv_fields. by toks.
Qed.

(** Whoever knows the service terminated reads that it has. *)
Lemma wp_load_done t r0 r Q :
  r ≡ₚ TDone :: r0 ->
  (forall byte r', stored byte -> byte <> 0 -> r' ≡ₚ TDone :: r0 -> Q byte r') -> bwp t (do LoadLifecycle) r Q.
Proof.
  intros Hr HQ. apply wp_do with (h := [TDone]) (r0 := r0); [done|done|].
  intros s R HI. cbn. split; [done|]. exists [TDone]. split_and!; [by repeat constructor|done|].
  destruct_inv HI. split_toks. intros r' Hr'. apply HQ; [done| |done].
  intros Hz. by apply running_not_terminated in Hz.
Qed.

Lemma wp_read_empty_done t r0 r Q :
  r ≡ₚ TDone :: r0 -> (forall r', r' ≡ₚ TDone :: r0 -> Q true r') ->
  bwp t (do (WithCounts (fun _ counts => Some (is_empty counts, counts)))) r Q.
Proof.
  intros Hr HQ. apply wp_do with (h := [TDone]) (r0 := r0); [done|done|].
  intros s R HI. cbn. split; [by apply guar_counts; left|]. rewrite set_same_counts.
  exists [TDone]. split_and!; [by repeat constructor|done|].
  destruct_inv HI. split_toks. apply andb_true_iff in Htok as [_ Hempty]. rewrite Hempty. exact HQ.
Qed.

(** ** Answers handed to callers *)

Lemma wp_answer t bounded b r0 r Q :
  r ≡ₚ (if b : bool then [TDone] else []) ++ r0 -> (bounded = false -> b = true) ->
  (forall r', r' ≡ₚ r0 -> Q () r') -> bwp t (do (Answer bounded b)) r Q.
Proof.
  intros Hr Hb HQ. apply wp_do with (h := if b : bool then [TDone] else []) (r0 := r0); [done|done|].
  intros s R HI. cbn. split; [by apply guar_locks|]. exists [].
  split_and!; [constructor| |apply HQ]. destruct_inv HI. destruct b; cbn [app] in *; split_toks; inv_fields.
  - by constructor.
  - done.
  - constructor; [|done]. intros Hx. by apply Hb in Hx.
  - intros [Hx|Hx]%Exists_cons; [done|by apply Hpro].
Qed.
End BlockingActions.
