(* ===== verification/BlockingObjects.v ===== *)
(** * Proof rules for the per-task objects of the blocking service

    The abort-handle map and its lock, registration markers, trackers, one-shot
    channels and spawning. *)

From S2P Require Import Prelude Conc External LifecycleBits TaskCounts Registration BlockingState BlockingService BlockingInv BlockingActions.
From stdpp Require Import prelude list gmap.
#[local] Open Scope Z_scope.

(** Arithmetic on boolean weights. *)
Ltac bz := unfold b2z in *; repeat case_bool_decide; subst; try done; try lia.

Section BlockingObjects.
Context `{!BuildProfile, !LifecycleRepr, !Allocator, !Tokio, !Oneshot, !WaiterSet, !Watch, !TaskSpi}.
Context {Task : Type} `{!UserCode Task}.
#[local] Abbreviation World := (World (Task := Task)).
#[local] Abbreviation bact := (bact (Task := Task)).
#[local] Abbreviation bwp := (wp (act := bact) Inv Guar ok own blk pre).
Implicit Types (s : World) (r R : list btok).

(** ** The abort-handle lock *)

Lemma inv_lock_aborts s R t :
  abort_lock (svc s) = None -> Inv s R ->
  Inv (set_svc (set_abort_lock (Some t)) s) (TAborts t :: R).
Proof.
  intros Hl HI. destruct_inv HI. rewrite Hl in Habl. cbn in Habl.
  inv_fields. toks; cbn; intuition congruence.
Qed.

Lemma inv_unlock_aborts s R t m tok :
  tok = TAborts t \/ tok = TRegistering t m -> Inv s (tok :: R) ->
  Inv (set_svc (set_abort_lock None) s) R.
Proof.
  intros Htok HI. destruct_inv HI. split_toks.
  assert (Forall (fun x => w_abl x = 0) R) as Hno.
  { eapply alone; [apply w_abl_nonneg|exact Habl|by destruct Htok as [-> | ->]]. }
  assert (forall i, tally (w_registering i) R = 0) as Hnoreg.
  { intros i. apply tally_all_zero. eapply Forall_impl; [exact Hno|].
    intros []; cbn; unfold b2z; try done; case_bool_decide; lia. }
  destruct Htok as [-> | ->]; inv_fields.
  all: try by apply tally_all_zero.
  all: try (toks_excl Hno).
  all: intros i; try (rewrite Hnoreg; lia).
  specialize (Hun i). norm_in Hun. bz.
Qed.

Lemma wp_lock_aborts t r Q :
  tally w_abl r = 0 -> (forall r', r' ≡ₚ TAborts t :: r -> Q () r') ->
  bwp t (do LockAborts) r Q.
Proof.
  intros Hl HQ. apply wp_do with (h := []) (r0 := r); [done|done|].
  intros s R HI. cbn. destruct (abort_lock (svc s)) eqn:Hs; [by eexists|].
  split; [by apply guar_locks|]. exists [TAborts t].
  split_and!; [by repeat constructor|by apply inv_lock_aborts|apply HQ].
Qed.

Lemma wp_unlock_aborts t m tok r0 r Q :
  tok = TAborts t \/ tok = TRegistering t m -> r ≡ₚ tok :: r0 ->
  (forall r', r' ≡ₚ r0 -> Q () r') ->
  bwp t (do UnlockAborts) r Q.
Proof.
  intros Ht Hr HQ. apply wp_do with (h := [tok]) (r0 := r0); [done|done|].
  intros s R HI. cbn. split; [by apply guar_locks|]. exists [].
  split_and!; [constructor|by apply inv_unlock_aborts with t m tok|apply HQ].
Qed.

(** ** Registration markers *)

(** Under the lock, an unfinished marker may be registered. *)
Lemma wp_load_finished t m r0 r Q :
  r ≡ₚ TAborts t :: TUnreg m :: r0 ->
  (forall (b : bool) r', r' ≡ₚ (if b then TAborts t else TRegistering t m) :: r0 -> Q b r') ->
  bwp t (registration_is_finished m) r Q.
Proof.
  intros Hr HQ. apply wp_do with (h := [TAborts t; TUnreg m]) (r0 := r0); [done|done|].
  intros s R HI. cbn. split; [done|].
  exists [if default true (registrations s !! m) then TAborts t else TRegistering t m].
  split_and!; [by destruct (default _ _); repeat constructor| |apply HQ].
  destruct_inv HI. split_toks. cbn in Htok, Htok0. destruct Htok0 as [Hno Hlt].
  destruct (registrations s !! m) as [[]|] eqn:Hm; cbn [default from_option].
  - inv_fields; [by toks|]. intros i. specialize (Hun i). norm_in Hun. bz.
  - inv_fields; [by toks|]. intros i Hi Hf. norm_in Hi. unfold b2z in Hi. case_bool_decide; [congruence|].
    specialize (Hreg i). norm_in Hreg. apply Hreg; [lia|done].
  - apply lookup_ge_None in Hm. lia.
Qed.

Lemma wp_registration_new t r Q :
  (forall m r', r' ≡ₚ TUnreg m :: r -> Q m r') ->
  bwp t registration_new r Q.
Proof.
  intros HQ. apply wp_do with (h := []) (r0 := r); [done|done|].
  intros s R HI. cbn. split; [by apply guar_locks|].
  exists [TUnreg (length (registrations s))]. split_and!; [by repeat constructor| |apply HQ].
  destruct_inv HI.
  assert (forall i b, registrations s !! i = Some b -> (registrations s ++ [false]) !! i = Some b)
    as Hgrow by (intros i b Hi; by apply lookup_app_l_Some).
  assert (forall i, (i < length (registrations s))%nat ->
    (registrations s ++ [false]) !! i = registrations s !! i) as Hold
    by (intros i Hi; by apply lookup_app_l).
  inv_fields.
  - apply Forall_cons. split.
    + cbn. split; [|rewrite length_app; cbn; lia].
      destruct (abort_handles (svc s) !! _) as [e|] eqn:He; [|done]. exfalso.
      specialize (Hent (key (length (registrations s)))). unfold entry_inv in Hent.
      rewrite He in Hent. destruct Hent as (Hk & _ & tr & x & Hx & Hm).
      specialize (Htr tr). unfold tracker_inv in Htr. rewrite Hx in Htr.
      destruct Htr as (_ & _ & _ & Hlt & _). unfold key in Hk. apply (inj as_ptr) in Hk. lia.
    + toks; cbn; rewrite ?length_app; intuition (auto; lia).
  - intros tr. specialize (Htr tr). unfold tracker_inv, guards in *. cbn.
    norm_in Htr. destruct (trackers s !! tr) as [x|]; [|done].
    destruct Htr as (? & ? & ? & ? & ?). rewrite length_app, Hold by done.
    split_and!; try done; cbn; lia.
  - intros k. specialize (Hent k). unfold entry_inv in *. cbn. norm_in Hent.
    destruct (abort_handles (svc s) !! k) as [e|]; [|done].
    destruct Hent as (Hk & Hf & tr & x & Hx & Hm). split_and!; [done| |by eauto].
    rewrite Hold; [done|]. specialize (Htr tr). unfold tracker_inv in Htr.
    rewrite Hx in Htr. rewrite <- Hm. apply Htr.
  - intros i. specialize (Hun i). rewrite tally_cons. cbn. unfold b2z. bd Hi; [|lia].
    enough (tally (w_unreg i) R = 0) by lia. apply tally_all_zero.
    eapply Forall_impl; [exact Htoks|]. intros []; cbn; try done; unfold b2z;
      bd Hx; try done; intros; lia.
  - intros i Hi Hf. norm_in Hi.
    destruct (decide (i < length (registrations s))%nat) as [Hlt|Hge].
    + rewrite Hold in Hf by done. specialize (Hreg i ltac:(lia) Hf). lia.
    + rewrite lookup_app_r in Hf by lia.
      destruct (i - length (registrations s))%nat as [|[]]; done.
Qed.
(** Finishing a marker announces the removal of its entry; whoever knows the
    tracker of the marker knows the marker finished from then on. *)
Definition fin_toks (known : bool) (tr m : nat) : list btok :=
  if known then [TKnown tr m] else [].

Lemma known_marker s R tr m :
  Inv s R -> tok_ok s (TKnown tr m) -> (m < length (registrations s))%nat.
Proof.
  intros HI [st Hx]. pose proof (inv_tracker _ _ HI tr) as Htr. unfold tracker_inv in Htr.
  rewrite Hx in Htr. apply Htr.
Qed.

Lemma inv_store_finished s R known tr m :
  Inv s (fin_toks known tr m ++ R) ->
  Inv (set_registrations (<[m := true]> (registrations s)) s)
    ((if known then [TKnown tr m; TFin m] else []) ++ TRemoving m :: R).
Proof.
  intros HI.
  assert (known = true -> (m < length (registrations s))%nat) as Hlt.
  { intros ->. eapply (known_marker s _ tr); [exact HI|]. destruct_inv HI. by apply Forall_cons in Htoks as [? _]. }
  assert (forall i, <[m := true]> (registrations s) !! i = Some false ->
    registrations s !! i = Some false) as Hfalse by (intros i; apply finish_false).
  assert (forall i, <[m := true]> (registrations s) !! i = Some true ->
    m = i \/ registrations s !! i = Some true) as Htrue by (intros i; apply finish_true).
  assert (forall i, registrations s !! i = Some true ->
    <[m := true]> (registrations s) !! i = Some true) as Hkeep by (intros i; apply finish_keeps).
  destruct_inv HI. destruct known; cbn [fin_toks app] in *; split_toks; inv_fields.
  all: match goal with
  | |- Forall _ _ => toks; cbn; rewrite ?length_insert; auto
  | |- forall tr, tracker_inv _ _ tr =>
      intros i; specialize (Htr i); unfold tracker_inv, guards in *; cbn; norm_in Htr;
      destruct (trackers s !! i); [|done]; rewrite length_insert;
      destruct Htr as (? & ? & ? & ? & ?); split_and!; auto
  | |- forall k, entry_inv _ _ k =>
      intros i; specialize (Hent i); unfold entry_inv in *; cbn; norm_in Hent;
      destruct (abort_handles (svc s) !! i) as [e|]; [|done];
      destruct Hent as (Hk & Hf & Hex); split_and!; [done| |done];
      intros [Hi|Hi]%Htrue; [|specialize (Hf Hi)]
  | _ => intros i Hi [Hf|Hf]%Htrue; specialize (Hreg i); norm_in Hi; norm_in Hreg;
      [|specialize (Hreg ltac:(lia) Hf)]
  end.
  all: try match goal with H : ?a = _ |- context [TRemoving ?a] => rewrite <- H end.
  all: rewrite ?tally_cons; cbn [w_removing]; unfold b2z; try bd Hx; try done.
  all: try match goal with |- context [tally (w_removing ?i) ?L] =>
    pose proof (tally_nonneg (w_removing i) L (w_removing_nonneg i)) end; try lia.
  by apply list_lookup_insert_eq, Hlt.
Qed.

Lemma wp_registration_finish t known tr m r0 r Q :
  r ≡ₚ fin_toks known tr m ++ r0 ->
  (forall r', r' ≡ₚ (if known then [TKnown tr m; TFin m] else []) ++ TRemoving m :: r0 -> Q () r') ->
  bwp t (registration_finish m) r Q.
Proof.
  intros Hr HQ. apply wp_do with (h := fin_toks known tr m) (r0 := r0); [done|done|].
  intros s R HI. cbn. split; [by apply guar_locks|].
  exists ((if known then [TKnown tr m; TFin m] else []) ++ [TRemoving m]).
  rewrite <- app_assoc. split_and!; [by destruct known; repeat constructor| |].
  - by apply (inv_store_finished s R known tr m).
  - intros r'. rewrite <- app_assoc. apply HQ.
Qed.

(** ** The abort-handle map *)

Lemma w_abl_registering R : Forall (fun x => w_abl x = 0) R ->
  forall i, tally (w_registering i) R = 0.
Proof.
  intros Hno i. apply tally_all_zero. eapply Forall_impl; [exact Hno|].
  intros []; cbn; unfold b2z; try done; bd Hx; lia.
Qed.

(** The owners that hooks, entries and closures hold. *)
Definition hook_toks (hook : CancelHook) : list btok :=
  match hook with CancelUnstartedSlot sl _ => [TOwner sl] | FinishQueuedOnce _ => [] end.
Definition entry_toks (entry : option TrackedAbortHandle) : list btok :=
  match entry with Some tracked => hook_toks (ta_cancel tracked) | None => [] end.
Definition handles_toks (handles : list (Z * TrackedAbortHandle)) : list btok :=
  concat (map (fun entry => hook_toks (ta_cancel (snd entry))) handles).
Definition closure_toks (closure : BlockingTask (Task := Task)) : list btok :=
  match closure with CallableClosure sl _ => [TOwner sl] | RunnableClosure _ => [] end.

Definition is_owner (tok : btok) : Prop := match tok with TOwner _ => True | _ => False end.

Lemma hook_toks_owners hook : Forall is_owner (hook_toks hook).
Proof. destruct hook; by repeat constructor. Qed.
Lemma closure_toks_owners closure : Forall is_owner (closure_toks closure).
Proof. destruct closure; by repeat constructor. Qed.
Lemma entry_toks_owners entry : Forall is_owner (entry_toks entry).
Proof. destruct entry; [apply hook_toks_owners|constructor]. Qed.
Lemma handles_toks_owners handles : Forall is_owner (handles_toks handles).
Proof.
  induction handles as [|x l IH]; [constructor|]. apply Forall_app. split; [apply hook_toks_owners|exact IH].
Qed.

(** Owners weigh nothing but ownership. *)
Lemma owners_weightless (w : btok -> Z) L :
  (forall sl, w (TOwner sl) = 0) -> Forall is_owner L -> tally w L = 0.
Proof. intros Hw HL. apply tally_all_zero. eapply Forall_impl; [exact HL|]. by intros []. Qed.
Lemma owners_phases sl L : Forall is_owner L -> phases sl L = [].
Proof. induction 1 as [|x L Hx _ IH]; [done|]. by destruct x. Qed.
Lemma owners_locks L r : Forall is_owner L -> locks (L ++ r) = locks r.
Proof. intros HL. unfold locks. rewrite !tally_app, !(owners_weightless _ L) by done. lia. Qed.
Lemma owners_own t L : Forall is_owner L -> Forall (own t) L.
Proof. intros HL. eapply Forall_impl; [exact HL|]. by intros []. Qed.
Lemma owners_tok_ok s L : Forall is_owner L -> Forall (tok_ok s) L.
Proof. intros HL. eapply Forall_impl; [exact HL|]. by intros []. Qed.

Lemma tally_hook_toks sl hook : tally (w_owner sl) (hook_toks hook) = w_hook sl hook.
Proof. destruct hook; [done|]. apply Z.add_0_r. Qed.
Lemma tally_closure_toks sl closure : tally (w_owner sl) (closure_toks closure) = w_closure sl closure.
Proof. destruct closure; [done|]. apply Z.add_0_r. Qed.
Lemma tally_handles_toks sl handles :
  tally (w_owner sl) (handles_toks handles) =
  tally (fun entry : Z * TrackedAbortHandle => w_hook sl (ta_cancel (snd entry))) handles.
Proof.
  induction handles as [|x l IH]; [done|]. unfold handles_toks in *. cbn. by rewrite tally_app, tally_hook_toks, IH.
Qed.

Lemma hooks_insert sl k e handles :
  handles !! k = None -> hooks sl (<[k := e]> handles) = w_hook sl (ta_cancel e) + hooks sl handles.
Proof. intros Hk. unfold hooks. by rewrite (map_to_list_insert _ _ _ Hk). Qed.

Lemma hooks_delete sl k handles :
  hooks sl (delete k handles) + tally (w_owner sl) (entry_toks (handles !! k)) = hooks sl handles.
Proof.
  destruct (handles !! k) as [e|] eqn:Hk; cbn [entry_toks].
  - rewrite <- (insert_delete_id handles k e Hk) at 2.
    rewrite hooks_insert by apply lookup_delete_eq. rewrite tally_hook_toks. lia.
  - rewrite delete_id by done. rewrite tally_nil. lia.
Qed.

(** Ownership moves between threads, channels and the map. *)
Lemma slot_moves s s' r r' :
  (forall sl, slot_inv s r sl) -> endpoints s' = endpoints s /\ calls s' = calls s ->
  (forall sl, phases sl r' = phases sl r) ->
  (forall sl, owners s' r' sl = owners s r sl) -> forall sl, slot_inv s' r' sl.
Proof.
  intros Hs [He Hc] Hr Ho sl. specialize (Hs sl). unfold slot_inv, results_of in *. by rewrite He, Hc, Hr, Ho.
Qed.

Lemma base_weights s r r' :
  Forall (tok_ok s) r' ->
  (forall w : btok -> Z, (forall sl ph, w (TOwner sl) = 0 /\ w (TRunner sl ph) = 0) -> tally w r' = tally w r) ->
  Base s r -> Base s r'.
Proof.
  intros Ht E HB. destruct_base HB.
  assert (forall tr, guards s r' tr = guards s r tr) as Eg by (intros tr; unfold guards; by rewrite E).
  split; rewrite ?E by done; try done.
  - intros x. specialize (Htr x). unfold tracker_inv in *. by rewrite Eg.
  - intros x. specialize (Hch x). unfold channel_inv in *. by rewrite !E.
  - intros x. specialize (Hent x). unfold entry_inv in *.
    destruct (abort_handles (svc s) !! x); by rewrite ?E.
  - intros x. by rewrite E.
  - intros x. rewrite !E by done. apply Hreg.
  - intros x. rewrite !E by done. apply Hwa.
  - intros x. by rewrite E.
Qed.

Lemma base_owners s L r r' : Forall is_owner L -> r' ≡ₚ L ++ r -> Base s r' <-> Base s r.
Proof.
  intros HL ->. assert (forall w : btok -> Z, (forall sl, w (TOwner sl) = 0) -> tally w (L ++ r) = tally w r) as E.
  { intros w Hw. rewrite tally_app, (owners_weightless w L) by done. lia. }
  split; intros HB; pose proof (inv_toks _ _ HB) as Ht.
  - apply base_weights with (L ++ r); [by apply Forall_app in Ht as [_ ?]|by intros w Hw; rewrite E by (intros i; apply (Hw i Taken))|done].
  - apply base_weights with r; [apply Forall_app; split; [by apply owners_tok_ok|done]|intros w Hw; apply E; intros i; apply (Hw i Taken)|done].
Qed.

Lemma inv_insert_abort s R t tr m h hook :
  Inv s (TRegistering t m :: TKnown tr m :: hook_toks hook ++ R) ->
  Inv (set_svc (set_abort_handles (<[key m := mkTracked m h hook]> (abort_handles (svc s)))) s)
    (TAborts t :: R).
Proof.
  intros HI. pose proof (inv_toks _ _ HI) as Ht. apply Forall_cons in Ht as [(_ & Hfree & _) _].
  split.
  2:{ apply (slot_moves s _ _ _ (inv_slot _ _ HI)); [done|..]; intros sl; [cbn|unfold owners; rewrite !tally_cons, tally_app; cbn].
      - by rewrite phases_app, (owners_phases _ (hook_toks hook)) by apply hook_toks_owners.
      - rewrite tally_hook_toks, hooks_insert by done. cbn. lia. }
  assert (Base s (TRegistering t m :: TKnown tr m :: R)) as HB.
  { apply (base_owners s (hook_toks hook) _ (TRegistering t m :: TKnown tr m :: hook_toks hook ++ R));
      [apply hook_toks_owners|solve_perm|exact HI]. }
  clear HI. destruct_base HB. split_toks. destruct Htok as (Hl & Hno & Hlt), Htok0 as [st Hx].
  assert (Forall (fun x => w_unreg m x = 0) R) as Halone.
  { apply tally_zero_Forall; [auto with exec|]. specialize (Hun m). norm_in Hun.
    revert Hun. unfold b2z. bd Hm; [lia|done]. }
  assert (Forall (fun x => w_abl x = 0) R) as Hno'.
  { eapply alone; [apply w_abl_nonneg|exact Habl|done]. }
  base_fields.
  - toks_excl Halone;
      match goal with H : b2z _ = 0 |- _ => revert H; unfold b2z; bd Hm; [done|intros _] end;
      rewrite lookup_insert_ne; try done; intros Hk; apply (inj as_ptr) in Hk; congruence.
  - intros k. unfold entry_inv. cbn. destruct (decide (k = key m)) as [->|Hne].
    + rewrite lookup_insert_eq. cbn. split_and!; [done| |by eauto].
      intros Hf. specialize (Hreg m). norm_in Hreg. apply Hreg; [|done].
      pose proof (tally_nonneg (w_registering m) R (w_registering_nonneg m)).
      unfold b2z. bd Hm; [lia|done].
    + rewrite lookup_insert_ne by done. specialize (Hent k). unfold entry_inv in Hent. norm_in Hent.
      destruct (abort_handles (svc s) !! k); [|done]. done.
  - intros i. specialize (Hun i). norm_in Hun. revert Hun. unfold b2z. bd Hm; lia.
  - intros i Hi Hf. norm_in Hi. rewrite w_abl_registering in Hi by done. lia.
Qed.

Lemma wp_insert_abort t tr m h hook r0 r Q :
  r ≡ₚ TRegistering t m :: TKnown tr m :: hook_toks hook ++ r0 ->
  (forall r', r' ≡ₚ TAborts t :: r0 -> Q None r') ->
  bwp t (do (InsertAbort (key m) (mkTracked m h hook))) r Q.
Proof.
  intros Hr HQ. apply wp_do with (h := TRegistering t m :: TKnown tr m :: hook_toks hook) (r0 := r0); [done|done|].
  intros s R HI. cbn. split; [by apply guar_locks|]. exists [TAborts t].
  split_and!; [by repeat constructor|by apply inv_insert_abort with tr|].
  pose proof (inv_toks _ _ HI) as Ht. apply Forall_cons in Ht as [(_ & -> & _) _]. apply HQ.
Qed.

Lemma inv_remove_abort s R t m :
  Inv s (TRemoving m :: TAborts t :: R) ->
  Inv (set_svc (set_abort_handles (delete (key m) (abort_handles (svc s)))) s)
    (entry_toks (abort_handles (svc s) !! key m) ++ TAborts t :: R).
Proof.
  intros HI. split.
  2:{ apply (slot_moves s _ _ _ (inv_slot _ _ HI)); [done|..]; intros sl; [|unfold owners; rewrite tally_app, !tally_cons; cbn].
      - by rewrite phases_app, (owners_phases _ (entry_toks _)) by apply entry_toks_owners.
      - pose proof (hooks_delete sl (key m) (abort_handles (svc s))). lia. }
  eapply base_owners; [apply entry_toks_owners|done|].
  apply inv_base in HI as HB. clear HI. destruct_base HB. split_toks.
  assert (Forall (fun x => w_abl x = 0) R) as Hno'.
  { eapply (alone _ (TAborts t)); [apply w_abl_nonneg|exact Habl|done]. }
  base_fields.
  - toks; cbn; rewrite ?lookup_delete_None; intuition auto.
  - intros k. unfold entry_inv. cbn. specialize (Hent k). unfold entry_inv in Hent.
    destruct (decide (k = key m)) as [->|Hne]; [by rewrite lookup_delete_eq|].
    rewrite lookup_delete_ne by done. destruct (abort_handles (svc s) !! k) as [e|]; [|done].
    destruct Hent as (-> & Hf & Hex). split_and!; [done| |done]. intros Hm. specialize (Hf Hm).
    norm_in Hf. revert Hf. unfold b2z. bd Hx; [congruence|lia].
  - intros i Hi Hf. norm_in Hi. rewrite w_abl_registering in Hi by done. lia.
Qed.

Lemma wp_remove_abort t m r0 r Q :
  r ≡ₚ TRemoving m :: TAborts t :: r0 ->
  (forall removed r', r' ≡ₚ entry_toks removed ++ TAborts t :: r0 -> Q removed r') ->
  bwp t (do (RemoveAbort (key m))) r Q.
Proof.
  intros Hr HQ. apply wp_do with (h := [TRemoving m; TAborts t]) (r0 := r0); [done|done|].
  intros s R HI. cbn. split; [by apply guar_locks|].
  exists (entry_toks (abort_handles (svc s) !! key m) ++ [TAborts t]). rewrite <- app_assoc. split_and!.
  - apply Forall_app. split; [apply owners_own, entry_toks_owners|by repeat constructor].
  - by apply inv_remove_abort.
  - intros r'. rewrite <- app_assoc. apply HQ.
Qed.

Lemma wp_take_aborts t r Q :
  (forall handles r', r' ≡ₚ handles_toks handles ++ r -> Q handles r') -> bwp t (do TakeAborts) r Q.
Proof.
  intros HQ. apply wp_do with (h := []) (r0 := r); [done|done|].
  intros s R HI. cbn. split; [by apply guar_locks|].
  exists (handles_toks (map_to_list (abort_handles (svc s)))).
  split_and!; [apply owners_own, handles_toks_owners| |apply HQ]. split.
  2:{ apply (slot_moves s _ _ _ (inv_slot _ _ HI)); [done|..]; intros sl; [|unfold owners; rewrite tally_app; cbn].
      - by rewrite phases_app, (owners_phases _ (handles_toks _)) by apply handles_toks_owners.
      - rewrite tally_handles_toks. unfold hooks. rewrite map_to_list_empty, tally_nil. lia. }
  eapply base_owners; [apply handles_toks_owners|done|].
  apply inv_base in HI as HB. clear HI. destruct_base HB. base_fields.
  - toks; cbn; rewrite ?lookup_empty; intuition auto.
  - intros k. unfold entry_inv. cbn. by rewrite lookup_empty.
Qed.

(** ** Trackers *)

(** Growing the list of trackers keeps every known one. *)
Lemma inv_new_tracker s R t m :
  let g := length (trackers s) in
  Inv s (TUnreg m :: TReserved :: TAdmit t :: R) ->
  Inv (set_trackers (trackers s ++ [mkTracker m TASK_STATE_QUEUED]) s)
    (TGuard g :: TKnown g m :: TUnreg m :: TAdmit t :: R).
Proof.
  intros g HI.
  assert (forall i x, trackers s !! i = Some x ->
    (trackers s ++ [mkTracker m TASK_STATE_QUEUED]) !! i = Some x) as Hgrow
    by (intros i x Hi; by apply lookup_app_l_Some).
  assert ((trackers s ++ [mkTracker m TASK_STATE_QUEUED]) !! g = Some (mkTracker m TASK_STATE_QUEUED))
    as Hnew by (by rewrite lookup_app_r, Nat.sub_diag by done).
  destruct_inv HI. split_toks. inv_fields.
  - toks; cbn; try done.
    + by eexists.
    + by eexists.
    + intros [st Hx]. eauto.
    + intros (x & Hx & ?). eauto.
    + intros (x & Hx & ?). eauto.
    + intros (x & Hx & ?). eauto.
  - norm_in Hque. rewrite tally_app, tally_cons, tally_nil.
    change (w_tracker_queued (mkTracker m TASK_STATE_QUEUED)) with 1. lia.
  - intros i. specialize (Htr i). unfold tracker_inv, guards in *. cbn. norm_in Htr.
    destruct (decide (i = g)) as [->|Hne].
    + rewrite Hnew. rewrite lookup_ge_None_2 in Htr by done. cbn.
      destruct Htok as [_ Hlt]. unfold b2z. bd Hg; [|done].
      split_and!; try done; lia.
    + unfold b2z. bd Hg; [congruence|].
      destruct (trackers s !! i) as [x|] eqn:Hi; [by rewrite (Hgrow i x Hi)|].
      rewrite lookup_ge_None_2; [done|]. rewrite length_app. cbn. apply lookup_ge_None_1 in Hi. lia.
  - intros i. specialize (Hch i). unfold channel_inv in *. cbn. norm_in Hch.
    destruct (channels s !! i) as [c|]; [|done]. destruct Hch as (? & ? & ? & Hc).
    split_and!; try done. intros task tr Htk. destruct (Hc task tr Htk) as (? & x & Hx & ?).
    split; [done|]. eauto.
  - intros k. specialize (Hent k). unfold entry_inv in *. cbn. norm_in Hent.
    destruct (abort_handles (svc s) !! k) as [e|]; [|done].
    destruct Hent as (? & ? & tr & x & Hx & ?). split_and!; try done. eauto.
Qed.

Lemma wp_tracker_new t m r0 r Q :
  r ≡ₚ TUnreg m :: TReserved :: TAdmit t :: r0 ->
  (forall g r', r' ≡ₚ TGuard g :: TKnown g m :: TUnreg m :: TAdmit t :: r0 -> Q g r') ->
  bwp t (tracker_new m) r Q.
Proof.
  intros Hr HQ. apply wp_do with (h := [TUnreg m; TReserved; TAdmit t]) (r0 := r0); [done|done|].
  intros s R HI. cbn. split.
  - pose proof (inv_toks _ _ HI) as Ht. cbn in Ht. apply Forall_cons in Ht as [_ Ht].
    apply Forall_cons in Ht as [_ [[_ Hb] _]%Forall_cons].
    split; [by left|done|lia| |by apply results_final_same]. intros tr x Hx. exists x.
    split_and!; [by apply lookup_app_l_Some|done|lia].
  - exists (let g := length (trackers s) in [TGuard g; TKnown g m; TUnreg m; TAdmit t]).
    split_and!; [by repeat constructor|by apply inv_new_tracker|apply HQ].
Qed.

(** The tokens that own the guard of [tr]. *)
Definition guard_of (tr : nat) (tok : btok) : Prop := tok = TGuard tr \/ tok = TRunning tr.

Lemma guard_of_known s R tr tok :
  guard_of tr tok -> Inv s (tok :: R) -> exists x, trackers s !! tr = Some x.
Proof.
  intros Hg HI. pose proof (inv_toks _ _ HI) as Ht. apply Forall_cons in Ht as [Ht _].
  destruct Hg as [-> | ->]; destruct Ht as (x & Hx & _); eauto.
Qed.

Lemma inv_known s R tr m st :
  trackers s !! tr = Some (mkTracker m st) -> Inv s R -> Inv s (TKnown tr m :: R).
Proof.
  intros Hx HI. destruct_inv HI. inv_fields. constructor; [by exists st|done].
Qed.

(** The owner of a guard learns the marker of its tracker. *)
Lemma wp_read_marker t tr tok r0 r Q :
  guard_of tr tok -> r ≡ₚ tok :: r0 ->
  (forall m r', r' ≡ₚ tok :: TKnown tr m :: r0 -> Q m r') ->
  bwp t (do (ReadMarker tr)) r Q.
Proof.
  intros Hg Hr HQ. apply wp_do with (h := [tok]) (r0 := r0); [done|done|].
  intros s R HI. cbn. split; [done|]. destruct (guard_of_known _ _ _ _ Hg HI) as [[m st] Hx].
  exists [tok; TKnown tr m]. unfold tracker_at. rewrite Hx. cbn. split_and!.
  - destruct Hg as [-> | ->]; by repeat constructor.
  - apply (Inv_perm s (TKnown tr m :: tok :: R)); [constructor|]. by apply inv_known with st.
  - apply HQ.
Qed.

(** *** Changing the state of a tracker *)

Lemma trackers_set_task_state s tr x v :
  trackers s !! tr = Some x ->
  trackers (set_task_state tr v s) = <[tr := mkTracker (tr_marker x) v]> (trackers s).
Proof. intros Hx. unfold set_task_state, tracker_at. by rewrite Hx. Qed.

(** Every other tracker stays, and so does the marker of this one. *)
Lemma lookup_set_task_state s tr x v i y :
  trackers s !! tr = Some x -> trackers s !! i = Some y ->
  trackers (set_task_state tr v s) !! i =
    Some (if decide (tr = i) then mkTracker (tr_marker x) v else y).
Proof.
  intros Hx Hy. rewrite (trackers_set_task_state s tr x v Hx).
  pose proof (lookup_lt_Some _ _ _ Hx).
  dec; [subst; by apply list_lookup_insert_eq|by rewrite list_lookup_insert_ne].
Qed.

Lemma toks_set_task_state s R tr x v :
  trackers s !! tr = Some x -> Forall (tok_ok s) R ->
  Forall (fun tok => w_guard tr tok = 0) R \/
    (task_state x <> TASK_STATE_RUNNING /\ v <> TASK_STATE_RUNNING) ->
  Forall (tok_ok (set_task_state tr v s)) R.
Proof.
  intros Hx HR Hor. rewrite Forall_forall in HR |- *. intros tok Htok. specialize (HR tok Htok).
  assert (w_guard tr tok = 0 \/ (task_state x <> TASK_STATE_RUNNING /\ v <> TASK_STATE_RUNNING)) as Ht.
  { destruct Hor as [Hno|?]; [|auto]. left. rewrite Forall_forall in Hno. by apply Hno. }
  destruct tok; try exact HR; cbn [tok_ok w_guard] in *.
  - destruct HR as [st Hy]. rewrite (lookup_set_task_state s tr x v _ _ Hx Hy).
    dec; [|by eexists]. subst. simplify_eq. by eexists.
  - destruct HR as (y & Hy & Hs). rewrite (lookup_set_task_state s tr x v _ _ Hx Hy). eexists.
    split; [done|]. dec; [|done]. destruct Ht as [Ht|[_ Ht]]; [|done].
    unfold b2z in Ht. rewrite bool_decide_eq_true_2 in Ht; done.
  - destruct HR as (y & Hy & Hs). rewrite (lookup_set_task_state s tr x v _ _ Hx Hy). eexists.
    split; [done|]. dec; [|done]. exfalso. destruct Ht as [Ht|[Ht _]]; [|congruence].
    unfold b2z in Ht. rewrite bool_decide_eq_true_2 in Ht; done.
  - destruct HR as (y & Hy & Hs). rewrite (lookup_set_task_state s tr x v _ _ Hx Hy). eexists.
    split; [done|]. dec; [|done]. exfalso. destruct Ht as [Ht|[Ht _]]; [|congruence].
    unfold b2z in Ht. rewrite bool_decide_eq_true_2 in Ht; done.
Qed.

Lemma w_channel_nonneg tr c : 0 <= w_channel (Task := Task) tr c.
Proof. unfold w_channel, b2z. destruct (content c) as [[? i]|]; [bd Hi|]; lia. Qed.

(** When a thread owns the guard of [tr], nobody and no channel else does. *)
Lemma guard_alone s R tr tok :
  w_guard tr tok = 1 -> Inv s (tok :: R) ->
  Forall (fun x => w_guard tr x = 0) R /\ tally (w_channel tr) (channels s) = 0.
Proof.
  intros Hw HI. pose proof (inv_tracker _ _ HI tr) as Htr. unfold tracker_inv, guards in Htr.
  rewrite tally_cons, Hw in Htr.
  pose proof (tally_nonneg (w_guard tr) R (w_guard_nonneg tr)).
  pose proof (tally_nonneg (w_channel tr) (channels s) (w_channel_nonneg tr)).
  destruct (trackers s !! tr); [destruct Htr as [Hle _]|lia].
  split; [apply tally_zero_Forall; [apply w_guard_nonneg|lia]|lia].
Qed.

Lemma channel_free s tr ch c task i :
  tally (w_channel tr) (channels s) = 0 -> channels s !! ch = Some c ->
  content c = Some (task, i) -> i <> tr.
Proof.
  intros Hz Hc Hcon ->.
  pose proof (tally_lookup_le _ _ _ _ (w_channel_nonneg tr) Hc) as Hle.
  assert (w_channel tr c = 1); [|lia]. unfold w_channel. rewrite Hcon. unfold b2z.
  by rewrite bool_decide_eq_true_2.
Qed.

Lemma channel_set_task_state s r r' tr x v ch :
  trackers s !! tr = Some x -> channel_inv s r ch ->
  (forall i, tally (w_sender i) r' = tally (w_sender i) r) ->
  (forall i, tally (w_receiver i) r' = tally (w_receiver i) r) ->
  tally (w_channel tr) (channels s) = 0 \/ v <> TASK_STATE_RUNNING ->
  channel_inv (set_task_state tr v s) r' ch.
Proof.
  intros Hx Hch Hs Hr Hor. unfold channel_inv in *. rewrite Hs, Hr.
  change (channels (set_task_state tr v s)) with (channels s).
  destruct (channels s !! ch) as [c|] eqn:Hc; [|done].
  destruct Hch as (? & ? & ? & Hcon). split_and!; try done. intros task i Hti.
  destruct (Hcon task i Hti) as (? & y & Hy & Hne). split; [done|].
  rewrite (lookup_set_task_state s tr x v i y Hx Hy). eexists. split; [done|].
  dec; [|done]. cbn. destruct Hor as [Hz|]; [|done].
  by destruct (channel_free _ _ _ _ _ _ Hz Hc Hti).
Qed.

Lemma entry_set_task_state s r r' tr x v k :
  trackers s !! tr = Some x -> entry_inv s r k ->
  (forall i, tally (w_removing i) r' = tally (w_removing i) r) ->
  entry_inv (set_task_state tr v s) r' k.
Proof.
  intros Hx Hent Hr. unfold entry_inv in *.
  change (abort_handles (svc (set_task_state tr v s))) with (abort_handles (svc s)).
  destruct (abort_handles (svc s) !! k) as [e|]; [|done]. rewrite Hr.
  destruct Hent as (? & ? & i & y & Hy & Hm). split_and!; try done.
  exists i. rewrite (lookup_set_task_state s tr x v i y Hx Hy). eexists. split; [done|].
  dec; [|done]. cbn. congruence.
Qed.

Lemma guar_set_task_state s tr x v :
  trackers s !! tr = Some x -> task_state x <= v -> Guar s (set_task_state tr v s).
Proof.
  intros Hx Hv. split; [by left|done|intros _; apply length_insert| |by apply results_final_same].
  intros i y Hy. exists (if decide (tr = i) then mkTracker (tr_marker x) v else y).
  split; [by apply (lookup_set_task_state s tr x v)|].
  dec; [|split; [done|lia]]. simplify_eq. by split.
Qed.

Lemma w_tracker_queued_yes x : task_state x = TASK_STATE_QUEUED -> w_tracker_queued x = 1.
Proof. intros Hq. unfold w_tracker_queued. by rewrite Hq. Qed.
Lemma w_tracker_queued_no x : task_state x <> TASK_STATE_QUEUED -> w_tracker_queued x = 0.
Proof. intros Hq. unfold w_tracker_queued. by rewrite bool_decide_eq_false_2. Qed.

Lemma queued_set_task_state s tr x v :
  trackers s !! tr = Some x -> v <> TASK_STATE_QUEUED ->
  tally w_tracker_queued (<[tr := mkTracker (tr_marker (tracker_at s tr)) v]> (trackers s)) =
    tally w_tracker_queued (trackers s) - w_tracker_queued x.
Proof.
  intros Hx Hv. rewrite (tally_insert _ _ _ _ _ Hx), (w_tracker_queued_no (mkTracker _ v)) by done.
  lia.
Qed.

Lemma tracker_set_task_state s r r' tr x v i :
  trackers s !! tr = Some x -> tracker_inv s r i -> 0 <= v <= 2 ->
  (i <> tr -> tally (w_guard i) r' = tally (w_guard i) r) ->
  (tracker_inv s r tr -> let n := tally (w_guard tr) r' + tally (w_channel tr) (channels s) in
    n <= 1 /\ (v <> TASK_STATE_FINISHED -> n = 1) /\
    (registrations s !! tr_marker x = Some false -> n = 1)) ->
  tracker_inv (set_task_state tr v s) r' i.
Proof.
  intros Hx Htr Hv Hne Heq. destruct (decide (i = tr)) as [->|Hi].
  - specialize (Heq Htr). unfold tracker_inv, guards in *.
    rewrite (lookup_set_task_state s tr x v tr x Hx Hx), decide_True by done.
    rewrite Hx in Htr. destruct Htr as (_ & _ & _ & Hlt & _), Heq as (? & ? & ?).
    split_and!; try done; cbn; lia.
  - unfold tracker_inv, guards in *. rewrite Hne by done.
    rewrite (trackers_set_task_state s tr x v Hx), list_lookup_insert_ne by done. exact Htr.
Qed.

(** Starting: the guard's owner moves the tracker from queued to running. *)
Lemma inv_start s R tr x :
  trackers s !! tr = Some x -> task_state x = TASK_STATE_QUEUED -> Inv s (TGuard tr :: R) ->
  Inv (set_task_state tr TASK_STATE_RUNNING s) (TStarting tr :: R).
Proof.
  intros Hx Hq HI. destruct (guard_alone s R tr (TGuard tr)) as [Hno Hnoch]; [..|done|].
  { cbn. unfold b2z. by rewrite bool_decide_eq_true_2. }
  pose proof HI as HI'. destruct_inv HI. split_toks. inv_fields.
  - constructor; [|by eapply toks_set_task_state; [..|left]].
    eexists. rewrite (lookup_set_task_state s tr x _ tr x Hx Hx), decide_True by done. done.
  - rewrite (queued_set_task_state _ _ _ _ Hx), w_tracker_queued_yes by done.
    norm_in Hque. cbn. lia.
  - intros i. apply (tracker_set_task_state _ _ _ _ _ _ _ Hx (Htr i)); [done|done|].
    unfold tracker_inv, guards. rewrite Hx, !tally_cons. cbn. rewrite Hq. intros (? & Howned & ? & _).
    specialize (Howned ltac:(done)). split_and!; intros; lia.
  - intros i. apply (channel_set_task_state _ _ _ _ _ _ _ Hx (Hch i)); auto.
  - intros i. by apply (entry_set_task_state _ _ _ _ _ _ _ Hx (Hent i)).
Qed.

(** Cancelling: anyone may move a queued tracker to finished, once. *)
Lemma inv_cancel s R tr x :
  trackers s !! tr = Some x -> task_state x = TASK_STATE_QUEUED -> Inv s R ->
  Inv (set_task_state tr TASK_STATE_FINISHED s) (TDebtQ :: R).
Proof.
  intros Hx Hq HI. destruct_inv HI. inv_fields.
  - constructor; [done|]. eapply toks_set_task_state; [done|done|right]. by rewrite Hq.
  - rewrite (queued_set_task_state _ _ _ _ Hx), w_tracker_queued_yes by done.
    norm_in Hque. cbn. lia.
  - intros i. apply (tracker_set_task_state _ _ _ _ _ _ _ Hx (Htr i)); [done|done|].
    unfold tracker_inv, guards. rewrite Hx, !tally_cons. cbn. rewrite Hq. intros (? & Howned & ? & _).
    specialize (Howned ltac:(done)). split_and!; intros; lia.
  - intros i. apply (channel_set_task_state _ _ _ _ _ _ _ Hx (Hch i)); auto.
  - intros i. by apply (entry_set_task_state _ _ _ _ _ _ _ Hx (Hent i)).
Qed.

(** Finishing: the guard is given up, its marker being finished already. *)
Definition finish_debt (state : Z) : list btok :=
  if state =? TASK_STATE_QUEUED then [TDebtQ]
  else if state =? TASK_STATE_RUNNING then [TDebtR] else [].

Lemma swap_cases s R tr m x tok :
  trackers s !! tr = Some x -> guard_of tr tok -> Inv s (tok :: TKnown tr m :: TFin m :: R) ->
  tr_marker x = m /\ registrations s !! m = Some true /\ w_guard tr tok = 1 /\
  (tok = TGuard tr /\ task_state x = TASK_STATE_QUEUED \/
   tok = TGuard tr /\ task_state x = TASK_STATE_FINISHED \/
   tok = TRunning tr /\ task_state x = TASK_STATE_RUNNING).
Proof.
  intros Hx Hg HI. pose proof (inv_tracker _ _ HI tr) as Htr. unfold tracker_inv in Htr.
  rewrite Hx in Htr. destruct Htr as (_ & _ & _ & _ & Hst).
  pose proof (inv_toks _ _ HI) as Ht.
  apply Forall_cons in Ht as [Ht [[st Hk] [Hf _]%Forall_cons]%Forall_cons].
  simplify_eq. split_and!; [done|done|..].
  { destruct Hg as [-> | ->]; cbn; unfold b2z; by rewrite bool_decide_eq_true_2. }
  destruct Hg as [-> | ->]; destruct Ht as (y & Hy & Hs); simplify_eq; cbn in *.
  - unfold TASK_STATE_QUEUED, TASK_STATE_RUNNING, TASK_STATE_FINISHED in *.
    destruct (decide (st = 0)); [auto|]. right. left. split; [done|lia].
  - auto.
Qed.

Lemma inv_swap_finished s R tr m x tok :
  trackers s !! tr = Some x -> guard_of tr tok ->
  Inv s (tok :: TKnown tr m :: TFin m :: R) ->
  Inv (set_task_state tr TASK_STATE_FINISHED s) (finish_debt (task_state x) ++ R).
Proof.
  intros Hx Hg HI. destruct (swap_cases _ _ _ _ _ _ Hx Hg HI) as (Hm & Hf & Hw & Hcases).
  destruct (guard_alone _ _ _ _ Hw HI) as [[_ [_ Hno]%Forall_cons]%Forall_cons Hnoch].
  assert (tally (w_guard tr) R = 0) as Hzero by by apply tally_all_zero.
  destruct_inv HI. split_toks.
  destruct Hcases as [[-> Hs]|[[-> Hs]|[-> Hs]]]; rewrite Hs; cbn [finish_debt app Z.eqb]; inv_fields.
  all: match goal with
  | |- Forall _ _ => repeat (apply Forall_cons; split); try done; eapply toks_set_task_state; [done..|by left]
  | |- queued _ = _ => rewrite (queued_set_task_state _ _ _ _ Hx) by done; norm_in Hque;
      first [rewrite w_tracker_queued_yes by done|rewrite w_tracker_queued_no by (by rewrite Hs)]; lia
  | |- forall tr, tracker_inv _ _ tr => intros i; apply (tracker_set_task_state _ _ _ _ _ _ _ Hx (Htr i))
  | |- forall ch, channel_inv _ _ ch => intros i; apply (channel_set_task_state _ _ _ _ _ _ _ Hx (Hch i)); auto
  | |- forall k, entry_inv _ _ k => intros i; by apply (entry_set_task_state _ _ _ _ _ _ _ Hx (Hent i))
  | _ => idtac
  end.
  all: first [ done | intros _; split_and!; rewrite ?tally_cons, Hzero, Hnoch; cbn; try done; congruence
    | intros Hi; rewrite ?tally_cons; cbn; unfold b2z; rewrite ?bool_decide_eq_false_2 by congruence; lia ].
Qed.

(** ** Proof rules for tracker transitions *)

Lemma tracker_at_lookup s tr x : trackers s !! tr = Some x -> tracker_at s tr = x.
Proof. intros Hx. unfold tracker_at. by rewrite Hx. Qed.

Lemma wp_start_exchange t tr r0 r Q :
  r ≡ₚ TGuard tr :: r0 ->
  (forall r', r' ≡ₚ TStarting tr :: r0 -> Q (inl TASK_STATE_QUEUED) r') ->
  (forall actual r', actual <> TASK_STATE_RUNNING -> r' ≡ₚ TGuard tr :: r0 -> Q (inr actual) r') ->
  bwp t (do (CompareExchange tr TASK_STATE_QUEUED TASK_STATE_RUNNING)) r Q.
Proof.
  intros Hr HQs HQf. apply wp_do with (h := [TGuard tr]) (r0 := r0); [done|done|].
  intros s R HI. cbn. pose proof (inv_toks _ _ HI) as Ht.
  apply Forall_cons in Ht as [(x & Hx & Hne) _]. rewrite (tracker_at_lookup _ _ _ Hx).
  destruct (Z.eqb_spec (task_state x) TASK_STATE_QUEUED) as [He|He]; cbn.
  - split; [by apply guar_set_task_state with x; rewrite ?He|]. rewrite He.
    exists [TStarting tr]. split_and!; [by repeat constructor|by apply inv_start with x|apply HQs].
  - split; [done|]. exists [TGuard tr]. split_and!; [by repeat constructor|done|].
    intros r'. by apply HQf.
Qed.

Lemma wp_cancel_exchange t tr r Q :
  (forall r', r' ≡ₚ TDebtQ :: r -> Q (inl TASK_STATE_QUEUED) r') ->
  (forall actual r', r' ≡ₚ r -> Q (inr actual) r') ->
  bwp t (do (CompareExchange tr TASK_STATE_QUEUED TASK_STATE_FINISHED)) r Q.
Proof.
  intros HQs HQf. apply wp_do with (h := []) (r0 := r); [done|done|].
  intros s R HI. cbn. destruct (Z.eqb_spec (task_state (tracker_at s tr)) TASK_STATE_QUEUED) as [He|He].
  - unfold tracker_at in He. destruct (trackers s !! tr) as [x|] eqn:Hx; [|done]. cbn in He.
    split; [by apply guar_set_task_state with x; rewrite ?He|]. rewrite (tracker_at_lookup _ _ _ Hx), He.
    exists [TDebtQ]. split_and!; [by repeat constructor|by apply inv_cancel with x|apply HQs].
  - split; [done|]. exists []. split_and!; [constructor|done|apply HQf].
Qed.

Lemma wp_swap_finished t tr m tok r0 r Q :
  guard_of tr tok -> r ≡ₚ tok :: TKnown tr m :: TFin m :: r0 ->
  (forall state r', r' ≡ₚ finish_debt state ++ r0 -> Q state r') ->
  bwp t (do (Swap tr TASK_STATE_FINISHED)) r Q.
Proof.
  intros Hg Hr HQ. apply wp_do with (h := [tok; TKnown tr m; TFin m]) (r0 := r0); [done|done|].
  intros s R HI. cbn. destruct (guard_of_known _ _ _ _ Hg HI) as [x Hx].
  rewrite (tracker_at_lookup _ _ _ Hx).
  pose proof (inv_tracker _ _ HI tr) as Htr. unfold tracker_inv in Htr. rewrite Hx in Htr.
  split; [apply guar_set_task_state with x; [done|unfold TASK_STATE_FINISHED; lia]|].
  exists (finish_debt (task_state x)). split_and!; [|by apply inv_swap_finished with m tok|apply HQ].
  unfold finish_debt. repeat (destruct (_ =? _)); by repeat constructor.
Qed.
End BlockingObjects.
Create HintDb owners.
#[export] Hint Resolve hook_toks_owners closure_toks_owners entry_toks_owners handles_toks_owners : owners.
