(* ===== verification/BlockingChannels.v ===== *)
(** * Proof rules for the hand-over channel, spawning and the remaining actions

    The one-shot channel carries a task together with its guard from the
    submitting thread to the worker; whichever side gives up first leaves the
    guard with the other. *)

From S2P Require Import Prelude Conc External LifecycleBits TaskCounts Registration BlockingState BlockingService BlockingInv BlockingActions BlockingObjects.
From stdpp Require Import prelude list gmap.
#[local] Open Scope Z_scope.

Section BlockingChannels.
Context `{!BuildProfile, !LifecycleRepr, !Allocator, !Tokio, !Oneshot, !WaiterSet, !Watch, !TaskSpi}.
Context {Task : Type} `{!UserCode Task}.
#[local] Abbreviation World := (World (Task := Task)).
#[local] Abbreviation bact := (bact (Task := Task)).
#[local] Abbreviation bwp := (wp (act := bact) Inv Guar ok own blk pre).
Implicit Types (s : World) (r R : list btok).

(** ** Growing the list of channels *)

Lemma w_channel_empty tr (c : oneshot (BlockingTask (Task := Task) * nat)) :
  content c = None -> w_channel tr c = 0.
Proof. intros Hc. unfold w_channel. by rewrite Hc. Qed.

Lemma w_stored_empty sl (c : oneshot (BlockingTask (Task := Task) * nat)) :
  content c = None -> w_stored sl c = 0.
Proof. intros Hc. unfold w_stored. by rewrite Hc. Qed.

Lemma inv_new_channel s R :
  let ch := length (channels s) in
  Inv s R -> Inv (set_channels (channels s ++ [channel]) s) (TReceiver ch :: TSender ch :: R).
Proof.
  intros ch HI. destruct_inv HI. constructor.
  2:{ apply (slot_moves s _ R _ Hslot); [done|..]; intros sl; [done|unfold owners; cbn; rewrite !tally_cons; cbn].
      rewrite tally_app, tally_cons, tally_nil, (w_stored_empty sl channel) by apply content_channel. lia. }
  base_fields.
  - toks; cbn.
    + exists channel. rewrite lookup_app_r, Nat.sub_diag by done. by rewrite closed_channel.
    + exists channel. rewrite lookup_app_r, Nat.sub_diag by done. by rewrite content_channel.
    + intros (c & Hc & ?). exists c. split; [by apply lookup_app_l_Some|done].
    + intros (c & Hc & ?). exists c. split; [by apply lookup_app_l_Some|done].
  - intros i. specialize (Htr i). unfold tracker_inv, guards in *. cbn. norm_in Htr.
    rewrite tally_app, tally_cons, tally_nil, (w_channel_empty i channel) by apply content_channel.
    cbn. by rewrite Z.add_0_r.
  - intros i. specialize (Hch i). unfold channel_inv in *. cbn [channels set_channels].
    rewrite !tally_cons. cbn. destruct (decide (i = ch)) as [->|Hne].
    + rewrite lookup_ge_None_2 in Hch by done. destruct Hch as [-> ->]. rewrite lookup_app_r, Nat.sub_diag by done. cbn.
      unfold b2z. rewrite bool_decide_eq_true_2, closed_channel, content_channel by done. cbn.
      by split_and!.
    + unfold b2z at 1 2. rewrite bool_decide_eq_false_2 by congruence. cbn.
      destruct (channels s !! i) as [c|] eqn:Hi.
      * rewrite (lookup_app_l_Some _ _ _ _ Hi). exact Hch.
      * rewrite lookup_ge_None_2; [exact Hch|]. rewrite length_app. cbn.
        apply lookup_ge_None_1 in Hi. unfold ch in Hne. lia.
Qed.

Lemma wp_new_channel t r Q :
  (forall ch r', r' ≡ₚ TReceiver ch :: TSender ch :: r -> Q ch r') -> bwp t (do NewChannel) r Q.
Proof.
  intros HQ. apply wp_do with (h := []) (r0 := r); [done|done|].
  intros s R HI. cbn. split; [by apply guar_locks|].
  exists [TReceiver (length (channels s)); TSender (length (channels s))].
  split_and!; [by repeat constructor|by apply inv_new_channel|apply HQ].
Qed.

(** ** Sending and receiving *)

Lemma channel_at_lookup s ch c : channels s !! ch = Some c -> channel_at s ch = c.
Proof. intros Hc. unfold channel_at. by rewrite Hc. Qed.

Lemma channels_at s ch c i d :
  channels s !! ch = Some c -> <[ch := d]> (channels s) !! i = if decide (ch = i) then Some d else channels s !! i.
Proof.
  intros Hc. pose proof (lookup_lt_Some _ _ _ Hc).
  dec; [subst; by apply list_lookup_insert_eq|by rewrite list_lookup_insert_ne].
Qed.

(** Updating one channel: the facts of the other tokens survive when the
    channel stays empty (for its sender) and open (for its receiver). *)
Lemma toks_set_channel s R ch c d :
  channels s !! ch = Some c -> Forall (tok_ok s) R ->
  tally (w_sender ch) R = 0 \/ content d = None ->
  tally (w_receiver ch) R = 0 \/ closed d = closed c ->
  Forall (tok_ok (set_channels (<[ch := d]> (channels s)) s)) R.
Proof.
  intros Hc HR Hs Hr. rewrite Forall_forall in HR |- *. intros tok Htok. specialize (HR tok Htok).
  destruct tok; try exact HR; cbn in *; destruct HR as (y & Hy & HR); rewrite (channels_at s ch c) by done.
  - exists (if decide (ch = ch0) then d else y). dec; [|done]. subst. split; [done|].
    destruct Hs as [Hs|]; [exfalso|done].
    pose proof (tally_elem_le _ _ _ (w_sender_nonneg ch0) Htok) as Hle. cbn in Hle. unfold b2z in Hle.
    rewrite bool_decide_eq_true_2 in Hle by done. lia.
  - exists (if decide (ch = ch0) then d else y). dec; [|done]. subst. split; [done|]. simplify_eq.
    destruct Hr as [Hr|]; [exfalso|congruence].
    pose proof (tally_elem_le _ _ _ (w_receiver_nonneg ch0) Htok) as Hle. cbn in Hle. unfold b2z in Hle.
    rewrite bool_decide_eq_true_2 in Hle by done. lia.
Qed.

Lemma guards_set_channel s r r' ch c d tr :
  channels s !! ch = Some c ->
  tally (w_guard tr) r' + w_channel tr d = tally (w_guard tr) r + w_channel tr c ->
  tracker_inv s r tr -> tracker_inv (set_channels (<[ch := d]> (channels s)) s) r' tr.
Proof.
  intros Hc He Htr. unfold tracker_inv, guards in *. cbn.
  rewrite (tally_insert _ _ _ _ _ Hc).
  replace (tally (w_guard tr) r' + (tally (w_channel tr) (channels s) - w_channel tr c + w_channel tr d))
    with (tally (w_guard tr) r + tally (w_channel tr) (channels s)) by lia.
  exact Htr.
Qed.

(** The owner that a stored closure holds moves with the content of its channel. *)
Lemma owners_set_channel s r r' ch c d sl :
  channels s !! ch = Some c ->
  tally (w_owner sl) r' + w_stored sl d = tally (w_owner sl) r + w_stored sl c ->
  owners (set_channels (<[ch := d]> (channels s)) s) r' sl = owners s r sl.
Proof.
  intros Hc He. unfold owners. cbn. rewrite (tally_insert _ _ _ _ _ Hc). lia.
Qed.

(** A delivered payload: the guard and what the closure owns move from the sender
    into the channel. *)
Lemma inv_send_ok s R ch c d task tr :
  channels s !! ch = Some c -> content c = None -> closed c = false ->
  content d = Some (task, tr) -> pending d = false -> closed d = false ->
  Inv s (TSender ch :: TGuard tr :: closure_toks task ++ R) ->
  Inv (set_channels (<[ch := d]> (channels s)) s) R.
Proof.
  intros Hc Hcc Hco Hdc Hdp Hdo HI. split.
  2:{ apply (slot_moves s _ _ _ (inv_slot _ _ HI)); [done|..]; intros sl;
        [cbn|apply (owners_set_channel _ _ _ _ _ _ _ Hc); rewrite !tally_cons, tally_app; cbn].
      - by rewrite phases_app, (owners_phases _ (closure_toks task)) by apply closure_toks_owners.
      - rewrite tally_closure_toks, (w_stored_empty sl c) by done. unfold w_stored. rewrite Hdc. lia. }
  assert (Base s (TSender ch :: TGuard tr :: R)) as HB.
  { apply (base_owners s (closure_toks task) _ (TSender ch :: TGuard tr :: closure_toks task ++ R));
      [apply closure_toks_owners|solve_perm|exact HI]. }
  clear HI. destruct_base HB. split_toks.
  assert (tally (w_sender ch) R = 0) as Hone.
  { specialize (Hch ch). unfold channel_inv in Hch. rewrite Hc in Hch. destruct Hch as (Hle & _).
    rewrite !tally_cons in Hle. cbn in Hle. unfold b2z in Hle. rewrite bool_decide_eq_true_2 in Hle by done.
    pose proof (tally_nonneg (w_sender ch) R (w_sender_nonneg ch)). lia. }
  base_fields.
  - eapply toks_set_channel; [done|done|by left|right; congruence].
  - intros i. apply (guards_set_channel s _ _ _ _ _ _ Hc) with (2 := Htr i).
    rewrite !tally_cons. rewrite (w_channel_empty i c) by done. cbn.
    unfold w_channel. rewrite Hdc. unfold b2z. bd Hi; lia.
  - intros i. specialize (Hch i). unfold channel_inv in *. cbn. rewrite (channels_at s ch c) by done.
    norm_in Hch. revert Hch. unfold b2z at 1 2 4. dec.
    + subst i. rewrite Hc, Hone, Hdo, Hdp, Hco. intros (_ & Hr & _). split_and!; [done|done|done|].
      intros task' tr' Ht. rewrite Hdc in Ht. simplify_eq. done.
    + rewrite bool_decide_eq_false_2 by done. done.
Qed.

(** A payload refused because the receiver is gone stays with the sender. *)
Lemma inv_send_refused s R ch c d tr :
  channels s !! ch = Some c -> content c = None -> closed c = true ->
  content d = None -> closed d = true ->
  Inv s (TSender ch :: TGuard tr :: R) ->
  Inv (set_channels (<[ch := d]> (channels s)) s) (TGuard tr :: R).
Proof.
  intros Hc Hcc Hco Hdc Hdo HI. destruct_inv HI. constructor.
  2:{ apply (slot_moves s _ _ _ Hslot); [done|..]; intros sl; [done|apply (owners_set_channel _ _ _ _ _ _ _ Hc)].
      rewrite !tally_cons. by rewrite !w_stored_empty. }
  split_toks. base_fields.
  - constructor; [done|]. eapply toks_set_channel; [done|done|by right|right; congruence].
  - intros i. apply (guards_set_channel s _ _ _ _ _ _ Hc) with (2 := Htr i).
    rewrite !tally_cons. by rewrite !w_channel_empty.
  - intros i. specialize (Hch i). unfold channel_inv in *. cbn. rewrite (channels_at s ch c) by done.
    norm_in Hch. revert Hch. unfold b2z at 1 2 4. dec.
    + subst i. rewrite Hc, Hdo, Hco, Hdc. rewrite bool_decide_eq_true_2 by done.
      intros (? & Hr & _). split_and!; [lia|done|done|done].
    + rewrite bool_decide_eq_false_2 by done. done.
Qed.

(** Taking the content, by receiving or by dropping the receiver. *)
Definition received (got : option (BlockingTask (Task := Task) * nat)) : list btok :=
  match got with Some (closure, tr) => TGuard tr :: closure_toks closure | None => [] end.

Lemma received_own t got : Forall (own t) (received got).
Proof.
  destruct got as [[closure tr]|]; [|constructor]. constructor; [done|]. apply owners_own, closure_toks_owners.
Qed.

(** The content of a channel without what its closure owns. *)
Definition received_guard (got : option (BlockingTask (Task := Task) * nat)) : list btok :=
  match got with Some (_, tr) => [TGuard tr] | None => [] end.

Lemma base_take s R ch c d :
  channels s !! ch = Some c -> closed c = false -> content d = None -> closed d = true ->
  Base s (TReceiver ch :: R) ->
  Base (set_channels (<[ch := d]> (channels s)) s) (received_guard (content c) ++ R).
Proof.
  intros Hc Hco Hdc Hdo HI. destruct_base HI. split_toks.
  assert (tally (w_receiver ch) R = 0) as Hone.
  { specialize (Hch ch). unfold channel_inv in Hch. rewrite Hc, Hco in Hch. destruct Hch as (_ & Hle & _).
    rewrite !tally_cons in Hle. cbn in Hle. unfold b2z in Hle. rewrite bool_decide_eq_true_2 in Hle by done.
    lia. }
  assert (forall task tr, content c = Some (task, tr) -> tok_ok s (TGuard tr)) as Hcon.
  { intros task tr Hcc. specialize (Hch ch). unfold channel_inv in Hch. rewrite Hc in Hch.
    destruct Hch as (_ & _ & _ & Hcon). destruct (Hcon task tr Hcc) as (_ & x & Hx & Hne). by exists x. }
  assert (forall R', Forall (tok_ok s) R' -> tally (w_receiver ch) R' = 0 ->
    Forall (tok_ok (set_channels (<[ch:=d]> (channels s)) s)) R') as Htok'.
  { intros R' HR' Hz. eapply toks_set_channel; [done|done|by right|by left]. }
  destruct (content c) as [[task tr]|] eqn:Hcc; cbn [received_guard app]; base_fields.
  - apply Htok'; [|exact Hone]. constructor; [by eapply Hcon|done].
  - intros i. apply (guards_set_channel s _ _ _ _ _ _ Hc) with (2 := Htr i).
    rewrite (w_channel_empty i d) by done. unfold w_channel.
    rewrite Hcc, !tally_cons. cbn. lia.
  - intros i. specialize (Hch i). unfold channel_inv in *. cbn. rewrite (channels_at s ch c) by done.
    norm_in Hch. revert Hch. dec.
    + subst i. rewrite Hc, Hco, Hone, Hdo, Hdc. intros (? & _). by split_and!.
    + unfold b2z at 1 2. by rewrite bool_decide_eq_false_2.
  - by apply Htok'.
  - intros i. apply (guards_set_channel s _ _ _ _ _ _ Hc) with (2 := Htr i).
    by rewrite !w_channel_empty, !tally_cons.
  - intros i. specialize (Hch i). unfold channel_inv in *. cbn. rewrite (channels_at s ch c) by done.
    norm_in Hch. revert Hch. dec.
    + subst i. rewrite Hc, Hco, Hone, Hdo, Hdc. intros (? & _). by split_and!.
    + unfold b2z at 1 2. by rewrite bool_decide_eq_false_2.
Qed.

Lemma inv_take s R ch c d :
  channels s !! ch = Some c -> closed c = false -> content d = None -> closed d = true ->
  Inv s (TReceiver ch :: R) ->
  Inv (set_channels (<[ch := d]> (channels s)) s) (received (content c) ++ R).
Proof.
  intros Hc Hco Hdc Hdo HI. pose proof (base_take s R ch c d Hc Hco Hdc Hdo HI) as HB. split.
  - destruct (content c) as [[task tr]|]; [|exact HB]. eapply (base_owners _ (closure_toks task)); [..|exact HB];
      [apply closure_toks_owners|cbn [received received_guard]; solve_perm].
  - apply (slot_moves s _ _ _ (inv_slot _ _ HI)); [done|..]; intros sl;
      [|apply (owners_set_channel _ _ _ _ _ _ _ Hc); rewrite (w_stored_empty sl d) by done; unfold w_stored];
      destruct (content c) as [[task tr]|]; cbn [received app phases]; rewrite ?tally_cons, ?tally_app; cbn; try done; try lia.
    + by rewrite phases_app, (owners_phases _ (closure_toks task)) by apply closure_toks_owners.
    + rewrite tally_closure_toks. lia.
Qed.

(** ** Proof rules *)

Lemma guar_set_channels s v : Guar s (set_channels v s).
Proof. by apply guar_locks. Qed.

Lemma wp_send t ch task tr r0 r Q :
  r ≡ₚ TSender ch :: TGuard tr :: closure_toks task ++ r0 ->
  (forall r', r' ≡ₚ r0 -> Q None r') ->
  (forall r', r' ≡ₚ TGuard tr :: closure_toks task ++ r0 -> Q (Some (task, tr)) r') ->
  bwp t (do (Send ch (task, tr))) r Q.
Proof.
  intros Hr HQn HQs. apply wp_do with (h := TSender ch :: TGuard tr :: closure_toks task) (r0 := r0); [done|done|].
  intros s R HI. pose proof (inv_toks _ _ HI) as Ht. apply Forall_cons in Ht as [(c & Hc & Hcc) _].
  cbn [bexec]. rewrite (channel_at_lookup _ _ _ Hc). destruct (closed c) eqn:Hco.
  - destruct (send_closed _ c (task, tr) Hco Hcc) as (d & -> & ? & ? & ?).
    split; [apply guar_set_channels|]. exists (TGuard tr :: closure_toks task).
    split_and!; [constructor; [done|apply owners_own, closure_toks_owners]|by apply inv_send_refused with c|apply HQs].
  - destruct (send_open _ c (task, tr) Hco Hcc) as (d & -> & ? & ? & ?).
    split; [apply guar_set_channels|]. exists [].
    split_and!; [constructor|by eapply inv_send_ok|apply HQn].
Qed.

Lemma wp_blocking_recv t ch Q :
  (forall got r', r' ≡ₚ received got -> Q got r') ->
  bwp t (do (BlockingRecv ch)) [TReceiver ch] Q.
Proof.
  intros HQ. apply wp_do with (h := [TReceiver ch]) (r0 := []); [done|done|].
  intros s R HI. pose proof (inv_toks _ _ HI) as Ht. apply Forall_cons in Ht as [(c & Hc & Hco) _].
  cbn [bexec]. rewrite (channel_at_lookup _ _ _ Hc). destruct (pending c) eqn:Hp.
  { cbn. by rewrite (channel_at_lookup _ _ _ Hc). }
  destruct (recv_spec _ c) as (d & -> & ? & ?).
  split; [apply guar_set_channels|]. exists (received (content c)). split_and!.
  - apply received_own.
  - by apply inv_take.
  - intros r'. rewrite app_nil_r. apply HQ.
Qed.

Lemma wp_drop_receiver t ch Q :
  (forall got r', r' ≡ₚ received got -> Q got r') ->
  bwp t (do (DropReceiver ch)) [TReceiver ch] Q.
Proof.
  intros HQ. apply wp_do with (h := [TReceiver ch]) (r0 := []); [done|done|].
  intros s R HI. pose proof (inv_toks _ _ HI) as Ht. apply Forall_cons in Ht as [(c & Hc & Hco) _].
  cbn [bexec]. rewrite (channel_at_lookup _ _ _ Hc).
  destruct (drop_receiver_spec _ c) as (d & -> & ? & ?).
  split; [apply guar_set_channels|]. exists (received (content c)). split_and!.
  - apply received_own.
  - by apply inv_take.
  - intros r'. rewrite app_nil_r. apply HQ.
Qed.

(** The spawned closure takes the receiver along. *)
Lemma wp_spawn_blocking t ch r0 r Q :
  r ≡ₚ TReceiver ch :: r0 -> (forall h r', r' ≡ₚ r0 -> Q h r') ->
  bwp t (do (SpawnBlocking ch)) r Q.
Proof.
  intros Hr HQ. apply wp_do with (h := [TReceiver ch]) (r0 := r0); [done|done|].
  intros s R HI. cbn. destruct (spawn (rt s)) as [h rt'].
  assert (same_core s (set_rt rt' s)) as Hcore by (destruct s as [[]]; by repeat split).
  destruct (inv_same_core _ _ _ Hcore HI). split; [done|].
  exists []. split_and!; [constructor|done|apply HQ].
Qed.

(** Actions the invariant does not depend on. *)
Definition neutral {B} (c : bact B) : Prop :=
  match c with
  | LoadLifecycle | Subscribe | DropChanges _ | ReadMarker _ | HandleIsFinished _
  | HandleAbort _ | Dispatch _ | Now | DropTask _
  | ReadCapacity | DebugAssert true => True
  | _ => False
  end.

Lemma wp_quiet {B} t (c : bact B) r Q :
  neutral c -> ok _ t c r -> (forall b r', r' ≡ₚ r -> Q b r') -> bwp t (do c) r Q.
Proof.
  intros Hn Hok HQ. apply wp_neutral; [done| |done]. intros s. destruct c; cbn in Hn; try done.
  all: try (split; [by destruct s as [[]]; repeat split|done]).
  - cbn. destruct (dispatch _ _). split; [by destruct s as [[]]; repeat split|done].
  - destruct b; [|done]. cbn. rewrite debug_assert_true.
    split; [by destruct s as [[]]; repeat split|done].
Qed.

(** Knowledge may be forgotten. *)
Definition droppable (tok : btok) : Prop :=
  match tok with
  | TKnown _ _ | TFin _ | TSnap _ _ | TWaiter _ | TParked _ | TAsleep _ | TClosed | TDone
  | TWatch _ | TFull _ => True
  | _ => False
  end.

Lemma inv_drop s tok R : droppable tok -> Inv s (tok :: R) -> Inv s R.
Proof.
  intros Hd HI. destruct_inv HI. split_toks. destruct tok; try done; inv_fields.
  all: try by (norm_in Hful; unfold b2z in Hful; destruct (negb _); intros; lia).
  all: intros x; specialize (Hwt x); norm_in Hwt; revert Hwt; unfold b2z;
    pose proof (tally_nonneg (w_waiter x) R (w_waiter_nonneg x)); bd Hx; lia.
Qed.

Lemma inv_drop_all s d R : Forall droppable d -> Inv s (d ++ R) -> Inv s R.
Proof.
  intros Hd. induction Hd as [|tok d Htok Hd IH]; [done|]. intros HI%inv_drop; [|done]. by apply IH.
Qed.

Lemma wp_drop {B} t (c : bact B) d r0 r Q :
  r ≡ₚ d ++ r0 -> Forall droppable d -> ok _ t c r -> bwp t (do c) r0 Q -> bwp t (do c) r Q.
Proof.
  intros Hr Hd Hok Hwp. eapply wp_forget; [exact _|intros s R; by apply (inv_drop_all s d)|exact Hr|exact Hok|exact Hwp].
Qed.

(** ** Capacity changes

    A subscriber of whom it is known that it saw the service saturated waits for
    a change that is either published already, or owed, or has no reason yet. *)

Definition owed_toks (owed : bool) : list btok := if owed then [TCapacity] else [].

(** Publishing a change reaches every subscriber. *)
Lemma changed_send s f r :
  Forall (tok_ok s) r -> tally (w_unchanged (send_modify f (capacity_tx (svc s)))) r = 0.
Proof.
  induction 1 as [|tok r Htok _ IH]; [done|]. rewrite tally_cons, IH.
  destruct tok; try done. cbn in *. destruct Htok as [Hch|<-].
  - by rewrite has_changed_stays.
  - by rewrite has_changed_send.
Qed.

Lemma wp_send_modify t f owed r0 r Q :
  locks r = 0 -> r ≡ₚ owed_toks owed ++ r0 -> (forall r', r' ≡ₚ r0 -> Q () r') ->
  bwp t (do (SendModify f)) r Q.
Proof.
  intros Hl Hr HQ. apply wp_do with (h := owed_toks owed) (r0 := r0); [done|done|].
  intros s R HI. cbn. split; [by apply guar_locks|]. exists []. split_and!; [constructor| |apply HQ].
  assert (Inv s (owed_toks owed ++ R) -> Forall (tok_ok s) R) as Hrest.
  { intros HI'. pose proof (inv_toks _ _ HI') as Ht. by apply Forall_app in Ht as [_ Ht]. }
  specialize (Hrest HI). pose proof (changed_send s f R Hrest) as Hz.
  destruct owed; cbn [owed_toks app] in *; destruct_inv HI; split_toks; inv_fields.
  all: toks; (intros [Hc|Hc]; left; [by apply has_changed_stays|subst; apply has_changed_send]).
Qed.

Lemma wp_subscribe t r Q :
  (forall rx r', r' ≡ₚ TWatch rx :: r -> Q rx r') -> bwp t (do Subscribe) r Q.
Proof.
  intros HQ. apply wp_do with (h := []) (r0 := r); [done|done|].
  intros s R HI. cbn. split; [done|]. exists [TWatch (subscribe (capacity_tx (svc s)))].
  split_and!; [by repeat constructor| |apply HQ].
  destruct_inv HI. inv_fields. toks. by right.
Qed.

Lemma wp_await_changed t rx Q :
  (forall rx', Q rx' [TWatch rx']) -> bwp t (do (AwaitChanged rx)) [TFull rx] Q.
Proof.
  intros HQ. apply wp_do with (h := [TFull rx]) (r0 := []); [done|done|].
  intros s R HI. cbn. destruct (has_changed _ rx) eqn:Hc; [|done]. split; [done|].
  exists [TWatch (subscribe (capacity_tx (svc s)))].
  split_and!; [by repeat constructor| |intros r' ->%Permutation_singleton_r; apply HQ].
  destruct_inv HI. split_toks. inv_fields.
  - toks. by right.
  - norm_in Hful. rewrite Hc in Hful. exact Hful.
Qed.

Lemma wp_report t rep r Q :
  report_ok rep -> (forall r', r' ≡ₚ r -> Q () r') -> bwp t (do (Report rep)) r Q.
Proof.
  intros Hok HQ. apply wp_do with (h := []) (r0 := r); [done|done|].
  intros s R HI. cbn. split; [by apply guar_locks|]. exists [].
  split_and!; [constructor| |apply HQ]. destruct_inv HI. inv_fields. by constructor.
Qed.
End BlockingChannels.
