(* ===== verification/BlockingSlots.v ===== *)
(** * Proof rules for task slots

    The cell of a task slot is shared by the closure of the task and by the hook of
    its registered entry ([Arc<TaskSlotCell>]).  Until a result is there, an owner
    that can still publish one exists: the cell holds the slot and has an owner, or
    a runner took the slot and is at work on it.  What is published agrees with the
    call of the user's code that the runner made, or with its absence. *)

From S2P Require Import Prelude Conc External LifecycleBits TaskCounts Registration BlockingState BlockingService BlockingInv BlockingActions BlockingObjects BlockingChannels.
From stdpp Require Import prelude list gmap.
#[local] Open Scope Z_scope.

Section BlockingSlots.
Context `{!BuildProfile, !LifecycleRepr, !Allocator, !Tokio, !Oneshot, !WaiterSet, !Watch, !TaskSpi}.
Context {Task : Type} `{!UserCode Task}.
#[local] Abbreviation World := (World (Task := Task)).
#[local] Abbreviation bact := (bact (Task := Task)).
#[local] Abbreviation bwp := (wp (act := bact) Inv Guar ok own blk pre).
Implicit Types (s : World) (r R L : list btok).

(** ** Updating one slot *)

(** The tokens about slots; the rest of the invariant does not see them. *)
Definition slot_tok (tok : btok) : Prop := match tok with TOwner _ | TRunner _ _ => True | _ => False end.

Lemma slot_toks_weightless (w : btok -> Z) L :
  (forall sl ph, w (TOwner sl) = 0 /\ w (TRunner sl ph) = 0) -> Forall slot_tok L -> tally w L = 0.
Proof.
  intros Hw HL. apply tally_all_zero. eapply Forall_impl; [exact HL|].
  intros [] ?; cbn in *; try done; [by apply (Hw _ Taken)|by apply Hw].
Qed.

Lemma slot_toks_own t L : Forall slot_tok L -> Forall (own t) L.
Proof. intros HL. eapply Forall_impl; [exact HL|]. by intros []. Qed.

Lemma base_slot_toks s L L' R :
  Forall slot_tok L -> Forall slot_tok L' -> Base s (L ++ R) -> Base s (L' ++ R).
Proof.
  intros HL HL' HB. apply base_weights with (L ++ R); [| |done].
  - pose proof (inv_toks _ _ HB) as Ht. apply Forall_app in Ht as [_ Ht]. apply Forall_app. split; [|done].
    eapply Forall_impl; [exact HL'|]. by intros [].
  - intros w Hw. by rewrite !tally_app, (slot_toks_weightless w L), (slot_toks_weightless w L') by done.
Qed.

Lemma base_set_endpoints s v r : Base s r -> Base (set_endpoints v s) r.
Proof. intros HB. destruct_base HB. by constructor. Qed.
Lemma base_set_calls s v r : Base s r -> Base (set_calls v s) r.
Proof. intros HB. destruct_base HB. by constructor. Qed.

Lemma guar_set_slot s sl x x' :
  endpoints s !! sl = Some x ->
  (forall output, endpoint_output (slot_endpoint x) = Some output -> endpoint_output (slot_endpoint x') = Some output) ->
  Guar s (set_slot sl x' s).
Proof.
  intros Hx Hf. split; [by left|done|done|by apply trackers_advance_same|].
  intros i output Hi Ho. unfold set_slot. cbn. rewrite length_insert. split; [done|].
  unfold endpoint_at, slot_at in *. cbn. destruct (decide (sl = i)) as [<-|Hne].
  - rewrite list_lookup_insert_eq by exact (lookup_lt_Some _ _ _ Hx). rewrite Hx in Ho. by apply Hf.
  - by rewrite list_lookup_insert_ne.
Qed.

(** What is known of a slot. *)
Definition described (x : SharedTaskSlot) : list CallResult -> list phase -> Prop :=
  describes (slot_endpoint x) (Z.of_nat (slot_owners x)).

Lemma slot_described s r sl x :
  endpoints s !! sl = Some x -> slot_inv s r sl -> described x (results_of s sl) (phases sl r).
Proof. intros Hx Hs. unfold slot_inv in Hs. rewrite Hx in Hs. unfold described. by destruct Hs as [-> Hs]. Qed.

(** The tokens about one slot say nothing about another. *)
Definition of_slot (sl : nat) (tok : btok) : Prop :=
  match tok with TOwner i | TRunner i _ => i = sl | _ => False end.

Lemma of_slot_toks sl L : Forall (of_slot sl) L -> Forall slot_tok L.
Proof. intros HL. eapply Forall_impl; [exact HL|]. by intros []. Qed.

Lemma of_slot_other sl i L :
  sl <> i -> Forall (of_slot sl) L -> tally (w_owner i) L = 0 /\ phases i L = [].
Proof.
  intros Hne. induction 1 as [|x L Hx HL [IH1 IH2]]; [done|]. rewrite tally_cons, IH1.
  destruct x; try done; cbn in *; subst; unfold b2z.
  - by rewrite bool_decide_eq_false_2.
  - by rewrite decide_False.
Qed.

(** What a thread that holds [L] for slot [sl] and is left with [L'] may do to it:
    owners are counted, results stay, and what is known of the slot remains true
    whoever else is at work on it ([l]). *)
Record slot_step (sl : nat) L (x : SharedTaskSlot) L' (x' : SharedTaskSlot) : Prop := {
  step_count : Z.of_nat (slot_owners x') + tally (w_owner sl) L =
    Z.of_nat (slot_owners x) + tally (w_owner sl) L';
  step_final : forall results l output, described x results (phases sl L ++ l) ->
    endpoint_output (slot_endpoint x) = Some output -> endpoint_output (slot_endpoint x') = Some output;
  step_described : forall results l, described x results (phases sl L ++ l) ->
    described x' results (phases sl L' ++ l);
}.

Lemma inv_set_slot s sl x x' L L' R :
  endpoints s !! sl = Some x -> Inv s (L ++ R) ->
  Forall (of_slot sl) L -> Forall (of_slot sl) L' -> slot_step sl L x L' x' ->
  Guar s (set_slot sl x' s) /\ Inv (set_slot sl x' s) (L' ++ R).
Proof.
  intros Hx HI HL HL' [Hcount Hfinal Hdesc]. apply of_slot_toks in HL as HLt, HL' as HLt'.
  pose proof (slot_described _ _ _ _ Hx (inv_slot _ _ HI sl)) as Hd. rewrite phases_app in Hd.
  split; [by apply guar_set_slot with x; [|intros output; eapply Hfinal]|].
  split; [by apply base_set_endpoints, (base_slot_toks _ L), HI|].
  intros i. pose proof (inv_slot _ _ HI i) as Hs. unfold slot_inv, owners, results_of in *. cbn [endpoints set_slot set_endpoints channels svc calls].
  rewrite !tally_app, !phases_app in *. destruct (decide (sl = i)) as [<-|Hi].
  - rewrite list_lookup_insert_eq by exact (lookup_lt_Some _ _ _ Hx). rewrite Hx in Hs. destruct Hs as [Ho _].
    split; [lia|]. apply Hdesc in Hd. unfold described in Hd.
    replace (tally (w_owner sl) L' + tally (w_owner sl) R + tally (w_stored sl) (channels s) +
      hooks sl (abort_handles (svc s))) with (Z.of_nat (slot_owners x')) by lia. exact Hd.
  - rewrite list_lookup_insert_ne by done.
    destruct (of_slot_other sl i L Hi HL) as [Ho Hr], (of_slot_other sl i L' Hi HL') as [Ho' Hr'].
    by rewrite Ho, Hr in Hs; rewrite Ho', Hr'.
Qed.

(** An owner of a slot knows that it exists. *)
Lemma owners_at_least s r sl : tally (w_owner sl) r <= owners s r sl.
Proof.
  unfold owners. enough (0 <= tally (w_stored sl) (channels s) /\ 0 <= hooks sl (abort_handles (svc s))) by lia.
  split; apply tally_nonneg.
  - intros c. unfold w_stored, w_closure, b2z. destruct (content c) as [[[] ?]|]; try lia. by bd Hi.
  - intros [k e]. cbn. unfold w_hook, b2z. destruct (ta_cancel e); try lia. by bd Hi.
Qed.

Lemma owner_slot s sl L R :
  Inv s (L ++ R) -> TOwner sl ∈ L ->
  exists x, endpoints s !! sl = Some x /\ tally (w_owner sl) L <= Z.of_nat (slot_owners x).
Proof.
  intros HI HL. pose proof (inv_slot _ _ HI sl) as Hs. unfold slot_inv in Hs.
  pose proof (owners_at_least s (L ++ R) sl) as Ho. rewrite tally_app in Ho.
  pose proof (tally_nonneg (w_owner sl) R (w_owner_nonneg sl)).
  pose proof (tally_elem_le _ _ _ (w_owner_nonneg sl) HL) as Hone. cbn in Hone. unfold b2z in Hone.
  rewrite bool_decide_eq_true_2 in Hone by done.
  destruct (endpoints s !! sl) as [x|]; [|destruct Hs; lia]. exists x. split; [done|lia].
Qed.

Lemma slot_at_lookup s sl x : endpoints s !! sl = Some x -> slot_at s sl = x.
Proof. intros Hx. unfold slot_at. by rewrite Hx. Qed.
Lemma endpoint_at_lookup s sl x : endpoints s !! sl = Some x -> endpoint_at s sl = slot_endpoint x.
Proof. intros Hx. unfold endpoint_at. by rewrite (slot_at_lookup _ _ _ Hx). Qed.

Lemma set_slot_missing s sl x : endpoints s !! sl = None -> set_slot sl x s = s.
Proof.
  intros Hn. unfold set_slot. rewrite list_insert_ge by by apply lookup_ge_None_1. by destruct s.
Qed.

(** ** The rules *)

(** An action on slot [sl] by a thread that owns it. *)
Lemma wp_owned_slot {B} t (c : bact B) sl (g : SharedTaskSlot -> B * SharedTaskSlot) L (L' : B -> list btok) r0 r Q :
  (forall s, bexec t c s = let '(b, x') := g (slot_at s sl) in Next b (set_slot sl x' s) []) ->
  ok _ t c r -> TOwner sl ∈ L -> Forall (of_slot sl) L -> (forall b, Forall (of_slot sl) (L' b)) ->
  (forall x results l, tally (w_owner sl) L <= Z.of_nat (slot_owners x) ->
    described x results (phases sl L ++ l) -> slot_step sl L x (L' (fst (g x))) (snd (g x))) ->
  r ≡ₚ L ++ r0 -> (forall b r', r' ≡ₚ L' b ++ r0 -> Q b r') -> bwp t (do c) r Q.
Proof.
  intros He Hok Hown HL HL' Hstep Hr HQ. apply wp_do with (h := L) (r0 := r0); [done|done|].
  intros s R HI. destruct (owner_slot s sl L R HI Hown) as (x & Hx & Hn).
  pose proof (slot_described _ _ _ _ Hx (inv_slot _ _ HI sl)) as Hd. rewrite phases_app in Hd.
  specialize (Hstep x _ _ Hn Hd). rewrite He, (slot_at_lookup _ _ _ Hx). destruct (g x) as [b x']. cbn in Hstep.
  destruct (inv_set_slot s sl x x' L (L' b) R) as [HG HI']; [done..|]. split; [done|]. exists (L' b).
  split_and!; [by apply slot_toks_own, (of_slot_toks sl)|done|apply HQ].
Qed.

(** Accesses that keep a result and what is known of the endpoint: anybody may
    perform them on any slot. *)
Definition keeps {B} (f : endpoint -> B * endpoint) : Prop := forall e,
  (forall output, endpoint_output e = Some output -> endpoint_output (snd (f e)) = Some output) /\
  (forall owned results l, describes e owned results l -> describes (snd (f e)) owned results l).

Lemma keeps_step {B} (f : endpoint -> B * endpoint) sl L x : keeps f ->
  slot_step sl L x L (set_endpoint (snd (f (slot_endpoint x))) x).
Proof.
  intros Hf. destruct (Hf (slot_endpoint x)) as [Hfinal Hkeep]. split; [done|..].
  - intros results l output _. apply Hfinal.
  - intros results l. apply Hkeep.
Qed.

Lemma wp_keeps {B} t (c : bact B) sl (f : endpoint -> B * endpoint) r Q :
  c = OnEndpoint sl f \/ c = PublishEndpoint sl f -> ok _ t c r -> keeps f ->
  (forall b r', r' ≡ₚ r -> Q b r') -> bwp t (do c) r Q.
Proof.
  intros Hc Hok Hf HQ. apply wp_do with (h := []) (r0 := r); [done|done|].
  intros s R HI. assert (bexec t c s = let '(b, e) := f (endpoint_at s sl) in
    Next b (set_slot sl (set_endpoint e (slot_at s sl)) s) []) as -> by by destruct Hc as [-> | ->].
  destruct (endpoints s !! sl) as [x|] eqn:Hx.
  - rewrite (endpoint_at_lookup _ _ _ Hx), (slot_at_lookup _ _ _ Hx).
    pose proof (keeps_step f sl [] x Hf) as Hstep. destruct (f (slot_endpoint x)) as [b e].
    destruct (inv_set_slot s sl x (set_endpoint e x) [] [] R) as [HG HI']; [done..|].
    split; [done|]. exists []. split_and!; [constructor|done|apply HQ].
  - destruct (f _) as [b e]. rewrite set_slot_missing by done. split; [done|].
    exists []. split_and!; [constructor|done|apply HQ].
Qed.

(** Endpoints that agree on the cell, the start and the result. *)
Lemma describes_same e e' owned results l :
  cell_full e' = cell_full e -> started e' = started e -> endpoint_output e' = endpoint_output e ->
  describes e owned results l -> describes e' owned results l.
Proof. intros Ef Es Eo. unfold describes, settled, idle, running_slot. by rewrite Ef, Es, Eo. Qed.

(** An unfinished endpoint nobody has started gets the result of a cancelled or a
    dropped task. *)
Lemma explained_unused output results :
  results = [] -> output = inr TaskExecutionError.Cancelled \/ output = inr TaskExecutionError.Dropped ->
  explained output results.
Proof. by intros ->. Qed.

Lemma describes_owned e owned owned' results l :
  (1 <= owned -> 1 <= owned') -> describes e owned results l -> describes e owned' results l.
Proof. intros Ho. unfold describes. destruct l as [|[] []]; tauto. Qed.

(** The slot leaves its cell: the result of an unfinished task is published. *)
Lemma describes_emptied e e' output owned owned' results l :
  output = inr TaskExecutionError.Cancelled \/ output = inr TaskExecutionError.Dropped ->
  cell_full e' = false -> started e' = started e ->
  endpoint_output e' = (if cell_full e then Some (default output (endpoint_output e)) else endpoint_output e) ->
  describes e owned results l -> describes e' owned' results l.
Proof.
  intros Hout Ef Es Eo. unfold describes, settled, idle, running_slot. rewrite Ef, Es, Eo.
  destruct (cell_full e); [|destruct l as [|[] []]; intuition congruence].
  destruct l as [|[] []]; try (intuition congruence). intros [Hidle Hres].
  destruct (Hidle eq_refl) as [_ Hnone]. split; [done|]. left.
  destruct Hres as [(o & -> & Ho)|[-> _]]; [by exists o|]. exists output. by split; [|apply explained_unused].
Qed.

Lemma keeps_observer {B} (f : endpoint -> B) : keeps (fun e => (f e, e)).
Proof. intros e. auto. Qed.
Lemma keeps_accept : keeps (fun e => ((), slot_accept e)).
Proof.
  intros e. cbn. destruct (accept_spec e) as (Ef & Es & Eo). split; [by rewrite Eo|].
  intros owned results l. by apply describes_same.
Qed.
Lemma keeps_cancel : keeps handle_cancel.
Proof.
  intros e. split; [intros output; apply cancel_final|]. intros owned results l.
  destruct (cancel_spec e) as (r & e' & -> & Ef & Es & Hout). cbn [snd].
  destruct (decide _) as [_|_]; [|by apply describes_same]. destruct Hout as (Hs & Hn & Ho).
  unfold describes, settled, idle, running_slot. rewrite Ef, Es, Ho.
  assert (results = [] -> exists output, Some (inr TaskExecutionError.Cancelled) = Some output /\
    explained output results) as Hunused by (intros Hr; eexists; split; [done|apply explained_unused; auto]).
  destruct l as [|[] []]; try (intuition congruence).
  intros [Hidle [(o & ? & _)|(_ & Hf & _)]]; [congruence|]. split; [done|]. left. by apply Hunused, Hidle.
Qed.
Lemma keeps_cancel_unstarted : keeps cell_cancel_unstarted.
Proof.
  intros e. split; [intros output; apply cell_cancel_final|]. intros owned results l.
  destruct (cell_cancel_spec e) as (b & e' & -> & Ef & Es & Eo). cbn [snd].
  by apply (describes_emptied e e' (inr TaskExecutionError.Cancelled)); [left|..].
Qed.

Lemma wp_new_endpoint t r Q :
  (forall sl r', r' ≡ₚ TOwner sl :: r -> Q sl r') -> bwp t (do NewEndpoint) r Q.
Proof.
  intros HQ. apply wp_do with (h := []) (r0 := r); [done|done|].
  intros s R HI. cbn [bexec]. set (sl := length (endpoints s)). split.
  { split; [by left|done|done|by apply trackers_advance_same|]. intros i output Hi Ho. cbn.
    rewrite length_app. split; [cbn; lia|]. unfold endpoint_at, slot_at in *. cbn. by rewrite lookup_app_l. }
  exists [TOwner sl]. split_and!; [by repeat constructor| |apply HQ]. split.
  { apply base_set_endpoints, (base_slot_toks s [] [TOwner sl] R); [constructor|by repeat constructor|exact HI]. }
  intros i. pose proof (inv_slot _ _ HI i) as Hs. unfold slot_inv, owners, results_of in *.
  cbn [app endpoints set_endpoints phases fmap list_fmap concat calls].
  rewrite !tally_cons. cbn [w_owner channels svc set_endpoints]. unfold b2z. bd Hi.
  - subst i. rewrite lookup_ge_None_2 in Hs by done. rewrite lookup_app_r, Nat.sub_diag by done. cbn.
    destruct Hs as (Ho & -> & Hp). cbn in Ho, Hp. rewrite Hp. destruct new_spec as (Hf & Hst & Hno). split; [lia|].
    split; [done|]. right. split_and!; [done|done|cbn; lia].
  - destruct (decide (i < length (endpoints s))%nat) as [Hlt|Hge]; [by rewrite lookup_app_l|].
    rewrite lookup_ge_None_2 in Hs by lia. rewrite lookup_ge_None_2; [exact Hs|].
    rewrite length_app. cbn. unfold sl in Hi. lia.
Qed.

Ltac own_tallies := rewrite ?tally_cons, ?tally_nil in *; cbn [w_owner] in *;
  unfold b2z in *; rewrite ?bool_decide_eq_true_2 in * by done.

Lemma wp_clone_slot t sl r0 r Q :
  r ≡ₚ TOwner sl :: r0 -> (forall r', r' ≡ₚ TOwner sl :: TOwner sl :: r0 -> Q () r') ->
  bwp t (do (CloneSlot sl)) r Q.
Proof.
  intros Hr HQ. apply (wp_owned_slot t _ sl (fun x => ((), arc_clone x)) [TOwner sl] (fun _ => [TOwner sl; TOwner sl]) r0);
    [done|done|by left|by repeat constructor|by repeat constructor| |done|intros []; apply HQ].
  intros x _ _ _ _. cbn [fst snd]. split; [own_tallies; cbn; lia|done|].
  intros results l. apply describes_owned. cbn. lia.
Qed.

(** The last owner destroys the cell, and with it a slot it still holds. *)
Lemma wp_drop_slot t sl r0 r Q :
  r ≡ₚ TOwner sl :: r0 -> (forall r', r' ≡ₚ r0 -> Q () r') -> bwp t (do (DropSlot sl)) r Q.
Proof.
  intros Hr HQ. apply (wp_owned_slot t _ sl (fun x => ((), arc_drop x)) [TOwner sl] (fun _ => []) r0);
    [done|done|by left|by repeat constructor|constructor| |done|intros []; apply HQ].
  intros x _ _ Hn _. cbn [fst snd]. unfold arc_drop. own_tallies. split; unfold described; cbn [slot_endpoint slot_owners].
  - own_tallies. lia.
  - intros _ _ output _ Ho. destruct (_ =? 1)%nat; [by apply drop_final|done].
  - intros results l. destruct (Nat.eqb_spec (slot_owners x) 1) as [Hone|Hmany].
    + destruct (cell_drop_spec (slot_endpoint x)) as (Ef & Es & Eo).
      apply (describes_emptied _ _ (inr TaskExecutionError.Dropped)); [by right|done..].
    + apply describes_owned. lia.
Qed.

(** Who takes the slot is its runner. *)
Lemma wp_take_slot t sl r0 r Q :
  r ≡ₚ TOwner sl :: r0 ->
  (forall (b : bool) r', r' ≡ₚ TOwner sl :: (if b then [TRunner sl Taken] else []) ++ r0 -> Q b r') ->
  bwp t (take_task_slot sl) r Q.
Proof.
  intros Hr HQ. apply (wp_owned_slot t _ sl (fun x => let '(b, e) := cell_take (slot_endpoint x) in (b, set_endpoint e x))
    [TOwner sl] (fun b => TOwner sl :: if b then [TRunner sl Taken] else []) r0);
    [|done|by left|by repeat constructor|by intros []; repeat constructor| |done|exact HQ].
  { intros s. cbn. unfold endpoint_at. by destruct (cell_take _). }
  intros x _ _ _ _. destruct (take_spec (slot_endpoint x)) as (e & -> & Ef & Es & Eo). cbn [fst snd].
  split; unfold described; cbn [slot_endpoint slot_owners set_endpoint].
  - destruct (cell_full (slot_endpoint x)); own_tallies; cbn; lia.
  - intros _ _ output _. by rewrite Eo.
  - intros results l. destruct (cell_full (slot_endpoint x)) eqn:Hf; cbn [phases app].
    + rewrite decide_True by done. unfold describes, settled, idle, running_slot. rewrite Ef, Es, Eo, Hf.
      destruct l as [|[] []]; cbn [app]; intuition congruence.
    + apply describes_same; [by rewrite Ef|done..].
Qed.

(** A runner is alone. *)
Lemma describes_runner e owned results ph l :
  describes e owned results (ph :: l) -> l = [].
Proof. by destruct l, ph. Qed.

(** A runner whose task was cancelled has nothing to do. *)
Lemma wp_runner_start t sl r0 r Q :
  r ≡ₚ TOwner sl :: TRunner sl Taken :: r0 ->
  (forall (b : bool) r', r' ≡ₚ TOwner sl :: (if b then [TRunner sl Begun] else []) ++ r0 -> Q b r') ->
  bwp t (do (OnEndpoint sl runner_start)) r Q.
Proof.
  intros Hr HQ. apply (wp_owned_slot t _ sl (fun x => let '(b, e) := runner_start (slot_endpoint x) in (b, set_endpoint e x))
    [TOwner sl; TRunner sl Taken] (fun b => TOwner sl :: if b then [TRunner sl Begun] else []) r0);
    [|done|by left|by repeat constructor|by intros []; repeat constructor| |done|exact HQ].
  { intros s. cbn. unfold endpoint_at. by destruct (runner_start _). }
  cbn [phases]. rewrite decide_True by done. intros x results0 l0 _ Hd0.
  pose proof (describes_runner _ _ _ _ _ Hd0) as ->. destruct Hd0 as (_ & [Hidle _] & _).
  destruct (start_spec _ Hidle) as (b & e & -> & Ef & Es & Eo & Hb). cbn [fst snd].
  split; unfold described; cbn [slot_endpoint slot_owners set_endpoint phases].
  - destruct b; own_tallies; cbn; lia.
  - intros _ _ output _. by rewrite Eo.
  - rewrite decide_True by done. intros results l Hd. pose proof (describes_runner _ _ _ _ _ Hd) as ->.
    destruct Hd as (Hf & [_ Hres] & Hset). destruct b; cbn [phases app].
    + rewrite decide_True by done. cbn. unfold running_slot. rewrite Ef, Es, Eo. destruct Hb as [Hb _]. auto.
    + unfold describes, settled. rewrite Ef, Eo, Hf. split; [done|]. left.
      destruct Hset as [Hset|Hn]; [exact Hset|]. by apply Hb in Hn.
Qed.

Lemma wp_runner_finish t sl result r0 r Q :
  locks r = 0 -> r ≡ₚ TOwner sl :: TRunner sl (Called result) :: r0 ->
  (forall r', r' ≡ₚ TOwner sl :: r0 -> Q () r') ->
  bwp t (do (PublishEndpoint sl (fun e => ((), runner_finish e result)))) r Q.
Proof.
  intros Hl Hr HQ. apply (wp_owned_slot t _ sl (fun x => ((), set_endpoint (runner_finish (slot_endpoint x) result) x))
    [TOwner sl; TRunner sl (Called result)] (fun _ => [TOwner sl]) r0);
    [done|exact Hl|by left|by repeat constructor|by repeat constructor| |done|intros []; apply HQ].
  cbn [phases fst snd]. rewrite decide_True by done. intros x results0 l0 _ Hd0.
  pose proof (describes_runner _ _ _ _ _ Hd0) as ->. destruct Hd0 as [(Hf & Hs & Hn) _].
  destruct (finish_spec _ result Hs Hn) as (Ef & Es & Eo).
  split; unfold described; cbn [slot_endpoint slot_owners set_endpoint phases].
  - own_tallies; cbn; lia.
  - intros _ _ output _. by rewrite Hn.
  - rewrite decide_True by done. intros results l Hd. pose proof (describes_runner _ _ _ _ _ Hd) as ->.
    destruct Hd as [_ ->]. cbn. rewrite Ef, Hf. split; [done|]. left. by eexists.
Qed.

(** ** Calls of user code *)

Lemma inv_log_call s c L L' R :
  Inv s (L ++ R) -> Forall slot_tok L -> Forall slot_tok L' ->
  (forall sl, tally (w_owner sl) L = 0 /\ tally (w_owner sl) L' = 0) ->
  (forall sl, match slot_result sl c with
    | Some result => phases sl L = [Begun] /\ phases sl L' = [Called result]
    | None => phases sl L' = phases sl L
    end) ->
  Guar s (set_calls (c :: calls s) s) /\ Inv (set_calls (c :: calls s) s) (L' ++ R).
Proof.
  intros HI HL HL' Hw Hc. split; [by apply guar_locks|].
  split; [by apply base_set_calls, (base_slot_toks _ L), HI|].
  intros sl. pose proof (inv_slot _ _ HI sl) as Hs. destruct (Hw sl) as [Ew Ew'].
  specialize (Hc sl). unfold slot_inv, owners, results_of in *. cbn [endpoints set_calls channels svc calls omap list_omap].
  rewrite !tally_app, !phases_app, Ew in Hs. rewrite !tally_app, !phases_app, Ew'.
  destruct (slot_result sl c) as [result|]; [|by rewrite Hc]. destruct Hc as [Ep Ep']. rewrite Ep in Hs. rewrite Ep'.
  destruct (endpoints s !! sl) as [x|]; [|by destruct Hs as (_ & _ & ?)].
  destruct Hs as [Ho Hd]. split; [done|]. cbn [app] in *. pose proof (describes_runner _ _ _ _ _ Hd) as Hl.
  rewrite Hl in *. destruct Hd as [Hrun ->]. by split.
Qed.

Lemma wp_call_runnable t tr task r Q :
  locks r = 0 -> TRunning tr ∈ r -> (forall result r', r' ≡ₚ r -> Q result r') ->
  bwp t (do (CallUser (RunnableClosure task))) r Q.
Proof.
  intros Hl Hin HQ. apply wp_do with (h := []) (r0 := r); [done|by split; [|exists tr]|].
  intros s R HI. cbn [bexec]. set (c := mkCall _ _ _).
  destruct (inv_log_call s c [] [] R) as [HG HI']; [done|constructor|constructor|done|done|].
  split; [done|]. exists []. split_and!; [constructor|done|apply HQ].
Qed.

Lemma wp_call_callable t tr sl task r0 r Q :
  locks r = 0 -> TRunning tr ∈ r -> r ≡ₚ TRunner sl Begun :: r0 ->
  (forall result r', r' ≡ₚ TRunner sl (Called result) :: r0 -> Q result r') ->
  bwp t (do (CallUser (CallableClosure sl task))) r Q.
Proof.
  intros Hl Hin Hr HQ. apply wp_do with (h := [TRunner sl Begun]) (r0 := r0); [done|by split; [|exists tr]|].
  intros s R HI. cbn [bexec]. set (result := call_user _ _). set (c := mkCall _ _ _).
  destruct (inv_log_call s c [TRunner sl Begun] [TRunner sl (Called result)] R) as [HG HI'];
    [done|by repeat constructor|by repeat constructor|done| |].
  - intros i. unfold slot_result. cbn. by destruct (decide _).
  - split; [done|]. exists [TRunner sl (Called result)]. split_and!; [by repeat constructor|done|apply HQ].
Qed.

Lemma wp_await_endpoint t sl Q :
  (forall output, Q output []) -> bwp t (do (AwaitEndpoint sl)) [] Q.
Proof.
  intros HQ. apply wp_do with (h := []) (r0 := []); [done|constructor|].
  intros s R HI. cbn. destruct (endpoint_output _) as [output|] eqn:Ho; [|done]. split; [done|].
  exists []. split_and!; [constructor|done|]. intros r' ->%perm_nil_eq. apply HQ.
Qed.
End BlockingSlots.
