(* ===== verification/BlockingSpecs.v ===== *)
(** * Specifications of the blocking service's methods

    Each method is proved against the rules of its atomic actions: which tokens
    it consumes and returns.  The last section collects the public operations
    and shows that every pool of clients using them is a good configuration. *)

From S2P Require Import Prelude Conc External LifecycleBits TaskCounts RejectedTask Registration BlockingState BlockingService BlockingInv BlockingActions BlockingObjects BlockingChannels BlockingSlots.
From stdpp Require Import prelude list gmap.
#[local] Open Scope Z_scope.

#[export] Instance locks_perm `{!Watch, !TaskSpi} : Proper ((≡ₚ) ==> (=)) locks.
Proof. intros r r' Hr. unfold locks. by rewrite Hr. Qed.

(** Owners carry no lock. *)
Ltac weightless :=
  rewrite ?tally_app in *;
  repeat match goal with
  | |- context [tally ?w ?L] => rewrite (owners_weightless w L) by (done || auto with owners)
  | H : context [tally ?w ?L] |- _ => rewrite (owners_weightless w L) in H by (done || auto with owners)
  end.

(** Lock counts of a token list known up to order. *)
Ltac lk :=
  repeat match goal with
  | H : ?r ≡ₚ _ |- context [?r] => is_var r; rewrite H
  | H : ?r ≡ₚ _, H' : context [locks ?r] |- _ => is_var r; rewrite H in H'
  | H : ?r ≡ₚ _, H' : context [tally w_abl ?r] |- _ => is_var r; rewrite H in H'
  end;
  unfold locks, snap_toks, bump in *;
  repeat match goal with o : option (Z * Z) |- _ => destruct o as [[? ?]|] end;
  cbn [app] in *; rewrite ?tally_cons in *; weightless; rewrite ?tally_cons in *; cbn [w_sub w_abl] in *;
  repeat match goal with
  | |- context [tally w_abl ?r] => pose proof (tally_nonneg w_abl r w_abl_nonneg); generalize dependent (tally w_abl r); intros
  end; try lia; try done.

Section BlockingSpecs.
Context `{!BuildProfile, !LifecycleRepr, !Allocator, !Tokio, !Oneshot, !WaiterSet, !Watch, !TaskSpi}.
Context {Task : Type} `{!UserCode Task, !Monitor (Task := Task)}.
#[local] Abbreviation World := (World (Task := Task)).
#[local] Abbreviation bact := (bact (Task := Task)).
#[local] Abbreviation bwp := (wp (act := bact) Inv Guar ok own blk pre).
Implicit Types (s : World) (r R : list btok).

(** ** Notifications and accounting *)

Lemma notify_capacity_changed_spec t owed r0 r Q :
  locks r = 0 -> r ≡ₚ owed_toks owed ++ r0 -> (forall r', r' ≡ₚ r0 -> Q () r') ->
  bwp t notify_capacity_changed r Q.
Proof. apply wp_send_modify. Qed.

Lemma notify_termination_waiters_spec t r0 r Q :
  locks r = 0 -> r ≡ₚ TNotifyS :: r0 -> (forall r', r' ≡ₚ r0 -> Q () r') ->
  bwp t notify_termination_waiters r Q.
Proof.
  intros Hl Hr HQ. apply wp_bind, (wp_notify_all t r0); [done|done|]. intros r1 Hr1.
  apply (wp_notify_waiters t r0); [lk|done|done].
Qed.

(** The optional wake-up at the end of [finish_task] and
    [notify_if_terminated]. *)
Lemma notify_if_spec t (b : bool) r0 r Q :
  locks r = 0 -> r ≡ₚ (if b then [TNotifyS] else []) ++ r0 -> (forall r', r' ≡ₚ r0 -> Q () r') ->
  bwp t (if b then notify_termination_waiters else Ret ()) r Q.
Proof.
  intros Hl Hr HQ. destruct b; [by apply (notify_termination_waiters_spec t r0)|by apply HQ].
Qed.

Lemma finish_task_queued_spec t o r0 r Q :
  locks r = 0 -> r ≡ₚ TDebtQ :: snap_toks o ++ r0 ->
  (forall r', r' ≡ₚ snap_toks (bump o) ++ r0 -> Q () r') ->
  bwp t (finish_task false) r Q.
Proof.
  intros Hl Hr HQ. apply wp_bind, (wp_finish_queued_section t o r0); [done|]. intros b r1 Hr1.
  apply wp_bind, (notify_capacity_changed_spec t true ((if b then [TNotifyS] else []) ++ snap_toks (bump o) ++ r0)); [destruct b; lk|exact Hr1|]. intros r2 Hr2.
  apply (notify_if_spec t b (snap_toks (bump o) ++ r0)); [destruct b; lk|exact Hr2|done].
Qed.

Lemma finish_task_running_spec t r0 r Q :
  locks r = 0 -> r ≡ₚ TDebtR :: r0 -> (forall r', r' ≡ₚ r0 -> Q () r') ->
  bwp t (finish_task true) r Q.
Proof.
  intros Hl Hr HQ. apply wp_bind, (wp_finish_running_section t r0); [done|]. intros b r1 Hr1.
  apply wp_bind, (notify_capacity_changed_spec t true ((if b then [TNotifyS] else []) ++ r0)); [destruct b; lk|exact Hr1|]. intros r2 Hr2.
  apply (notify_if_spec t b r0); [destruct b; lk|exact Hr2|done].
Qed.

Lemma notify_if_terminated_spec t r0 r Q :
  locks r = 0 -> r ≡ₚ TShutting :: r0 -> (forall r', r' ≡ₚ r0 -> Q () r') ->
  bwp t notify_if_terminated r Q.
Proof.
  intros Hl Hr HQ. apply wp_bind, (wp_read_terminated t r0); [done|]. intros b r1 Hr1.
  apply (notify_if_spec t b r0); [destruct b; lk|done|done].
Qed.

(** ** The abort-handle map *)

Lemma drop_hook_spec t hook r0 r Q :
  r ≡ₚ hook_toks hook ++ r0 -> (forall r', r' ≡ₚ r0 -> Q () r') -> bwp t (drop_hook hook) r Q.
Proof.
  intros Hr HQ. destruct hook as [tr|sl tr]; [by apply HQ|]. by apply (wp_drop_slot t sl r0).
Qed.

Lemma drop_entry_spec t entry r0 r Q :
  r ≡ₚ entry_toks entry ++ r0 -> (forall r', r' ≡ₚ r0 -> Q () r') -> bwp t (drop_entry entry) r Q.
Proof. destruct entry as [tracked|]; [apply drop_hook_spec|]. intros Hr HQ. by apply HQ. Qed.

Lemma remove_abort_handle_spec t known tr m r0 r Q :
  tally w_abl r = 0 -> r ≡ₚ fin_toks known tr m ++ r0 ->
  (forall r', r' ≡ₚ (if known then [TKnown tr m; TFin m] else []) ++ r0 -> Q () r') ->
  bwp t (remove_abort_handle m) r Q.
Proof.
  intros Hl Hr HQ. set (h := if known then [TKnown tr m; TFin m] else []) in *.
  apply wp_bind, (wp_registration_finish t known tr m r0); [done|]. fold h. intros r1 Hr1.
  apply wp_bind, wp_lock_aborts.
  { subst h. destruct known; cbn [fin_toks] in *; lk. }
  intros r2 Hr2.
  apply wp_bind, (wp_remove_abort t m (h ++ r0)).
  { rewrite Hr2, Hr1. rewrite <- Permutation_middle. apply Permutation_swap. }
  intros removed r3 Hr3. apply wp_bind, (drop_entry_spec t removed (TAborts t :: h ++ r0)); [done|].
  intros r4 Hr4. by apply (wp_unlock_aborts t m (TAborts t) (h ++ r0)); [left|..].
Qed.

(** ... and releasing the lock drops what else is known. *)
Lemma unlock_aborts_spec t m tok d r0 r Q :
  tok = TAborts t \/ tok = TRegistering t m -> Forall droppable d -> r ≡ₚ d ++ tok :: r0 ->
  (forall r', r' ≡ₚ r0 -> Q () r') -> bwp t (do UnlockAborts) r Q.
Proof.
  intros Htok Hd Hr HQ. apply (wp_drop t _ d (tok :: r0)); [done..|].
  by apply (wp_unlock_aborts t m tok r0).
Qed.

(** Registration happens under the map's lock: a task that finished before
    leaves no entry, and the assertion on the map cannot fail. *)
Lemma register_abort_handle_spec t tr m h hook r0 r Q :
  tally w_abl r = 0 -> r ≡ₚ TUnreg m :: TKnown tr m :: hook_toks hook ++ r0 -> (forall r', r' ≡ₚ r0 -> Q () r') ->
  bwp t (register_abort_handle m h hook) r Q.
Proof.
  intros Hl Hr HQ. apply wp_bind, wp_lock_aborts; [done|]. intros r1 Hr1.
  assert (forall tok r', tok = TAborts t \/ tok = TRegistering t m -> r' ≡ₚ tok :: TKnown tr m :: hook_toks hook ++ r0 ->
    bwp t (do UnlockAborts ;; drop_hook hook)%exec r' Q) as Hunused.
  { intros tok r' Htok Hr'. apply wp_bind, (unlock_aborts_spec t m tok [TKnown tr m] (hook_toks hook ++ r0));
      [done|by repeat constructor|rewrite Hr'; apply Permutation_swap|].
    intros r2 Hr2. by apply (drop_hook_spec t hook r0). }
  apply wp_bind, (wp_load_finished t m (TKnown tr m :: hook_toks hook ++ r0)); [by rewrite Hr1, Hr|].
  intros [] r2 Hr2; cbn [negb]; [by apply (Hunused (TAborts t)); [left|]|].
  apply wp_bind, wp_quiet; [exact I..|].
  intros [] r3 Hr3; cbn [negb]; [by apply (Hunused (TRegistering t m)); [right|rewrite Hr3]|].
  apply wp_bind, (wp_insert_abort t tr m h hook r0); [by rewrite Hr3, Hr2|]. intros r4 Hr4.
  apply wp_bind, wp_quiet; [exact I..|]. intros [] r5 Hr5. cbn [drop_entry bind].
  apply (unlock_aborts_spec t m (TAborts t) [] r0); [by left|constructor| |done]. by rewrite Hr5, Hr4.
Qed.

(** ** Trackers and guards *)

Lemma tracker_mark_started_spec t tr r0 r Q :
  r ≡ₚ TGuard tr :: r0 ->
  (forall r', r' ≡ₚ TRunning tr :: r0 -> Q true r') ->
  (forall r', r' ≡ₚ TGuard tr :: r0 -> Q false r') ->
  bwp t (tracker_mark_started tr) r Q.
Proof.
  intros Hr HQt HQf. apply wp_bind, (wp_start_exchange t tr r0); [done|..].
  - intros r1 Hr1. apply wp_bind, (wp_mark_task_started t tr r0); [done|]. intros r2 Hr2. by apply HQt.
  - intros actual r1 Hne Hr1. destruct (Z.eqb_spec actual TASK_STATE_RUNNING); [done|]. by apply HQf.
Qed.

Lemma tracker_finish_queued_spec t tr o r0 r Q :
  locks r = 0 -> r ≡ₚ snap_toks o ++ r0 ->
  (forall (b : bool) r', r' ≡ₚ snap_toks (if b then bump o else o) ++ r0 -> Q b r') ->
  bwp t (tracker_finish_queued tr) r Q.
Proof.
  intros Hl Hr HQ. apply wp_bind, wp_cancel_exchange.
  - intros r1 Hr1. apply wp_bind, (finish_task_queued_spec t o r0); [lk|by rewrite Hr1, Hr|].
    intros r2 Hr2. by apply (HQ true).
  - intros actual r1 Hr1. apply (HQ false). by rewrite Hr1.
Qed.

Lemma read_marker_spec t tr r Q :
  (forall m r', r' ≡ₚ r -> Q m r') -> bwp t (do (ReadMarker tr)) r Q.
Proof. intros HQ. by apply wp_quiet. Qed.

Lemma tracker_cancel_queued_spec t tr r Q :
  locks r = 0 -> (forall b r', r' ≡ₚ r -> Q b r') -> bwp t (tracker_cancel_queued tr) r Q.
Proof.
  intros Hl HQ. apply wp_bind, read_marker_spec. intros m r1 Hr1.
  apply wp_bind, (remove_abort_handle_spec t false tr m r); [|done|].
  { rewrite Hr1. by apply no_sub_nil. }
  intros r2 Hr2. apply (tracker_finish_queued_spec t tr None r); [by rewrite Hr2|done|].
  intros [] r3 Hr3; by apply HQ.
Qed.

Lemma finish_debt_cases state :
  (state = TASK_STATE_QUEUED /\ finish_debt state = [TDebtQ]) \/
  (state = TASK_STATE_RUNNING /\ finish_debt state = [TDebtR]) \/
  (state <> TASK_STATE_QUEUED /\ state <> TASK_STATE_RUNNING /\ finish_debt state = []).
Proof.
  unfold finish_debt. destruct (Z.eqb_spec state TASK_STATE_QUEUED); [auto|].
  destruct (Z.eqb_spec state TASK_STATE_RUNNING); auto.
Qed.

Lemma tracker_finish_spec t tr m tok r0 r Q :
  locks r = 0 -> guard_of tr tok -> r ≡ₚ tok :: TKnown tr m :: TFin m :: r0 ->
  (forall r', r' ≡ₚ r0 -> Q () r') -> bwp t (tracker_finish tr) r Q.
Proof.
  intros Hl Hg Hr HQ. assert (locks r0 = 0) by (destruct Hg as [-> | ->]; lk).
  apply wp_bind, (wp_swap_finished t tr m tok r0); [done|done|]. intros state r1 Hr1.
  destruct (finish_debt_cases state) as [[-> Hd]|[[-> Hd]|(Hq & Hn & Hd)]]; rewrite Hd in Hr1; cbn [Z.eqb].
  - apply (finish_task_queued_spec t None r0); [lk|done|done].
  - apply (finish_task_running_spec t r0); [lk|done|done].
  - apply Z.eqb_neq in Hq as ->, Hn as ->. by apply HQ.
Qed.

(** Dropping a guard gives its accounting back, whatever it was. *)
Lemma guard_drop_spec t tr tok r0 r Q :
  locks r = 0 -> guard_of tr tok -> r ≡ₚ tok :: r0 -> (forall r', r' ≡ₚ r0 -> Q () r') ->
  bwp t (guard_drop tr) r Q.
Proof.
  intros Hl Hg Hr HQ. assert (locks (tok :: r0) = 0) as Hl0 by by rewrite <- Hr.
  assert (forall l, locks (tok :: l) = locks l) as Htok by (intros l; destruct Hg as [-> | ->]; done).
  rewrite Htok in Hl0. apply no_sub_nil in Hl0 as Hl1.
  apply wp_bind, (wp_read_marker t tr tok r0); [done|done|]. intros m r1 Hr1.
  apply wp_bind, (remove_abort_handle_spec t true tr m (tok :: r0)).
  { rewrite Hr1. assert (w_abl tok = 0) as Hz by (destruct Hg as [-> | ->]; done).
    rewrite !tally_cons, Hz. cbn. apply Hl1. }
  { rewrite Hr1. apply Permutation_swap. }
  intros r2 Hr2. apply (tracker_finish_spec t tr m tok r0); [..|done].
  - rewrite Hr2. change (locks (tok :: r0) = 0). by rewrite Htok.
  - done.
  - rewrite Hr2. cbn. symmetry. apply (Permutation_middle [TKnown tr m; TFin m] r0 tok).
Qed.

(** ** Hooks, closures and payloads *)

Lemma call_hook_spec t hook o r0 r Q :
  locks r = 0 -> r ≡ₚ snap_toks o ++ hook_toks hook ++ r0 ->
  (forall (b : bool) r', r' ≡ₚ snap_toks (if b then bump o else o) ++ r0 -> Q b r') ->
  bwp t (call_hook hook) r Q.
Proof.
  intros Hl Hr HQ. destruct hook as [tr|sl tr]; [by apply (tracker_finish_queued_spec t tr o r0)|].
  cbn [hook_toks app] in Hr. apply wp_bind, wp_bind, (tracker_finish_queued_spec t tr o (TOwner sl :: r0)); [done..|].
  intros b r1 Hr1.
  assert (forall r', r' ≡ₚ r1 -> bwp t (do (DropSlot sl) ;; Ret b)%exec r' Q) as Hend.
  { intros r' Hr'. apply wp_bind, (wp_drop_slot t sl (snap_toks (if b then bump o else o) ++ r0));
      [rewrite Hr', Hr1; solve_perm|]. by apply HQ. }
  destruct b; [|by apply Hend].
  apply wp_bind, (wp_keeps t _ sl cell_cancel_unstarted); [by right| |apply keeps_cancel_unstarted|intros _; exact Hend].
  cbn. lk.
Qed.

(** A panic is one of a task's destructor. *)
Definition unwinding (panicked : bool) : Prop := panicked = true -> unwinds (Machine := blocking_machine).

Lemma wp_drop_task t task r Q :
  locks r = 0 -> (forall panicked r', unwinding panicked -> r' ≡ₚ r -> Q panicked r') ->
  bwp t (do (DropTask task)) r Q.
Proof.
  intros Hl HQ. apply wp_do with (h := []) (r0 := r); [done|exact Hl|]. intros s R HI. cbn. split; [done|].
  exists []. split_and!; [constructor|exact HI|]. intros r'. apply HQ. intros Hp. by exists task, (rt s).
Qed.

(** A panic may leave only a function that owes nothing any more. *)
Lemma resume_unwind_spec t panicked Q : unwinding panicked -> Q () [] -> bwp t (resume_unwind panicked) [] Q.
Proof. destruct panicked; [|done]. intros Hu _. split; [done|by apply Hu]. Qed.

Lemma drop_task_spec t task Q : Q () [] -> bwp t (drop_task task) [] Q.
Proof.
  intros HQ. apply wp_bind, wp_drop_task; [done|]. intros panicked r Hu ->%perm_nil_eq.
  by apply resume_unwind_spec.
Qed.

(** Calling a closure consumes what it owns. *)
Lemma call_closure_spec t closure tr r0 r Q :
  locks r0 = 0 -> r ≡ₚ TRunning tr :: closure_toks closure ++ r0 ->
  (forall r', r' ≡ₚ TRunning tr :: r0 -> Q () r') -> bwp t (call_closure closure) r Q.
Proof.
  intros Hl Hr HQ. destruct closure as [task|sl task]; cbn [closure_toks app] in Hr.
  { apply wp_bind, (wp_call_runnable t tr); [lk|rewrite Hr; left|]. intros _ r1 Hr1. apply HQ. by rewrite Hr1. }
  set (end_toks := TRunning tr :: r0) in *. assert (locks end_toks = 0) as Hend by done.
  apply wp_bind, (wp_take_slot t sl end_toks); [rewrite Hr; solve_perm|]. intros [] r1 Hr1; cbn [app] in Hr1.
  2:{ apply wp_bind, (wp_drop_slot t sl end_toks); [done|]. intros r2 Hr2.
      apply wp_bind, wp_drop_task; [by rewrite Hr2|]. intros _ r3 _ Hr3. apply HQ. by rewrite Hr3. }
  apply wp_bind, (wp_runner_start t sl end_toks); [done|]. intros [] r2 Hr2; cbn [app] in Hr2; apply wp_bind.
  - apply wp_bind, (wp_call_callable t tr sl task (TOwner sl :: end_toks));
      [by rewrite Hr2|rewrite Hr2; do 2 right; left|rewrite Hr2; solve_perm|]. intros result r3 Hr3.
    apply (wp_runner_finish t sl result end_toks); [by rewrite Hr3|rewrite Hr3; solve_perm|]. intros r4 Hr4.
    by apply (wp_drop_slot t sl end_toks).
  - apply wp_bind, wp_drop_task; [by rewrite Hr2|]. intros _ r3 _ Hr3.
    apply (wp_drop_slot t sl end_toks); [by rewrite Hr3|exact HQ].
Qed.

Lemma drop_closure_spec t closure r0 r Q :
  locks r0 = 0 -> r ≡ₚ closure_toks closure ++ r0 ->
  (forall panicked r', unwinding panicked -> r' ≡ₚ r0 -> Q panicked r') ->
  bwp t (drop_closure closure) r Q.
Proof.
  intros Hl Hr HQ. destruct closure as [task|sl task]; cbn [closure_toks app] in Hr.
  { apply wp_drop_task; [by rewrite Hr|]. intros panicked r1 Hu Hr1. apply HQ; [done|by rewrite Hr1]. }
  apply wp_bind, (wp_drop_slot t sl r0); [done|]. intros r1 Hr1.
  apply wp_drop_task; [by rewrite Hr1|]. intros panicked r2 Hu Hr2. apply HQ; [done|by rewrite Hr2].
Qed.

Lemma payload_drop_spec t closure tr r0 r Q :
  locks r0 = 0 -> r ≡ₚ TGuard tr :: closure_toks closure ++ r0 ->
  (forall panicked r', unwinding panicked -> r' ≡ₚ r0 -> Q panicked r') ->
  bwp t (payload_drop (closure, tr)) r Q.
Proof.
  intros Hl Hr HQ. apply wp_bind, (drop_closure_spec t closure (TGuard tr :: r0)); [done|rewrite Hr; solve_perm|].
  intros panicked r1 Hu Hr1. apply wp_bind, (guard_drop_spec t tr (TGuard tr) r0); [by rewrite Hr1|by left|done|].
  intros r2. by apply HQ.
Qed.

Lemma worker_spec t ch : bwp t (worker ch) [TReceiver ch] fin_post.
Proof.
  apply wp_bind, wp_blocking_recv. intros [[closure tr]|] r1 Hr1; cbn in Hr1; [|by apply perm_nil_eq].
  apply wp_bind, (tracker_mark_started_spec t tr (closure_toks closure)); [done|..]; intros r2 Hr2.
  - apply wp_bind, (call_closure_spec t closure tr []); [done|by rewrite app_nil_r|]. intros r3 Hr3.
    apply (guard_drop_spec t tr (TRunning tr) []); [by rewrite Hr3|by right|done|apply perm_nil_eq].
  - apply wp_bind, (guard_drop_spec t tr (TGuard tr) (closure_toks closure)); [lk|by left|done|].
    intros r3 Hr3. apply wp_bind, (drop_closure_spec t closure []); [done|by rewrite app_nil_r|].
    intros _ r4 _. apply perm_nil_eq.
Qed.

Lemma discard_spec t ch : bwp t (discard ch) [TReceiver ch] fin_post.
Proof.
  apply wp_bind, wp_drop_receiver. intros [[closure tr]|] r1 Hr1; cbn in Hr1; [|by apply perm_nil_eq].
  apply wp_bind, (payload_drop_spec t closure tr []); [done|by rewrite app_nil_r|]. intros _ r2 _. apply perm_nil_eq.
Qed.

(** What a spawned closure does, whether it is run or discarded. *)
Lemma closure_body_spec (f : BlockingClosure) t :
  Forall (own t) (pre f) /\ bwp t (body f) (pre f) fin_post.
Proof.
  split; [by repeat constructor|]. apply wp_bind, wp_quiet; [exact I..|].
  intros [] r Hr; apply Permutation_singleton_r in Hr as ->; [apply worker_spec|apply discard_spec].
Qed.

(** ** Submission *)

(** A submitter that subscribed before knows, when it is told that the service
    is saturated, that a later change will be published. *)
Lemma prepare_for_subscriber t o Q :
  Q (inr Shutdown) [] -> (forall r', r' ≡ₚ full_toks o -> Q (inr Saturated) r') ->
  (forall m g r', r' ≡ₚ [TGuard g; TKnown g m; TUnreg m; TAdmit t] -> Q (inl (m, g)) r') ->
  bwp t prepare_blocking_submission (watch_toks o) Q.
Proof.
  intros HQc HQs HQa. assert (Forall droppable (watch_toks o)) as Hd by (destruct o; repeat constructor).
  apply wp_bind, wp_lock_submission; [destruct o; repeat constructor|]. intros r1 Hr1.
  apply wp_bind, wp_bind, (wp_load_admission t (watch_toks o)); [done|].
  intros byte r2 Hbyte Hr2. cbn [wp].
  destruct (Z.eqb_spec byte 0) as [->|Hne].
  2:{ rewrite bool_decide_eq_false_2 by (by rewrite stored_Running). cbn [negb].
      apply wp_bind, (wp_drop t _ (watch_toks o) [TSub t]);
        [by rewrite Hr2, <- Permutation_cons_append|done|done|].
      apply (wp_unlock_submission t (TSub t) []); [by left|done|].
      by intros r3 ->%perm_nil_eq. }
  rewrite bool_decide_eq_true_2 by (by rewrite stored_Running). cbn [negb].
  apply wp_bind, (wp_try_accept_task t o []); [by rewrite app_nil_r|..]; intros r3 Hr3; cbn [negb];
    rewrite app_nil_r in Hr3.
  - by apply wp_bind, (wp_unlock_submission t (TAdmit t) (full_toks o)); [right|..].
  - apply wp_bind, (wp_drop t _ (watch_toks o) [TReserved; TAdmit t]);
      [rewrite Hr3; exact (Permutation_app_comm [TReserved; TAdmit t] (watch_toks o))|done|done|].
    apply wp_registration_new. intros m r4 Hr4.
    apply wp_bind, (wp_tracker_new t m []); [by rewrite Hr4|]. intros g r5 Hr5. by apply HQa.
Qed.

Lemma prepare_blocking_submission_spec t Q :
  (forall reason, Q (inr reason) []) ->
  (forall m g r', r' ≡ₚ [TGuard g; TKnown g m; TUnreg m; TAdmit t] -> Q (inl (m, g)) r') ->
  bwp t prepare_blocking_submission [] Q.
Proof.
  intros HQr HQa. apply (prepare_for_subscriber t None); [apply HQr| |done].
  intros r' ->%perm_nil_eq. apply HQr.
Qed.

Lemma spawn_accepted_blocking_task_spec t m g cancel r0 r Q :
  locks r0 = 0 -> r ≡ₚ TGuard g :: TKnown g m :: TUnreg m :: TAdmit t :: hook_toks cancel ++ r0 ->
  (forall h ch r', r' ≡ₚ TSender ch :: TGuard g :: r0 -> Q (h, ch) r') ->
  bwp t (spawn_accepted_blocking_task m cancel) r Q.
Proof.
  intros Hl Hr HQ. apply no_sub_nil in Hl as [_ Hl]. apply wp_bind, wp_new_channel. intros ch r1 Hr1.
  apply wp_bind, (wp_spawn_blocking t ch (TSender ch :: r)); [done|]. intros h r2 Hr2.
  apply wp_bind, (register_abort_handle_spec t g m h cancel (TSender ch :: TGuard g :: TAdmit t :: r0)).
  { lk. }
  { rewrite Hr2, Hr. solve_perm. }
  intros r3 Hr3. apply wp_bind, (wp_unlock_submission t (TAdmit t) (TSender ch :: TGuard g :: r0));
    [by right|rewrite Hr3; solve_perm|]. intros r4 Hr4. by apply HQ.
Qed.

Lemma hand_over_spec t ch closure g r Q :
  r ≡ₚ TSender ch :: TGuard g :: closure_toks closure -> Q () [] -> bwp t (hand_over ch (closure, g)) r Q.
Proof.
  intros Hr HQ. apply wp_bind, (wp_send t ch closure g []); [by rewrite app_nil_r|..]; intros r1 Hr1.
  - by apply perm_nil_eq in Hr1 as ->.
  - apply wp_bind, (payload_drop_spec t closure g []); [done|done|].
    intros panicked r2 Hu ->%perm_nil_eq. by apply resume_unwind_spec.
Qed.

(** A new slot has two owners: its closure, and the hook of its task. *)
Lemma new_accepted_endpoint_spec t r Q :
  (forall slot r', r' ≡ₚ TOwner slot :: TOwner slot :: r -> Q slot r') -> bwp t new_accepted_endpoint r Q.
Proof.
  intros HQ. apply wp_bind, wp_new_endpoint. intros slot r1 Hr1.
  apply wp_bind, (wp_keeps t _ slot (fun e => ((), slot_accept e))); [by left|done|apply keeps_accept|].
  intros _ r2 Hr2. apply wp_bind, (wp_clone_slot t slot r); [by rewrite Hr2|]. intros r3 Hr3. by apply HQ.
Qed.

(** What a submission leaves to a caller that subscribed to capacity changes. *)
Definition admits {A} (attempt : Task -> Prog bact (A + RejectedTask Task)) : Prop :=
  forall t o task Q, (forall a, Q (inl a) []) -> Q (inr (RejectedTask.new Shutdown task)) [] ->
    (forall r', r' ≡ₚ full_toks o -> Q (inr (RejectedTask.new Saturated task)) r') ->
    bwp t (attempt task) (watch_toks o) Q.

Lemma admits_spec {A} (attempt : Task -> Prog bact (A + RejectedTask Task)) t task Q :
  admits attempt -> (forall a, Q a []) -> bwp t (attempt task) [] Q.
Proof. intros Ha HQ. apply (Ha t None); [done..|]. by intros r' ->%perm_nil_eq. Qed.

Lemma try_submit_admits : admits try_submit.
Proof.
  intros t o task Q HQ HQc HQs. apply wp_bind, (prepare_for_subscriber t o); [exact HQc|exact HQs|].
  intros m g r1 Hr1. apply wp_bind, (spawn_accepted_blocking_task_spec t m g _ []); [done|done|].
  intros h ch r2 Hr2. apply wp_bind, (hand_over_spec t ch _ g); [done|apply HQ].
Qed.

Lemma try_submit_callable_admits : admits try_submit_callable.
Proof.
  intros t o task Q HQ HQc HQs. apply wp_bind, (prepare_for_subscriber t o); [exact HQc|exact HQs|].
  intros m g r1 Hr1. apply wp_bind, new_accepted_endpoint_spec. intros slot r2 Hr2.
  apply wp_bind, (spawn_accepted_blocking_task_spec t m g _ [TOwner slot]); [done|rewrite Hr2, Hr1; solve_perm|].
  intros h ch r3 Hr3. apply wp_bind, (hand_over_spec t ch _ g); [done|apply HQ].
Qed.

Lemma try_submit_tracked_callable_admits : admits try_submit_tracked_callable.
Proof.
  intros t o task Q HQ HQc HQs. apply wp_bind, (prepare_for_subscriber t o); [exact HQc|exact HQs|].
  intros m g r1 Hr1. apply wp_bind, new_accepted_endpoint_spec. intros slot r2 Hr2.
  apply wp_bind, (spawn_accepted_blocking_task_spec t m g _ [TOwner slot]); [done|rewrite Hr2, Hr1; solve_perm|].
  intros h ch r3 Hr3. apply wp_bind, (hand_over_spec t ch _ g); [done|apply HQ].
Qed.

Lemma attempt_admits {A} (attempt : Task -> Prog bact (A + RejectedTask Task)) : Attempt attempt -> admits attempt.
Proof.
  destruct 1; [apply try_submit_admits|apply try_submit_callable_admits|apply try_submit_tracked_callable_admits].
Qed.

(** Dropping the receiver forgets the subscription. *)
Lemma drop_changes_spec t rx r Q :
  Forall droppable r -> (forall r', r' = [] -> Q () r') -> bwp t (do (DropChanges rx)) r Q.
Proof.
  intros Hd HQ. apply (wp_drop t _ r []); [by rewrite app_nil_r|done|done|].
  apply wp_quiet; [done..|]. intros [] r' Hr'. by apply HQ, perm_nil_eq.
Qed.

Lemma retry_spec {A} (attempt : Task -> Prog bact (A + RejectedTask Task)) t attempts task Q :
  admits attempt -> (forall a, Q a []) ->
  forall rx, bwp t (retry attempt attempts rx task) [TWatch rx] Q.
Proof.
  intros Ha HQ. induction attempts as [|attempts IH]; intros rx; cbn [retry].
  { apply wp_bind, drop_changes_spec; [by repeat constructor|]. intros r ->.
    apply wp_bind, drop_task_spec, HQ. }
  apply wp_bind, (Ha t (Some rx) task).
  - intros a. apply wp_bind, drop_changes_spec; [done|]. intros r ->. apply HQ.
  - apply (wp_bind _ _ _ _ _ _ t (do (DropChanges rx))), drop_changes_spec; [done|]. intros r ->.
    apply wp_bind, drop_task_spec, HQ.
  - intros r ->%Permutation_singleton_r. apply wp_bind, wp_await_changed. exact IH.
Qed.

(** The methods that do not hand a rejected task back. *)
Lemma rejection_reason_spec {A} (attempt : Task -> Prog bact (A + RejectedTask Task)) t task Q :
  Attempt attempt -> (forall a, Q a []) -> bwp t (let! result := attempt task in rejection_reason result)%exec [] Q.
Proof.
  intros Ha HQ. apply (wp_bind _ _ _ _ _ _ t (attempt task)), admits_spec; [by apply attempt_admits|].
  intros [a|[reason task']]; [apply HQ|]. apply wp_bind, drop_task_spec, HQ.
Qed.

Lemma submit_when_admissible_spec {A} (attempt : Task -> Prog bact (A + RejectedTask Task)) t attempts task Q :
  admits attempt -> (forall a, Q a []) -> bwp t (submit_when_admissible attempt attempts task) [] Q.
Proof.
  intros Ha HQ. apply wp_bind, wp_subscribe. intros rx r ->%Permutation_singleton_r. by apply retry_spec.
Qed.

(** ** Shutdown and stop *)

Lemma service_shutdown_spec t Q : (forall a, Q a []) -> bwp t service_shutdown [] Q.
Proof.
  intros HQ. apply wp_bind, wp_lock_submission; [done|]. intros r1 Hr1.
  apply wp_bind, (wp_shutdown t []); [done|]. intros r2 Hr2.
  apply wp_bind, (wp_unlock_submission t (TSub t) [TShutting]); [by left|rewrite Hr2; solve_perm|].
  intros r3 Hr3. apply wp_bind, (notify_capacity_changed_spec t false [TShutting]); [by rewrite Hr3|done|].
  intros r4 Hr4. apply (notify_if_terminated_spec t []); [by rewrite Hr4|done|].
  intros r5 Hr5. by apply perm_nil_eq in Hr5 as ->.
Qed.

(** Every successful hook call moves one task out of the queue, so the number
    of cancelled tasks never exceeds the number found queued. *)
Lemma abort_all_spec t q handles : forall n r0 r Q,
  locks r0 = 0 -> r ≡ₚ TSnap q n :: handles_toks handles ++ r0 -> (forall n' r', r' ≡ₚ TSnap q n' :: r0 -> Q n' r') ->
  bwp t (abort_all call_hook n handles) r Q.
Proof.
  induction handles as [|[k tracked] rest IH]; intros n r0 r Q Hl Hr HQ; cbn [abort_all].
  { by apply HQ. }
  set (hook := ta_cancel tracked).
  change (handles_toks ((k, tracked) :: rest)) with (hook_toks hook ++ handles_toks rest) in Hr.
  apply wp_bind, wp_quiet; [exact I..|]. intros [] r1 Hr1; cbn [negb].
  { apply wp_bind, (drop_hook_spec t hook (TSnap q n :: handles_toks rest ++ r0)); [rewrite Hr1, Hr; solve_perm|].
    intros r2 Hr2. by apply (IH n r0). }
  apply wp_bind, wp_quiet; [exact I|cbn; lk|]. intros [] r2 Hr2.
  apply wp_bind, (call_hook_spec t hook (Some (q, n)) (handles_toks rest ++ r0));
    [lk|rewrite Hr2, Hr1, Hr; cbn [snap_toks]; solve_perm|].
  intros b r3 Hr3. apply (IH _ r0); [done|by destruct b|done].
Qed.

(** [stop] followed by handing its report to the caller. *)
Definition stop_and_report : Prog bact StopReport :=
  (let! report := service_stop in do (Report report) ;; Ret report)%exec.

Lemma wp_report_snap t q c n r Q :
  r ≡ₚ [TSnap q c] -> (forall r', r' = [] -> Q () r') -> bwp t (do (Report (Build_StopReport q n c))) r Q.
Proof.
  intros Hr HQ. apply wp_do with (h := [TSnap q c]) (r0 := []); [done|done|].
  intros s R HI. cbn. split; [by apply guar_locks|]. exists [].
  pose proof (counts_facts _ _ HI) as ((Hq & _) & _).
  split_and!; [constructor| |intros r' Hr'; by apply HQ, perm_nil_eq].
  destruct_inv HI. split_toks. cbn in Htok. inv_fields. constructor; [|done].
  unfold report_ok. cbn. lia.
Qed.

Lemma stop_and_report_spec t Q : (forall a, Q a []) -> bwp t stop_and_report [] Q.
Proof.
  intros HQ. apply wp_bind, wp_bind, wp_lock_submission; [done|]. intros r1 Hr1.
  apply wp_bind, (wp_stop t []); [done|]. intros r2 Hr2.
  apply wp_bind, (wp_task_count_snapshot t [TSub t]); [done|]. intros q n r3 Hq Hr3.
  apply wp_bind, (wp_unlock_submission t (TSub t) [TSnap q 0; TShutting]); [by left|rewrite Hr3; solve_perm|].
  intros r4 Hr4. apply wp_bind, wp_bind, wp_lock_aborts; [by rewrite Hr4|]. intros r5 Hr5.
  apply wp_bind, wp_take_aborts. intros handles r6 Hr6.
  apply wp_bind, (wp_unlock_aborts t 0 (TAborts t) (TSnap q 0 :: handles_toks handles ++ [TShutting]));
    [by left|rewrite Hr6, Hr5, Hr4; solve_perm|]. intros r7 Hr7.
  apply (abort_all_spec t q handles 0 [TShutting]); [done|done|]. intros c r8 Hr8.
  apply wp_bind, (notify_capacity_changed_spec t false [TSnap q c; TShutting]);
    [by rewrite Hr8|exact Hr8|]. intros r9 Hr9.
  apply wp_bind, (notify_if_terminated_spec t [TSnap q c]); [by rewrite Hr9|rewrite Hr9; solve_perm|]. intros r10 Hr10. cbn [wp].
  apply wp_bind, (wp_report_snap t q c n); [done|]. intros r11 ->. apply HQ.
Qed.

(** ** Queries and waiting *)

Lemma lifecycle_spec t r Q : (forall l r', r' ≡ₚ r -> Q l r') -> bwp t lifecycle r Q.
Proof.
  intros HQ. apply wp_bind, wp_quiet; [exact I..|]. intros byte r1 Hr1.
  apply wp_bind, wp_read_counts. intros b r2 Hr2. apply HQ. by rewrite Hr2.
Qed.

Lemma stats_spec t Q : (forall a, Q a []) -> bwp t stats [] Q.
Proof.
  intros HQ. apply wp_bind, wp_read_counts. intros [q n] r1 Hr1.
  apply wp_bind, lifecycle_spec. intros l r2 Hr2.
  apply wp_bind, wp_quiet; [exact I..|]. intros c r3 Hr3.
  assert (r3 = []) as -> by (apply perm_nil_eq; by rewrite Hr3, Hr2). apply HQ.
Qed.

(** What is left when a wait answers [b]: knowledge, that the service has
    terminated if [b] says so. *)
Definition answered (b : bool) r : Prop := Forall droppable r /\ (b = true -> TDone ∈ r).

Lemma answered_true w r : r ≡ₚ [TDone; TWaiter w] -> answered true r.
Proof. intros Hr. unfold answered. rewrite Hr. split; [by repeat constructor|left]. Qed.

Lemma answered_false r d : r ≡ₚ d -> Forall droppable d -> answered false r.
Proof. intros Hr Hd. split; [by rewrite Hr|done]. Qed.

(** Knowledge is forgotten before an action that does not need it. *)
Lemma forget {B} t (c : bact B) r Q :
  Forall droppable r -> ok _ t c r -> bwp t (do c) [] Q -> bwp t (do c) r Q.
Proof. apply (wp_drop t c r []). by rewrite app_nil_r. Qed.

(** Once a wait is over its answer is handed to the caller. *)
Lemma answer_spec t bounded b r Q :
  answered b r -> (bounded = false -> b = true) -> Q () [] -> bwp t (do (Answer bounded b)) r Q.
Proof.
  intros [Hd Hb] Hu HQ. destruct b.
  - apply list_elem_of_split in Hb as (l1 & l2 & ->); [|done].
    assert (l1 ++ TDone :: l2 ≡ₚ (l1 ++ l2) ++ [TDone]) as Hr
      by by rewrite <- Permutation_middle, <- Permutation_cons_append.
    apply (wp_drop t _ (l1 ++ l2) [TDone]); [done| |done|].
    { rewrite Hr in Hd. by apply Forall_app in Hd as [? _]. }
    apply (wp_answer t bounded true []); [done|done|]. by intros r2 ->%perm_nil_eq.
  - apply forget; [done|done|]. apply (wp_answer t bounded false []); [done|done|]. by intros r2 ->%perm_nil_eq.
Qed.

(** An action in front of a program that is not spelled out. *)
Lemma wp_before {A B} t (c : bact B) (k : B -> Prog bact A) r Q :
  bwp t (do c) r (fun b r' => bwp t (k b) r' Q) -> bwp t (Act c k) r Q.
Proof. intros Hc. change (Act c k) with (bind (do c) k). by apply wp_bind. Qed.

(** One wake-up is enough: whoever is woken finds the service terminated. *)
Lemma waits_spec t fuel w p Q :
  waits terminated_predicate w (S (S fuel)) p -> (forall r, answered true r -> Q true r) ->
  bwp t p [TWaiter w] Q.
Proof.
  intros (k & k' & -> & Hkt & Hkf & (k1 & _ & Hk' & Hk1 & _)) HQ.
  apply wp_before, (wp_park t w []); [done|]. intros [] r Hr; [rewrite Hkt; by apply HQ, (answered_true w)|].
  apply Permutation_singleton_r in Hr as ->. rewrite Hkf. apply wp_before, wp_unpark. intros r1 Hr1.
  rewrite Hk'. apply wp_before, (wp_park_done t w []); [done|]. intros r2 Hr2. rewrite Hk1.
  by apply HQ, (answered_true w).
Qed.

Lemma wait_termination_spec t fuel Q :
  (forall r, answered true r -> Q true r) -> bwp t (wait_termination (S (S fuel))) [] Q.
Proof.
  intros HQ. destruct (wait_until_ready_waits (S (S fuel)) terminated_predicate) as (k & Hk & Hw).
  unfold wait_termination. rewrite Hk. apply wp_before, wp_new_waiter. intros w r ->%Permutation_singleton_r.
  by apply (waits_spec t fuel w).
Qed.

Lemma quiet_spec {B} t (c : bact B) Q :
  neutral c -> ok _ t c [] -> (forall a, Q a []) -> bwp t (do c) [] Q.
Proof. intros Hn Hok HQ. apply wp_quiet; [done|done|]. intros b r ->%perm_nil_eq. apply HQ. Qed.

Lemma read_counts_spec {B} t (f : TokioExecutorServiceState -> TokioExecutorTaskCounts -> B) Q :
  (forall a, Q a []) -> bwp t (do (WithCounts (fun self counts => Some (f self counts, counts)))) [] Q.
Proof. intros HQ. apply wp_read_counts. intros b r ->%perm_nil_eq. apply HQ. Qed.

Lemma observed_termination_spec t r Q :
  Forall droppable r -> (forall b r', answered b r' -> Q b r') -> bwp t observed_termination r Q.
Proof.
  intros Hd HQ. apply wp_bind, wp_bind, wp_load_closed. intros byte r1 Hbyte Hr1. cbn [wp].
  destruct (Z.eqb_spec byte 0) as [->|Hne].
  { rewrite bool_decide_eq_true_2 by (by rewrite stored_Running). by apply HQ, (answered_false _ r). }
  rewrite bool_decide_eq_false_2 by (by rewrite stored_Running).
  apply (wp_read_empty_closed t r); [done|]. intros b r2 Hr2.
  apply HQ. unfold answered. rewrite Hr2. destruct b; cbn [app].
  - split; [by repeat constructor|left].
  - split; [by constructor|done].
Qed.

Lemma waits_bounded_spec t n w p Q :
  waits_bounded terminated_predicate w n p -> (forall b r, answered b r -> Q (Some b) r) ->
  bwp t p [TWaiter w] Q.
Proof.
  intros Hp HQ. destruct n as [|n].
  { cbn in Hp. subst p. apply HQ, (answered_false _ [TWaiter w]); by repeat constructor. }
  destruct Hp as (k & k' & k'' & -> & Hkt & Hkf & Hk' & Hx & Hk'').
  apply wp_before, (wp_park t w []); [done|]. intros [] r Hr; [rewrite Hkt; by apply HQ, (answered_true w)|].
  apply Permutation_singleton_r in Hr as ->. rewrite Hkf. apply wp_before, wp_timed_unpark. intros [] r1 Hr1.
  - destruct n as [|n]; [cbn in Hk'; rewrite Hk'|destruct Hk' as (k1 & _ & _ & -> & Hk1 & _)].
    + apply HQ, (answered_false _ [TDone; TWaiter w]); [done|by repeat constructor].
    + apply wp_before, (wp_park_done t w []); [done|]. intros r2 Hr2. rewrite Hk1. by apply HQ, (answered_true w).
  - rewrite Hx. apply wp_before, wp_read_done; [done|]. intros b r2 Hr2. rewrite Hk''. apply HQ.
    unfold answered. rewrite Hr2, Hr1.
    destruct b; cbn [app]; (split; [by repeat constructor|]); [left|done].
Qed.

Lemma wait_until_ready_timed_spec t n bound Q :
  (forall b r, answered b r -> Q (Some b) r) -> Q None [] ->
  bwp t (wait_until_ready_with_total_timeout n bound terminated_predicate) [] Q.
Proof.
  intros HQ Herr. destruct (bounded_wait bound) eqn:Hb; [|by rewrite wait_until_ready_error].
  destruct (wait_until_ready_timed n bound terminated_predicate Hb) as (k & -> & Hk).
  apply wp_before, wp_new_waiter. intros w r ->%Permutation_singleton_r. by apply (waits_bounded_spec t n w).
Qed.

Lemma wait_termination_timeout_loop_spec t rounds wakeups timeout started Q :
  (forall b r, answered b r -> Q b r) -> forall r, Forall droppable r ->
  bwp t (wait_termination_timeout_loop rounds wakeups timeout started) r Q.
Proof.
  intros HQ. induction rounds as [|rounds IH]; intros r Hd; cbn [wait_termination_timeout_loop].
  { by apply HQ. }
  apply wp_bind, observed_termination_spec; [done|]. intros [] r1 Hr1; [by apply HQ|].
  apply wp_bind, forget; [apply Hr1|done|]. apply quiet_spec; [done..|]. intros instant.
  destruct (_ =? 0); [by apply HQ|]. apply wp_bind, wait_until_ready_timed_spec.
  - intros [] r3 Hr3; [by apply HQ|]. apply IH, Hr3.
  - by apply observed_termination_spec.
Qed.

Lemma wait_termination_timeout_spec t rounds wakeups timeout Q :
  (forall b r, answered b r -> Q b r) -> bwp t (wait_termination_timeout rounds wakeups timeout) [] Q.
Proof.
  intros HQ. apply wp_bind, quiet_spec; [done..|]. intros started.
  by apply wait_termination_timeout_loop_spec.
Qed.

(** An enabled waiter that decides to sleep has seen a state that is not
    terminated, after it was enabled. *)
Lemma is_terminated_checking_spec t w Q :
  (forall r', r' ≡ₚ [TChecking w; TDone] -> Q true r') -> Q false [TAsleep w] ->
  bwp t is_terminated [TChecking w] Q.
Proof.
  intros HQt HQf. apply wp_bind, wp_bind, (wp_load_checking t w []); [done|].
  intros byte r1 Hbyte Hr1. rewrite app_nil_r in Hr1. apply wp_bind.
  destruct (stored_cases byte Hbyte) as [[-> Hl]|Hstopped].
  - apply wp_read_counts. intros b r2 Hr2. rewrite Hr1 in Hr2.
    apply Permutation_singleton_r in Hr2 as ->. rewrite Hl. exact HQf.
  - assert ((byte =? 0) = false) as Hb by (by destruct Hstopped as [[-> _]|[-> _]]). rewrite Hb in Hr1.
    apply (wp_read_empty_checking t w []); [done|].
    intros [] r2 Hr2; rewrite app_nil_r in Hr2;
      [apply HQt in Hr2|apply Permutation_singleton_r in Hr2 as ->];
      by destruct Hstopped as [[_ ->]|[_ ->]].
Qed.

Lemma is_terminated_done_spec t r0 r Q :
  r ≡ₚ TDone :: r0 -> (forall r', r' ≡ₚ TDone :: r0 -> Q true r') -> bwp t is_terminated r Q.
Proof.
  intros Hr HQ. apply wp_bind, wp_bind, (wp_load_done t r0); [done|]. intros byte r1 Hbyte Hne Hr1.
  apply wp_bind, (wp_read_empty_done t r0); [done|]. intros r2 Hr2. apply HQ in Hr2.
  destruct (stored_cases byte Hbyte) as [[-> _]|[[_ ->]|[_ ->]]]; done.
Qed.

(** The check of an enabled waiter, [k] being what it does when it finds the service
    not terminated.  A waiter that was notified finds it terminated. *)
Definition checked (w : nat) (k : Prog bact bool) : Prog bact bool :=
  (do (Enable w) ;;
   let! terminated := is_terminated in
   if terminated then do (DropNotified w) ;; Ret true else k)%exec.

Lemma drop_checked_spec t w r Q :
  (forall r, answered true r -> Q true r) -> r ≡ₚ [TChecking w; TDone] ->
  bwp t (do (DropNotified w) ;; Ret true)%exec r Q.
Proof.
  intros HQ Hr. apply wp_bind, (wp_drop_notified t w (TChecking w) [TDone]); [by left|done|].
  intros r1 Hr1. apply HQ, (answered_true w). rewrite Hr1. apply Permutation_swap.
Qed.

Lemma checked_spec t w k Q :
  (forall r, answered true r -> Q true r) -> bwp t k [TAsleep w] Q -> bwp t (checked w k) [TWaiter w] Q.
Proof.
  intros HQ Hk. apply wp_bind, (wp_enable t w []); [done|]. intros r1 ->%Permutation_singleton_r.
  apply wp_bind, is_terminated_checking_spec; [|exact Hk]. intros r2 Hr2. by apply drop_checked_spec.
Qed.

Lemma checked_again_spec t w k r Q :
  (forall r, answered true r -> Q true r) -> r ≡ₚ [TDone; TWaiter w] -> bwp t (checked w k) r Q.
Proof.
  intros HQ Hr. apply wp_bind, (wp_enable t w [TDone]); [rewrite Hr; apply Permutation_swap|]. intros r1 Hr1.
  apply wp_bind, (is_terminated_done_spec t [TChecking w]); [rewrite Hr1; apply Permutation_swap|].
  intros r2 Hr2. apply drop_checked_spec; [done|]. rewrite Hr2. apply Permutation_swap.
Qed.

(** One notification is enough; before it, the caller may give up. *)
Lemma await_termination_loop_spec t fuel w Q :
  (forall r, answered true r -> Q true r) -> (fuel = O -> forall r, answered false r -> Q false r) ->
  bwp t (await_termination_loop fuel w) [TWaiter w] Q.
Proof.
  intros HQ HQf. destruct fuel as [|fuel]; apply checked_spec; [done| |done|].
  - apply wp_bind, (wp_drop_notified t w (TAsleep w) []); [by right|done|].
    intros r1 Hr1. apply HQf; [done|]. apply (answered_false _ _ Hr1). by repeat constructor.
  - apply wp_bind, wp_await_notified. intros r1 Hr1. by destruct fuel; apply checked_again_spec.
Qed.

Lemma await_termination_spec t fuel Q :
  (forall r, answered true r -> Q true r) -> (fuel = O -> forall r, answered false r -> Q false r) ->
  bwp t (await_termination fuel) [] Q.
Proof.
  intros HQ HQf. apply wp_bind, wp_new_waiter. intros w r ->%Permutation_singleton_r.
  by apply await_termination_loop_spec.
Qed.

(** A wait whose answer is handed to the caller. *)
Definition answering (bounded : bool) (wait : Prog bact bool) : Prog bact bool :=
  (let! b := wait in do (Answer bounded b) ;; Ret b)%exec.

Lemma answering_spec t bounded wait Q :
  (forall Q', (forall b r, answered b r -> (bounded = false -> b = true) -> Q' b r) -> bwp t wait [] Q') ->
  (forall a, Q a []) -> bwp t (answering bounded wait) [] Q.
Proof.
  intros Hw HQ. apply wp_bind, Hw. intros b r Hr Hb. apply wp_bind, answer_spec; [done..|]. apply HQ.
Qed.

Lemma cancel_blocking_task_spec t slot tr h Q :
  (forall a, Q a []) ->
  bwp t (cancel_blocking_task (do (PublishEndpoint slot handle_cancel)) (cancel_queued_callback tr) h) [] Q.
Proof.
  intros HQ. apply wp_bind, (wp_keeps t _ slot handle_cancel); [by right|done|apply keeps_cancel|].
  intros result r1 Hr1. apply perm_nil_eq in Hr1 as ->.
  destruct (bool_decide _); [|apply HQ].
  apply wp_bind, wp_bind, tracker_cancel_queued_spec; [done|]. intros b r2 Hr2. cbn [wp].
  apply perm_nil_eq in Hr2 as ->. apply wp_bind, wp_quiet; [exact I|done|]. intros [] r3 Hr3.
  apply perm_nil_eq in Hr3 as ->. apply HQ.
Qed.

Lemma observe_spec {B} t slot (f : endpoint -> B) Q :
  (forall a, Q a []) -> bwp t (do (OnEndpoint slot (fun e => (f e, e)))) [] Q.
Proof.
  intros HQ. apply (wp_keeps t _ slot (fun e => (f e, e))); [by left|done|apply keeps_observer|].
  intros b r ->%perm_nil_eq. apply HQ.
Qed.

(** ** Clients *)

(** The operations a user of the service, of a handle or of a cancellation
    handle can call.  Two units of fuel are enough for the unbounded waits. *)
Inductive Api : forall {A}, Prog bact A -> Prop :=
  | Api_submit {A} (attempt : Task -> Prog bact (A + RejectedTask Task)) task :
      Attempt attempt -> Api (attempt task)
  | Api_submit_runnable task : Api (submit task)
  | Api_submit_callable task : Api (submit_callable task)
  | Api_submit_tracked_callable task : Api (submit_tracked_callable task)
  | Api_retry {A} (attempt : Task -> Prog bact (A + RejectedTask Task)) attempts task :
      Attempt attempt -> Api (submit_when_admissible attempt attempts task)
  | Api_shutdown : Api service_shutdown
  | Api_stop : Api stop_and_report
  | Api_stats : Api stats
  | Api_lifecycle : Api service_lifecycle
  | Api_is_not_running : Api service_is_not_running
  | Api_is_terminated : Api is_terminated
  | Api_capacity_changes : Api capacity_changes
  | Api_wait_termination fuel : Api (answering false (service_wait_termination (S (S fuel))))
  | Api_wait_termination_timeout rounds wakeups timeout :
      Api (answering true (service_wait_termination_timeout rounds wakeups timeout))
  | Api_await_termination fuel : Api (answering false (await_termination (S fuel)))
  | Api_drop_await_termination : Api (answering true (await_termination 0))
  | Api_cancel_task h : Api (handle_cancel_task h)
  | Api_cancellation_handle h : Api (cancellation_handle h)
  | Api_get h : Api (handle_get h)
  | Api_into_future h : Api (handle_into_future h)
  | Api_try_get h : Api (handle_try_get h)
  | Api_is_done h : Api (blocking_handle_is_done h)
  | Api_status h : Api (handle_status h)
  | Api_tracked_status h : Api (tracked_handle_status h)
  | Api_tracked_cancel h : Api (tracked_handle_cancel h)
  | Api_cancellable_cancellation_handle h : Api (cancellable_cancellation_handle h).

Lemma Api_spec {A} (p : Prog bact A) : Api p -> forall t Q, (forall a, Q a []) -> bwp t p [] Q.
Proof.
  intros Hp t Q HQ. destruct Hp.
  - apply admits_spec; [by apply attempt_admits|exact HQ].
  - apply (rejection_reason_spec try_submit); [constructor|exact HQ].
  - apply (rejection_reason_spec try_submit_callable); [constructor|exact HQ].
  - apply (rejection_reason_spec try_submit_tracked_callable); [constructor|exact HQ].
  - apply submit_when_admissible_spec; [by apply attempt_admits|exact HQ].
  - by apply service_shutdown_spec.
  - by apply stop_and_report_spec.
  - by apply stats_spec.
  - apply lifecycle_spec. intros l r ->%perm_nil_eq. apply HQ.
  - apply wp_bind, quiet_spec; [done..|]. intros byte. apply HQ.
  - apply wp_bind, lifecycle_spec. intros l r ->%perm_nil_eq. apply HQ.
  - by apply quiet_spec.
  - apply answering_spec; [|done]. intros Q' HQ'. apply wait_termination_spec. auto.
  - apply answering_spec; [|done]. intros Q' HQ'. apply wait_termination_timeout_spec.
    intros b r Hr. by apply HQ'.
  - apply answering_spec; [|done]. intros Q' HQ'. apply await_termination_spec; [auto|done].
  - apply answering_spec; [|done]. intros Q' HQ'. apply await_termination_spec; auto.
  - by apply cancel_blocking_task_spec.
  - by apply cancel_blocking_task_spec.
  - by apply wp_await_endpoint.
  - by apply wp_await_endpoint.
  - destruct h as [slot h tr]. apply wp_bind, observe_spec. intros [output|]; apply HQ.
  - by apply observe_spec.
  - by apply observe_spec.
  - by apply observe_spec.
  - by apply cancel_blocking_task_spec.
  - by apply cancel_blocking_task_spec.
Qed.

(** A client thread: any sequence of calls, each chosen from the results of
    the earlier ones. *)
Inductive Client : Prog bact () -> Prop :=
  | Client_done : Client (Ret ())
  | Client_call {A} (p : Prog bact A) (k : A -> Prog bact ()) :
      Api p -> (forall a, Client (k a)) -> Client (bind p k).

Lemma Client_spec p t : Client p -> bwp t p [] fin_post.
Proof.
  induction 1 as [|A p k Hp Hk IH]; [done|]. apply wp_bind. apply Api_spec; [done|]. exact IH.
Qed.

(** ** Adequacy *)

#[local] Abbreviation bgood := (good (act := bact) Inv Guar ok own blk pre).

Lemma inv_initial capacity rt0 :
  1 <= capacity <= usize_MAX -> Inv (initial_world (Task := Task) capacity rt0) [].
Proof.
  intros Hcap. constructor; [|done]. constructor; try done.
  - cbn. lia.
  - intros w Hw. cbn in Hw. by rewrite waiting_none in Hw.
  - intros w Hw. cbn in Hw. by rewrite waiting_none in Hw.
  - intros Hx. by apply Exists_nil in Hx.
Qed.

Lemma env_spec s s' r : Inv s r -> env (Machine := blocking_machine (Task := Task)) s s' -> Guar s s' /\ Inv s' r.
Proof.
  intros HI [rt' ->]. apply inv_same_core; [|done]. by destruct s as [[]]; repeat split.
Qed.

Lemma clients_good capacity rt0 ps :
  1 <= capacity <= usize_MAX -> Forall Client ps -> bgood (initial_world capacity rt0, ps).
Proof.
  intros Hcap Hps. apply good_initial; [by apply inv_initial|].
  intros t p Hp. apply Client_spec. by eapply Forall_lookup_1.
Qed.

(** Configurations reached by clients of a new service. *)
Definition service_reachable (capacity : Z) (rt0 : runtime) (ps : list (Prog bact ()))
    (c : World * list (Prog bact ())) : Prop :=
  reachable (initial_world capacity rt0, ps) c.

Lemma reachable_good capacity rt0 ps c :
  1 <= capacity <= usize_MAX -> Forall Client ps -> service_reachable capacity rt0 ps c -> bgood c.
Proof.
  intros Hcap Hps Hr. eapply (good_reachable _ _ _ _ _ _ closure_body_spec env_spec); [|exact Hr].
  by apply clients_good.
Qed.
End BlockingSpecs.
