(* ===== verification/BlockingCalls.v ===== *)
(** * Who runs user code

    Clients never run submitted code themselves, whatever they call; a closure given
    to [spawn_blocking] runs at most one task. *)

From S2P Require Import Prelude Conc Once External LifecycleBits TaskCounts RejectedTask Registration BlockingState BlockingService BlockingInv BlockingSpecs.
From stdpp Require Import prelude list gmap.
#[local] Open Scope Z_scope.

Section BlockingCalls.
Context `{!BuildProfile, !LifecycleRepr, !Allocator, !Tokio, !Oneshot, !WaiterSet, !Watch, !TaskSpi}.
Context {Task : Type} `{!UserCode Task, !Monitor (Task := Task)}.
#[local] Abbreviation World := (World (Task := Task)).
#[local] Abbreviation bact := (bact (Task := Task)).

Definition calls_user B (c : bact B) : bool := match c with CallUser _ => true | _ => false end.
#[local] Abbreviation calling := (at_most (act := bact) calls_user).
#[local] Abbreviation quiet := (calling 0).
Definition callers (s : World) : list nat := map uc_thread (calls s).

Lemma callers_exec t B (c : bact B) s b s' fs :
  bexec t c s = Next b s' fs -> callers s' = if calls_user B c then t :: callers s else callers s.
Proof.
  unfold callers. destruct c; cbn;
    repeat match goal with |- context [match ?x with _ => _ end] => destruct x; cbn end; intros [= <- <- <-]; done.
Qed.

(** Programs without user code are decomposed at their binds and case
    distinctions; [quiets] holds those already done. *)
Create HintDb quiets.
Ltac quiet_parts :=
  repeat first
    [ solve [auto with quiets]
    | apply at_most_before; [|intros]
    | progress cbn [at_most do calls_user]
    | match goal with |- at_most _ _ (match ?x with _ => _ end) => destruct x end
    | intros ?
    | exact I ].

Lemma finish_task_quiet started : quiet (finish_task started).
Proof. unfold finish_task, notify_capacity_changed, notify_termination_waiters. quiet_parts. Qed.
#[local] Hint Resolve finish_task_quiet : quiets.

Lemma tracker_finish_queued_quiet tr : quiet (tracker_finish_queued tr).
Proof. unfold tracker_finish_queued. quiet_parts. Qed.
Lemma drop_hook_quiet hook : quiet (drop_hook hook).
Proof. unfold drop_hook. quiet_parts. Qed.
Lemma drop_entry_quiet entry : quiet (drop_entry entry).
Proof. unfold drop_entry, drop_hook. quiet_parts. Qed.
Lemma drop_closure_quiet closure : quiet (drop_closure closure).
Proof. unfold drop_closure. quiet_parts. Qed.
#[local] Hint Resolve tracker_finish_queued_quiet drop_hook_quiet drop_entry_quiet drop_closure_quiet : quiets.

Lemma remove_abort_handle_quiet m : quiet (remove_abort_handle m).
Proof. unfold remove_abort_handle, registration_finish. quiet_parts. Qed.
#[local] Hint Resolve remove_abort_handle_quiet : quiets.

Lemma guard_drop_quiet tr : quiet (guard_drop tr).
Proof. unfold guard_drop, tracker_marker, tracker_finish. quiet_parts. Qed.
#[local] Hint Resolve guard_drop_quiet : quiets.

Lemma call_hook_quiet hook : quiet (call_hook hook).
Proof. unfold call_hook, cancel_unstarted_task_slot_if_queued. quiet_parts. Qed.
#[local] Hint Resolve call_hook_quiet : quiets.

Lemma payload_drop_quiet payload : quiet (payload_drop payload).
Proof. unfold payload_drop. quiet_parts. Qed.
#[local] Hint Resolve payload_drop_quiet : quiets.

(** ** Closures *)

Lemma call_closure_once closure : calling 1 (call_closure closure).
Proof.
  destruct closure as [task|slot task]; cbn [call_closure]; [done|]. unfold take_task_slot.
  apply at_most_before; [quiet_parts|]. intros []; [|apply (at_most_le _ 0); [lia|quiet_parts]].
  apply at_most_before; [quiet_parts|]. intros []; (apply at_most_after; [|quiet_parts]); [|done].
  apply at_most_after; [done|quiet_parts].
Qed.

Lemma closure_body_once (f : BlockingClosure) : calling 1 (body (act := bact) f).
Proof.
  cbn [body blocking_machine]. unfold closure_body, worker, discard, guard_mark_started, tracker_mark_started, mark_task_started.
  apply at_most_before; [quiet_parts|]. intros [].
  - apply at_most_before; [quiet_parts|]. intros [[closure tr]|]; [|done].
    apply at_most_before; [quiet_parts|]. intros []; [|apply (at_most_le _ 0); [lia|quiet_parts]].
    apply at_most_after; [apply call_closure_once|quiet_parts].
  - apply (at_most_le _ 0); [lia|quiet_parts].
Qed.

(** ** Clients *)

Lemma register_abort_handle_quiet m h hook : quiet (register_abort_handle m h hook).
Proof. unfold register_abort_handle, registration_is_finished. quiet_parts. Qed.
#[local] Hint Resolve register_abort_handle_quiet : quiets.

Lemma prepare_blocking_submission_quiet : quiet prepare_blocking_submission.
Proof.
  unfold prepare_blocking_submission, lock_submission, is_not_running, try_accept_task, registration_new,
    guard_new, tracker_new. quiet_parts.
Qed.
#[local] Hint Resolve prepare_blocking_submission_quiet : quiets.

Lemma spawn_accepted_blocking_task_quiet m hook : quiet (spawn_accepted_blocking_task m hook).
Proof. unfold spawn_accepted_blocking_task. quiet_parts. Qed.
Lemma hand_over_quiet ch payload : quiet (hand_over ch payload).
Proof. unfold hand_over, resume_unwind. quiet_parts. Qed.
Lemma new_accepted_endpoint_quiet : quiet new_accepted_endpoint.
Proof. unfold new_accepted_endpoint. quiet_parts. Qed.
#[local] Hint Resolve spawn_accepted_blocking_task_quiet hand_over_quiet new_accepted_endpoint_quiet : quiets.

Lemma attempt_quiet {A} (attempt : Task -> Prog bact (A + RejectedTask Task)) task :
  Attempt attempt -> quiet (attempt task).
Proof.
  destruct 1; unfold try_submit, try_submit_callable, try_submit_tracked_callable; quiet_parts.
Qed.

Lemma drop_task_quiet task : quiet (drop_task task).
Proof. unfold drop_task, resume_unwind. quiet_parts. Qed.
#[local] Hint Resolve drop_task_quiet : quiets.
Lemma rejection_reason_quiet {A} (r : A + RejectedTask Task) : quiet (rejection_reason r).
Proof. unfold rejection_reason. quiet_parts. Qed.

Lemma retry_quiet {A} (attempt : Task -> Prog bact (A + RejectedTask Task)) attempts :
  Attempt attempt -> forall changes task, quiet (retry attempt attempts changes task).
Proof.
  intros Ha. induction attempts as [|attempts IH]; intros changes task; cbn [retry]; [quiet_parts|].
  apply at_most_before; [by apply attempt_quiet|]. intros [handle|rejected]; [quiet_parts|].
  destruct (into_parts rejected) as [[] task']; [quiet_parts|].
  apply at_most_before; [quiet_parts|]. intros changes'. apply IH.
Qed.

Lemma notify_if_terminated_quiet : quiet notify_if_terminated.
Proof. unfold notify_if_terminated, notify_termination_waiters. quiet_parts. Qed.
#[local] Hint Resolve notify_if_terminated_quiet : quiets.

Lemma abort_all_quiet handles : forall n, quiet (abort_all call_hook n handles).
Proof.
  induction handles as [|[k tracked] rest IH]; intros n; cbn [abort_all]; [done|].
  apply at_most_before; [quiet_parts|]. intros []; cbn [negb]; quiet_parts; apply IH.
Qed.
#[local] Hint Resolve abort_all_quiet : quiets.

Lemma stop_and_report_quiet : quiet stop_and_report.
Proof.
  unfold stop_and_report, service_stop, lock_submission, stop, task_count_snapshot, abort_tracked_tasks,
    notify_capacity_changed. quiet_parts.
Qed.

Lemma observed_termination_quiet : quiet observed_termination.
Proof. unfold observed_termination, is_not_running. quiet_parts. Qed.
#[local] Hint Resolve observed_termination_quiet : quiets.

Lemma lifecycle_quiet : quiet lifecycle.
Proof. unfold lifecycle. quiet_parts. Qed.
#[local] Hint Resolve lifecycle_quiet : quiets.

Lemma quiet_before {A B} (c : bact B) (k : B -> Prog bact A) :
  quiet (do c) -> (forall b, quiet (k b)) -> quiet (Act c k).
Proof. intros Hc Hk. change (Act c k) with (bind (do c) k). by apply at_most_before. Qed.

Lemma waits_quiet ready x n : forall p, waits ready x n p -> quiet p.
Proof.
  induction n as [|n IH]; intros p; [by intros ->|]. intros (k & k' & -> & Hkt & Hkf & Hk').
  apply quiet_before; [done|]. intros []; [by rewrite Hkt|rewrite Hkf].
  apply quiet_before; [done|]. intros []. by apply IH.
Qed.

Lemma waits_bounded_quiet ready x n : forall p, waits_bounded ready x n p -> quiet p.
Proof.
  induction n as [|n IH]; intros p; [by intros ->|].
  intros (k & k' & k'' & -> & Hkt & Hkf & Hk' & Hx & Hk''). apply quiet_before; [done|].
  intros []; [by rewrite Hkt|rewrite Hkf]. apply quiet_before; [done|]. intros []; [by apply IH|rewrite Hx].
  apply quiet_before; [done|]. intros b. by rewrite Hk''.
Qed.

Lemma wait_until_ready_quiet n ready : quiet (wait_until_ready n ready).
Proof.
  destruct (wait_until_ready_waits n ready) as (k & -> & Hk). apply quiet_before; [done|].
  intros x. by eapply waits_quiet.
Qed.

Lemma wait_until_ready_timed_quiet n bound ready :
  quiet (wait_until_ready_with_total_timeout n bound ready).
Proof.
  destruct (bounded_wait bound) eqn:Hb; [|by rewrite wait_until_ready_error].
  destruct (wait_until_ready_timed n bound ready Hb) as (k & -> & Hk). apply quiet_before; [done|].
  intros x. by eapply waits_bounded_quiet.
Qed.
#[local] Hint Resolve wait_until_ready_quiet wait_until_ready_timed_quiet : quiets.

Lemma wait_termination_timeout_loop_quiet rounds wakeups timeout started :
  quiet (wait_termination_timeout_loop rounds wakeups timeout started).
Proof.
  induction rounds as [|rounds IH]; cbn [wait_termination_timeout_loop]; quiet_parts; exact IH.
Qed.
Lemma await_termination_loop_quiet fuel w : quiet (await_termination_loop fuel w).
Proof.
  induction fuel as [|fuel IH]; cbn [await_termination_loop]; unfold is_terminated, service_lifecycle;
    quiet_parts; exact IH.
Qed.
#[local] Hint Resolve wait_termination_timeout_loop_quiet await_termination_loop_quiet : quiets.

Lemma handle_cancel_task_quiet h : quiet (handle_cancel_task h).
Proof. unfold handle_cancel_task, cancel_blocking_task, cancel_queued_callback, tracker_cancel_queued. quiet_parts. Qed.
Lemma cancellation_handle_quiet h : quiet (cancellation_handle h).
Proof. exact (handle_cancel_task_quiet h). Qed.

Lemma Api_quiet {A} (p : Prog bact A) : Api p -> quiet p.
Proof.
  destruct 1.
  - by apply attempt_quiet.
  - apply at_most_before; [apply attempt_quiet; constructor|apply rejection_reason_quiet].
  - apply at_most_before; [apply attempt_quiet; constructor|apply rejection_reason_quiet].
  - apply at_most_before; [apply attempt_quiet; constructor|apply rejection_reason_quiet].
  - apply at_most_before; [unfold service_capacity_changes, capacity_changes; quiet_parts|]. intros changes. by apply retry_quiet.
  - unfold service_shutdown, lock_submission, shutdown, notify_capacity_changed. quiet_parts.
  - apply stop_and_report_quiet.
  - unfold stats, task_count_snapshot. quiet_parts.
  - apply lifecycle_quiet.
  - unfold service_is_not_running, is_not_running. quiet_parts.
  - unfold is_terminated, service_lifecycle. quiet_parts.
  - unfold capacity_changes. quiet_parts.
  - unfold answering, service_wait_termination, wait_termination. quiet_parts.
  - unfold answering, service_wait_termination_timeout, wait_termination_timeout. quiet_parts.
  - unfold answering, await_termination. quiet_parts.
  - unfold answering, await_termination. quiet_parts.
  - apply handle_cancel_task_quiet.
  - apply cancellation_handle_quiet.
  - done.
  - done.
  - unfold handle_try_get, result_try_get. quiet_parts.
  - done.
  - done.
  - done.
  - apply handle_cancel_task_quiet.
  - apply cancellation_handle_quiet.
Qed.

Lemma Client_quiet p : Client p -> quiet p.
Proof. induction 1 as [|A p k Hp Hk IH]; [done|]. apply at_most_before; [by apply Api_quiet|exact IH]. Qed.

(** ** Every reachable configuration *)

Lemma callers_once capacity rt0 ps c :
  Forall Client ps -> service_reachable capacity rt0 ps c -> once calls_user callers (length ps) c.
Proof.
  intros Hps Hr. eapply once_reachable; [..|exact Hr].
  - apply callers_exec.
  - by intros s s' [rt' ->].
  - apply closure_body_once.
  - apply once_initial; [done|]. eapply Forall_impl; [exact Hps|]. apply Client_quiet.
Qed.
End BlockingCalls.
