(* ===== verification/BlockingCorrect.v ===== *)
(** * Correctness of the blocking service under every interleaving

    Clients are arbitrary programs over the public operations; the theorems
    quantify over every schedule of the clients, of the closures they spawn and
    of the runtime. *)

From S2P Require Import Prelude Conc Once External LifecycleBits ServiceSpec TaskCounts RejectedTask Registration BlockingState BlockingService BlockingInv BlockingActions BlockingObjects BlockingChannels BlockingSlots BlockingSpecs BlockingCalls.
From stdpp Require Import prelude list gmap.
#[local] Open Scope Z_scope.

Section BlockingCorrect.
Context `{!BuildProfile, !LifecycleRepr, !Allocator, !Tokio, !Oneshot, !WaiterSet, !Watch, !TaskSpi}.
Context {Task : Type} `{!UserCode Task, !Monitor (Task := Task)}.
#[local] Abbreviation World := (World (Task := Task)).
#[local] Abbreviation bact := (bact (Task := Task)).
#[local] Abbreviation bwp := (wp (act := bact) Inv Guar ok own blk pre).
#[local] Abbreviation bgood := (good (act := bact) Inv Guar ok own blk pre).
#[local] Abbreviation thread_ok := (thread_ok (act := bact) Inv Guar ok own blk pre).
Implicit Types (s : World) (r R : list btok) (ps : list (Prog bact ())).

(** ** What the tokens of a good configuration say *)

Lemma good_inv s ps : bgood (s, ps) -> exists r, Inv s r.
Proof. intros (rs & _ & _ & HI). by exists (concat rs). Qed.

(** A thread that acts outside the locks holds none of them. *)
Lemma outside_locks s ps t p :
  bgood (s, ps) -> ps !! t = Some p ->
  (forall r, wp Inv Guar ok own blk pre t p r fin_post -> locks r = 0) ->
  submission_lock (svc s) <> Some t /\ abort_lock (svc s) <> Some t.
Proof.
  intros (rs & Hlen & Hts & HI) Ht Hok. cbn in *.
  destruct (Hts t _ Ht) as (r & Hr & Hown & Hokc%Hok).
  apply no_sub_nil in Hokc as [Hs0 Ha0].
  assert (forall w tok, (forall x, 0 <= w x) -> tok ∈ concat rs -> 0 < w tok -> tally w r = 0 ->
    (forall i, own i tok -> i = t) -> False) as Hclash.
  { intros w tok Hw Hin Hpos Hz Honly.
    destruct (token_owner _ _ _ _ _ _ rs ps tok Hlen Hts Hin) as (t' & B' & c' & k' & r' & Ht' & Hr' & Htok & Hown' & _).
    assert (t' = t) as ->.
    { apply Honly. rewrite Forall_forall in Hown'. by apply Hown'. }
    simplify_eq. by eapply (elem_tally w tok r). }
  split; intros Hlock.
  - pose proof (inv_sub _ _ HI) as Hsub. rewrite Hlock in Hsub. cbn in Hsub.
    destruct (tally_pos_elem w_sub (concat rs)) as (tok & Hin & Hpos); [lia|apply w_sub_nonneg|].
    pose proof (inv_toks _ _ HI) as Htoks. rewrite Forall_forall in Htoks. specialize (Htoks tok Hin).
    apply (Hclash w_sub tok w_sub_nonneg Hin Hpos Hs0). intros i Hi.
    destruct tok; cbn in *; try lia; [|destruct Htoks as [Htoks _]]; congruence.
  - pose proof (inv_abl _ _ HI) as Habl. rewrite Hlock in Habl. cbn in Habl.
    destruct (tally_pos_elem w_abl (concat rs)) as (tok & Hin & Hpos); [lia|apply w_abl_nonneg|].
    pose proof (inv_toks _ _ HI) as Htoks. rewrite Forall_forall in Htoks. specialize (Htoks tok Hin).
    apply (Hclash w_abl tok w_abl_nonneg Hin Hpos Ha0). intros i Hi.
    destruct tok; cbn in *; try lia; [|destruct Htoks as [Htoks _]]; congruence.
Qed.

(** ** Stuck configurations *)

(** A thread parked for termination. *)
Definition awaits_termination (p : Prog bact ()) : Prop :=
  match p with Act (Unpark _) _ | Act (TimedUnpark _) _ | Act (AwaitNotified _) _ => True | _ => False end.

(** The tokens of a thread that waits for termination or for capacity. *)
Definition asleep (tok : btok) : Prop :=
  match tok with TParked _ | TAsleep _ | TWatch _ | TFull _ => True | _ => False end.

(** In a stuck configuration no thread owes anything. *)
Lemma stuck_asleep s ps rs :
  length rs = length ps -> (forall t p, ps !! t = Some p -> thread_ok rs t p) -> Inv s (concat rs) ->
  stuck (s, ps) -> Forall asleep (concat rs).
Proof.
  intros Hlen Hts HI Hst. assert (bgood (s, ps)) as Hg by by exists rs.
  assert (forall tok, tok ∈ concat rs -> exists t B (c : bact B) k r,
    ps !! t = Some (Act c k) /\ tok ∈ r /\ ok _ t c r /\ blk _ t c s) as Howner.
  { intros tok Hin.
    destruct (token_owner _ _ _ _ _ _ rs ps tok Hlen Hts Hin) as (t & B & c & k & r & Ht & Hr & Htok & _ & Hok).
    exists t, B, c, k, r. split_and!; [done..|].
    by apply (stuck_blocked _ _ _ _ _ _ s ps t B c k Hg Hst). }
  assert (abort_lock (svc s) = None) as Hfree.
  { destruct (abort_lock (svc s)) eqn:Hl; [exfalso|done].
    pose proof (inv_abl _ _ HI) as Habl. rewrite Hl in Habl. cbn in Habl.
    destruct (tally_pos_elem w_abl (concat rs)) as (tok & Hin & Hpos); [lia|apply w_abl_nonneg|].
    destruct (Howner tok Hin) as (t & B & c & k & r & Ht & Htok & Hok & Hblk).
    destruct c; cbn in Hblk, Hok; try done.
    all: try (rewrite Forall_forall in Hok; specialize (Hok tok Htok); by destruct tok).
    all: try (subst r; apply list_elem_of_singleton in Htok as ->; cbn in Hpos; lia).
    by apply (elem_tally w_abl tok r) in Hok; [..|apply w_abl_nonneg|done|done]. }
  assert (forall tok, tok ∈ concat rs -> asleep tok \/ exists ch,
    tok = TReceiver ch /\ pending (channel_at s ch) = true) as Hrecv.
  { intros tok Hin. destruct (Howner tok Hin) as (t & B & c & k & r & Ht & Htok & Hok & Hblk).
    destruct c; cbn in Hblk, Hok; try done.
    all: try (rewrite Forall_forall in Hok; specialize (Hok tok Htok); by left; destruct tok).
    all: try (rewrite Hfree in Hblk; by destruct Hblk).
    all: subst r; apply list_elem_of_singleton in Htok as ->; try by left.
    right. by eexists. }
  apply Forall_forall. intros tok Hin. destruct (Hrecv tok Hin) as [|(ch & -> & Hp)]; [done|exfalso].
  pose proof (inv_toks _ _ HI) as Htoks. rewrite Forall_forall in Htoks.
  destruct (Htoks _ Hin) as (c & Hc & Hco).
  rewrite (channel_at_lookup _ _ _ Hc) in Hp.
  pose proof (inv_channel _ _ HI ch) as Hch. unfold channel_inv in Hch. rewrite Hc in Hch.
  destruct Hch as (_ & _ & Hs & _). specialize (Hs Hp Hco).
  destruct (tally_pos_elem (w_sender ch) (concat rs)) as (tok & Hin' & Hpos);
    [lia|apply w_sender_nonneg|].
  destruct (Hrecv tok Hin') as [Ha|(ch' & -> & _)]; [by destruct tok|]. cbn in Hpos. lia.
Qed.

Lemma asleep_quiet s r : Forall asleep r -> Inv s r -> Inv s [].
Proof.
  intros Ha HI. apply (inv_drop_all s r); [|by rewrite app_nil_r].
  eapply Forall_impl; [exact Ha|]. by intros [].
Qed.

(** A state in which no thread owes anything is quiescent. *)
Lemma quiet_channels s : Inv s [] -> Forall (fun c => content c = None) (channels s).
Proof.
  intros HI. apply Forall_lookup. intros ch c Hc.
  pose proof (inv_channel _ _ HI ch) as Hch. unfold channel_inv in Hch.
  rewrite Hc in Hch. destruct Hch as (_ & Hrc & _ & Hcon). rewrite tally_nil in Hrc.
  destruct (content c) as [[task i]|]; [|done].
  destruct (Hcon task i eq_refl) as [Hco _]. by rewrite Hco in Hrc.
Qed.

Lemma quiet_guards s tr : Inv s [] -> guards s [] tr = 0.
Proof.
  intros HI. unfold guards. rewrite tally_nil. cbn. apply tally_all_zero.
  eapply Forall_impl; [by apply quiet_channels|]. intros c. apply w_channel_empty.
Qed.

Lemma quiet_trackers s tr x : Inv s [] -> trackers s !! tr = Some x ->
  task_state x = TASK_STATE_FINISHED /\ registrations s !! tr_marker x = Some true.
Proof.
  intros HI Hx. pose proof (inv_tracker _ _ HI tr) as Htr. unfold tracker_inv in Htr.
  rewrite Hx, quiet_guards in Htr by done. destruct Htr as (_ & Hst & Hf & Hlt & _). split.
  - destruct (decide (task_state x = TASK_STATE_FINISHED)) as [|Hne]; [done|]. by apply Hst in Hne.
  - destruct (lookup_lt_is_Some_2 _ _ Hlt) as [[] Hb]; [done|]. by apply Hf in Hb.
Qed.

Lemma quiet_state s : Inv s [] ->
  submission_lock (svc s) = None /\ abort_lock (svc s) = None /\
  task_counts (svc s) = mkCounts 0 0 /\ abort_handles (svc s) = ∅.
Proof.
  intros HI. split_and!.
  - apply bool_lock, (inv_sub _ _ HI).
  - apply bool_lock, (inv_abl _ _ HI).
  - pose proof (inv_queued _ _ HI) as Hq. pose proof (inv_running _ _ HI) as Hn.
    rewrite tally_nil in Hq, Hn. rewrite tally_all_zero in Hq.
    + destruct (task_counts (svc s)); cbn in *. f_equal; lia.
    + apply Forall_lookup. intros tr x Hx. destruct (quiet_trackers s tr x HI Hx) as [Hs _].
      apply w_tracker_queued_no. by rewrite Hs.
  - apply map_eq. intros k. rewrite lookup_empty. pose proof (inv_entry _ _ HI k) as He.
    unfold entry_inv in He. destruct (abort_handles (svc s) !! k) as [e|]; [exfalso|done].
    destruct He as (_ & Hf & tr & x & Hx & Hm). destruct (quiet_trackers s tr x HI Hx) as [_ Hb].
    rewrite Hm in Hb. apply Hf in Hb. by rewrite tally_nil in Hb.
Qed.

(** Nobody is left to own a cell, so every slot has its result, and the result is
    explained by what was called for it. *)
Lemma quiet_slots s sl x : Inv s [] -> endpoints s !! sl = Some x ->
  slot_owners x = 0%nat /\ settled (slot_endpoint x) (results_of s sl).
Proof.
  intros HI Hx. pose proof (inv_slot _ _ HI sl) as Hs. unfold slot_inv in Hs. rewrite Hx in Hs.
  assert (owners s [] sl = 0) as Hz.
  { destruct (quiet_state s HI) as (_ & _ & _ & Hmap). unfold owners, hooks.
    rewrite Hmap, map_to_list_empty, !tally_nil. rewrite tally_all_zero; [done|].
    eapply Forall_impl; [by apply quiet_channels|]. intros c. apply w_stored_empty. }
  rewrite Hz in Hs. destruct Hs as [Ho [_ [Hs|(_ & _ & Hs)]]]; [|lia]. split; [lia|exact Hs].
Qed.

Lemma quiet_results s sl : Inv s [] -> is_Some (endpoint_output (endpoint_at s sl)).
Proof.
  intros HI. unfold endpoint_at, slot_at. destruct (endpoints s !! sl) as [x|] eqn:Hx.
  - destruct (quiet_slots s sl x HI Hx) as (_ & output & Ho & _). by exists output.
  - cbn. destruct (cell_drop_spec endpoint_new) as (_ & _ & ->). destruct new_spec as (-> & _). by eexists.
Qed.

Lemma quiet_not_terminated s w :
  Inv s [] ->
  waiting (count_waiters (svc s)) w = true \/ waiting (terminated_notify (svc s)) w = true ->
  load (lifecycle_byte (svc s)) = Running.
Proof.
  intros HI Hw. assert (~ terminated s) as Hnt.
  { intros Ht. destruct Hw as [Hw|Hw].
    - pose proof (inv_wait_s _ _ HI w Hw Ht) as Hn. by rewrite tally_nil in Hn.
    - pose proof (inv_wait_a _ _ HI w Hw Ht) as Hn. by rewrite tally_nil in Hn. }
  destruct (quiet_state s HI) as (_ & _ & Hc & _).
  unfold terminated, terminated_predicate, not_running in Hnt. rewrite Hc in Hnt.
  destruct (decide (load (lifecycle_byte (svc s)) = Running)) as [|Hne]; [done|].
  rewrite bool_decide_eq_false_2 in Hnt by done. by destruct Hnt.
Qed.

(** No change of capacity is lost: a thread that waits for one in vain would
    mean that the service is saturated. *)
Lemma quiet_no_retry s r rx :
  Forall asleep r -> Inv s r -> TFull rx ∈ r -> has_changed (capacity_tx (svc s)) rx = true.
Proof.
  intros Ha HI Hin. destruct (has_changed _ rx) eqn:Hc; [done|exfalso].
  destruct (quiet_state s (asleep_quiet s r Ha HI)) as (_ & _ & Hcounts & _).
  pose proof (inv_capacity _ _ HI) as Hcap. destruct (inv_full _ _ HI) as [Hfull|Howed].
  - apply list_elem_of_split in Hin as (l1 & l2 & ->). rewrite tally_app, tally_cons. cbn. rewrite Hc. cbn.
    pose proof (tally_nonneg (w_unchanged (capacity_tx (svc s))) l1 (w_unchanged_nonneg _)).
    pose proof (tally_nonneg (w_unchanged (capacity_tx (svc s))) l2 (w_unchanged_nonneg _)). lia.
  - rewrite Hcounts in Hfull. cbn in Hfull. lia.
  - rewrite (tally_all_zero w_owed) in Howed; [lia|]. eapply Forall_impl; [exact Ha|]. by intros [].
Qed.

(** A thread about to run user code; one about to run or destroy it, to wake waiters,
    or that has been ended by a panic.  A result published by the destructor of a cell ([DropSlot]) is not among them: see
    [discard_publishes_under_lock]. *)
Definition at_user (p : Prog bact ()) : bool :=
  match p with Act (CallUser _) _ => true | _ => false end.
Definition at_callback (p : Prog bact ()) : bool :=
  match p with
  | Act (CallUser _) _ | Act (DropTask _) _ | Act NotifyAll _ | Act NotifyWaiters _
  | Act (SendModify _) _ | Act (HandleAbort _) _ | Act (PublishEndpoint _ _) _ | Unwind => true
  | _ => false
  end.

Lemma user_le_running s ps rs :
  length rs = length ps -> (forall t p, ps !! t = Some p -> thread_ok rs t p) -> Inv s (concat rs) ->
  tally (fun p => b2z (at_user p)) ps <= running (task_counts (svc s)).
Proof.
  intros Hlen Hts HI. rewrite (inv_running _ _ HI), tally_concat.
  apply tally_pointwise_le; [done|]. intros t p r Hp Hr.
  destruct (Hts t p Hp) as (r' & Hr' & _ & Hwp). simplify_eq.
  pose proof (tally_nonneg w_running r w_running_nonneg).
  destruct p as [a| |B c k]; cbn; [lia..|]. destruct Hwp as [Hok _].
  destruct c; cbn; try lia. destruct Hok as [_ [tr Htr]].
  by apply (tally_elem_le w_running r _ w_running_nonneg) in Htr.
Qed.

(** Termination, as the code tests it and as the contract sees it. *)
Lemma terminated_view s :
  well_formed (view s) ->
  terminated_predicate (svc s) (task_counts (svc s)) = true <-> c_terminated (view s).
Proof.
  intros (_ & Hq & Hn & _). unfold terminated_predicate, not_running, c_terminated, c_total. cbn in *.
  rewrite andb_true_iff, negb_true_iff, bool_decide_eq_false, is_empty_spec. intuition lia.
Qed.

(** ** Safety *)

Section Reachable.
Context (capacity : Z) (rt0 : runtime) (ps0 : list (Prog bact ())).
#[local] Abbreviation reach := (service_reachable (Task := Task) capacity rt0 ps0).

Lemma reachable_progress c c' :
  1 <= capacity <= usize_MAX -> Forall Client ps0 -> reach c -> reachable c c' ->
  Progress (fst c) (fst c').
Proof.
  intros Hcap Hps Hr Hr'. pose proof (reachable_good _ _ _ _ Hcap Hps Hr) as Hg.
  exact (guar_reachable _ _ _ _ _ _ closure_body_spec env_spec _ _ _ Guar_Progress Hg Hr').
Qed.

(** The service refines the contract. *)
Lemma reachable_wf c :
  1 <= capacity <= usize_MAX -> Forall Client ps0 -> reach c -> well_formed (view (fst c)).
Proof.
  intros Hcap Hps Hr. destruct c as [s ps].
  pose proof (reachable_good _ _ _ _ Hcap Hps Hr) as Hg. apply good_inv in Hg as [r HI].
  pose proof (inv_bound _ _ HI). destruct (counts_facts _ _ HI) as ((? & ? & ?) & _).
  split_and!; [|done..]. change (load (lifecycle_byte (svc s)) <> Terminated).
  destruct (stored_cases _ (inv_byte _ _ HI)) as [[_ ->]|[[_ ->]|[_ ->]]]; done.
Qed.

Lemma service_refines :
  1 <= capacity <= usize_MAX -> Forall Client ps0 ->
  Refines _ true reach step (fun c => view (fst c)).
Proof.
  intros Hcap Hps. split.
  - intros c. by apply reachable_wf.
  - intros c c' Hr Hs. eapply rtc_r; [exact Hr|exact Hs].
  - intros c c' Hr Hs. pose proof (reachable_good _ _ _ _ Hcap Hps Hr) as Hg.
    by destruct (guar_step _ _ _ _ _ _ closure_body_spec env_spec c c c' Hg (rtc_refl _ _) Hs) as [Hv _ _ _ _].
Qed.

Lemma reachable_capacity s ps :
  1 <= capacity <= usize_MAX -> Forall Client ps0 -> reach (s, ps) ->
  task_capacity (svc s) = capacity /\ well_formed (view s).
Proof.
  intros Hcap Hps Hr. split; [|by apply (reachable_wf (s, ps))].
  assert (reach (initial_world capacity rt0, ps0)) as Hr0 by apply rtc_refl.
  destruct (reachable_progress _ _ Hcap Hps Hr0 Hr) as [Hv _ _ _ _].
  exact (contract_reaches_capacity _ _ _ Hv).
Qed.

Lemma reachable_stored c :
  1 <= capacity <= usize_MAX -> Forall Client ps0 -> reach c ->
  stored (lifecycle_byte (svc (fst c))) /\ bgood c.
Proof.
  intros Hcap Hps Hr. pose proof (reachable_good _ _ _ _ Hcap Hps Hr) as Hg. split; [|done].
  destruct c as [s ps]. apply good_inv in Hg as [r HI]. apply HI.
Qed.

Lemma tracker_range c tr x :
  1 <= capacity <= usize_MAX -> Forall Client ps0 -> reach c -> trackers (fst c) !! tr = Some x ->
  0 <= task_state x <= 2.
Proof.
  intros Hcap Hps Hr Hx. destruct c as [s ps]. cbn in Hx.
  pose proof (reachable_good _ _ _ _ Hcap Hps Hr) as Hg. apply good_inv in Hg as [r HI].
  pose proof (inv_tracker _ _ HI tr) as Htr. unfold tracker_inv in Htr. rewrite Hx in Htr. apply Htr.
Qed.

(** C6. The blocking service refines the queueing contract: in every reachable
    configuration the contract's view is well formed and has the configured
    capacity, and every step - of a client, a worker or the runtime - is
    seen as at most one transition of the contract: an admission below
    capacity while running, a start, a cancellation of a queued task, the end
    of a running one, a shutdown or a stop. *)
Theorem service_keeps_contract c c'
    (Hcap : 1 <= capacity <= usize_MAX) (Hps : Forall Client ps0) (Hr : reach c) (Hs : step c c') :
  well_formed (view (fst c)) /\ c_capacity (view (fst c)) = capacity /\
  contract_moves true (view (fst c)) (view (fst c')).
Proof.
  split_and!; [by apply reachable_wf| |by apply (refines_step (Refines := service_refines Hcap Hps))].
  destruct c as [s ps]. by apply (reachable_capacity s ps).
Qed.

(** C9. No panic: no reachable action fails - not the overflow and underflow
    checks of the task counts, and not the assertion that an abort handle is
    registered only once. *)
Theorem no_panic s ps t B (c : bact B) k
    (Hcap : 1 <= capacity <= usize_MAX) (Hps : Forall Client ps0) (Hr : reach (s, ps))
    (Ht : ps !! t = Some (Act c k)) :
  bexec t c s <> Panicked.
Proof.
  pose proof (reachable_good _ _ _ _ Hcap Hps Hr) as Hg.
  pose proof (good_action _ _ _ _ _ _ s ps t B c k Hg Ht) as Ha. intros He.
  change (exec t c s) with (bexec t c s) in Ha. by rewrite He in Ha.
Qed.

(** Nothing can happen any more: every thread has finished or waits for the
    termination of a service that is still running; no lock is held, nothing is
    queued or running, the abort-handle map is empty and every accepted task has
    been finished; every cell of a task slot is destroyed and every task endpoint
    holds a result, which the call made for it explains. *)
Definition quiescent (c : World * list (Prog bact ())) : Prop :=
  let s := fst c in
  (forall t p, snd c !! t = Some p ->
    finished p \/ awaits_termination p /\ load (lifecycle_byte (svc s)) = Running) /\
  submission_lock (svc s) = None /\ abort_lock (svc s) = None /\
  task_counts (svc s) = mkCounts 0 0 /\ abort_handles (svc s) = ∅ /\
  (forall tr x, trackers s !! tr = Some x -> task_state x = TASK_STATE_FINISHED) /\
  (forall sl x, endpoints s !! sl = Some x ->
    slot_owners x = 0%nat /\ settled (slot_endpoint x) (results_of s sl)).

Lemma stuck_is_quiescent c :
  1 <= capacity <= usize_MAX -> Forall Client ps0 -> reach c -> stuck c -> quiescent c.
Proof.
  intros Hcap Hps Hr Hst. destruct c as [s ps]. unfold quiescent. cbn [fst snd].
  pose proof (reachable_good _ _ _ _ Hcap Hps Hr) as Hgood.
  pose proof Hgood as (rs & Hlen & Hts & HI). cbn in Hlen, Hts, HI.
  pose proof (stuck_asleep s ps rs Hlen Hts HI Hst) as Hasl.
  pose proof (asleep_quiet s _ Hasl HI) as HI0.
  destruct (quiet_state s HI0) as (Hsl & Hal & Hcounts & Hmap).
  split_and!; [|done..|intros tr x Hx; by apply (quiet_trackers s tr x)|intros sl x; by apply quiet_slots].
  intros t p Hp. pose proof (good_finished _ _ _ _ _ _ s ps t p Hgood Hp) as Hf.
  destruct p as [| |B c k]; [by left..|right].
  destruct (Hts t _ Hp) as (r & Hrt & _ & [Hok _]).
  pose proof (stuck_blocked _ _ _ _ _ _ s ps t B c k Hgood Hst Hp) as Hblk.
  destruct c; cbn in Hok, Hblk; try done.
  - rewrite Hsl in Hblk. by destruct Hblk.
  - split; [done|]. by apply (quiet_not_terminated s w HI0); left.
  - split; [done|]. by apply (quiet_not_terminated s w HI0); left.
  - rewrite Hal in Hblk. by destruct Hblk.
  - split; [done|]. by apply (quiet_not_terminated s w HI0); right.
  - subst r. rewrite (quiet_no_retry s (concat rs) rx) in Hblk; [done..|].
    rewrite (concat_split rs t _ Hrt). by left.
  - subst r. rewrite Forall_forall in Hasl. destruct (Hasl (TReceiver ch)).
    rewrite (concat_split rs t _ Hrt). by left.
  - destruct (quiet_results s slot HI0) as [output Ho]. congruence.
Qed.

(** Deadlock freedom, no missed wake-up and no leak: when no thread can
    move, every thread has finished or waits for the termination of a
    service that is still running; no lock is held, nothing is queued or
    running, the abort-handle map is empty, every accepted task has been
    finished, every cell of a task slot is destroyed and every task endpoint holds
    a result that the call made for it explains. *)
Theorem stuck_quiescent s ps
    (Hcap : 1 <= capacity <= usize_MAX) (Hps : Forall Client ps0) (Hr : reach (s, ps))
    (Hst : stuck (s, ps)) :
  (forall t p, ps !! t = Some p ->
    finished p \/ awaits_termination p /\ load (lifecycle_byte (svc s)) = Running) /\
  submission_lock (svc s) = None /\ abort_lock (svc s) = None /\
  task_counts (svc s) = mkCounts 0 0 /\ abort_handles (svc s) = ∅ /\
  (forall tr x, trackers s !! tr = Some x -> task_state x = TASK_STATE_FINISHED) /\
  (forall sl x, endpoints s !! sl = Some x ->
    slot_owners x = 0%nat /\ settled (slot_endpoint x) (results_of s sl)).
Proof. exact (stuck_is_quiescent (s, ps) Hcap Hps Hr Hst). Qed.

(** C10. User code runs only for started tasks, each at most once, and never in a
    caller's thread: the number of threads inside a submitted task never exceeds the
    running count, hence the capacity, and each of them runs on behalf of a tracker
    in the running state; every task was run by a closure given to [spawn_blocking],
    and no closure has run two tasks. *)
Theorem user_code_accounted s ps
    (Hcap : 1 <= capacity <= usize_MAX) (Hps : Forall Client ps0) (Hr : reach (s, ps)) :
  tally (fun p => b2z (at_user p)) ps <= running (task_counts (svc s)) <= capacity /\
  (forall t p, ps !! t = Some p -> at_user p = true ->
    exists tr x, trackers s !! tr = Some x /\ task_state x = TASK_STATE_RUNNING) /\
  (forall call, call ∈ calls s -> (length ps0 <= uc_thread call < length ps)%nat) /\
  NoDup (map uc_thread (calls s)).
Proof.
  destruct (callers_once capacity rt0 ps0 (s, ps) Hps Hr) as [_ Hcallers Hdistinct _].
  destruct (reachable_capacity s ps Hcap Hps Hr) as (Hc & _ & Hq & _ & Hle). unfold c_total in Hle. cbn in Hq, Hle.
  pose proof (reachable_good _ _ _ _ Hcap Hps Hr) as (rs & Hlen & Hts & HI). cbn in Hlen, Hts, HI.
  split_and!; [by apply (user_le_running s ps rs)|lia| | |exact Hdistinct].
  - intros t p Hp Hu. destruct (Hts t p Hp) as (r & Hrt & _ & Hwp). destruct p as [| |B c k]; [done..|].
    destruct Hwp as [Hok _]. destruct c; try done. destruct Hok as [_ [tr Htr]].
    pose proof (inv_toks _ _ HI) as Htoks. rewrite Forall_forall in Htoks.
    destruct (Htoks (TRunning tr)) as (x & Hx & Hs); [|by exists tr, x].
    rewrite (concat_split rs t r Hrt). apply elem_of_app. by left.
  - intros call Hin. apply (Hcallers (uc_thread call)). unfold callers. apply list_elem_of_In, in_map_iff.
    exists call. split; [done|]. by apply list_elem_of_In.
Qed.

(** C11. User code and notifications run outside the locks: a thread that is
    about to run a task, to destroy an unused closure, to wake waiters, to
    publish a capacity change, to publish a result - by cancelling or finishing a
    task - or to call the runtime's abort, and one that a panicking destructor has
    ended, holds neither the submission lock nor the abort-handle lock.  The one exception is a result published by the destructor
    of a cell. *)
Theorem callbacks_outside_locks s ps t p
    (Hcap : 1 <= capacity <= usize_MAX) (Hps : Forall Client ps0) (Hr : reach (s, ps))
    (Hp : ps !! t = Some p) (Hcb : at_callback p = true) :
  submission_lock (svc s) <> Some t /\ abort_lock (svc s) <> Some t.
Proof.
  pose proof (reachable_good _ _ _ _ Hcap Hps Hr) as Hg. apply (outside_locks s ps t p Hg Hp).
  intros r Hwp. destruct p as [| |B c k]; [by rewrite Hwp|by destruct Hwp as [-> _]|]. destruct Hwp as [Hok _].
  destruct c; try done. by destruct Hok.
Qed.

(** C12. Closed admission stays closed: once [shutdown] or [stop] took effect
    the lifecycle never reports [Running] again, the number of accepted
    unfinished tasks only decreases and no task is ever accepted. *)
Theorem admission_closed c c'
    (Hcap : 1 <= capacity <= usize_MAX) (Hps : Forall Client ps0) (Hr : reach c)
    (Hc : load (lifecycle_byte (svc (fst c))) <> Running) (Hr' : reachable c c') :
  load (lifecycle_byte (svc (fst c'))) <> Running /\
  rank (load (lifecycle_byte (svc (fst c)))) <= rank (load (lifecycle_byte (svc (fst c')))) /\
  task_total (fst c') <= task_total (fst c) /\
  length (trackers (fst c')) = length (trackers (fst c)).
Proof.
  destruct (reachable_stored c Hcap Hps Hr) as [Hb _].
  destruct (reachable_progress c c' Hcap Hps Hr Hr') as [_ Hle Hcl _ _].
  assert (reach c') as Hr2 by by eapply rtc_trans.
  destruct (reachable_stored c' Hcap Hps Hr2) as [Hb' _].
  destruct (refines_closed (HR := service_refines Hcap Hps) c c' Hr Hr' Hc) as [Hc' Htot].
  rewrite !stored_rank by done. split_and!; [exact Hc'|done|exact Htot|].
  rewrite stored_Running in Hc by done. unfold stored in Hb. apply Hcl. lia.
Qed.

(** Termination is final: a service that once reported [Terminated]
    reports it for ever. *)
Theorem termination_stable c c'
    (Hcap : 1 <= capacity <= usize_MAX) (Hps : Forall Client ps0) (Hr : reach c)
    (Ht : terminated_predicate (svc (fst c)) (task_counts (svc (fst c))) = true)
    (Hr' : reachable c c') :
  terminated_predicate (svc (fst c')) (task_counts (svc (fst c'))) = true.
Proof.
  assert (reach c') as Hr2 by by eapply rtc_trans.
  rewrite terminated_view in Ht |- * by by apply reachable_wf.
  exact (refines_terminated (HR := service_refines Hcap Hps) c c' Hr Hr' Ht).
Qed.

(** C14. Stop reports are consistent: a report handed to a caller never
    counts more cancelled tasks than it found queued, whatever ran, was
    submitted or was cancelled between the snapshot and the hooks. *)
Theorem stop_reports_bounded s ps
    (Hcap : 1 <= capacity <= usize_MAX) (Hps : Forall Client ps0) (Hr : reach (s, ps)) :
  forall rep, rep ∈ reports s -> 0 <= report_cancelled rep <= report_queued rep.
Proof.
  pose proof (reachable_good _ _ _ _ Hcap Hps Hr) as Hg. apply good_inv in Hg as [r HI].
  pose proof (inv_reports _ _ HI) as Hrep. rewrite Forall_forall in Hrep.
  intros rep Hin. by apply Hrep in Hin.
Qed.

(** C7. Waits are answered truthfully and never give up: when any form of
    waiting - [wait_termination], [wait_termination_timeout],
    [await_termination] - has told its caller that the service terminated, it
    has, and still is; and the two unbounded forms never answer anything else,
    although the model lets [wait_termination] consume only two checks and
    [await_termination] only one notification, unless the future is dropped before
    any notification. *)
Theorem wait_answers s ps
    (Hcap : 1 <= capacity <= usize_MAX) (Hps : Forall Client ps0) (Hr : reach (s, ps)) :
  (forall bounded, (bounded, true) ∈ answers s ->
    terminated_predicate (svc s) (task_counts (svc s)) = true) /\
  (forall answer, (false, answer) ∈ answers s -> answer = true).
Proof.
  pose proof (reachable_good _ _ _ _ Hcap Hps Hr) as Hg. apply good_inv in Hg as [r HI]. split.
  - intros bounded Hin. apply (inv_promise _ _ HI), Exists_exists. by exists (bounded, true).
  - intros answer Hin. pose proof (inv_answers _ _ HI) as Ha. rewrite Forall_forall in Ha.
    by apply (Ha _ Hin).
Qed.

(** A task's state only moves forward, and its tracker keeps its marker:
    a cancelled or finished task never starts, a started task is never
    counted as queued again. *)
Theorem tracker_monotone c c' tr x
    (Hcap : 1 <= capacity <= usize_MAX) (Hps : Forall Client ps0) (Hr : reach c)
    (Hr' : reachable c c') (Hx : trackers (fst c) !! tr = Some x) :
  exists x', trackers (fst c') !! tr = Some x' /\ tr_marker x' = tr_marker x /\
    TASK_STATE_QUEUED <= task_state x <= task_state x' /\ task_state x' <= TASK_STATE_FINISHED.
Proof.
  destruct (reachable_stored c Hcap Hps Hr) as [_ Hg].
  destruct (reachable_progress c c' Hcap Hps Hr Hr') as [_ _ _ Htr _].
  destruct (Htr tr x Hx) as (x' & Hx' & Hm & Hle).
  assert (reach c') as Hr2 by by eapply rtc_trans.
  pose proof (tracker_range c tr x Hcap Hps Hr Hx). pose proof (tracker_range c' tr x' Hcap Hps Hr2 Hx').
  exists x'. unfold TASK_STATE_QUEUED, TASK_STATE_FINISHED. split_and!; [done|done|lia..].
Qed.

(** C13. Every reachable heap is well typed: the lifecycle byte encodes a lifecycle;
    every tracker holds one of the three task states and points to an allocated
    marker; every abort-handle entry is stored under the address of its own
    marker, which belongs to a tracker; every payload in a channel carries the
    guard of an existing tracker that is not running. *)
Theorem heap_well_typed s ps
    (Hcap : 1 <= capacity <= usize_MAX) (Hps : Forall Client ps0) (Hr : reach (s, ps)) :
  stored (lifecycle_byte (svc s)) /\
  (forall tr x, trackers s !! tr = Some x ->
    TASK_STATE_QUEUED <= task_state x <= TASK_STATE_FINISHED /\
    (tr_marker x < length (registrations s))%nat) /\
  (forall k e, abort_handles (svc s) !! k = Some e ->
    k = key (ta_marker e) /\
    exists tr x, trackers s !! tr = Some x /\ tr_marker x = ta_marker e) /\
  (forall ch c closure tr, channels s !! ch = Some c -> content c = Some (closure, tr) ->
    exists x, trackers s !! tr = Some x /\ task_state x <> TASK_STATE_RUNNING).
Proof.
  destruct (good_inv s ps (reachable_good _ _ _ _ Hcap Hps Hr)) as [r HI]. split_and!.
  - apply HI.
  - intros tr x Hx. pose proof (inv_tracker _ _ HI tr) as Htr. unfold tracker_inv in Htr.
    rewrite Hx in Htr. destruct Htr as (_ & _ & _ & Hm & Hst). done.
  - intros k e He. pose proof (inv_entry _ _ HI k) as Hk. unfold entry_inv in Hk.
    rewrite He in Hk. destruct Hk as (Hk & _ & Ht). done.
  - intros ch c closure tr Hc Hp. pose proof (inv_channel _ _ HI ch) as Hch. unfold channel_inv in Hch.
    rewrite Hc in Hch. destruct Hch as (_ & _ & _ & Hcont). by destruct (Hcont _ _ Hp).
Qed.
End Reachable.
End BlockingCorrect.
