(* ===== verification/BlockingTermination.v ===== *)
(** * Every run of the blocking service is finite

    A worker starts nothing, so clients, workers and wait loops act finitely
    often; with [stuck_quiescent] every run ends in a quiescent configuration, and
    once the service is closed every run ends with every call returned. *)

From S2P Require Import Prelude Conc Termination External LifecycleBits ServiceSpec TaskCounts Registration BlockingState BlockingService BlockingInv BlockingSpecs BlockingCorrect.
From stdpp Require Import prelude list gmap.
#[local] Open Scope Z_scope.

Section BlockingTermination.
Context `{!BuildProfile, !LifecycleRepr, !Allocator, !Tokio, !Oneshot, !WaiterSet, !Watch, !TaskSpi}.
Context {Task : Type} `{!UserCode Task, !Monitor (Task := Task)}.
#[local] Abbreviation World := (World (Task := Task)).
#[local] Abbreviation bact := (bact (Task := Task)).

(** ** Only [SpawnBlocking] starts a thread *)

Definition spawns {B} (a : bact B) : bool := match a with SpawnBlocking _ => true | _ => false end.

Lemma not_spawn {B} (a : bact B) : spawns a = false -> starts_nothing a.
Proof.
  intros Ha t s b s' fs. cbn. destruct a; try done; cbn;
    repeat match goal with |- context [match ?x with _ => _ end] => destruct x; cbn end; intros He; by inversion He.
Qed.
#[local] Hint Resolve not_spawn : exec.

(** Programs are decomposed at their binds and case distinctions. *)
Ltac no_starts :=
  repeat first
    [ apply no_starts_bind; [|intros]
    | progress cbn [no_starts do]
    | match goal with |- no_starts (match ?x with _ => _ end) => destruct x end
    | split; [by apply not_spawn|intros] ]; try exact I.

Lemma finish_task_no_starts started : no_starts (finish_task (Task := Task) started).
Proof. unfold finish_task, notify_capacity_changed, notify_termination_waiters. no_starts. Qed.

Lemma drop_entry_no_starts entry : no_starts (drop_entry (Task := Task) entry).
Proof. unfold drop_entry, drop_hook. no_starts. Qed.

Lemma guard_drop_no_starts tr : no_starts (guard_drop (Task := Task) tr).
Proof.
  unfold guard_drop, tracker_marker, remove_abort_handle, registration_finish, tracker_finish. no_starts;
    first [apply finish_task_no_starts | apply drop_entry_no_starts].
Qed.

Lemma closure_body_no_starts (f : BlockingClosure) : no_starts (body (act := bact) f).
Proof.
  cbn [body blocking_machine]. unfold closure_body, worker, discard, payload_drop, drop_closure, guard_mark_started,
    tracker_mark_started, mark_task_started, call_closure, take_task_slot.
  no_starts; first [apply guard_drop_no_starts | apply finish_task_no_starts | apply drop_entry_no_starts].
Qed.

(** ** The theorems *)

Section Reachable.
Context (capacity : Z) (rt0 : runtime) (ps0 : list (Prog bact ())).
#[local] Abbreviation reach := (service_reachable (Task := Task) capacity rt0 ps0).

(** C1. Every run terminates, quiescent: from any reachable configuration,
    whatever the scheduler picks and the runtime does, the threads act only
    finitely often, and when none of them can act any more every call has
    returned except waits for the termination of a running service, and
    nothing is held, queued, running or registered.  Only the panic of a task's
    destructor, if there are such tasks, ends a call in another way. *)
Theorem runs_terminate c
    (Hcap : 1 <= capacity <= usize_MAX) (Hps : Forall Client ps0) (Hr : reach c) :
  ends_in quiescent c.
Proof.
  apply (runs_end closure_body_no_starts). intros c' Hr' Hst.
  apply (stuck_is_quiescent capacity rt0 ps0); [done..| |done]. by eapply rtc_trans.
Qed.

(** C2. Shutdown completes: once [shutdown] or [stop] took effect, every run
    ends, and it ends with all threads finished - every submitter, every
    waiter, every worker: they returned, unless a task's destructor panicked - and
    the service terminated. *)
Theorem shutdown_completes c
    (Hcap : 1 <= capacity <= usize_MAX) (Hps : Forall Client ps0) (Hr : reach c)
    (Hc : load (lifecycle_byte (svc (fst c))) <> Running) :
  ends_in (fun c' => Forall finished (snd c') /\
    terminated_predicate (svc (fst c')) (task_counts (svc (fst c'))) = true) c.
Proof.
  apply (runs_end closure_body_no_starts). intros c' Hr' Hst.
  assert (reach c') as Hr2 by by eapply rtc_trans.
  destruct (refines_closed (HR := service_refines capacity rt0 ps0 Hcap Hps) c c' Hr Hr' Hc) as [Hc' _].
  destruct (stuck_is_quiescent capacity rt0 ps0 c' Hcap Hps Hr2 Hst) as (Hts & _ & _ & Hn & _).
  split.
  - apply Forall_lookup. intros t p Hp. destruct (Hts t p Hp) as [|[_ Hl]]; [done|by destruct Hc'].
  - unfold terminated_predicate, not_running. rewrite Hn, bool_decide_eq_false_2 by done. done.
Qed.

(** A thread that waits for a change of capacity. *)
Definition awaits_capacity (p : Prog bact ()) : Prop :=
  match p with Act (AwaitChanged _) _ => True | _ => False end.

(** C3. No change of capacity is lost: producers that subscribe, attempt, and wait
    for the next change whenever the service is saturated are never stranded.
    From any reachable configuration every run ends with no thread waiting for
    capacity - whatever released the slots (a finished task, a cancelled one, a
    discarded closure) or closed the service, and however the release was
    interleaved with the attempt and the wait. *)
Theorem producers_served c
    (Hcap : 1 <= capacity <= usize_MAX) (Hps : Forall Client ps0) (Hr : reach c) :
  ends_in (fun c' => forall t p, snd c' !! t = Some p -> ~ awaits_capacity p) c.
Proof.
  apply (runs_end closure_body_no_starts). intros c' Hr' Hst t p Hp Ha.
  assert (reach c') as Hr2 by by eapply rtc_trans.
  destruct (stuck_is_quiescent capacity rt0 ps0 c' Hcap Hps Hr2 Hst) as [Hts _].
  destruct (Hts t p Hp) as [Hw|[Hw _]]; by destruct p as [| |B [] k].
Qed.

(** A thread that waits for the result of a task, in [get] or on its future. *)
Definition awaits_result (p : Prog bact ()) : Prop :=
  match p with Act (AwaitEndpoint _) _ => True | _ => False end.

(** C4. Every handle resolves: whatever becomes of an accepted callable - it runs,
    its handle cancels it, [stop] cancels it, the runtime discards its closure before
    or after it was delivered, or delivery fails - every run ends with a result in
    every task endpoint, explained by what was called for the task, and with no
    thread waiting for one in [get] or on a handle's future; and no result that was
    there before has changed. *)
Theorem handles_resolve c
    (Hcap : 1 <= capacity <= usize_MAX) (Hps : Forall Client ps0) (Hr : reach c) :
  ends_in (fun c' =>
    (forall sl x, endpoints (fst c') !! sl = Some x -> settled (slot_endpoint x) (results_of (fst c') sl)) /\
    (forall t p, snd c' !! t = Some p -> ~ awaits_result p) /\
    (forall sl output, (sl < length (endpoints (fst c)))%nat ->
      endpoint_output (endpoint_at (fst c) sl) = Some output ->
      endpoint_output (endpoint_at (fst c') sl) = Some output)) c.
Proof.
  apply (runs_end closure_body_no_starts). intros c' Hr' Hst.
  assert (reach c') as Hr2 by by eapply rtc_trans.
  destruct (stuck_is_quiescent capacity rt0 ps0 c' Hcap Hps Hr2 Hst) as (Hts & _ & _ & _ & _ & _ & Hslots).
  destruct (reachable_progress capacity rt0 ps0 c c' Hcap Hps Hr Hr') as [_ _ _ _ Hfinal]. split_and!.
  - intros sl x Hx. by apply (Hslots sl x).
  - intros t p Hp Ha. destruct (Hts t p Hp) as [Hw|[Hw _]]; by destruct p as [| |B [] k].
  - intros sl output Hsl Ho. by apply (Hfinal sl output).
Qed.
End Reachable.
End BlockingTermination.
