(* ===== verification/BlockingResults.v ===== *)
(** * What the handle of a blocking task reports

    The result of a task is explained by what was called for it, and remains so; one
    submission followed to its end shows where the result comes from. *)

From S2P Require Import Prelude Conc External LifecycleBits TaskCounts RejectedTask Registration BlockingState BlockingService BlockingInv BlockingActions BlockingSlots BlockingSpecs BlockingSequential BlockingHandle BlockingCorrect.
From stdpp Require Import prelude list gmap.
#[local] Open Scope Z_scope.

Section BlockingResults.
Context `{!BuildProfile, !LifecycleRepr, !Allocator, !Tokio, !Oneshot, !WaiterSet, !Watch, !TaskSpi}.
Context {Task : Type} `{!UserCode Task, !Monitor (Task := Task)}.
#[local] Abbreviation World := (World (Task := Task)).
#[local] Abbreviation bact := (bact (Task := Task)).
Implicit Types (s w : World) (results : list CallResult).

(** ** Every reachable state *)

Lemma describes_explained e owned results l output :
  describes e owned results l -> endpoint_output e = Some output -> explained output results.
Proof.
  intros Hd Ho. unfold describes, settled, running_slot in Hd.
  destruct l as [|[] []]; try done.
  - destruct Hd as [_ [(o & Ho' & He)|[Hn _]]]; congruence.
  - destruct Hd as (_ & _ & [(o & Ho' & He)|Hn]); congruence.
  - destruct Hd as [(_ & _ & Hn) _]. congruence.
  - destruct Hd as [(_ & _ & Hn) _]. congruence.
Qed.

Lemma explained_once output results : explained output results -> (length results <= 1)%nat.
Proof. destruct results as [|? []]; cbn; [lia..|done]. Qed.

Lemma describes_once e owned results l : describes e owned results l -> (length results <= 1)%nat.
Proof.
  intros Hd. unfold describes, settled, idle in Hd. destruct l as [|[] []]; try done.
  - destruct Hd as [Hidle [(o & _ & He)|(_ & Hf & _)]]; [by eapply explained_once|].
    destruct (Hidle Hf) as [_ ->]. cbn. lia.
  - destruct Hd as (_ & [_ ->] & _). cbn. lia.
  - destruct Hd as [_ ->]. cbn. lia.
  - destruct Hd as [_ ->]. done.
Qed.

Section Reachable.
Context (capacity : Z) (rt0 : runtime) (ps0 : list (Prog bact ())).
#[local] Abbreviation reach := (service_reachable (Task := Task) capacity rt0 ps0).

Lemma reachable_slot c sl :
  1 <= capacity <= usize_MAX -> Forall Client ps0 -> reach c ->
  exists r, slot_inv (fst c) r sl.
Proof.
  intros Hcap Hps Hr. destruct (reachable_good _ _ _ _ Hcap Hps Hr) as (rs & _ & _ & HI).
  exists (concat rs). apply HI.
Qed.

(** C5. A result is explained by what was called for its task: the callable behind a
    handle is called at most once, by whatever thread; a result that was published
    is what that call gave - its value, its error, or that it panicked - or, if the
    task was cancelled or dropped, there was no such call; and whatever happens
    afterwards, the callable of a task that has a result is not called any more. *)
Theorem results_explained c c' sl
    (Hcap : 1 <= capacity <= usize_MAX) (Hps : Forall Client ps0) (Hr : reach c) (Hr' : reachable c c') :
  (length (results_of (fst c) sl) <= 1)%nat /\
  (forall output, (sl < length (endpoints (fst c)))%nat ->
    endpoint_output (endpoint_at (fst c) sl) = Some output ->
    endpoint_output (endpoint_at (fst c') sl) = Some output /\
    explained output (results_of (fst c') sl)).
Proof.
  assert (reach c') as Hr2 by by eapply rtc_trans.
  destruct (reachable_progress capacity rt0 ps0 c c' Hcap Hps Hr Hr') as [_ _ _ _ Hfinal]. split.
  - destruct (reachable_slot c sl Hcap Hps Hr) as [r Hs]. unfold slot_inv in Hs.
    destruct (endpoints (fst c) !! sl) as [x|].
    + destruct Hs as [_ Hd]. by eapply describes_once.
    + destruct Hs as (_ & -> & _). cbn. lia.
  - intros output Hsl Ho. destruct (Hfinal sl output Hsl Ho) as [Hsl' Ho']. split; [done|].
    destruct (reachable_slot c' sl Hcap Hps Hr2) as [r Hs].
    destruct (lookup_lt_is_Some_2 _ _ Hsl') as [x Hx]. unfold slot_inv in Hs. rewrite Hx in Hs.
    rewrite (endpoint_at_lookup _ _ _ Hx) in Ho'. destruct Hs as [_ Hd]. by eapply describes_explained.
Qed.
End Reachable.

(** ** One task from submission to result *)

(** C34. A tracked callable from submission to result: the handle has no result while
    the task waits; the worker that receives it calls the user's code once, restores
    the counts, the abort-handle map and the locks, and [get] then returns what the
    call gave. *)
Theorem submit_then_get t t' w task
    (Hun : unlocked w) (Hr : load (lifecycle_byte (svc w)) = Running)
    (Hok : counts_ok (task_counts (svc w))) (Hroom : has_room w)
    (Hfresh : abort_handles (svc w) !! key (length (registrations w)) = None) :
  exists h ch w1 w2, let handle := mkHandle (length (endpoints w)) h (length (trackers w)) in
    run t (try_submit_tracked_callable task) w = Next (inl handle) w1 [mkClosure ch h] /\
    run t (handle_get handle) w1 = Blocked /\
    run t' (worker ch) w1 = Next () w2 [] /\
    calls w2 = mkCall t' (CallableClosure (length (endpoints w)) task) (call_user task (rt w1)) :: calls w /\
    task_counts (svc w2) = task_counts (svc w) /\
    abort_handles (svc w2) = abort_handles (svc w) /\ unlocked w2 /\
    run t (handle_get handle) w2 = Next (completed (call_user task (rt w1))) w2 [].
Proof.
  destruct (callables_accepted t w task Hun Hr Hok Hroom Hfresh) as (h & ch & w1 & _ & Hrun & Hacc & x & Hx & Hfx).
  destruct (accepted_counts _ _ _ _ _ _ Hacc Hok Hroom) as (Hok1 & Hq1 & Hback).
  pose proof Hacc as (Hsl & Hal & _ & _ & _ & _ & _ & _ & Hh & Hcalls).
  destruct (callable_runs t' (length (endpoints w)) task x w1 Hx Hfx) as (x' & Hruns & Hout).
  destruct (run_worker_runs t' ch _ _ _ _ w1 (accepted_delivered _ _ _ _ _ _ Hacc)
    (accepted_tracker _ _ _ _ _ _ Hacc) Hal Hok1 Hq1 Hruns) as (w2 & Hrun2 & Hc2 & He2 & Hw2).
  destruct Hw2 as (Hcounts & Hh2 & _ & Hsl2 & Hal2). rewrite Hh, delete_register in Hh2 by done.
  exists h, ch, w1, w2. cbv zeta. split_and!; try done.
  - cbn. unfold endpoint_at, slot_at. rewrite Hx. cbn. by destruct Hfx as (_ & _ & ->).
  - by rewrite Hc2, Hcalls.
  - by rewrite Hcounts.
  - by split; [rewrite Hsl2|].
  - destruct (entry_dropped_final (abort_handles (svc w1) !! key (length (registrations w)))
      (<[length (endpoints w) := x']> (endpoints w1)) (length (endpoints w)) x' _
      (list_lookup_insert_eq _ _ _ (lookup_lt_Some _ _ _ Hx)) Hout) as (x2 & Hx2 & Ho2).
    cbn. unfold endpoint_at, slot_at. rewrite He2, Hx2. cbn. by rewrite Ho2.
Qed.
(** ** A task that Tokio discards before its closure arrives *)

(** The discarded closure closes its channel. *)
Lemma run_closure_discarded t ch h w c rt' :
  channels w !! ch = Some c -> content c = None -> dispatch (rt w) h = (false, rt') ->
  exists d, run t (closure_body (mkClosure ch h)) w =
      Next () (set_channels (<[ch := d]> (channels w)) (set_rt rt' w)) [] /\
    content d = None /\ closed d = true.
Proof.
  intros Hch Hcon Hgo. destruct (drop_receiver_spec _ c) as (d & Hd & ? & ?). rewrite Hcon in Hd.
  exists d. split; [|done]. cbn. rewrite Hgo. cbn. unfold channel_at. cbn. rewrite Hch. cbn. by rewrite Hd.
Qed.

(** A closure that cannot be handed over is dropped by the submitter, with its guard;
    a panic of the task's destructor leaves the submission after that. *)
Lemma run_hand_over_refused t ch closure g m w c :
  channels w !! ch = Some c -> content c = None -> closed c = true ->
  trackers w !! g = Some (mkTracker m TASK_STATE_QUEUED) -> abort_lock (svc w) = None ->
  0 < queued (task_counts (svc w)) ->
  exists w', run t (hand_over ch (closure, g)) w = after_drop (closure_task closure) () w' /\
    calls w' = calls w /\
    endpoints w' = entry_dropped (abort_handles (svc w) !! key m) (closure_dropped closure (endpoints w)) /\
    worked w w' g m (finished_counts false (task_counts (svc w))).
Proof.
  intros Hch Hcon Hcl Hg Hl Hq. destruct (send_closed _ c (closure, g) Hcl Hcon) as (d & Hd & _).
  set (w1 := set_channels (<[ch := d]> (channels w)) w).
  set (w2 := set_endpoints (closure_dropped closure (endpoints w1)) w1).
  set (w3 := dropped g m TASK_STATE_QUEUED w2). exists w3. split_and!.
  - unfold hand_over. rewrite (run_step t (Send ch (closure, g)) _ w (Some (closure, g)) w1)
      by (cbn; unfold channel_at; by rewrite Hch; cbn; rewrite Hd).
    unfold payload_drop. cbn [fst snd]. rewrite run_bind, run_bind, run_drop_closure.
    fold w2. rewrite run_bind, (run_guard_drop t g m TASK_STATE_QUEUED w2 Hg Hl) by done.
    unfold after_drop. change (rt w3) with (rt w1). by destruct (drop_panics (closure_task closure) (rt w1)).
  - done.
  - done.
  - exact (dropped_worked g m TASK_STATE_QUEUED w2 _ Hg Hl).
Qed.
(** Its slot is abandoned by both owners. *)
Lemma slot_abandoned slot g g' slots :
  slots !! slot = Some accepted_slot ->
  hook_dropped (CancelUnstartedSlot slot g) (hook_dropped (CancelUnstartedSlot slot g') slots) !! slot =
    Some (mkSlot 0 (cell_drop (slot_accept endpoint_new))).
Proof.
  intros Hx. pose proof (lookup_lt_Some _ _ _ Hx) as Hlt. cbn. rewrite Hx. cbn.
  rewrite (list_lookup_insert_eq slots) by done. cbn. by rewrite list_insert_insert_eq, list_lookup_insert_eq.
Qed.

Lemma abandoned_output : endpoint_output (cell_drop (slot_accept endpoint_new)) = Some (inr TaskExecutionError.Dropped).
Proof.
  destruct (cell_drop_spec (slot_accept endpoint_new)) as (_ & _ & ->).
  destruct (accept_spec endpoint_new) as (-> & _ & ->). by destruct new_spec as (-> & _ & ->).
Qed.

(** C40. A callable that was accepted, but whose worker Tokio discards before the closure
    reaches it, is dropped by the submitter without being called: the counts and the
    map are those from before the submission, the tracker is finished, both locks are
    free and the handle reports [Dropped].  All this holds also if the callable's
    destructor panics; the panic then leaves the submission, last. *)
Theorem discard_before_delivery t t' w task
    (Hun : unlocked w) (Hr : load (lifecycle_byte (svc w)) = Running)
    (Hok : counts_ok (task_counts (svc w))) (Hroom : has_room w)
    (Hfresh : abort_handles (svc w) !! key (length (registrations w)) = None) :
  let m := length (registrations w) in let g := length (trackers w) in let slot := length (endpoints w) in
  exists w0 w1 h ch,
    run t (let! _ := prepare_blocking_submission in new_accepted_endpoint)%exec w = Next slot w0 [] /\
    run t (spawn_accepted_blocking_task m (CancelUnstartedSlot slot g)) w0 = Next (h, ch) w1 [mkClosure ch h] /\
    queued (task_counts (svc w1)) = queued (task_counts (svc w)) + 1 /\
    forall rt', dispatch (rt w1) h = (false, rt') -> exists w2 w3,
      run t' (closure_body (mkClosure ch h)) w1 = Next () w2 [] /\
      task_counts (svc w2) = task_counts (svc w1) /\
      run t (hand_over ch (CallableClosure slot task, g)) w2 = after_drop task () w3 /\
      task_counts (svc w3) = task_counts (svc w) /\ abort_handles (svc w3) = abort_handles (svc w) /\
      unlocked w3 /\ trackers w3 !! g = Some (mkTracker m TASK_STATE_FINISHED) /\ calls w3 = calls w /\
      run t (handle_get (mkHandle slot h g)) w3 = Next (inr TaskExecutionError.Dropped) w3 [].
Proof.
  intros m g slot. destruct Hun as [Hl Hal]. set (E := endpoints w ++ [accepted_slot]).
  set (w0 := set_endpoints E (after_admission t w)). set (hook := CancelUnstartedSlot slot g).
  assert (E !! slot = Some accepted_slot) as Hx by (unfold E, slot; by rewrite lookup_app_r, Nat.sub_diag).
  destruct (spawn (rt w)) as [h rt1] eqn:Hs. set (w1 := spawned m hook w0).
  assert (run t (spawn_accepted_blocking_task m hook) w0 =
    Next (h, length (channels w)) w1 [mkClosure (length (channels w)) h]) as Hspawn.
  { rewrite run_spawn; [by cbn; rewrite Hs|done| |done]. cbn. by rewrite lookup_app_r, Nat.sub_diag by done. }
  exists w0, w1, h, (length (channels w)). split_and!; [|exact Hspawn|unfold w1, spawned; cbn; by rewrite Hs|].
  { rewrite run_bind, run_prepare_admitted by done. by rewrite run_new_accepted_endpoint. }
  intros rt' Hgo. assert (channels w1 !! length (channels w) = Some channel) as Hch.
  { unfold w1, spawned. cbn. rewrite Hs. cbn. by rewrite lookup_app_r, Nat.sub_diag. }
  destruct (run_closure_discarded t' _ h w1 channel rt' Hch (content_channel _) Hgo) as (d & Hdis & Hdc & Hdo).
  set (w2 := set_channels _ _) in Hdis. pose proof (lookup_lt_Some _ _ _ Hch) as Hlt.
  assert (task_counts (svc w2) = task_counts (svc w0) /\ abort_lock (svc w2) = None /\ trackers w2 = trackers w0 /\
    submission_lock (svc w2) = None /\ calls w2 = calls w /\
    abort_handles (svc w2) = register m h hook (abort_handles (svc w)) (is_finished rt1 h) /\
    endpoints w2 = if is_finished rt1 h then hook_dropped hook E else E) as (Hc2 & Hal2 & Ht2 & Hsl2 & Hca2 & Hh2 & He2).
  { unfold w2, w1, spawned. cbn. rewrite Hs. cbn. by split_and!. }
  destruct (run_hand_over_refused t (length (channels w)) (CallableClosure slot task) g m w2 d)
    as (w3 & Hhand & Hca3 & He3 & Hc3 & Hh3 & Ht3 & Hsl3 & Hal3); [..|exact Hal2| |].
  { by apply list_lookup_insert_eq. } { done. } { done. }
  { rewrite Ht2. cbn. unfold g. by rewrite lookup_app_r, Nat.sub_diag by done. }
  { rewrite Hc2. cbn. destruct Hok; lia. }
  exists w2, w3. split_and!; [exact Hdis|by rewrite Hc2; unfold w1, spawned; cbn; rewrite Hs|exact Hhand|..].
  - rewrite Hc3, Hc2. unfold finished_counts. cbn. rewrite Z.add_simpl_r. by destruct (task_counts (svc w)).
  - rewrite Hh3, Hh2. by apply delete_register.
  - by split; [rewrite Hsl3|].
  - exact Ht3.
  - by rewrite Hca3.
  - assert (endpoints w3 !! slot = Some (mkSlot 0 (cell_drop (slot_accept endpoint_new)))) as Hend.
    { rewrite He3, He2, Hh2. unfold register. destruct (is_finished rt1 h).
      - fold m in Hfresh. rewrite Hfresh. by apply (slot_abandoned slot 0 g).
      - rewrite lookup_insert_eq. by apply (slot_abandoned slot g 0). }
    cbn. unfold endpoint_at, slot_at. rewrite Hend. cbn. by rewrite abandoned_output.
Qed.
End BlockingResults.
