(* ===== verification/BlockingExamples.v ===== *)
(** * The blocking service on concrete schedules

    A service of capacity two on the reference runtime, a client that submits
    three tasks and waits for termination, a client that cancels, and one that
    stops the service: the schedules below drive it through the situations the
    theorems speak about. *)

From S2P Require Import Prelude Conc Termination External ExternalRef LifecycleBits ServiceSpec TaskCounts RejectedTask Registration BlockingState BlockingService BlockingInv BlockingSequential BlockingHandle BlockingSpecs BlockingCorrect BlockingTermination BlockingResults.
From stdpp Require Import prelude list gmap.
#[local] Open Scope Z_scope.

#[local] Instance checked_build : BuildProfile := true.

(** A monitor with the documented behaviour: a wait checks, parks, and checks again. *)
Fixpoint wait_ref (wakeups : nat) (ready : Condition) (x : nat) : Prog (bact (Task := nat)) bool :=
  match wakeups with
  | O => Ret false
  | S wakeups =>
      (let! now := do (Park x ready) in
       if now then Ret true else do (Unpark x) ;; wait_ref wakeups ready x)%exec
  end.
Fixpoint timed_ref (wakeups : nat) (ready : Condition) (x : nat) :
    Prog (bact (Task := nat)) (option bool) :=
  match wakeups with
  | O => Ret (Some false)
  | S wakeups =>
      (let! now := do (Park x ready) in
       if now then Ret (Some true)
       else
         let! woken := do (TimedUnpark x) in
         if woken then timed_ref wakeups ready x
         else
           let! answer := do (WithCounts (fun self counts => Some (ready self counts, counts))) in
           Ret (Some answer))%exec
  end.

Lemma wait_ref_waits ready x wakeups : waits ready x wakeups (wait_ref wakeups ready x).
Proof. induction wakeups as [|wakeups IH]; [done|]. by do 2 eexists. Qed.
Lemma timed_ref_waits ready x wakeups : waits_bounded ready x wakeups (timed_ref wakeups ready x).
Proof. induction wakeups as [|wakeups IH]; [done|]. by do 3 eexists. Qed.

#[local] Instance monitor_ref : Monitor (Task := nat).
Proof.
  refine {|
    wait_until_ready wakeups ready := Act NewWaiter (wait_ref wakeups ready);
    wait_until_ready_with_total_timeout wakeups bound ready :=
      if bounded_wait bound then Act NewWaiter (timed_ref wakeups ready) else Ret None;
  |}.
  - intros wakeups ready. eexists. split; [done|]. intros x. apply wait_ref_waits.
  - intros wakeups bound ready ->. eexists. split; [done|]. intros x. apply timed_ref_waits.
  - by intros wakeups bound ready ->.
Defined.

Definition idle_runtime : runtime := {| rt_next := 0; rt_done := []; rt_aborted := []; rt_clock := 0 |}.

Definition submitter : Prog (bact (Task := nat)) () :=
  (let! h := try_submit_tracked_callable 7%nat in
   let! _ := try_submit 8%nat in
   let! _ := try_submit 9%nat in
   match h with
   | inl handle => let! _ := handle_cancel_task handle in Ret ()
   | inr _ => Ret ()
   end)%exec.
Definition stopper : Prog (bact (Task := nat)) () :=
  (let! _ := stop_and_report in let! _ := answering false (await_termination 9) in Ret ())%exec.
Definition waiter : Prog (bact (Task := nat)) () :=
  (let! _ := answering false (service_wait_termination 9) in Ret ())%exec.

Definition pool : list (Prog (bact (Task := nat)) ()) := [submitter; stopper; waiter].

Lemma pool_clients : Forall Client pool.
Proof.
  repeat apply Forall_cons_2; [..|apply Forall_nil_2].
  - apply Client_call; [apply (Api_submit try_submit_tracked_callable); constructor|]. intros h.
    do 2 (apply Client_call; [apply (Api_submit try_submit); constructor|]; intros _).
    destruct h; [|constructor].
    apply Client_call; [constructor|]. constructor.
  - apply Client_call; [constructor|]. intros _. apply Client_call; [constructor|]. constructor.
  - apply Client_call; [constructor|]. constructor.
Qed.

Definition start := (initial_world (Task := nat) 2 idle_runtime, pool).

(** Submission complete, both workers spawned, the third task rejected. *)
Definition submitted := drive (replicate 60 0%nat) start.
Definition busy := drive (replicate 8 2%nat ++ replicate 4 4%nat) submitted.
Definition finished := drive (concat (replicate 90 [0; 1; 2; 3; 4]%nat)) busy.
(** Alternatively, a stop before the remaining worker starts. *)
Definition stopped := drive (replicate 60 1%nat) submitted.

Definition reached (c : World (Task := nat) * list (Prog bact ())) : Prop :=
  service_reachable 2 idle_runtime pool (fst c, snd c).

Lemma drive_reached ts c : reached c -> reached (drive ts c).
Proof.
  unfold reached. rewrite <- !surjective_pairing. intros Hc. eapply rtc_trans; [exact Hc|].
  apply drive_reachable.
Qed.
Lemma start_reached : reached start.
Proof. unfold reached. rewrite <- surjective_pairing. apply rtc_refl. Qed.
Lemma submitted_reached : reached submitted.
Proof. apply drive_reached, start_reached. Qed.
Lemma busy_reached : reached busy.
Proof. apply drive_reached, submitted_reached. Qed.
Lemma finished_reached : reached finished.
Proof. apply drive_reached, busy_reached. Qed.
Lemma stopped_reached : reached stopped.
Proof. apply drive_reached, submitted_reached. Qed.

Lemma two_ok : 1 <= 2 <= usize_MAX.
Proof. unfold usize_MAX. lia. Qed.

(** ** The theorems at these configurations *)

(** Thread 4, a worker, is about to run its task. *)
Lemma no_panic_witness :
  match lookup (A := Prog (bact (Task := nat)) ()) 4%nat (snd busy) with
  | Some (Act c _) => bexec (Task := nat) 4 c (fst busy) <> Panicked
  | _ => False
  end.
Proof.
  assert (match lookup (A := Prog (bact (Task := nat)) ()) 4%nat (snd busy) with Some (Act _ _) => True | _ => False end) as Hact by (vm_compute; exact I).
  destruct (lookup (A := Prog (bact (Task := nat)) ()) 4%nat (snd busy)) as [[| |B c k]|] eqn:Ht; [destruct Hact..| |destruct Hact].
  exact (no_panic 2 idle_runtime pool (fst busy) (snd busy) 4 B c k two_ok pool_clients busy_reached Ht).
Defined.

Lemma stuck_quiescent_witness :
  task_counts (svc (fst finished)) = mkCounts 0 0 /\ abort_handles (svc (fst finished)) = ∅ /\
  reports (fst finished) = [Build_StopReport 0 1 0].
Proof.
  destruct (stuck_quiescent 2 idle_runtime pool (fst finished) (snd finished) two_ok pool_clients
    finished_reached) as (_ & _ & _ & Hc & Hm & _).
  - apply stuckb_stuck. vm_compute. reflexivity.
  - split_and!; [exact Hc|exact Hm|vm_compute; reflexivity].
Defined.

(** Both waiters of the pool have been answered, truthfully. *)
Lemma wait_answers_witness :
  answers (fst finished) = [(false, true); (false, true)] /\
  terminated_predicate (svc (fst finished)) (task_counts (svc (fst finished))) = true.
Proof.
  assert (answers (fst finished) = [(false, true); (false, true)]) as Ha by (vm_compute; reflexivity).
  split; [exact Ha|].
  apply (wait_answers 2 idle_runtime pool (fst finished) (snd finished) two_ok pool_clients
    finished_reached) with (bounded := false). rewrite Ha. left.
Defined.

Lemma runs_terminate_witness : ends_in quiescent start.
Proof.
  apply (runs_terminate 2 idle_runtime pool start two_ok pool_clients).
  pose proof start_reached as Hr. unfold reached in Hr. by rewrite <- surjective_pairing in Hr.
Defined.

Lemma shutdown_completes_witness :
  load (lifecycle_byte (svc (fst stopped))) = Stopping /\
  ends_in (fun c' => Forall Conc.finished (snd c') /\
    terminated_predicate (svc (fst c')) (task_counts (svc (fst c'))) = true) stopped.
Proof.
  split; [vm_compute; reflexivity|].
  apply (shutdown_completes 2 idle_runtime pool stopped two_ok pool_clients).
  - pose proof stopped_reached as Hr. unfold reached in Hr. by rewrite <- surjective_pairing in Hr.
  - vm_compute. discriminate.
Defined.

Lemma user_code_accounted_witness :
  tally (fun p => b2z (at_user p)) (snd busy) = 1 /\
  tally (fun p => b2z (at_user p)) (snd busy) <= running (task_counts (svc (fst busy))) <= 2.
Proof.
  split; [vm_compute; reflexivity|].
  apply (user_code_accounted 2 idle_runtime pool (fst busy) (snd busy) two_ok pool_clients busy_reached).
Defined.

Lemma callbacks_outside_locks_witness :
  submission_lock (svc (fst busy)) <> Some 4%nat /\ abort_lock (svc (fst busy)) <> Some 4%nat.
Proof.
  assert (option_map at_callback (snd busy !! 4%nat) = Some true) as Hp by (vm_compute; reflexivity).
  destruct (snd busy !! 4%nat) as [p|] eqn:He; [|discriminate Hp]. injection Hp as Hp.
  apply (callbacks_outside_locks 2 idle_runtime pool (fst busy) (snd busy) 4 p two_ok pool_clients
    busy_reached He Hp).
Defined.

Lemma admission_closed_witness :
  load (lifecycle_byte (svc (fst stopped))) <> Running /\
  length (trackers (fst (drive (replicate 90 2%nat) stopped))) = length (trackers (fst stopped)).
Proof.
  assert (load (lifecycle_byte (svc (fst stopped))) <> Running) as Hn by (vm_compute; discriminate).
  split; [exact Hn|]. pose proof stopped_reached as Hr. unfold reached in Hr.
  rewrite <- surjective_pairing in Hr.
  destruct (admission_closed 2 idle_runtime pool stopped (drive (replicate 90 2%nat) stopped) two_ok
    pool_clients Hr Hn (drive_reachable _ _)) as (_ & _ & _ & Hl).
  exact Hl.
Defined.

Lemma termination_stable_witness :
  terminated_predicate (svc (fst (drive [2; 3; 4]%nat stopped)))
    (task_counts (svc (fst (drive [2; 3; 4]%nat stopped)))) = true.
Proof.
  pose proof stopped_reached as Hr. unfold reached in Hr. rewrite <- surjective_pairing in Hr.
  apply (termination_stable 2 idle_runtime pool stopped (drive [2; 3; 4]%nat stopped) two_ok
    pool_clients Hr); [vm_compute; reflexivity|apply drive_reachable].
Defined.

Lemma stop_reports_bounded_witness :
  Build_StopReport 1 0 1 ∈ reports (fst stopped) /\
  (forall rep, rep ∈ reports (fst stopped) -> 0 <= report_cancelled rep <= report_queued rep).
Proof.
  split; [|exact (stop_reports_bounded 2 idle_runtime pool (fst stopped) (snd stopped) two_ok
    pool_clients stopped_reached)].
  assert (reports (fst stopped) = [Build_StopReport 1 0 1]) as -> by (vm_compute; reflexivity).
  left.
Defined.

Lemma heap_well_typed_witness :
  trackers (fst busy) !! 1%nat = Some (mkTracker 1 TASK_STATE_RUNNING) /\
  (1 < length (registrations (fst busy)))%nat.
Proof.
  assert (trackers (fst busy) !! 1%nat = Some (mkTracker 1 TASK_STATE_RUNNING)) as Hx
    by (vm_compute; reflexivity).
  split; [exact Hx|].
  destruct (heap_well_typed 2 idle_runtime pool (fst busy) (snd busy) two_ok pool_clients busy_reached)
    as (_ & Htr & _).
  apply (Htr 1%nat (mkTracker 1 TASK_STATE_RUNNING) Hx).
Defined.

(** The task started in [busy] is finished in [finished]. *)
Lemma tracker_monotone_witness :
  exists x', trackers (fst finished) !! 1%nat = Some x' /\ tr_marker x' = 1%nat /\
    TASK_STATE_RUNNING <= task_state x'.
Proof.
  pose proof busy_reached as Hr. unfold reached in Hr. rewrite <- surjective_pairing in Hr.
  destruct (tracker_monotone 2 idle_runtime pool busy finished 1 (mkTracker 1 TASK_STATE_RUNNING) two_ok
    pool_clients Hr) as (x' & Hx & Hm & Hle & _).
  - apply drive_reachable.
  - vm_compute. reflexivity.
  - exists x'. split_and!; [exact Hx|exact Hm|exact (proj2 Hle)].
Defined.

(** The submitter is about to take its first slot. *)
Definition accepting := drive (replicate 2 0%nat) start.

Lemma service_keeps_contract_witness :
  match step_at 0 accepting with
  | Some c' => contract_moves true (view (fst accepting)) (view (fst c')) /\
      c_total (view (fst accepting)) = 0 /\ c_total (view (fst c')) = 1
  | None => False
  end.
Proof.
  assert (option_map (fun c' => c_total (view (fst c'))) (step_at 0 accepting) = Some 1) as Htot
    by (vm_compute; reflexivity).
  destruct (step_at 0 accepting) as [c'|] eqn:Hs; [|discriminate Htot]. injection Htot as Htot.
  destruct (service_keeps_contract 2 idle_runtime pool accepting c' two_ok pool_clients) as (_ & _ & Hm).
  - apply drive_reachable.
  - exact (step_at_step _ _ _ Hs).
  - split_and!; [exact Hm|vm_compute; reflexivity|exact Htot].
Defined.

(** ** A producer that waits for capacity

    With room for one task, the second submission is saturated until the first
    task has run. *)

Definition producer : Prog (bact (Task := nat)) () :=
  (let! _ := try_submit 5%nat in
   let! _ := submit_when_admissible try_submit_callable 3 6%nat in Ret ())%exec.

Lemma producer_client : Forall Client [producer].
Proof.
  apply Forall_cons_2; [|apply Forall_nil_2].
  apply Client_call; [apply (Api_submit try_submit); constructor|]. intros _.
  apply Client_call; [apply (Api_retry try_submit_callable); constructor|]. constructor.
Qed.

Definition saturated :=
  drive (replicate 60 0%nat) (initial_world (Task := nat) 1 idle_runtime, [producer]).
Definition served := drive (concat (replicate 60 [1; 0; 2]%nat)) saturated.

Example served_calls : map (fun call => closure_task (uc_closure call)) (calls (fst served)) = [6; 5]%nat /\ stuckb served = true.
Proof. split; vm_compute; reflexivity. Qed.

Lemma producers_served_witness :
  (exists p, snd saturated !! 0%nat = Some p /\ awaits_capacity p) /\
  ends_in (fun c' => forall t p, snd c' !! t = Some p -> ~ awaits_capacity p) saturated.
Proof.
  split.
  - assert (match snd saturated !! 0%nat with Some p => awaits_capacity p | None => False end) as Hp
      by (vm_compute; exact I).
    destruct (snd saturated !! 0%nat) as [p|]; [by exists p|destruct Hp].
  - apply (producers_served 1 idle_runtime [producer] saturated);
      [unfold usize_MAX; lia|exact producer_client|apply drive_reachable].
Defined.

(** The callable of the second submission, task 6, has a result. *)
Lemma served_reached : service_reachable 1 idle_runtime [producer] served.
Proof. exact (rtc_trans _ saturated _ (drive_reachable _ _) (drive_reachable _ _)). Qed.

Lemma results_explained_witness :
  results_of (fst served) 0 = [Some (inl 6%nat)] /\ endpoint_output (endpoint_at (fst served) 0) = Some (inl 6%nat) /\
  (length (results_of (fst served) 0) <= 1)%nat /\
  (forall output, (0 < length (endpoints (fst served)))%nat ->
    endpoint_output (endpoint_at (fst served) 0) = Some output ->
    endpoint_output (endpoint_at (fst served) 0) = Some output /\
    explained output (results_of (fst served) 0)).
Proof.
  split; [vm_compute; reflexivity|]. split; [vm_compute; reflexivity|].
  apply (results_explained 1 idle_runtime [producer] served served);
    [unfold usize_MAX; lia|exact producer_client|exact served_reached|constructor].
Defined.

(** ** A callable that the runtime discards

    The runtime is shut down after the submission: it drops the closure, and with it
    a payload that was delivered already.  Nobody calls anything on the task; its
    handle resolves because the last owner of its cell drops it. *)

Definition caller : Prog (bact (Task := nat)) () :=
  (let! h := try_submit_tracked_callable 7%nat in
   match h with inl handle => let! _ := handle_get handle in Ret () | inr _ => Ret () end)%exec.
Definition closed_runtime : runtime := {| rt_next := 0; rt_done := []; rt_aborted := [0%nat]; rt_clock := 0 |}.

Lemma caller_client : Forall Client [caller].
Proof.
  apply Forall_cons_2; [|apply Forall_nil_2].
  apply Client_call; [apply (Api_submit try_submit_tracked_callable); constructor|]. intros [h|]; [|constructor].
  apply Client_call; [constructor|]. constructor.
Qed.

Definition awaiting :=
  drive (replicate 60 0%nat) (initial_world (Task := nat) 1 closed_runtime, [caller]).
Definition output_of (c : World (Task := nat) * list (Prog (bact (Task := nat)) ())) : option TaskOutput :=
  endpoint_output (endpoint_at (fst c) 0).

Lemma handles_resolve_witness :
  (exists p, snd awaiting !! 0%nat = Some p /\ awaits_result p) /\ output_of awaiting = None /\
  ends_in (fun c' =>
    (forall sl x, endpoints (fst c') !! sl = Some x -> settled (slot_endpoint x) (results_of (fst c') sl)) /\
    (forall t p, snd c' !! t = Some p -> ~ awaits_result p) /\
    (forall sl output, (sl < length (endpoints (fst awaiting)))%nat ->
      endpoint_output (endpoint_at (fst awaiting) sl) = Some output ->
      endpoint_output (endpoint_at (fst c') sl) = Some output)) awaiting.
Proof.
  split_and!.
  - assert (match snd awaiting !! 0%nat with Some p => awaits_result p | None => False end) as Hp
      by (vm_compute; exact I).
    destruct (snd awaiting !! 0%nat) as [p|]; [by exists p|destruct Hp].
  - vm_compute. reflexivity.
  - apply (handles_resolve 1 closed_runtime [caller] awaiting);
      [unfold usize_MAX; lia|exact caller_client|apply drive_reachable].
Defined.

(** Who drops the delivered payload drops the closure first; the hook of the
    registered entry is then the last owner of the cell, and [remove_abort_handle]
    drops it while it holds the abort-handle lock: the result is published, and
    whoever waits for it is woken, under that lock. *)
Definition discarding := drive (replicate 8 1%nat) awaiting.

Lemma discarding_reached : service_reachable 1 closed_runtime [caller] discarding.
Proof. exact (rtc_trans _ awaiting _ (drive_reachable _ _) (drive_reachable _ _)). Qed.

Example discard_publishes_under_lock :
  service_reachable 1 closed_runtime [caller] discarding /\
  abort_lock (svc (fst discarding)) = Some 1%nat /\ output_of discarding = None /\
  option_map (fun c' => (abort_lock (svc (fst c')), output_of c')) (step_at 1 discarding) =
    Some (Some 1%nat, Some (inr TaskExecutionError.Dropped)).
Proof.
  split; [exact discarding_reached|]. split_and!; vm_compute; reflexivity.
Qed.

(** A cancellation that wins after the worker has counted its task as running: the
    cancelling client has returned, the handle shows [Cancelled], nothing was called,
    and the slot is still taken - it is the worker that gives it back. *)
Definition canceller : Prog (bact (Task := nat)) () :=
  (let! h := try_submit_tracked_callable 7%nat in
   match h with inl handle => let! _ := handle_cancel_task handle in Ret () | inr _ => Ret () end)%exec.
Definition late_cancel :=
  drive (replicate 18 0 ++ replicate 4 1 ++ replicate 12 0)%nat
    (initial_world (Task := nat) 1 idle_runtime, [canceller]).

Example late_cancel_keeps_slot :
  service_reachable 1 idle_runtime [canceller] late_cancel /\
  match snd late_cancel !! 0%nat with Some (Ret _) => True | _ => False end /\
  output_of late_cancel = Some (inr TaskExecutionError.Cancelled) /\ calls (fst late_cancel) = [] /\
  task_counts (svc (fst late_cancel)) = mkCounts 0 1 /\
  task_counts (svc (fst (drive (replicate 20 1%nat) late_cancel))) = mkCounts 0 0.
Proof. split_and!; [apply drive_reachable|vm_compute; exact I|vm_compute; reflexivity..]. Qed.

(** The same for a task whose destructor panics: the submitting thread unwinds. *)
Definition careless : Prog (bact (Task := nat)) () := (let! _ := submit_callable 13%nat in Ret ())%exec.
Definition unwinding :=
  drive (replicate 40 0%nat) (drive [1; 1]%nat (drive (replicate 12 0%nat)
    (initial_world (Task := nat) 1 closed_runtime, [careless]))).

Example submission_unwinds :
  snd unwinding = [Unwind; Ret ()] /\ task_counts (svc (fst unwinding)) = mkCounts 0 0 /\
  abort_handles (svc (fst unwinding)) = ∅ /\
  output_of unwinding = Some (inr TaskExecutionError.Dropped).
Proof. split_and!; vm_compute; reflexivity. Qed.

(** ** Uninterrupted runs *)

Definition fresh : World (Task := nat) := initial_world 2 idle_runtime.
Definition state_of {A} (o : outcome (World (Task := nat)) BlockingClosure A) : World (Task := nat) :=
  match o with Next _ w _ => w | _ => fresh end.
Definition one_queued := state_of (run 0 (try_submit 7%nat) fresh).
Definition full := state_of (run 0 (try_submit 8%nat) one_queued).
Definition closing := state_of (run 0 service_shutdown full).

(** Task 13 panics when it is dropped. *)
Lemma service_rejects_witness :
  (run 1 (try_submit 13%nat) closing = Next (inr (RejectedTask.new Shutdown 13%nat)) closing [] /\
    run 1 (submit 13%nat) closing = Unwound closing []) /\
  (run 1 (try_submit_callable 9%nat) full = Next (inr (RejectedTask.new Saturated 9%nat)) full [] /\
    run 1 (submit_callable 9%nat) full = Next (inr Saturated) full []).
Proof.
  destruct (service_rejects 1 closing 13%nat) as [Hclosed _]; [vm_compute; reflexivity|].
  destruct (service_rejects 1 full 9%nat) as [_ Hfull]; [vm_compute; reflexivity|]. split.
  - destruct Hclosed as (Ht & _ & _ & Hs & _); [vm_compute; discriminate|]. split; [exact Ht|exact Hs].
  - destruct Hfull as (_ & Ht & _ & _ & Hs & _); [vm_compute..|]; [reflexivity|repeat split; discriminate|discriminate|discriminate|].
    split; [exact Ht|exact Hs].
Defined.

Lemma room_for_two : has_room fresh.
Proof. unfold has_room, usize_MAX. cbn. lia. Qed.

Lemma open_service_accepts_witness :
  exists h ch w', run 1 (try_submit 9%nat) fresh = Next (inl ()) w' [mkClosure ch h] /\
    accepted_state fresh w' ch (FinishQueuedOnce 0) (RunnableClosure 9%nat) h.
Proof.
  apply (open_service_accepts 1 fresh 9%nat); [by split|vm_compute; reflexivity|done|apply room_for_two|done].
Defined.

Lemma fresh_counts : counts_ok (task_counts (svc fresh)).
Proof. done. Qed.

(** Task 30 fails. *)
Lemma submit_then_get_witness :
  exists h ch w1 w2, let handle := mkHandle 0 h 0 in
    run 1 (try_submit_tracked_callable 30%nat) fresh = Next (inl handle) w1 [mkClosure ch h] /\
    run 1 (handle_get handle) w1 = Blocked /\
    run 5 (worker ch) w1 = Next () w2 [] /\
    calls w2 = [mkCall 5%nat (CallableClosure 0 30%nat) (Some (inr 30%nat))] /\
    task_counts (svc w2) = mkCounts 0 0 /\ abort_handles (svc w2) = ∅ /\ unlocked w2 /\
    run 1 (handle_get handle) w2 = Next (inr (TaskExecutionError.Failed 30%nat)) w2 [].
Proof.
  exact (submit_then_get 1 5 fresh 30%nat (conj eq_refl eq_refl) eq_refl fresh_counts room_for_two eq_refl).
Defined.

Lemma cancel_then_skip_witness :
  exists h ch w1 w2 w3, run 1 (try_submit 9%nat) fresh = Next (inl ()) w1 [mkClosure ch h] /\
    run 1 (call_hook (FinishQueuedOnce 0)) w1 = Next true w2 [] /\
    task_counts (svc w2) = mkCounts 0 0 /\
    run 1 (call_hook (FinishQueuedOnce 0)) w2 = Next false w2 [] /\
    run 5 (worker ch) w2 = Next () w3 [] /\
    calls w3 = [] /\ task_counts (svc w3) = mkCounts 0 0 /\ abort_handles (svc w3) = ∅.
Proof.
  apply (cancel_then_skip 1 5 fresh 9%nat); [by split|vm_compute; reflexivity|done|apply room_for_two|done].
Defined.

Definition tracked_queued := state_of (run 0 (try_submit_tracked_callable 7%nat) fresh).
Definition tracked_handle : TokioBlockingTaskHandle := mkHandle 0 (0%nat : AbortHandle) 0.

(** The same task after a worker has received it and counted it as running, but not
    yet started its slot. *)
Definition tracked_started := state_of (run 1 (guard_mark_started 0) tracked_queued).

Lemma handle_cancel_effect_witness :
  (exists w', run 1 (handle_cancel_task tracked_handle) tracked_queued = Next CancelResult.Cancelled w' [] /\
    worked tracked_queued w' 0 0 (mkCounts 0 0)) /\
  (exists w' w'', run 1 (handle_cancel_task tracked_handle) tracked_started = Next CancelResult.Cancelled w' [] /\
    task_counts (svc w') = mkCounts 0 1 /\ run 2 (guard_drop 0) w' = Next () w'' [] /\
    worked tracked_started w'' 0 0 (mkCounts 0 0)).
Proof.
  assert (exists e, handle_cancel (endpoint_at tracked_queued 0) = (CancelResult.Cancelled, e)) as [e He]
    by (eexists; vm_compute; reflexivity).
  assert (exists e, handle_cancel (endpoint_at tracked_started 0) = (CancelResult.Cancelled, e)) as [e1 He1]
    by (eexists; vm_compute; reflexivity).
  split.
  - pose proof (handle_cancel_effect 1 2 tracked_queued tracked_handle 0 TASK_STATE_QUEUED) as Hc.
    cbn [bh_endpoint tracked_handle] in Hc. rewrite He in Hc.
    destruct Hc as (_ & _ & Hok); [by vm_compute..|].
    destruct (Hok eq_refl) as (w' & w'' & Hrun & _ & Hw & _). exists w'. split; [exact Hrun|exact (Hw eq_refl)].
  - pose proof (handle_cancel_effect 1 2 tracked_started tracked_handle 0 TASK_STATE_RUNNING) as Hc.
    cbn [bh_endpoint tracked_handle] in Hc. rewrite He1 in Hc.
    destruct Hc as (_ & _ & Hok); [by vm_compute..|].
    destruct (Hok eq_refl) as (w' & w'' & Hrun & _ & _ & Hs & Hdrop & Hw).
    destruct (Hs ltac:(done)) as [_ Hsvc]. exists w', w''. split_and!; [exact Hrun|by rewrite Hsvc|exact Hdrop|exact Hw].
Defined.

Lemma retry_effect_witness :
  run 1 (retry try_submit_callable 3 (subscribe (capacity_tx (svc full))) 9%nat) full = Blocked /\
  run 1 (retry try_submit_callable 3 (subscribe (capacity_tx (svc closing))) 9%nat) closing =
    Next (Some (inr Shutdown)) closing [] /\
  run 1 (retry try_submit_callable 3 (subscribe (capacity_tx (svc closing))) 13%nat) closing =
    Unwound closing [].
Proof.
  destruct (retry_effect try_submit_callable 1 full 2 (subscribe (capacity_tx (svc full))) 9%nat)
    as (_ & _ & Hfull); [constructor|vm_compute; reflexivity|].
  destruct (retry_effect try_submit_callable 1 closing 2 (subscribe (capacity_tx (svc closing))) 9%nat)
    as (_ & Hclosed & _); [constructor|vm_compute; reflexivity|].
  destruct (retry_effect try_submit_callable 1 closing 2 (subscribe (capacity_tx (svc closing))) 13%nat)
    as (_ & Hpanics & _); [constructor|vm_compute; reflexivity|].
  split_and!.
  - rewrite Hfull; [vm_compute; reflexivity|..]; vm_compute;
      [reflexivity|repeat split; discriminate|discriminate|discriminate].
  - apply Hclosed. vm_compute. discriminate.
  - apply Hpanics. vm_compute. discriminate.
Defined.

(** On a runtime that discards what it is given the submission of task 13 unwinds, and
    leaves nothing behind. *)
Definition refusing : World (Task := nat) := initial_world 2 closed_runtime.
Definition refused := state_of (run 1 (let! _ := prepare_blocking_submission in new_accepted_endpoint)%exec refusing).
Definition refused_spawned := state_of (run 1 (spawn_accepted_blocking_task 0 (CancelUnstartedSlot 0 0)) refused).

Lemma discard_before_delivery_witness :
  exists w2 w3, run 5 (closure_body (mkClosure 0 0%nat)) refused_spawned = Next () w2 [] /\
    queued (task_counts (svc w2)) = 1 /\
    run 1 (hand_over 0 (CallableClosure 0 13%nat, 0%nat)) w2 = Unwound w3 [] /\
    task_counts (svc w3) = mkCounts 0 0 /\ abort_handles (svc w3) = ∅ /\ calls w3 = [] /\
    run 1 (handle_get (mkHandle 0 0%nat 0)) w3 = Next (inr TaskExecutionError.Dropped) w3 [].
Proof.
  destruct (discard_before_delivery 1 5 refusing 13%nat)
    as (w0 & w1 & h & ch & Hp & Hs & _ & Hgone); [by split|vm_compute; reflexivity|done|unfold has_room, usize_MAX; cbn; lia|done|].
  pose proof (f_equal state_of Hp) as E0. change (refused = w0) in E0. subst w0.
  pose proof (f_equal state_of Hs) as E1. change (refused_spawned = w1) in E1. subst w1.
  apply (f_equal (fun o => match o with Next b _ _ => b | _ => (h, ch) end)) in Hs.
  vm_compute in Hs. injection Hs as <- <-.
  destruct (Hgone _ ltac:(vm_compute; reflexivity)) as (w2 & w3 & Hd & Hq & Hh & Hc & Ha & _ & _ & Hu & Hg).
  exists w2, w3. split_and!; [exact Hd|rewrite Hq; vm_compute; reflexivity|exact Hh|exact Hc|exact Ha|exact Hu|exact Hg].
Defined.

Lemma queries_agree_witness :
  run 1 service_lifecycle full = Next Running full [] /\
  run 1 service_stats full = Next (mkStats Running 2 2 0) full [].
Proof.
  destruct (queries_agree 1 full) as (Hl & _ & _ & Hs & _); [apply stored_initial|].
  split; [exact Hl|exact Hs].
Defined.


Lemma shutdown_effect_witness :
  exists w', run 1 service_shutdown full = Next () w' [] /\
    load (lifecycle_byte (svc w')) = ShuttingDown /\ task_counts (svc w') = mkCounts 2 0.
Proof.
  destruct (shutdown_effect 1 full) as (w' & Hrun & Hl & _ & Hc & _); [vm_compute; reflexivity|].
  exists w'. split; [exact Hrun|split; [rewrite Hl; vm_compute; reflexivity|rewrite Hc; vm_compute; reflexivity]].
Defined.

Lemma stop_effect_witness :
  exists rep w', run 1 service_stop full = Next rep w' [] /\ report_queued rep = 2 /\
    report_cancelled rep = 2 - queued (task_counts (svc w')).
Proof.
  destruct (stop_effect 1 full) as (rep & w' & Hrun & _ & _ & _ & Hq & _ & Hc & _).
  - split; vm_compute; reflexivity.
  - vm_compute. intuition discriminate.
  - exists rep, w'. split; [exact Hrun|]. rewrite Hc, Hq. split; vm_compute; reflexivity.
Defined.

Definition drained := state_of (run 0 service_shutdown fresh).

Lemma timed_wait_effect_witness :
  run 1 (service_wait_termination_timeout 3 3 500) drained = Next true drained [] /\
  run 1 (service_wait_termination_timeout 3 3 0) full = Next false full [] /\
  run 1 (service_wait_termination_timeout 3 3 500) full = Blocked.
Proof.
  destruct (timed_wait_effect 1 drained 2 2 500) as (Hdone & _).
  destruct (timed_wait_effect 1 full 2 2 0) as (_ & _ & Hzero & _).
  destruct (timed_wait_effect 1 full 2 2 500) as (_ & _ & _ & Hwait).
  split_and!.
  - apply Hdone. vm_compute. reflexivity.
  - apply Hzero; vm_compute; [reflexivity|discriminate].
  - apply Hwait; vm_compute; reflexivity.
Defined.

(** ** Lifecycle bytes and counters *)

Lemma from_u8_total_witness : from_u8 200 = Terminated.
Proof.
  destruct (from_u8_total 200) as (_ & Hclamp & _); [unfold is_u8; lia|].
  apply Hclamp. cbn. lia.
Defined.

Lemma lifecycle_transitions_witness :
  load (LifecycleBits.shutdown 0) = ShuttingDown /\ load (LifecycleBits.stop 0) = Stopping.
Proof.
  destruct (lifecycle_transitions 0) as (Hs & _ & Hst & _); [apply stored_initial|].
  split; [exact Hs|exact Hst].
Defined.

Lemma counts_roundtrip_witness :
  (TaskCounts.accept_task (mkCounts 3 4) ≫= TaskCounts.mark_started) ≫= TaskCounts.finish_task true =
    Some (mkCounts 3 4).
Proof.
  apply (counts_roundtrip (mkCounts 3 4)); [unfold counts_ok, usize_MAX; cbn; lia|unfold usize_MAX; cbn; lia].
Defined.
