(* ===== verification/IoState.v ===== *)
(** * [tokio_io_executor_service_state.rs]: the shared state of the IO service

    Same layout as [BlockingState]: the state of one [TokioIoExecutorService]
    with the objects its methods share, the atomic accesses ([ioact]), their
    effect ([ioexec]) and the methods as programs.  The world also records the stop
    reports handed out, every poll of a user's future and every panic of its
    destructor, what every finished task gave its join handle, the number of wake-ups
    and the answers of waits.  [active_tasks] is a plain atomic counter, so that reading
    it and incrementing it are two actions. *)

From S2P Require Import Prelude Conc External LifecycleBits Registration.
From stdpp Require Import prelude list gmap.
#[local] Open Scope Z_scope.

(** [std::task::Poll], and [tokio::task::JoinError], of which the crate asks
    [is_cancelled]. *)
Inductive Poll (A : Type) := Ready (a : A) | Pending.
Arguments Ready {A} a.
Arguments Pending {A}.

Record JoinError := mkJoinError { is_cancelled : bool }.

(** What a join handle resolves to: the output of the spawned block, or why there is
    none. *)
Definition JoinResult (R E : Type) : Type := TaskResult R E + JoinError.

(** One poll of a user's future. *)
Inductive UserPoll (Fut R E : Type) :=
  | UPending (rest : Fut)
  | UReady (result : R + E)
  | UPanicked.
Arguments UPending {Fut R E} rest.
Arguments UReady {Fut R E} result.
Arguments UPanicked {Fut R E}.

(** What polling a user's future gives, and whether its destructor panics, may depend
    on the runtime in any way. *)
Class UserFuture `{!Tokio} (Fut R E : Type) := {
  poll_user : runtime -> Fut -> UserPoll Fut R E * runtime;
  future_drop_panics : runtime -> Fut -> bool;
}.

(** What a task sees of its future: the outcome of a poll, or that the destructor
    panicked (one that returns leaves no trace). *)
Inductive UserEvent (Fut R E : Type) :=
  | Polled (poll : UserPoll Fut R E)
  | DropPanicked.
Arguments Polled {Fut R E} poll.
Arguments DropPanicked {Fut R E}.

Section IoState.
Context `{!BuildProfile, !LifecycleRepr, !Allocator, !Tokio, !Oneshot, !WaiterSet, !Watch, !AtomicCount}.
Context {Fut R E : Type} `{!UserFuture Fut R E}.

(** ** Data *)

Record TrackedAbortHandle := mkTracked { ta_marker : nat; ta_handle : AbortHandle }.

(** A guarded future: the user's future and its [TokioIoServiceTaskGuard],
    which is a marker (and a reference to the service). *)
Definition TokioGuardedIoFuture : Type := Fut * nat.

Record TokioIoExecutorServiceState := mkState {
  lifecycle_byte : Z;
  active_tasks : count;
  task_capacity : Z;
  submission_lock : option nat;
  abort_lock : option nat;
  abort_handles : gmap Z TrackedAbortHandle;
  termination_notify : waiters;
  capacity_tx : watch;
}.

(** The async block given to [spawn]: it owns the receiver. *)
Record AsyncBlock := mkBlock { ab_channel : nat; ab_handle : AbortHandle }.

Record IoWorld := mkWorld {
  svc : TokioIoExecutorServiceState;
  registrations : list bool;
  channels : list (oneshot (Fut * nat));
  rt : runtime;
  next_waiter : nat;
  reports : list StopReport;
  joined : list (AsyncBlock * JoinResult R E);
  notified : nat;
  answers : list (nat * bool);
  polled : list (nat * UserEvent Fut R E);
}.

(** [with_task_capacity]: the state of a new service. *)
Definition with_task_capacity (capacity : Z) : TokioIoExecutorServiceState := {|
  lifecycle_byte := 0;
  active_tasks := count_default;
  task_capacity := capacity;
  submission_lock := None;
  abort_lock := None;
  abort_handles := ∅;
  termination_notify := no_waiters;
  capacity_tx := watch_channel 0;
|}.

Definition DEFAULT_TASK_CAPACITY : Z := 1024.
Definition state_default : TokioIoExecutorServiceState := with_task_capacity DEFAULT_TASK_CAPACITY.

(** A service just created on runtime state [rt0]. *)
Definition initial_world (capacity : Z) (rt0 : runtime) : IoWorld := {|
  svc := with_task_capacity capacity;
  registrations := []; channels := [];
  rt := rt0; next_waiter := 0; reports := []; joined := [];
  notified := 0; answers := []; polled := [];
|}.

(** ** Field updates *)

Definition set_lifecycle v s := mkState v (active_tasks s) (task_capacity s)
  (submission_lock s) (abort_lock s) (abort_handles s) (termination_notify s) (capacity_tx s).
Definition set_active v s := mkState (lifecycle_byte s) v (task_capacity s)
  (submission_lock s) (abort_lock s) (abort_handles s) (termination_notify s) (capacity_tx s).
Definition set_submission_lock v s := mkState (lifecycle_byte s) (active_tasks s) (task_capacity s)
  v (abort_lock s) (abort_handles s) (termination_notify s) (capacity_tx s).
Definition set_abort_lock v s := mkState (lifecycle_byte s) (active_tasks s) (task_capacity s)
  (submission_lock s) v (abort_handles s) (termination_notify s) (capacity_tx s).
Definition set_abort_handles v s := mkState (lifecycle_byte s) (active_tasks s) (task_capacity s)
  (submission_lock s) (abort_lock s) v (termination_notify s) (capacity_tx s).
Definition set_termination_notify v s := mkState (lifecycle_byte s) (active_tasks s)
  (task_capacity s) (submission_lock s) (abort_lock s) (abort_handles s) v (capacity_tx s).
Definition set_capacity_tx v s := mkState (lifecycle_byte s) (active_tasks s) (task_capacity s)
  (submission_lock s) (abort_lock s) (abort_handles s) (termination_notify s) v.

Definition set_svc f w := mkWorld (f (svc w)) (registrations w) (channels w)
  (rt w) (next_waiter w) (reports w) (joined w) (notified w) (answers w) (polled w).
Definition set_registrations v w := mkWorld (svc w) v (channels w)
  (rt w) (next_waiter w) (reports w) (joined w) (notified w) (answers w) (polled w).
Definition set_channels v w := mkWorld (svc w) (registrations w) v
  (rt w) (next_waiter w) (reports w) (joined w) (notified w) (answers w) (polled w).
Definition set_rt v w := mkWorld (svc w) (registrations w) (channels w)
  v (next_waiter w) (reports w) (joined w) (notified w) (answers w) (polled w).
Definition set_next_waiter v w := mkWorld (svc w) (registrations w) (channels w)
  (rt w) v (reports w) (joined w) (notified w) (answers w) (polled w).
Definition set_reports v w := mkWorld (svc w) (registrations w) (channels w)
  (rt w) (next_waiter w) v (joined w) (notified w) (answers w) (polled w).
Definition set_joined v w := mkWorld (svc w) (registrations w) (channels w)
  (rt w) (next_waiter w) (reports w) v (notified w) (answers w) (polled w).
Definition set_notified v w := mkWorld (svc w) (registrations w) (channels w)
  (rt w) (next_waiter w) (reports w) (joined w) v (answers w) (polled w).
Definition set_answers v w := mkWorld (svc w) (registrations w) (channels w)
  (rt w) (next_waiter w) (reports w) (joined w) (notified w) v (polled w).
Definition set_polled v w := mkWorld (svc w) (registrations w) (channels w)
  (rt w) (next_waiter w) (reports w) (joined w) (notified w) (answers w) v.

(** ** Atomic actions *)

(** How the task's wait for its future ends. *)
Inductive Handoff :=
  | Received (payload : Fut * nat)
  | SenderDropped
  | TaskDropped (stored : option (Fut * nat)).

Inductive ioact : Type -> Type :=
  (* parking_lot::Mutex<()> submission_lock *)
  | LockSubmission : ioact ()
  | UnlockSubmission : ioact ()
  (* AtomicU8 lifecycle *)
  | LoadLifecycle : ioact Z
  | FetchUpdateLifecycle (f : Z -> option Z) : ioact ()
  | StoreLifecycle (byte : Z) : ioact ()
  (* AtomicCount active_tasks *)
  | GetActive : ioact Z
  | IncActive : ioact ()
  | DecActive : ioact ()
  (* Mutex<HashMap<usize, TrackedAbortHandle>> abort_handles *)
  | LockAborts : ioact ()
  | UnlockAborts : ioact ()
  | InsertAbort (key : Z) (entry : TrackedAbortHandle) : ioact (option TrackedAbortHandle)
  | RemoveAbort (key : Z) : ioact ()
  | TakeAborts : ioact (list (Z * TrackedAbortHandle))
  (* tokio::sync::Notify termination_notify *)
  | NewWaiter : ioact nat
  | NotifyWaiters : ioact ()
  | Enable (w : nat) : ioact ()
  | AwaitNotified (w : nat) : ioact ()
  | DropNotified (w : nat) : ioact ()
  (* watch::Sender<u64> capacity_tx *)
  | SendModify (f : Z -> Z) : ioact ()
  | Subscribe : ioact receiver
  | AwaitChanged (rx : receiver) : ioact receiver
  | DropChanges (rx : receiver) : ioact ()
  (* Arc<TokioTaskRegistration> *)
  | NewRegistration : ioact nat
  | StoreFinished (marker : nat) : ioact ()
  | LoadFinished (marker : nat) : ioact bool
  (* tokio::sync::oneshot *)
  | NewChannel : ioact nat
  | Send (ch : nat) (payload : Fut * nat) : ioact (option (Fut * nat))
  | AwaitReceiver (ch : nat) (h : AbortHandle) : ioact Handoff
  (* tokio runtime *)
  | Spawn (ch : nat) : ioact AsyncBlock
  | HandleIsFinished (h : AbortHandle) : ioact bool
  | HandleAbort (h : AbortHandle) : ioact ()
  | Dispatch (h : AbortHandle) : ioact bool
  | Complete (block : AsyncBlock) (result : JoinResult R E) : ioact ()
  (* tokio::task::JoinHandle: one poll; awaiting a future that wraps it with [poll] *)
  | PollJoin (block : AsyncBlock) : ioact (Poll (JoinResult R E))
  | AwaitJoin (block : AsyncBlock) (poll : Poll (JoinResult R E) -> Poll (TaskResult R E)) :
      ioact (TaskResult R E)
  (* the user's future: one poll by its task; its destruction, by its task or by the
     submitter, and the destruction of a rejected one: whether the destructor panicked *)
  | PollUser (block : AsyncBlock) (future : Fut) : ioact (UserPoll Fut R E)
  | DropFuture (owner : option AsyncBlock) (future : Fut) : ioact bool
  | DropRejected (future : Fut) : ioact bool
  (* immutable field, debug_assert!, and handing a stop report or the answer of a
     wait of [fuel] checks to the caller *)
  | ReadCapacity : ioact Z
  | DebugAssert (b : bool) : ioact ()
  | Report (report : StopReport) : ioact ()
  | Answer (fuel : nat) (answer : bool) : ioact ().

Definition channel_at (w : IoWorld) (ch : nat) : oneshot (Fut * nat) :=
  default channel (channels w !! ch).

(** What the join handle of the task of channel [ch] has resolved to, and what the
    task saw of its future, the last event first. *)
Definition joined_of (ch : nat) (w : IoWorld) : list (JoinResult R E) :=
  snd <$> filter (fun x => ab_channel (fst x) = ch) (joined w).
Definition polls_of (ch : nat) (w : IoWorld) : list (UserEvent Fut R E) :=
  snd <$> filter (fun x => fst x = ch) (polled w).

(** One poll of a join handle.  Tokio lets one await take the result; here it stays.
    There are no handles of tasks that were never spawned. *)
Definition join_poll (w : IoWorld) (block : AsyncBlock) : Poll (JoinResult R E) :=
  match joined_of (ab_channel block) w with
  | result :: _ => Ready result
  | [] =>
      if decide (ab_channel block < length (channels w))%nat then Pending
      else Ready (inr (mkJoinError true))
  end.

Definition ioexec {B} (t : nat) (c : ioact B) (w : IoWorld) : outcome IoWorld AsyncBlock B :=
  match c in ioact B return outcome IoWorld AsyncBlock B with
  | LockSubmission =>
      match submission_lock (svc w) with
      | None => Next () (set_svc (set_submission_lock (Some t)) w) []
      | Some _ => Blocked
      end
  | UnlockSubmission => Next () (set_svc (set_submission_lock None) w) []
  | LoadLifecycle => Next (lifecycle_byte (svc w)) w []
  | FetchUpdateLifecycle f =>
      Next () (set_svc (set_lifecycle (fetch_update f (lifecycle_byte (svc w)))) w) []
  | StoreLifecycle byte => Next () (set_svc (set_lifecycle byte) w) []
  | GetActive => Next (count_get (active_tasks (svc w))) w []
  | IncActive =>
      match count_inc (active_tasks (svc w)) with
      | Some c => Next () (set_svc (set_active c) w) []
      | None => Panicked
      end
  | DecActive =>
      match count_dec (active_tasks (svc w)) with
      | Some c => Next () (set_svc (set_active c) w) []
      | None => Panicked
      end
  | LockAborts =>
      match abort_lock (svc w) with
      | None => Next () (set_svc (set_abort_lock (Some t)) w) []
      | Some _ => Blocked
      end
  | UnlockAborts => Next () (set_svc (set_abort_lock None) w) []
  | InsertAbort k e =>
      Next (abort_handles (svc w) !! k)
           (set_svc (set_abort_handles (<[k := e]> (abort_handles (svc w)))) w) []
  | RemoveAbort k =>
      Next () (set_svc (set_abort_handles (delete k (abort_handles (svc w)))) w) []
  | TakeAborts =>
      Next (map_to_list (abort_handles (svc w))) (set_svc (set_abort_handles ∅) w) []
  | NewWaiter => Next (next_waiter w) (set_next_waiter (S (next_waiter w)) w) []
  | NotifyWaiters =>
      Next () (set_notified (S (notified w))
        (set_svc (set_termination_notify (wake_all (termination_notify (svc w)))) w)) []
  | Enable x =>
      Next () (set_svc (set_termination_notify (enlist (termination_notify (svc w)) x)) w) []
  | AwaitNotified x => if waiting (termination_notify (svc w)) x then Blocked else Next () w []
  | DropNotified x =>
      Next () (set_svc (set_termination_notify (delist (termination_notify (svc w)) x)) w) []
  | SendModify f => Next () (set_svc (set_capacity_tx (send_modify f (capacity_tx (svc w)))) w) []
  | Subscribe => Next (subscribe (capacity_tx (svc w))) w []
  | AwaitChanged rx =>
      if has_changed (capacity_tx (svc w)) rx then Next (subscribe (capacity_tx (svc w))) w []
      else Blocked
  | DropChanges rx => Next () w []
  | NewRegistration =>
      Next (length (registrations w)) (set_registrations (registrations w ++ [false]) w) []
  | StoreFinished m => Next () (set_registrations (<[m := true]> (registrations w)) w) []
  | LoadFinished m => Next (default true (registrations w !! m)) w []
  | NewChannel => Next (length (channels w)) (set_channels (channels w ++ [channel]) w) []
  | Send ch p =>
      let '(back, ch') := send (channel_at w ch) p in
      Next back (set_channels (<[ch := ch']> (channels w)) w) []
  | AwaitReceiver ch h =>
      let '(go, rt') := dispatch (rt w) h in
      if go then
        if pending (channel_at w ch) then Blocked
        else let '(got, ch') := recv (channel_at w ch) in
             Next (match got with Some p => Received p | None => SenderDropped end)
                  (set_rt rt' (set_channels (<[ch := ch']> (channels w)) w)) []
      else let '(stored, ch') := drop_receiver (channel_at w ch) in
           Next (TaskDropped stored) (set_rt rt' (set_channels (<[ch := ch']> (channels w)) w)) []
  | Spawn ch =>
      let '(h, rt') := spawn (rt w) in
      Next (mkBlock ch h) (set_rt rt' w) [mkBlock ch h]
  | HandleIsFinished h => Next (is_finished (rt w) h) w []
  | HandleAbort h => Next () (set_rt (abort (rt w) h) w) []
  | Dispatch h => let '(go, rt') := dispatch (rt w) h in Next go (set_rt rt' w) []
  | Complete block result => Next () (set_joined ((block, result) :: joined w) w) []
  | PollJoin block => Next (join_poll w block) w []
  | AwaitJoin block poll =>
      match poll (join_poll w block) with
      | Ready result => Next result w []
      | Pending => Blocked
      end
  | PollUser block future =>
      let '(p, rt') := poll_user (rt w) future in
      Next p (set_polled ((ab_channel block, Polled p) :: polled w) (set_rt rt' w)) []
  | DropFuture owner future =>
      let panicked := future_drop_panics (rt w) future in
      Next panicked
        (match owner with
         | Some block =>
             if panicked then set_polled ((ab_channel block, DropPanicked) :: polled w) w else w
         | None => w
         end) []
  | DropRejected future => Next (future_drop_panics (rt w) future) w []
  | ReadCapacity => Next (task_capacity (svc w)) w []
  | DebugAssert b =>
      match debug_assert b with Some _ => Next () w [] | None => Panicked end
  | Report report => Next () (set_reports (report :: reports w) w) []
  | Answer fuel answer => Next () (set_answers ((fuel, answer) :: answers w) w) []
  end.

(** ** Methods of [TokioIoExecutorServiceState] *)

Definition do {B} (c : ioact B) : Prog ioact B := Act c Ret.

Definition lock_submission : Prog ioact () := do LockSubmission.

Definition capacity_changes : Prog ioact receiver := do Subscribe.

Definition lock_abort_handles : Prog ioact () := do LockAborts.

Definition notify_capacity_changed : Prog ioact () :=
  do (SendModify (fun generation => wrapping_add generation 1)).

Definition try_accept_task : Prog ioact bool :=
  (let! active := do GetActive in
   let! capacity := do ReadCapacity in
   if capacity <=? active then Ret false
   else do IncActive ;; Ret true)%exec.

Definition register_abort_handle (marker : nat) (h : AbortHandle) : Prog ioact () :=
  (lock_abort_handles ;;
   let! finished := do (LoadFinished marker) in
   if negb finished then
     let! done := do (HandleIsFinished h) in
     if negb done then
       let! previous := do (InsertAbort (key marker) (mkTracked marker h)) in
       do (DebugAssert (if previous is Some _ then false else true)) ;;
       do UnlockAborts
     else do UnlockAborts
   else do UnlockAborts)%exec.

Definition remove_abort_handle (marker : nat) : Prog ioact () :=
  (do (StoreFinished marker) ;;
   lock_abort_handles ;;
   do (RemoveAbort (key marker)) ;;
   do UnlockAborts)%exec.

Fixpoint abort_all (cancellation_count : Z) (handles : list (Z * TrackedAbortHandle)) : Prog ioact Z :=
  match handles with
  | [] => Ret cancellation_count
  | (_, tracked) :: rest =>
      (let! finished := do (HandleIsFinished (ta_handle tracked)) in
       if negb finished then
         do (HandleAbort (ta_handle tracked)) ;;
         abort_all (cancellation_count + 1) rest
       else abort_all cancellation_count rest)%exec
  end.

Definition abort_tracked_tasks : Prog ioact Z :=
  (lock_abort_handles ;;
   let! handles := do TakeAborts in
   do UnlockAborts ;;
   abort_all 0 handles)%exec.

(** [&&] evaluates [active_tasks.is_zero()] only when the byte says so. *)
Definition lifecycle : Prog ioact ExecutorServiceLifecycle :=
  (let! byte := do LoadLifecycle in
   if negb (bool_decide (load byte = Running)) then
     let! active := do GetActive in
     Ret (if active =? 0 then Terminated else load byte)
   else Ret (load byte))%exec.

Definition is_not_running : Prog ioact bool :=
  (let! byte := do LoadLifecycle in
   Ret (negb (bool_decide (load byte = Running))))%exec.

Definition shutdown : Prog ioact () := do (FetchUpdateLifecycle shutdown_update).

Definition stop : Prog ioact () := do (StoreLifecycle (as_u8 Stopping)).

Definition notify_termination_waiters : Prog ioact () := do NotifyWaiters.

(** [TokioIoExecutorServiceStats]. *)
Record TokioIoExecutorServiceStats := mkStats {
  stats_lifecycle : ExecutorServiceLifecycle;
  stats_task_capacity : Z;
  stats_accepted_unfinished : Z;
}.

Definition stats : Prog ioact TokioIoExecutorServiceStats :=
  (let! l := lifecycle in
   let! capacity := do ReadCapacity in
   let! active := do GetActive in
   Ret (mkStats l capacity active))%exec.

(** [await_termination]: one [Notified] future is pinned and enabled before
    every check.  The caller may drop a pending future: [fuel] is the number of
    notifications it waits for before it does.  Returning and dropping unregister
    the waiter. *)
Fixpoint await_termination_loop (fuel : nat) (notified : nat) : Prog ioact bool :=
  (do (Enable notified) ;;
   let! l := lifecycle in
   if bool_decide (l = Terminated) then do (DropNotified notified) ;; Ret true
   else
     match fuel with
     | O => do (DropNotified notified) ;; Ret false
     | S fuel => do (AwaitNotified notified) ;; await_termination_loop fuel notified
     end)%exec.

Definition await_termination (fuel : nat) : Prog ioact bool :=
  (let! notified := do NewWaiter in await_termination_loop fuel notified)%exec.
End IoState.

#[global] Arguments joined_of : simpl never.
#[global] Arguments polls_of : simpl never.
