(* ===== verification/IoService.v ===== *)
(** * The IO service: guard, guarded future, spawn handoff, handle, service

    [tokio_io_service_task_guard.rs], [internal/tokio_guarded_io_future.rs],
    [internal/tokio_io_spawn_handoff.rs], [tokio_task_handle.rs] and
    [tokio_io_executor_service.rs], on top of [IoState]. *)

From S2P Require Import Prelude Conc External LifecycleBits RejectedTask Registration IoState.
From stdpp Require Import prelude list gmap.
#[local] Open Scope Z_scope.

(** ** [TokioTaskHandle]: the outcome of a task, as a poll of its handle *)

Definition join_error_to_task_error {E} (error : JoinError) : TaskExecutionError.t E :=
  if is_cancelled error then TaskExecutionError.Cancelled else TaskExecutionError.Panicked.

(** [TokioTaskHandle::poll], from the poll of the join handle. *)
Definition poll_task_handle {R E} (polled : Poll (JoinResult R E)) : Poll (TaskResult R E) :=
  match polled with
  | Ready (inl result) => Ready result
  | Ready (inr error) => Ready (inr (join_error_to_task_error error))
  | Pending => Pending
  end.

(** [TokioGuardedIoFuture::poll], from one poll of the user's future. *)
Definition guarded_result {R E} (result : R + E) : TaskResult R E :=
  match result with inl r => inl r | inr e => inr (TaskExecutionError.Failed e) end.

Section IoService.
Context `{!BuildProfile, !LifecycleRepr, !Allocator, !Tokio, !Oneshot, !WaiterSet, !Watch, !AtomicCount}.
Context {Fut R E : Type} `{!UserFuture Fut R E}.
#[local] Abbreviation ioact := (ioact (Fut := Fut) (R := R) (E := E)).

(** ** [TokioIoServiceTaskGuard] *)

(** [new]: a guard is its marker. *)
Definition guard_new (marker : nat) : nat := marker.

(** [Drop::drop]. *)
Definition guard_drop (marker : nat) : Prog ioact () :=
  (remove_abort_handle marker ;;
   do DecActive ;;
   notify_capacity_changed ;;
   notify_termination_waiters)%exec.

(** ** [TokioGuardedIoFuture] *)

Definition guarded_new (future : Fut) (guard : nat) : Fut * nat := (future, guard).

(** Dropping it: the fields in order, the future and then the guard, which is dropped
    also when the future's destructor panics.  [owner] is the task that drops it, if
    it is not the submitter. *)
Definition guarded_drop (owner : option AsyncBlock) (payload : Fut * nat) : Prog ioact bool :=
  (let! panicked := do (DropFuture owner (fst payload)) in
   guard_drop (snd payload) ;;
   Ret panicked)%exec.

(** ** The spawned task

    Once the future has arrived it is polled until it is ready; before every
    poll the runtime may drop the task instead.  [polls] bounds the number of
    polls; when it is used up the runtime drops the task.  The join handle of a task
    that was dropped, or whose future panicked, resolves to a [JoinError]; so does
    that of a task whose future panics while it is dropped, whatever it had given. *)
Definition end_task (block : AsyncBlock) (payload : Fut * nat) (result : JoinResult R E) : Prog ioact () :=
  (let! panicked := guarded_drop (Some block) payload in
   do (Complete block (if panicked then inr (mkJoinError false) else result)))%exec.

Fixpoint poll_loop (polls : nat) (block : AsyncBlock) (future : Fut) (guard : nat) : Prog ioact () :=
  match polls with
  | O => end_task block (future, guard) (inr (mkJoinError true))
  | S polls =>
      let! go := do (Dispatch (ab_handle block)) in
      if go then
        let! polled := do (PollUser block future) in
        match polled with
        | UPending rest => poll_loop polls block rest guard
        | UReady result => end_task block (future, guard) (inl (guarded_result result))
        | UPanicked => end_task block (future, guard) (inr (mkJoinError false))
        end
      else end_task block (future, guard) (inr (mkJoinError true))
  end%exec.

Definition async_block (polls : nat) (f : AsyncBlock) : Prog ioact () :=
  (let! handoff := do (AwaitReceiver (ab_channel f) (ab_handle f)) in
   match handoff with
   | Received (future, guard) => poll_loop polls f future guard
   | SenderDropped => do (Complete f (inl (inr TaskExecutionError.Cancelled)))
   | TaskDropped (Some payload) => end_task f payload (inr (mkJoinError true))
   | TaskDropped None => do (Complete f (inr (mkJoinError true)))
   end)%exec.

(** Between two actions the runtime is free to move; programs are ended by the
    destructors of futures, if some of them panic. *)
Definition io_machine (polls : nat) : Machine ioact IoWorld AsyncBlock := {|
  exec B t c w := ioexec t c w;
  body := async_block polls;
  env w w' := exists rt', w' = set_rt rt' w;
  unwinds := exists rt future, future_drop_panics rt future = true;
|}.

(** ** [TokioTaskHandle]

    A handle wraps the join handle of its task; a join handle is the task. *)

Record TokioTaskHandle := mkTaskHandle { th_handle : AsyncBlock }.
Definition task_handle_new (handle : AsyncBlock) : TokioTaskHandle := mkTaskHandle handle.

Definition handle_cancel_task (h : TokioTaskHandle) : Prog ioact CancelResult.t :=
  (let! finished := do (HandleIsFinished (ab_handle (th_handle h))) in
   if finished then Ret CancelResult.AlreadyFinished
   else do (HandleAbort (ab_handle (th_handle h))) ;; Ret CancelResult.Cancelled)%exec.

Definition handle_is_done (h : TokioTaskHandle) : Prog ioact bool :=
  do (HandleIsFinished (ab_handle (th_handle h))).

(** [Future::poll], and a task that awaits the handle: it sleeps as long as the poll
    is pending. *)
Definition handle_poll (h : TokioTaskHandle) : Prog ioact (Poll (TaskResult R E)) :=
  (let! polled := do (PollJoin (th_handle h)) in Ret (poll_task_handle polled))%exec.
Definition handle_await (h : TokioTaskHandle) : Prog ioact (TaskResult R E) :=
  do (AwaitJoin (th_handle h) poll_task_handle).

(** ** [TokioIoSpawnHandoff] *)

Record TokioIoSpawnHandoff := mkHandoff {
  ho_future : Fut;
  ho_handle : AsyncBlock;
  ho_sender : nat;
  ho_guard : nat;
}.

Definition handoff_new (future : Fut) (handle : AsyncBlock) (sender guard : nat) : TokioIoSpawnHandoff :=
  mkHandoff future handle sender guard.

Definition deliver (handoff : TokioIoSpawnHandoff) : Prog ioact TokioTaskHandle :=
  (let payload := guarded_new (ho_future handoff) (ho_guard handoff) in
   let! back := do (Send (ho_sender handoff) payload) in
   match back with
   | Some payload => let! panicked := guarded_drop None payload in resume_unwind panicked
   | None => Ret ()
   end ;;
   Ret (task_handle_new (ho_handle handoff)))%exec.

(** ** [TokioIoExecutorService] *)

(** The default of the service; the state has one of its own. *)
Definition DEFAULT_TASK_CAPACITY : Z := 1024.

Definition service_new (rt0 : runtime) : IoWorld (Fut := Fut) (R := R) (E := E) :=
  initial_world DEFAULT_TASK_CAPACITY rt0.
Definition service_stats : Prog ioact TokioIoExecutorServiceStats := stats.
Definition service_capacity_changes : Prog ioact receiver := capacity_changes.

Definition prepare_spawn (future : Fut) : Prog ioact (TokioIoSpawnHandoff + SubmissionError * Fut) :=
  (lock_submission ;;
   let! closed := is_not_running in
   if closed then do UnlockSubmission ;; Ret (inr (Shutdown, future))
   else
     let! accepted := try_accept_task in
     if negb accepted then do UnlockSubmission ;; Ret (inr (Saturated, future))
     else
       let! marker := do NewRegistration in
       let guard := guard_new marker in
       let! ch := do NewChannel in
       let! handle := do (Spawn ch) in
       register_abort_handle marker (ab_handle handle) ;;
       do UnlockSubmission ;;
       Ret (inl (handoff_new future handle ch guard)))%exec.

Definition try_spawn (future : Fut) : Prog ioact (TokioTaskHandle + RejectedTask Fut) :=
  (let! prepared := prepare_spawn future in
   match prepared with
   | inl handoff => let! handle := deliver handoff in Ret (inl handle)
   | inr (reason, future) => Ret (inr (RejectedTask.new reason future))
   end)%exec.

(** Dropping a future that was never accepted. *)
Definition drop_future (future : Fut) : Prog ioact () :=
  (let! panicked := do (DropRejected future) in resume_unwind panicked)%exec.

(** [map_err(|rejected| rejected.into_parts().0)]: the future is dropped. *)
Definition spawn_future (future : Fut) : Prog ioact (TokioTaskHandle + SubmissionError) :=
  (let! spawned := try_spawn future in
   match spawned with
   | inl handle => Ret (inl handle)
   | inr rejected => let (reason, future) := into_parts rejected in drop_future future ;; Ret (inr reason)
   end)%exec.

(** The retry protocol of [examples/capacity_retry_future.rs]: subscribe before
    the first attempt; a saturated attempt hands the unpolled future back, and the
    caller waits for the next change before it tries again.  [attempts] bounds the
    number of attempts; [None] when they are used up.  A caller that gives up drops the
    receiver and then the future, in the order of the locals.  The handle is returned where
    the example awaits it; what the example does besides - releasing its own
    blocker, counting its attempts - is not part of the protocol. *)
Fixpoint retry (attempts : nat) (changes : receiver) (future : Fut) :
    Prog ioact (option (TokioTaskHandle + SubmissionError)) :=
  match attempts with
  | O => do (DropChanges changes) ;; drop_future future ;; Ret None
  | S attempts =>
      let! result := try_spawn future in
      match result with
      | inl handle => do (DropChanges changes) ;; Ret (Some (inl handle))
      | inr rejected =>
          let (reason, future) := into_parts rejected in
          match reason with
          | Saturated =>
              let! changes := do (AwaitChanged changes) in
              retry attempts changes future
          | Shutdown => do (DropChanges changes) ;; drop_future future ;; Ret (Some (inr Shutdown))
          end
      end
  end%exec.

Definition spawn_when_admissible (attempts : nat) (future : Fut) :
    Prog ioact (option (TokioTaskHandle + SubmissionError)) :=
  (let! changes := service_capacity_changes in retry attempts changes future)%exec.

Definition service_shutdown : Prog ioact () :=
  (lock_submission ;;
   shutdown ;;
   do UnlockSubmission ;;
   notify_capacity_changed ;;
   notify_termination_waiters)%exec.

Definition service_stop : Prog ioact StopReport :=
  (lock_submission ;;
   stop ;;
   let! running := do GetActive in
   do UnlockSubmission ;;
   let! cancellation_count := abort_tracked_tasks in
   notify_capacity_changed ;;
   notify_termination_waiters ;;
   Ret (Build_StopReport 0 running cancellation_count))%exec.

Definition service_lifecycle : Prog ioact ExecutorServiceLifecycle := lifecycle.
Definition lifecycle_is (l : ExecutorServiceLifecycle) : Prog ioact bool :=
  (let! current := service_lifecycle in Ret (bool_decide (current = l)))%exec.
Definition is_running : Prog ioact bool := lifecycle_is Running.
Definition is_shutting_down : Prog ioact bool := lifecycle_is ShuttingDown.
Definition is_stopping : Prog ioact bool := lifecycle_is Stopping.
Definition is_terminated : Prog ioact bool := lifecycle_is Terminated.
Definition service_is_not_running : Prog ioact bool := is_not_running.
Definition service_await_termination (fuel : nat) : Prog ioact bool := await_termination fuel.
End IoService.
