(* ===== verification/IoInv.v ===== *)
(** * The invariant of the IO service under interleaving

    As in [BlockingInv]: ghost tokens for what each thread is in the middle of,
    an invariant relating them to the shared state, the guarantee of a step and
    the discipline every action obeys.  The owner of a guard goes through four
    tokens: it still has the user's future, then only the guard, then its marker
    is finished, then its entry is removed; only then is the slot released.  A
    spawned task knows what ended its future - a poll, or a destructor that panicked -,
    which is what its join handle will say. *)

From S2P Require Import Prelude Conc External LifecycleBits ServiceSpec Registration IoState IoService.
From stdpp Require Import prelude list gmap.
#[local] Open Scope Z_scope.

(** ** Tokens *)

Section Tokens.
Context `{!Watch} {Fut R E : Type}.

Inductive itok :=
  (* submission lock: held; the service was seen running; at most [n] active
     tasks were seen; a free slot was seen *)
  | TSub (t : nat) | TAdmit (t : nat) | TSeen (t : nat) (n : Z) | TRoom (t : nat)
  (* abort-handle lock: held; held and marker [m] was seen unfinished *)
  | TAborts (t : nat) | TRegistering (t m : nat)
  (* a slot is counted, its marker not yet created *)
  | TReserved
  (* marker [m] is not yet registered *)
  | TUnreg (m : nat)
  (* the guard of marker [m]: with the future; alone; marker finished; entry gone *)
  | TFuture (m : nat) | TGuard (m : nat) | TRemoving (m : nat) | TGone (m : nat)
  (* a stop saw [n] active tasks *)
  | TSnap (n : Z)
  (* owed: wake the waiters; the same, admission being closed *)
  | TNotify | TShutting
  (* waiter [w] is owned after [n] wake-ups: idle; enabled and not yet checked;
     asleep *)
  | TWaiter (w n : nat) | TChecking (w n : nat) | TAsleep (w n : nat)
  (* known: admission is closed; the service has terminated *)
  | TClosed | TDone
  (* receiver [rx] subscribed to capacity changes; the same, and since then [n]
     active tasks were counted; or the service was seen saturated; a change is
     still to be published *)
  | TWatch (rx : receiver) | TRead (rx : receiver) (n : Z) | TFull (rx : receiver) | TCapacity
  (* the task of channel [ch] has not completed; its future has not ended, or [last]
     ended it *)
  | TTask (ch : nat) (last : option (UserEvent Fut R E))
  (* the unused sender and the unused receiver of channel [ch] *)
  | TSender (ch : nat) | TReceiver (ch : nat).

Definition w_sub (tok : itok) : Z := match tok with TSub _ | TAdmit _ | TSeen _ _ | TRoom _ => 1 | _ => 0 end.
Definition w_abl (tok : itok) : Z := match tok with TAborts _ | TRegistering _ _ => 1 | _ => 0 end.
Definition w_active (tok : itok) : Z :=
  match tok with TReserved | TFuture _ | TGuard _ | TRemoving _ | TGone _ => 1 | _ => 0 end.
Definition w_future (tok : itok) : Z := match tok with TFuture _ => 1 | _ => 0 end.
Definition w_guard (m : nat) (tok : itok) : Z :=
  match tok with
  | TFuture i | TGuard i | TRemoving i | TGone i => b2z (bool_decide (i = m))
  | _ => 0
  end.
Definition w_unreg (m : nat) (tok : itok) : Z :=
  match tok with TUnreg i | TRegistering _ i => b2z (bool_decide (i = m)) | _ => 0 end.
Definition w_registering (m : nat) (tok : itok) : Z :=
  match tok with TRegistering _ i => b2z (bool_decide (i = m)) | _ => 0 end.
Definition w_removing (m : nat) (tok : itok) : Z :=
  match tok with TRemoving i => b2z (bool_decide (i = m)) | _ => 0 end.
Definition w_notify (w : nat) (tok : itok) : Z :=
  match tok with
  | TNotify | TShutting => 1
  | TChecking i _ => b2z (bool_decide (i = w))
  | _ => 0
  end.
Definition w_waiter (w : nat) (tok : itok) : Z :=
  match tok with TWaiter i _ | TChecking i _ | TAsleep i _ => b2z (bool_decide (i = w)) | _ => 0 end.
Definition w_owed (tok : itok) : Z := match tok with TCapacity => 1 | _ => 0 end.
(** A thread that will wait for a change of capacity which was not published yet. *)
Definition w_unchanged (w : watch) (capacity : Z) (tok : itok) : Z :=
  match tok with
  | TFull rx => b2z (negb (has_changed w rx))
  | TRead rx n => b2z ((capacity <=? n) && negb (has_changed w rx))
  | _ => 0
  end.
Definition w_task (ch : nat) (tok : itok) : Z :=
  match tok with TReceiver i | TTask i _ => b2z (bool_decide (i = ch)) | _ => 0 end.
Definition w_sender (ch : nat) (tok : itok) : Z :=
  match tok with TSender i => b2z (bool_decide (i = ch)) | _ => 0 end.
Definition w_receiver (ch : nat) (tok : itok) : Z :=
  match tok with TReceiver i => b2z (bool_decide (i = ch)) | _ => 0 end.

Ltac io_weights := intros; repeat match goal with x : itok |- _ => destruct x end; cbn;
  unfold b2z; repeat case_bool_decide; lia.

Lemma io_sub_nonneg tok : 0 <= w_sub tok. Proof. io_weights. Qed.
Lemma io_abl_nonneg tok : 0 <= w_abl tok. Proof. io_weights. Qed.
Lemma io_active_nonneg tok : 0 <= w_active tok. Proof. io_weights. Qed.
Lemma io_future_nonneg tok : 0 <= w_future tok. Proof. io_weights. Qed.
Lemma io_guard_nonneg m tok : 0 <= w_guard m tok. Proof. io_weights. Qed.
Lemma io_unreg_nonneg m tok : 0 <= w_unreg m tok. Proof. io_weights. Qed.
Lemma io_registering_nonneg m tok : 0 <= w_registering m tok. Proof. io_weights. Qed.
Lemma io_removing_nonneg m tok : 0 <= w_removing m tok. Proof. io_weights. Qed.
Lemma io_notify_nonneg w tok : 0 <= w_notify w tok. Proof. io_weights. Qed.
Lemma io_waiter_nonneg w tok : 0 <= w_waiter w tok. Proof. io_weights. Qed.
Lemma io_owed_nonneg tok : 0 <= w_owed tok. Proof. io_weights. Qed.
Lemma io_unchanged_nonneg w capacity tok : 0 <= w_unchanged w capacity tok.
Proof. destruct tok; cbn; try lia; unfold b2z; destruct (negb _); try destruct (capacity <=? n); cbn; lia. Qed.
Lemma io_task_nonneg ch tok : 0 <= w_task ch tok. Proof. io_weights. Qed.
Lemma io_sender_nonneg ch tok : 0 <= w_sender ch tok. Proof. io_weights. Qed.
Lemma io_receiver_nonneg ch tok : 0 <= w_receiver ch tok. Proof. io_weights. Qed.
End Tokens.
#[export] Hint Resolve io_sub_nonneg io_abl_nonneg io_active_nonneg io_future_nonneg io_guard_nonneg
  io_unreg_nonneg io_registering_nonneg io_removing_nonneg io_notify_nonneg io_waiter_nonneg
  io_owed_nonneg io_unchanged_nonneg io_task_nonneg io_sender_nonneg
  io_receiver_nonneg : exec.

Section IoInv.
Context `{!BuildProfile, !LifecycleRepr, !Allocator, !Tokio, !Oneshot, !WaiterSet, !Watch, !AtomicCount}.
Context {Fut R E : Type} `{!UserFuture Fut R E}.
#[local] Abbreviation IoWorld := (IoWorld (Fut := Fut) (R := R) (E := E)).
#[local] Abbreviation ioact := (ioact (Fut := Fut) (R := R) (E := E)).
#[local] Abbreviation itok := (itok (Fut := Fut) (R := R) (E := E)).
Implicit Types (s : IoWorld) (r : list itok).

(** ** Results *)

(** What a resolved join handle is to the handle of the task. *)
Definition join_result (joined : JoinResult R E) : TaskResult R E :=
  match joined with inl result => result | inr error => inr (join_error_to_task_error error) end.

Definition is_pending (event : UserEvent Fut R E) : Prop :=
  match event with Polled (UPending _) => True | _ => False end.

(** [explained events result]: a task that saw this of its future, the last event
    first, has this result: what the future returned, that it panicked when it was
    polled or destroyed, or, if it never ended, that the task was cancelled. *)
Definition explained (events : list (UserEvent Fut R E)) (result : TaskResult R E) : Prop :=
  match events with
  | Polled (UReady output) :: rest => Forall is_pending rest /\ result = completed (Some output)
  | Polled UPanicked :: rest => Forall is_pending rest /\ result = completed None
  | DropPanicked :: rest => Forall is_pending (tail rest) /\ result = completed None
  | _ => Forall is_pending events /\ result = inr TaskExecutionError.Cancelled
  end.

(** The same for a task that has not completed: what ended its future, if it did. *)
Definition ended (events : list (UserEvent Fut R E)) (last : option (UserEvent Fut R E)) : Prop :=
  match last with
  | None => Forall is_pending events
  | Some (Polled poll) =>
      exists rest, events = Polled poll :: rest /\ ~ is_pending (Polled poll) /\ Forall is_pending rest
  | Some DropPanicked => exists rest, events = DropPanicked :: rest /\ Forall is_pending (tail rest)
  end.

(** ** The invariant *)

Definition active s : Z := count_get (active_tasks (svc s)).

Definition terminated s : Prop := load (lifecycle_byte (svc s)) <> Running /\ active s = 0.

(** What a single token says about the state. *)
Definition tok_ok s (tok : itok) : Prop :=
  match tok with
  | TSub t => submission_lock (svc s) = Some t
  | TAdmit t => submission_lock (svc s) = Some t /\ lifecycle_byte (svc s) = 0
  | TSeen t n =>
      submission_lock (svc s) = Some t /\ lifecycle_byte (svc s) = 0 /\ active s <= n
  | TRoom t =>
      submission_lock (svc s) = Some t /\ lifecycle_byte (svc s) = 0 /\ active s < task_capacity (svc s)
  | TAborts t => abort_lock (svc s) = Some t
  | TRegistering t m =>
      abort_lock (svc s) = Some t /\ abort_handles (svc s) !! key m = None /\
      (m < length (registrations s))%nat
  | TUnreg m =>
      abort_handles (svc s) !! key m = None /\ (m < length (registrations s))%nat
  | TRemoving m => registrations s !! m = Some true
  | TGone m => registrations s !! m = Some true /\ abort_handles (svc s) !! key m = None
  | TSnap n => 0 < lifecycle_byte (svc s) /\ active s <= n
  | TShutting | TClosed => 0 < lifecycle_byte (svc s)
  | TDone => terminated s
  | TWaiter _ n => (n <= notified s)%nat
  | TChecking w n | TAsleep w n =>
      (n <= notified s)%nat /\ (waiting (termination_notify (svc s)) w = true \/ (n < notified s)%nat)
  | TSender ch => exists c, channels s !! ch = Some c /\ content c = None
  | TReceiver ch => (exists c, channels s !! ch = Some c /\ closed c = false) /\ ended (polls_of ch s) None
  | TTask ch last => ended (polls_of ch s) last
  | TWatch rx | TRead rx _ | TFull rx =>
      has_changed (capacity_tx (svc s)) rx = true \/ subscribe (capacity_tx (svc s)) = rx
  | TReserved | TFuture _ | TGuard _ | TNotify | TCapacity => True
  end.

Definition w_stored (c : oneshot (Fut * nat)) : Z := match content c with Some _ => 1 | None => 0 end.
Definition w_channel (m : nat) (c : oneshot (Fut * nat)) : Z :=
  match content c with Some (_, i) => b2z (bool_decide (i = m)) | None => 0 end.
(** The live guards of marker [m]: owned by threads or stored in channels. *)
Definition guards s r (m : nat) : Z := tally (w_guard m) r + tally (w_channel m) (channels s).

Definition marker_inv s r (m : nat) : Prop :=
  match registrations s !! m with
  | None => guards s r m = 0
  | Some false => guards s r m = 1
  | Some true => guards s r m <= 1
  end.

Definition channel_inv s r (ch : nat) : Prop :=
  match channels s !! ch with
  | None => tally (w_sender ch) r = 0 /\ tally (w_receiver ch) r = 0
  | Some c =>
      tally (w_sender ch) r <= 1 /\
      tally (w_receiver ch) r = b2z (negb (closed c)) /\
      (pending c = true -> closed c = false -> tally (w_sender ch) r = 1) /\
      (closed c = true -> content c = None)
  end.

(** An entry belongs to a live guard; if its marker is finished, the guard's
    owner is about to remove it. *)
Definition entry_inv s r (k : Z) : Prop :=
  match abort_handles (svc s) !! k with
  | None => True
  | Some e =>
      k = key (ta_marker e) /\ guards s r (ta_marker e) = 1 /\
      (registrations s !! ta_marker e = Some true -> 1 <= tally (w_removing (ta_marker e)) r)
  end.

Definition report_ok (rep : StopReport) : Prop :=
  report_queued rep = 0 /\ 0 <= report_cancelled rep <= report_running rep.

(** The completions of the task of channel [ch]. *)
Definition w_done (ch : nat) (x : AsyncBlock * JoinResult R E) : Z :=
  b2z (bool_decide (ab_channel (fst x) = ch)).

Definition join_ok s (x : AsyncBlock * JoinResult R E) : Prop :=
  explained (polls_of (ab_channel (fst x)) s) (join_result (snd x)).
Definition poll_ok s (x : nat * UserEvent Fut R E) : Prop := (fst x < length (channels s))%nat.

(** A wait gives up only when it was woken as often as its fuel allows. *)
Definition answer_ok s (a : nat * bool) : Prop := snd a = false -> (fst a <= notified s)%nat.
Definition says_terminated (a : nat * bool) : Prop := snd a = true.

Record Inv s r : Prop := {
  inv_toks : Forall (tok_ok s) r;
  inv_sub : tally w_sub r = b2z (bool_decide (is_Some (submission_lock (svc s))));
  inv_abl : tally w_abl r = b2z (bool_decide (is_Some (abort_lock (svc s))));
  inv_byte : stored (lifecycle_byte (svc s));
  inv_capacity : 1 <= task_capacity (svc s) <= usize_MAX;
  inv_active : active s = tally w_active r + tally w_stored (channels s);
  inv_bound : active s <= task_capacity (svc s);
  inv_marker : forall m, marker_inv s r m;
  inv_channel : forall ch, channel_inv s r ch;
  inv_entry : forall k, entry_inv s r k;
  inv_unreg : forall m, tally (w_unreg m) r <= 1;
  inv_registering : forall m, 1 <= tally (w_registering m) r ->
    registrations s !! m = Some true -> 1 <= tally (w_removing m) r;
  inv_wait : forall w, waiting (termination_notify (svc s)) w = true -> terminated s ->
    1 <= tally (w_notify w) r;
  inv_reports : Forall report_ok (reports s);
  inv_waiter : forall w, tally (w_waiter w) r <= 1 /\
    ((next_waiter s <= w)%nat -> tally (w_waiter w) r = 0);
  inv_answers : Forall (answer_ok s) (answers s);
  inv_promise : Exists says_terminated (answers s) -> terminated s;
  inv_task : forall ch, tally (w_task ch) r + tally (w_done ch) (joined s) =
    b2z (bool_decide (ch < length (channels s))%nat);
  inv_joined : Forall (join_ok s) (joined s);
  inv_polled : Forall (poll_ok s) (polled s);
  inv_full : 1 <= tally (w_unchanged (capacity_tx (svc s)) (task_capacity (svc s))) r ->
    active s = task_capacity (svc s) \/ 1 <= tally w_owed r;
}.

(** ** The guarantee of a step *)

(** What the contract sees of a service. *)
Definition view s : contract :=
  view_of (lifecycle_byte (svc s)) 0 (active s) (task_capacity (svc s)).

(** A step makes at most one move of the contract, never decreases the lifecycle
    byte, creates no marker once the service is closed, and takes back nothing that
    a join handle has resolved to. *)
Record Guar s s' : Prop := {
  guar_view : contract_moves false (view s) (view s');
  guar_rank : lifecycle_byte (svc s) <= lifecycle_byte (svc s');
  guar_markers : 0 < lifecycle_byte (svc s) -> length (registrations s') = length (registrations s);
  guar_joined : joined s `suffix_of` joined s';
}.

(** What remains of it along a run. *)
Record Progress s s' : Prop := {
  prog_view : contract_reaches false (view s) (view s');
  prog_rank : lifecycle_byte (svc s) <= lifecycle_byte (svc s');
  prog_markers : 0 < lifecycle_byte (svc s) -> length (registrations s') = length (registrations s);
  prog_joined : joined s `suffix_of` joined s';
}.

#[export] Instance io_Guar_refl : Reflexive Guar.
Proof. intros s. split; [by left|done..]. Qed.

#[export] Instance io_Progress_preorder : PreOrder Progress.
Proof.
  split.
  - intros s. by split.
  - intros s1 s2 s3 [V1 R1 T1 J1] [V2 R2 T2 J2]. split; [by etrans|lia| |by etrans].
    intros Hb. rewrite T2, T1; [done|done|lia].
Qed.

Lemma io_Guar_Progress s s' : Guar s s' -> Progress s s'.
Proof. intros []. split; [by apply contract_moves_reaches|done..]. Qed.

(** ** The discipline *)

Definition locks r : Z := tally w_sub r + tally w_abl r.

(** Tokens a thread may hold while it waits for the submission lock. *)
Definition passive (tok : itok) : Prop := match tok with TWatch _ => True | _ => False end.

Definition ok B (t : nat) (c : ioact B) r : Prop :=
  match c with
  | LockSubmission => Forall passive r
  | LockAborts => tally w_abl r = 0
  | NotifyWaiters | SendModify _ | HandleAbort _ => locks r = 0
  | PollUser _ _ | DropFuture _ _ => locks r = 0 /\ exists m, TFuture m ∈ r
  | DropRejected _ => locks r = 0
  | AwaitReceiver ch _ => r = [TReceiver ch]
  | AwaitNotified w => exists n, r = [TAsleep w n]
  | AwaitChanged rx => r = [TFull rx]
  | AwaitJoin _ poll => Forall passive r /\ poll = poll_task_handle
  | _ => True
  end.

Definition own (t : nat) (tok : itok) : Prop :=
  match tok with
  | TSub i | TAdmit i | TSeen i _ | TRoom i | TAborts i | TRegistering i _ => i = t
  | _ => True
  end.

Definition blk B (t : nat) (c : ioact B) s : Prop :=
  match c with
  | LockSubmission => is_Some (submission_lock (svc s))
  | LockAborts => is_Some (abort_lock (svc s))
  | AwaitReceiver ch _ => pending (channel_at s ch) = true
  | AwaitNotified w => waiting (termination_notify (svc s)) w = true
  | AwaitChanged rx => has_changed (capacity_tx (svc s)) rx = false
  | AwaitJoin block poll => poll (join_poll s block) = Pending
  | _ => False
  end.

Definition pre (f : AsyncBlock) : list itok := [TReceiver (ab_channel f)].

(** ** Permutation invariance *)

#[export] Instance io_Inv_perm s : Proper ((≡ₚ) ==> iff) (Inv s).
Proof.
  assert (forall r r', r ≡ₚ r' -> Inv s r -> Inv s r') as Himp.
  { intros r r' Hr []. assert (forall f, tally f r' = tally f r) as E0.
    { intros f. by rewrite Hr. }
    assert (forall m, guards s r' m = guards s r m) as E1 by (intros m; unfold guards; by rewrite E0).
    split; rewrite ?E0; try done.
    - by rewrite <- Hr.
    - intros x. specialize (inv_marker0 x). unfold marker_inv in *. by rewrite !E1.
    - intros x. specialize (inv_channel0 x). unfold channel_inv in *.
      destruct (channels s !! x); by rewrite !E0.
    - intros x. specialize (inv_entry0 x). unfold entry_inv in *.
      destruct (abort_handles (svc s) !! x); by rewrite ?E1, ?E0.
    - intros x. by rewrite E0.
    - intros x. rewrite !E0. apply inv_registering0.
    - intros x. rewrite !E0. apply inv_wait0.
    - intros x. by rewrite E0.
    - intros x. by rewrite E0. }
  intros r r' Hr. split; apply Himp; by rewrite Hr.
Qed.
End IoInv.
