(* ===== verification/IoActions.v ===== *)
(** * Proof rules for the atomic actions of the IO service

    One rule per action, as in [BlockingActions]. *)

From S2P Require Import Prelude Conc External LifecycleBits ServiceSpec Registration IoState IoService IoInv.
From stdpp Require Import prelude list gmap.
#[local] Open Scope Z_scope.

Ltac io_inv HI :=
  cbn [app concat fmap list_fmap pre] in *; destruct HI as [Htoks Hsub Habl Hbyte Hcap Hact Hbnd Hmk Hch Hent Hun Hreg Hwa Hrep Hwt Hans Hpro Htk Hjn Hpl Hful].

(** Transfer the facts of the remaining tokens to the new state. *)
Ltac io_toks :=
  repeat (apply Forall_cons; split); try done;
  try (match goal with
       | H : Forall (tok_ok _) ?R |- Forall _ ?R =>
           eapply Forall_impl; [exact H|];
           let tok := fresh "tok" in intros tok; destruct tok
       end; try done).

(** The same, with a further fact [Hz] about every remaining token. *)
Ltac io_toks_excl Hz :=
  repeat (apply Forall_cons; split); try done;
  try (match goal with
       | H : Forall (tok_ok _) ?R |- Forall _ ?R =>
           let Hb := fresh in
           pose proof (conj H Hz) as Hb; rewrite <- Forall_and in Hb;
           eapply Forall_impl; [exact Hb|];
           let tok := fresh "tok" in intros tok; destruct tok; cbn; intros [? ?]
       end; try done).

(** Prove the invariant field by field from the corresponding old field; what
    really changed is left to the caller. *)
Ltac io_norm H :=
  rewrite ?tally_cons in H; rewrite ?tally_cons;
  cbn [w_sub w_abl w_active w_guard w_unreg w_registering w_removing w_notify w_waiter w_owed w_unchanged w_task
       w_sender w_receiver b2z] in H |- *.
Ltac io_field H := first [exact H | io_norm H; first [exact H | lia]].
Ltac io_all H :=
  let x := fresh in
  let H' := fresh in
  intros x; pose proof (H x) as H';
  first [ exact H'
        | unfold marker_inv, channel_inv, entry_inv, guards in H' |- *; io_norm H';
          first [exact H' | intros; lia | intros; first [lia | specialize (H' ltac:(assumption)); lia
            | specialize (H' ltac:(assumption) ltac:(assumption)); lia ] ] ].
Ltac io_fields :=
  match goal with
  | Htoks : Forall (tok_ok _) _, Hsub : tally w_sub _ = _, Habl : tally w_abl _ = _,
    Hbyte : stored _, Hcap : 1 <= _ <= usize_MAX, Hact : active _ = _,
    Hbnd : active _ <= task_capacity _,
    Hmk : forall m, marker_inv _ _ m, Hch : forall ch, channel_inv _ _ ch,
    Hent : forall k, entry_inv _ _ k, Hun : forall m, tally (w_unreg m) _ <= 1,
    Hreg : forall m, _ -> _ -> 1 <= tally (w_removing m) _,
    Hwa : forall w, _ -> _ -> 1 <= tally (w_notify w) _,
    Hrep : Forall report_ok _, Hwt : forall w, tally (w_waiter w) _ <= 1 /\ _,
    Hans : Forall (answer_ok _) _, Hpro : Exists says_terminated _ -> terminated _,
    Htk : forall ch, tally (w_task ch) _ + _ = _,
    Hjn : Forall (join_ok _) _, Hpl : Forall (poll_ok _) _,
    Hful : 1 <= tally (w_unchanged _ _) _ -> _ |- _ =>
      constructor; cbn;
      [ try exact Htoks | try io_field Hsub | try io_field Habl | try io_field Hbyte
      | try io_field Hcap | try io_field Hact | try io_field Hbnd
      | try io_all Hmk | try io_all Hch | try io_all Hent | try io_all Hun
      | try io_all Hreg | try io_all Hwa | try io_field Hrep
      | try io_all Hwt | try io_field Hans | try io_field Hpro | try io_all Htk
      | try io_field Hjn | try io_field Hpl | try io_field Hful ]
  end.

(** The waiter field: a token that owes the wake-up is present, or the new
    state is not terminated. *)
Ltac io_owed :=
  let w := fresh "w" in intros w _ _; rewrite !tally_cons; cbn;
  match goal with |- context [tally (w_notify ?w) ?R] =>
    pose proof (tally_nonneg (w_notify w) R (io_notify_nonneg w)) end; lia.
(** A change of capacity that a token owes its publication. *)
Ltac io_change_owed :=
  intros _; right; rewrite !tally_cons; cbn;
  match goal with |- context [tally w_owed ?R] => pose proof (tally_nonneg w_owed R io_owed_nonneg) end; lia.
Ltac io_not Hnot :=
  let w := fresh "w" in let Ht := fresh in
  intros w _ Ht; exfalso; revert Ht; exact Hnot.

Section IoActions.
Context `{!BuildProfile, !LifecycleRepr, !Allocator, !Tokio, !Oneshot, !WaiterSet, !Watch, !AtomicCount}.
Context {Fut R E : Type} `{!UserFuture Fut R E}.
Context (polls : nat).
#[local] Abbreviation IoWorld := (IoWorld (Fut := Fut) (R := R) (E := E)).
#[local] Abbreviation ioact := (ioact (Fut := Fut) (R := R) (E := E)).
#[local] Abbreviation iowp := (wp (act := ioact) (M := io_machine polls) Inv Guar ok own blk pre).
#[local] Abbreviation itok := (itok (Fut := Fut) (R := R) (E := E)).
Implicit Types (s : IoWorld) (r L : list itok).

Lemma iowp_do {B} t (c : ioact B) r h r0 Q :
  r ≡ₚ h ++ r0 -> ok _ t c r ->
  (forall s L, Inv s (h ++ L) ->
    match ioexec t c s with
    | Blocked => blk _ t c s
    | Panicked => False
    | Next b s' fs =>
        Guar s s' /\
        exists h', Forall (own t) h' /\ Inv s' (h' ++ concat (pre <$> fs) ++ L) /\
          forall r', r' ≡ₚ h' ++ r0 -> Q b r'
    | Unwound _ _ => False
    end) ->
  iowp t (do c) r Q.
Proof. intros Hr Hok Hc. eapply wp_action; [exact _|exact Hr|exact Hok|exact Hc]. Qed.

(** ** Actions that leave the invariant's view of the state alone *)

Lemma io_guar_locks s s' :
  view s' = view s -> lifecycle_byte (svc s') = lifecycle_byte (svc s) ->
  length (registrations s') = length (registrations s) -> joined s' = joined s -> Guar s s'.
Proof. intros Hv Hb Hx Hj. split; [by left|lia|done|by rewrite Hj]. Qed.

Definition same_core s s' : Prop :=
  svc s' = svc s /\
  registrations s' = registrations s /\ channels s' = channels s /\ reports s' = reports s /\
  next_waiter s' = next_waiter s /\ joined s' = joined s /\ notified s' = notified s /\
  answers s' = answers s /\ polled s' = polled s.

Lemma io_inv_same_core s s' r : same_core s s' -> Inv s r -> Guar s s' /\ Inv s' r.
Proof.
  destruct s as [v1 a1 b1 c1 d1 e1 f1 g1 h1 i1], s' as [v2 a2 b2 c2 d2 e2 f2 g2 h2 i2].
  intros (Hv & Ha & Hb & Hr & Hn & Hc & Hm & Hs & Hp); cbn in *. subst.
  intros HI. io_inv HI. split; [by apply io_guar_locks|by constructor].
Qed.

Lemma iowp_neutral {B} t (c : ioact B) r Q :
  ok _ t c r ->
  (forall s, match ioexec t c s with
             | Blocked | Panicked | Unwound _ _ => False
             | Next b s' fs => same_core s s' /\ fs = []
             end) ->
  (forall b r', r' ≡ₚ r -> Q b r') ->
  iowp t (do c) r Q.
Proof.
  intros Hok Hc HQ. apply iowp_do with (h := []) (r0 := r); [done|done|].
  intros s L HI. specialize (Hc s). destruct (ioexec t c s) as [| |b s' fs|]; [done|done| |done].
  destruct Hc as [Hcore ->]. destruct (io_inv_same_core _ _ _ Hcore HI). split; [done|].
  exists []. split_and!; [constructor|done|]. intros r' Hr'. by apply HQ.
Qed.

(** Actions the invariant does not depend on. *)
Definition neutral {B} (c : ioact B) : Prop :=
  match c with
  | LoadLifecycle | GetActive | Subscribe | DropChanges _ | HandleIsFinished _
  | HandleAbort _ | Dispatch _ | PollJoin _ | DropRejected _ | ReadCapacity | DebugAssert true => True
  | _ => False
  end.

Lemma iowp_quiet {B} t (c : ioact B) r Q :
  neutral c -> ok _ t c r -> (forall b r', r' ≡ₚ r -> Q b r') -> iowp t (do c) r Q.
Proof.
  intros Hn Hok HQ. apply iowp_neutral; [done| |done]. intros s. destruct c; cbn in Hn; try done.
  all: try (split; [by destruct s as [[]]; repeat split|done]).
  - cbn. destruct (dispatch _ _). split; [by destruct s as [[]]; repeat split|done].
  - destruct b; [|done]. cbn. rewrite debug_assert_true.
    split; [by destruct s as [[]]; repeat split|done].
Qed.

(** ** Facts about the lifecycle *)

Lemma io_running_not_terminated s : stored (lifecycle_byte (svc s)) ->
  lifecycle_byte (svc s) = 0 -> ~ terminated s.
Proof. intros Hb Hz [Hn _]. by apply Hn, stored_Running. Qed.

Lemma io_active_not_terminated s : active s <> 0 -> ~ terminated s.
Proof. intros Ha [_ Hz]. done. Qed.

(** ** The submission lock *)

Lemma iowp_lock_submission t r Q :
  Forall passive r -> (forall r', r' ≡ₚ TSub t :: r -> Q () r') -> iowp t (do LockSubmission) r Q.
Proof.
  intros Hp HQ. apply iowp_do with (h := []) (r0 := r); [done|exact Hp|].
  intros s L HI. cbn. destruct (submission_lock (svc s)) eqn:Hs; [by eexists|].
  split; [by apply io_guar_locks|]. exists [TSub t]. split_and!; [by repeat constructor| |apply HQ].
  io_inv HI. rewrite Hs in Hsub. cbn in Hsub. io_fields. io_toks; cbn; intuition congruence.
Qed.

Lemma iowp_unlock_submission t tok r0 r Q :
  tok = TSub t \/ tok = TAdmit t -> r ≡ₚ tok :: r0 -> (forall r', r' ≡ₚ r0 -> Q () r') ->
  iowp t (do UnlockSubmission) r Q.
Proof.
  intros Ht Hr HQ. apply iowp_do with (h := [tok]) (r0 := r0); [done|done|].
  intros s L HI. cbn. split; [by apply io_guar_locks|]. exists [].
  split_and!; [constructor| |apply HQ]. io_inv HI. split_toks.
  assert (Forall (fun x => w_sub x = 0) L) as Hno.
  { eapply alone; [apply io_sub_nonneg|exact Hsub|by destruct Ht as [-> | ->]]. }
  destruct Ht as [-> | ->]; io_fields.
  all: try by apply tally_all_zero.
  all: io_toks_excl Hno.
Qed.

(** ** Admission *)

Lemma iowp_load_admission t r0 r Q :
  r ≡ₚ TSub t :: r0 ->
  (forall byte r', stored byte -> r' ≡ₚ (if byte =? 0 then TAdmit t else TSub t) :: r0 -> Q byte r') ->
  iowp t (do LoadLifecycle) r Q.
Proof.
  intros Hr HQ. apply iowp_do with (h := [TSub t]) (r0 := r0); [done|done|].
  intros s L HI. cbn. split; [done|].
  exists [if lifecycle_byte (svc s) =? 0 then TAdmit t else TSub t].
  split_and!; [by destruct (_ =? _); repeat constructor| |].
  - io_inv HI. split_toks. destruct (Z.eqb_spec (lifecycle_byte (svc s)) 0); io_fields; io_toks.
  - intros r' Hr'. apply HQ; [by destruct HI|done].
Qed.

(** Reserving a slot: the active count is read, compared with the capacity and
    incremented; nobody else reserves while the lock is held. *)
Definition watch_toks (o : option receiver) : list itok :=
  match o with Some rx => [TWatch rx] | None => [] end.
Definition read_toks (o : option receiver) (n : Z) : list itok :=
  match o with Some rx => [TRead rx n] | None => [] end.
Definition full_toks (o : option receiver) : list itok :=
  match o with Some rx => [TFull rx] | None => [] end.

Lemma io_inv_read s o L : Inv s (watch_toks o ++ L) -> Inv s (read_toks o (active s) ++ L).
Proof.
  intros HI. destruct o as [rx|]; [|done]. cbn [watch_toks read_toks] in *. io_inv HI. split_toks.
  io_fields; [by io_toks|]. revert Hful. rewrite !tally_cons. cbn. intros Hful.
  destruct (Z.leb_spec (task_capacity (svc s)) (active s)); [left; lia|exact Hful].
Qed.

Lemma io_inv_decide s o n L :
  Inv s (read_toks o n ++ L) ->
  Inv s ((if task_capacity (svc s) <=? n then full_toks o else watch_toks o) ++ L).
Proof.
  intros HI. destruct o as [rx|]; [|by destruct (_ <=? _)]. cbn [watch_toks full_toks read_toks] in *.
  io_inv HI. split_toks. destruct (_ <=? _) eqn:Hle; io_fields; try by io_toks.
  all: revert Hful; rewrite !tally_cons; cbn; by rewrite Hle.
Qed.

(** A submitter may be subscribed to capacity changes. *)
Lemma iowp_get_admission t o r0 r Q :
  r ≡ₚ TAdmit t :: watch_toks o ++ r0 -> (forall n r', r' ≡ₚ TSeen t n :: read_toks o n ++ r0 -> Q n r') ->
  iowp t (do GetActive) r Q.
Proof.
  intros Hr HQ. apply iowp_do with (h := TAdmit t :: watch_toks o) (r0 := r0); [done|done|].
  intros s L HI. cbn. split; [done|]. exists (TSeen t (active s) :: read_toks o (active s)).
  split_and!; [by destruct o; repeat constructor| |apply HQ].
  cbn [app] in *. rewrite Permutation_middle in HI |- *. apply io_inv_read. rewrite <- Permutation_middle in HI |- *.
  io_inv HI. split_toks. destruct Htok. io_fields. by io_toks.
Qed.

Lemma iowp_read_admission t o n r0 r Q :
  r ≡ₚ TSeen t n :: read_toks o n ++ r0 ->
  (forall capacity r', r' ≡ₚ (if capacity <=? n then TAdmit t :: full_toks o else TRoom t :: watch_toks o) ++ r0 ->
    Q capacity r') ->
  iowp t (do ReadCapacity) r Q.
Proof.
  intros Hr HQ. apply iowp_do with (h := TSeen t n :: read_toks o n) (r0 := r0); [done|done|].
  intros s L HI. cbn. split; [done|].
  exists (if task_capacity (svc s) <=? n then TAdmit t :: full_toks o else TRoom t :: watch_toks o).
  split_and!; [by destruct (_ <=? _), o; repeat constructor| |apply HQ].
  assert (Inv s (TSeen t n :: (if task_capacity (svc s) <=? n then full_toks o else watch_toks o) ++ L)) as HI'.
  { rewrite Permutation_middle. apply io_inv_decide. by rewrite <- Permutation_middle. }
  clear HI. destruct (Z.leb_spec (task_capacity (svc s)) n); io_inv HI'; split_toks;
    destruct Htok as (? & ? & ?); io_fields; io_toks; cbn; split_and!; lia || done.
Qed.

Lemma io_guar_inc s c :
  stored (lifecycle_byte (svc s)) -> lifecycle_byte (svc s) = 0 -> active s < task_capacity (svc s) ->
  count_get c = active s + 1 -> Guar s (set_svc (set_active c) s).
Proof.
  intros Hs Hb Hlt Hc. split; [right|done..].
  assert (view (set_svc (set_active c) s) = c_set Running (c_queued (view s)) (c_running (view s) + 1) (view s))
    as ->.
  { unfold view, view_of, c_set, active at 1. cbn. rewrite Hc. f_equal.
    by apply stored_Running. }
  apply (contract_accept false); [by apply stored_Running|unfold c_total; cbn; lia].
Qed.

Lemma io_guar_dec s c :
  0 < active s -> count_get c = active s - 1 -> Guar s (set_svc (set_active c) s).
Proof.
  intros Hpos Hc. split; [right|done..].
  assert (view (set_svc (set_active c) s) =
    c_set (c_lifecycle (view s)) (c_queued (view s)) (c_running (view s) - 1) (view s)) as ->.
  { unfold view, view_of, c_set, active at 1. cbn. by rewrite Hc. }
  by apply contract_finish.
Qed.

Lemma iowp_inc_active t r0 r Q :
  r ≡ₚ TRoom t :: r0 -> (forall r', r' ≡ₚ TReserved :: TAdmit t :: r0 -> Q () r') ->
  iowp t (do IncActive) r Q.
Proof.
  intros Hr HQ. apply iowp_do with (h := [TRoom t]) (r0 := r0); [done|done|].
  intros s L HI. io_inv HI. split_toks. destruct Htok as (Hl & Hb & Hlt). cbn [ioexec].
  destruct (count_inc_spec (active_tasks (svc s))) as (c & -> & Hc); [fold (active s); lia|].
  fold (active s) in Hc. split; [by apply io_guar_inc|]. exists [TReserved; TAdmit t].
  split_and!; [by repeat constructor| |apply HQ].
  assert (Forall (fun x => w_sub x = 0) L) as Hno.
  { eapply alone; [apply io_sub_nonneg|exact Hsub|done]. }
  assert (active (set_svc (set_active c) s) = count_get c) as Hac by done.
  pose proof (io_running_not_terminated s Hbyte Hb) as Hnt.
  io_fields; rewrite ?Hac.
  - io_toks_excl Hno; rewrite ?Hac; first [done|lia|tauto].
  - rewrite !tally_cons in *. cbn in *. lia.
  - io_not (io_running_not_terminated (set_svc (set_active c) s) Hbyte Hb).
  - by intros Hp%Hpro.
Qed.

(** Closing admission. *)
Lemma io_inv_close s L t byte :
  stored byte -> 0 < byte -> lifecycle_byte (svc s) <= byte -> Inv s (TSub t :: L) ->
  Inv (set_svc (set_lifecycle byte) s) (TShutting :: TSub t :: L).
Proof.
  intros Hb0 Hb1 Hb2 HI. io_inv HI. split_toks.
  assert (Forall (fun x => w_sub x = 0) L) as Hno.
  { eapply alone; [apply io_sub_nonneg|exact Hsub|done]. }
  assert (terminated s -> terminated (set_svc (set_lifecycle byte) s)) as Hterm.
  { intros [_ Ha]. split; [|done]. intros Hl%stored_Running; [|done]. cbn in Hl. lia. }
  io_fields; [|done|io_owed|by auto].
  io_toks_excl Hno; try done; intuition (done || lia).
Qed.

Lemma iowp_close t (c : ioact ()) byte' r0 r Q :
  (forall s, ioexec t c s = Next () (set_svc (set_lifecycle (byte' (lifecycle_byte (svc s)))) s) []) ->
  (forall byte, stored byte -> closes byte (byte' byte)) ->
  (forall byte q n k, contract_moves false (view_of byte q n k) (view_of (byte' byte) q n k)) ->
  ok _ t c r ->
  r ≡ₚ TSub t :: r0 -> (forall r', r' ≡ₚ TShutting :: TSub t :: r0 -> Q () r') ->
  iowp t (do c) r Q.
Proof.
  intros He Hcl Hv Hok Hr HQ. apply iowp_do with (h := [TSub t]) (r0 := r0); [done|done|].
  intros s L HI. rewrite He. destruct (Hcl _ (inv_byte _ _ HI)) as (? & ? & ?).
  split; [split; [apply Hv|done..]|]. exists [TShutting; TSub t].
  split_and!; [by repeat constructor|by apply io_inv_close|apply HQ].
Qed.

Lemma iowp_shutdown t r0 r Q :
  r ≡ₚ TSub t :: r0 -> (forall r', r' ≡ₚ TShutting :: TSub t :: r0 -> Q () r') ->
  iowp t shutdown r Q.
Proof. by eapply iowp_close with (byte' := fetch_update shutdown_update); [|apply closing_shutdown|intros; apply view_shutdown|]. Qed.

Lemma iowp_stop t r0 r Q :
  r ≡ₚ TSub t :: r0 -> (forall r', r' ≡ₚ TShutting :: TSub t :: r0 -> Q () r') ->
  iowp t stop r Q.
Proof. by eapply iowp_close with (byte' := fun _ => as_u8 Stopping); [|apply closing_stop|intros; apply view_stop|]. Qed.

(** The count a stop reads after closing admission bounds all later ones. *)
Lemma iowp_get_snapshot t r0 r Q :
  r ≡ₚ TShutting :: r0 -> (forall n r', r' ≡ₚ TSnap n :: TShutting :: r0 -> Q n r') ->
  iowp t (do GetActive) r Q.
Proof.
  intros Hr HQ. apply iowp_do with (h := [TShutting]) (r0 := r0); [done|done|].
  intros s L HI. cbn. split; [done|]. exists [TSnap (active s); TShutting].
  split_and!; [by repeat constructor| |apply HQ].
  io_inv HI. split_toks. io_fields. io_toks; cbn; auto.
Qed.

(** ** Releasing a slot *)

Lemma io_guards_nonneg s r m : 0 <= guards s r m.
Proof.
  unfold guards. pose proof (tally_nonneg (w_guard m) r (io_guard_nonneg m)).
  enough (0 <= tally (w_channel m) (channels s)) by lia. apply tally_nonneg.
  intros c. unfold w_channel, b2z. destruct (content c) as [[? i]|]; [bd Hi|]; lia.
Qed.

Lemma io_stored_nonneg s : 0 <= tally w_stored (channels s).
Proof. apply tally_nonneg. intros c. unfold w_stored. destruct (content c); lia. Qed.

Lemma io_guards_cons s r tok m : guards s (tok :: r) m = w_guard m tok + guards s r m.
Proof. unfold guards. rewrite tally_cons. lia. Qed.

Lemma io_inv_dec s L m c :
  count_get c = active s - 1 -> 0 < active s -> Inv s (TGone m :: L) ->
  Inv (set_svc (set_active c) s) (TCapacity :: TNotify :: L).
Proof.
  intros Hc Hpos HI. assert (active (set_svc (set_active c) s) = count_get c) as Hac by done.
  pose proof (io_active_not_terminated s ltac:(lia)) as Hnt.
  io_inv HI. split_toks. destruct Htok as [Hm Hno]. io_fields; rewrite ?Hac.
  - io_toks; cbn; rewrite ?Hac; try done; intuition (done || lia).
  - rewrite !tally_cons in *. cbn in *. lia.
  - intros i. specialize (Hmk i). unfold marker_inv in *. cbn. unfold guards in *. cbn. 
    rewrite !tally_cons in *. cbn in *. revert Hmk. unfold b2z. bd Hi; [subst; rewrite Hm|]; try done.
    lia.
  - intros k. specialize (Hent k). unfold entry_inv in *. cbn.
    destruct (abort_handles (svc s) !! k) as [e|] eqn:He; [|done].
    destruct Hent as (-> & Hg & Hf). unfold guards in *. cbn. rewrite !tally_cons in *. cbn in *.
    revert Hg. unfold b2z. bd Hi; [congruence|done].
  - io_owed.
  - by intros Hp%Hpro.
  - io_change_owed.
Qed.

Lemma iowp_dec_active t m r0 r Q :
  r ≡ₚ TGone m :: r0 -> (forall r', r' ≡ₚ TCapacity :: TNotify :: r0 -> Q () r') ->
  iowp t (do DecActive) r Q.
Proof.
  intros Hr HQ. apply iowp_do with (h := [TGone m]) (r0 := r0); [done|done|].
  intros s L HI. cbn [ioexec app] in *. pose proof (inv_active _ _ HI) as Hact.
  rewrite tally_cons in Hact. cbn [w_active] in Hact. pose proof (io_stored_nonneg s).
  pose proof (tally_nonneg w_active L io_active_nonneg).
  destruct (count_dec_spec (active_tasks (svc s))) as (c & -> & Hc); [fold (active s); lia|].
  fold (active s) in Hc. split; [apply io_guar_dec; lia|]. exists [TCapacity; TNotify].
  split_and!; [by repeat constructor|apply io_inv_dec with m; [done|lia|done]|apply HQ].
Qed.

(** ** Waking waiters and waiting for termination

    A waiter's number belongs to one thread, and its token counts the wake-ups the
    waiter has seen; a waiter may be woken before the service has terminated. *)

Lemma iowp_notify_waiters t tok r0 r Q :
  locks r = 0 -> tok = TNotify \/ tok = TShutting -> r ≡ₚ tok :: r0 ->
  (forall r', r' ≡ₚ r0 -> Q () r') -> iowp t (do NotifyWaiters) r Q.
Proof.
  intros Hl Ht Hr HQ. apply iowp_do with (h := [tok]) (r0 := r0); [done|done|].
  intros s L HI. cbn. split; [by apply io_guar_locks|]. exists [].
  split_and!; [constructor| |apply HQ].
  io_inv HI. split_toks. destruct Ht as [-> | ->]; io_fields.
  all: match goal with
  | |- Forall (tok_ok _) _ => io_toks; cbn; lia
  | |- Forall (answer_ok _) _ => eapply Forall_impl; [exact Hans|]; intros a Ha Hx; specialize (Ha Hx); cbn; lia
  | |- _ => intros w Hw; by rewrite waiting_wake_all in Hw
  end.
Qed.

Definition waiter_tok (w : nat) (tok : itok) : Prop :=
  exists n, tok = TWaiter w n \/ tok = TChecking w n \/ tok = TAsleep w n.

Lemma io_waiter_alone s w tok L :
  waiter_tok w tok -> Inv s (tok :: L) -> Forall (fun x => w_waiter w x = 0) L.
Proof.
  intros [n Ht] HI. apply tally_zero_Forall; [apply io_waiter_nonneg|].
  destruct (inv_waiter _ _ HI w) as [Hle _]. rewrite tally_cons in Hle.
  assert (w_waiter w tok = 1); [|lia].
  destruct Ht as [->|[->| ->]]; cbn; by rewrite bool_decide_eq_true_2.
Qed.

Lemma iowp_new_waiter t r Q :
  (forall w r', r' ≡ₚ TWaiter w 0 :: r -> Q w r') -> iowp t (do NewWaiter) r Q.
Proof.
  intros HQ. apply iowp_do with (h := []) (r0 := r); [done|done|].
  intros s L HI. cbn. split; [by apply io_guar_locks|]. exists [TWaiter (next_waiter s) 0].
  split_and!; [by repeat constructor| |apply HQ].
  io_inv HI. io_fields; [io_toks; cbn; lia|].
  intros x. destruct (Hwt x) as [Hle Hz]. rewrite tally_cons. cbn. unfold b2z. bd Hx.
  - subst. split; [rewrite Hz by done; lia|lia].
  - split; [lia|]. intros Hlt. rewrite Hz by lia. lia.
Qed.

Lemma iowp_enable t w n r0 r Q :
  r ≡ₚ TWaiter w n :: r0 -> (forall r', r' ≡ₚ TChecking w n :: r0 -> Q () r') ->
  iowp t (do (Enable w)) r Q.
Proof.
  intros Hr HQ. apply iowp_do with (h := [TWaiter w n]) (r0 := r0); [done|done|].
  intros s L HI. cbn. split; [by apply io_guar_locks|]. exists [TChecking w n].
  split_and!; [by repeat constructor| |apply HQ].
  io_inv HI. split_toks. io_fields.
  - io_toks; cbn; rewrite waiting_enlist;
      [split; [done|left; by rewrite bool_decide_eq_true_2]|..];
      (intros [? [Hw|?]]; (split; [done|]); [left; rewrite Hw; apply orb_true_r|by right]).
  - intros w' Hw' Ht. rewrite tally_cons. cbn. rewrite waiting_enlist in Hw'.
    pose proof (tally_nonneg (w_notify w') L (io_notify_nonneg w')).
    case_bool_decide; cbn in *; [lia|]. specialize (Hwa w' Hw' Ht). io_norm Hwa. lia.
Qed.

(** Being woken is counted. *)
Lemma iowp_await_notified t w n Q :
  (forall r', r' ≡ₚ [TWaiter w (S n)] -> Q () r') -> iowp t (do (AwaitNotified w)) [TAsleep w n] Q.
Proof.
  intros HQ. apply iowp_do with (h := [TAsleep w n]) (r0 := []); [done|by exists n|].
  intros s L HI. cbn. destruct (waiting _ _) eqn:Hw; [done|].
  split; [done|]. exists [TWaiter w (S n)]. split_and!; [by repeat constructor| |apply HQ].
  io_inv HI. split_toks. cbn in Htok. rewrite Hw in Htok. destruct Htok as [_ [|]]; [done|].
  io_fields. by io_toks.
Qed.

Lemma io_inv_drop_notified s w n tok L :
  tok = TChecking w n \/ tok = TAsleep w n -> Inv s (tok :: L) ->
  Inv (set_svc (set_termination_notify (delist (termination_notify (svc s)) w)) s) (TWaiter w n :: L).
Proof.
  intros Htok HI.
  assert (Forall (fun x => w_waiter w x = 0) L) as Hno
    by (apply (io_waiter_alone s w tok); [exists n; tauto|done]).
  io_inv HI; split_toks.
  assert (n <= notified s)%nat by (by destruct Htok as [-> | ->]; cbn in Htok0; intuition).
  destruct Htok as [-> | ->]; io_fields.
  all: match goal with
  | |- Forall _ _ => io_toks_excl Hno;
      match goal with H : _ /\ (_ \/ _) |- _ => destruct H as [? [Hw|?]]; (split; [done|]); [left|by right] end;
      rewrite waiting_delist, Hw; match goal with H : b2z _ = 0 |- _ => revert H end;
      unfold b2z; (bd Hx; [done|]); by rewrite bool_decide_eq_false_2 by congruence
  | |- _ => intros w' Hw' Ht; rewrite waiting_delist in Hw'; case_bool_decide; [done|];
      specialize (Hwa w' Hw' Ht); io_norm Hwa; rewrite ?bool_decide_eq_false_2 in Hwa by done; cbn in *; lia
  end.
Qed.

Lemma iowp_drop_notified t w n tok r0 r Q :
  tok = TChecking w n \/ tok = TAsleep w n -> r ≡ₚ tok :: r0 ->
  (forall r', r' ≡ₚ TWaiter w n :: r0 -> Q () r') ->
  iowp t (do (DropNotified w)) r Q.
Proof.
  intros Hh Hr HQ. apply iowp_do with (h := [tok]) (r0 := r0); [done|done|].
  intros s L HI. cbn. split; [by apply io_guar_locks|]. exists [TWaiter w n].
  split_and!; [by repeat constructor|by apply io_inv_drop_notified with tok|apply HQ].
Qed.

Lemma io_inv_asleep s w n L :
  ~ terminated s -> Inv s (TChecking w n :: L) -> Inv s (TAsleep w n :: L).
Proof. intros Hnot HI. io_inv HI. split_toks. io_fields; [by io_toks|by io_not Hnot]. Qed.

Lemma io_inv_closed s L : lifecycle_byte (svc s) <> 0 -> Inv s L -> Inv s (TClosed :: L).
Proof.
  intros Hb HI. io_inv HI. assert (0 < lifecycle_byte (svc s)) by (unfold stored in Hbyte; lia).
  io_fields; by io_toks.
Qed.

(** A waiter that reads a running lifecycle may go to sleep, one that reads
    another remembers it... *)
Lemma iowp_load_checking t w n r0 r Q :
  r ≡ₚ TChecking w n :: r0 ->
  (forall byte r', stored byte ->
    r' ≡ₚ (if byte =? 0 then [TAsleep w n] else [TClosed; TChecking w n]) ++ r0 -> Q byte r') ->
  iowp t (do LoadLifecycle) r Q.
Proof.
  intros Hr HQ. apply iowp_do with (h := [TChecking w n]) (r0 := r0); [done|done|].
  intros s L HI. cbn. split; [done|].
  exists (if lifecycle_byte (svc s) =? 0 then [TAsleep w n] else [TClosed; TChecking w n]).
  split_and!; [by destruct (_ =? _); repeat constructor| |intros r'; apply HQ; by destruct HI].
  destruct (Z.eqb_spec (lifecycle_byte (svc s)) 0) as [Hb|Hb]; cbn [app].
  - apply io_inv_asleep; [|done]. apply io_running_not_terminated; [apply (inv_byte _ _ HI)|done].
  - by apply io_inv_closed.
Qed.

(** ... and so may one that finds active tasks; one that finds none in a closed
    service has seen it terminated. *)
Lemma iowp_get_checking t w n r0 r Q :
  r ≡ₚ TClosed :: TChecking w n :: r0 ->
  (forall k r', r' ≡ₚ (if k =? 0 then [TDone; TChecking w n] else [TAsleep w n]) ++ r0 -> Q k r') ->
  iowp t (do GetActive) r Q.
Proof.
  intros Hr HQ. apply iowp_do with (h := [TClosed; TChecking w n]) (r0 := r0); [done|done|].
  intros s L HI. cbn. fold (active s). split; [done|].
  exists (if active s =? 0 then [TDone; TChecking w n] else [TAsleep w n]).
  split_and!; [by destruct (_ =? _); repeat constructor| |apply HQ].
  destruct (Z.eqb_spec (active s) 0) as [Hb|Hb]; cbn [app].
  - io_inv HI. split_toks. cbn in Htok.
    assert (terminated s) as Ht by (split; [intros Hl%stored_Running; [lia|done]|done]).
    io_fields; by io_toks.
  - apply io_inv_asleep; [by apply io_active_not_terminated|].
    io_inv HI. split_toks. io_fields; by io_toks.
Qed.

(** ** Answers and results handed to callers *)

Lemma iowp_answer t fuel (b : bool) w n r0 r Q :
  r ≡ₚ (if b then [TDone] else [TWaiter w n]) ++ r0 -> (b = false -> fuel <= n)%nat ->
  (forall r', r' ≡ₚ r0 -> Q () r') -> iowp t (do (Answer fuel b)) r Q.
Proof.
  intros Hr Hb HQ.
  apply iowp_do with (h := if b then [TDone] else [TWaiter w n]) (r0 := r0); [done|done|].
  intros s L HI. cbn. split; [by apply io_guar_locks|]. exists [].
  split_and!; [constructor| |apply HQ]. io_inv HI. destruct b; cbn [app] in *; split_toks; io_fields.
  - by constructor.
  - done.
  - intros x. specialize (Hwt x). io_norm Hwt. revert Hwt. unfold b2z.
    pose proof (tally_nonneg (w_waiter x) L (io_waiter_nonneg x)). bd Hx; lia.
  - constructor; [|done]. intros _. cbn in *. specialize (Hb eq_refl). lia.
  - intros [Hx|Hx]%Exists_cons; [done|by apply Hpro].
Qed.
End IoActions.
