(* ===== verification/IoObjects.v ===== *)
(** * Proof rules for the per-task objects of the IO service

    The abort-handle lock and map, registration markers and the phases of a
    guard's destruction. *)

From S2P Require Import Prelude Conc External LifecycleBits Registration IoState IoService IoInv IoActions.
From stdpp Require Import prelude list gmap.
#[local] Open Scope Z_scope.

Section IoObjects.
Context `{!BuildProfile, !LifecycleRepr, !Allocator, !Tokio, !Oneshot, !WaiterSet, !Watch, !AtomicCount}.
Context {Fut R E : Type} `{!UserFuture Fut R E}.
Context (polls : nat).
#[local] Abbreviation IoWorld := (IoWorld (Fut := Fut) (R := R) (E := E)).
#[local] Abbreviation ioact := (ioact (Fut := Fut) (R := R) (E := E)).
#[local] Abbreviation iowp := (wp (act := ioact) (M := io_machine polls) Inv Guar ok own blk pre).
#[local] Abbreviation itok := (itok (Fut := Fut) (R := R) (E := E)).
Implicit Types (s : IoWorld) (r L : list itok).

(** ** The abort-handle lock *)

Lemma iowp_lock_aborts t r Q :
  tally w_abl r = 0 -> (forall r', r' ≡ₚ TAborts t :: r -> Q () r') ->
  iowp t (do LockAborts) r Q.
Proof.
  intros Hl HQ. apply iowp_do with (h := []) (r0 := r); [done|done|].
  intros s L HI. cbn. destruct (abort_lock (svc s)) eqn:Hs; [by eexists|].
  split; [by apply io_guar_locks|]. exists [TAborts t]. split_and!; [by repeat constructor| |apply HQ].
  io_inv HI. rewrite Hs in Habl. cbn in Habl. io_fields. io_toks; cbn; intuition congruence.
Qed.

Lemma io_no_registering L : Forall (fun x => w_abl x = 0) L ->
  forall i, tally (w_registering i) L = 0.
Proof.
  intros Hno i. apply tally_all_zero. eapply Forall_impl; [exact Hno|].
  intros []; cbn; unfold b2z; try done; bd Hx; lia.
Qed.

Lemma io_inv_unlock_aborts s L t m tok :
  tok = TAborts t \/ tok = TRegistering t m -> Inv s (tok :: L) ->
  Inv (set_svc (set_abort_lock None) s) L.
Proof.
  intros Htok HI. io_inv HI. split_toks.
  assert (Forall (fun x => w_abl x = 0) L) as Hno.
  { eapply alone; [apply io_abl_nonneg|exact Habl|by destruct Htok as [-> | ->]]. }
  pose proof (io_no_registering L Hno) as Hnoreg.
  destruct Htok as [-> | ->]; io_fields.
  all: try by apply tally_all_zero.
  all: try (io_toks_excl Hno).
  all: intros i; try (rewrite Hnoreg; lia).
  specialize (Hun i). io_norm Hun. unfold b2z in *. revert Hun. bd Hi; lia.
Qed.

Lemma iowp_unlock_aborts t m tok r0 r Q :
  tok = TAborts t \/ tok = TRegistering t m -> r ≡ₚ tok :: r0 ->
  (forall r', r' ≡ₚ r0 -> Q () r') -> iowp t (do UnlockAborts) r Q.
Proof.
  intros Ht Hr HQ. apply iowp_do with (h := [tok]) (r0 := r0); [done|done|].
  intros s L HI. cbn. split; [by apply io_guar_locks|]. exists [].
  split_and!; [constructor|by apply io_inv_unlock_aborts with t m tok|apply HQ].
Qed.

(** ** Registration markers *)

(** The new marker belongs to the slot just reserved. *)
Lemma io_inv_new_registration s L t :
  let m := length (registrations s) in
  Inv s (TReserved :: TAdmit t :: L) ->
  Inv (set_registrations (registrations s ++ [false]) s) (TFuture m :: TUnreg m :: TAdmit t :: L).
Proof.
  intros m HI. io_inv HI. split_toks.
  assert (registrations s !! m = None) as Hnone by by apply lookup_ge_None_2.
  assert (guards s (TReserved :: TAdmit t :: L) m = 0) as Hfree.
  { specialize (Hmk m). unfold marker_inv in Hmk. by rewrite Hnone in Hmk. }
  assert (forall i b, registrations s !! i = Some b -> (registrations s ++ [false]) !! i = Some b)
    as Hgrow by (intros i b Hi; by apply lookup_app_l_Some).
  assert ((registrations s ++ [false]) !! m = Some false) as Hnew
    by (by rewrite lookup_app_r, Nat.sub_diag by done).
  assert (forall i, i <> m -> (registrations s ++ [false]) !! i = registrations s !! i) as Hold.
  { intros i Hi. destruct (registrations s !! i) as [b|] eqn:Hb; [by apply Hgrow|].
    apply lookup_ge_None_2. rewrite length_app. cbn. apply lookup_ge_None_1 in Hb. unfold m in Hi. lia. }
  io_fields.
  - repeat (apply Forall_cons; split); try done.
    + cbn. split; [|rewrite length_app; cbn; lia].
      destruct (abort_handles (svc s) !! key m) as [e|] eqn:He; [exfalso|done].
      specialize (Hent (key m)). unfold entry_inv in Hent. rewrite He in Hent.
      destruct Hent as (Hk & Hg & _). apply (inj key) in Hk. subst m. rewrite <- Hk in Hg. lia.
    + io_toks; cbn; rewrite ?length_app; intuition (auto; lia).
  - intros i. specialize (Hmk i). unfold marker_inv in *. cbn. unfold guards in *. cbn.
    rewrite !tally_cons in *. cbn in *. destruct (decide (i = m)) as [->|Hne].
    + rewrite Hnew. unfold b2z. rewrite bool_decide_eq_true_2 by done. lia.
    + rewrite Hold by done. unfold b2z. rewrite bool_decide_eq_false_2 by done. exact Hmk.
  - intros k. specialize (Hent k). unfold entry_inv in *. cbn.
    destruct (abort_handles (svc s) !! k) as [e|]; [|done]. destruct Hent as (Hk & Hg & Hf).
    assert (ta_marker e <> m) as Hne by (intros He; rewrite He in Hg; lia).
    rewrite Hold by done. unfold guards in *. cbn. rewrite !tally_cons in *. cbn in *.
    unfold b2z. rewrite bool_decide_eq_false_2 by done. done.
  - intros i. specialize (Hun i). io_norm Hun. unfold b2z. bd Hi; [|lia]. subst i.
    enough (tally (w_unreg m) L = 0) by lia. apply tally_all_zero.
    eapply Forall_impl; [exact Htoks|]. intros []; cbn; try done; unfold b2z;
      bd Hx; try done; unfold m in *; intros; lia.
  - intros i Hi Hf. io_norm Hi. destruct (decide (i = m)) as [->|Hne]; [congruence|].
    rewrite Hold in Hf by done. specialize (Hreg i). io_norm Hreg. apply Hreg; [lia|done].
Qed.

Lemma iowp_new_registration t r0 r Q :
  r ≡ₚ TReserved :: TAdmit t :: r0 ->
  (forall m r', r' ≡ₚ TFuture m :: TUnreg m :: TAdmit t :: r0 -> Q m r') ->
  iowp t (do NewRegistration) r Q.
Proof.
  intros Hr HQ. apply iowp_do with (h := [TReserved; TAdmit t]) (r0 := r0); [done|done|].
  intros s L HI. cbn. split.
  - pose proof (inv_toks _ _ HI) as Ht. cbn in Ht. split_toks. cbn in Htok0.
    split; [by left|done| |done]. lia.
  - exists (let m := length (registrations s) in [TFuture m; TUnreg m; TAdmit t]).
    split_and!; [by repeat constructor|by apply io_inv_new_registration|apply HQ].
Qed.

(** Under the lock, an unfinished marker may be registered. *)
Lemma iowp_load_finished t m r0 r Q :
  r ≡ₚ TAborts t :: TUnreg m :: r0 ->
  (forall (b : bool) r', r' ≡ₚ (if b then TAborts t else TRegistering t m) :: r0 -> Q b r') ->
  iowp t (do (LoadFinished m)) r Q.
Proof.
  intros Hr HQ. apply iowp_do with (h := [TAborts t; TUnreg m]) (r0 := r0); [done|done|].
  intros s L HI. cbn. split; [done|].
  exists [if default true (registrations s !! m) then TAborts t else TRegistering t m].
  split_and!; [by destruct (default _ _); repeat constructor| |apply HQ].
  io_inv HI. split_toks. cbn in Htok, Htok0. destruct Htok0 as [Hno Hlt].
  destruct (registrations s !! m) as [[]|] eqn:Hm; cbn [default from_option].
  - io_fields; [by io_toks|]. intros i. specialize (Hun i). io_norm Hun.
    revert Hun. unfold b2z. bd Hi; lia.
  - io_fields; [by io_toks|]. intros i Hi Hf. io_norm Hi. revert Hi. unfold b2z. bd Hx; [congruence|].
    intros Hi. specialize (Hreg i). io_norm Hreg. apply Hreg; [lia|done].
  - apply lookup_ge_None in Hm. lia.
Qed.

(** The guard's owner knows its marker: it exists and no one else guards it. *)
Lemma io_guard_alone s L m tok :
  w_guard m tok = 1 -> Inv s (tok :: L) ->
  (m < length (registrations s))%nat /\
  Forall (fun x => w_guard m x = 0) L /\ guards s (tok :: L) m = 1.
Proof.
  intros Hw HI. pose proof (inv_marker _ _ HI m) as Hm. unfold marker_inv in Hm.
  rewrite io_guards_cons, Hw in *. pose proof (io_guards_nonneg s L m) as Hn.
  assert (guards s L m = 0 /\ (m < length (registrations s))%nat) as [Hz Hlt].
  { destruct (registrations s !! m) as [[]|] eqn:Hr; try lia;
      apply lookup_lt_Some in Hr; split; (done || lia). }
  split_and!; [done| |lia]. apply tally_zero_Forall; [apply io_guard_nonneg|].
  unfold guards in Hz. pose proof (io_guards_nonneg s [] m) as Hc. unfold guards in Hc.
  rewrite tally_nil in Hc. lia.
Qed.

Lemma io_w_guard (m : nat) : b2z (bool_decide (m = m)) = 1.
Proof. by rewrite bool_decide_eq_true_2. Qed.

(** The map entry is added while the guard still has its future, so its marker
    cannot be finished. *)
Lemma io_inv_insert_abort s L t m h :
  Inv s (TRegistering t m :: TFuture m :: L) ->
  Inv (set_svc (set_abort_handles (<[key m := mkTracked m h]> (abort_handles (svc s)))) s)
    (TAborts t :: TFuture m :: L).
Proof.
  intros HI.
  destruct (io_guard_alone s (TRegistering t m :: L) m (TFuture m)) as (Hlt & Hguard & Hg1).
  { apply io_w_guard. }
  { eapply (io_Inv_perm s); [|exact HI]. constructor. }
  apply Forall_cons in Hguard as [_ Hguard].
  io_inv HI. split_toks. destruct Htok as (Hl & Hno & _).
  assert (Forall (fun x => w_unreg m x = 0) L) as Halone.
  { apply tally_zero_Forall; [apply io_unreg_nonneg|]. specialize (Hun m). io_norm Hun.
    rewrite io_w_guard in Hun. lia. }
  assert (Forall (fun x => w_abl x = 0) L) as Hno'.
  { eapply (alone _ (TRegistering t m)); [apply io_abl_nonneg|exact Habl|done]. }
  pose proof (io_no_registering L Hno') as Hnoreg.
  assert (forall k, k <> m -> key m <> key k) as Hkey.
  { intros k Hne Hk. apply (inj key) in Hk. congruence. }
  assert (tally (w_removing m) L = 0) as Hnorem.
  { apply tally_all_zero. eapply Forall_impl; [exact Hguard|]. by intros []. }
  io_fields.
  - assert (Forall (fun x => w_unreg m x = 0 /\ w_guard m x = 0) L) as Hz by by apply Forall_and.
    io_toks_excl Hz.
    all: match goal with H : _ /\ _ |- _ => destruct H as [Hz1 Hz2] end.
    all: revert Hz1 Hz2; unfold b2z; repeat bd Hi; try done; intros _ _.
    all: rewrite lookup_insert_ne by auto; done.
  - intros k. unfold entry_inv. cbn. destruct (decide (k = key m)) as [->|Hne].
    + rewrite lookup_insert_eq. cbn. split_and!; [done| |].
      * unfold guards in *. cbn. rewrite !tally_cons in *. cbn in *. lia.
      * intros Hf. exfalso. specialize (Hreg m). io_norm Hreg. rewrite io_w_guard, Hnorem in Hreg.
        pose proof (tally_nonneg (w_registering m) L (io_registering_nonneg m)).
        specialize (Hreg ltac:(lia) Hf). lia.
    + rewrite lookup_insert_ne by done. specialize (Hent k). unfold entry_inv in Hent.
      destruct (abort_handles (svc s) !! k); [|done].
      unfold guards in *. cbn. rewrite !tally_cons in *. cbn in *. exact Hent.
  - intros i. specialize (Hun i). io_norm Hun. revert Hun. unfold b2z. bd Hm; lia.
  - intros i Hi Hf. io_norm Hi. rewrite Hnoreg in Hi. lia.
Qed.

Lemma iowp_insert_abort t m h r0 r Q :
  r ≡ₚ TRegistering t m :: TFuture m :: r0 ->
  (forall r', r' ≡ₚ TAborts t :: TFuture m :: r0 -> Q None r') ->
  iowp t (do (InsertAbort (key m) (mkTracked m h))) r Q.
Proof.
  intros Hr HQ. apply iowp_do with (h := [TRegistering t m; TFuture m]) (r0 := r0); [done|done|].
  intros s L HI. cbn. split; [by apply io_guar_locks|]. exists [TAborts t; TFuture m].
  split_and!; [by repeat constructor|by apply io_inv_insert_abort|].
  pose proof (inv_toks _ _ HI) as Ht. apply Forall_cons in Ht as [(_ & -> & _) _]. apply HQ.
Qed.

(** ** Destruction of a guard *)

Lemma io_inv_store_finished s L m :
  Inv s (TGuard m :: L) ->
  Inv (set_registrations (<[m := true]> (registrations s)) s) (TRemoving m :: L).
Proof.
  intros HI. destruct (io_guard_alone s L m (TGuard m)) as (Hlt & _ & Hg1); [apply io_w_guard|done|].
  assert (<[m := true]> (registrations s) !! m = Some true) as Hnew by by apply list_lookup_insert_eq.
  io_inv HI. split_toks. io_fields.
  - repeat (apply Forall_cons; split); [done|].
    io_toks; cbn; rewrite ?length_insert; try done.
    + apply finish_keeps.
    + intros [? ?]. split; [by apply finish_keeps|done].
  - intros i. specialize (Hmk i). unfold marker_inv in *. cbn. unfold guards in *. cbn.
    rewrite !tally_cons in *. cbn in *. destruct (decide (m = i)) as [<-|Hne].
    + rewrite Hnew, io_w_guard in *. lia.
    + by rewrite list_lookup_insert_ne.
  - intros k. specialize (Hent k). unfold entry_inv in *. cbn.
    destruct (abort_handles (svc s) !! k) as [e|]; [|done]. destruct Hent as (Hk & Hg & Hf).
    unfold guards in *. cbn. rewrite !tally_cons in *. cbn in *. split_and!; [done..|].
    intros [Hi|Hi]%finish_true; [rewrite Hi, io_w_guard|specialize (Hf Hi)].
    + pose proof (tally_nonneg (w_removing (ta_marker e)) L (io_removing_nonneg _)). lia.
    + unfold b2z. bd Hx; lia.
  - intros i Hi Hf. io_norm Hi. apply finish_true in Hf as [<-|Hf]; io_norm Hi.
    + rewrite io_w_guard. pose proof (tally_nonneg (w_removing m) L (io_removing_nonneg m)). lia.
    + specialize (Hreg i). io_norm Hreg. specialize (Hreg ltac:(lia) Hf). unfold b2z. bd Hx; lia.
Qed.

Lemma iowp_store_finished t m r0 r Q :
  r ≡ₚ TGuard m :: r0 -> (forall r', r' ≡ₚ TRemoving m :: r0 -> Q () r') ->
  iowp t (do (StoreFinished m)) r Q.
Proof.
  intros Hr HQ. apply iowp_do with (h := [TGuard m]) (r0 := r0); [done|done|].
  intros s L HI. cbn. split.
  - apply io_guar_locks; [done|done|apply length_insert|done].
  - exists [TRemoving m]. split_and!; [by repeat constructor|by apply io_inv_store_finished|apply HQ].
Qed.

Lemma io_inv_remove_abort s L t m :
  Inv s (TRemoving m :: TAborts t :: L) ->
  Inv (set_svc (set_abort_handles (delete (key m) (abort_handles (svc s)))) s)
    (TGone m :: TAborts t :: L).
Proof.
  intros HI. io_inv HI. split_toks. cbn in Htok.
  assert (Forall (fun x => w_abl x = 0) L) as Hno'.
  { eapply (alone _ (TAborts t)); [apply io_abl_nonneg|exact Habl|done]. }
  pose proof (io_no_registering L Hno') as Hnoreg. io_fields.
  - repeat (apply Forall_cons; split); [by split; [|apply lookup_delete_eq]|done|].
    io_toks; cbn; rewrite ?lookup_delete_None; intuition auto.
  - intros k. unfold entry_inv. cbn. specialize (Hent k). unfold entry_inv in Hent.
    destruct (decide (k = key m)) as [->|Hne]; [by rewrite lookup_delete_eq|].
    rewrite lookup_delete_ne by done. destruct (abort_handles (svc s) !! k) as [e|]; [|done].
    destruct Hent as (-> & Hg & Hf). unfold guards in *. cbn. rewrite !tally_cons in *. cbn in *.
    split_and!; [done..|]. intros Hm. specialize (Hf Hm). revert Hf.
    unfold b2z. bd Hx; [congruence|lia].
  - intros i Hi Hf. io_norm Hi. rewrite Hnoreg in Hi. lia.
Qed.

Lemma iowp_remove_abort t m r0 r Q :
  r ≡ₚ TRemoving m :: TAborts t :: r0 -> (forall r', r' ≡ₚ TGone m :: TAborts t :: r0 -> Q () r') ->
  iowp t (do (RemoveAbort (key m))) r Q.
Proof.
  intros Hr HQ. apply iowp_do with (h := [TRemoving m; TAborts t]) (r0 := r0); [done|done|].
  intros s L HI. cbn. split; [by apply io_guar_locks|]. exists [TGone m; TAborts t].
  split_and!; [by repeat constructor|by apply io_inv_remove_abort|apply HQ].
Qed.

(** ** Taking the map *)

(** Every entry belongs to an active task of its own. *)
Lemma io_entries_active s r :
  Inv s r -> Z.of_nat (length (map_to_list (abort_handles (svc s)))) <= active s.
Proof.
  intros HI. set (entries := map_to_list (abort_handles (svc s))).
  assert (forall k e, (k, e) ∈ entries -> k = key (ta_marker e) /\ guards s r (ta_marker e) = 1) as He.
  { intros k e Hin%elem_of_map_to_list. pose proof (inv_entry _ _ HI k) as Hent.
    unfold entry_inv in Hent. rewrite Hin in Hent. by destruct Hent as (? & ? & _). }
  set (markers := (fun p : Z * TrackedAbortHandle => ta_marker p.2) <$> entries).
  assert (NoDup markers) as Hnd.
  { apply (NoDup_fmap_1 key). replace (key <$> markers) with (entries.*1); [apply NoDup_fst_map_to_list|].
    unfold markers. rewrite <- list_fmap_compose. apply list_fmap_ext.
    intros i [k e] Hi. apply list_elem_of_lookup_2 in Hi. by destruct (He k e Hi). }
  replace (length entries) with (length markers) by apply length_fmap.
  assert (Z.of_nat (length markers) <= tally (guards s r) markers) as Hle.
  { replace (Z.of_nat (length markers)) with (tally (fun _ : nat => 1) markers)
      by (rewrite tally_const; lia).
    apply tally_le. intros m (p & -> & Hp)%list_elem_of_fmap. destruct p as [k e].
    destruct (He k e Hp) as [_ Hg]. cbn. lia. }
  rewrite (inv_active _ _ HI). unfold guards in Hle.
  rewrite tally_plus, (tally_swap w_guard), (tally_swap w_channel) in Hle.
  etrans; [exact Hle|]. apply Z.add_le_mono; apply tally_le.
  - intros tok _. destruct tok; cbn [w_active w_guard]; try (by rewrite tally_const).
    all: by apply tally_indicator.
  - intros c _. unfold w_channel, w_stored. destruct (content c) as [[? i]|].
    + by apply tally_indicator.
    + by rewrite tally_const.
Qed.

(** A stop takes no more handles than it saw active tasks. *)
Lemma iowp_take_aborts t n r0 r Q :
  r ≡ₚ TSnap n :: r0 ->
  (forall handles r', Z.of_nat (length handles) <= n -> r' ≡ₚ r0 -> Q handles r') ->
  iowp t (do TakeAborts) r Q.
Proof.
  intros Hr HQ. apply iowp_do with (h := [TSnap n]) (r0 := r0); [done|done|].
  intros s L HI. cbn [ioexec]. split; [by apply io_guar_locks|]. exists [].
  pose proof (io_entries_active _ _ HI) as Hle. pose proof (inv_toks _ _ HI) as Ht.
  apply Forall_cons in Ht as [[_ Hn] _].
  split_and!; [constructor| |intros r'; apply HQ; lia]. io_inv HI. split_toks. io_fields.
  - io_toks; cbn; rewrite ?lookup_empty; intuition auto.
  - intros k. unfold entry_inv. cbn. by rewrite lookup_empty.
Qed.
End IoObjects.
