(* ===== verification/IoChannels.v ===== *)
(** * Proof rules for the hand-over channel, spawning and user code

    The one-shot channel carries the guarded future from the submitter to the
    spawned task; whichever side gives up first leaves it with the other. *)

From S2P Require Import Prelude Conc External LifecycleBits Registration IoState IoService IoInv IoActions IoObjects.
From stdpp Require Import prelude list gmap.
#[local] Open Scope Z_scope.

Section IoChannels.
Context `{!BuildProfile, !LifecycleRepr, !Allocator, !Tokio, !Oneshot, !WaiterSet, !Watch, !AtomicCount}.
Context {Fut R E : Type} `{!UserFuture Fut R E}.
Context (polls : nat).
#[local] Abbreviation IoWorld := (IoWorld (Fut := Fut) (R := R) (E := E)).
#[local] Abbreviation ioact := (ioact (Fut := Fut) (R := R) (E := E)).
#[local] Abbreviation iowp := (wp (act := ioact) (M := io_machine polls) Inv Guar ok own blk pre).
#[local] Abbreviation itok := (itok (Fut := Fut) (R := R) (E := E)).
Implicit Types (s : IoWorld) (r L : list itok).

(** ** Growing the list of channels *)

Lemma io_channel_empty m (c : oneshot (Fut * nat)) :
  content c = None -> w_channel m c = 0 /\ w_stored c = 0.
Proof. intros Hc. unfold w_channel, w_stored. by rewrite Hc. Qed.

Lemma io_stored_full (c : oneshot (Fut * nat)) p : content c = Some p -> w_stored c = 1.
Proof. intros Hc. unfold w_stored. by rewrite Hc. Qed.

(** Only tasks that exist are polled. *)
Lemma polls_of_none s ch :
  Forall (poll_ok s) (polled s) -> (length (channels s) <= ch)%nat -> polls_of ch s = [].
Proof.
  unfold polls_of. intros Hp Hch. induction Hp as [|x l Hx _ IH]; [done|].
  rewrite filter_cons_False; [exact IH|]. unfold poll_ok in Hx. lia.
Qed.

Lemma io_inv_new_channel s L :
  let ch := length (channels s) in
  Inv s L -> Inv (set_channels (channels s ++ [channel]) s) (TReceiver ch :: TSender ch :: L).
Proof.
  intros ch HI.
  assert ((channels s ++ [channel]) !! ch = Some channel) as Hnew
    by by rewrite lookup_app_r, Nat.sub_diag.
  assert (forall i, guards (set_channels (channels s ++ [channel]) s) (TReceiver ch :: TSender ch :: L) i
    = guards s L i) as Hg.
  { intros i. unfold guards. cbn. rewrite tally_app, !tally_cons, tally_nil. cbn.
    destruct (io_channel_empty i channel) as [-> _]; [apply content_channel|lia]. }
  io_inv HI. io_fields.
  - io_toks; cbn.
    + split; [exists channel; split; [exact Hnew|apply closed_channel]|].
      change (polls_of ch _) with (polls_of ch s). by rewrite polls_of_none.
    + exists channel. split; [exact Hnew|apply content_channel].
    + intros (c & Hc & ?). exists c. split; [by apply lookup_app_l_Some|done].
    + intros [(c & Hc & ?) Hpo]. split; [|exact Hpo]. exists c. split; [by apply lookup_app_l_Some|done].
  - unfold active in *. cbn. rewrite tally_app, !tally_cons, tally_nil. cbn.
    destruct (io_channel_empty 0 channel) as [_ ->]; [apply content_channel|lia].
  - intros i. specialize (Hmk i). unfold marker_inv in *. cbn. by rewrite Hg.
  - intros i. specialize (Hch i). unfold channel_inv in *. cbn [channels set_channels].
    rewrite !tally_cons. cbn. destruct (decide (i = ch)) as [->|Hne].
    + rewrite lookup_ge_None_2 in Hch by done. destruct Hch as [-> ->]. rewrite Hnew.
      unfold b2z. rewrite bool_decide_eq_true_2, closed_channel, content_channel by done. cbn.
      by split_and!.
    + unfold b2z at 1 2. rewrite bool_decide_eq_false_2 by congruence. cbn.
      destruct (channels s !! i) as [c|] eqn:Hi.
      * rewrite (lookup_app_l_Some _ _ _ _ Hi). exact Hch.
      * rewrite lookup_ge_None_2; [exact Hch|]. rewrite length_app. cbn.
        apply lookup_ge_None_1 in Hi. unfold ch in Hne. lia.
  - intros k. specialize (Hent k). unfold entry_inv in *. cbn.
    destruct (abort_handles (svc s) !! k); [|done]. by rewrite Hg, !tally_cons.
  - intros i. specialize (Htk i). rewrite !tally_cons, length_app. cbn. revert Htk. unfold b2z.
    bd Hi1; bd Hi2; bd Hi3; subst; intros; lia.
  - eapply Forall_impl; [exact Hpl|]. unfold poll_ok. cbn. rewrite length_app. lia.
Qed.

Lemma iowp_new_channel t r Q :
  (forall ch r', r' ≡ₚ TReceiver ch :: TSender ch :: r -> Q ch r') -> iowp t (do NewChannel) r Q.
Proof.
  intros HQ. apply iowp_do with (h := []) (r0 := r); [done|done|].
  intros s L HI. cbn. split; [by apply io_guar_locks|].
  exists [TReceiver (length (channels s)); TSender (length (channels s))].
  split_and!; [by repeat constructor|by apply io_inv_new_channel|apply HQ].
Qed.

(** ** Sending and receiving *)

Lemma io_channel_at s ch c : channels s !! ch = Some c -> channel_at s ch = c.
Proof. intros Hc. unfold channel_at. by rewrite Hc. Qed.

Lemma io_channels_at s ch c i d :
  channels s !! ch = Some c -> <[ch := d]> (channels s) !! i = if decide (ch = i) then Some d else channels s !! i.
Proof.
  intros Hc. pose proof (lookup_lt_Some _ _ _ Hc).
  dec; [subst; by apply list_lookup_insert_eq|by rewrite list_lookup_insert_ne].
Qed.

(** Updating one channel keeps every field that does not speak of it. *)
Definition set_channel ch d s := set_channels (<[ch := d]> (channels s)) s.

Lemma io_toks_set_channel s L ch c d :
  channels s !! ch = Some c -> Forall (tok_ok s) L ->
  tally (w_sender ch) L = 0 \/ content d = None ->
  tally (w_receiver ch) L = 0 \/ closed d = closed c ->
  Forall (tok_ok (set_channel ch d s)) L.
Proof.
  intros Hc HL Hs Hr. rewrite Forall_forall in HL |- *. intros tok Htok. specialize (HL tok Htok).
  destruct tok; try exact HL; cbn in *.
  - destruct HL as (y & Hy & HL). rewrite (io_channels_at s ch c) by done. exists (if decide (ch = ch0) then d else y). dec; [|done]. subst. split; [done|].
    destruct Hs as [Hs|]; [exfalso|done].
    pose proof (tally_elem_le _ _ _ (io_sender_nonneg ch0) Htok) as Hle. cbn in Hle. unfold b2z in Hle.
    rewrite bool_decide_eq_true_2 in Hle by done. lia.
  - destruct HL as [(y & Hy & HL) Hpo]. split; [|exact Hpo]. rewrite (io_channels_at s ch c) by done.
    exists (if decide (ch = ch0) then d else y). dec; [|done]. subst. split; [done|]. simplify_eq.
    destruct Hr as [Hr|]; [exfalso|congruence].
    pose proof (tally_elem_le _ _ _ (io_receiver_nonneg ch0) Htok) as Hle. cbn in Hle. unfold b2z in Hle.
    rewrite bool_decide_eq_true_2 in Hle by done. lia.
Qed.

(** The fields of the invariant that depend on where the guards are. *)
Lemma io_guards_set_channel s r r' ch c d :
  channels s !! ch = Some c ->
  (forall m, tally (w_guard m) r' + w_channel m d = tally (w_guard m) r + w_channel m c) ->
  forall m, guards (set_channel ch d s) r' m = guards s r m.
Proof.
  intros Hc He m. specialize (He m). unfold guards, set_channel. cbn.
  rewrite (tally_insert _ _ _ _ _ Hc). lia.
Qed.

Lemma io_marker_set_channel s r r' ch d :
  (forall m, guards (set_channel ch d s) r' m = guards s r m) ->
  (forall m, marker_inv s r m) -> forall m, marker_inv (set_channel ch d s) r' m.
Proof. intros Hg Hm m. specialize (Hm m). unfold marker_inv in *. by rewrite Hg. Qed.

Lemma io_entry_set_channel s r r' ch d :
  (forall m, guards (set_channel ch d s) r' m = guards s r m) ->
  (forall m, tally (w_removing m) r' = tally (w_removing m) r) ->
  (forall k, entry_inv s r k) -> forall k, entry_inv (set_channel ch d s) r' k.
Proof.
  intros Hg Hr He k. specialize (He k). unfold entry_inv in *. cbn.
  destruct (abort_handles (svc s) !! k); [|done]. by rewrite Hg, Hr.
Qed.

(** Tasks belong to channels, whatever these contain. *)
Lemma io_task_set_channel s r r' ch d :
  (forall i, tally (w_task i) r + tally (w_done i) (joined s) = b2z (bool_decide (i < length (channels s))%nat)) ->
  (forall i, tally (w_task i) r' = tally (w_task i) r) ->
  forall i, tally (w_task i) r' + tally (w_done i) (joined s) =
    b2z (bool_decide (i < length (<[ch := d]> (channels s)))%nat).
Proof. intros Htk Hr i. by rewrite Hr, length_insert. Qed.

Lemma io_polled_set_channel s ch d :
  Forall (poll_ok s) (polled s) -> Forall (poll_ok (set_channel ch d s)) (polled s).
Proof. intros Hp. eapply Forall_impl; [exact Hp|]. unfold poll_ok, set_channel. cbn. by rewrite length_insert. Qed.

(** A delivered future moves into the channel together with its guard. *)
Lemma io_inv_send_ok s L ch c d future m :
  channels s !! ch = Some c -> content c = None -> closed c = false ->
  content d = Some (future, m) -> pending d = false -> closed d = false ->
  Inv s (TSender ch :: TFuture m :: L) -> Inv (set_channel ch d s) L.
Proof.
  intros Hc Hcc Hco Hdc Hdp Hdo HI.
  assert (forall i, guards (set_channel ch d s) L i = guards s (TSender ch :: TFuture m :: L) i) as Hg.
  { apply io_guards_set_channel with c; [done|]. intros i. rewrite !tally_cons.
    destruct (io_channel_empty i c Hcc) as [-> _]. cbn. unfold w_channel. rewrite Hdc. lia. }
  io_inv HI. split_toks.
  assert (tally (w_sender ch) L = 0) as Hone.
  { specialize (Hch ch). unfold channel_inv in Hch. rewrite Hc in Hch. destruct Hch as (Hle & _).
    rewrite !tally_cons in Hle. cbn in Hle. rewrite io_w_guard in Hle.
    pose proof (tally_nonneg (w_sender ch) L (io_sender_nonneg ch)). lia. }
  io_fields.
  - eapply io_toks_set_channel; [done|done|by left|right; congruence].
  - unfold active in *. cbn. rewrite (tally_insert _ _ _ _ _ Hc), !tally_cons in *. cbn in *.
    destruct (io_channel_empty 0 c Hcc) as [_ ->]. rewrite (io_stored_full d _ Hdc). lia.
  - by apply io_marker_set_channel with (1 := Hg).
  - intros i. specialize (Hch i). unfold channel_inv in *. cbn. rewrite (io_channels_at s ch c) by done.
    io_norm Hch. revert Hch. unfold b2z at 1 2 4. dec.
    + subst i. rewrite Hc, Hone, Hdo, Hdp, Hco. intros (_ & Hr & _). by split_and!.
    + rewrite bool_decide_eq_false_2 by done. done.
  - apply io_entry_set_channel with (1 := Hg); [|done]. intros i. by rewrite !tally_cons.
  - apply (io_task_set_channel s _ _ _ _ Htk). intros i. by rewrite !tally_cons.
  - by apply io_polled_set_channel.
Qed.

(** A future refused because the receiver is gone stays with the sender. *)
Lemma io_inv_send_refused s L ch c d m :
  channels s !! ch = Some c -> content c = None -> closed c = true ->
  content d = None -> closed d = true ->
  Inv s (TSender ch :: TFuture m :: L) -> Inv (set_channel ch d s) (TFuture m :: L).
Proof.
  intros Hc Hcc Hco Hdc Hdo HI.
  assert (forall i, guards (set_channel ch d s) (TFuture m :: L) i
    = guards s (TSender ch :: TFuture m :: L) i) as Hg.
  { apply io_guards_set_channel with c; [done|]. intros i. rewrite !tally_cons.
    destruct (io_channel_empty i c Hcc) as [-> _], (io_channel_empty i d Hdc) as [-> _]. done. }
  io_inv HI. split_toks. io_fields.
  - constructor; [done|]. eapply io_toks_set_channel; [done|done|by right|right; congruence].
  - unfold active in *. cbn. rewrite (tally_insert _ _ _ _ _ Hc), !tally_cons in *. cbn in *.
    destruct (io_channel_empty 0 c Hcc) as [_ ->], (io_channel_empty 0 d Hdc) as [_ ->]. lia.
  - by apply io_marker_set_channel with (1 := Hg).
  - intros i. specialize (Hch i). unfold channel_inv in *. cbn. rewrite (io_channels_at s ch c) by done.
    io_norm Hch. revert Hch. unfold b2z at 1 2 4. dec.
    + subst i. rewrite Hc, Hdo, Hco, Hdc. rewrite bool_decide_eq_true_2 by done.
      intros (? & Hr & _). split_and!; [lia|done|done|done].
    + rewrite bool_decide_eq_false_2 by done. done.
  - apply io_entry_set_channel with (1 := Hg); [|done]. intros i. by rewrite !tally_cons.
  - apply (io_task_set_channel s _ _ _ _ Htk). intros i. by rewrite !tally_cons.
  - by apply io_polled_set_channel.
Qed.

(** Taking the content, by receiving or by dropping the receiver. *)
Definition io_received (got : option (Fut * nat)) : list itok :=
  match got with Some (_, m) => [TFuture m] | None => [] end.

Lemma io_inv_take s L ch c d :
  channels s !! ch = Some c -> closed c = false -> content d = None -> closed d = true ->
  Inv s (TReceiver ch :: L) -> Inv (set_channel ch d s) (TTask ch None :: io_received (content c) ++ L).
Proof.
  intros Hc Hco Hdc Hdo HI.
  assert (forall i, guards (set_channel ch d s) (TTask ch None :: io_received (content c) ++ L) i
    = guards s (TReceiver ch :: L) i) as Hg.
  { apply io_guards_set_channel with c; [done|]. intros i.
    destruct (io_channel_empty i d Hdc) as [-> _]. unfold w_channel.
    destruct (content c) as [[future m]|]; cbn [io_received app]; rewrite !tally_cons; cbn; lia. }
  io_inv HI. split_toks.
  assert (tally (w_receiver ch) L = 0) as Hone.
  { specialize (Hch ch). unfold channel_inv in Hch. rewrite Hc, Hco in Hch. destruct Hch as (_ & Hle & _).
    rewrite !tally_cons in Hle. cbn in Hle. rewrite io_w_guard in Hle. lia. }
  assert (Forall (tok_ok (set_channel ch d s)) L) as Htok'.
  { eapply io_toks_set_channel; [done|done|by right|by left]. }
  assert (active s = tally w_active (io_received (content c) ++ L) + (tally w_stored (channels s) - w_stored c)) as Hact'.
  { rewrite Hact, !tally_cons. destruct (content c) as [[future m]|] eqn:Hcc; cbn [io_received app].
    - rewrite (io_stored_full c _ Hcc), tally_cons. cbn. lia.
    - destruct (io_channel_empty 0 c Hcc) as [_ ->]. cbn. lia. }
  assert (tally w_stored (<[ch := d]> (channels s)) = tally w_stored (channels s) - w_stored c) as Hst.
  { rewrite (tally_insert _ _ _ _ _ Hc). destruct (io_channel_empty 0 d Hdc) as [_ ->]. lia. }
  destruct (content c) as [[future m]|] eqn:Hcc; cbn [io_received app] in *; io_fields.
  all: match goal with
  | |- Forall (tok_ok _) (_ :: TFuture _ :: _) =>
      constructor; [exact (proj2 Htok)|by constructor]
  | |- Forall (tok_ok _) _ => constructor; [exact (proj2 Htok)|done]
  | |- active _ = _ => rewrite Hst, tally_cons; exact Hact'
  | |- forall m, marker_inv _ _ m => by apply io_marker_set_channel with (1 := Hg)
  | |- forall k, entry_inv _ _ k =>
      apply io_entry_set_channel with (1 := Hg); [|done]; intros i; by rewrite !tally_cons
  | |- forall ch, tally (w_task _) _ + _ = _ =>
      apply (io_task_set_channel s _ _ _ _ Htk); intros i; by rewrite !tally_cons
  | |- Forall (poll_ok _) _ => by apply io_polled_set_channel
  | _ => idtac
  end.
  all: intros i; specialize (Hch i); unfold channel_inv in *; cbn; rewrite (io_channels_at s ch c) by done.
  all: io_norm Hch; revert Hch; dec; [|unfold b2z at 1 2; by rewrite bool_decide_eq_false_2].
  all: subst i; rewrite Hc, Hco, Hone, Hdo, Hdc; intros (? & _); by split_and!.
Qed.

(** ** Proof rules *)

Lemma io_guar_set_channel s ch d : Guar s (set_channel ch d s).
Proof. by apply io_guar_locks. Qed.

Lemma iowp_send t ch future m r0 r Q :
  r ≡ₚ TSender ch :: TFuture m :: r0 ->
  (forall r', r' ≡ₚ r0 -> Q None r') ->
  (forall r', r' ≡ₚ TFuture m :: r0 -> Q (Some (future, m)) r') ->
  iowp t (do (Send ch (future, m))) r Q.
Proof.
  intros Hr HQn HQs. apply iowp_do with (h := [TSender ch; TFuture m]) (r0 := r0); [done|done|].
  intros s L HI. pose proof (inv_toks _ _ HI) as Ht. apply Forall_cons in Ht as [(c & Hc & Hcc) _].
  cbn [ioexec]. rewrite (io_channel_at _ _ _ Hc). destruct (closed c) eqn:Hco.
  - destruct (send_closed _ c (future, m) Hco Hcc) as (d & -> & ? & ? & ?).
    split; [apply io_guar_set_channel|]. exists [TFuture m].
    split_and!; [by repeat constructor|by apply io_inv_send_refused with c|apply HQs].
  - destruct (send_open _ c (future, m) Hco Hcc) as (d & -> & ? & ? & ?).
    split; [apply io_guar_set_channel|]. exists [].
    split_and!; [constructor|by eapply io_inv_send_ok|apply HQn].
Qed.

(** What the task owns when its wait ends. *)
Definition handoff_toks (ch : nat) (handoff : Handoff (Fut := Fut)) : list itok :=
  match handoff with
  | Received (_, m) | TaskDropped (Some (_, m)) => [TTask ch None; TFuture m]
  | SenderDropped | TaskDropped None => [TTask ch None]
  end.

Lemma io_inv_set_rt s r rt' : Inv s r -> Guar s (set_rt rt' s) /\ Inv (set_rt rt' s) r.
Proof. apply io_inv_same_core. by destruct s as [[]]; repeat split. Qed.

Lemma iowp_await_receiver t ch h Q :
  (forall handoff r', r' ≡ₚ handoff_toks ch handoff -> Q handoff r') ->
  iowp t (do (AwaitReceiver ch h)) [TReceiver ch] Q.
Proof.
  intros HQ. apply iowp_do with (h := [TReceiver ch]) (r0 := []); [done|done|].
  intros s L HI. pose proof (inv_toks _ _ HI) as Ht. apply Forall_cons in Ht as [[(c & Hc & Hco) _] _].
  cbn [ioexec]. rewrite (io_channel_at _ _ _ Hc). destruct (dispatch (rt s) h) as [go rt'].
  assert (forall d handoff, content d = None -> closed d = true ->
    handoff_toks ch handoff = TTask ch None :: io_received (content c) ->
    Guar s (set_rt rt' (set_channel ch d s)) /\
    exists h', Forall (own t) h' /\
      Inv (set_rt rt' (set_channel ch d s)) (h' ++ concat (pre <$> []) ++ L) /\
      forall r', r' ≡ₚ h' ++ [] -> Q handoff r') as Hfin.
  { intros d handoff Hdc Hdo Hh. pose proof (io_inv_take s L ch c d Hc Hco Hdc Hdo HI) as HI'.
    destruct (io_inv_set_rt _ _ rt' HI') as [_ HI'']. split.
    - by apply io_guar_locks.
    - exists (TTask ch None :: io_received (content c)). split_and!; [|exact HI''|].
      + destruct (content c) as [[]|]; by repeat constructor.
      + intros r'. rewrite app_nil_r, <- Hh. apply HQ. }
  destruct go; [destruct (pending c) eqn:Hp|].
  - cbn. by rewrite (io_channel_at _ _ _ Hc).
  - destruct (recv_spec _ c) as (d & -> & ? & ?). apply Hfin; [done..|].
    destruct (content c) as [[]|]; done.
  - destruct (drop_receiver_spec _ c) as (d & -> & ? & ?). apply Hfin; [done..|].
    destruct (content c) as [[]|]; done.
Qed.

(** The spawned task takes the receiver along. *)
Lemma iowp_spawn t ch r0 r Q :
  r ≡ₚ TReceiver ch :: r0 -> (forall h r', r' ≡ₚ r0 -> Q h r') -> iowp t (do (Spawn ch)) r Q.
Proof.
  intros Hr HQ. apply iowp_do with (h := [TReceiver ch]) (r0 := r0); [done|done|].
  intros s L HI. cbn. destruct (spawn (rt s)) as [h rt'].
  destruct (io_inv_set_rt _ _ rt' HI). split; [done|].
  exists []. split_and!; [constructor|done|apply HQ].
Qed.

(** The user's future is gone; its guard remains. *)
Lemma io_inv_future_gone s m L : Inv s (TFuture m :: L) -> Inv s (TGuard m :: L).
Proof. intros HI. io_inv HI. split_toks. io_fields. by io_toks. Qed.

(** A panic is one of a future's destructor. *)
Definition unwinding (panicked : bool) : Prop :=
  panicked = true -> unwinds (Machine := io_machine (Fut := Fut) (R := R) (E := E) polls).

(** The submitter drops it. *)
Lemma iowp_drop_future t future m r0 r Q :
  locks r = 0 -> r ≡ₚ TFuture m :: r0 -> 
  (forall panicked r', unwinding panicked -> r' ≡ₚ TGuard m :: r0 -> Q panicked r') ->
  iowp t (do (DropFuture None future)) r Q.
Proof.
  intros Hl Hr HQ. apply iowp_do with (h := [TFuture m]) (r0 := r0); [done| |].
  { split; [done|]. exists m. rewrite Hr. left. }
  intros s L HI. cbn. split; [by apply io_guar_locks|]. exists [TGuard m].
  split_and!; [by repeat constructor|by apply io_inv_future_gone|]. intros r'. apply HQ. intros Hp. by exists (rt s), future.
Qed.

(** A rejected future is the submitter's own. *)
Lemma iowp_drop_rejected t future Q :
  (forall panicked, unwinding panicked -> Q panicked []) ->
  iowp t (do (DropRejected future)) [] Q.
Proof.
  intros HQ. apply iowp_do with (h := []) (r0 := []); [done..|].
  intros s L HI. cbn. split; [done|]. exists []. split_and!; [constructor|exact HI|].
  intros r' ->%perm_nil_eq. apply HQ. intros Hp. by exists (rt s), future.
Qed.

(** Knowledge may be forgotten. *)
Definition droppable (tok : itok) : Prop :=
  match tok with
  | TWaiter _ _ | TAsleep _ _ | TClosed | TDone | TWatch _ | TRead _ _ | TFull _ => True
  | _ => False
  end.

Lemma io_inv_drop_all s d L : Forall droppable d -> Inv s (d ++ L) -> Inv s L.
Proof.
  intros Hd. induction Hd as [|tok d Htok Hd IH]; [done|]. intros HI. apply IH. clear IH.
  io_inv HI. split_toks. destruct tok; try done; io_fields.
  all: try by (io_norm Hful; unfold b2z in Hful; destruct (negb _), (_ <=? _); cbn [andb] in Hful; intros; lia).
  all: try by (io_norm Hful; unfold b2z in Hful; destruct (negb _); intros; lia).
  all: intros x; specialize (Hwt x); io_norm Hwt; revert Hwt; unfold b2z;
    pose proof (tally_nonneg (w_waiter x) (d ++ L) (io_waiter_nonneg x)); bd Hx; lia.
Qed.

Lemma iowp_drop {B} t (c : ioact B) d r0 r Q :
  r ≡ₚ d ++ r0 -> Forall droppable d -> ok _ t c r -> iowp t (do c) r0 Q -> iowp t (do c) r Q.
Proof.
  intros Hr Hd Hok Hwp. eapply wp_forget;
    [exact _|intros s L; by apply (io_inv_drop_all s d)|exact Hr|exact Hok|exact Hwp].
Qed.

(** ** Capacity changes *)

Definition owed_toks (owed : bool) : list itok := if owed then [TCapacity] else [].

(** Publishing a change reaches every subscriber. *)
Lemma io_changed_send s f r :
  Forall (tok_ok s) r ->
  tally (w_unchanged (send_modify f (capacity_tx (svc s))) (task_capacity (svc s))) r = 0.
Proof.
  induction 1 as [|tok r Htok _ IH]; [done|]. rewrite tally_cons, IH.
  destruct tok; try done; cbn in *; (destruct Htok as [Hch|<-];
    [rewrite has_changed_stays by done|rewrite has_changed_send]);
    rewrite ?andb_false_r; done.
Qed.

Lemma iowp_send_modify t f owed r0 r Q :
  locks r = 0 -> r ≡ₚ owed_toks owed ++ r0 -> (forall r', r' ≡ₚ r0 -> Q () r') ->
  iowp t (do (SendModify f)) r Q.
Proof.
  intros Hl Hr HQ. apply iowp_do with (h := owed_toks owed) (r0 := r0); [done|done|].
  intros s L HI. cbn. split; [by apply io_guar_locks|]. exists []. split_and!; [constructor| |apply HQ].
  assert (Inv s (owed_toks owed ++ L) -> Forall (tok_ok s) L) as Hrest.
  { intros [Ht _]. by apply Forall_app in Ht as [_ Ht]. }
  specialize (Hrest HI). pose proof (io_changed_send s f L Hrest) as Hz.
  destruct owed; cbn [owed_toks app] in *; io_inv HI; split_toks; io_fields.
  all: io_toks; (intros [Hc|Hc]; left; [by apply has_changed_stays|subst; apply has_changed_send]).
Qed.

Lemma iowp_subscribe t r Q :
  (forall rx r', r' ≡ₚ TWatch rx :: r -> Q rx r') -> iowp t (do Subscribe) r Q.
Proof.
  intros HQ. apply iowp_do with (h := []) (r0 := r); [done|done|].
  intros s L HI. cbn. split; [done|]. exists [TWatch (subscribe (capacity_tx (svc s)))].
  split_and!; [by repeat constructor| |apply HQ].
  io_inv HI. io_fields. io_toks. by right.
Qed.

Lemma iowp_await_changed t rx Q :
  (forall rx', Q rx' [TWatch rx']) -> iowp t (do (AwaitChanged rx)) [TFull rx] Q.
Proof.
  intros HQ. apply iowp_do with (h := [TFull rx]) (r0 := []); [done|done|].
  intros s L HI. cbn. destruct (has_changed _ rx) eqn:Hc; [|done]. split; [done|].
  exists [TWatch (subscribe (capacity_tx (svc s)))].
  split_and!; [by repeat constructor| |intros r' ->%Permutation_singleton_r; apply HQ].
  io_inv HI. split_toks. io_fields.
  - io_toks. by right.
  - io_norm Hful. rewrite Hc in Hful. exact Hful.
Qed.

Lemma iowp_report t rep r Q :
  report_ok rep -> (forall r', r' ≡ₚ r -> Q () r') -> iowp t (do (Report rep)) r Q.
Proof.
  intros Hok HQ. apply iowp_do with (h := []) (r0 := r); [done|done|].
  intros s L HI. cbn. split; [by apply io_guar_locks|]. exists [].
  split_and!; [constructor| |apply HQ]. io_inv HI. io_fields. by constructor.
Qed.
End IoChannels.
