(* ===== verification/IoJoins.v ===== *)
(** * Proof rules for futures and join handles

    Every poll of a user's future and everything a join handle resolves to is
    recorded; a task knows how its future ended ([TTask]), and completes its join
    handle accordingly. *)

From S2P Require Import Prelude Conc External LifecycleBits ServiceSpec Registration IoState IoService IoInv IoActions IoObjects IoChannels.
From stdpp Require Import prelude list gmap.
#[local] Open Scope Z_scope.

Section IoJoins.
Context `{!BuildProfile, !LifecycleRepr, !Allocator, !Tokio, !Oneshot, !WaiterSet, !Watch, !AtomicCount}.
Context {Fut R E : Type} `{!UserFuture Fut R E}.
Context (polls : nat).
#[local] Abbreviation IoWorld := (IoWorld (Fut := Fut) (R := R) (E := E)).
#[local] Abbreviation ioact := (ioact (Fut := Fut) (R := R) (E := E)).
#[local] Abbreviation itok := (itok (Fut := Fut) (R := R) (E := E)).
#[local] Abbreviation iowp := (wp (act := ioact) (M := io_machine polls) Inv Guar ok own blk pre).
Implicit Types (s : IoWorld) (r L : list itok).

(** ** What is recorded about one task *)

Lemma polls_of_cons ch i p l s :
  polls_of ch (set_polled ((i, p) :: l) s) =
  (if decide (i = ch) then [p] else []) ++ polls_of ch (set_polled l s).
Proof. unfold polls_of. cbn [polled set_polled]. rewrite filter_cons. cbn [fst]. by destruct (decide (i = ch)). Qed.

Lemma joined_of_cons ch block j l s :
  joined_of ch (set_joined ((block, j) :: l) s) =
  (if decide (ab_channel block = ch) then [j] else []) ++ joined_of ch (set_joined l s).
Proof. unfold joined_of. cbn [joined set_joined]. rewrite filter_cons. cbn [fst]. by destruct (decide (ab_channel block = ch)). Qed.

Lemma done_length ch s : tally (w_done ch) (joined s) = Z.of_nat (length (joined_of ch s)).
Proof.
  unfold joined_of. rewrite length_fmap. induction (joined s) as [|x l IH]; [done|].
  rewrite tally_cons, filter_cons, IH. unfold w_done, b2z. bd Hx; destruct (decide _); try done.
  rewrite length_cons. lia.
Qed.

Lemma w_done_nonneg ch (x : AsyncBlock * JoinResult R E) : 0 <= w_done ch x.
Proof. unfold w_done, b2z. by case_bool_decide. Qed.

(** A running task is the only one of its channel, and has not completed. *)
Lemma task_alone s ch last L :
  Inv s (TTask ch last :: L) ->
  Forall (fun tok => w_task ch tok = 0) L /\
  Forall (fun x => ab_channel (fst x) <> ch) (joined s) /\ (ch < length (channels s))%nat.
Proof.
  intros HI. pose proof (inv_task _ _ HI ch) as Ht. rewrite tally_cons in Ht. cbn in Ht.
  rewrite bool_decide_eq_true_2 in Ht by done. cbn in Ht.
  pose proof (tally_nonneg (w_task ch) L (io_task_nonneg ch)).
  pose proof (tally_nonneg (w_done ch) (joined s) (w_done_nonneg ch)).
  assert (ch < length (channels s))%nat as Hlt.
  { destruct (decide (ch < length (channels s))%nat) as [|Hn]; [done|].
    rewrite bool_decide_eq_false_2 in Ht by done. cbn in Ht. lia. }
  rewrite bool_decide_eq_true_2 in Ht by done. cbn in Ht. split_and!; [|..|done].
  - apply tally_zero_Forall; [apply io_task_nonneg|lia].
  - eapply Forall_impl; [apply (tally_zero_Forall (w_done ch)); [apply w_done_nonneg|lia]|].
    intros x Hx He. unfold w_done in Hx. by rewrite bool_decide_eq_true_2 in Hx.
Qed.

(** ** What happens to the future *)

Definition ended_with (p : UserPoll Fut R E) : option (UserEvent Fut R E) :=
  match p with UPending _ => None | _ => Some (Polled p) end.
Definition ended_after_drop (panicked : bool) (last : option (UserEvent Fut R E)) : option (UserEvent Fut R E) :=
  if panicked then Some DropPanicked else last.

Lemma ended_poll p l : ended l None -> ended (Polled p :: l) (ended_with p).
Proof. intros Hl. destruct p; cbn in *; [by constructor|by exists l; auto..]. Qed.

Lemma ended_drop (last : option (UserEvent Fut R E)) l :
  last <> Some DropPanicked -> ended l last -> ended (DropPanicked :: l) (Some DropPanicked).
Proof.
  intros Hne Hl. exists l. split; [done|]. destruct last as [[p|]|]; [|done|].
  - by destruct Hl as (rest & -> & _ & ?).
  - destruct l; [done|]. by apply Forall_cons in Hl as [].
Qed.

(** The result of a task, from how its future ended. *)
Definition amounts_to (last : option (UserEvent Fut R E)) : TaskResult R E :=
  match last with
  | Some (Polled (UReady output)) => completed (Some output)
  | Some (Polled UPanicked) | Some DropPanicked => completed None
  | _ => inr TaskExecutionError.Cancelled
  end.

Lemma explained_ended (last : option (UserEvent Fut R E)) l :
  ended l last ->
  explained l (amounts_to last).
Proof.
  destruct last as [[p|]|]; cbn.
  - intros (rest & -> & Hp & Hrest). by destruct p.
  - by intros (rest & -> & Hrest).
  - intros Hl. destruct l as [|[[]|] l]; [done|done|by apply Forall_cons in Hl as []..].
Qed.

(** A task records what it saw of its future. *)
Lemma inv_event s ch e last last' L :
  let s' := set_polled ((ch, e) :: polled s) s in
  (forall l, ended l last -> ended (e :: l) last') -> Inv s (TTask ch last :: L) ->
  Guar s s' /\ Inv s' (TTask ch last' :: L).
Proof.
  intros s' He HI. destruct (task_alone _ _ _ _ HI) as (Hno & Hnj & Hlt).
  assert (forall i, i <> ch -> polls_of i s' = polls_of i s) as Hother.
  { intros i Hne. unfold s'. rewrite polls_of_cons, decide_False by done. by destruct s. }
  assert (polls_of ch s' = e :: polls_of ch s) as Hself.
  { unfold s'. rewrite polls_of_cons, decide_True by done. by destruct s. }
  split; [by apply io_guar_locks|]. io_inv HI. split_toks. unfold s'. io_fields.
  all: fold s'.
  - constructor; [cbn [tok_ok]; rewrite Hself; by apply He|]. io_toks_excl Hno; try done.
    all: match goal with
    | H : b2z (bool_decide (?i = _)) = 0 |- _ =>
        assert (i <> ch) as Hne by (intros ->; by rewrite bool_decide_eq_true_2 in H)
    end.
    + by rewrite Hother.
    + by rewrite Hother.
  - pose proof (conj Hjn Hnj) as Hb. rewrite <- Forall_and in Hb. eapply Forall_impl; [exact Hb|].
    intros x [Hx Hne]. unfold join_ok in *. by rewrite Hother.
  - by constructor.
Qed.

Lemma iowp_poll_user t block future m r0 r Q :
  locks r = 0 -> r ≡ₚ TTask (ab_channel block) None :: TFuture m :: r0 ->
  (forall p r', r' ≡ₚ TTask (ab_channel block) (ended_with p) :: TFuture m :: r0 -> Q p r') ->
  iowp t (do (PollUser block future)) r Q.
Proof.
  intros Hl Hr HQ. apply iowp_do with (h := [TTask (ab_channel block) None]) (r0 := TFuture m :: r0); [done| |].
  { split; [done|]. exists m. rewrite Hr. right. left. }
  intros s L HI. cbn [ioexec]. destruct (poll_user (rt s) future) as [p rt'].
  destruct (io_inv_set_rt _ _ rt' HI) as [_ HI1].
  destruct (inv_event (set_rt rt' s) (ab_channel block) (Polled p) None (ended_with p) L
    (ended_poll p) HI1) as [_ HI2].
  split; [by apply io_guar_locks|]. exists [TTask (ab_channel block) (ended_with p)].
  split_and!; [by repeat constructor|exact HI2|apply HQ].
Qed.

(** The task drops its future, once. *)
Lemma iowp_drop_own_future t block future last m r0 r Q :
  locks r = 0 -> last <> Some DropPanicked -> r ≡ₚ TTask (ab_channel block) last :: TFuture m :: r0 ->
  (forall panicked r',
    r' ≡ₚ TTask (ab_channel block) (ended_after_drop panicked last) :: TGuard m :: r0 -> Q panicked r') ->
  iowp t (do (DropFuture (Some block) future)) r Q.
Proof.
  intros Hl Hne Hr HQ. apply iowp_do with (h := [TTask (ab_channel block) last; TFuture m]) (r0 := r0); [done| |].
  { split; [done|]. exists m. rewrite Hr. right. left. }
  intros s L HI. cbn [ioexec]. set (panicked := future_drop_panics (rt s) future).
  assert (forall s' last', Inv s' (TTask (ab_channel block) last' :: TFuture m :: L) ->
    Inv s' ([TTask (ab_channel block) last'; TGuard m] ++ L)) as Hgone.
  { intros s' last' HI'. assert (Inv s' (TGuard m :: TTask (ab_channel block) last' :: L)) as HI1
      by (apply io_inv_future_gone; by rewrite Permutation_swap).
    cbn. by rewrite Permutation_swap. }
  assert (Guar s (if panicked then set_polled ((ab_channel block, DropPanicked) :: polled s) s else s) /\
    Inv (if panicked then set_polled ((ab_channel block, DropPanicked) :: polled s) s else s)
      (TTask (ab_channel block) (ended_after_drop panicked last) :: TFuture m :: L)) as [HG HI'].
  { destruct panicked; [|by split]. apply inv_event with last; [|done]. intros l. by apply ended_drop. }
  split; [exact HG|]. exists [TTask (ab_channel block) (ended_after_drop panicked last); TGuard m].
  split_and!; [by repeat constructor|by apply Hgone|apply HQ].
Qed.

(** ** Completion and the join handle *)

(** What the block of a task may complete its join handle with. *)
Definition completes (last : option (UserEvent Fut R E)) (j : JoinResult R E) : Prop :=
  join_result j = amounts_to last.

Lemma completes_after_drop last j panicked :
  completes last j -> completes (ended_after_drop panicked last) (if panicked then inr (mkJoinError false) else j).
Proof. by destruct panicked. Qed.

(** Completing a task consumes its token. *)
Lemma iowp_complete t block last j r0 r Q :
  completes last j -> r ≡ₚ TTask (ab_channel block) last :: r0 -> (forall r', r' ≡ₚ r0 -> Q () r') ->
  iowp t (do (Complete block j)) r Q.
Proof.
  intros Hj Hr HQ. apply iowp_do with (h := [TTask (ab_channel block) last]) (r0 := r0); [done|done|].
  intros s L HI. cbn. split; [split; [by left|done|done|by apply suffix_cons_r]|]. exists [].
  split_and!; [constructor| |apply HQ]. io_inv HI. split_toks. io_fields.
  - intros x. specialize (Htk x). rewrite !tally_cons in *. cbn in Htk. unfold w_done at 1. cbn. lia.
  - constructor; [|exact Hjn]. unfold join_ok. cbn [fst snd]. rewrite Hj. by apply explained_ended.
Qed.

(** Waiting for a join handle. *)
Lemma iowp_await_join t block Q :
  (forall result, Q result []) -> iowp t (do (AwaitJoin block poll_task_handle)) [] Q.
Proof.
  intros HQ. apply iowp_do with (h := []) (r0 := []); [done|done|].
  intros s L HI. cbn [ioexec blk]. destruct (poll_task_handle (join_poll s block)) as [result|] eqn:Hp; [|done].
  split; [done|]. exists []. split_and!; [constructor|exact HI|intros r' ->%perm_nil_eq; apply HQ].
Qed.
End IoJoins.
