(* ===== verification/IoSpecs.v ===== *)
(** * Specifications of the IO service's methods

    Each method is proved against the rules of its atomic actions; the last
    section collects the public operations and shows that every pool of clients
    using them is a good configuration. *)

From S2P Require Import Prelude Conc External LifecycleBits RejectedTask Registration IoState IoService IoInv IoActions IoObjects IoChannels IoJoins.
From stdpp Require Import prelude list gmap.
#[local] Open Scope Z_scope.

#[export] Instance io_locks_perm `{!Watch} {Fut R E : Type} :
  Proper ((≡ₚ) ==> (=)) (locks (Fut := Fut) (R := R) (E := E)).
Proof. intros r r' Hr. unfold locks. by rewrite Hr. Qed.

Lemma io_no_locks `{!Watch} {Fut R E : Type} (r : list (itok (Fut := Fut) (R := R) (E := E))) : locks r = 0 -> tally w_sub r = 0 /\ tally w_abl r = 0.
Proof.
  unfold locks. pose proof (tally_nonneg w_sub r io_sub_nonneg).
  pose proof (tally_nonneg w_abl r io_abl_nonneg). lia.
Qed.

(** Lock counts of a token list known up to order. *)
Ltac io_lk :=
  repeat match goal with
  | H : ?r ≡ₚ _ |- context [?r] => is_var r; rewrite H
  | H : ?r ≡ₚ _, H' : context [locks ?r] |- _ => is_var r; rewrite H in H'
  end;
  unfold locks in *; cbn [app] in *; rewrite ?tally_cons in *; cbn [w_sub w_abl] in *; try lia; try done.

Section IoSpecs.
Context `{!BuildProfile, !LifecycleRepr, !Allocator, !Tokio, !Oneshot, !WaiterSet, !Watch, !AtomicCount}.
Context {Fut R E : Type} `{!UserFuture Fut R E}.
Context (polls : nat).
#[local] Abbreviation IoWorld := (IoWorld (Fut := Fut) (R := R) (E := E)).
#[local] Abbreviation ioact := (ioact (Fut := Fut) (R := R) (E := E)).
#[local] Abbreviation iowp := (wp (act := ioact) (M := io_machine polls) Inv Guar ok own blk pre).
#[local] Abbreviation itok := (itok (Fut := Fut) (R := R) (E := E)).
Implicit Types (s : IoWorld) (r L : list itok).

(** ** Notifications, the abort-handle map and guards *)

Lemma io_notify_capacity_changed_spec t owed r0 r Q :
  locks r = 0 -> r ≡ₚ owed_toks owed ++ r0 -> (forall r', r' ≡ₚ r0 -> Q () r') ->
  iowp t notify_capacity_changed r Q.
Proof. apply iowp_send_modify. Qed.

Lemma io_remove_abort_handle_spec t m r0 r Q :
  tally w_abl r = 0 -> r ≡ₚ TGuard m :: r0 -> (forall r', r' ≡ₚ TGone m :: r0 -> Q () r') ->
  iowp t (remove_abort_handle m) r Q.
Proof.
  intros Hl Hr HQ. apply wp_bind, (iowp_store_finished polls t m r0); [done|]. intros r1 Hr1.
  apply wp_bind, iowp_lock_aborts.
  { rewrite Hr in Hl. by rewrite Hr1. }
  intros r2 Hr2. apply wp_bind, (iowp_remove_abort polls t m r0); [rewrite Hr2, Hr1; apply Permutation_swap|].
  intros r3 Hr3. apply (iowp_unlock_aborts polls t m (TAborts t) (TGone m :: r0));
    [by left|rewrite Hr3; apply Permutation_swap|done].
Qed.

(** The guard's destructor releases everything it stands for. *)
Lemma io_guard_drop_spec t m r0 r Q :
  locks r = 0 -> r ≡ₚ TGuard m :: r0 -> (forall r', r' ≡ₚ r0 -> Q () r') ->
  iowp t (guard_drop m) r Q.
Proof.
  intros Hl Hr HQ. assert (locks r0 = 0) as Hl0 by (rewrite Hr in Hl; exact Hl).
  apply io_no_locks in Hl as [_ Ha].
  apply wp_bind, (io_remove_abort_handle_spec t m r0); [done|done|]. intros r1 Hr1.
  apply wp_bind, (iowp_dec_active polls t m r0); [done|]. intros r2 Hr2.
  apply wp_bind, (io_notify_capacity_changed_spec t true (TNotify :: r0)); [by rewrite Hr2|done|].
  intros r3 Hr3. apply (iowp_notify_waiters polls t TNotify r0); [by rewrite Hr3|by left|done|done].
Qed.

Lemma io_guarded_drop_spec t payload r Q :
  r ≡ₚ [TFuture (snd payload)] -> (forall panicked, unwinding polls panicked -> Q panicked []) -> iowp t (guarded_drop None payload) r Q.
Proof.
  intros Hr HQ. apply wp_bind, (iowp_drop_future polls t _ (snd payload) []); [by rewrite Hr|done|].
  intros panicked r1 Hu Hr1. apply wp_bind, (io_guard_drop_spec t (snd payload) []); [by rewrite Hr1|done|].
  intros r2 ->%perm_nil_eq. by apply HQ.
Qed.

(** A panic may leave only a function that owes nothing any more. *)
Lemma io_resume_unwind_spec t panicked Q : unwinding polls panicked -> Q () [] -> iowp t (resume_unwind panicked) [] Q.
Proof. destruct panicked; [|done]. intros Hu _. split; [done|by apply Hu]. Qed.

Lemma io_drop_future_spec t future Q : Q () [] -> iowp t (drop_future future) [] Q.
Proof.
  intros HQ. apply wp_bind, iowp_drop_rejected. intros panicked Hu. by apply io_resume_unwind_spec.
Qed.

(** ** The spawned task *)

Lemma io_complete_spec t block last j r :
  completes last j -> r ≡ₚ [TTask (ab_channel block) last] ->
  iowp t (do (Complete block j)) r fin_post.
Proof.
  intros Hj Hr. apply (iowp_complete polls t block last j []); [done..|]. by intros r1 ->%perm_nil_eq.
Qed.

Lemma io_end_task_spec t block payload last j r :
  completes last j -> last <> Some DropPanicked ->
  r ≡ₚ [TTask (ab_channel block) last; TFuture (snd payload)] -> iowp t (end_task block payload j) r fin_post.
Proof.
  intros Hj Hne Hr.
  apply wp_bind, wp_bind, (iowp_drop_own_future polls t block _ last (snd payload) []);
    [by rewrite Hr|done|done|]. intros panicked r1 Hr1.
  apply wp_bind, (io_guard_drop_spec t (snd payload) [TTask (ab_channel block) (ended_after_drop panicked last)]);
    [by rewrite Hr1|rewrite Hr1; apply Permutation_swap|]. intros r2 Hr2.
  by eapply io_complete_spec; [apply completes_after_drop|].
Qed.

Lemma io_poll_loop_spec t n block m : forall future r,
  r ≡ₚ [TTask (ab_channel block) None; TFuture m] -> iowp t (poll_loop n block future m) r fin_post.
Proof.
  induction n as [|n IH]; intros future r Hr; cbn [poll_loop]; [by apply (io_end_task_spec t _ _ None)|].
  apply wp_bind, iowp_quiet; [exact I..|]. intros [] r1 Hr1; rewrite Hr in Hr1.
  2:{ by apply (io_end_task_spec t _ _ None). }
  apply wp_bind, (iowp_poll_user polls t block future m []); [by rewrite Hr1|done|].
  intros p r2 Hr2. destruct p as [rest|result|]; [by apply IH|..].
  - apply (io_end_task_spec t _ _ (Some (Polled (UReady result)))); [by destruct result|done..].
  - by apply (io_end_task_spec t _ _ (Some (Polled UPanicked))).
Qed.

Lemma io_async_block_spec (f : AsyncBlock) t :
  Forall (own t) (pre f : list itok) /\ iowp t (async_block polls f) (pre f) fin_post.
Proof.
  split; [by repeat constructor|]. apply wp_bind, iowp_await_receiver.
  intros [[future m]| |[[future m]|]] r Hr; cbn [handoff_toks] in Hr.
  - by apply io_poll_loop_spec.
  - by apply (io_complete_spec t _ None).
  - by apply (io_end_task_spec t _ _ None).
  - by apply (io_complete_spec t _ None).
Qed.

(** ** Submission *)

Lemma io_try_accept_task_spec t o r Q :
  r ≡ₚ TAdmit t :: watch_toks o ->
  (forall r', r' ≡ₚ TAdmit t :: full_toks o -> Q false r') ->
  (forall r', r' ≡ₚ TReserved :: TAdmit t :: watch_toks o -> Q true r') ->
  iowp t try_accept_task r Q.
Proof.
  intros Hr HQf HQt. apply wp_bind, (iowp_get_admission polls t o []); [by rewrite app_nil_r|]. intros n r1 Hr1.
  apply wp_bind, (iowp_read_admission polls t o n []); [done|]. intros capacity r2 Hr2.
  rewrite app_nil_r in Hr2. destruct (capacity <=? n); [by apply HQf|].
  by apply wp_bind, (iowp_inc_active polls t (watch_toks o)).
Qed.

(** Registration happens under the map's lock and while the submitter still
    has the future, so the assertion on the map cannot fail. *)
Lemma io_register_abort_handle_spec t m h r0 r Q :
  tally w_abl r = 0 -> r ≡ₚ TUnreg m :: TFuture m :: r0 ->
  (forall r', r' ≡ₚ TFuture m :: r0 -> Q () r') ->
  iowp t (register_abort_handle m h) r Q.
Proof.
  intros Hl Hr HQ. apply wp_bind, iowp_lock_aborts; [done|]. intros r1 Hr1.
  apply wp_bind, (iowp_load_finished polls t m (TFuture m :: r0)); [by rewrite Hr1, Hr|].
  intros [] r2 Hr2; cbn [negb].
  { apply (iowp_unlock_aborts polls t m (TAborts t) (TFuture m :: r0)); [by left|done|done]. }
  apply wp_bind, iowp_quiet; [exact I..|]. intros [] r3 Hr3; cbn [negb].
  { apply (iowp_unlock_aborts polls t m (TRegistering t m) (TFuture m :: r0)); [by right|by rewrite Hr3|done]. }
  apply wp_bind, (iowp_insert_abort polls t m h r0); [by rewrite Hr3|]. intros r4 Hr4.
  apply wp_bind, iowp_quiet; [exact I..|]. intros [] r5 Hr5.
  apply (iowp_unlock_aborts polls t m (TAborts t) (TFuture m :: r0)); [by left|by rewrite Hr5|done].
Qed.

(** A submitter that subscribed before knows, when it is told that the service
    is saturated, that a later change will be published. *)
Lemma io_prepare_spawn_spec t o future Q :
  Q (inr (Shutdown, future)) [] -> (forall r', r' ≡ₚ full_toks o -> Q (inr (Saturated, future)) r') ->
  (forall h ch m r', r' ≡ₚ [TSender ch; TFuture m] -> Q (inl (mkHandoff future h ch m)) r') ->
  iowp t (prepare_spawn future) (watch_toks o) Q.
Proof.
  intros HQc HQs HQa. assert (Forall droppable (watch_toks o : list itok)) as Hd by (destruct o; repeat constructor).
  apply wp_bind, iowp_lock_submission; [destruct o; repeat constructor|]. intros r1 Hr1.
  apply wp_bind, wp_bind, (iowp_load_admission polls t (watch_toks o)); [done|]. intros byte r2 Hbyte Hr2. cbn [wp].
  destruct (Z.eqb_spec byte 0) as [->|Hne].
  2:{ rewrite bool_decide_eq_false_2 by (by rewrite stored_Running). cbn [negb].
      apply wp_bind, (iowp_drop polls t _ (watch_toks o) [TSub t]);
        [by rewrite Hr2, <- Permutation_cons_append|done|done|].
      apply (iowp_unlock_submission polls t (TSub t) []); [by left|done|].
      by intros r3 ->%perm_nil_eq. }
  rewrite bool_decide_eq_true_2 by (by rewrite stored_Running). cbn [negb].
  apply wp_bind, (io_try_accept_task_spec t o); [done|..]; intros r3 Hr3; cbn [negb].
  - by apply wp_bind, (iowp_unlock_submission polls t (TAdmit t) (full_toks o)); [right|..].
  - apply wp_bind, (iowp_drop polls t _ (watch_toks o) [TReserved; TAdmit t]);
      [rewrite Hr3; exact (Permutation_app_comm [TReserved; TAdmit t] (watch_toks o))|done|done|].
    apply (iowp_new_registration polls t []); [done|]. intros m r4 Hr4.
    apply wp_bind, iowp_new_channel. intros ch r5 Hr5. rewrite Hr4 in Hr5.
    apply wp_bind, (iowp_spawn polls t ch [TSender ch; TFuture m; TUnreg m; TAdmit t]); [done|].
    intros h r6 Hr6. apply wp_bind, (io_register_abort_handle_spec t m (ab_handle h) [TSender ch; TAdmit t]).
    { by rewrite Hr6. }
    { rewrite Hr6. solve_perm. }
    intros r7 Hr7. apply wp_bind, (iowp_unlock_submission polls t (TAdmit t) [TSender ch; TFuture m]);
      [by right|rewrite Hr7; solve_perm|]. intros r8 Hr8. by apply HQa.
Qed.

Lemma io_deliver_spec t future h ch m r Q :
  r ≡ₚ [TSender ch; TFuture m] -> (forall a, Q a []) ->
  iowp t (deliver (mkHandoff future h ch m)) r Q.
Proof.
  intros Hr HQ. apply wp_bind, (iowp_send polls t ch future m []); [done|..]; intros r1 Hr1.
  - apply perm_nil_eq in Hr1 as ->. apply HQ.
  - apply wp_bind, wp_bind, (io_guarded_drop_spec t (future, m)); [by rewrite Hr1|].
    intros panicked Hu. apply io_resume_unwind_spec; [done|apply HQ].
Qed.

(** What a submission leaves to a caller that subscribed to capacity changes. *)
Lemma io_try_spawn_admits t o future Q :
  (forall a, Q (inl a) []) -> Q (inr (RejectedTask.new Shutdown future)) [] ->
  (forall r', r' ≡ₚ full_toks o -> Q (inr (RejectedTask.new Saturated future)) r') ->
  iowp t (try_spawn future) (watch_toks o) Q.
Proof.
  intros HQ HQc HQs. apply wp_bind, (io_prepare_spawn_spec t o); [exact HQc|exact HQs|].
  intros h ch m r Hr. apply wp_bind, io_deliver_spec; [done|]. intros a. apply HQ.
Qed.

Lemma io_try_spawn_spec t future Q : (forall a, Q a []) -> iowp t (try_spawn future) [] Q.
Proof. intros HQ. apply (io_try_spawn_admits t None); [done..|]. by intros r' ->%perm_nil_eq. Qed.

(** Dropping the receiver forgets the subscription. *)
Lemma io_drop_changes_spec t rx r Q :
  Forall droppable r -> Q () [] -> iowp t (do (DropChanges rx)) r Q.
Proof.
  intros Hd HQ. apply (iowp_drop polls t _ r []); [by rewrite app_nil_r|done|done|].
  apply iowp_quiet; [done..|]. by intros [] r' ->%perm_nil_eq.
Qed.

Lemma io_retry_spec t attempts future Q :
  (forall a, Q a []) -> forall rx, iowp t (retry attempts rx future) [TWatch rx] Q.
Proof.
  intros HQ. induction attempts as [|attempts IH]; intros rx; cbn [retry].
  { apply wp_bind, io_drop_changes_spec; [by repeat constructor|]. apply wp_bind, io_drop_future_spec, HQ. }
  apply wp_bind, (io_try_spawn_admits t (Some rx) future).
  - intros a. apply wp_bind, io_drop_changes_spec; [done|]. apply HQ.
  - apply (wp_bind _ _ _ _ _ _ t (do (DropChanges rx))), io_drop_changes_spec; [done|].
    apply wp_bind, io_drop_future_spec, HQ.
  - intros r ->%Permutation_singleton_r. apply wp_bind, iowp_await_changed. exact IH.
Qed.

Lemma io_spawn_when_admissible_spec t attempts future Q :
  (forall a, Q a []) -> iowp t (spawn_when_admissible attempts future) [] Q.
Proof.
  intros HQ. apply wp_bind, iowp_subscribe. intros rx r ->%Permutation_singleton_r. by apply io_retry_spec.
Qed.

(** ** Shutdown and stop *)

Lemma io_service_shutdown_spec t Q : (forall a, Q a []) -> iowp t service_shutdown [] Q.
Proof.
  intros HQ. apply wp_bind, iowp_lock_submission; [done|]. intros r1 Hr1.
  apply wp_bind, (iowp_shutdown polls t []); [done|]. intros r2 Hr2.
  apply wp_bind, (iowp_unlock_submission polls t (TSub t) [TShutting]); [by left|rewrite Hr2; solve_perm|].
  intros r3 Hr3. apply wp_bind, (io_notify_capacity_changed_spec t false [TShutting]); [by rewrite Hr3|done|]. intros r4 Hr4.
  apply (iowp_notify_waiters polls t TShutting []); [by rewrite Hr4|by right|done|].
  intros r5 ->%perm_nil_eq. apply HQ.
Qed.

(** The number of aborted tasks is at most the number of handles taken. *)
Lemma io_abort_all_spec t handles : forall n r Q,
  locks r = 0 -> 0 <= n ->
  (forall n' r', 0 <= n' <= n + Z.of_nat (length handles) -> r' ≡ₚ r -> Q n' r') ->
  iowp t (abort_all n handles) r Q.
Proof.
  induction handles as [|[k tracked] rest IH]; intros n r Q Hl Hn HQ; cbn [abort_all].
  { apply HQ; [cbn; lia|done]. }
  cbn [length] in HQ. apply wp_bind, iowp_quiet; [exact I..|]. intros [] r1 Hr1; cbn [negb].
  { apply IH; [by rewrite Hr1|done|]. intros n' r' Hn' Hr'. apply HQ; [lia|by rewrite Hr']. }
  apply wp_bind, iowp_quiet; [exact I|cbn; by rewrite Hr1|]. intros [] r2 Hr2. rewrite Hr1 in Hr2.
  apply IH; [by rewrite Hr2|lia|]. intros n' r' Hn' Hr'. apply HQ; [lia|by rewrite Hr'].
Qed.

Lemma io_service_stop_spec t Q :
  (forall report, report_ok report -> Q report []) -> iowp t service_stop [] Q.
Proof.
  intros HQ. apply wp_bind, iowp_lock_submission; [done|]. intros r1 Hr1.
  apply wp_bind, (iowp_stop polls t []); [done|]. intros r2 Hr2.
  apply wp_bind, (iowp_get_snapshot polls t [TSub t]); [done|]. intros n r3 Hr3.
  apply wp_bind, (iowp_unlock_submission polls t (TSub t) [TSnap n; TShutting]);
    [by left|rewrite Hr3; solve_perm|].
  intros r4 Hr4. apply wp_bind, wp_bind, iowp_lock_aborts; [by rewrite Hr4|]. intros r5 Hr5.
  rewrite Hr4 in Hr5. apply wp_bind, (iowp_take_aborts polls t n [TAborts t; TShutting]);
    [rewrite Hr5; solve_perm|].
  intros handles r6 Hlen Hr6. apply wp_bind, (iowp_unlock_aborts polls t 0 (TAborts t) [TShutting]);
    [by left|done|]. intros r7 Hr7.
  apply io_abort_all_spec; [by rewrite Hr7|done|]. intros c r8 Hc Hr8. rewrite Hr7 in Hr8.
  apply wp_bind, (io_notify_capacity_changed_spec t false [TShutting]); [by rewrite Hr8|done|]. intros r9 Hr9.
  apply wp_bind, (iowp_notify_waiters polls t TShutting []); [by rewrite Hr9|by right|done|].
  intros r10 ->%perm_nil_eq. apply HQ. split; [done|]. cbn. lia.
Qed.

(** [stop] followed by handing its report to the caller. *)
Definition stop_and_report : Prog ioact StopReport :=
  (let! report := service_stop in do (Report report) ;; Ret report)%exec.

Lemma io_stop_and_report_spec t Q : (forall a, Q a []) -> iowp t stop_and_report [] Q.
Proof.
  intros HQ. apply wp_bind, io_service_stop_spec. intros report Hrep.
  apply wp_bind, iowp_report; [done|]. intros r ->%perm_nil_eq. apply HQ.
Qed.

(** ** Queries and waiting *)

Lemma io_quiet_spec {B} t (c : ioact B) Q :
  neutral c -> ok _ t c [] -> (forall a, Q a []) -> iowp t (do c) [] Q.
Proof. intros Hn Hok HQ. apply iowp_quiet; [done|done|]. intros b r ->%perm_nil_eq. apply HQ. Qed.

Lemma io_lifecycle_spec t Q : (forall a, Q a []) -> iowp t lifecycle [] Q.
Proof.
  intros HQ. apply wp_bind, io_quiet_spec; [done..|]. intros byte.
  destruct (negb _); [|apply HQ]. apply wp_bind, io_quiet_spec; [done..|]. intros n. apply HQ.
Qed.

Lemma io_lifecycle_is_spec t l Q : (forall a, Q a []) -> iowp t (lifecycle_is l) [] Q.
Proof. intros HQ. apply wp_bind, io_lifecycle_spec. intros current. apply HQ. Qed.

Lemma io_stats_spec t Q : (forall a, Q a []) -> iowp t stats [] Q.
Proof.
  intros HQ. apply wp_bind, io_lifecycle_spec. intros l.
  apply wp_bind, io_quiet_spec; [done..|]. intros capacity.
  apply wp_bind, io_quiet_spec; [done..|]. intros n. apply HQ.
Qed.

(** An enabled waiter that decides to sleep has seen, after it was enabled, a
    state that is not terminated. *)
Lemma io_lifecycle_checking_spec t w n Q :
  (forall r, r ≡ₚ [TDone; TChecking w n] -> Q Terminated r) ->
  (forall l, l <> Terminated -> Q l [TAsleep w n]) ->
  iowp t lifecycle [TChecking w n] Q.
Proof.
  intros HQt HQf. apply wp_bind, (iowp_load_checking polls t w n []); [done|].
  intros byte r1 Hbyte Hr1. rewrite app_nil_r in Hr1.
  destruct (stored_cases byte Hbyte) as [[-> Hl]|Hstopped].
  - apply Permutation_singleton_r in Hr1 as ->. rewrite Hl. by apply HQf.
  - assert ((byte =? 0) = false) as Hb by (by destruct Hstopped as [[-> _]|[-> _]]). rewrite Hb in Hr1.
    rewrite bool_decide_eq_false_2 by (destruct Hstopped as [[_ ->]|[_ ->]]; done). cbn [negb].
    apply wp_bind, (iowp_get_checking polls t w n []); [done|]. intros k r2 Hr2. rewrite app_nil_r in Hr2.
    destruct (k =? 0); cbn [wp]; [by apply HQt|].
    apply Permutation_singleton_r in Hr2 as ->. apply HQf. by destruct Hstopped as [[_ ->]|[_ ->]].
Qed.

(** What is left when a wait that its caller drops after [fuel] notifications answers
    [b]: it saw the service terminated, or it was woken [fuel] times. *)
Definition answered (fuel : nat) (b : bool) r : Prop :=
  exists w n, r ≡ₚ (if b then [TDone; TWaiter w n] else [TWaiter w n]) /\ (b = false -> fuel <= n)%nat.

Lemma io_await_termination_loop_spec t w Q : forall fuel n,
  (forall b r, answered (fuel + n) b r -> Q b r) ->
  iowp t (await_termination_loop fuel w) [TWaiter w n] Q.
Proof.
  induction fuel as [|fuel IH]; intros n HQ; cbn [await_termination_loop];
    (apply wp_bind, (iowp_enable polls t w n []); [done|]; intros r1 ->%Permutation_singleton_r);
    apply wp_bind, io_lifecycle_checking_spec.
  1,3: intros r2 Hr2; rewrite bool_decide_eq_true_2 by done;
    (apply wp_bind, (iowp_drop_notified polls t w n (TChecking w n) [TDone]);
      [by left|rewrite Hr2; apply Permutation_swap|]);
    intros r3 Hr3; apply HQ; exists w, n; (split; [|done]); rewrite Hr3; apply Permutation_swap.
  - intros l Hl. rewrite bool_decide_eq_false_2 by done.
    apply wp_bind, (iowp_drop_notified polls t w n (TAsleep w n) []); [by right|done|].
    intros r Hr. apply HQ. by exists w, n.
  - intros l Hl. rewrite bool_decide_eq_false_2 by done.
    apply wp_bind, iowp_await_notified. intros r2 ->%Permutation_singleton_r.
    apply IH. intros b r. rewrite Nat.add_succ_r. apply HQ.
Qed.

(** A wait whose answer is handed to the caller. *)
Definition answering (fuel : nat) : Prog ioact bool :=
  (let! b := service_await_termination fuel in do (Answer fuel b) ;; Ret b)%exec.

Lemma io_answering_spec t fuel Q : (forall a, Q a []) -> iowp t (answering fuel) [] Q.
Proof.
  intros HQ. apply wp_bind, wp_bind, iowp_new_waiter. intros w r ->%Permutation_singleton_r.
  apply io_await_termination_loop_spec. intros b r (w' & n & Hr & Hn). rewrite Nat.add_0_r in Hn.
  apply wp_bind. destruct b.
  - apply (iowp_drop polls t _ [TWaiter w' n] [TDone]); [rewrite Hr; apply Permutation_swap|by repeat constructor|done|].
    apply (iowp_answer polls t fuel true w' n []); [done|done|]. intros r1 ->%perm_nil_eq. apply HQ.
  - apply (iowp_answer polls t fuel false w' n []); [done|done|]. intros r1 ->%perm_nil_eq. apply HQ.
Qed.

Lemma io_handle_cancel_task_spec t h Q :
  (forall a, Q a []) -> iowp t (handle_cancel_task h) [] Q.
Proof.
  intros HQ. apply wp_bind, io_quiet_spec; [done..|]. intros []; [apply HQ|].
  apply wp_bind, io_quiet_spec; [done..|]. intros []. apply HQ.
Qed.

Lemma io_handle_poll_spec t h Q : (forall a, Q a []) -> iowp t (handle_poll h) [] Q.
Proof. intros HQ. apply wp_bind, io_quiet_spec; [done..|]. intros polled. apply HQ. Qed.

(** ** Clients *)

(** The operations a user of the service or of a task handle can call. *)
Inductive IoApi : forall {A}, Prog ioact A -> Prop :=
  | IoApi_try_spawn future : IoApi (try_spawn future)
  | IoApi_spawn future : IoApi (spawn_future future)
  | IoApi_retry attempts future : IoApi (spawn_when_admissible attempts future)
  | IoApi_shutdown : IoApi service_shutdown
  | IoApi_stop : IoApi stop_and_report
  | IoApi_stats : IoApi stats
  | IoApi_lifecycle : IoApi service_lifecycle
  | IoApi_is_running : IoApi is_running
  | IoApi_is_shutting_down : IoApi is_shutting_down
  | IoApi_is_stopping : IoApi is_stopping
  | IoApi_is_terminated : IoApi is_terminated
  | IoApi_is_not_running : IoApi service_is_not_running
  | IoApi_capacity_changes : IoApi capacity_changes
  | IoApi_await_termination fuel : IoApi (answering fuel)
  | IoApi_cancel_task h : IoApi (handle_cancel_task h)
  | IoApi_is_done h : IoApi (handle_is_done h)
  | IoApi_poll h : IoApi (handle_poll h)
  | IoApi_await h : IoApi (handle_await h).

Lemma IoApi_spec {A} (p : Prog ioact A) :
  IoApi p -> forall t Q, (forall a, Q a []) -> iowp t p [] Q.
Proof.
  intros Hp t Q HQ. destruct Hp.
  - by apply io_try_spawn_spec.
  - apply wp_bind, io_try_spawn_spec. intros [handle|[reason task]]; [apply HQ|].
    apply wp_bind, io_drop_future_spec, HQ.
  - by apply io_spawn_when_admissible_spec.
  - by apply io_service_shutdown_spec.
  - by apply io_stop_and_report_spec.
  - by apply io_stats_spec.
  - by apply io_lifecycle_spec.
  - by apply io_lifecycle_is_spec.
  - by apply io_lifecycle_is_spec.
  - by apply io_lifecycle_is_spec.
  - by apply io_lifecycle_is_spec.
  - apply wp_bind, io_quiet_spec; [done..|]. intros byte. apply HQ.
  - by apply io_quiet_spec.
  - by apply io_answering_spec.
  - by apply io_handle_cancel_task_spec.
  - by apply io_quiet_spec.
  - by apply io_handle_poll_spec.
  - by apply iowp_await_join.
Qed.

(** A client thread: any sequence of calls, each chosen from the results of
    the earlier ones. *)
Inductive IoClient : Prog ioact () -> Prop :=
  | IoClient_done : IoClient (Ret ())
  | IoClient_call {A} (p : Prog ioact A) (k : A -> Prog ioact ()) :
      IoApi p -> (forall a, IoClient (k a)) -> IoClient (bind p k).

Lemma IoClient_spec p t : IoClient p -> iowp t p [] fin_post.
Proof.
  induction 1 as [|A p k Hp Hk IH]; [done|]. apply wp_bind. by apply IoApi_spec.
Qed.

(** ** Adequacy *)

#[local] Abbreviation iogood := (good (act := ioact) (M := io_machine polls) Inv Guar ok own blk pre).

Lemma io_inv_initial capacity rt0 :
  1 <= capacity <= usize_MAX ->
  Inv (initial_world (Fut := Fut) (R := R) (E := E) capacity rt0) [].
Proof.
  intros Hcap. assert (active (initial_world (Fut := Fut) (R := R) (E := E) capacity rt0) = 0) as Ha
    by apply count_get_default.
  constructor; try done; rewrite ?Ha; cbn; try done; try lia.
  - intros w Hw. by rewrite waiting_none in Hw.
  - intros Hx. by apply Exists_nil in Hx.
Qed.

Lemma io_env_spec s s' r : Inv s r -> env (Machine := io_machine polls) s s' -> Guar s s' /\ Inv s' r.
Proof. intros HI [rt' ->]. by apply io_inv_set_rt. Qed.

Lemma io_clients_good capacity rt0 ps :
  1 <= capacity <= usize_MAX -> Forall IoClient ps -> iogood (initial_world capacity rt0, ps).
Proof.
  intros Hcap Hps. apply good_initial; [by apply io_inv_initial|].
  intros t p Hp. apply IoClient_spec. by eapply Forall_lookup_1.
Qed.

(** Configurations reached by clients of a new service. *)
Definition io_reachable (capacity : Z) (rt0 : runtime) (ps : list (Prog ioact ()))
    (c : IoWorld * list (Prog ioact ())) : Prop :=
  reachable (M := io_machine polls) (initial_world capacity rt0, ps) c.

Lemma io_reachable_good capacity rt0 ps c :
  1 <= capacity <= usize_MAX -> Forall IoClient ps -> io_reachable capacity rt0 ps c -> iogood c.
Proof.
  intros Hcap Hps Hr. eapply (good_reachable _ _ _ _ _ _ io_async_block_spec io_env_spec); [|exact Hr].
  by apply io_clients_good.
Qed.
End IoSpecs.
