(* ===== verification/IoCorrect.v ===== *)
(** * Correctness of the IO service under every interleaving

    Clients are arbitrary programs over the public operations; the theorems
    quantify over every schedule of the clients, of the spawned tasks and of the
    runtime, and over every behaviour of the users' futures. *)

From S2P Require Import Prelude Conc External LifecycleBits ServiceSpec RejectedTask Registration IoState IoService IoInv IoActions IoObjects IoChannels IoJoins IoSpecs.
From stdpp Require Import prelude list gmap.
#[local] Open Scope Z_scope.

Section IoCorrect.
Context `{!BuildProfile, !LifecycleRepr, !Allocator, !Tokio, !Oneshot, !WaiterSet, !Watch, !AtomicCount}.
Context {Fut R E : Type} `{!UserFuture Fut R E}.
Context (polls : nat).
#[local] Abbreviation IoWorld := (IoWorld (Fut := Fut) (R := R) (E := E)).
#[local] Abbreviation ioact := (ioact (Fut := Fut) (R := R) (E := E)).
#[local] Abbreviation iogood := (good (act := ioact) (M := io_machine polls) Inv Guar ok own blk pre).
#[local] Abbreviation iothread_ok := (thread_ok (act := ioact) (M := io_machine polls) Inv Guar ok own blk pre).
#[local] Abbreviation itok := (itok (Fut := Fut) (R := R) (E := E)).
Implicit Types (s : IoWorld) (r : list itok) (ps : list (Prog ioact ())).

(** ** What the tokens of a good configuration say *)

Lemma io_good_inv s ps : iogood (s, ps) -> exists r, Inv s r.
Proof. intros (rs & _ & _ & HI). by exists (concat rs). Qed.

(** A thread that acts outside the locks holds none of them. *)
Lemma io_outside_locks s ps t p :
  iogood (s, ps) -> ps !! t = Some p ->
  (forall r, wp (M := io_machine polls) Inv Guar ok own blk pre t p r fin_post -> locks r = 0) ->
  submission_lock (svc s) <> Some t /\ abort_lock (svc s) <> Some t.
Proof.
  intros (rs & Hlen & Hts & HI) Ht Hok. cbn in *.
  destruct (Hts t _ Ht) as (r & Hr & Hown & Hokc%Hok).
  apply io_no_locks in Hokc as [Hs0 Ha0].
  assert (forall w tok, (forall x, 0 <= w x) -> tok ∈ concat rs -> 0 < w tok -> tally w r = 0 ->
    (forall i, own i tok -> i = t) -> False) as Hclash.
  { intros w tok Hw Hin Hpos Hz Honly.
    destruct (token_owner _ _ _ _ _ _ rs ps tok Hlen Hts Hin) as (t' & B' & c' & k' & r' & Ht' & Hr' & Htok & Hown' & _).
    assert (t' = t) as ->.
    { apply Honly. rewrite Forall_forall in Hown'. by apply Hown'. }
    simplify_eq. by eapply (elem_tally w tok r). }
  split; intros Hlock.
  - pose proof (inv_sub _ _ HI) as Hsub. rewrite Hlock in Hsub. cbn in Hsub.
    destruct (tally_pos_elem w_sub (concat rs)) as (tok & Hin & Hpos); [lia|apply io_sub_nonneg|].
    pose proof (inv_toks _ _ HI) as Htoks. rewrite Forall_forall in Htoks. specialize (Htoks tok Hin).
    apply (Hclash w_sub tok io_sub_nonneg Hin Hpos Hs0). intros i Hi.
    destruct tok; cbn in *; try lia; [|destruct Htoks as [Htoks _]..]; congruence.
  - pose proof (inv_abl _ _ HI) as Habl. rewrite Hlock in Habl. cbn in Habl.
    destruct (tally_pos_elem w_abl (concat rs)) as (tok & Hin & Hpos); [lia|apply io_abl_nonneg|].
    pose proof (inv_toks _ _ HI) as Htoks. rewrite Forall_forall in Htoks. specialize (Htoks tok Hin).
    apply (Hclash w_abl tok io_abl_nonneg Hin Hpos Ha0). intros i Hi.
    destruct tok; cbn in *; try lia; [|destruct Htoks as [Htoks _]]; congruence.
Qed.

(** ** Stuck configurations *)

(** A thread parked for termination. *)
Definition awaits_termination (p : Prog ioact ()) : Prop :=
  match p with Act (AwaitNotified _) _ => True | _ => False end.

(** The tokens of a thread that waits for termination or for capacity. *)
Definition asleep (tok : itok) : Prop :=
  match tok with TAsleep _ _ | TWatch _ | TFull _ => True | _ => False end.

(** In a stuck configuration no thread owes anything. *)
Lemma io_stuck_asleep s ps rs :
  length rs = length ps -> (forall t p, ps !! t = Some p -> iothread_ok rs t p) -> Inv s (concat rs) ->
  stuck (M := io_machine polls) (s, ps) -> Forall asleep (concat rs).
Proof.
  intros Hlen Hts HI Hst. assert (iogood (s, ps)) as Hg by by exists rs.
  assert (forall tok, tok ∈ concat rs -> exists t B (c : ioact B) k r,
    ps !! t = Some (Act c k) /\ tok ∈ r /\ ok _ t c r /\ blk _ t c s) as Howner.
  { intros tok Hin.
    destruct (token_owner _ _ _ _ _ _ rs ps tok Hlen Hts Hin) as (t & B & c & k & r & Ht & Hr & Htok & _ & Hok).
    exists t, B, c, k, r. split_and!; [done..|].
    by apply (stuck_blocked _ _ _ _ _ _ s ps t B c k Hg Hst). }
  assert (abort_lock (svc s) = None) as Hfree.
  { destruct (abort_lock (svc s)) eqn:Hl; [exfalso|done].
    pose proof (inv_abl _ _ HI) as Habl. rewrite Hl in Habl. cbn in Habl.
    destruct (tally_pos_elem w_abl (concat rs)) as (tok & Hin & Hpos); [lia|apply io_abl_nonneg|].
    destruct (Howner tok Hin) as (t & B & c & k & r & Ht & Htok & Hok & Hblk).
    destruct c; cbn in Hblk, Hok; try done.
    all: try (rewrite Forall_forall in Hok; specialize (Hok tok Htok); by destruct tok).
    all: try (subst r; apply list_elem_of_singleton in Htok as ->; cbn in Hpos; lia).
    - by apply (elem_tally w_abl tok r) in Hok; [..|apply io_abl_nonneg|done|done].
    - destruct Hok as [k0 ->]. apply list_elem_of_singleton in Htok as ->. cbn in Hpos. lia.
    - destruct Hok as [Hok _]. rewrite Forall_forall in Hok. specialize (Hok tok Htok). by destruct tok. }
  assert (forall tok, tok ∈ concat rs -> asleep tok \/ exists ch,
    tok = TReceiver ch /\ pending (channel_at s ch) = true) as Hrecv.
  { intros tok Hin. destruct (Howner tok Hin) as (t & B & c & k & r & Ht & Htok & Hok & Hblk).
    destruct c; cbn in Hblk, Hok; try done.
    all: try (rewrite Forall_forall in Hok; specialize (Hok tok Htok); by left; destruct tok).
    all: try (rewrite Hfree in Hblk; by destruct Hblk).
    - destruct Hok as [n ->]. apply list_elem_of_singleton in Htok as ->. by left.
    - subst r. apply list_elem_of_singleton in Htok as ->. by left.
    - subst r. apply list_elem_of_singleton in Htok as ->. right. by eexists.
    - destruct Hok as [Hok _]. rewrite Forall_forall in Hok. specialize (Hok tok Htok). by left; destruct tok. }
  apply Forall_forall. intros tok Hin. destruct (Hrecv tok Hin) as [|(ch & -> & Hp)]; [done|exfalso].
  pose proof (inv_toks _ _ HI) as Htoks. rewrite Forall_forall in Htoks.
  destruct (Htoks _ Hin) as [(c & Hc & Hco) _].
  rewrite (io_channel_at _ _ _ Hc) in Hp.
  pose proof (inv_channel _ _ HI ch) as Hch. unfold channel_inv in Hch. rewrite Hc in Hch.
  destruct Hch as (_ & _ & Hs & _). specialize (Hs Hp Hco).
  destruct (tally_pos_elem (w_sender ch) (concat rs)) as (tok & Hin' & Hpos);
    [lia|apply io_sender_nonneg|].
  destruct (Hrecv tok Hin') as [Ha|(ch' & -> & _)]; [by destruct tok|]. cbn in Hpos. lia.
Qed.

Lemma io_asleep_quiet s r : Forall asleep r -> Inv s r -> Inv s [].
Proof.
  intros Ha HI. apply (io_inv_drop_all s r); [|by rewrite app_nil_r].
  eapply Forall_impl; [exact Ha|]. by intros [].
Qed.

(** A state in which no thread owes anything is quiescent. *)
Lemma io_quiet_channels s ch c : Inv s [] -> channels s !! ch = Some c -> content c = None.
Proof.
  intros HI Hc. pose proof (inv_channel _ _ HI ch) as Hch. unfold channel_inv in Hch.
  rewrite Hc, tally_nil in Hch. destruct Hch as (_ & Hrc & _ & Hcl). apply Hcl.
  by destruct (closed c).
Qed.

Lemma io_quiet_stored s : Inv s [] -> tally w_stored (channels s) = 0 /\ forall m, guards s [] m = 0.
Proof.
  intros HI. split; [|intros m; unfold guards; rewrite tally_nil]; apply tally_all_zero, Forall_lookup;
    intros ch c Hc; by apply io_channel_empty, (io_quiet_channels s ch c).
Qed.

Lemma io_quiet_state s : Inv s [] ->
  submission_lock (svc s) = None /\ abort_lock (svc s) = None /\ active s = 0 /\
  abort_handles (svc s) = ∅ /\ (forall m b, registrations s !! m = Some b -> b = true).
Proof.
  intros HI. destruct (io_quiet_stored s HI) as [Hst Hg]. split_and!.
  - apply bool_lock, (inv_sub _ _ HI).
  - apply bool_lock, (inv_abl _ _ HI).
  - rewrite (inv_active _ _ HI), Hst. by rewrite tally_nil.
  - apply map_eq. intros k. rewrite lookup_empty. pose proof (inv_entry _ _ HI k) as He.
    unfold entry_inv in He. destruct (abort_handles (svc s) !! k) as [e|]; [exfalso|done].
    destruct He as (_ & Hge & _). by rewrite Hg in Hge.
  - intros m b Hb. pose proof (inv_marker _ _ HI m) as Hm. unfold marker_inv in Hm.
    rewrite Hb, Hg in Hm. by destruct b.
Qed.

Lemma io_quiet_running s w :
  Inv s [] -> waiting (termination_notify (svc s)) w = true -> load (lifecycle_byte (svc s)) = Running.
Proof.
  intros HI Hw. destruct (decide (load (lifecycle_byte (svc s)) = Running)) as [|Hne]; [done|].
  destruct (io_quiet_state s HI) as (_ & _ & Ha & _).
  pose proof (inv_wait _ _ HI w Hw (conj Hne Ha)) as Hn. by rewrite tally_nil in Hn.
Qed.

(** No change of capacity is lost: a thread that waits for one in vain would
    mean that the service is saturated. *)
Lemma io_quiet_no_retry s r rx :
  Forall asleep r -> Inv s r -> TFull rx ∈ r -> has_changed (capacity_tx (svc s)) rx = true.
Proof.
  intros Ha HI Hin. destruct (has_changed _ rx) eqn:Hc; [done|exfalso].
  destruct (io_quiet_state s (io_asleep_quiet s r Ha HI)) as (_ & _ & Hact & _).
  pose proof (inv_capacity _ _ HI) as Hcap. destruct (inv_full _ _ HI) as [Hfull|Howed].
  - apply list_elem_of_split in Hin as (l1 & l2 & ->). rewrite tally_app, tally_cons. cbn. rewrite Hc. cbn.
    pose proof (fun l : list itok => tally_nonneg _ l (io_unchanged_nonneg (capacity_tx (svc s)) (task_capacity (svc s)))) as Hn.
    pose proof (Hn l1). pose proof (Hn l2). lia.
  - lia.
  - rewrite (tally_all_zero w_owed) in Howed; [lia|]. eapply Forall_impl; [exact Ha|]. by intros [].
Qed.

(** ** Results *)

Lemma joined_at_most s r ch : Inv s r -> (length (joined_of ch s) <= 1)%nat.
Proof.
  intros HI. pose proof (inv_task _ _ HI ch) as Ht. rewrite done_length in Ht.
  pose proof (tally_nonneg (w_task ch) r (io_task_nonneg ch)).
  unfold b2z in Ht. case_bool_decide; lia.
Qed.

Lemma joined_explained s r ch j :
  Inv s r -> j ∈ joined_of ch s -> explained (polls_of ch s) (join_result j).
Proof.
  intros HI Hj. unfold joined_of in Hj. apply list_elem_of_fmap in Hj as (x & -> & Hx).
  apply list_elem_of_filter in Hx as [<- Hx].
  pose proof (inv_joined _ _ HI) as Hok. rewrite Forall_forall in Hok. by apply Hok.
Qed.

(** A resolved handle has a result for good. *)
Definition resolved s ch : Prop :=
  exists j, joined_of ch s = [j] /\ explained (polls_of ch s) (join_result j).

Lemma io_quiet_done s ch : Inv s [] -> (ch < length (channels s))%nat -> resolved s ch.
Proof.
  intros HI Hlt. pose proof (inv_task _ _ HI ch) as Ht.
  rewrite tally_nil, done_length, bool_decide_eq_true_2 in Ht by done. cbn in Ht.
  destruct (joined_of ch s) as [|j [|]] eqn:Hj; cbn in Ht; [lia|exists j|lia].
  split; [done|]. apply joined_explained with []; [done|]. rewrite Hj. left.
Qed.

Lemma io_quiet_no_await s block :
  Inv s [] -> poll_task_handle (join_poll s block) <> Pending.
Proof.
  intros HI. unfold join_poll. destruct (joined_of (ab_channel block) s) as [|[]] eqn:Hj; [|done..].
  case_decide as Hlt; [|done]. destruct (io_quiet_done s _ HI Hlt) as (j & He & _). congruence.
Qed.

(** No future is polled again once it has ended; a destructor that panics comes last. *)
Definition polled_once (events : list (UserEvent Fut R E)) : Prop :=
  match events with
  | DropPanicked :: events => Forall is_pending (tail events)
  | _ => Forall is_pending (tail events)
  end.

Lemma explained_polled_once l (result : TaskResult R E) : explained l result -> polled_once l.
Proof. destruct l as [|[[]|] l]; cbn; [done|..]; intros [Hl _]; [by apply Forall_cons in Hl as []|done..]. Qed.

Lemma ended_polled_once l (last : option (UserEvent Fut R E)) : ended l last -> polled_once l.
Proof.
  destruct last as [[p|]|]; cbn; [by intros (rest & -> & _ & Hrest)|by intros (rest & -> & Hrest)|].
  intros Hl. destruct l as [|[] l]; [done|by apply Forall_cons in Hl as []..].
Qed.

Lemma io_polled_once s r ch : Inv s r -> polled_once (polls_of ch s).
Proof.
  intros HI. destruct (decide (ch < length (channels s))%nat) as [Hlt|Hge].
  2:{ rewrite polls_of_none; [by constructor|apply HI|lia]. }
  pose proof (inv_task _ _ HI ch) as Ht. rewrite bool_decide_eq_true_2 in Ht by done. cbn in Ht.
  destruct (joined_of ch s) as [|j l] eqn:Hj.
  - rewrite done_length, Hj in Ht. cbn in Ht.
    destruct (tally_pos_elem (w_task ch) r) as (tok & Hin & Hpos); [lia|apply io_task_nonneg|].
    pose proof (inv_toks _ _ HI) as Htoks. rewrite Forall_forall in Htoks. specialize (Htoks tok Hin).
    destruct tok; cbn in Hpos; try lia; unfold b2z in Hpos; case_bool_decide; try lia; subst.
    + by eapply ended_polled_once.
    + destruct Htoks as [_ Hp]. by eapply (ended_polled_once _ None).
  - apply explained_polled_once with (join_result j), joined_explained with r; [done|]. rewrite Hj. left.
Qed.

(** ** Threads at work on a user's future *)

Definition at_future (p : Prog ioact ()) : bool :=
  match p with Act (PollUser _ _) _ | Act (DropFuture _ _) _ => true | _ => false end.
(** ... or about to call user code, the runtime, wakers or subscribers, or ended by a
    panic. *)
Definition at_callback (p : Prog ioact ()) : bool :=
  match p with
  | Act (PollUser _ _) _ | Act (DropFuture _ _) _ | Act (DropRejected _) _ | Act NotifyWaiters _
  | Act (SendModify _) _ | Act (HandleAbort _) _ | Unwind => true
  | _ => false
  end.

Lemma io_futures_le_active s ps rs :
  length rs = length ps -> (forall t p, ps !! t = Some p -> iothread_ok rs t p) -> Inv s (concat rs) ->
  tally (fun p => b2z (at_future p)) ps + tally w_stored (channels s) <= active s.
Proof.
  intros Hlen Hts HI. rewrite (inv_active _ _ HI), tally_concat. apply Z.add_le_mono_r.
  apply tally_pointwise_le; [done|]. intros t p r Hp Hr.
  destruct (Hts t p Hp) as (r' & Hr' & _ & Hwp). simplify_eq.
  pose proof (tally_nonneg w_active r io_active_nonneg).
  destruct p as [a| |B c k]; cbn; [lia..|]. destruct Hwp as [Hok _].
  destruct c; cbn; try lia; destruct Hok as [_ [m Hm]];
    by apply (tally_elem_le w_active r _ io_active_nonneg) in Hm.
Qed.

(** ** The theorems *)

Section Reachable.
Context (capacity : Z) (rt0 : runtime) (ps0 : list (Prog ioact ())).
#[local] Abbreviation reach := (io_reachable (Fut := Fut) (R := R) (E := E) polls capacity rt0 ps0).

Lemma io_reachable_inv s ps :
  1 <= capacity <= usize_MAX -> Forall IoClient ps0 -> reach (s, ps) ->
  iogood (s, ps) /\ exists r, Inv s r.
Proof.
  intros Hcap Hps Hr. pose proof (io_reachable_good polls _ _ _ _ Hcap Hps Hr) as Hg.
  split; [done|by apply io_good_inv with ps].
Qed.

Lemma io_reachable_progress c c' :
  1 <= capacity <= usize_MAX -> Forall IoClient ps0 -> reach c -> reachable (M := io_machine polls) c c' ->
  Progress (fst c) (fst c').
Proof.
  intros Hcap Hps Hr Hr'. pose proof (io_reachable_good polls _ _ _ _ Hcap Hps Hr) as Hg.
  exact (guar_reachable _ _ _ _ _ _ (io_async_block_spec polls) (io_env_spec polls) _ _ _
    io_Guar_Progress Hg Hr').
Qed.

Lemma io_reachable_capacity s ps :
  1 <= capacity <= usize_MAX -> Forall IoClient ps0 -> reach (s, ps) -> task_capacity (svc s) = capacity.
Proof.
  intros Hcap Hps Hr. assert (reach (initial_world capacity rt0, ps0)) as Hr0 by apply rtc_refl.
  destruct (io_reachable_progress _ _ Hcap Hps Hr0 Hr) as [Hv _ _ _].
  exact (contract_reaches_capacity _ _ _ Hv).
Qed.

(** The service refines the contract. *)
Lemma io_reachable_wf c :
  1 <= capacity <= usize_MAX -> Forall IoClient ps0 -> reach c -> well_formed (view (fst c)).
Proof.
  intros Hcap Hps Hr. destruct c as [s ps]. destruct (io_reachable_inv s ps Hcap Hps Hr) as (_ & r & HI).
  pose proof (inv_bound _ _ HI). pose proof (inv_active _ _ HI). pose proof (io_stored_nonneg s).
  pose proof (tally_nonneg w_active r io_active_nonneg).
  split_and!; [|done|cbn; lia|unfold c_total; cbn; lia].
  change (load (lifecycle_byte (svc s)) <> Terminated).
  destruct (stored_cases _ (inv_byte _ _ HI)) as [[_ ->]|[[_ ->]|[_ ->]]]; done.
Qed.

Lemma io_refines :
  1 <= capacity <= usize_MAX -> Forall IoClient ps0 ->
  Refines _ false reach (step (M := io_machine polls)) (fun c => view (fst c)).
Proof.
  intros Hcap Hps. split.
  - intros c. by apply io_reachable_wf.
  - intros c c' Hr Hs. eapply rtc_r; [exact Hr|exact Hs].
  - intros c c' Hr Hs. pose proof (io_reachable_good polls _ _ _ _ Hcap Hps Hr) as Hg.
    by destruct (guar_step _ _ _ _ _ _ (io_async_block_spec polls) (io_env_spec polls) c c c' Hg
      (rtc_refl _ _) Hs) as [Hv _ _ _].
Qed.

Lemma io_reachable_stored c :
  1 <= capacity <= usize_MAX -> Forall IoClient ps0 -> reach c -> stored (lifecycle_byte (svc (fst c))).
Proof.
  intros Hcap Hps Hr. destruct c as [s ps]. destruct (io_reachable_inv s ps Hcap Hps Hr) as (_ & r & HI).
  apply HI.
Qed.

(** C20. The IO service refines the direct contract: in every reachable
    configuration the contract's view is well formed and has the configured
    capacity, and every step - of a client, a spawned task or the runtime -
    is seen as at most one transition of the contract: an admission below
    capacity while running, the end of an active task, a shutdown or a
    stop. *)
Theorem io_keeps_contract c c'
    (Hcap : 1 <= capacity <= usize_MAX) (Hps : Forall IoClient ps0) (Hr : reach c)
    (Hs : step (M := io_machine polls) c c') :
  well_formed (view (fst c)) /\ c_queued (view (fst c)) = 0 /\ c_capacity (view (fst c)) = capacity /\
  contract_moves false (view (fst c)) (view (fst c')).
Proof.
  split_and!; [by apply io_reachable_wf|done| |by apply (refines_step (Refines := io_refines Hcap Hps))].
  destruct c as [s ps]. by apply (io_reachable_capacity s ps).
Qed.

(** Nothing can happen any more: every thread has finished or awaits the
    termination of a service that is still running; no lock is held, the active
    count is zero, no abort handle is retained, every accepted task's marker is
    finished, no future is left in a hand-over channel, and the join handle of every
    spawned task has resolved, once, to what its future amounts to. *)
Definition quiescent (c : IoWorld * list (Prog ioact ())) : Prop :=
  let s := fst c in
  (forall t p, snd c !! t = Some p ->
    finished (M := io_machine polls) p \/ awaits_termination p /\ load (lifecycle_byte (svc s)) = Running) /\
  submission_lock (svc s) = None /\ abort_lock (svc s) = None /\
  count_get (active_tasks (svc s)) = 0 /\ abort_handles (svc s) = ∅ /\
  (forall m b, registrations s !! m = Some b -> b = true) /\
  (forall ch c, channels s !! ch = Some c -> content c = None) /\
  (forall ch, (ch < length (channels s))%nat -> resolved s ch).

Lemma io_stuck_is_quiescent c :
  1 <= capacity <= usize_MAX -> Forall IoClient ps0 -> reach c ->
  stuck (M := io_machine polls) c -> quiescent c.
Proof.
  intros Hcap Hps Hr Hst. destruct c as [s ps]. unfold quiescent. cbn [fst snd].
  pose proof (io_reachable_good polls _ _ _ _ Hcap Hps Hr) as Hgood.
  pose proof Hgood as (rs & Hlen & Hts & HI). cbn in Hlen, Hts, HI.
  pose proof (io_stuck_asleep s ps rs Hlen Hts HI Hst) as Hasl.
  pose proof (io_asleep_quiet s _ Hasl HI) as HI0.
  destruct (io_quiet_state s HI0) as (Hsl & Hal & Ha & Hmap & Hm).
  split_and!; [|done..|intros ch c; by apply io_quiet_channels|intros ch; by apply io_quiet_done].
  intros t p Hp. pose proof (good_finished _ _ _ _ _ _ s ps t p Hgood Hp) as Hf.
  destruct p as [| |B c k]; [by left..|right].
  destruct (Hts t _ Hp) as (r & Hrt & _ & [Hok _]).
  pose proof (stuck_blocked _ _ _ _ _ _ s ps t B c k Hgood Hst Hp) as Hblk.
  destruct c; cbn in Hok, Hblk; try done.
  - rewrite Hsl in Hblk. by destruct Hblk.
  - rewrite Hal in Hblk. by destruct Hblk.
  - split; [done|]. by apply (io_quiet_running s w).
  - subst r. rewrite (io_quiet_no_retry s (concat rs) rx) in Hblk; [done..|].
    rewrite (concat_split rs t _ Hrt). by left.
  - subst r. rewrite Forall_forall in Hasl. destruct (Hasl (TReceiver ch)).
    rewrite (concat_split rs t _ Hrt). by left.
  - destruct Hok as [_ ->]. by apply (io_quiet_no_await s block HI0) in Hblk.
Qed.

(** The IO service is deadlock free, misses no wake-up and leaks nothing:
    when no thread can move, every thread has finished or awaits the
    termination of a service that is still running; no lock is held, the
    active count is zero, no abort handle is retained, every accepted task's
    marker is finished and no future is left in a hand-over channel. *)
Theorem io_stuck_quiescent s ps
    (Hcap : 1 <= capacity <= usize_MAX) (Hps : Forall IoClient ps0) (Hr : reach (s, ps))
    (Hst : stuck (M := io_machine polls) (s, ps)) :
  (forall t p, ps !! t = Some p ->
    finished (M := io_machine polls) p \/ awaits_termination p /\ load (lifecycle_byte (svc s)) = Running) /\
  submission_lock (svc s) = None /\ abort_lock (svc s) = None /\
  count_get (active_tasks (svc s)) = 0 /\ abort_handles (svc s) = ∅ /\
  (forall m b, registrations s !! m = Some b -> b = true) /\
  (forall ch c, channels s !! ch = Some c -> content c = None).
Proof.
  destruct (io_stuck_is_quiescent (s, ps) Hcap Hps Hr Hst) as (? & ? & ? & ? & ? & ? & ? & _).
  by split_and!.
Qed.

(** C22. The capacity bounds the live futures: futures being polled or
    destroyed by some thread, together with those waiting in a hand-over
    channel, are at most the active count, which never exceeds the
    configured capacity, although reading and incrementing the count are
    separate steps. *)
Theorem io_capacity_respected s ps
    (Hcap : 1 <= capacity <= usize_MAX) (Hps : Forall IoClient ps0) (Hr : reach (s, ps)) :
  task_capacity (svc s) = capacity /\
  0 <= tally (fun p => b2z (at_future p)) ps + tally w_stored (channels s) <=
    count_get (active_tasks (svc s)) /\
  count_get (active_tasks (svc s)) <= capacity.
Proof.
  destruct (io_reachable_inv s ps Hcap Hps Hr) as ((rs & Hlen & Hts & HI) & _). cbn in *.
  pose proof (io_reachable_capacity s ps Hcap Hps Hr) as Hc.
  pose proof (io_futures_le_active s ps rs Hlen Hts HI) as Hle.
  pose proof (inv_bound _ _ HI) as Hb. rewrite Hc in Hb. pose proof (io_stored_nonneg s).
  assert (0 <= tally (fun p => b2z (at_future p)) ps)
    by (apply tally_nonneg; intros p; by destruct (at_future p)).
  unfold active in *. split_and!; [done|lia..].
Qed.

(** C23. No panic in the IO service: no reachable action fails - not the
    overflow and underflow checks of the active count, and not the assertion
    that an abort handle is registered only once. *)
Theorem io_no_panic s ps t B (c : ioact B) k
    (Hcap : 1 <= capacity <= usize_MAX) (Hps : Forall IoClient ps0) (Hr : reach (s, ps))
    (Ht : ps !! t = Some (Act c k)) :
  ioexec t c s <> Panicked.
Proof.
  destruct (io_reachable_inv s ps Hcap Hps Hr) as (Hg & _).
  pose proof (good_action _ _ _ _ _ _ s ps t B c k Hg Ht) as Ha. intros He.
  change (exec t c s) with (ioexec t c s) in Ha. by rewrite He in Ha.
Qed.

(** C24. User code and notifications run outside the locks: a thread about to
    poll or destroy a user's future, to wake waiters, to publish a capacity
    change or to abort a task, and one that a panicking destructor has ended, holds
    neither lock of the service. *)
Theorem io_callbacks_outside_locks s ps t p
    (Hcap : 1 <= capacity <= usize_MAX) (Hps : Forall IoClient ps0) (Hr : reach (s, ps))
    (Hp : ps !! t = Some p) (Hcb : at_callback p = true) :
  submission_lock (svc s) <> Some t /\ abort_lock (svc s) <> Some t.
Proof.
  destruct (io_reachable_inv s ps Hcap Hps Hr) as (Hg & _). apply (io_outside_locks s ps t p Hg Hp).
  intros r Hwp. destruct p as [| |B c k]; [by rewrite Hwp|by destruct Hwp as [-> _]|]. destruct Hwp as [Hok _].
  destruct c; try done; by destruct Hok.
Qed.

(** C25. Closed admission stays closed: once [shutdown] or [stop] took effect
    the lifecycle never reports [Running] again, the active count only
    decreases and no task is ever accepted. *)
Theorem io_admission_closed c c'
    (Hcap : 1 <= capacity <= usize_MAX) (Hps : Forall IoClient ps0) (Hr : reach c)
    (Hc : load (lifecycle_byte (svc (fst c))) <> Running)
    (Hr' : reachable (M := io_machine polls) c c') :
  load (lifecycle_byte (svc (fst c'))) <> Running /\
  rank (load (lifecycle_byte (svc (fst c)))) <= rank (load (lifecycle_byte (svc (fst c')))) /\
  count_get (active_tasks (svc (fst c'))) <= count_get (active_tasks (svc (fst c))) /\
  length (registrations (fst c')) = length (registrations (fst c)).
Proof.
  assert (reach c') as Hr2 by by eapply rtc_trans.
  pose proof (io_reachable_stored c Hcap Hps Hr) as Hb. pose proof (io_reachable_stored c' Hcap Hps Hr2).
  destruct (io_reachable_progress c c' Hcap Hps Hr Hr') as [_ Hle Hm _].
  destruct (refines_closed (HR := io_refines Hcap Hps) c c' Hr Hr' Hc) as [Hc' Htot].
  rewrite !stored_rank by done. split_and!; [exact Hc'|done|exact Htot|].
  rewrite stored_Running in Hc by done. unfold stored in Hb. apply Hm. lia.
Qed.

(** Termination of the IO service is final: once admission is closed and
    no task is active, both hold for ever. *)
Theorem io_termination_stable c c'
    (Hcap : 1 <= capacity <= usize_MAX) (Hps : Forall IoClient ps0) (Hr : reach c)
    (Ht : load (lifecycle_byte (svc (fst c))) <> Running)
    (Ha : count_get (active_tasks (svc (fst c))) = 0)
    (Hr' : reachable (M := io_machine polls) c c') :
  load (lifecycle_byte (svc (fst c'))) <> Running /\ count_get (active_tasks (svc (fst c'))) = 0.
Proof. exact (refines_terminated (HR := io_refines Hcap Hps) c c' Hr Hr' (conj Ht Ha)). Qed.

(** Stop reports of the IO service are consistent: nothing is ever
    reported as queued, and a report never counts more cancelled tasks than
    it found active, whatever was spawned, finished or cancelled between the
    snapshot and the aborts. *)
Theorem io_stop_reports_bounded s ps
    (Hcap : 1 <= capacity <= usize_MAX) (Hps : Forall IoClient ps0) (Hr : reach (s, ps)) :
  forall rep, rep ∈ reports s ->
    report_queued rep = 0 /\ 0 <= report_cancelled rep <= report_running rep.
Proof.
  destruct (io_reachable_inv s ps Hcap Hps Hr) as (_ & r & HI).
  pose proof (inv_reports _ _ HI) as Hrep. rewrite Forall_forall in Hrep.
  intros rep Hin. by apply Hrep in Hin.
Qed.

(** C21. The waits of the IO service are answered truthfully: a caller told that
    the service has terminated is right, and for good; and a wait ends in any other
    way only when its caller drops it, after as many notifications as the caller
    meant to wait for. *)
Theorem io_wait_answers s ps
    (Hcap : 1 <= capacity <= usize_MAX) (Hps : Forall IoClient ps0) (Hr : reach (s, ps)) :
  (forall fuel, (fuel, true) ∈ answers s ->
    load (lifecycle_byte (svc s)) <> Running /\ count_get (active_tasks (svc s)) = 0) /\
  (forall fuel, (fuel, false) ∈ answers s -> (fuel <= notified s)%nat).
Proof.
  destruct (io_reachable_inv s ps Hcap Hps Hr) as (_ & r & HI). split.
  - intros fuel Hin. apply (inv_promise _ _ HI), Exists_exists. by exists (fuel, true).
  - intros fuel Hin. pose proof (inv_answers _ _ HI) as Ha. rewrite Forall_forall in Ha.
    by apply (Ha _ Hin).
Qed.

(** C26. The abort-handle map never outgrows the accepted tasks: every entry
    is stored under the address of its own marker, and there are at most as
    many entries as active tasks. *)
Theorem io_abort_handles_bounded s ps
    (Hcap : 1 <= capacity <= usize_MAX) (Hps : Forall IoClient ps0) (Hr : reach (s, ps)) :
  Z.of_nat (size (abort_handles (svc s))) <= count_get (active_tasks (svc s)) <= capacity /\
  (forall k e, abort_handles (svc s) !! k = Some e -> k = key (ta_marker e)).
Proof.
  destruct (io_reachable_inv s ps Hcap Hps Hr) as (_ & r & HI).
  pose proof (io_reachable_capacity s ps Hcap Hps Hr) as Hc.
  pose proof (io_entries_active s r HI) as Hle. rewrite length_map_to_list in Hle.
  pose proof (inv_bound _ _ HI) as Hb. rewrite Hc in Hb. split; [by split|].
  intros k e He. pose proof (inv_entry _ _ HI k) as Hent. unfold entry_inv in Hent.
  rewrite He in Hent. by destruct Hent.
Qed.
End Reachable.
End IoCorrect.
