(* ===== verification/IoSequential.v ===== *)
(** * Functional behaviour of the IO service's methods

    What each operation computes when nothing interferes: the branches of
    submission, the whole life of a spawned task, cancellation, shutdown, stop,
    the lifecycle queries and waiting, stated with [run]. *)

From S2P Require Import Prelude Conc External LifecycleBits RejectedTask Registration IoState IoService IoInv.
From stdpp Require Import prelude list gmap.
#[local] Open Scope Z_scope.

Section IoSequential.
Context `{!BuildProfile, !LifecycleRepr, !Allocator, !Tokio, !Oneshot, !WaiterSet, !Watch, !AtomicCount}.
Context {Fut R E : Type} `{!UserFuture Fut R E}.
Context (polls : nat).
#[local] Abbreviation IoWorld := (IoWorld (Fut := Fut) (R := R) (E := E)).
#[local] Abbreviation ioact := (ioact (Fut := Fut) (R := R) (E := E)).
#[local] Abbreviation iorun := (run (act := ioact) (M := io_machine polls)).
Implicit Types (w : IoWorld) (t : nat).

Definition running w : Prop := load (lifecycle_byte (svc w)) = Running.
Definition unlocked w : Prop := submission_lock (svc w) = None /\ abort_lock (svc w) = None.
Definition has_room w : Prop := active w < task_capacity (svc w) <= usize_MAX.

Lemma io_relock_same w t :
  submission_lock (svc w) = None ->
  set_svc (set_submission_lock None) (set_svc (set_submission_lock (Some t)) w) = w.
Proof. destruct w as [[]]; cbn. by intros ->. Qed.

(** ** Rejection *)

Lemma io_run_prepare_closed t w future :
  submission_lock (svc w) = None -> ~ running w ->
  iorun t (prepare_spawn future) w = Next (inr (Shutdown, future)) w [].
Proof.
  intros Hl Hr. unfold prepare_spawn. cbn. rewrite Hl. cbn.
  rewrite bool_decide_eq_false_2 by done. cbn. f_equal. by apply io_relock_same.
Qed.

Lemma io_run_prepare_full t w future :
  submission_lock (svc w) = None -> running w -> task_capacity (svc w) <= active w ->
  iorun t (prepare_spawn future) w = Next (inr (Saturated, future)) w [].
Proof.
  intros Hl Hr Hfull. unfold prepare_spawn. cbn. rewrite Hl. cbn.
  rewrite bool_decide_eq_true_2 by done. cbn. fold (active w).
  rewrite (proj2 (Z.leb_le _ _)) by done. cbn. f_equal. by apply io_relock_same.
Qed.

(** Dropping a future that was not accepted: [a] follows unless its destructor
    panics. *)
Definition after_drop {A} (future : Fut) (a : A) w : outcome IoWorld AsyncBlock A :=
  if future_drop_panics (rt w) future then Unwound w [] else Next a w [].

(** The two ways to submit a future reject it with [reason] and change nothing. *)
Definition rejects t w (future : Fut) (reason : SubmissionError) : Prop :=
  iorun t (try_spawn future) w = Next (inr (RejectedTask.new reason future)) w [] /\
  iorun t (spawn_future future) w = after_drop future (inr reason) w.

Lemma io_prepare_rejects t w future reason :
  iorun t (prepare_spawn future) w = Next (inr (reason, future)) w [] -> rejects t w future reason.
Proof.
  intros Hp. unfold rejects, spawn_future, try_spawn. split; rewrite !run_bind, Hp; [done|]. cbn.
  unfold after_drop. by destruct (future_drop_panics _ _).
Qed.

(** C38. A service that is shutting down, stopping or terminated rejects every
    future with [Shutdown], whatever its load; a running one at capacity
    rejects with [Saturated].  The untouched future is handed back by
    [try_spawn] and dropped by [spawn] - if its destructor panics the panic reaches the
    caller -, and no slot, marker, channel, task or lock is left behind. *)
Theorem io_rejects t w future (Hl : submission_lock (svc w) = None) :
  (load (lifecycle_byte (svc w)) <> Running -> rejects t w future Shutdown) /\
  (load (lifecycle_byte (svc w)) = Running ->
    task_capacity (svc w) <= count_get (active_tasks (svc w)) -> rejects t w future Saturated).
Proof.
  split; intros; apply io_prepare_rejects; [by apply io_run_prepare_closed|by apply io_run_prepare_full].
Qed.

(** ** Acceptance *)

Definition register m h (handles : gmap Z TrackedAbortHandle) (finished : bool) :
    gmap Z TrackedAbortHandle :=
  if finished then handles else <[key m := mkTracked m h]> handles.

(** What an accepting [try_spawn] leaves behind. *)
Record accepted_state w w' (ch : nat) (h : AbortHandle) (future : Fut) : Prop := {
  acc_unlocked : unlocked w';
  acc_byte : lifecycle_byte (svc w') = lifecycle_byte (svc w);
  acc_active : active w' = active w + 1;
  acc_registrations : registrations w' = registrations w ++ [false];
  acc_channel : ch = length (channels w);
  acc_delivered : exists c, channels w' !! ch = Some c /\ pending c = false /\ closed c = false /\
    content c = Some (future, length (registrations w));
  acc_handles : abort_handles (svc w') =
    register (length (registrations w)) h (abort_handles (svc w)) (is_finished (rt w') h);
  acc_spawned : (h, rt w') = spawn (rt w);
  acc_joined : joined w' = joined w;
}.

(** What a successful [prepare_spawn] leaves behind: the future is not in the channel
    yet. *)
Record registered_state w w' (h : AbortHandle) : Prop := {
  reg_unlocked : unlocked w';
  reg_byte : lifecycle_byte (svc w') = lifecycle_byte (svc w);
  reg_active : active w' = active w + 1;
  reg_registrations : registrations w' = registrations w ++ [false];
  reg_channels : channels w' = channels w ++ [channel];
  reg_handles : abort_handles (svc w') =
    register (length (registrations w)) h (abort_handles (svc w)) (is_finished (rt w') h);
  reg_spawned : (h, rt w') = spawn (rt w);
  reg_joined : joined w' = joined w;
}.

Lemma io_run_prepare t w future :
  unlocked w -> running w -> has_room w ->
  abort_handles (svc w) !! key (length (registrations w)) = None ->
  exists h w', let block := mkBlock (length (channels w)) h in
    iorun t (prepare_spawn future) w =
      Next (inl (handoff_new future block (length (channels w)) (length (registrations w)))) w' [block] /\
    registered_state w w' h.
Proof.
  intros [Hl Hal] Hr [Hlt Hcap] Hk. unfold running, active in *.
  destruct (count_inc_spec (active_tasks (svc w))) as (c1 & Hinc & Hc1); [lia|].
  destruct (spawn (rt w)) as [h rt'] eqn:Hs. set (m := length (registrations w)) in *.
  exists h, (mkWorld (set_active c1 (set_abort_handles (register m h (abort_handles (svc w)) (is_finished rt' h)) (svc w)))
    (registrations w ++ [false]) (channels w ++ [channel]) rt' (next_waiter w) (reports w) (joined w) (notified w) (answers w) (polled w)).
  split; [|by split].
  unfold prepare_spawn, guard_new. cbn. rewrite Hl. cbn. rewrite bool_decide_eq_true_2 by done. cbn.
  rewrite (proj2 (Z.leb_gt _ _)) by lia. cbn. rewrite Hinc. cbn. rewrite Hs. cbn. rewrite Hal. cbn.
  fold m. unfold m at 1. rewrite lookup_app_r, Nat.sub_diag by done. cbn.
  unfold register. destruct (is_finished rt' h) eqn:Hf; cbn; [|rewrite Hk; cbn; rewrite debug_assert_true; cbn].
  all: destruct w as [[]]; cbn in *; subst; done.
Qed.

(** Delivery to a task that still waits, and to one that is gone. *)
Lemma io_run_deliver t w future block ch m c :
  channels w !! ch = Some c -> content c = None -> closed c = false ->
  exists d, iorun t (deliver (handoff_new future block ch m)) w =
      Next (mkTaskHandle block) (set_channels (<[ch := d]> (channels w)) w) [] /\
    content d = Some (future, m) /\ pending d = false /\ closed d = false.
Proof.
  intros Hch Hcon Hcl. destruct (send_open _ c (future, m) Hcl Hcon) as (d & Hd & ? & ? & ?).
  exists d. split; [|done]. cbn. unfold channel_at, guarded_new. rewrite Hch. cbn. by rewrite Hd.
Qed.

Lemma io_run_accept t w future :
  unlocked w -> running w -> has_room w ->
  abort_handles (svc w) !! key (length (registrations w)) = None ->
  exists h w' ch,
    iorun t (try_spawn future) w = Next (inl (mkTaskHandle (mkBlock ch h))) w' [mkBlock ch h] /\
    accepted_state w w' ch h future.
Proof.
  intros Hun Hr Hroom Hk. destruct (io_run_prepare t w future Hun Hr Hroom Hk) as (h & w1 & Hrun & Hreg).
  destruct Hreg as [? ? ? ? Hch ? ? ?].
  assert (channels w1 !! length (channels w) = Some channel) as Hnew by by rewrite Hch, lookup_app_r, Nat.sub_diag.
  destruct (io_run_deliver t w1 future (mkBlock (length (channels w)) h) (length (channels w))
    (length (registrations w)) channel Hnew (content_channel _) (closed_channel _)) as (d & Hd & ? & ? & ?).
  exists h, (set_channels (<[length (channels w) := d]> (channels w1)) w1), (length (channels w)). split.
  - unfold try_spawn. rewrite run_bind, Hrun, run_bind, Hd. done.
  - split; try done. exists d. split; [|done]. cbn. by apply list_lookup_insert_eq, lookup_lt_Some with channel.
Qed.

(** A running service with room accepts: the active count grows by one,
    one unfinished marker is created, one Tokio task is spawned and receives
    the future together with its guard, its abort handle is tracked unless
    it has already finished, and both locks are free again. *)
Theorem io_accepts t w future
    (Hun : unlocked w) (Hr : load (lifecycle_byte (svc w)) = Running) (Hroom : has_room w)
    (Hfresh : abort_handles (svc w) !! key (length (registrations w)) = None) :
  exists h w' ch,
    iorun t (try_spawn future) w = Next (inl (mkTaskHandle (mkBlock ch h))) w' [mkBlock ch h] /\
    accepted_state w w' ch h future.
Proof. by apply io_run_accept. Qed.

(** ** The life of a task *)

Lemma io_run_step {A B} t (c : ioact B) (q : B -> Prog ioact A) w b w' :
  ioexec t c w = Next b w' [] -> iorun t (bind (do c) q) w = iorun t (q b) w'.
Proof.
  intros Hc. cbn. change (exec t c w) with (ioexec t c w). rewrite Hc. by destruct (iorun t (q b) w').
Qed.

Lemma io_run_seq {A B} t (p : Prog ioact A) (q : A -> Prog ioact B) w a w' :
  iorun t p w = Next a w' [] -> iorun t (bind p q) w = iorun t (q a) w'.
Proof. intros Hp. rewrite run_bind, Hp. by destruct (iorun t (q a) w'). Qed.

(** The reference: what driving a future to the end gives, as the runtime
    decides before every poll whether to go on.  In the end the future is destroyed;
    a destructor that panics replaces whatever the result was. *)
Definition after_destructor (rt : runtime) (future : Fut) (result : TaskResult R E) : TaskResult R E :=
  if future_drop_panics rt future then inr TaskExecutionError.Panicked else result.

Fixpoint poll_until (n : nat) (h : AbortHandle) (rt : runtime) (future : Fut) : TaskResult R E * runtime :=
  match n with
  | O => (after_destructor rt future (inr TaskExecutionError.Cancelled), rt)
  | S n =>
      let '(go, rt) := dispatch rt h in
      if go then
        let '(polled, rt) := poll_user rt future in
        match polled with
        | UPending rest => poll_until n h rt rest
        | UReady (inl r) => (after_destructor rt future (inl r), rt)
        | UReady (inr e) => (after_destructor rt future (inr (TaskExecutionError.Failed e)), rt)
        | UPanicked => (inr TaskExecutionError.Panicked, rt)
        end
      else (after_destructor rt future (inr TaskExecutionError.Cancelled), rt)
  end.

(** What becomes of a task that received its future: the runtime runs it or drops it. *)
Definition driven (n : nat) (h : AbortHandle) (rt : runtime) (future : Fut) : TaskResult R E * runtime :=
  let '(go, rt') := dispatch rt h in
  if go then poll_until n h rt' future
  else (after_destructor rt' future (inr TaskExecutionError.Cancelled), rt').

(** Nobody waits for termination. *)
Definition nobody_waits w : Prop := forall x, waiting (termination_notify (svc w)) x = false.

(** What the end of a task with marker [m] does to the service: its slot is
    released, its marker finished, its entry gone, and everyone who waits for
    capacity or termination is notified. *)
Record released w w' (m : nat) : Prop := {
  rel_active : active w' = active w - 1;
  rel_unlocked : submission_lock (svc w') = submission_lock (svc w) /\ abort_lock (svc w') = None;
  rel_byte : lifecycle_byte (svc w') = lifecycle_byte (svc w);
  rel_registrations : registrations w' = <[m := true]> (registrations w);
  rel_handles : abort_handles (svc w') = delete (key m) (abort_handles (svc w));
  rel_capacity_tx : capacity_tx (svc w') = published (capacity_tx (svc w));
  rel_notified : nobody_waits w';
}.

Lemma io_run_guard_drop t m w :
  abort_lock (svc w) = None -> 0 < active w ->
  exists w', iorun t (guard_drop m) w = Next () w' [] /\
    released w w' m /\ rt w' = rt w /\ joined w' = joined w.
Proof.
  intros Hl Ha. unfold active in Ha. destruct (count_dec_spec (active_tasks (svc w))) as (c & Hdec & Hc); [done|].
  unfold guard_drop, remove_abort_handle. cbn. rewrite Hl. cbn. rewrite Hdec. cbn.
  eexists. split; [done|]. split_and!; [|done..].
  split; cbn; try done. intros x. cbn. apply waiting_wake_all.
Qed.

Lemma io_run_guarded_drop t owner payload w :
  abort_lock (svc w) = None -> 0 < active w ->
  exists w', iorun t (guarded_drop owner payload) w =
      Next (future_drop_panics (rt w) (fst payload)) w' [] /\
    released w w' (snd payload) /\ rt w' = rt w /\ joined w' = joined w.
Proof.
  intros Hl Ha. set (panicked := future_drop_panics (rt w) (fst payload)).
  assert (exists l, ioexec t (DropFuture owner (fst payload)) w = Next panicked (set_polled l w) []) as (l & Hdrop).
  { cbn. fold panicked. destruct owner as [block|]; [destruct panicked|]; [by eexists|..];
      exists (polled w); by destruct w. }
  destruct (io_run_guard_drop t (snd payload) (set_polled l w) Hl Ha) as (w' & Hrun & Hrel & Hrt & Hj).
  exists w'. split_and!; [|by destruct Hrel|done..].
  unfold guarded_drop. rewrite (io_run_step t _ _ w _ _ Hdrop). by erewrite io_run_seq by exact Hrun.
Qed.

Lemma io_released_joined w w' m l : released w w' m -> released w (set_joined l w') m.
Proof. by intros []. Qed.

Lemma io_released_rt w w' m rt' : released (set_rt rt' w) w' m -> released w w' m.
Proof. by intros []. Qed.

Lemma io_released_polled w w' m l : released (set_polled l w) w' m -> released w w' m.
Proof. by intros []. Qed.

(** A handle whose task was the last to complete is ready with its result. *)
Lemma io_await_joined t w ch h j l :
  joined w = (mkBlock ch h, j) :: l ->
  iorun t (handle_await (mkTaskHandle (mkBlock ch h))) w = Next (join_result j) w [].
Proof.
  intros Hj. assert (join_poll w (mkBlock ch h) = Ready j) as Hp.
  { unfold join_poll, joined_of. by rewrite Hj, filter_cons_True. }
  cbn. rewrite Hp. by destruct j.
Qed.

(** Dropping the guarded future and completing the join handle. *)
Lemma io_run_end_task t payload block j w :
  abort_lock (svc w) = None -> 0 < active w ->
  exists w' j', iorun t (end_task block payload j) w = Next () w' [] /\
    released w w' (snd payload) /\ joined w' = (block, j') :: joined w /\
    join_result j' = after_destructor (rt w) (fst payload) (join_result j).
Proof.
  intros Hl Ha. destruct (io_run_guarded_drop t (Some block) payload w Hl Ha) as (w1 & Hrun & Hrel & Hrt & Hcp).
  set (panicked := future_drop_panics (rt w) (fst payload)) in *.
  set (j' := if panicked then inr (mkJoinError false) else j).
  exists (set_joined ((block, j') :: joined w1) w1), j'.
  split_and!.
  - unfold end_task. by erewrite io_run_seq by exact Hrun.
  - by apply io_released_joined.
  - cbn. by rewrite Hcp.
  - unfold after_destructor, j'. fold panicked. by destruct panicked.
Qed.

Lemma io_run_poll_loop t block m n : forall future w,
  abort_lock (svc w) = None -> 0 < active w ->
  exists w' j, iorun t (poll_loop n block future m) w = Next () w' [] /\ released w w' m /\
    joined w' = (block, j) :: joined w /\ join_result j = fst (poll_until n (ab_handle block) (rt w) future).
Proof.
  induction n as [|n IH]; intros future w Hl Ha; cbn [poll_loop poll_until].
  { exact (io_run_end_task t (future, m) block (inr (mkJoinError true)) w Hl Ha). }
  destruct (dispatch (rt w) (ab_handle block)) as [go rt1] eqn:Hgo.
  rewrite (io_run_step t (Dispatch (ab_handle block)) _ w go (set_rt rt1 w)) by (cbn; by rewrite Hgo).
  destruct go.
  2:{ destruct (io_run_end_task t (future, m) block (inr (mkJoinError true)) (set_rt rt1 w) Hl Ha)
        as (w' & j & Hrun & Hrel & Hj). exists w', j.
      split_and!; [exact Hrun|by eapply io_released_rt|apply Hj..]. }
  destruct (poll_user rt1 future) as [p rt2] eqn:Hpoll.
  set (w2 := set_polled ((ab_channel block, Polled p) :: polled w) (set_rt rt2 w)).
  rewrite (io_run_step t (PollUser block future) _ (set_rt rt1 w) p w2) by (cbn; by rewrite Hpoll).
  assert (forall w', released w2 w' m -> released w w' m) as Hback by by intros w' [].
  assert (forall j, exists w' j', iorun t (end_task block (future, m) j) w2 = Next () w' [] /\
    released w w' m /\ joined w' = (block, j') :: joined w /\
    join_result j' = after_destructor rt2 future (join_result j)) as Hfin.
  { intros j. destruct (io_run_end_task t (future, m) block j w2 Hl Ha)
      as (w' & j' & Hrun & Hrel & Hj). exists w', j'. split_and!; [exact Hrun|by apply Hback|apply Hj..]. }
  destruct p as [rest|[r|e]|].
  2:{ exact (Hfin (inl (inl r))). }
  2:{ exact (Hfin (inl (inr (TaskExecutionError.Failed e)))). }
  2:{ destruct (Hfin (inr (mkJoinError false))) as (w' & j' & ? & ? & ? & Hj'). exists w', j'.
      split_and!; [done..|]. rewrite Hj'. cbn. unfold after_destructor. by destruct (future_drop_panics _ _). }
  destruct (IH rest w2 Hl Ha) as (w' & j & Hrun & Hrel & Hj & Hres).
  exists w', j. split_and!; [exact Hrun|by apply Hback|done..].
Qed.

Lemma io_run_block t w ch h future m c :
  channels w !! ch = Some c -> pending c = false -> content c = Some (future, m) ->
  abort_lock (svc w) = None -> 0 < active w ->
  exists w' j, iorun t (async_block polls (mkBlock ch h)) w = Next () w' [] /\ released w w' m /\
    joined w' = (mkBlock ch h, j) :: joined w /\ join_result j = fst (driven polls h (rt w) future).
Proof.
  intros Hch Hp Hcon Hl Ha. unfold driven.
  destruct (dispatch (rt w) h) as [go rt'] eqn:Hgo.
  assert (channel_at w ch = c) as Hat by (unfold channel_at; by rewrite Hch).
  assert (forall d w', released (set_rt rt' (set_channels (<[ch := d]> (channels w)) w)) w' m ->
    released w w' m) as Hback by by intros ? ? [].
  unfold async_block. cbn [ab_channel ab_handle]. destruct go.
  - destruct (recv_spec _ c) as (d & Hd & _). rewrite Hcon in Hd.
    erewrite io_run_step by (cbn; by rewrite Hgo, Hat, Hp, Hd).
    destruct (io_run_poll_loop t (mkBlock ch h) m polls future (set_rt rt' (set_channels (<[ch := d]> (channels w)) w)) Hl Ha)
      as (w' & j & Hrun & Hrel & Hj). exists w', j. split_and!; [exact Hrun|by eapply Hback|apply Hj..].
  - destruct (drop_receiver_spec _ c) as (d & Hd & _). rewrite Hcon in Hd.
    erewrite io_run_step by (cbn; by rewrite Hgo, Hat, Hd).
    destruct (io_run_end_task t (future, m) (mkBlock ch h) (inr (mkJoinError true))
      (set_rt rt' (set_channels (<[ch := d]> (channels w)) w)) Hl Ha) as (w' & j & Hrun & Hrel & Hj).
    exists w', j. split_and!; [exact Hrun|by eapply Hback|apply Hj..].
Qed.

(** C39. A delivered task runs its future exactly as the reference driver does, and
    awaiting its handle then gives that result - success, failure of the future,
    panic of a poll or of the destructor, or cancellation; in every case the task gives back everything it held:
    slot, marker, map entry, and the notifications that go with them. *)
Theorem io_task_completes t t' w ch h future m c
    (Hch : channels w !! ch = Some c) (Hp : pending c = false) (Hcon : content c = Some (future, m))
    (Hl : abort_lock (svc w) = None) (Ha : 0 < count_get (active_tasks (svc w))) :
  exists w', iorun t (async_block polls (mkBlock ch h)) w = Next () w' [] /\ released w w' m /\
    iorun t' (handle_await (mkTaskHandle (mkBlock ch h))) w' =
      Next (fst (driven polls h (rt w) future)) w' [].
Proof.
  destruct (io_run_block t w ch h future m c Hch Hp Hcon Hl Ha) as (w' & j & Hrun & Hrel & Hj & <-).
  exists w'. split_and!; [exact Hrun|exact Hrel|by eapply io_await_joined].
Qed.

Lemma io_insert_append_finished (regs : list bool) :
  <[length regs := true]> (regs ++ [false]) = regs ++ [true].
Proof. by rewrite insert_app_r_alt, Nat.sub_diag by done. Qed.

Lemma io_delete_register m h (handles : gmap Z TrackedAbortHandle) finished :
  handles !! key m = None -> delete (key m) (register m h handles finished) = handles.
Proof.
  intros Hk. unfold register. destruct finished; [by apply delete_id|by apply delete_insert_id].
Qed.

(** A future from submission to result: its handle is pending while the task waits;
    running the task gives back the slot, the entry and the locks, and awaiting the
    handle then gives what the reference driver of the future gives. *)
Theorem io_spawn_then_await t t' w future
    (Hun : unlocked w) (Hr : load (lifecycle_byte (svc w)) = Running) (Hroom : has_room w)
    (Ha : 0 <= count_get (active_tasks (svc w)))
    (Hfresh : abort_handles (svc w) !! key (length (registrations w)) = None)
    (Hnew : joined_of (length (channels w)) w = []) :
  exists h w1 w2, let handle := mkTaskHandle (mkBlock (length (channels w)) h) in
    iorun t (try_spawn future) w = Next (inl handle) w1 [th_handle handle] /\
    iorun t (handle_poll handle) w1 = Next Pending w1 [] /\ iorun t (handle_await handle) w1 = Blocked /\
    iorun t' (async_block polls (th_handle handle)) w1 = Next () w2 [] /\
    count_get (active_tasks (svc w2)) = count_get (active_tasks (svc w)) /\
    abort_handles (svc w2) = abort_handles (svc w) /\
    registrations w2 = registrations w ++ [true] /\ unlocked w2 /\
    iorun t (handle_await handle) w2 = Next (fst (driven polls h (snd (spawn (rt w))) future)) w2 [].
Proof.
  destruct (io_run_accept t w future Hun Hr Hroom Hfresh) as (h & w1 & ch & Hrun & Hacc).
  destruct Hacc as [[Hl Hal] Hb Hact Hregs -> (c & Hc & Hp & _ & Hcon) Hh Hsp Hj].
  assert (0 < active w1) as Ha1 by (unfold active in *; lia).
  destruct (io_run_block t' w1 _ h future _ c Hc Hp Hcon Hal Ha1) as (w2 & j & Hrun2 & Hrel & Hj2 & Hres).
  assert (join_poll w1 (mkBlock (length (channels w)) h) = Pending) as Hpend.
  { unfold join_poll, joined_of. cbn [ab_channel]. rewrite Hj. unfold joined_of in Hnew. rewrite Hnew.
    by rewrite decide_True by by eapply lookup_lt_Some. }
  destruct Hrel as [Ract [Rl Ral] Rb Rregs Rh Rtx Rn].
  exists h, w1, w2. cbv zeta.
  split_and!; [exact Hrun|cbn; by rewrite Hpend|cbn; by rewrite Hpend|exact Hrun2|unfold active in *; lia|..].
  - by rewrite Rh, Hh, io_delete_register.
  - by rewrite Rregs, Hregs, io_insert_append_finished.
  - split; congruence.
  - rewrite <- Hsp in *. cbn [snd]. rewrite <- Hres. by eapply io_await_joined.
Qed.

(** ** Lifecycle queries and waiting *)

(** The lifecycle a service reports. *)
Definition reported w : ExecutorServiceLifecycle :=
  if bool_decide (load (lifecycle_byte (svc w)) = Running) then Running
  else if count_get (active_tasks (svc w)) =? 0 then Terminated else load (lifecycle_byte (svc w)).

Lemma io_run_lifecycle t w : iorun t lifecycle w = Next (reported w) w [].
Proof.
  unfold lifecycle, reported. rewrite (io_run_step t LoadLifecycle _ w (lifecycle_byte (svc w)) w) by done.
  destruct (bool_decide_reflect (load (lifecycle_byte (svc w)) = Running)) as [->|Hr]; done.
Qed.

(** The lifecycle queries agree with each other: exactly one of them is
    true, [Terminated] is reported exactly when admission is closed and no
    task is active, and [stats] shows the same state, the configured capacity
    and the active count.  No query changes anything. *)
Theorem io_queries_agree t w (Hb : stored (lifecycle_byte (svc w))) :
  iorun t service_lifecycle w = Next (reported w) w [] /\
  iorun t is_running w = Next (bool_decide (reported w = Running)) w [] /\
  iorun t is_shutting_down w = Next (bool_decide (reported w = ShuttingDown)) w [] /\
  iorun t is_stopping w = Next (bool_decide (reported w = Stopping)) w [] /\
  iorun t is_terminated w = Next (bool_decide (reported w = Terminated)) w [] /\
  iorun t service_is_not_running w = Next (negb (bool_decide (reported w = Running))) w [] /\
  iorun t stats w = Next (mkStats (reported w) (task_capacity (svc w)) (count_get (active_tasks (svc w)))) w [] /\
  (reported w = Terminated <->
    load (lifecycle_byte (svc w)) <> Running /\ count_get (active_tasks (svc w)) = 0).
Proof.
  assert (forall l, iorun t (lifecycle_is l) w = Next (bool_decide (reported w = l)) w []) as His.
  { intros l. unfold lifecycle_is, service_lifecycle. by erewrite io_run_seq by apply io_run_lifecycle. }
  split_and!; [apply io_run_lifecycle|apply His..| | |].
  - cbn. do 2 f_equal. apply bool_decide_ext. unfold reported. case_bool_decide; [done|].
    by destruct (_ =? 0).
  - unfold stats. by erewrite io_run_seq by apply io_run_lifecycle.
  - unfold reported. case_bool_decide as Hr; [by rewrite Hr; intuition|].
    destruct (Z.eqb_spec (count_get (active_tasks (svc w))) 0) as [Hz|Hz]; [done|].
    destruct (stored_cases _ Hb) as [[_ Hl]|[[_ Hl]|[_ Hl]]]; rewrite Hl; intuition congruence.
Qed.

(** Waiting for termination: in a terminated service [await_termination]
    returns at once and leaves no waiter behind; in any other state it waits, unless
    its caller drops it, which leaves no waiter behind either. *)
Theorem io_await_effect t w fuel (Hfresh : waiting (termination_notify (svc w)) (next_waiter w) = false) :
  (reported w = Terminated -> exists w', iorun t (service_await_termination fuel) w = Next true w' [] /\
    (forall x, waiting (termination_notify (svc w')) x = waiting (termination_notify (svc w)) x)) /\
  (reported w <> Terminated -> iorun t (service_await_termination (S fuel)) w = Blocked) /\
  (reported w <> Terminated -> exists w', iorun t (service_await_termination 0) w = Next false w' [] /\
    (forall x, waiting (termination_notify (svc w')) x = waiting (termination_notify (svc w)) x)).
Proof.
  set (x := next_waiter w). set (w1 := set_next_waiter (S x) w).
  set (w2 := set_svc (set_termination_notify (enlist (termination_notify (svc w)) x)) w1).
  assert (forall n, iorun t (service_await_termination n) w =
    iorun t (if bool_decide (reported w = Terminated) then do (DropNotified x) ;; Ret true
      else match n with
           | O => do (DropNotified x) ;; Ret false
           | S n => do (AwaitNotified x) ;; await_termination_loop n x
           end)%exec w2) as Hrun.
  { intros n. unfold service_await_termination, await_termination. rewrite (io_run_step t NewWaiter _ w x w1) by done.
    destruct n; cbn [await_termination_loop]; rewrite (io_run_step t (Enable x) _ w1 () w2) by done;
      by erewrite io_run_seq by apply io_run_lifecycle. }
  assert (forall y, waiting (delist (enlist (termination_notify (svc w)) x) x) y =
    waiting (termination_notify (svc w)) y) as Hleft.
  { intros y. rewrite waiting_delist, waiting_enlist. bd Hx; [subst y; symmetry; exact Hfresh|done]. }
  split_and!.
  - intros Ht. rewrite Hrun, bool_decide_eq_true_2 by done. by eexists.
  - intros Hne. rewrite Hrun, bool_decide_eq_false_2 by done. cbn. by rewrite waiting_enlist, bool_decide_eq_true_2.
  - intros Hne. rewrite Hrun, bool_decide_eq_false_2 by done. by eexists.
Qed.
(** ** Cancellation, shutdown and stop *)

(** Cancelling through a handle: a finished task is reported as such and
    nothing happens; otherwise the runtime is asked to abort the task and the
    service itself is untouched.  When the runtime then drops the task, its
    future is destroyed unpolled, its handle yields [Cancelled] - or [Panicked], if the
    future's destructor panics -, and slot, marker and entry are given back. *)
Theorem io_cancel_effect t t' w ch h future m c rt'
    (Hch : channels w !! ch = Some c) (Hp : pending c = false) (Hcon : content c = Some (future, m))
    (Hl : abort_lock (svc w) = None) (Ha : 0 < count_get (active_tasks (svc w)))
    (Hd : dispatch (abort (rt w) h) h = (false, rt')) :
  let handle := mkTaskHandle (mkBlock ch h) in
  iorun t (handle_is_done handle) w = Next (is_finished (rt w) h) w [] /\
  (is_finished (rt w) h = true ->
    iorun t (handle_cancel_task handle) w = Next CancelResult.AlreadyFinished w []) /\
  (is_finished (rt w) h = false -> exists w',
    iorun t (handle_cancel_task handle) w = Next CancelResult.Cancelled (set_rt (abort (rt w) h) w) [] /\
    iorun t' (async_block polls (mkBlock ch h)) (set_rt (abort (rt w) h) w) = Next () w' [] /\
    iorun t (handle_await handle) w' =
      Next (after_destructor rt' future (inr TaskExecutionError.Cancelled)) w' [] /\ released w w' m).
Proof.
  split_and!; [done| |].
  - intros Hf. unfold handle_cancel_task. by rewrite (io_run_step t _ _ w true w) by (cbn; by rewrite Hf).
  - intros Hf. set (w1 := set_rt (abort (rt w) h) w).
    destruct (io_run_block t' w1 ch h future m c Hch Hp Hcon Hl Ha) as (w' & j & Hrun & Hrel & Hj & Hres).
    unfold driven in Hres. cbn [w1 rt set_rt] in Hres. rewrite Hd in Hres. cbn [fst] in Hres. exists w'.
    split_and!; [|exact Hrun|rewrite <- Hres; by eapply io_await_joined|].
    + unfold handle_cancel_task. by rewrite (io_run_step t _ _ w false w) by (cbn; by rewrite Hf).
    + by eapply io_released_rt.
Qed.

(** [shutdown] closes admission without touching tasks: [Running] becomes
    [ShuttingDown], any later state stays; the active count, the map and the
    markers are unchanged, capacity subscribers are notified and every
    termination waiter is woken. *)
Theorem io_shutdown_effect t w (Hl : submission_lock (svc w) = None) :
  exists w', iorun t service_shutdown w = Next () w' [] /\
    load (lifecycle_byte (svc w')) =
      (if bool_decide (load (lifecycle_byte (svc w)) = Running) then ShuttingDown
       else load (lifecycle_byte (svc w))) /\
    submission_lock (svc w') = None /\ active_tasks (svc w') = active_tasks (svc w) /\
    abort_handles (svc w') = abort_handles (svc w) /\ registrations w' = registrations w /\
    capacity_tx (svc w') = published (capacity_tx (svc w)) /\ nobody_waits w'.
Proof.
  assert (load (fetch_update shutdown_update (lifecycle_byte (svc w))) =
    if bool_decide (load (lifecycle_byte (svc w)) = Running) then ShuttingDown
    else load (lifecycle_byte (svc w))) as Hload.
  { change (fetch_update _ _) with (LifecycleBits.shutdown (lifecycle_byte (svc w))).
    rewrite shutdown_spec. case_bool_decide; [|done]. apply from_u8_as_u8. }
  unfold service_shutdown. cbn. rewrite Hl. cbn.
  eexists. split; [done|]. split_and!; [exact Hload|done..|]. intros x. cbn. apply waiting_wake_all.
Qed.

Lemma io_run_abort_all t handles : forall n w,
  exists n' rt', iorun t (abort_all n handles) w = Next n' (set_rt rt' w) [] /\
    n <= n' <= n + Z.of_nat (length handles) /\
    ((forall rt h h', is_finished (abort rt h) h' = is_finished rt h') ->
      n' = n + Z.of_nat (length (filter (fun p => is_finished (rt w) (ta_handle (snd p)) = false) handles))).
Proof.
  induction handles as [|[k e] rest IH]; intros n w; cbn [abort_all length].
  { exists n, (rt w). split_and!; [by destruct w|cbn; lia..]. }
  rewrite (io_run_step t (HandleIsFinished (ta_handle e)) _ w (is_finished (rt w) (ta_handle e)) w) by done.
  destruct (is_finished (rt w) (ta_handle e)) eqn:Hf; cbn [negb].
  - destruct (IH n w) as (n' & rt' & Hrun & Hle & Hex). exists n', rt'. split_and!; [done|lia..|].
    intros Hkeep. rewrite (Hex Hkeep), filter_cons_False by (cbn; congruence). done.
  - set (w1 := set_rt (abort (rt w) (ta_handle e)) w).
    rewrite (io_run_step t (HandleAbort (ta_handle e)) _ w () w1) by done.
    destruct (IH (n + 1) w1) as (n' & rt' & Hrun & Hle & Hex). exists n', rt'.
    split_and!; [by rewrite Hrun|lia..|].
    intros Hkeep. rewrite (Hex Hkeep), filter_cons_True by done. cbn [length].
    rewrite (list_filter_iff _ (fun p => is_finished (rt w) (ta_handle (snd p)) = false));
      [lia|]. intros p. cbn. by rewrite Hkeep.
Qed.

(** The state a stop leaves behind, the runtime being in state [rt']. *)
Definition stopped_state w (rt' : runtime) : IoWorld :=
  set_notified (S (notified w)) (set_svc (fun s => set_termination_notify (wake_all (termination_notify s))
    (set_capacity_tx (published (capacity_tx s)) (set_abort_handles ∅ (set_lifecycle (as_u8 Stopping) s))))
    (set_rt rt' w)).

Lemma io_run_stop t w :
  unlocked w ->
  exists n rt', iorun t service_stop w =
      Next (Build_StopReport 0 (count_get (active_tasks (svc w))) n) (stopped_state w rt') [] /\
    0 <= n <= Z.of_nat (size (abort_handles (svc w))) /\
    ((forall rt h h', is_finished (abort rt h) h' = is_finished rt h') ->
      n = Z.of_nat (length (filter (fun p => is_finished (rt w) (ta_handle (snd p)) = false)
        (map_to_list (abort_handles (svc w)))))).
Proof.
  intros [Hl Hal].
  set (w1 := set_svc (fun s => set_abort_handles ∅ (set_lifecycle (as_u8 Stopping) s)) w).
  destruct (io_run_abort_all t (map_to_list (abort_handles (svc w))) 0 w1) as (n & rt' & Hrun & Hle & Hex).
  rewrite length_map_to_list in Hle. exists n, rt'. split_and!; [|lia..|exact Hex].
  unfold service_stop, lock_submission, IoState.stop.
  rewrite (io_run_step t LockSubmission _ w () (set_svc (set_submission_lock (Some t)) w)) by (cbn; by rewrite Hl).
  erewrite io_run_step by done. erewrite io_run_step by done. cbv iota beta. erewrite io_run_step by done.
  assert (iorun t abort_tracked_tasks (set_svc (set_lifecycle (as_u8 Stopping)) w) =
    Next n (set_rt rt' w1) []) as Hat.
  { unfold abort_tracked_tasks, lock_abort_handles. erewrite io_run_step by (cbn; by rewrite Hal).
    erewrite io_run_step by done. erewrite io_run_step by done. rewrite <- Hrun. f_equal.
    unfold w1. destruct w as [[]]; cbn in *. by subst. }
  replace (set_svc (set_submission_lock None) _) with (set_svc (set_lifecycle (as_u8 Stopping)) w)
    by (clear -Hl; destruct w as [[]]; cbn in *; by subst).
  erewrite io_run_seq by exact Hat. done.
Qed.


(** ** A stop between registration and delivery *)

(** A task that the runtime drops before its future arrived. *)
Lemma io_run_block_empty t w ch h c rt' :
  channels w !! ch = Some c -> content c = None -> dispatch (rt w) h = (false, rt') ->
  exists d, iorun t (async_block polls (mkBlock ch h)) w =
      Next () (set_joined ((mkBlock ch h, inr (mkJoinError true)) :: joined w)
        (set_rt rt' (set_channels (<[ch := d]> (channels w)) w))) [] /\
    content d = None /\ closed d = true.
Proof.
  intros Hch Hcon Hgo. destruct (drop_receiver_spec _ c) as (d & Hd & ? & ?). rewrite Hcon in Hd.
  exists d. split; [|done]. unfold async_block. cbn [ab_channel ab_handle].
  erewrite io_run_step by (cbn; unfold channel_at; rewrite Hgo, Hch; cbn; by rewrite Hd). done.
Qed.

(** A future refused by a task that is gone is dropped, with its guard, by the
    submitter; a panic of its destructor reaches the submitter after that. *)
Lemma io_run_deliver_refused t w future block ch m c :
  channels w !! ch = Some c -> content c = None -> closed c = true ->
  abort_lock (svc w) = None -> 0 < active w ->
  exists w', iorun t (deliver (handoff_new future block ch m)) w =
      after_drop future (mkTaskHandle block) w' /\
    released w w' m /\ rt w' = rt w /\ joined w' = joined w.
Proof.
  intros Hch Hcon Hcl Hl Ha. destruct (send_closed _ c (future, m) Hcl Hcon) as (d & Hd & _).
  set (w1 := set_channels (<[ch := d]> (channels w)) w).
  destruct (io_run_guarded_drop t None (future, m) w1 Hl Ha) as (w' & Hrun & Hrel & Hrt & Hj).
  exists w'. split_and!; [|by destruct Hrel|exact Hrt|exact Hj].
  unfold deliver, handoff_new, guarded_new. cbn [ho_future ho_handle ho_sender ho_guard].
  rewrite (io_run_step t (Send ch (future, m)) _ w (Some (future, m)) w1)
    by (cbn; unfold channel_at; by rewrite Hch; cbn; rewrite Hd).
  rewrite run_bind. erewrite io_run_seq by exact Hrun. unfold after_drop. rewrite Hrt.
  change (rt w) with (rt w1). cbn [fst]. by destruct (future_drop_panics _ _).
Qed.
(** C37. When [stop] finds a registered task whose future has not been delivered yet, the
    slot stays counted until that future is destroyed: by the submitter if the runtime
    drops the task first, by the runtime if the future arrives first.  Either way the
    count is then the one before the submission, the marker is finished, no entry is
    left, and the handle says [Cancelled].  This holds also if the future's destructor
    panics: that panic reaches the submitter in the one case, after all this, and is
    what the handle reports in the other. *)
Theorem io_stop_before_delivery t t' t'' w future
    (Hun : unlocked w) (Hr : load (lifecycle_byte (svc w)) = Running) (Hroom : has_room w)
    (Ha : 0 <= count_get (active_tasks (svc w)))
    (Hfresh : abort_handles (svc w) !! key (length (registrations w)) = None) :
  exists h w1 rep w2, let block := mkBlock (length (channels w)) h in
    let handoff := handoff_new future block (length (channels w)) (length (registrations w)) in
    let handle := mkTaskHandle block in
    let gone w' result := active w' = active w /\ abort_handles (svc w') = ∅ /\ unlocked w' /\
      registrations w' = registrations w ++ [true] /\
      iorun t (handle_await handle) w' = Next result w' [] in
    iorun t (prepare_spawn future) w = Next (inl handoff) w1 [block] /\
    iorun t' service_stop w1 = Next rep w2 [] /\ active w2 = active w + 1 /\
    forall rt', dispatch (rt w2) h = (false, rt') ->
      (exists w3 w4, iorun t'' (async_block polls block) w2 = Next () w3 [] /\ active w3 = active w + 1 /\
        iorun t (deliver handoff) w3 = after_drop future handle w4 /\
        gone w4 (inr TaskExecutionError.Cancelled)) /\
      (exists w3 w4, iorun t (deliver handoff) w2 = Next handle w3 [] /\ active w3 = active w + 1 /\
        iorun t'' (async_block polls block) w3 = Next () w4 [] /\
        gone w4 (after_destructor rt' future (inr TaskExecutionError.Cancelled))).
Proof.
  destruct (io_run_prepare t w future Hun Hr Hroom Hfresh) as (h & w1 & Hrun & Hreg).
  destruct Hreg as [Hun1 _ Hact Hregs Hch _ _ Hj].
  destruct (io_run_stop t' w1 Hun1) as (n & rt1 & Hstop & _).
  set (w2 := stopped_state w1 rt1) in *. assert (active w2 = active w + 1) as Ha2 by exact Hact.
  assert (channels w2 !! length (channels w) = Some channel) as Hnew
    by (cbn; by rewrite Hch, lookup_app_r, Nat.sub_diag).
  assert (abort_lock (svc w2) = None) as Hal by apply Hun1.
  exists h, w1, (Build_StopReport 0 (count_get (active_tasks (svc w1))) n), w2. cbv zeta.
  split_and!; [exact Hrun|exact Hstop|exact Ha2|]. intros rt' Hgo.
  assert (forall w' w4, released w' w4 (length (registrations w)) ->
    active w' = active w + 1 -> abort_handles (svc w') = ∅ -> registrations w' = registrations w ++ [false] ->
    unlocked w' ->
    active w4 = active w /\ abort_handles (svc w4) = ∅ /\ unlocked w4 /\
    registrations w4 = registrations w ++ [true]) as Hgone.
  { intros w' w4 [Ract [Rl Ral] _ Rregs Rh _ _] Ha' Hh' Hr' [Hs' _].
    split_and!; [lia|by rewrite Rh, Hh', delete_empty|by split; [rewrite Rl|]|].
    by rewrite Rregs, Hr', io_insert_append_finished. }
  split.
  - destruct (io_run_block_empty t'' w2 (length (channels w)) h channel rt' Hnew (content_channel _) Hgo)
      as (d & Hblock & Hdc & Hdo).
    set (w3 := set_joined _ _) in Hblock.
    destruct (io_run_deliver_refused t w3 future (mkBlock (length (channels w)) h) (length (channels w))
      (length (registrations w)) d) as (w4 & Hdel & Hrel & _ & Hj4); [|done|done|exact Hal|unfold active in *; cbn; lia|].
    { cbn. by apply list_lookup_insert_eq, lookup_lt_Some with channel. }
    destruct (Hgone w3 w4 Hrel Ha2 eq_refl Hregs Hun1) as (? & ? & ? & ?).
    exists w3, w4. split_and!; [exact Hblock|exact Ha2|exact Hdel|done..|].
    by apply (io_await_joined t w4 _ _ (inr (mkJoinError true)) (joined w2)).
  - destruct (io_run_deliver t w2 future (mkBlock (length (channels w)) h) (length (channels w))
      (length (registrations w)) channel Hnew (content_channel _) (closed_channel _)) as (d & Hdel & Hdc & Hdp & _).
    set (w3 := set_channels _ w2) in Hdel.
    destruct (io_run_block t'' w3 (length (channels w)) h future (length (registrations w)) d)
      as (w4 & j & Hblock & Hrel & Hj4 & Hres); [|done|done|exact Hal|unfold active in *; cbn; lia|].
    { cbn. by apply list_lookup_insert_eq, lookup_lt_Some with channel. }
    destruct (Hgone w3 w4 Hrel Ha2 eq_refl Hregs Hun1) as (? & ? & ? & ?).
    unfold driven in Hres. change (rt w3) with (rt w2) in Hres. rewrite Hgo in Hres. cbn [fst] in Hres.
    exists w3, w4. split_and!; [exact Hdel|exact Ha2|exact Hblock|done..|].
    rewrite <- Hres. by eapply io_await_joined.
Qed.
End IoSequential.
