(* ===== verification/IoTermination.v ===== *)
(** * Every run of the IO service is finite

    A spawned task starts nothing, and it is polled a bounded number of times
    ([polls], any bound); so clients and tasks act finitely often and every run
    ends in a quiescent configuration. *)

From S2P Require Import Prelude Conc Termination External LifecycleBits ServiceSpec Registration IoState IoService IoInv IoSpecs IoCorrect.
From stdpp Require Import prelude list gmap.
#[local] Open Scope Z_scope.

Section IoTermination.
Context `{!BuildProfile, !LifecycleRepr, !Allocator, !Tokio, !Oneshot, !WaiterSet, !Watch, !AtomicCount}.
Context {Fut R E : Type} `{!UserFuture Fut R E}.
Context (polls : nat).
#[local] Abbreviation IoWorld := (IoWorld (Fut := Fut) (R := R) (E := E)).
#[local] Abbreviation ioact := (ioact (Fut := Fut) (R := R) (E := E)).
#[local] Abbreviation no_starts := (no_starts (M := io_machine (Fut := Fut) (R := R) (E := E) polls)).

(** ** Only [Spawn] starts a thread *)

Definition io_spawns {B} (a : ioact B) : bool := match a with Spawn _ => true | _ => false end.

Lemma io_not_spawn {B} (a : ioact B) : io_spawns a = false -> starts_nothing (M := io_machine polls) a.
Proof.
  intros Ha t s b s' fs. cbn. destruct a; try done; cbn;
    repeat match goal with |- context [match ?x with _ => _ end] => destruct x; cbn end; intros He; by inversion He.
Qed.

Ltac no_starts :=
  repeat first
    [ apply no_starts_bind; [|intros]
    | progress cbn [Termination.no_starts do]
    | match goal with |- Termination.no_starts (match ?x with _ => _ end) => destruct x end
    | split; [by apply io_not_spawn|intros] ]; try exact I.

Lemma guarded_drop_no_starts owner payload : no_starts (guarded_drop owner payload).
Proof.
  unfold guarded_drop, guard_drop, remove_abort_handle, notify_capacity_changed,
    notify_termination_waiters. no_starts.
Qed.

Lemma end_task_no_starts block payload j : no_starts (end_task block payload j).
Proof. unfold end_task. no_starts; apply guarded_drop_no_starts. Qed.

Lemma poll_loop_no_starts n h m : forall future, no_starts (poll_loop n h future m).
Proof.
  induction n as [|n IH]; intros future; cbn [poll_loop]; no_starts;
    first [apply end_task_no_starts|apply IH].
Qed.

Lemma async_block_no_starts (f : AsyncBlock) : no_starts (async_block polls f).
Proof.
  unfold async_block. no_starts; first [apply end_task_no_starts|apply poll_loop_no_starts].
Qed.

(** ** The theorems *)

Section Reachable.
Context (capacity : Z) (rt0 : runtime) (ps0 : list (Prog ioact ())).
#[local] Abbreviation reach := (io_reachable (Fut := Fut) (R := R) (E := E) polls capacity rt0 ps0).
#[local] Abbreviation io_ends_in := (ends_in (M := io_machine (Fut := Fut) (R := R) (E := E) polls)).

(** C15. Every run of the IO service terminates, quiescent: from any reachable
    configuration, whatever the scheduler picks and the runtime does, the
    threads act only finitely often, and when none of them can act any more
    every call has returned except waits for the termination of a running
    service, and nothing is held, active, registered or left in a channel.  Every
    future is taken to end, or to be dropped by the runtime, after finitely many polls,
    however many ([polls]).  Only the panic of a future's destructor, if there are such futures, ends a call in another
    way. *)
Theorem io_runs_terminate c
    (Hcap : 1 <= capacity <= usize_MAX) (Hps : Forall IoClient ps0) (Hr : reach c) :
  io_ends_in (quiescent polls) c.
Proof.
  apply (runs_end async_block_no_starts). intros c' Hr' Hst.
  apply (io_stuck_is_quiescent polls capacity rt0 ps0); [done..| |done]. by eapply rtc_trans.
Qed.

(** C16. Shutdown of the IO service completes: once [shutdown] or [stop] took
    effect, every run ends, and it ends with all threads finished - every
    spawner, every waiter, every task: they returned, unless a future's destructor
    panicked - and no active task.  Again every future is taken to end, or to be dropped
    by the runtime, after finitely many polls. *)
Theorem io_shutdown_completes c
    (Hcap : 1 <= capacity <= usize_MAX) (Hps : Forall IoClient ps0) (Hr : reach c)
    (Hc : load (lifecycle_byte (svc (fst c))) <> Running) :
  io_ends_in (fun c' => Forall (finished (M := io_machine polls)) (snd c') /\
    count_get (active_tasks (svc (fst c'))) = 0) c.
Proof.
  apply (runs_end async_block_no_starts). intros c' Hr' Hst.
  assert (reach c') as Hr2 by by eapply rtc_trans.
  destruct (refines_closed (HR := io_refines polls capacity rt0 ps0 Hcap Hps) c c' Hr Hr' Hc) as [Hc' _].
  destruct (io_stuck_is_quiescent polls capacity rt0 ps0 c' Hcap Hps Hr2 Hst) as (Hts & _ & _ & Hn & _).
  split; [|done].
  apply Forall_lookup. intros t p Hp. destruct (Hts t p Hp) as [|[_ Hl]]; [done|by destruct Hc'].
Qed.

(** A task or thread that awaits the handle of a spawned task. *)
Definition awaits_handle (p : Prog ioact ()) : Prop :=
  match p with Act (AwaitJoin _ _) _ => True | _ => False end.

(** C17. Every handle of the IO service resolves: from every reachable configuration
    every run ends with nobody awaiting a handle, and with exactly one result for
    every spawned task, whatever is cancelled, stopped, dropped by the runtime or
    panics - the one that its polls and its destruction amount to.  Again every
    future is taken to end, or to be dropped by the runtime, after finitely many polls. *)
Theorem io_handles_resolve c
    (Hcap : 1 <= capacity <= usize_MAX) (Hps : Forall IoClient ps0) (Hr : reach c) :
  io_ends_in (fun c' => (forall t p, snd c' !! t = Some p -> ~ awaits_handle p) /\
    forall ch, (ch < length (channels (fst c')))%nat -> resolved (fst c') ch) c.
Proof.
  apply (runs_end async_block_no_starts). intros c' Hr' Hst.
  assert (reach c') as Hr2 by by eapply rtc_trans.
  destruct (io_stuck_is_quiescent polls capacity rt0 ps0 c' Hcap Hps Hr2 Hst) as (Hts & _ & _ & _ & _ & _ & _ & Hres).
  split; [|exact Hres]. intros t p Hp Ha.
  destruct (Hts t p Hp) as [Hw|[Hw _]]; by destruct p as [| |B [] k].
Qed.

(** A thread that waits for a change of capacity. *)
Definition awaits_capacity (p : Prog ioact ()) : Prop :=
  match p with Act (AwaitChanged _) _ => True | _ => False end.

(** C19. No change of capacity of the IO service is lost: producers that
    subscribe, attempt, and wait for the next change whenever the service is
    saturated are never stranded.  From any reachable configuration every run
    ends with no thread waiting for capacity - whatever ended the active tasks (a
    result, an abort, a panic, a refused hand-over) or closed the service, and
    however the end was interleaved with the attempt and the wait.  Again every
    future is taken to end, or to be dropped by the runtime, after finitely many polls. *)
Theorem io_producers_served c
    (Hcap : 1 <= capacity <= usize_MAX) (Hps : Forall IoClient ps0) (Hr : reach c) :
  io_ends_in (fun c' => forall t p, snd c' !! t = Some p -> ~ awaits_capacity p) c.
Proof.
  apply (runs_end async_block_no_starts). intros c' Hr' Hst t p Hp Ha.
  assert (reach c') as Hr2 by by eapply rtc_trans.
  destruct (io_stuck_is_quiescent polls capacity rt0 ps0 c' Hcap Hps Hr2 Hst) as [Hts _].
  destruct (Hts t p Hp) as [Hw|[Hw _]]; by destruct p as [| |B [] k].
Qed.
End Reachable.
End IoTermination.
