(* ===== verification/IoResults.v ===== *)
(** * What the handle of an IO task reports

    The result of a task is explained by what it saw of its future, and remains so; one
    future followed from submission to its end shows where the result comes from. *)

From S2P Require Import Prelude Conc External LifecycleBits ServiceSpec Registration IoState IoService IoInv IoActions IoChannels IoJoins IoSpecs IoCorrect.
From stdpp Require Import prelude list gmap.
#[local] Open Scope Z_scope.

Section IoResults.
Context `{!BuildProfile, !LifecycleRepr, !Allocator, !Tokio, !Oneshot, !WaiterSet, !Watch, !AtomicCount}.
Context {Fut R E : Type} `{!UserFuture Fut R E}.
Context (polls : nat).
#[local] Abbreviation IoWorld := (IoWorld (Fut := Fut) (R := R) (E := E)).
#[local] Abbreviation ioact := (ioact (Fut := Fut) (R := R) (E := E)).
Implicit Types (s : IoWorld).

Lemma join_ready (j : JoinResult R E) : poll_task_handle (Ready j) = Ready (join_result j).
Proof. by destruct j. Qed.

(** What the handle of a spawned task says when it is ready. *)
Lemma polled_ready s block result :
  (ab_channel block < length (channels s))%nat ->
  poll_task_handle (join_poll s block) = Ready result ->
  exists j rest, joined_of (ab_channel block) s = j :: rest /\ join_result j = result.
Proof.
  intros Hlt. unfold join_poll. destruct (joined_of (ab_channel block) s) as [|j rest].
  - by rewrite decide_True.
  - rewrite join_ready. intros [= <-]. by exists j, rest.
Qed.

Lemma joined_of_suffix s s' ch : joined s `suffix_of` joined s' -> joined_of ch s `suffix_of` joined_of ch s'.
Proof.
  intros [l Hl]. exists (snd <$> filter (fun x => ab_channel (fst x) = ch) l).
  unfold joined_of. by rewrite Hl, list.filter_app, fmap_app.
Qed.

Section Reachable.
Context (capacity : Z) (rt0 : runtime) (ps0 : list (Prog ioact ())).
#[local] Abbreviation reach := (io_reachable (Fut := Fut) (R := R) (E := E) polls capacity rt0 ps0).

(** C18. The result of a task is explained by what polling its future gave: no future is
    polled again after it has ended; a handle that is ready keeps its result; and the
    result is what the last poll returned - mapped to success or failure -, that it
    panicked, that the destructor panicked after it, or, if nothing ended the future,
    that the task was cancelled, and then no later poll ends it. *)
Theorem io_results_explained c c' block
    (Hcap : 1 <= capacity <= usize_MAX) (Hps : Forall IoClient ps0) (Hr : reach c)
    (Hr' : reachable (M := io_machine polls) c c') :
  polled_once (polls_of (ab_channel block) (fst c)) /\
  (forall result, (ab_channel block < length (channels (fst c)))%nat ->
    poll_task_handle (join_poll (fst c) block) = Ready result ->
    poll_task_handle (join_poll (fst c') block) = Ready result /\
    explained (polls_of (ab_channel block) (fst c')) result).
Proof.
  assert (reach c') as Hr2 by by eapply rtc_trans.
  destruct c as [s ps], c' as [s' ps'].
  destruct (io_reachable_inv polls capacity rt0 ps0 s ps Hcap Hps Hr) as (_ & r & HI).
  destruct (io_reachable_inv polls capacity rt0 ps0 s' ps' Hcap Hps Hr2) as (_ & r' & HI').
  destruct (io_reachable_progress polls capacity rt0 ps0 _ _ Hcap Hps Hr Hr') as [_ _ _ Hj].
  cbn [fst] in *. split; [by apply io_polled_once with r|]. intros result Hlt Hres.
  destruct (polled_ready s block result Hlt Hres) as (j & rest & Hjo & <-).
  apply (joined_of_suffix _ _ (ab_channel block)) in Hj as [l Hl]. rewrite Hjo in Hl.
  pose proof (joined_at_most s' r' (ab_channel block) HI') as Hone.
  rewrite Hl, length_app in Hone. cbn in Hone. destruct l as [|]; [|cbn in Hone; lia]. cbn in Hl.
  split; [unfold join_poll; by rewrite Hl, join_ready|].
  apply joined_explained with r'; [done|]. rewrite Hl. left.
Qed.
End Reachable.
End IoResults.
