(* ===== verification/IoExamples.v ===== *)
(** * The IO service on concrete schedules

    A service of capacity two on the reference runtime, with futures that are
    ready after a given number of polls: a client that spawns three, cancels the
    first one and awaits it, one that stops the service and waits for its
    termination, and one that only waits. *)

From S2P Require Import Prelude Conc Termination External ExternalRef LifecycleBits ServiceSpec RejectedTask Registration IoState IoService IoInv IoSpecs IoCorrect IoTermination IoResults IoSequential.
From stdpp Require Import prelude list gmap.
#[local] Open Scope Z_scope.

#[local] Instance checked_build : BuildProfile := true.

(** A future is the number of polls it still needs; it yields 42.  Its destructor
    panics when more than six polls are missing. *)
#[local] Instance counting_future : UserFuture nat nat nat := {|
  poll_user rt n := match n with O => (UReady (inl 42%nat), rt) | S n => (UPending n, rt) end;
  future_drop_panics _ n := (6 <? n)%nat;
|}.

Definition idle_runtime : runtime := {| rt_next := 0; rt_done := []; rt_aborted := []; rt_clock := 0 |}.

#[local] Abbreviation act := (ioact (Fut := nat) (R := nat) (E := nat)).
#[local] Abbreviation world := (IoWorld (Fut := nat) (R := nat) (E := nat)).
#[local] Instance machine_of_four_polls : Machine act world AsyncBlock := io_machine 4.

Definition spawner : Prog act () :=
  (let! h := try_spawn 2%nat in
   let! _ := try_spawn 0%nat in
   let! _ := spawn_future 1%nat in
   match h with
   | inl handle => let! _ := handle_cancel_task handle in let! _ := handle_await handle in Ret ()
   | inr _ => Ret ()
   end)%exec.
Definition stopper : Prog act () :=
  (let! _ := stop_and_report in let! _ := answering 9 in Ret ())%exec.
Definition waiter : Prog act () :=
  (let! _ := answering 9 in let! _ := is_terminated in Ret ())%exec.

Definition pool : list (Prog act ()) := [spawner; stopper; waiter].

Lemma io_pool_clients : Forall IoClient pool.
Proof.
  repeat apply Forall_cons_2; [..|apply Forall_nil_2].
  - apply IoClient_call; [constructor|]. intros h. apply IoClient_call; [constructor|]. intros _.
    apply IoClient_call; [constructor|]. intros _. destruct h; [|constructor].
    apply IoClient_call; [constructor|]. intros _. apply IoClient_call; [constructor|]. constructor.
  - apply IoClient_call; [constructor|]. intros _. apply IoClient_call; [constructor|]. constructor.
  - apply IoClient_call; [constructor|]. intros _. apply IoClient_call; [constructor|]. constructor.
Qed.

Definition start : world * list (Prog act ()) := (initial_world 2 idle_runtime, pool).

(** Two futures accepted, the third rejected, the first task about to poll. *)
Definition submitted := drive (replicate 38 0%nat) start.
Definition busy := drive [3; 3]%nat submitted.
Definition finished := drive (concat (replicate 90 [0; 1; 2; 3; 4]%nat)) busy.
(** Alternatively, a stop before the tasks get anywhere. *)
Definition stopped := drive (replicate 60 1%nat) submitted.

Definition reached (c : world * list (Prog act ())) : Prop :=
  io_reachable 4 2 idle_runtime pool (fst c, snd c).

Lemma io_drive_reached ts c : reached c -> reached (drive ts c).
Proof.
  unfold reached. rewrite <- !surjective_pairing. intros Hc. eapply rtc_trans; [exact Hc|].
  apply drive_reachable.
Qed.
Lemma io_start_reached : reached start.
Proof. unfold reached. rewrite <- surjective_pairing. apply rtc_refl. Qed.
Lemma io_submitted_reached : reached submitted.
Proof. apply io_drive_reached, io_start_reached. Qed.
Lemma io_busy_reached : reached busy.
Proof. apply io_drive_reached, io_submitted_reached. Qed.
Lemma io_finished_reached : reached finished.
Proof. apply io_drive_reached, io_busy_reached. Qed.
Lemma io_stopped_reached : reached stopped.
Proof. apply io_drive_reached, io_submitted_reached. Qed.

Lemma io_two_ok : 1 <= 2 <= usize_MAX.
Proof. unfold usize_MAX. lia. Qed.

(** ** The theorems at these configurations *)

Lemma io_stuck_quiescent_witness :
  count_get (active_tasks (svc (fst finished))) = 0 /\ abort_handles (svc (fst finished)) = ∅ /\
  joined (fst finished) =
    [(mkBlock 1%nat 1%nat, inl (inl 42%nat)); (mkBlock 0%nat 0%nat, inr (mkJoinError true))].
Proof.
  destruct (io_stuck_quiescent 4 2 idle_runtime pool (fst finished) (snd finished) io_two_ok
    io_pool_clients io_finished_reached) as (_ & _ & _ & Hc & Hm & _).
  - apply stuckb_stuck. vm_compute. reflexivity.
  - split_and!; [exact Hc|exact Hm|vm_compute; reflexivity].
Defined.

Lemma io_runs_terminate_witness : ends_in (quiescent 4) start.
Proof.
  apply (io_runs_terminate 4 2 idle_runtime pool start io_two_ok io_pool_clients).
  pose proof io_start_reached as Hr. unfold reached in Hr. by rewrite <- surjective_pairing in Hr.
Defined.

Lemma io_shutdown_completes_witness :
  load (lifecycle_byte (svc (fst stopped))) = Stopping /\
  ends_in (fun c' => Forall Conc.finished (snd c') /\
    count_get (active_tasks (svc (fst c'))) = 0) stopped.
Proof.
  split; [vm_compute; reflexivity|].
  apply (io_shutdown_completes 4 2 idle_runtime pool stopped io_two_ok io_pool_clients).
  - pose proof io_stopped_reached as Hr. unfold reached in Hr. by rewrite <- surjective_pairing in Hr.
  - vm_compute. discriminate.
Defined.

(** With room for one task, the second spawn is saturated until the first
    future has been polled to its end. *)
Definition producer : Prog act () :=
  (let! _ := try_spawn 0%nat in
   let! _ := spawn_when_admissible 3 1%nat in Ret ())%exec.

Lemma io_producer_client : Forall IoClient [producer].
Proof.
  apply Forall_cons_2; [|apply Forall_nil_2].
  apply IoClient_call; [constructor|]. intros _. apply IoClient_call; [constructor|]. constructor.
Qed.

Definition saturated := drive (replicate 60 0%nat) (initial_world 1 idle_runtime, [producer]).
Definition served := drive (concat (replicate 60 [1; 0; 2]%nat)) saturated.

Example io_served_joined :
  (snd <$> joined (fst served)) = [inl (inl 42%nat); inl (inl 42%nat)] /\ stuckb served = true.
Proof. split; vm_compute; reflexivity. Qed.

Lemma io_producers_served_witness :
  (exists p, snd saturated !! 0%nat = Some p /\ awaits_capacity p) /\
  ends_in (fun c' => forall t p, snd c' !! t = Some p -> ~ awaits_capacity p) saturated.
Proof.
  split.
  - assert (match snd saturated !! 0%nat with Some p => awaits_capacity p | None => False end) as Hp
      by (vm_compute; exact I).
    destruct (snd saturated !! 0%nat) as [p|]; [by exists p|destruct Hp].
  - apply (io_producers_served 4 1 idle_runtime [producer] saturated);
      [unfold usize_MAX; lia|exact io_producer_client|apply drive_reachable].
Defined.

(** Both waiters have been answered, truthfully. *)
Lemma io_wait_answers_witness :
  answers (fst finished) = [(9%nat, true); (9%nat, true)] /\
  load (lifecycle_byte (svc (fst finished))) <> Running /\
  count_get (active_tasks (svc (fst finished))) = 0.
Proof.
  assert (answers (fst finished) = [(9%nat, true); (9%nat, true)]) as Ha by (vm_compute; reflexivity).
  split; [exact Ha|].
  destruct (io_wait_answers 4 2 idle_runtime pool (fst finished) (snd finished) io_two_ok
    io_pool_clients io_finished_reached) as [Htrue _].
  apply (Htrue 9%nat). rewrite Ha. left.
Defined.

(** The spawner has cancelled the first task and awaits its handle. *)
Definition awaiting := drive (replicate 40 0%nat) submitted.

Lemma io_handles_resolve_witness :
  (exists p, snd awaiting !! 0%nat = Some p /\ awaits_handle p) /\
  ends_in (fun c' => (forall t p, snd c' !! t = Some p -> ~ awaits_handle p) /\
    forall ch, (ch < length (channels (fst c')))%nat -> resolved (fst c') ch) awaiting.
Proof.
  split.
  - assert (match snd awaiting !! 0%nat with Some p => awaits_handle p | None => False end) as Hp
      by (vm_compute; exact I).
    destruct (snd awaiting !! 0%nat) as [p|]; [by exists p|destruct Hp].
  - apply (io_handles_resolve 4 2 idle_runtime pool awaiting io_two_ok io_pool_clients).
    apply (rtc_trans _ submitted); apply drive_reachable.
Defined.

Definition block (n : nat) : AsyncBlock := mkBlock (H2 := tokio_ref) n n.

(** One task was cancelled while its future was being polled, one succeeded, and
    their handles keep these results. *)
Lemma io_results_explained_witness :
  (explained (polls_of 0 (fst finished)) (inr TaskExecutionError.Cancelled : TaskResult nat nat) /\
    polls_of 0 (fst finished) = [Polled (UPending 1%nat)]) /\
  (explained (polls_of 1 (fst finished)) (inl 42%nat : TaskResult nat nat) /\
    polls_of 1 (fst finished) = [Polled (UReady (inl 42%nat))]).
Proof.
  pose proof io_finished_reached as Hr. unfold reached in Hr. rewrite <- surjective_pairing in Hr.
  split.
  - split; [|vm_compute; reflexivity].
    destruct (io_results_explained 4 2 idle_runtime pool finished finished (block 0) io_two_ok
      io_pool_clients Hr (rtc_refl _ _)) as [_ Hex].
    destruct (Hex (inr TaskExecutionError.Cancelled)) as [_ He]; [vm_compute; lia|vm_compute; reflexivity|exact He].
  - split; [|vm_compute; reflexivity].
    destruct (io_results_explained 4 2 idle_runtime pool finished finished (block 1) io_two_ok
      io_pool_clients Hr (rtc_refl _ _)) as [_ Hex].
    destruct (Hex (inl 42%nat)) as [_ He]; [vm_compute; lia|vm_compute; reflexivity|exact He].
Defined.

(** A future that is dropped after four polls, with eight missing: its destructor
    panics in the task, and this is what the handle says. *)
Definition interrupted : world * list (Prog act ()) :=
  drive (replicate 40 1%nat) (drive (replicate 40 0%nat)
    (initial_world 2 idle_runtime, [(let! _ := try_spawn 12%nat in Ret ())%exec])).

Example destructor_panics :
  polls_of 0 (fst interrupted) = DropPanicked ::
    (Polled <$> [UPending 8%nat; UPending 9%nat; UPending 10%nat; UPending 11%nat]) /\
  joined (fst interrupted) = [(block 0, inr (mkJoinError false))] /\
  count_get (active_tasks (svc (fst interrupted))) = 0 /\ abort_handles (svc (fst interrupted)) = ∅ /\
  snd interrupted = [Ret (); Ret ()].
Proof. split_and!; vm_compute; reflexivity. Qed.

(** One future is being polled, one waits in its channel, both are counted. *)
Lemma io_capacity_respected_witness :
  tally (fun p => b2z (at_future p)) (snd busy) + tally w_stored (channels (fst busy)) = 2 /\
  count_get (active_tasks (svc (fst busy))) <= 2.
Proof.
  split; [vm_compute; reflexivity|].
  apply (io_capacity_respected 4 2 idle_runtime pool (fst busy) (snd busy) io_two_ok io_pool_clients
    io_busy_reached).
Defined.

(** Thread 3, a spawned task, is about to poll its future. *)
Lemma io_no_panic_witness :
  match lookup (A := Prog act ()) 3%nat (snd busy) with
  | Some (Act c _) => ioexec (Fut := nat) (R := nat) (E := nat) 3 c (fst busy) <> Panicked
  | _ => False
  end.
Proof.
  assert (match lookup (A := Prog act ()) 3%nat (snd busy) with Some (Act _ _) => True | _ => False end)
    as Hact by (vm_compute; exact I).
  destruct (lookup (A := Prog act ()) 3%nat (snd busy)) as [[| |B c k]|] eqn:Ht; [destruct Hact..| |destruct Hact].
  exact (io_no_panic 4 2 idle_runtime pool (fst busy) (snd busy) 3 B c k io_two_ok io_pool_clients
    io_busy_reached Ht).
Defined.

Lemma io_callbacks_outside_locks_witness :
  submission_lock (svc (fst busy)) <> Some 3%nat /\ abort_lock (svc (fst busy)) <> Some 3%nat.
Proof.
  assert (option_map at_callback (snd busy !! 3%nat) = Some true) as Hp by (vm_compute; reflexivity).
  destruct (snd busy !! 3%nat) as [p|] eqn:He; [|discriminate Hp]. injection Hp as Hp.
  apply (io_callbacks_outside_locks 4 2 idle_runtime pool (fst busy) (snd busy) 3 p io_two_ok
    io_pool_clients io_busy_reached He Hp).
Defined.

Lemma io_admission_closed_witness :
  load (lifecycle_byte (svc (fst stopped))) <> Running /\
  length (registrations (fst (drive (replicate 90 2%nat) stopped))) = length (registrations (fst stopped)).
Proof.
  assert (load (lifecycle_byte (svc (fst stopped))) <> Running) as Hn by (vm_compute; discriminate).
  split; [exact Hn|]. pose proof io_stopped_reached as Hr. unfold reached in Hr.
  rewrite <- surjective_pairing in Hr.
  destruct (io_admission_closed 4 2 idle_runtime pool stopped (drive (replicate 90 2%nat) stopped)
    io_two_ok io_pool_clients Hr Hn (drive_reachable _ _)) as (_ & _ & _ & Hl).
  exact Hl.
Defined.

Lemma io_termination_stable_witness :
  count_get (active_tasks (svc (fst (drive [0; 1; 2]%nat finished)))) = 0.
Proof.
  pose proof io_finished_reached as Hr. unfold reached in Hr. rewrite <- surjective_pairing in Hr.
  apply (io_termination_stable 4 2 idle_runtime pool finished (drive [0; 1; 2]%nat finished) io_two_ok
    io_pool_clients Hr); [vm_compute; discriminate|vm_compute; reflexivity|apply drive_reachable].
Defined.

Lemma io_stop_reports_bounded_witness :
  Build_StopReport 0 2 2 ∈ reports (fst stopped) /\
  (forall rep, rep ∈ reports (fst stopped) ->
    report_queued rep = 0 /\ 0 <= report_cancelled rep <= report_running rep).
Proof.
  split; [|exact (io_stop_reports_bounded 4 2 idle_runtime pool (fst stopped) (snd stopped) io_two_ok
    io_pool_clients io_stopped_reached)].
  assert (reports (fst stopped) = [Build_StopReport 0 2 2]) as -> by (vm_compute; reflexivity).
  left.
Defined.

Lemma io_abort_handles_bounded_witness :
  size (abort_handles (svc (fst busy))) = 2%nat /\
  Z.of_nat (size (abort_handles (svc (fst busy)))) <= count_get (active_tasks (svc (fst busy))).
Proof.
  split; [vm_compute; reflexivity|].
  apply (io_abort_handles_bounded 4 2 idle_runtime pool (fst busy) (snd busy) io_two_ok
    io_pool_clients io_busy_reached).
Defined.

(** The submitter is about to take its first slot. *)
Definition accepting := drive (replicate 4 0%nat) start.

Lemma io_keeps_contract_witness :
  match step_at 0 accepting with
  | Some c' => contract_moves false (view (fst accepting)) (view (fst c')) /\
      c_total (view (fst accepting)) = 0 /\ c_total (view (fst c')) = 1
  | None => False
  end.
Proof.
  assert (option_map (fun c' => c_total (view (fst c'))) (step_at 0 accepting) = Some 1) as Htot
    by (vm_compute; reflexivity).
  destruct (step_at 0 accepting) as [c'|] eqn:Hs; [|discriminate Htot]. injection Htot as Htot.
  destruct (io_keeps_contract 4 2 idle_runtime pool accepting c' io_two_ok io_pool_clients) as (_ & _ & _ & Hm).
  - apply drive_reachable.
  - exact (step_at_step _ _ _ Hs).
  - split_and!; [exact Hm|vm_compute; reflexivity|exact Htot].
Defined.

(** ** Uninterrupted runs *)

Definition fresh : world := initial_world 2 idle_runtime.
Definition state_of {A} (o : outcome world AsyncBlock A) : world :=
  match o with Next _ w _ => w | _ => fresh end.
Definition one_spawned := state_of (run 0 (try_spawn 2%nat) fresh).
Definition full := state_of (run 0 (try_spawn 0%nat) one_spawned).
Definition closing := state_of (run 0 service_shutdown full).

Lemma io_accepts_witness :
  exists h w' ch,
    run 1 (try_spawn 1%nat) fresh = Next (inl (mkTaskHandle (mkBlock ch h))) w' [mkBlock ch h] /\
    accepted_state fresh w' ch h 1%nat.
Proof.
  apply (io_accepts 4 1 fresh 1%nat); [by split|vm_compute; reflexivity| |done].
  unfold has_room, usize_MAX, active. cbn. lia.
Defined.

Lemma io_rejects_witness :
  (run 1 (try_spawn 9%nat) closing = Next (inr (RejectedTask.new Shutdown 9%nat)) closing [] /\
    run 1 (spawn_future 9%nat) closing = Unwound closing []) /\
  (run 1 (try_spawn 9%nat) full = Next (inr (RejectedTask.new Saturated 9%nat)) full [] /\
    run 1 (spawn_future 9%nat) full = Unwound full []).
Proof.
  destruct (io_rejects 4 1 closing 9%nat) as [Hclosed _]; [vm_compute; reflexivity|].
  destruct (io_rejects 4 1 full 9%nat) as [_ Hfull]; [vm_compute; reflexivity|].
  split; [apply Hclosed; vm_compute; discriminate|].
  apply Hfull; vm_compute; [reflexivity|discriminate].
Defined.

(** The future handed over by [one_spawned] needs three polls of the four. *)
Lemma io_task_completes_witness :
  exists w', run 5 (async_block 4 (mkBlock 0 0%nat)) one_spawned = Next () w' [] /\
    run 1 (handle_await (mkTaskHandle (mkBlock 0 0%nat))) w' = Next (inl 42%nat) w' [] /\ active w' = 0.
Proof.
  destruct (io_task_completes 4 5 1 one_spawned 0 0%nat 2%nat 0
    {| os_value := Some (2%nat, 0%nat); os_sent := true; os_closed := false |})
    as (w' & Hrun & [Ha _ _ _ _ _ _] & Hc); [vm_compute; reflexivity..|].
  exists w'. split; [exact Hrun|]. split; [|rewrite Ha; vm_compute; reflexivity].
  assert (fst (driven 4 0%nat (rt one_spawned) 2%nat) = (inl 42%nat : TaskResult nat nat)) as Hd
    by (vm_compute; reflexivity).
  rewrite Hd in Hc. exact Hc.
Defined.

Lemma io_spawn_then_await_witness :
  exists h w1 w2, let handle := mkTaskHandle (mkBlock 0 h) in
    run 1 (try_spawn 2%nat) fresh = Next (inl handle) w1 [th_handle handle] /\
    run 1 (handle_await handle) w1 = Blocked /\
    run 5 (async_block 4 (th_handle handle)) w1 = Next () w2 [] /\
    run 1 (handle_await handle) w2 = Next (inl 42%nat) w2 [].
Proof.
  destruct (io_spawn_then_await 4 1 5 fresh 2%nat)
    as (h & w1 & w2 & Hr1 & _ & Hb & Hr2 & _ & _ & _ & _ & Hj);
    [by split|vm_compute; reflexivity| |vm_compute; discriminate|done|done|].
  - unfold has_room, usize_MAX, active. cbn. lia.
  - exists h, w1, w2. split; [exact Hr1|]. split; [exact Hb|]. split; [exact Hr2|exact Hj].
Defined.

(** The hand-off test of the crate: a stop between registration and delivery; here the
    destructor of the future panics in the submitter's hands. *)
Definition registered := state_of (run 1 (prepare_spawn 7%nat) fresh).
Definition halted := state_of (run 2 service_stop registered).

Lemma io_stop_before_delivery_witness :
  exists w3 w4, run 5 (async_block 4 (block 0)) halted = Next () w3 [] /\ active w3 = 1 /\
    run 1 (deliver (handoff_new 7%nat (block 0) 0 0)) w3 = Unwound w4 [] /\
    active w4 = 0 /\
    run 1 (handle_await (mkTaskHandle (block 0))) w4 = Next (inr TaskExecutionError.Cancelled) w4 [].
Proof.
  destruct (io_stop_before_delivery 4 1 2 5 fresh 7%nat) as (h & w1 & rep & w2 & Hp & Hs & _ & Hgone);
    [by split|vm_compute; reflexivity|unfold has_room, usize_MAX, active; cbn; lia|vm_compute; discriminate|done|].
  pose proof (f_equal state_of Hp) as E1. change (registered = w1) in E1. subst w1.
  pose proof (f_equal state_of Hs) as E2. change (halted = w2) in E2. subst w2.
  apply (f_equal (fun o => match o with Next (inl x) _ _ => ab_handle (ho_handle x) | _ => h end)) in Hp.
  vm_compute in Hp. subst h.
  destruct (Hgone _ ltac:(vm_compute; reflexivity)) as [(w3 & w4 & Hb & H3 & Hd & H4 & _ & _ & _ & Haw) _].
  exists w3, w4. split; [exact Hb|]. split; [exact H3|]. split; [exact Hd|]. split; [exact H4|exact Haw].
Defined.

Lemma io_queries_agree_witness :
  run 1 is_shutting_down closing = Next true closing [] /\
  run 1 stats closing = Next (mkStats ShuttingDown 2 2) closing [].
Proof.
  destruct (io_queries_agree 4 1 closing) as (_ & _ & Hs & _ & _ & _ & Hst & _);
    [vm_compute; intuition discriminate|].
  split; [exact Hs|exact Hst].
Defined.

Definition drained := state_of (run 0 service_shutdown fresh).

Lemma io_await_effect_witness :
  (exists w', run 1 (service_await_termination 3) drained = Next true w' []) /\
  run 1 (service_await_termination 3) closing = Blocked.
Proof.
  destruct (io_await_effect 4 1 drained 3) as [Hnow _]; [vm_compute; reflexivity|].
  destruct (io_await_effect 4 1 closing 2) as (_ & Hwait & _); [vm_compute; reflexivity|].
  split; [|apply Hwait; vm_compute; discriminate].
  destruct (Hnow ltac:(vm_compute; reflexivity)) as (w' & Hrun & _). exists w'. exact Hrun.
Defined.

Lemma io_cancel_effect_witness :
  exists w', run 1 (handle_cancel_task (mkTaskHandle (mkBlock 0 0%nat))) one_spawned =
      Next CancelResult.Cancelled (set_rt (abort (rt one_spawned) 0%nat) one_spawned) [] /\
    run 5 (async_block 4 (mkBlock 0 0%nat)) (set_rt (abort (rt one_spawned) 0%nat) one_spawned) =
      Next () w' [] /\
    run 1 (handle_await (mkTaskHandle (mkBlock 0 0%nat))) w' = Next (inr TaskExecutionError.Cancelled) w' [].
Proof.
  destruct (io_cancel_effect 4 1 5 one_spawned 0 0%nat 2%nat 0
    {| os_value := Some (2%nat, 0%nat); os_sent := true; os_closed := false |}
    (abort (rt one_spawned) 0%nat)) as (_ & _ & Hc); [vm_compute; reflexivity..|].
  destruct Hc as (w' & Hr1 & Hr2 & Hcp & _); [vm_compute; reflexivity|].
  exists w'. split_and!; [exact Hr1|exact Hr2|exact Hcp].
Defined.

Lemma io_shutdown_effect_witness :
  exists w', run 1 service_shutdown full = Next () w' [] /\
    load (lifecycle_byte (svc w')) = ShuttingDown /\ count_get (active_tasks (svc w')) = 2.
Proof.
  destruct (io_shutdown_effect 4 1 full) as (w' & Hrun & Hl & _ & Ha & _); [vm_compute; reflexivity|].
  exists w'. split; [exact Hrun|split; [rewrite Hl; vm_compute; reflexivity|rewrite Ha; vm_compute; reflexivity]].
Defined.

